(* ===== verification/_CoqProject ===== *)
-Q . S2P
Prelude.v
PyText.v
Chunker.v
QueryTracker.v
CleanupManager.v
ProviderControl.v
QueryFusion.v
TemporalFusion.v
IdIndex.v
WriteLock.v
TokenBucket.v
AuthLockout.v
Sharding.v
Progress.v
RegexTrigram.v
TrigramIndex.v
TemporalShards.v
TemporalIndexing.v
PayloadCache.v
Aggregation.v
Filters.v
RefreshTokens.v
ElevatedSessions.v
IndexCache.v
JobStore.v
BackgroundJobs.v
ClusterJobs.v
GroupAccess.v
MemoryGovernor.v
AliasRegistry.v
SnapshotRotation.v
RefreshScheduler.v
RefreshCycle.v
EmbeddingCache.v
EmbeddingCoalescer.v
VectorStore.v
BranchVisibility.v
ProviderHealth.v
