(* ===== verification/Prelude.v ===== *)
(** * Verification of code-indexer (cidx)

    code-indexer indexes source repositories for semantic, full-text, regular
    expression and git-history search, as a command line tool and as a clustered
    server.  A file is cut into chunks, chunks are embedded by external providers
    and stored as vector files with a binary index from ids to files; the history
    of a repository goes into one collection per quarter; several providers and
    shards answer a query and their results are fused.  The server keeps "golden"
    repositories, refreshes them under a write lock into new index versions,
    switches an alias and deletes the old version when no query uses it; calls to
    providers are limited and retried, users are rate limited, and a cluster
    spreads repositories over its nodes.

    This library models the decision logic of these parts as executable functions
    and proves what makes them correct.  Paths below are under src/src/code_indexer.

    ** Files

    - [Prelude] (this file): result type for exceptions, exact rationals for
      floats, Python dictionaries as association lists with insertion order, stable
      sorting, tactics ([qcase], [eval_decisions]) and the hint database [cidx].
    - [PyText]: the operations of [str] and [pathlib.PurePosixPath] in use, with the order
      and the words of a text.
    - [Chunker]: indexing/fixed_size_chunker.py.  [chunk_text] is the loop of the
      code with fuel one more than the length of the text, each iteration moving
      forward; [chunk_text_chunks] gives its result in closed form, hence
      termination, and [chunk_text_reassemble] that the text is recovered from
      the chunks.
    - [QueryTracker], [CleanupManager]: global_repos/query_tracker.py and
      cleanup_manager.py.  The class [RefCounter] is the promise of the first to the
      second.  The tracker refines a bag of running queries; a cleanup cycle is
      specified per path; the circuit breaker bounds failed deletions.
    - [ProviderControl]: server/services/resizable_limiter.py, aimd_controller.py,
      provider_concurrency_governor.py and services/provider_backoff.py, one module
      each.  Concurrency never exceeds the limit it was admitted under, slots are
      given back on every path, the limit moves as AIMD prescribes, and the retry
      loop ends within its attempt and time budget.
    - [QueryFusion], [TemporalFusion]: services/query_strategy.py and
      services/temporal/temporal_fusion.py.  Fusion equals its closed formula,
      results are the best ones in order, and nothing is invented.
    - [IdIndex]: storage/id_index_manager.py and the swap of
      background_index_rebuilder.py.  Saving and loading round-trip, every torn file
      is detected, and the operations refine a dictionary.
    - [WriteLock]: global_repos/write_lock_manager.py, as operations of processes on
      several hosts on shared lock files.
    - [TokenBucket], [AuthLockout]: server/auth/token_bucket.py,
      login_rate_limiter.py and mfa_challenge.py; memory and PostgreSQL stores are
      instances of one class or related by a simulation.
    - [Sharding]: server/services/shard_ownership.py and shard_router.py; ownership
      by rendezvous hashing agrees between nodes and moves minimally.
    - [Progress]: services/progress_phase_allocator.py and clean_slot_tracker.py.
    - [RegexTrigram], [TrigramIndex]: global_repos/regex_trigram.py,
      trigram_index_manager.py and the pre-filter of regex_search.py.  The required
      trigrams of a pattern occur in every match, an index answers exactly, and
      together the pre-filter never hides a file that contains a match.  The
      analyser's loop has fuel one more than the pattern's length
      ([runs_loop_fuel]).
    - [TemporalShards], [TemporalIndexing]: services/temporal/
      temporal_collection_naming.py with the pruning of temporal_fusion_dispatch.py
      and the time filter of temporal_search_service.py, then
      temporal_progressive_metadata.py, temporal_incremental_gate.py and
      temporal_reconciliation.py.  Commits are found in the shard they were put in,
      progress survives crashes, the plan holds exactly the work left, and
      reconciliation removes exactly the stray points.
    - [PayloadCache]: server/cache/payload_cache.py over its own table and the two
      backends of server/storage.  The class [PayloadStore] is the promise of a
      store; against it cached content is readable in full, page by page.
    - [Aggregation]: server/omni/result_aggregator.py and
      server/multi/multi_result_aggregator.py.  The reduction and interleaving loops
      have the sum of the allocations and the number of items as fuel, which
      [per_repo_spec] shows to be enough: it gives the number of results.
    - [Filters]: services/path_pattern_matcher.py, path_filter_builder.py and
      filter_conflict_detector.py.  Normalisation is canonical, the pattern cache
      is invisible, conflicts are reported exactly.

    - [RefreshTokens], [ElevatedSessions]: server/auth.  A replayed refresh token ends
      its family in every order of requests; each elevation rests on one opening
      within its two time limits, in either store.
    - [IndexCache]: server/cache, the shape shared by the HNSW, full-text and id
      caches: one load at a time per key, waiters make progress, limits hold.
    - [JobStore], [BackgroundJobs], [ClusterJobs]: server/services/job_tracker.py and
      the job tables, server/repositories/background_jobs.py with its threads, and the
      claims, sweeps and heartbeats of the cluster.  Ended jobs stay ended, none is
      stranded, a repository has one active job per operation, a job of a dead node
      is taken over, and two nodes never both complete one.
    - [GroupAccess]: server/services/group_access_manager.py and
      access_filtering_service.py; what a user sees is what the tables grant.
    - [MemoryGovernor]: server/services/memory_governor.py; the band follows the
      pressure, and admission of heavy jobs rests on a current sample.
    - [AliasRegistry]: global_repos/alias_manager.py, global_registry.py and
      global_activation.py; activation is all or nothing.
    - [SnapshotRotation]: server/storage/shared/snapshot_paths.py and
      snapshot_manager.py, with the publication of versions in refresh_scheduler.py,
      golden_repo_manager.py and mcp/handlers/repos.py; in every interleaving the
      directory an alias names is kept.
    - [RefreshScheduler]: global_repos/git_error_classifier.py, the scheduling half of
      refresh_scheduler.py and server/services/db_outage_throttle.py; every due
      repository is submitted, and failures are retried, re-cloned and logged within
      bounds.
    - [RefreshCycle]: one refresh as a whole, [_execute_refresh] of refresh_scheduler.py,
      over the state of the lock, the cache, the registry, the failure counters and the
      versions; it is a run of the steps of [SnapshotRotation].
    - [EmbeddingCache], [EmbeddingCoalescer]: server/services/query_embedding_cache.py
      with its SQLite table, governed_call.py and embed_event_decision_table.py, then
      embedding_coalescer.py, coalescer_registry.py and the request splitting of the
      embedding clients.  Keys identify queries up to the order of words past an anchor,
      the cache is bounded and never makes a query fail; among any number of callers each
      answer belongs to its caller's query, a batch is one request, and every schedule
      ends, with everyone answered unless a failure has left a key behind.
    - [VectorStore]: storage/filesystem_vector_store.py and the bookkeeping of
      hnsw_index_manager.py: the vector files of a collection, the indexes from
      identifiers and from paths, filters and pages, indexing sessions and the labels of
      the search index.  An upsert replaces the points of its files, a lookup by path is a
      scan, a session updates the search index to what a rebuild would give.  Files with
      the same contents share points; the theorems are about collections where a point
      belongs to one file, [shared_point_has_one_path] shows what happens otherwise.
    - [BranchVisibility]: the branch half of services/high_throughput_processor.py and the
      paged reads of smart_indexer.py.  After a switch the tags of the points and the
      search index both say what the branch contains.  The loop over pages has one more
      than the number of files as fuel; each page moves forward.
    - [ProviderHealth]: services/provider_health_monitor.py and embedder_chain.py.  The
      failures counted are those of the history within the window, a provider that is down
      recovers after as many successful probes as failures, whatever their times, a sin-bin
      survives the process, and the chain answers with the first provider that can.

    ** Conventions

    - An exception is [Err]; a Python [None] result is [None] of [option].
    - Floats are rationals of type [Q]; binary64 rounding is not modelled.
      Integers are [Z], code points and bytes [N].
    - Every clock reading, random draw, result of a system call and outcome of an
      external service is an argument; theorems quantify over it.  Iteration order
      of sets, hash digests, [str.lower] beyond ASCII and the like are section
      parameters with their documented behaviour as named hypotheses.
    - Concurrency is the sequence of atomic operations: whatever runs under one lock
      is one step, and theorems quantify over all sequences.  Where the code splits
      a read and a write over two critical sections, the halves are definitions of
      their own and a lemma shows the interleaving that matters.
    - State is passed explicitly; a dictionary whose order is observable is an
      association list, otherwise a [gmap].
    - Theorems about loops give their result outright, so they include termination.
      Each theorem with hypotheses is followed by an instance on concrete data, named
      after it with the suffix _witness.

    ** Not modelled

    The command line, web routes, MCP handlers and configuration; SQL statements
    beyond the tables named above; git, ripgrep and other subprocesses; the HTTP
    clients of the embedding providers; numerical work on vectors (NumPy, hnswlib)
    and the Tantivy index; the Rust extensions.  They are input and output or
    third-party computation around the logic above.

    ** What could follow

    The call chains of the SCIP queries, the aggregation of the proxy, remote polling,
    and the processing of changed files, which [BranchVisibility] takes as
    a parameter. *)

From Stdlib Require Export QArith Qround Lqa.
From stdpp Require Export base gmap sets list strings sorting.
From stdpp Require Import options.

(** ** Scopes and implicit conventions *)

Declare Scope cidx_scope.
Delimit Scope cidx_scope with cidx.
#[global] Open Scope cidx_scope.

(** A Python [str] whose characters matter is a list of code points; an opaque
    identifier (alias, token, path used as a dictionary key) is a [string]. *)
Abbreviation text := (list N).

Definition txt (s : string) : text :=
  (λ a, Ascii.N_of_ascii a) <$> String.list_ascii_of_string s.

(** ** Suffixes of strings *)

(** [s[:-len(suf)]] when [s] ends with [suf]. *)
Fixpoint strip_suffix (suf s : string) : option string :=
  if decide (s = suf) then Some ""%string
  else match s with
       | EmptyString => None
       | String c s' => String c <$> strip_suffix suf s'
       end.

Lemma string_length_append (a b : string) : String.length (a +:+ b) = (String.length a + String.length b)%nat.
Proof. induction a as [|c a IH]; [done|exact (f_equal S IH)]. Qed.

Lemma strip_suffix_app suf t : strip_suffix suf (t +:+ suf) = Some t.
Proof.
  induction t as [|c t IH].
  - change ("" +:+ suf)%string with suf. destruct suf; cbn [strip_suffix]; by rewrite decide_True.
  - change (String c t +:+ suf) with (String c (t +:+ suf)). cbn [strip_suffix]. rewrite decide_False; [by rewrite IH|].
    intros E%(f_equal String.length). cbn in E. rewrite string_length_append in E. lia.
Qed.

Lemma strip_suffix_Some suf s t : strip_suffix suf s = Some t ↔ s = (t +:+ suf)%string.
Proof.
  split; [|intros ->; apply strip_suffix_app]. revert t. induction s as [|c s IH]; intros t; cbn [strip_suffix]; case_decide as E.
  - intros [= <-]. exact E.
  - done.
  - intros [= <-]. exact E.
  - destruct (strip_suffix suf s) as [t'|] eqn:Es; [|done]. intros [= <-]. by rewrite (IH t' eq_refl).
Qed.

Definition endswith (suf s : string) : bool := bool_decide (is_Some (strip_suffix suf s)).
Definition removesuffix (suf s : string) : string := default s (strip_suffix suf s).

Lemma endswith_app suf t : endswith suf (t +:+ suf) = true.
Proof. unfold endswith. rewrite strip_suffix_app. by apply bool_decide_eq_true. Qed.

Lemma removesuffix_app suf t : removesuffix suf (t +:+ suf) = t.
Proof. unfold removesuffix. by rewrite strip_suffix_app. Qed.

Lemma endswith_removesuffix suf s : endswith suf s = true → (removesuffix suf s +:+ suf)%string = s.
Proof.
  unfold endswith, removesuffix. intros [t Ht]%bool_decide_eq_true. rewrite Ht. symmetry. by apply strip_suffix_Some.
Qed.

(** ASCII letters of a string in lower case. *)
Fixpoint string_lower (s : string) : string :=
  match s with
  | EmptyString => EmptyString
  | String c s' =>
      let n := Ascii.N_of_ascii c in
      String (if (65 <=? n)%N && (n <=? 90)%N then Ascii.ascii_of_N (n + 32) else c) (string_lower s')
  end.

(** A string that Python takes for true. *)
Definition truthy (s : option string) : option string := match s with Some "" => None | _ => s end%string.

(** ** Exceptions as values *)

Inductive result (E A : Type) : Type :=
| Ok (a : A)
| Err (e : E).
Arguments Ok {E A} a.
Arguments Err {E A} e.

#[export] Instance result_ret {E} : MRet (result E) := λ A x, Ok x.
#[export] Instance result_bind {E} : MBind (result E) :=
  λ A B f m, match m with Ok x => f x | Err e => Err e end.
#[export] Instance result_fmap {E} : FMap (result E) :=
  λ A B f m, match m with Ok x => Ok (f x) | Err e => Err e end.

Definition is_ok {E A} (r : result E A) : bool :=
  match r with Ok _ => true | Err _ => false end.

Lemma result_bind_Ok {E A B} (f : A → result E B) (m : result E A) y :
  m ≫= f = Ok y ↔ ∃ x, m = Ok x ∧ f x = Ok y.
Proof. destruct m; split; [eauto| |intros [=]|]; naive_solver. Qed.

Lemma result_bind_Err {E A B} (f : A → result E B) (m : result E A) e :
  m ≫= f = Err e ↔ m = Err e ∨ ∃ x, m = Ok x ∧ f x = Err e.
Proof. destruct m; split; naive_solver. Qed.

(** ** Python floats as exact rationals

    Timestamps, scores and rates are [Q]; rounding of binary64 arithmetic is not
    modelled.  Comparisons are booleans so that definitions run. *)

Definition Qltb (x y : Q) : bool := negb (Qle_bool y x).

Lemma Qle_bool_spec (x y : Q) : BoolSpec (x <= y)%Q (y < x)%Q (Qle_bool x y).
Proof.
  destruct (Qle_bool x y) eqn:E; constructor.
  - by apply Qle_bool_iff.
  - apply Qnot_le_lt. intros H%Qle_bool_iff. congruence.
Qed.

Lemma Qltb_spec (x y : Q) : BoolSpec (x < y)%Q (y <= x)%Q (Qltb x y).
Proof. unfold Qltb. destruct (Qle_bool_spec y x); by constructor. Qed.

Lemma Qeq_bool_spec (x y : Q) : BoolSpec (x == y)%Q (¬ (x == y))%Q (Qeq_bool x y).
Proof.
  destruct (Qeq_bool x y) eqn:E; constructor.
  - by apply Qeq_bool_iff.
  - intros H%Qeq_bool_iff. congruence.
Qed.

Lemma Qltb_true (x y : Q) : Qltb x y = true ↔ (x < y)%Q.
Proof. destruct (Qltb_spec x y); split; intros; try done; lra. Qed.

Lemma Qltb_false (x y : Q) : Qltb x y = false ↔ (y <= x)%Q.
Proof. destruct (Qltb_spec x y); split; intros; try done; lra. Qed.

Lemma Qle_bool_false (x y : Q) : Qle_bool x y = false ↔ (y < x)%Q.
Proof. destruct (Qle_bool_spec x y); split; intros; try done; lra. Qed.

(** Case analysis on an innermost rational comparison of the goal. *)
Ltac no_qtest t :=
  lazymatch t with
  | context [Qltb _ _] => fail
  | context [Qle_bool _ _] => fail
  | context [Qeq_bool _ _] => fail
  | _ => idtac
  end.

Ltac qcase_in_goal :=
  match goal with
  | |- context [Qltb ?x ?y] => no_qtest x; no_qtest y; destruct (Qltb_spec x y)
  | |- context [Qle_bool ?x ?y] => no_qtest x; no_qtest y; destruct (Qle_bool_spec x y)
  | |- context [Qeq_bool ?x ?y] => no_qtest x; no_qtest y; destruct (Qeq_bool_spec x y)
  end.

Ltac qcase_in H :=
  match type of H with
  | context [Qltb ?x ?y] => destruct (Qltb_spec x y)
  | context [Qle_bool ?x ?y] => destruct (Qle_bool_spec x y)
  | context [Qeq_bool ?x ?y] => destruct (Qeq_bool_spec x y)
  end.

Tactic Notation "qcase" := qcase_in_goal.
Tactic Notation "qcase" "in" hyp(H) := qcase_in H.

(** Python's [min(a, b)] and [max(a, b)] return the first of two equal arguments. *)
Definition pymin (a b : Q) : Q := if Qltb b a then b else a.
Definition pymax (a b : Q) : Q := if Qltb a b then b else a.

Lemma pymin_spec a b : (pymin a b <= a ∧ pymin a b <= b ∧ (pymin a b = a ∨ pymin a b = b))%Q.
Proof. unfold pymin. qcase; split_and!; auto; lra. Qed.

Lemma pymax_spec a b : (a <= pymax a b ∧ b <= pymax a b ∧ (pymax a b = a ∨ pymax a b = b))%Q.
Proof. unfold pymax. qcase; split_and!; auto; lra. Qed.

(** Replace every [pymin]/[pymax] of the goal by a variable with its bounds. *)
Ltac qminmax :=
  repeat match goal with
  | |- context [pymin ?a ?b] =>
      let H := fresh "Hmin" in pose proof (pymin_spec a b) as H;
      let m := fresh "mn" in set (m := pymin a b) in *; clearbody m
  | |- context [pymax ?a ?b] =>
      let H := fresh "Hmax" in pose proof (pymax_spec a b) as H;
      let m := fresh "mx" in set (m := pymax a b) in *; clearbody m
  end.

Lemma inject_Z_nonneg z : (0 <= z)%Z → (0 <= inject_Z z)%Q.
Proof. intros. change 0%Q with (inject_Z 0). by rewrite <-Zle_Qle. Qed.

(** [max(key(x) for x in l)] of a non-empty list: the first maximal element. *)
Fixpoint max_by {A} (key : A → Q) (x : A) (l : list A) : A :=
  match l with
  | [] => x
  | y :: l' => if Qltb (key x) (key y) then max_by key y l' else max_by key x l'
  end.

Lemma max_by_in {A} (key : A → Q) x l : max_by key x l ∈ x :: l.
Proof.
  revert x. induction l as [|y l IH]; intros x; simpl; [set_solver|].
  qcase; [pose proof (IH y)|pose proof (IH x)]; set_solver.
Qed.

Lemma max_by_ge {A} (key : A → Q) x l y : y ∈ x :: l → (key y <= key (max_by key x l))%Q.
Proof.
  revert x y. induction l as [|z l IH]; intros x y; simpl.
  - intros ->%list_elem_of_singleton. lra.
  - pose proof (IH x) as IHx. pose proof (IH z) as IHz.
    rewrite !elem_of_cons in *. setoid_rewrite elem_of_cons in IHx.
    setoid_rewrite elem_of_cons in IHz.
    pose proof (IHx x (or_introl eq_refl)). pose proof (IHz z (or_introl eq_refl)).
    qcase; intros [->|[->|Hin]]; try lra; eauto.
Qed.

Lemma max_by_snoc {A} (key : A → Q) x l y :
  max_by key x (l ++ [y]) = if Qltb (key (max_by key x l)) (key y) then y else max_by key x l.
Proof. revert x. induction l as [|z l IH]; intros x; simpl; [done|]. qcase; apply IH. Qed.

Definition sumQ (l : list Q) : Q := foldr Qplus 0%Q l.

Lemma sumQ_app l k : (sumQ (l ++ k) == sumQ l + sumQ k)%Q.
Proof. induction l as [|x l IH]; simpl; [lra|]. rewrite IH. lra. Qed.

Lemma foldl_sumQ l x : (foldl Qplus x l == x + sumQ l)%Q.
Proof. revert x. induction l as [|y l IH]; intros x; simpl; [lra|]. rewrite IH. lra. Qed.

Lemma sumQ_nonneg l : Forall (λ x, 0 <= x)%Q l → (0 <= sumQ l)%Q.
Proof. induction 1; simpl; lra. Qed.

(** ** Python slices and prefixes *)

(** [l[a:b]] for non-negative bounds. *)
Definition slice {A} (l : list A) (a b : nat) : list A := take (b - a) (drop a l).

Lemma slice_length {A} (l : list A) a b :
  length (slice l a b) = (b - a) `min` (length l - a).
Proof. unfold slice. by rewrite length_take, length_drop. Qed.

Lemma take_slice_app {A} (l : list A) a b : a ≤ b → take a l ++ slice l a b = take b l.
Proof.
  intros. unfold slice. rewrite <-(take_drop a (take b l)) at 1.
  rewrite take_take, Nat.min_l by done. by rewrite skipn_firstn_comm.
Qed.

Lemma sublist_elem_of {A} (x : A) l k : x ∈ l → l `sublist_of` k → x ∈ k.
Proof.
  intros Hx Hs. induction Hs as [|y l k Hs IH|y l k Hs IH]; [done| |right; auto].
  apply elem_of_cons in Hx as [->|Hx]; [left|right; auto].
Qed.

Lemma sublist_filter_mono {A} (P : A → Prop) `{∀ x, Decision (P x)} l k :
  l `sublist_of` k → filter P l `sublist_of` filter P k.
Proof.
  induction 1 as [|x l k Hs IH|x l k Hs IH]; [done|..]; rewrite ?filter_cons; case_decide; auto using sublist_skip, sublist_cons.
Qed.

Lemma list_filter_all {A} (P : A → Prop) `{∀ x, Decision (P x)} (l : list A) : (∀ x, x ∈ l → P x) → filter P l = l.
Proof.
  induction l as [|x l IH]; intros Ha; [done|]. rewrite filter_cons_True by (apply Ha; left). f_equal. apply IH. intros y Hy. apply Ha. by right.
Qed.

(** A key without duplicates identifies the element. *)
Lemma NoDup_key_inj {A B} (f : A → B) l x y : NoDup (f <$> l) → x ∈ l → y ∈ l → f x = f y → x = y.
Proof.
  intros Hnd (i&Hi)%list_elem_of_lookup (j&Hj)%list_elem_of_lookup Heq. assert (i = j) as ->; [|congruence].
  eapply NoDup_lookup; [exact Hnd|by rewrite list_lookup_fmap, Hi|rewrite list_lookup_fmap, Hj; cbn; congruence].
Qed.

Lemma filter_none_nil {A} (P : A → Prop) `{∀ x, Decision (P x)} l : (∀ x, x ∈ l → ¬ P x) → filter P l = [].
Proof.
  induction l as [|x l IH]; intros Hn; [done|]. rewrite filter_cons_False by (apply Hn; left). apply IH. intros y Hy. apply Hn. by right.
Qed.

Lemma elem_of_concat {A} (x : A) ls : x ∈ concat ls ↔ ∃ l, l ∈ ls ∧ x ∈ l.
Proof.
  induction ls as [|l ls IH]; simpl.
  - split; [by intros ?%not_elem_of_nil|by intros (?&?%not_elem_of_nil&_)].
  - rewrite elem_of_app, IH. setoid_rewrite elem_of_cons. naive_solver.
Qed.

(** [l[:n]]; a negative bound counts from the end. *)
Definition upto {A} (n : Z) (l : list A) : list A :=
  take (Z.to_nat (if (0 <=? n)%Z then n else Z.of_nat (length l) + n)) l.

Lemma upto_nonneg {A} n (l : list A) : (0 <= n)%Z → upto n l = take (Z.to_nat n) l.
Proof. unfold upto. by destruct (Z.leb_spec 0 n); [|lia]. Qed.

Lemma upto_fmap {A B} (f : A → B) n (l : list A) : upto n (f <$> l) = f <$> upto n l.
Proof. unfold upto. by rewrite length_fmap, fmap_take. Qed.

Lemma upto_sublist {A} n (l : list A) : upto n l `sublist_of` l.
Proof. apply sublist_take. Qed.

(** ** Insertion-ordered dictionaries

    Python dictionaries iterate in insertion order; where the order can be
    observed (stable sorts, serialised order) they are association lists. *)
Section dict.
Context {K V : Type} `{EqDecision K}.
Implicit Types (d : list (K * V)).

Fixpoint dget (k : K) d : option V :=
  match d with
  | [] => None
  | (k', v) :: d' => if decide (k = k') then Some v else dget k d'
  end.

(** [d[k] = v]: update in place, or append. *)
Fixpoint dset (k : K) (v : V) d : list (K * V) :=
  match d with
  | [] => [(k, v)]
  | (k', v') :: d' =>
      if decide (k = k') then (k', v) :: d' else (k', v') :: dset k v d'
  end.

(** [d.pop(k, None)]. *)
Definition ddel (k : K) d : list (K * V) :=
  filter (λ p, p.1 ≠ k) d.

(** [d.update(e)]. *)
Definition dupdate d (e : list (K * V)) : list (K * V) :=
  foldl (λ acc p, dset p.1 p.2 acc) d e.

Lemma dget_dset_eq k v d : dget k (dset k v d) = Some v.
Proof. induction d as [|[k' v'] d IH]; simpl; repeat case_decide; simpl; by repeat case_decide. Qed.

Lemma dget_dset_ne k k' v d : k ≠ k' → dget k' (dset k v d) = dget k' d.
Proof.
  intros Hne. induction d as [|[k1 v1] d IH]; simpl; repeat case_decide; simpl;
    repeat case_decide; by simplify_eq.
Qed.

Lemma dget_dset k k' v d :
  dget k' (dset k v d) = if decide (k = k') then Some v else dget k' d.
Proof. case_decide; [subst; apply dget_dset_eq|by apply dget_dset_ne]. Qed.

Lemma dget_ddel k k' d :
  dget k' (ddel k d) = if decide (k = k') then None else dget k' d.
Proof.
  unfold ddel. induction d as [|[k1 v1] d IH]; simpl; [by case_decide|].
  rewrite filter_cons. simpl in *. repeat case_decide; simpl; repeat case_decide; by simplify_eq.
Qed.

Lemma dget_None k d : dget k d = None ↔ k ∉ d.*1.
Proof.
  induction d as [|[k' v'] d IH]; simpl; [set_solver|].
  rewrite elem_of_cons. case_decide; naive_solver.
Qed.

Lemma dget_elem_of k v d : dget k d = Some v → (k, v) ∈ d.
Proof.
  induction d as [|[k' v'] d IH]; simpl; [done|].
  case_decide; intros; simplify_eq; set_solver.
Qed.

Lemma elem_of_dget k v d : NoDup d.*1 → (k, v) ∈ d → dget k d = Some v.
Proof.
  induction d as [|[k' v'] d IH]; simpl; [set_solver|].
  rewrite NoDup_cons, elem_of_cons. intros [Hnin Hnd] [?|Hin]; simplify_eq.
  - by rewrite decide_True.
  - rewrite decide_False; [by apply IH|]. intros ->. apply Hnin.
    apply list_elem_of_fmap. by exists (k', v).
Qed.

Lemma dset_keys k v d :
  (dset k v d).*1 = if decide (k ∈ d.*1) then d.*1 else d.*1 ++ [k].
Proof.
  induction d as [|[k' v'] d IH]; [done|].
  cbn [dset]. destruct (decide (k = k')) as [->|Hk]; rewrite !fmap_cons; cbn [fst].
  - by rewrite decide_True by set_solver.
  - rewrite IH. destruct (decide (k ∈ d.*1)).
    + by rewrite decide_True by set_solver.
    + rewrite decide_False by set_solver. done.
Qed.

Lemma dset_NoDup k v d : NoDup d.*1 → NoDup (dset k v d).*1.
Proof.
  intros. rewrite dset_keys. case_decide; [done|].
  apply NoDup_app; split_and!; [done|set_solver|apply NoDup_singleton].
Qed.

Lemma dset_elem_of_keys k v d k' : k' ∈ (dset k v d).*1 ↔ k' = k ∨ k' ∈ d.*1.
Proof. rewrite dset_keys. case_decide; set_solver. Qed.

Lemma ddel_NoDup k d : NoDup d.*1 → NoDup (ddel k d).*1.
Proof.
  unfold ddel. induction d as [|[k' v'] d IH]; simpl; [done|].
  rewrite NoDup_cons, filter_cons. intros [Hnin Hnd].
  case_decide; simpl; [|by auto]. apply NoDup_cons; split; [|by auto].
  intros ([k1 v1]&->&Hin%list_elem_of_filter)%list_elem_of_fmap. simpl in *.
  apply Hnin, list_elem_of_fmap. by exists (k1, v1); naive_solver.
Qed.

Lemma dupdate_NoDup d e : NoDup d.*1 → NoDup (dupdate d e).*1.
Proof.
  unfold dupdate. revert d. induction e as [|[k v] e IH]; intros d; simpl; [done|].
  intros. by apply IH, dset_NoDup.
Qed.

Lemma dget_dupdate d e k : NoDup e.*1 →
  dget k (dupdate d e) = match dget k e with Some v => Some v | None => dget k d end.
Proof.
  unfold dupdate. revert d. induction e as [|[k' v'] e IH]; intros d; simpl; [done|].
  rewrite NoDup_cons. intros [Hnin Hnd]. rewrite IH by done. rewrite dget_dset.
  destruct (dget k e) eqn:E; repeat case_decide; simplify_eq; try done.
  exfalso. apply Hnin. apply dget_elem_of in E. apply list_elem_of_fmap. eexists. by split; [|exact E].
Qed.

Lemma dset_Forall (P : K * V → Prop) k v d : P (k, v) → Forall P d → Forall P (dset k v d).
Proof.
  intros Hkv. induction 1 as [|[k' v'] d Hp Hd IH]; cbn [dset]; [by repeat constructor|].
  case_decide; subst; by constructor.
Qed.

Lemma dupdate_Forall (P : K * V → Prop) d e : Forall P d → Forall P e → Forall P (dupdate d e).
Proof.
  unfold dupdate. intros Hd He. revert d Hd. induction He as [|[k v] e Hp He IH]; intros d Hd; [done|].
  cbn [foldl]. by apply IH, dset_Forall.
Qed.

Lemma ddel_Forall (P : K * V → Prop) k d : Forall P d → Forall P (ddel k d).
Proof. unfold ddel. rewrite !Forall_forall. intros H x [_ ?]%list_elem_of_filter. auto. Qed.

Lemma ddel_length k d : length (ddel k d) ≤ length d.
Proof. apply length_filter. Qed.

Lemma dset_fresh k v d : k ∉ d.*1 → dset k v d = d ++ [(k, v)].
Proof.
  induction d as [|[k' v'] d IH]; cbn; [done|]. rewrite not_elem_of_cons. intros [Hne Hnin].
  rewrite decide_False by done. by rewrite IH.
Qed.

Lemma dupdate_fresh d e : NoDup (d ++ e).*1 → dupdate d e = d ++ e.
Proof.
  unfold dupdate. revert d. induction e as [|[k v] e IH]; intros d Hnd; cbn; [by rewrite app_nil_r|].
  rewrite fmap_app in Hnd. apply NoDup_app in Hnd as (H1&H2&H3).
  rewrite dset_fresh. 2: { intros Hin. apply (H2 k Hin). left. }
  rewrite IH, <-app_assoc; [done|]. rewrite !fmap_app, <-app_assoc. apply NoDup_app. done.
Qed.
End dict.

(** ** Stable descending sort: [sorted(l, key=..., reverse=True)]

    Python's sort is stable, also with [reverse=True]: elements with equal keys
    keep their order. *)
Section sort_desc.
Context {A : Type} (key : A → Q).

Fixpoint insert_desc (x : A) (l : list A) : list A :=
  match l with
  | [] => [x]
  | y :: l' => if Qltb (key x) (key y) then y :: insert_desc x l' else x :: l
  end.

Definition sort_desc (l : list A) : list A := foldr insert_desc [] l.

Definition desc (x y : A) : Prop := (key y <= key x)%Q.

#[export] Instance desc_trans : Transitive desc.
Proof. unfold desc. intros x y z ??. lra. Qed.

Lemma insert_desc_perm x l : insert_desc x l ≡ₚ x :: l.
Proof.
  induction l as [|y l IH]; simpl; [done|]. qcase; [|done].
  rewrite IH. constructor.
Qed.

Lemma sort_desc_perm l : sort_desc l ≡ₚ l.
Proof. induction l as [|x l IH]; simpl; [done|]. by rewrite insert_desc_perm, IH. Qed.

Lemma insert_desc_sorted x l : StronglySorted desc l → StronglySorted desc (insert_desc x l).
Proof.
  induction 1 as [|y l Hs IH Hall]; simpl; [by repeat constructor|].
  qcase; constructor; try done.
  - rewrite insert_desc_perm. constructor; [unfold desc; lra|done].
  - by constructor.
  - constructor; [done|]. eapply Forall_impl; [done|]. unfold desc. intros. lra.
Qed.

Lemma sort_desc_sorted l : StronglySorted desc (sort_desc l).
Proof. induction l; simpl; [constructor|by apply insert_desc_sorted]. Qed.

(** Stability: the sub-list of the elements whose key equals a given key is unchanged. *)
Lemma insert_desc_stable x l (k : Q) :
  filter (λ y, Qeq_bool (key y) k = true) (insert_desc x l) =
  filter (λ y, Qeq_bool (key y) k = true) (x :: l).
Proof.
  induction l as [|y l IH]; cbn [insert_desc]; [done|]. qcase; [|done].
  rewrite filter_cons, IH, !filter_cons. repeat case_decide; try done.
  exfalso. repeat match goal with H : Qeq_bool _ _ = true |- _ => apply Qeq_bool_iff in H end.
  lra.
Qed.

Lemma sort_desc_stable l (k : Q) :
  filter (λ y, Qeq_bool (key y) k = true) (sort_desc l) =
  filter (λ y, Qeq_bool (key y) k = true) l.
Proof.
  induction l as [|x l IH]; [done|]. cbn [sort_desc foldr].
  rewrite insert_desc_stable, !filter_cons, <-IH. done.
Qed.

Lemma desc_sublist l k : l `sublist_of` k → StronglySorted desc k → StronglySorted desc l.
Proof.
  induction 1 as [|x l k Hs IH|x l k Hs IH]; intros Hk; [done| |]; inversion Hk; subst; [|by auto].
  constructor; [by auto|]. rewrite Forall_forall in *. eauto using sublist_elem_of.
Qed.

(** Truncating a descending list keeps the best elements. *)
Lemma sort_desc_take_best n l x y :
  x ∈ take n (sort_desc l) → y ∈ drop n (sort_desc l) → desc x y.
Proof.
  pose proof (sort_desc_sorted l) as Hs. rewrite <-(take_drop n (sort_desc l)) in Hs.
  intros. by eapply StronglySorted_app_1_elem_of.
Qed.

(** [out] holds the first [n] candidates in descending order of [key]. *)
Definition top_n (n : Z) (cands out : list A) : Prop :=
  ∃ rest, cands ≡ₚ out ++ rest ∧ StronglySorted desc out ∧
    (∀ x y, x ∈ out → y ∈ rest → desc x y) ∧
    ((0 <= n)%Z → length out = Z.to_nat n `min` length cands).

Lemma upto_sort_top n l : top_n n l (upto n (sort_desc l)).
Proof.
  unfold upto. set (m := Z.to_nat _). exists (drop m (sort_desc l)). split_and!.
  - by rewrite take_drop, sort_desc_perm.
  - eapply desc_sublist; [apply sublist_take|apply sort_desc_sorted].
  - apply sort_desc_take_best.
  - intros Hn. subst m. destruct (Z.leb_spec 0 n); [|lia].
    by rewrite length_take, (Permutation_length (sort_desc_perm l)).
Qed.

Lemma top_elem n cands out x : top_n n cands out → x ∈ out → x ∈ cands.
Proof. intros (rest&->&_) Hx. apply elem_of_app. by left. Qed.
End sort_desc.

(** Evaluate the decisions on closed propositions. *)
Ltac eval_decisions :=
  repeat match goal with
  | |- context [bool_decide ?P] =>
      let b := eval vm_compute in (bool_decide P) in
      lazymatch b with true => idtac | false => idtac end;
      change (bool_decide P) with b; cbn iota
  end.

(** ** Hints shared by the components *)

Create HintDb cidx discriminated.
#[export] Hint Resolve dset_NoDup ddel_NoDup dupdate_NoDup sort_desc_perm sort_desc_sorted : cidx.
#[export] Hint Resolve NoDup_nil_2 : cidx.
