(* ===== verification/PyText.v ===== *)
(** * Python text and paths

    The parts of [str] and [pathlib.PurePosixPath] the components use: stripping,
    splitting, joining, ordering, substring tests, replacement, and POSIX paths with their parsing, printing, [name], [suffix], [relative_to]
    and [/].  Text is a list of code points. *)

From S2P Require Import Prelude.
From stdpp Require Import options.

(** ** Characters *)

(** [str.isspace] on one code point (the characters [str.strip()] removes). *)
Definition is_space (c : N) : bool :=
  ((9 <=? c) && (c <=? 13))%N || ((28 <=? c) && (c <=? 32))%N ||
  (c =? 133)%N || (c =? 160)%N || (c =? 5760)%N ||
  ((8192 <=? c) && (c <=? 8202))%N || (c =? 8232)%N || (c =? 8233)%N ||
  (c =? 8239)%N || (c =? 8287)%N || (c =? 12288)%N.

Definition newline : N := 10.
Definition slash : N := 47.
Definition backslash : N := 92.
Definition dot : N := 46.
Definition comma : N := 44.
Definition star : N := 42.

(** ASCII part of [str.lower]. *)
Definition ascii_lower_char (c : N) : N :=
  if ((65 <=? c) && (c <=? 90))%N then (c + 32)%N else c.
Definition ascii_lower (s : text) : text := ascii_lower_char <$> s.

(** ** Stripping *)

Fixpoint lstrip_by (p : N → bool) (s : text) : text :=
  match s with
  | [] => []
  | c :: s' => if p c then lstrip_by p s' else s
  end.
Definition rstrip_by (p : N → bool) (s : text) : text := reverse (lstrip_by p (reverse s)).
Definition strip_by (p : N → bool) (s : text) : text := rstrip_by p (lstrip_by p s).
Definition strip (s : text) : text := strip_by is_space s.

(** [not s.strip()] *)
Definition blank (s : text) : bool := forallb is_space s.

Lemma lstrip_by_nil p s : lstrip_by p s = [] ↔ forallb p s = true.
Proof.
  induction s as [|c s IH]; simpl; [done|]. destruct (p c); simpl; [done|]. by split.
Qed.

Lemma forallb_reverse (p : N → bool) s : forallb p (reverse s) = forallb p s.
Proof.
  induction s as [|c s IH]; [done|].
  rewrite reverse_cons, forallb_app, IH. simpl. by rewrite andb_true_r, andb_comm.
Qed.

(** The blank test used by the models agrees with stripping. *)
Lemma strip_nil s : strip s = [] ↔ blank s = true.
Proof.
  unfold strip, strip_by, rstrip_by, blank. split.
  - intros H. apply (f_equal reverse) in H. rewrite reverse_involutive, reverse_nil in H.
    apply lstrip_by_nil in H. rewrite forallb_reverse in H.
    induction s as [|c s IH]; simpl in *; [done|]. destruct (is_space c) eqn:E; simpl in *; [auto|].
    by rewrite E in H.
  - intros H. by rewrite (proj2 (lstrip_by_nil _ _) H).
Qed.

(** ** Searching, splitting and joining *)

Fixpoint is_prefix (p s : text) : bool :=
  match p, s with
  | [], _ => true
  | c :: p', d :: s' => (c =? d)%N && is_prefix p' s'
  | _ :: _, [] => false
  end.

Fixpoint contains (p s : text) : bool :=
  is_prefix p s || match s with [] => false | _ :: s' => contains p s' end.

Lemma is_prefix_spec p s : is_prefix p s = true ↔ ∃ k, s = p ++ k.
Proof.
  revert s. induction p as [|c p IH]; intros [|d s]; simpl; [by split; eauto..| |].
  { split; [done|intros [k [=]]]. }
  rewrite andb_true_iff, N.eqb_eq, IH. split; [intros [-> [k ->]]; eauto|].
  intros [k Hk]. simplify_eq. eauto.
Qed.

(** [p in s] for strings: [p] occurs contiguously. *)
Definition substring (p s : text) : Prop := ∃ a b, s = a ++ p ++ b.

Lemma contains_spec p s : contains p s = true ↔ substring p s.
Proof.
  unfold substring. induction s as [|c s IH]; simpl; rewrite orb_true_iff, is_prefix_spec.
  - split; [intros [[k ?]|]; [by exists [], k|done]|].
    intros (a&b&H). symmetry in H. apply app_nil in H as [-> H]. eauto.
  - rewrite IH. split.
    + intros [[k ?]|(a&b&->)]; [by exists [], k|by exists (c :: a), b].
    + intros ([|d a]&b&H); [left; eauto|]. right. simpl in H. simplify_eq. eauto.
Qed.

Definition count_char (c : N) (s : text) : nat := length (filter (λ d, d = c) s).

Lemma count_char_app c s t : count_char c (s ++ t) = count_char c s + count_char c t.
Proof. unfold count_char. by rewrite filter_app, length_app. Qed.

(** [s.replace(a, b)] for single characters. *)
Definition replace_char (a b : N) (s : text) : text := (λ c, if (c =? a)%N then b else c) <$> s.

(** [s.split(sep)] for a one-character separator: always at least one field. *)
Fixpoint split_on (sep : N) (s : text) : list text :=
  match s with
  | [] => [[]]
  | c :: s' =>
      if (c =? sep)%N then [] :: split_on sep s'
      else match split_on sep s' with
           | f :: fs => (c :: f) :: fs
           | [] => [[c]]
           end
  end.

(** [sep.join(fields)]. *)
Fixpoint join (sep : N) (fs : list text) : text :=
  match fs with
  | [] => []
  | [f] => f
  | f :: fs' => f ++ sep :: join sep fs'
  end.

Lemma split_on_no_sep sep s : sep ∉ s → split_on sep s = [s].
Proof.
  induction s as [|c s IH]; [done|]. intros [Hne Hnin]%not_elem_of_cons. simpl.
  rewrite (proj2 (N.eqb_neq c sep)) by congruence. by rewrite IH.
Qed.

Lemma split_on_app sep f s : sep ∉ f → split_on sep (f ++ sep :: s) = f :: split_on sep s.
Proof.
  induction f as [|c f IH]; simpl; [by rewrite N.eqb_refl|].
  intros [Hne Hnin]%not_elem_of_cons. rewrite (proj2 (N.eqb_neq c sep)) by congruence.
  by rewrite IH.
Qed.

Lemma split_join sep fs :
  fs ≠ [] → Forall (λ f, sep ∉ f) fs → split_on sep (join sep fs) = fs.
Proof.
  intros Hne Hall. induction fs as [|f fs IH]; [done|].
  apply Forall_cons in Hall as [Hf Hfs]. destruct fs as [|g fs].
  - by apply split_on_no_sep.
  - change (join sep (f :: g :: fs)) with (f ++ sep :: join sep (g :: fs)).
    rewrite split_on_app by done. f_equal. by apply IH.
Qed.

Lemma split_on_Forall sep s : Forall (λ f, sep ∉ f) (split_on sep s).
Proof.
  induction s as [|c s IH]; simpl; [repeat constructor; set_solver|].
  destruct (N.eqb_spec c sep) as [->|Hne]; [constructor; [set_solver|done]|].
  destruct (split_on sep s); [repeat constructor; set_solver|].
  apply Forall_cons in IH as [??]. constructor; [set_solver|done].
Qed.

(** ** Ordering and whitespace *)

(** Code-point order on strings. *)
Fixpoint text_leb (a b : text) : bool :=
  match a, b with
  | [], _ => true
  | _ :: _, [] => false
  | x :: a', y :: b' => if (x <? y)%N then true else if (y <? x)%N then false else text_leb a' b'
  end.

Fixpoint insert_text (x : text) (l : list text) : list text :=
  match l with
  | [] => [x]
  | y :: l' => if text_leb x y then x :: l else y :: insert_text x l'
  end.

Definition sort_texts (l : list text) : list text := foldr insert_text [] l.

Lemma text_leb_trans a b c : text_leb a b = true → text_leb b c = true → text_leb a c = true.
Proof.
  revert b c. induction a as [|x a IH]; intros [|y b] [|z c]; cbn; try done.
  destruct (N.ltb_spec x y), (N.ltb_spec y z), (N.ltb_spec y x), (N.ltb_spec z y), (N.ltb_spec x z), (N.ltb_spec z x);
    try done; try lia. apply IH.
Qed.

Lemma text_leb_total a b : text_leb a b = false → text_leb b a = true.
Proof.
  revert b. induction a as [|x a IH]; intros [|y b]; cbn; try done.
  destruct (N.ltb_spec x y), (N.ltb_spec y x); try done; try lia. apply IH.
Qed.

Lemma text_leb_prefix p a b : text_leb (p ++ a) (p ++ b) = text_leb a b.
Proof. induction p as [|x p IH]; cbn; [done|]. by rewrite N.ltb_irrefl. Qed.

Lemma sort_texts_perm l : sort_texts l ≡ₚ l.
Proof.
  assert (∀ x l, insert_text x l ≡ₚ x :: l) as Hins.
  { intros x k. induction k as [|y k IH]; cbn; [done|]. destruct (text_leb x y); [done|]. rewrite IH. constructor. }
  induction l as [|x l IH]; cbn; [done|]. by rewrite Hins, IH.
Qed.

Lemma sort_texts_sorted l : StronglySorted (λ a b, text_leb a b = true) (sort_texts l).
Proof.
  assert (∀ x k, StronglySorted (λ a b, text_leb a b = true) k →
    StronglySorted (λ a b, text_leb a b = true) (insert_text x k)) as Hins.
  { intros x k. induction 1 as [|y k Hs IH Hall]; cbn; [by repeat constructor|].
    destruct (text_leb x y) eqn:E.
    - constructor; [by constructor|]. constructor; [done|]. eapply Forall_impl; [exact Hall|].
      intros z Hz. by eapply text_leb_trans.
    - apply text_leb_total in E. constructor; [done|]. clear IH Hs. induction Hall as [|z k Hz Hall IH]; cbn; [by constructor|].
      destruct (text_leb x z); [by repeat constructor|]. constructor; [done|apply IH]. }
  induction l as [|x l IH]; cbn; [constructor|]. by apply Hins.
Qed.

Lemma text_leb_antisymm a b : text_leb a b = true → text_leb b a = true → a = b.
Proof.
  revert b. induction a as [|x a IH]; intros [|y b]; cbn; try done.
  destruct (N.ltb_spec x y), (N.ltb_spec y x); try done; try lia. intros. f_equal; [lia|auto].
Qed.

(** Sorting forgets the order and nothing else. *)
Lemma sort_texts_eq l k : sort_texts l = sort_texts k ↔ l ≡ₚ k.
Proof.
  split; intros H.
  - by rewrite <-(sort_texts_perm l), H, sort_texts_perm.
  - assert (AntiSymm eq (λ a b, text_leb a b = true)) by (intros a b; apply text_leb_antisymm).
    apply (StronglySorted_unique (λ a b, text_leb a b = true)); [apply sort_texts_sorted..|by rewrite !sort_texts_perm].
Qed.

(** [s.split()]: the maximal runs of characters that are no whitespace. *)
Definition at_break (s : text) : bool := match s with c :: _ => is_space c | [] => true end.

Fixpoint words (s : text) : list text :=
  match s with
  | [] => []
  | c :: s' =>
      if is_space c then words s'
      else if at_break s' then [c] :: words s'
      else match words s' with w :: ws => (c :: w) :: ws | [] => [[c]] end
  end.

Definition is_word (w : text) : Prop := w ≠ [] ∧ Forall (λ c, is_space c = false) w.

Lemma words_app w s : is_word w → at_break s = true → words (w ++ s) = w :: words s.
Proof.
  intros [Hne Hw] Hs. induction Hw as [|d w Hd Hw IH]; [done|]. cbn [app]. cbn [words]. rewrite Hd.
  destruct w as [|e w]; cbn [app]; [by rewrite Hs|]. cbn [at_break]. apply Forall_cons in Hw as [-> _].
  change (e :: (w ++ s)) with ((e :: w) ++ s). by rewrite IH.
Qed.

Lemma words_are_words s : Forall is_word (words s).
Proof.
  induction s as [|c s IH]; cbn; [done|]. destruct (is_space c) eqn:E; [done|].
  assert (is_word [c]) as Hc by (split; [done|by repeat constructor]).
  destruct (at_break s); [by constructor|]. destruct (words s) as [|w ws]; [by constructor|].
  apply Forall_cons in IH as [[? ?] ?]. constructor; [|done]. split; [done|by constructor].
Qed.

(** Words joined by whitespace are split apart again. *)
Lemma words_join sep ws : is_space sep = true → Forall is_word ws → words (join sep ws) = ws.
Proof.
  intros Hs. induction 1 as [|w ws Hw Hws IH]; [done|]. destruct ws as [|v ws].
  - cbn [join]. rewrite <-(app_nil_r w) at 1. by rewrite words_app.
  - change (join sep (w :: v :: ws)) with (w ++ sep :: join sep (v :: ws)). rewrite words_app by done.
    cbn [words]. by rewrite Hs, IH.
Qed.

(** ** [PurePosixPath] *)

(** [proot] is the number of slashes of the root: 0 for a relative path, 1 for
    ["/"] and 2 for the POSIX special root ["//"]. *)
Record Path := MkPath { proot : nat; ptail : list text }.

#[export] Instance Path_eq_dec : EqDecision Path.
Proof. solve_decision. Defined.

Fixpoint leading_slashes (s : text) : nat :=
  match s with
  | c :: s' => if (c =? slash)%N then S (leading_slashes s') else 0
  | [] => 0
  end.

Definition path_component (f : text) : bool := bool_decide (f ≠ [] ∧ f ≠ [dot]).

Definition path_of (s : text) : Path :=
  {| proot := match leading_slashes s with 0 => 0 | 2 => 2 | _ => 1 end;
     ptail := filter (λ f, path_component f) (split_on slash s) |}.

Definition root_text (r : nat) : text := replicate r slash.

Definition path_str (p : Path) : text :=
  match proot p, ptail p with
  | 0, [] => [dot]
  | r, fs => root_text r ++ join slash fs
  end.

Definition path_parts (p : Path) : list text :=
  (if decide (proot p = 0) then [] else [root_text (proot p)]) ++ ptail p.

Definition is_absolute (p : Path) : bool := negb (proot p =? 0).

Definition path_name (p : Path) : text := default [] (last (ptail p)).

(** Position of the last dot of a name, as [str.rfind]. *)
Fixpoint rfind_dot (s : text) : option nat :=
  match s with
  | [] => None
  | c :: s' =>
      match rfind_dot s' with
      | Some i => Some (S i)
      | None => if (c =? dot)%N then Some 0 else None
      end
  end.

Definition path_suffix (p : Path) : text :=
  let name := path_name p in
  match rfind_dot name with
  | Some i => if (0 <? i) && (i <? length name - 1) then drop i name else []
  | None => []
  end.

(** [self / other]. *)
Definition path_join (p q : Path) : Path :=
  if is_absolute q then q else {| proot := proot p; ptail := ptail p ++ ptail q |}.

(** [p.relative_to(other)]; [None] stands for [ValueError]. *)
Fixpoint strip_fields (pre l : list text) : option (list text) :=
  match pre, l with
  | [], _ => Some l
  | a :: pre', b :: l' => if decide (a = b) then strip_fields pre' l' else None
  | _ :: _, [] => None
  end.

Definition relative_to (p other : Path) : option Path :=
  if decide (proot p = proot other)
  then (λ t, {| proot := 0; ptail := t |}) <$> strip_fields (ptail other) (ptail p)
  else None.

(** Well-formed paths are the ones the parser returns. *)
Definition path_wf (p : Path) : Prop :=
  proot p ≤ 2 ∧ Forall (λ f, f ≠ [] ∧ f ≠ [dot] ∧ slash ∉ f) (ptail p).

Lemma path_of_wf s : path_wf (path_of s).
Proof.
  split; simpl.
  - destruct (leading_slashes s) as [|[|[|]]]; lia.
  - pose proof (split_on_Forall slash s) as H. rewrite Forall_forall in *.
    intros f [Hc Hin]%list_elem_of_filter. apply bool_decide_unpack in Hc. naive_solver.
Qed.

Lemma path_component_id fs :
  Forall (λ f, f ≠ [] ∧ f ≠ [dot] ∧ slash ∉ f) fs → filter (λ f, path_component f) fs = fs.
Proof.
  induction 1 as [|f fs (H1&H2&_) _ IH]; [done|]. rewrite filter_cons_True, IH; [done|].
  apply bool_decide_pack. done.
Qed.

Lemma join_not_slash fs :
  Forall (λ f, f ≠ [] ∧ f ≠ [dot] ∧ slash ∉ f) fs → leading_slashes (join slash fs) = 0.
Proof.
  destruct 1 as [|f fs (H1&H2&H3) _]; [done|].
  destruct f as [|c f]; [done|]. assert (c ≠ slash) by set_solver.
  destruct fs; simpl; by rewrite (proj2 (N.eqb_neq c slash)).
Qed.

(** A relative path survives printing and parsing. *)
Lemma path_of_str_rel p : path_wf p → proot p = 0 → ptail p ≠ [] → path_of (path_str p) = p.
Proof.
  destruct p as [r fs]. intros [_ Hwf] Hr Hne. simpl in *. subst r.
  destruct fs as [|f fs]; [done|]. unfold path_of.
  change (path_str _) with (join slash (f :: fs)).
  rewrite join_not_slash by done.
  rewrite split_join, path_component_id; [done|done|done|].
  eapply Forall_impl; [done|]. naive_solver.
Qed.

Lemma path_of_str p : path_wf p → proot p = 0 → path_of (path_str p) = p.
Proof.
  intros Hwf Hr. destruct (decide (ptail p = [])) as [Ht|Ht]; [|by apply path_of_str_rel].
  destruct p as [r fs]. simpl in *. by subst.
Qed.

(** Printing keeps an absolute path absolute. *)
Lemma absolute_str p : is_absolute p = true → is_absolute (path_of (path_str p)) = true.
Proof.
  destruct p as [[|r] fs]; [done|]. intros _. unfold path_str, path_of, is_absolute. cbn.
  by destruct (leading_slashes _) as [|[|]].
Qed.

Lemma path_of_component f : f ≠ [] → f ≠ [dot] → slash ∉ f → path_of f = {| proot := 0; ptail := [f] |}.
Proof.
  intros H1 H2 H3. apply (path_of_str_rel {| proot := 0; ptail := [f] |}); [|done|done].
  split; simpl; [lia|]. by repeat constructor.
Qed.

(** [Path( *p.parts )] gives back a relative path. *)
Lemma path_join_parts p : path_wf p → proot p = 0 →
  foldl path_join {| proot := 0; ptail := [] |} (path_of <$> path_parts p) = p.
Proof.
  destruct p as [r fs]. intros [_ Hwf] Hr. simpl in *. subst r. unfold path_parts. cbn.
  assert (∀ pre, foldl path_join {| proot := 0; ptail := pre |} (path_of <$> fs) =
    {| proot := 0; ptail := pre ++ fs |}) as Hgen; [|apply Hgen].
  induction Hwf as [|f fs (H1&H2&H3) _ IH]; intros pre; cbn; [by rewrite app_nil_r|].
  rewrite path_of_component by done. unfold path_join at 2. cbn. rewrite IH. by rewrite <-app_assoc.
Qed.

Lemma strip_fields_app pre l : strip_fields pre (pre ++ l) = Some l.
Proof. induction pre as [|a pre IH]; simpl; [done|]. by rewrite decide_True. Qed.

Lemma relative_to_join p q : is_absolute q = false → relative_to (path_join p q) p = Some q.
Proof.
  destruct q as [[|r] fs]; [|done]. intros _. unfold relative_to, path_join. cbn.
  rewrite decide_True by done. by rewrite strip_fields_app.
Qed.

Lemma strip_fields_Some pre l t : strip_fields pre l = Some t → l = pre ++ t.
Proof.
  revert l. induction pre as [|a pre IH]; intros [|b l]; simpl; try naive_solver.
  case_decide; [|done]. intros ?%IH. naive_solver.
Qed.
