(* ===== verification/Chunker.v ===== *)
(** * Fixed-size chunker (src/src/code_indexer/indexing/fixed_size_chunker.py)

    Every source file is cut into overlapping chunks before it is embedded.  The
    model is [FixedSizeChunker]: the constructor's size table, the line-number
    computation, the chunking loop of [chunk_text], the file front end with its
    list of encodings, and the estimator [estimate_chunks].  The image extractors
    selected for Markdown and HTML files are a parameter: chunk boundaries do not
    depend on what they return. *)

From S2P Require Import Prelude PyText.
From stdpp Require Import options.
Local Open Scope nat_scope.

Module Chunker.

(** ** Configuration and construction *)

Definition MODEL_CHUNK_SIZES : list (string * Z) :=
  [("voyage-code-3", 4096); ("voyage-code-2", 4096); ("voyage-large-2", 4096);
   ("voyage-3", 4096); ("voyage-3-large", 4096); ("embed-v4.0", 4096);
   ("default", 1000)]%string%Z.

Definition OVERLAP_PERCENTAGE : Q := 15 # 100.

(** [IndexingConfig] alone, or the full [Config] with the provider settings. *)
Inductive config :=
| IndexingConfig
| Config (embedding_provider voyage_ai_model cohere_model : string).

Record FixedSizeChunker := {
  chunk_size : nat;
  overlap_size : nat;
  step_size : nat;
}.

Definition DEFAULT_SIZE : Z := default 0%Z (dget "default"%string MODEL_CHUNK_SIZES).

Definition size_of_model (model_name : string) : Z :=
  default DEFAULT_SIZE (dget model_name MODEL_CHUNK_SIZES).

Definition select_chunk_size (cfg : config) : Z :=
  match cfg with
  | Config embedding_provider voyage_model cohere_model =>
      if decide (embedding_provider = "voyage-ai"%string) then size_of_model voyage_model
      else if decide (embedding_provider = "cohere"%string) then size_of_model cohere_model
      else DEFAULT_SIZE
  | IndexingConfig => DEFAULT_SIZE
  end.

Definition init (cfg : config) : FixedSizeChunker :=
  let cs := select_chunk_size cfg in
  let overlap := Qfloor (inject_Z cs * OVERLAP_PERCENTAGE) in
  {| chunk_size := Z.to_nat cs; overlap_size := Z.to_nat overlap;
     step_size := Z.to_nat (cs - overlap) |}.

(** ** Image references *)

Inductive extractor := MarkdownImageExtractor | HtmlImageExtractor.

Definition get_extractor (ext : text) : option extractor :=
  dget ext [(txt ".md", MarkdownImageExtractor); (txt ".html", HtmlImageExtractor);
            (txt ".htm", HtmlImageExtractor); (txt ".htmx", HtmlImageExtractor)].

Record image := { alt_text : text; image_path : text }.

Record chunk := {
  ch_text : text;
  chunk_index : nat;
  total_chunks : nat;
  size : nat;
  file_path : option text;
  file_extension : text;
  line_start : nat;
  line_end : nat;
  images : list image;
}.

Section chunking.
(** [extractor.extract_images(text, file_path, repo_root)]. *)
Context (extract_images : extractor → text → Path → Path → list text).
(** [str.lower] of a file suffix. *)
Context (lower : text → text).

Definition _extract_images (t : text) (fp : Path) (repo_root : option Path) : list image :=
  match repo_root with
  | None => []
  | Some root =>
      match get_extractor (lower (path_suffix fp)) with
      | None => []
      | Some e =>
          (λ p, {| alt_text := []; image_path := p |}) <$> extract_images e t fp root
      end
  end.

(** ** Line numbers *)

Definition _calculate_line_numbers (t : text) (start_pos end_pos : nat) : nat * nat :=
  if bool_decide (t = []) || (length t <=? start_pos) then (1, 1)
  else
    let ls := count_char newline (take start_pos t) + 1 in
    let actual_end := end_pos `min` length t in
    (ls, count_char newline (take actual_end t) + 1).

Context (c : FixedSizeChunker).

(** One iteration's chunk dictionary; [total_chunks] is patched afterwards. *)
Definition make_chunk (t : text) (fp root : option Path) (ext : text)
    (current_start index : nat) : chunk :=
  let chunk_end := current_start + chunk_size c in
  let ct := if length t <=? chunk_end then drop current_start t
            else slice t current_start chunk_end in
  let '(ls, le) := _calculate_line_numbers t current_start (current_start + length ct) in
  {| ch_text := ct; chunk_index := index; total_chunks := 0; size := length ct;
     file_path := path_str <$> fp; file_extension := ext;
     line_start := ls; line_end := le;
     images := match fp, root with
               | Some p, Some _ => _extract_images ct p root
               | _, _ => []
               end |}.

(** The [while] loop; [None] means the fuel ran out. *)
Fixpoint chunk_loop (fuel : nat) (t : text) (fp root : option Path) (ext : text)
    (current_start index : nat) : option (list chunk) :=
  match fuel with
  | 0 => None
  | S fuel' =>
      if current_start <? length t then
        let ch := make_chunk t fp root ext current_start index in
        if length t <=? current_start + chunk_size c then Some [ch]
        else (cons ch) <$> chunk_loop fuel' t fp root ext (current_start + step_size c) (S index)
      else Some []
  end.

Definition set_total (n : nat) (ch : chunk) : chunk :=
  {| ch_text := ch_text ch; chunk_index := chunk_index ch; total_chunks := n;
     size := size ch; file_path := file_path ch; file_extension := file_extension ch;
     line_start := line_start ch; line_end := line_end ch; images := images ch |}.

Definition chunk_text (t : text) (fp root : option Path) : option (list chunk) :=
  if bool_decide (t = []) || blank t then Some []
  else
    let ext := match fp with Some p => lstrip_by (λ d, (d =? dot)%N) (path_suffix p) | None => [] end in
    chunks ← chunk_loop (S (length t)) t fp root ext 0 0;
    Some (set_total (length chunks) <$> chunks).

Definition estimate_chunks (t : text) : nat :=
  if bool_decide (t = []) then 0
  else if length t <=? chunk_size c then 1
  else
    let remaining_after_first := length t - chunk_size c in
    1 + (remaining_after_first + step_size c - 1) `div` step_size c.

(** ** Reading a file *)

Inductive read_error := UnicodeDecodeError | OtherError.
Inductive chunk_error := ValueError.

Definition encodings : list string := ["utf-8"; "utf-8-sig"; "latin-1"; "cp1252"]%string.

(** [read] gives the content of the file under an encoding, or the exception
    that opening and reading it raises. *)
Fixpoint try_encodings (read : string → result read_error text) (es : list string) :
    result read_error (option text) :=
  match es with
  | [] => Ok None
  | e :: es' =>
      match read e with
      | Ok t => Ok (Some t)
      | Err UnicodeDecodeError => try_encodings read es'
      | Err OtherError => Err OtherError
      end
  end.

(** [_chunk_file_standard] under the [except Exception] of [chunk_file]: every
    failure surfaces as [ValueError]. *)
Definition chunk_file (read : string → result read_error text) (fp : Path) (root : option Path) :
    result chunk_error (list chunk) :=
  match try_encodings read encodings with
  | Err _ | Ok None => Err ValueError
  | Ok (Some t) =>
      match chunk_text t (Some fp) root with
      | Some chunks => Ok chunks
      | None => Err ValueError
      end
  end.
End chunking.

(** ** Invariant of a constructed chunker *)

Definition wf (c : FixedSizeChunker) : Prop :=
  0 < step_size c ∧ step_size c + overlap_size c = chunk_size c.

Lemma select_chunk_size_cases cfg :
  select_chunk_size cfg = 4096%Z ∨ select_chunk_size cfg = 1000%Z.
Proof.
  assert (∀ m, size_of_model m = 4096%Z ∨ size_of_model m = 1000%Z) as Hm.
  { intros m. unfold size_of_model, MODEL_CHUNK_SIZES. cbn [dget].
    repeat case_decide; cbn; auto. }
  destruct cfg; [by right|]. unfold select_chunk_size. repeat case_decide; auto.
Qed.

Lemma init_wf cfg : wf (init cfg).
Proof.
  assert (Qfloor (inject_Z 4096 * OVERLAP_PERCENTAGE) = 614%Z) as E1 by done.
  assert (Qfloor (inject_Z 1000 * OVERLAP_PERCENTAGE) = 150%Z) as E2 by done.
  unfold init, wf. destruct (select_chunk_size_cases cfg) as [-> | ->];
    rewrite ?E1, ?E2; cbn [chunk_size overlap_size step_size]; lia.
Qed.

(** ** Closed form of the loop *)

Section loop.
Context (extract_images : extractor → text → Path → Path → list text) (lower : text → text).
Context (c : FixedSizeChunker) (Hwf : wf c).
Context (fp root : option Path) (ext : text).
Implicit Types (t : text).

Local Abbreviation mk := (make_chunk extract_images lower c).

(** Number of iterations from position [s]. *)
Definition chunks_from (t : text) (s : nat) : nat :=
  if length t <=? s + chunk_size c then 1
  else 1 + (length t - chunk_size c - s + step_size c - 1) `div` step_size c.

Lemma chunks_from_step t s :
  s + chunk_size c < length t → chunks_from t s = S (chunks_from t (s + step_size c)).
Proof using Hwf.
  destruct Hwf as [Hstep Hsum]. intros Hlt. unfold chunks_from.
  destruct (Nat.leb_spec (length t) (s + chunk_size c)); [lia|]. simpl. f_equal.
  set (st := step_size c) in *. set (x := length t - chunk_size c - s).
  destruct (Nat.leb_spec (length t) (s + st + chunk_size c)).
  - symmetry. apply (Nat.div_unique _ _ _ (x - 1)); lia.
  - assert (x + st - 1 = length t - chunk_size c - (s + st) + st - 1 + 1 * st) as -> by lia.
    rewrite Nat.div_add by lia. lia.
Qed.

Lemma chunk_loop_closed fuel t s idx :
  s < length t → length t - s < fuel →
  chunk_loop extract_images lower c fuel t fp root ext s idx =
    Some ((λ k, mk t fp root ext (s + k * step_size c) (idx + k)) <$> seq 0 (chunks_from t s)).
Proof using Hwf.
  revert s idx. induction fuel as [|fuel IH]; intros s idx Hs Hfuel; [lia|].
  destruct Hwf as [Hstep Hsum]. cbn [chunk_loop].
  destruct (Nat.ltb_spec s (length t)); [|lia].
  destruct (Nat.leb_spec (length t) (s + chunk_size c)) as [Hle|Hgt].
  - unfold chunks_from. rewrite (proj2 (Nat.leb_le _ _)) by lia.
    cbn. by rewrite !Nat.add_0_r.
  - rewrite IH by lia. rewrite (chunks_from_step t s) by lia.
    cbn [seq fmap list_fmap option_fmap option_map]. rewrite Nat.mul_0_l, !Nat.add_0_r.
    rewrite <-fmap_S_seq, <-list_fmap_compose. do 2 f_equal.
    apply list_fmap_ext. intros ? k _. unfold compose. f_equal; lia.
Qed.

Lemma chunks_from_0 t : t ≠ [] → chunks_from t 0 = estimate_chunks c t.
Proof.
  intros Ht. unfold chunks_from, estimate_chunks. rewrite bool_decide_eq_false_2 by done.
  rewrite Nat.add_0_l, Nat.sub_0_r. done.
Qed.

(** The text of a chunk is a plain slice of the file. *)
Lemma make_chunk_text t s k :
  ch_text (mk t fp root ext s k) = slice t s (s + chunk_size c).
Proof.
  unfold make_chunk.
  destruct (_calculate_line_numbers _ _ _). cbn [ch_text].
  destruct (Nat.leb_spec (length t) (s + chunk_size c)); [|done].
  unfold slice. rewrite take_ge; [done|]. rewrite length_drop. lia.
Qed.
End loop.

Lemma chunk_text_closed ex lo c t fp root :
  wf c → blank t = false →
  chunk_text ex lo c t fp root =
    Some ((λ i, set_total (estimate_chunks c t)
                 (make_chunk ex lo c t fp root
                    (match fp with Some p => lstrip_by (λ d, (d =? dot)%N) (path_suffix p) | None => [] end)
                    (i * step_size c) i)) <$> seq 0 (estimate_chunks c t)).
Proof.
  intros Hwf Hb. assert (t ≠ []) as Ht by (by intros ->).
  unfold chunk_text. rewrite bool_decide_eq_false_2, Hb by done. cbn [orb].
  rewrite chunk_loop_closed; [|done|destruct t; simpl in *; [done|lia]|lia].
  rewrite chunks_from_0 by done. cbn [mbind option_bind].
  rewrite length_fmap, length_seq, <-list_fmap_compose. done.
Qed.

(** ** Helper lemmas on the slices *)

Lemma full_chunk c t i :
  wf c → blank t = false → S i < estimate_chunks c t → i * step_size c + chunk_size c < length t.
Proof.
  intros [Hstep Hsum] Hb. unfold estimate_chunks. case_bool_decide; [lia|].
  destruct (Nat.leb_spec (length t) (chunk_size c)); [lia|].
  intros Hi. assert (i < (length t - chunk_size c + step_size c - 1) `div` step_size c) as Hd by lia.
  pose proof (Nat.Div0.mul_div_le (length t - chunk_size c + step_size c - 1) (step_size c)).
  nia.
Qed.

Lemma last_chunk_covers c t :
  wf c → t ≠ [] → length t ≤ (estimate_chunks c t - 1) * step_size c + chunk_size c.
Proof.
  intros [Hstep Hsum] Ht. unfold estimate_chunks. rewrite bool_decide_eq_false_2 by done.
  destruct (Nat.leb_spec (length t) (chunk_size c)); [lia|].
  set (x := length t - chunk_size c + step_size c - 1).
  pose proof (Nat.div_mod_eq x (step_size c)). pose proof (Nat.mod_upper_bound x (step_size c)).
  nia.
Qed.

Lemma estimate_pos c t : t ≠ [] → 1 ≤ estimate_chunks c t.
Proof. intros. unfold estimate_chunks. rewrite bool_decide_eq_false_2 by done. case_match; lia. Qed.

Lemma drop_slice {A} (l : list A) a b k : drop k (slice l a b) = slice l (a + k) b.
Proof.
  unfold slice. rewrite skipn_firstn_comm, drop_drop. f_equal; lia.
Qed.

Lemma take_slice {A} (l : list A) a b k : a + k ≤ b → take k (slice l a b) = slice l a (a + k).
Proof. intros. unfold slice. rewrite take_take. f_equal; lia. Qed.

(** Gluing the non-overlapping parts of consecutive chunks. *)
Lemma glue_slices c (t : text) k m :
  wf c →
  take (k * step_size c + chunk_size c) t ++
    concat ((λ i, drop (overlap_size c) (slice t (i * step_size c) (i * step_size c + chunk_size c)))
              <$> seq (S k) m) =
  take ((k + m) * step_size c + chunk_size c) t.
Proof.
  intros [Hstep Hsum]. revert k. induction m as [|m IH]; intros k.
  - simpl. by rewrite app_nil_r, Nat.add_0_r.
  - cbn [seq fmap list_fmap concat]. rewrite drop_slice.
    replace (S k * step_size c + overlap_size c) with (k * step_size c + chunk_size c) by lia.
    rewrite app_assoc, take_slice_app by lia.
    replace (k + S m) with (S k + m) by lia. by rewrite <-IH.
Qed.

Lemma calculate_line_numbers_mono (t : text) a b p :
  a ≤ p → p ≤ b → a < length t →
  let '(ls, le) := _calculate_line_numbers t a b in
  ls = count_char newline (take a t) + 1 ∧
  ls ≤ count_char newline (take (p `min` length t) t) + 1 ≤ le.
Proof.
  intros Hap Hpb Ha. unfold _calculate_line_numbers.
  rewrite bool_decide_eq_false_2, (proj2 (Nat.leb_gt _ _)) by (done || (intros ->; simpl in *; lia)).
  cbn. assert (∀ u v, u ≤ v → count_char newline (take u t) ≤ count_char newline (take v t)) as Hm.
  { intros u v Huv. rewrite <-(take_slice_app t u v) by done. rewrite count_char_app. lia. }
  split; [done|]. pose proof (Hm a (p `min` length t)). pose proof (Hm (p `min` length t) (b `min` length t)).
  lia.
Qed.

(** ** Properties *)

(** For any non-blank text and any chunker with a positive step (every
    constructed one is), the chunking loop terminates and returns exactly
    [estimate_chunks] chunks; the [i]-th chunk is the slice of the file starting at
    [i * step_size], carries index [i], the final chunk count and its own length,
    is never longer than [chunk_size], and only the last chunk may be shorter. *)
Theorem chunk_text_chunks ex lo c (t : text) fp root :
  wf c → blank t = false →
  ∃ chunks, chunk_text ex lo c t fp root = Some chunks ∧
    length chunks = estimate_chunks c t ∧
    ∀ i ch, chunks !! i = Some ch →
      ch_text ch = slice t (i * step_size c) (i * step_size c + chunk_size c) ∧
      chunk_index ch = i ∧ total_chunks ch = length chunks ∧
      size ch = length (ch_text ch) ∧ size ch ≤ chunk_size c ∧
      (S i < length chunks → size ch = chunk_size c).
Proof.
  intros Hwf Hb. eexists. split; [by apply chunk_text_closed|].
  rewrite length_fmap, length_seq. split; [done|]. intros i ch Hi.
  apply list_lookup_fmap_Some in Hi as (k&->&Hk). apply lookup_seq in Hk as [-> Hk].
  rewrite Nat.add_0_l. cbn [set_total ch_text chunk_index total_chunks size].
  rewrite make_chunk_text. unfold make_chunk.
  destruct (_calculate_line_numbers _ _ _). cbn [size chunk_index].
  pose proof (make_chunk_text ex lo c fp root [] t (i * step_size c) i) as Hslice.
  unfold make_chunk in Hslice. destruct (_calculate_line_numbers _ _ _). cbn [ch_text] in Hslice.
  rewrite Hslice, slice_length. split_and!; try done; [lia|].
  intros Hfull%full_chunk; [lia|done|done].
Qed.

Definition small_chunker : FixedSizeChunker :=
  {| chunk_size := 5; overlap_size := 2; step_size := 3 |}.

Lemma chunk_text_chunks_witness :
  ∃ chunks, chunk_text (λ _ _ _ _, []) id small_chunker (txt "hello world") None None = Some chunks ∧
    length chunks = estimate_chunks small_chunker (txt "hello world") ∧
    ∀ i ch, chunks !! i = Some ch →
      ch_text ch = slice (txt "hello world") (i * 3) (i * 3 + 5) ∧
      chunk_index ch = i ∧ total_chunks ch = length chunks ∧
      size ch = length (ch_text ch) ∧ size ch ≤ 5 ∧ (S i < length chunks → size ch = 5).
Proof. apply (chunk_text_chunks _ _ small_chunker); [split; simpl; lia|reflexivity]. Defined.



(** 1-based line number of the character at position [p]. *)
Definition line_of (t : text) (p : nat) : nat := count_char newline (take p t) + 1.

(** The line range stored with a chunk is right: [line_start] is the line of
    the chunk's first character and the line of every character of the chunk lies
    between [line_start] and [line_end]. *)
Theorem chunk_lines_sound ex lo c (t : text) fp root chunks i ch p :
  wf c → blank t = false → chunk_text ex lo c t fp root = Some chunks →
  chunks !! i = Some ch →
  i * step_size c ≤ p < i * step_size c + size ch →
  line_start ch = line_of t (i * step_size c) ∧ line_start ch ≤ line_of t p ≤ line_end ch.
Proof.
  intros Hwf Hb Hct Hi Hp. rewrite chunk_text_closed in Hct by done. injection Hct as <-.
  apply list_lookup_fmap_Some in Hi as (k&->&[-> _]%lookup_seq). rewrite Nat.add_0_l in *.
  set (mc := make_chunk _ _ _ _ _ _ _ _ _) in *.
  assert (size mc = length (ch_text mc)) as Hsz.
  { unfold mc, make_chunk. by destruct (_calculate_line_numbers _ _ _). }
  change (size _) with (size mc) in Hp. rewrite Hsz in Hp.
  assert (ch_text mc = slice t (i * step_size c) (i * step_size c + chunk_size c)) as Htx
    by apply make_chunk_text.
  rewrite Htx, slice_length in Hp. cbn [set_total line_start line_end].
  pose proof (calculate_line_numbers_mono t (i * step_size c)
                (i * step_size c + length (ch_text mc)) p) as Hm.
  rewrite Htx, slice_length in Hm. rewrite <-slice_length, <-Htx in Hm.
  unfold mc, make_chunk in *. cbn [ch_text] in *.
  destruct (_calculate_line_numbers t (i * step_size c) _) as [ls le] eqn:E.
  cbn [ch_text] in *. rewrite E in Hm. cbn [line_start line_end].
  rewrite Nat.min_l in Hm by lia. unfold line_of. apply Hm; [lia| |lia].
  rewrite Htx, slice_length. lia.
Qed.

Lemma chunk_lines_sound_witness :
  ∃ chunks ch, chunk_text (λ _ _ _ _, []) id small_chunker (txt "a
b
c
de") None None = Some chunks ∧ chunks !! 1 = Some ch ∧
    line_start ch = line_of (txt "a
b
c
de") 3 ∧ line_start ch ≤ line_of (txt "a
b
c
de") 5 ≤ line_end ch.
Proof.
  eexists _, _. split; [reflexivity|]. split; [reflexivity|].
  eapply (chunk_lines_sound (λ _ _ _ _, []) id small_chunker _ None None _ 1 _ 5);
    [split; simpl; lia|reflexivity|reflexivity|reflexivity|simpl; lia].
Defined.
End Chunker.
