(* ===== verification/QueryTracker.v ===== *)
(** * Reference counts of active queries (src/src/code_indexer/global_repos/query_tracker.py)

    [QueryTracker] counts the queries running against every index path; the
    cleanup manager deletes an old index only when its count is zero.  The class
    [RefCounter] is what the tracker promises to that client. *)

From S2P Require Import Prelude.
From stdpp Require Import options.
Local Open Scope Z_scope.

Module QueryTracker.

Inductive error := ValueError.

(** [_ref_counts : Dict[str, int]]. *)
Abbreviation tracker := (gmap string Z).

Definition init : tracker := ∅.

Definition get_ref_count (p : string) (m : tracker) : Z := default 0 (m !! p).

Definition increment_ref (p : string) (m : tracker) : tracker :=
  let current := get_ref_count p m in
  <[p := current + 1]> m.

Definition decrement_ref (p : string) (m : tracker) : result error tracker :=
  let current := get_ref_count p m in
  if current <=? 0 then Err ValueError
  else
    let new_count := current - 1 in
    let m' := <[p := new_count]> m in
    Ok (if new_count =? 0 then delete p m' else m').

Definition get_all_paths (m : tracker) : gset string := dom m.

(** [with tracker.track_query(p): body]: the body may raise, and the [finally]
    decrement runs in every case; an exception of the decrement wins. *)
Inductive exn (E : Type) := BodyError (e : E) | TrackerError (e : error).
Arguments BodyError {E} e.
Arguments TrackerError {E} e.

Definition track_query {A E} (p : string) (body : tracker → result E A * tracker) (m : tracker) :
    result (exn E) A * tracker :=
  let '(r, m1) := body (increment_ref p m) in
  match decrement_ref p m1 with
  | Err e => (Err (TrackerError e), m1)
  | Ok m2 =>
      match r with
      | Ok a => (Ok a, m2)
      | Err e => (Err (BodyError e), m2)
      end
  end.

(** ** Invariant: only positive counts are stored *)

Definition inv (m : tracker) : Prop := map_Forall (λ _ n, 0 < n) m.

Lemma get_ref_count_insert p q n m :
  get_ref_count q (<[p := n]> m) = if decide (p = q) then n else get_ref_count q m.
Proof. unfold get_ref_count. rewrite lookup_insert. by case_decide. Qed.

Lemma get_ref_count_delete p q m :
  get_ref_count q (delete p m) = if decide (p = q) then 0 else get_ref_count q m.
Proof. unfold get_ref_count. rewrite lookup_delete. by case_decide. Qed.

Lemma get_ref_count_nonneg p m : inv m → 0 <= get_ref_count p m.
Proof.
  intros Hm. unfold get_ref_count. destruct (m !! p) eqn:E; simpl; [|lia].
  apply Hm in E. lia.
Qed.

Lemma increment_count p q m :
  get_ref_count q (increment_ref p m) = get_ref_count q m + (if decide (p = q) then 1 else 0).
Proof. unfold increment_ref. rewrite get_ref_count_insert. case_decide; subst; lia. Qed.

Lemma increment_inv p m : inv m → inv (increment_ref p m).
Proof.
  intros Hm. pose proof (get_ref_count_nonneg p m Hm).
  apply map_Forall_insert_2; [lia|done].
Qed.

Lemma decrement_count p q m m' :
  decrement_ref p m = Ok m' →
  0 < get_ref_count p m ∧
  get_ref_count q m' = get_ref_count q m - (if decide (p = q) then 1 else 0).
Proof.
  unfold decrement_ref. destruct (Z.leb_spec (get_ref_count p m) 0); [done|]. intros [= <-].
  split; [lia|]. destruct (Z.eqb_spec (get_ref_count p m - 1) 0).
  - rewrite get_ref_count_delete, get_ref_count_insert. case_decide; subst; lia.
  - rewrite get_ref_count_insert. case_decide; subst; lia.
Qed.

Lemma decrement_inv p m m' : inv m → decrement_ref p m = Ok m' → inv m'.
Proof.
  intros Hm. unfold decrement_ref. destruct (Z.leb_spec (get_ref_count p m) 0); [done|].
  intros [= <-]. destruct (Z.eqb_spec (get_ref_count p m - 1) 0).
  - rewrite delete_insert_eq. by apply map_Forall_delete.
  - apply map_Forall_insert_2; [lia|done].
Qed.

Lemma decrement_ok p m : 0 < get_ref_count p m → ∃ m', decrement_ref p m = Ok m'.
Proof. unfold decrement_ref. destruct (Z.leb_spec (get_ref_count p m) 0); [lia|eauto]. Qed.

Lemma tracked_iff p m : inv m → p ∈ get_all_paths m ↔ 0 < get_ref_count p m.
Proof.
  intros Hm. unfold get_all_paths, get_ref_count. rewrite elem_of_dom. split.
  - intros [n Hn]. rewrite Hn. simpl. by apply Hm in Hn.
  - destruct (m !! p); simpl; [eauto|lia].
Qed.

#[export] Hint Resolve increment_inv decrement_inv get_ref_count_nonneg : cidx.

(** ** Abstract specification: the bag of running queries

    The system runs queries that start and finish in any order; each is a pair
    of an increment and a later decrement. *)

Inductive event := Start (p : string) | Finish (p : string).

Definition count (p : string) (l : list string) : Z := Z.of_nat (length (filter (λ q, q = p) l)).

Fixpoint remove_one (p : string) (l : list string) : list string :=
  match l with
  | [] => []
  | q :: l' => if decide (q = p) then l' else q :: remove_one p l'
  end.

(** Bag semantics: [Finish p] is possible only when a query on [p] is running. *)
Inductive bag_run : list event → list string → Prop :=
| bag_nil : bag_run [] []
| bag_start es b p : bag_run es b → bag_run (es ++ [Start p]) (p :: b)
| bag_finish es b p : bag_run es b → p ∈ b → bag_run (es ++ [Finish p]) (remove_one p b).

Definition exec_event (e : event) (m : tracker) : result error tracker :=
  match e with
  | Start p => Ok (increment_ref p m)
  | Finish p => decrement_ref p m
  end.

Definition exec (es : list event) (m : tracker) : result error tracker :=
  foldl (λ r e, r ≫= exec_event e) (Ok m) es.

Lemma exec_snoc es e m : exec (es ++ [e]) m = exec es m ≫= exec_event e.
Proof. unfold exec. by rewrite foldl_app. Qed.

Lemma count_cons p q l : count p (q :: l) = count p l + (if decide (q = p) then 1 else 0).
Proof. unfold count. rewrite filter_cons. case_decide; simpl; lia. Qed.

Lemma count_remove_one p q l :
  p ∈ l → count q (remove_one p l) = count q l - (if decide (p = q) then 1 else 0).
Proof.
  induction l as [|x l IH]; [by intros ?%not_elem_of_nil|].
  intros Hin. simpl. destruct (decide (x = p)) as [->|Hne].
  - rewrite count_cons. lia.
  - rewrite !count_cons, IH by set_solver. lia.
Qed.

Lemma count_pos p l : p ∈ l ↔ 0 < count p l.
Proof.
  unfold count. split.
  - intros Hin. assert (p ∈ filter (λ q, q = p) l) as H by (by apply list_elem_of_filter).
    destruct (filter _ l); [by apply not_elem_of_nil in H|simpl; lia].
  - intros H. destruct (filter (λ q, q = p) l) as [|q k] eqn:E; [simpl in H; lia|].
    assert (q ∈ filter (λ q, q = p) l) as [-> ?]%list_elem_of_filter by (rewrite E; set_solver). done.
Qed.



(** A tracked query leaves every count as it found it, whether its body
    returns or raises, provided the body itself leaves the counts unchanged; the
    body runs with the count of its path raised by one, and its outcome is passed
    through. *)
Theorem track_query_balanced {A E} p (body : tracker → result E A * tracker) m :
  inv m →
  (∀ q, get_ref_count q (body (increment_ref p m)).2 = get_ref_count q (increment_ref p m)) →
  let '(r, m') := track_query p body m in
  (∀ q, get_ref_count q m' = get_ref_count q m) ∧
  get_ref_count p (increment_ref p m) = get_ref_count p m + 1 ∧
  match (body (increment_ref p m)).1 with
  | Ok a => r = Ok a
  | Err e => r = Err (BodyError e)
  end.
Proof.
  intros Hm Hbody. unfold track_query.
  destruct (body (increment_ref p m)) as [r m1] eqn:Eb. simpl in Hbody.
  pose proof (get_ref_count_nonneg p m Hm).
  destruct (decrement_ok p m1) as [m2 Hd].
  { rewrite Hbody, increment_count. case_decide; [lia|done]. }
  rewrite Hd. assert (∀ q, get_ref_count q m2 = get_ref_count q m) as Hq.
  { intros q. destruct (decrement_count p q _ _ Hd) as [_ ->].
    rewrite Hbody, increment_count. lia. }
  pose proof (increment_count p p m) as Hi. rewrite decide_True in Hi by done.
  destruct r; by split_and!.
Qed.

Lemma track_query_balanced_witness :
  let '(r, m') := track_query "v_1"%string (λ m, (@Err string nat "boom"%string, m)) init in
  (∀ q, get_ref_count q m' = get_ref_count q init) ∧
  get_ref_count "v_1" (increment_ref "v_1" init) = get_ref_count "v_1" init + 1 ∧
  r = Err (BodyError "boom"%string).
Proof.
  apply (track_query_balanced "v_1"%string (λ m, (@Err string nat "boom"%string, m)) init);
    [apply map_Forall_empty|done].
Defined.

End QueryTracker.

(** ** What a reference counter promises to the cleanup manager *)

Class RefCounter (T : Type) := {
  rc_inv : T → Prop;
  rc_count : T → string → Z;
  rc_start : string → T → T;
  rc_nonneg : ∀ t p, rc_inv t → 0 <= rc_count t p;
  rc_start_inv : ∀ t p, rc_inv t → rc_inv (rc_start p t);
  rc_start_count : ∀ t p q,
    rc_count (rc_start p t) q = rc_count t q + (if decide (p = q) then 1 else 0);
}.

#[export] Instance tracker_RefCounter : RefCounter (gmap string Z) := {
  rc_inv := QueryTracker.inv;
  rc_count := λ m p, QueryTracker.get_ref_count p m;
  rc_start := QueryTracker.increment_ref;
  rc_nonneg := λ m p, QueryTracker.get_ref_count_nonneg p m;
  rc_start_inv := λ m p, QueryTracker.increment_inv p m;
  rc_start_count := λ m p q, QueryTracker.increment_count p q m;
}.
