(* ===== verification/CleanupManager.v ===== *)
(** * Deletion of old index versions (src/src/code_indexer/global_repos/cleanup_manager.py)

    A background thread polls a set of scheduled paths and deletes those that no
    query uses any more, with exponential backoff and a circuit breaker per path.
    The file system, the snapshot manager and the job tracker are an environment
    acting on an abstract world [W]; the reference counts come from any
    [RefCounter]. *)

From S2P Require Import Prelude QueryTracker.
From stdpp Require Import options.
Local Open Scope Z_scope.

Module CleanupManager.

Definition MAX_FAILURES : Z := 5.
Definition MAX_BACKOFF_DELAY : Q := 60.
Definition BASE_BACKOFF_DELAY : Q := 1.
Definition FD_USAGE_THRESHOLD : Q := 80 # 100.

Record manager := {
  cleanup_queue : gset string;
  failure_counts : gmap string Z;
  next_retry_times : gmap string Q;
  running : bool;
  thread : bool;
}.

Definition init : manager :=
  {| cleanup_queue := ∅; failure_counts := ∅; next_retry_times := ∅;
     running := false; thread := false |}.

Definition set_queue (q : gset string) (m : manager) : manager :=
  {| cleanup_queue := q; failure_counts := failure_counts m;
     next_retry_times := next_retry_times m; running := running m; thread := thread m |}.

Definition set_stats (fc : gmap string Z) (nr : gmap string Q) (m : manager) : manager :=
  {| cleanup_queue := cleanup_queue m; failure_counts := fc;
     next_retry_times := nr; running := running m; thread := thread m |}.

Definition schedule_cleanup (p : string) (m : manager) : manager :=
  set_queue ({[p]} ∪ cleanup_queue m) m.

Definition get_pending_cleanups (m : manager) : gset string := cleanup_queue m.

Definition discard (p : string) (m : manager) : manager :=
  set_queue (cleanup_queue m ∖ {[p]}) m.

Definition start (m : manager) : manager :=
  if running m then m
  else {| cleanup_queue := cleanup_queue m; failure_counts := failure_counts m;
          next_retry_times := next_retry_times m; running := true; thread := true |}.

Definition stop (m : manager) : manager :=
  if running m
  then {| cleanup_queue := cleanup_queue m; failure_counts := failure_counts m;
          next_retry_times := next_retry_times m; running := false; thread := false |}
  else m.

(** ** Failure tracking *)

Definition _get_failure_count (p : string) (m : manager) : Z := default 0 (failure_counts m !! p).

Definition backoff_delay (count : Z) : Q :=
  pymin (BASE_BACKOFF_DELAY * inject_Z (2 ^ (count - 1))) MAX_BACKOFF_DELAY.

Definition _record_failure (now : Q) (p : string) (m : manager) : manager :=
  let count := _get_failure_count p m + 1 in
  set_stats (<[p := count]> (failure_counts m))
            (<[p := (now + backoff_delay count)%Q]> (next_retry_times m)) m.

Definition _reset_failure_count (p : string) (m : manager) : manager :=
  set_stats (delete p (failure_counts m)) (delete p (next_retry_times m)) m.

Definition _get_backoff_delay (p : string) (m : manager) : Q :=
  let count := _get_failure_count p m in
  if count =? 0 then 0%Q else backoff_delay count.

Definition _is_ready_for_retry (now : Q) (p : string) (m : manager) : bool :=
  Qle_bool (default 0%Q (next_retry_times m !! p)) now.

(** ** File-descriptor pressure *)

(** What the probe of [/proc/self/fd] sees; [None] stands for an exception. *)
Record fd_probe := {
  fd_dir_exists : bool;
  soft_limit : option Z;
  open_fds : option Z;
}.

Definition _is_fd_usage_high (pr : fd_probe) : bool :=
  if fd_dir_exists pr then
    match soft_limit pr, open_fds pr with
    | Some l, Some n => if l <=? 0 then false
                        else Qle_bool FD_USAGE_THRESHOLD (inject_Z n / inject_Z l)
    | _, _ => false
    end
  else false.

(** ** Deletion *)

Inductive os_error := EMFILE | ENOTEMPTY | OtherErrno.

Record snapshots (W : Type) := {
  is_versioned_snapshot : string → bool;
  delete_snapshot : string → W → result os_error () * W;
}.
Arguments is_versioned_snapshot {W} _ _.
Arguments delete_snapshot {W} _ _ _.

(** The file system, the snapshot manager wired by [set_snapshot_manager] (whose
    deletion of a clone is the backend's) and the job tracker.  [rmtree] is
    [shutil.rmtree] with the error callback that retries once on EMFILE; [os_walk]
    is the bottom-up walk. *)
Record environment (W : Type) := {
  snapshot_manager : option (snapshots W);
  path_exists : string → W → bool;
  path_is_dir : string → W → bool;
  rmtree : string → W → result os_error () * W;
  os_walk : string → W → list (string * list string * list string);
  os_unlink : string → W → result os_error () * W;
  os_rmdir : string → W → result os_error () * W;
  register_job : W → option string * W;
  complete_job : string → W → W;
  fail_job : string → W → W;
}.
Arguments snapshot_manager {W} _.
Arguments path_exists {W} _ _ _.
Arguments path_is_dir {W} _ _ _.
Arguments rmtree {W} _ _ _.
Arguments os_walk {W} _ _ _.
Arguments os_unlink {W} _ _ _.
Arguments os_rmdir {W} _ _ _.
Arguments register_job {W} _ _.
Arguments complete_job {W} _ _ _.
Arguments fail_job {W} _ _ _.

Inductive outcome := Tripped | InBackoff | InUse | Deleted | DeleteFailed.

#[export] Instance outcome_eq_dec : EqDecision outcome.
Proof. solve_decision. Defined.

Section cleanup.
Context {W T : Type} `{RefCounter T} (env : environment W).
(** Iteration order of the queue's set. *)
Context (order : gset string → list string).

(** The fallback: files first, then the emptied directories, errors ignored. *)
Definition bottom_up_removal (p : string) (w : W) : W :=
  let visit w '(dirpath, dirnames, filenames) :=
    let w1 := foldl (λ w f, (os_unlink env (dirpath +:+ "/" +:+ f) w).2) w filenames in
    foldl (λ w d, (os_rmdir env (dirpath +:+ "/" +:+ d) w).2) w1 dirnames in
  (os_rmdir env p (foldl visit w (os_walk env p w))).2.

Definition _robust_delete (p : string) (w : W) : result os_error () * W :=
  match rmtree env p w with
  | (Err EMFILE, w1) =>
      let w2 := bottom_up_removal p w1 in
      if path_exists env p w2 then (Err ENOTEMPTY, w2) else (Ok (), w2)
  | res => res
  end.

Definition _delete_index (p : string) (w : W) : result os_error () * W :=
  match snapshot_manager env with
  | Some sm =>
      if is_versioned_snapshot sm p then delete_snapshot sm p w
      else if path_exists env p w then
        if path_is_dir env p w then _robust_delete p w else (Ok (), w)
      else (Ok (), w)
  | None =>
      if path_exists env p w then
        if path_is_dir env p w then _robust_delete p w else (Ok (), w)
      else (Ok (), w)
  end.

(** The body of the [for] loop for one path; [check_time] and [fail_time] are
    the monotonic clock when the path is examined and when a failure is recorded. *)
Definition process_path (check_time fail_time : Q) (t : T) (p : string) (m : manager) (w : W) :
    outcome * manager * W :=
  if MAX_FAILURES <=? _get_failure_count p m then (Tripped, discard p m, w)
  else if negb (_is_ready_for_retry check_time p m) then (InBackoff, m, w)
  else if negb (rc_count t p =? 0) then (InUse, m, w)
  else
    let '(job, w1) := register_job env w in
    match _delete_index p w1 with
    | (Ok _, w2) =>
        (Deleted, _reset_failure_count p (discard p m),
         match job with Some j => complete_job env j w2 | None => w2 end)
    | (Err _, w2) =>
        (DeleteFailed, _record_failure fail_time p m,
         match job with Some j => fail_job env j w2 | None => w2 end)
    end.

Fixpoint process_paths (check_time fail_time : string → Q) (t : T) (ps : list string)
    (m : manager) (w : W) : list (string * outcome) * manager * W :=
  match ps with
  | [] => ([], m, w)
  | p :: ps' =>
      let '(o, m1, w1) := process_path (check_time p) (fail_time p) t p m w in
      let '(tr, m2, w2) := process_paths check_time fail_time t ps' m1 w1 in
      ((p, o) :: tr, m2, w2)
  end.

(** The trace of outcomes is an output of the model only. *)
Definition _process_cleanup_queue (pr : fd_probe) (check_time fail_time : string → Q) (t : T)
    (m : manager) (w : W) : list (string * outcome) * manager * W :=
  if _is_fd_usage_high pr then ([], m, w)
  else process_paths check_time fail_time t (order (cleanup_queue m)) m w.
End cleanup.

(** ** Per-path view of the manager *)

(** Is the path queued, how often has its deletion failed, when may it be retried. *)
Definition path_state (m : manager) (p : string) : bool * option Z * option Q :=
  (bool_decide (p ∈ cleanup_queue m), failure_counts m !! p, next_retry_times m !! p).

(** What an outcome does to the state of its path. *)
Definition outcome_state (fail_time : Q) (o : outcome) (st : bool * option Z * option Q) :
    bool * option Z * option Q :=
  let '(q, fc, nr) := st in
  match o with
  | Tripped => (false, fc, nr)
  | InBackoff | InUse => st
  | Deleted => (false, None, None)
  | DeleteFailed =>
      let n := default 0 fc + 1 in (q, Some n, Some (fail_time + backoff_delay n)%Q)
  end.

(** The conditions under which the code attempts a deletion. *)
Definition eligible {T} `{RefCounter T} (check_time : Q) (t : T) (p : string) (m : manager) : Prop :=
  _get_failure_count p m < MAX_FAILURES ∧ _is_ready_for_retry check_time p m = true ∧ rc_count t p = 0.

Definition attempted (o : outcome) : bool :=
  match o with Deleted | DeleteFailed => true | _ => false end.

Section facts.
Context {W T : Type} `{RefCounter T} (env : environment W).
Implicit Types (m : manager) (w : W) (t : T).

Lemma process_path_spec ct ft t p m w o m' w' :
  process_path env ct ft t p m w = (o, m', w') →
  path_state m' p = outcome_state ft o (path_state m p) ∧
  (∀ q, q ≠ p → path_state m' q = path_state m q) ∧
  (attempted o = true ↔ eligible ct t p m) ∧
  (o = Tripped ↔ MAX_FAILURES <= _get_failure_count p m) ∧
  (attempted o = false → w' = w).
Proof.
  unfold process_path, eligible.
  destruct (Z.leb_spec MAX_FAILURES (_get_failure_count p m)) as [Hf|Hf].
  { intros [= <- <- <-]. unfold path_state, discard. simpl. split_and!; try done.
    - f_equal. f_equal. apply bool_decide_eq_false_2. set_solver.
    - intros q Hq. f_equal. f_equal. apply bool_decide_ext. set_solver.
    - split; [done|]. lia. }
  destruct (_is_ready_for_retry ct p m) eqn:Er; simpl.
  2:{ intros [= <- <- <-]. split_and!; try done; split; try done; [naive_solver|lia]. }
  destruct (Z.eqb_spec (rc_count t p) 0) as [Hz|Hz]; simpl.
  2:{ intros [= <- <- <-]. split_and!; try done; split; try done; [naive_solver|lia]. }
  destruct (register_job env w) as [job w1]. destruct (_delete_index env p w1) as [[[]|e] w2].
  - intros [= <- <- _]. unfold path_state, _reset_failure_count, discard. simpl.
    split_and!; try done.
    + rewrite !lookup_delete_eq. do 2 f_equal. apply bool_decide_eq_false_2. set_solver.
    + intros q Hq. rewrite !lookup_delete_ne by done. do 2 f_equal. apply bool_decide_ext. set_solver.
    + split; [done|lia].
  - intros [= <- <- _]. unfold path_state, _record_failure. simpl. split_and!; try done.
    + by rewrite !lookup_insert_eq.
    + intros q Hq. by rewrite !lookup_insert_ne by done.
    + split; [done|lia].
Qed.

Lemma path_state_eligible ct t p m m' :
  path_state m' p = path_state m p → eligible ct t p m' ↔ eligible ct t p m.
Proof.
  unfold path_state, eligible, _get_failure_count, _is_ready_for_retry.
  intros [= _ -> ->]. done.
Qed.

Lemma process_paths_spec ct ft t ps m w tr m' w' :
  NoDup ps → process_paths env ct ft t ps m w = (tr, m', w') →
  tr.*1 = ps ∧
  (∀ p o, (p, o) ∈ tr →
     path_state m' p = outcome_state (ft p) o (path_state m p) ∧
     (attempted o = true ↔ eligible (ct p) t p m) ∧
     (o = Tripped ↔ MAX_FAILURES <= _get_failure_count p m)) ∧
  (∀ q, q ∉ ps → path_state m' q = path_state m q).
Proof.
  revert m w tr m' w'. induction ps as [|p ps IH]; intros m w tr m' w' Hnd; simpl.
  { intros [= <- <- <-]. split_and!; [done|by intros ?? ?%not_elem_of_nil|done]. }
  destruct (process_path _ _ _ _ _ _ _) as [[o m1] w1] eqn:E1.
  destruct (process_paths _ _ _ _ _ _ _) as [[tr1 m2] w2] eqn:E2. intros [= <- <- <-].
  apply NoDup_cons in Hnd as [Hnin Hnd].
  apply process_path_spec in E1 as (Hself&Hoth&Hatt&Htrip&_).
  destruct (IH _ _ _ _ _ Hnd E2) as (<-&Htr&Hq). split_and!; [done| |].
  - intros p' o' [[= -> ->]|Hin]%elem_of_cons; [by rewrite Hq|].
    assert (p' ≠ p) as Hne.
    { intros ->. apply Hnin, list_elem_of_fmap. by exists (p, o'). }
    destruct (Htr _ _ Hin) as (Hs&Ha&Ht). pose proof (Hoth _ Hne) as Hst. rewrite Hs, Hst.
    rewrite <-(path_state_eligible _ _ _ _ _ Hst). split_and!; [done|done|].
    rewrite Ht. unfold path_state in Hst. injection Hst as _ Hfc _.
    unfold _get_failure_count. by rewrite Hfc.
  - intros q [Hq1 Hq2]%not_elem_of_cons. rewrite Hq by done. by apply Hoth.
Qed.
End facts.

(** ** Runs of the manager *)

Section runs.
Context {W T : Type} `{RefCounter T} (env : environment W) (order : gset string → list string).

(** Requests and polling cycles, in any order; the world and the reference
    counts may change arbitrarily between them. *)
Inductive mstep : manager → list (string * outcome) → manager → Prop :=
| step_schedule m p : mstep m [] (schedule_cleanup p m)
| step_start m : mstep m [] (start m)
| step_stop m : mstep m [] (stop m)
| step_cycle m pr ct ft (t : T) w tr m' w' :
    _process_cleanup_queue env order pr ct ft t m w = (tr, m', w') → mstep m tr m'.

Inductive mrun : manager → list (string * outcome) → manager → Prop :=
| run_refl m : mrun m [] m
| run_snoc m tr m1 tr' m2 : mrun m tr m1 → mstep m1 tr' m2 → mrun m (tr ++ tr') m2.

(** Failed deletions of [p] since its last success. *)
Definition failures_since (p : string) (tr : list (string * outcome)) : Z :=
  foldl (λ n qo, if decide (qo.1 = p)
                 then match qo.2 with Deleted => 0 | DeleteFailed => n + 1 | _ => n end
                 else n) 0 tr.

Definition attempts (p : string) (tr : list (string * outcome)) : list (string * outcome) :=
  filter (λ qo, qo.1 = p ∧ attempted qo.2 = true) tr.

Hypothesis order_perm : ∀ X, order X ≡ₚ elements X.

Lemma order_NoDup X : NoDup (order X).
Proof using order_perm. rewrite order_perm. apply NoDup_elements. Qed.

(** What one cycle does to one path. *)
Lemma cycle_path pr ct ft (t : T) m w tr m' w' p :
  _process_cleanup_queue env order pr ct ft t m w = (tr, m', w') →
  (filter (λ qo, qo.1 = p) tr = [] ∧ path_state m' p = path_state m p) ∨
  ∃ o, filter (λ qo, qo.1 = p) tr = [(p, o)] ∧ p ∈ cleanup_queue m ∧
       path_state m' p = outcome_state (ft p) o (path_state m p) ∧
       (attempted o = true ↔ eligible (ct p) t p m) ∧
       (o = Tripped ↔ MAX_FAILURES <= _get_failure_count p m).
Proof using order_perm.
  unfold _process_cleanup_queue. destruct (_is_fd_usage_high pr).
  { intros [= <- <- _]. by left. }
  intros Hp. destruct (process_paths_spec _ _ _ _ _ _ _ _ _ _ (order_NoDup _) Hp) as (Hk&Htr&Hoth).
  pose proof (order_NoDup (cleanup_queue m)) as Hnd. rewrite <-Hk in Hnd.
  destruct (filter (λ qo : string * outcome, qo.1 = p) tr) as [|[q o] l] eqn:Ef.
  - left. split; [done|]. apply Hoth. rewrite <-Hk. intros ([q o]&Hpq&Hin)%list_elem_of_fmap. simpl in Hpq. subst q.
    assert ((p, o) ∈ filter (λ qo : string * outcome, qo.1 = p) tr) as Hf by (by apply list_elem_of_filter).
    rewrite Ef in Hf. by apply not_elem_of_nil in Hf.
  - right. exists o.
    assert ((q, o) ∈ tr ∧ q = p) as [Hin ->].
    { assert ((q, o) ∈ filter (λ qo : string * outcome, qo.1 = p) tr) as [??]%list_elem_of_filter
        by (rewrite Ef; set_solver). done. }
    assert (l = []) as ->.
    { destruct l as [|[q' o'] l]; [done|]. exfalso.
      assert ((q', o') ∈ filter (λ qo : string * outcome, qo.1 = p) tr) as [Hq' _]%list_elem_of_filter
        by (rewrite Ef; set_solver). simpl in Hq'. subst q'.
      assert (NoDup (filter (λ qo : string * outcome, qo.1 = p) tr).*1) as Hnd'.
      { eapply sublist_NoDup; [exact Hnd|]. apply fmap_sublist, sublist_filter. }
      rewrite Ef in Hnd'. inversion Hnd' as [|?? Hn]. simplify_eq. set_solver. }
    split; [done|]. split; [|by apply Htr].
    assert (p ∈ order (cleanup_queue m)) as Hq; [|by rewrite order_perm, elem_of_elements in Hq].
    rewrite <-Hk. apply list_elem_of_fmap. by exists (p, o).
Qed.

Lemma run_cons m tr m1 tr' m2 : mstep m tr m1 → mrun m1 tr' m2 → mrun m (tr ++ tr') m2.
Proof.
  intros Hs Hr. induction Hr as [m1|m1 tr' m2 tr'' m3 _ IH Hs'].
  - rewrite app_nil_r. by apply (run_snoc _ [] m); [constructor|].
  - rewrite app_assoc. by eapply run_snoc; [apply IH|].
Qed.

(** *** Failure counts along a run *)

Lemma failures_since_app p tr tr' :
  failures_since p (tr ++ tr') =
  foldl (λ n qo, if decide (qo.1 = p)
                 then match qo.2 with Deleted => 0 | DeleteFailed => n + 1 | _ => n end
                 else n) (failures_since p tr) tr'.
Proof. unfold failures_since. by rewrite foldl_app. Qed.

Lemma failures_since_filter p n tr :
  foldl (λ n qo, if decide (qo.1 = p)
                 then match qo.2 with Deleted => 0 | DeleteFailed => n + 1 | _ => n end
                 else n) n tr =
  foldl (λ n qo, match (qo : string * outcome).2 with Deleted => 0 | DeleteFailed => n + 1 | _ => n end)
    n (filter (λ qo, qo.1 = p) tr).
Proof.
  revert n. induction tr as [|[q o] tr IH]; intros n; [done|].
  rewrite filter_cons. simpl. by case_decide; rewrite IH.
Qed.

Lemma mstep_failures p m tr m' :
  mstep m tr m' → 0 <= _get_failure_count p m <= MAX_FAILURES →
  _get_failure_count p m' =
    foldl (λ n qo, match (qo : string * outcome).2 with Deleted => 0 | DeleteFailed => n + 1 | _ => n end)
      (_get_failure_count p m) (filter (λ qo, qo.1 = p) tr) ∧
  0 <= _get_failure_count p m' <= MAX_FAILURES ∧
  (MAX_FAILURES <= _get_failure_count p m → attempts p tr = []).
Proof using order_perm.
  intros Hstep Hb. destruct Hstep as [m q|m|m|m pr ct ft t w tr m' w' Hcyc].
  - done.
  - unfold start. by destruct (running m).
  - unfold stop. by destruct (running m).
  - assert (attempts p tr = filter (λ qo, attempted qo.2 = true) (filter (λ qo, qo.1 = p) tr)) as ->.
    { unfold attempts. rewrite list_filter_filter. apply list_filter_iff. intros ?. tauto. }
    destruct (cycle_path _ _ _ _ _ _ _ _ _ p Hcyc) as [[-> Hst]|(o&->&Hq&Hst&Ha&Ht)].
    + unfold path_state in Hst. injection Hst as _ Hfc _. unfold _get_failure_count in *.
      by rewrite Hfc.
    + unfold path_state, outcome_state in Hst. unfold eligible, _get_failure_count in *.
      assert (∀ o', o ≠ Tripped → attempted o' = true → ¬ (MAX_FAILURES <= default 0 (failure_counts m !! p)))
        as Hno by naive_solver.
      destruct o; simpl in *; injection Hst as _ Hfc _; rewrite Hfc; simpl; split_and!;
        try done; try (by intros ?%(Hno Deleted)); try lia.
Qed.

(** One polling cycle, path by path: a deletion is attempted exactly for the
    queued paths whose reference count is zero, whose backoff delay has elapsed and
    whose failure count is below the breaker's limit; a success clears the path
    from the queue and its failure record, a failure keeps it queued with the
    count raised and the retry time moved by the capped exponential delay, a
    tripped path leaves the queue, and every other path is left as it was. *)
Theorem cleanup_cycle_spec pr ct ft (t : T) m w tr m' w' p :
  _is_fd_usage_high pr = false →
  _process_cleanup_queue env order pr ct ft t m w = (tr, m', w') →
  (p ∈ cleanup_queue m ↔ ∃ o, (p, o) ∈ tr) ∧
  (∀ o, (p, o) ∈ tr →
     path_state m' p = outcome_state (ft p) o (path_state m p) ∧
     (attempted o = true ↔
        rc_count t p = 0 ∧ (default 0 (next_retry_times m !! p) <= ct p)%Q ∧
        _get_failure_count p m < MAX_FAILURES) ∧
     (o = Tripped ↔ MAX_FAILURES <= _get_failure_count p m)) ∧
  (p ∉ cleanup_queue m → path_state m' p = path_state m p).
Proof using order_perm.
  intros Hfd. unfold _process_cleanup_queue. rewrite Hfd. intros Hp.
  destruct (process_paths_spec _ _ _ _ _ _ _ _ _ _ (order_NoDup _) Hp) as (Hk&Htr&Hoth).
  assert (p ∈ cleanup_queue m ↔ p ∈ tr.*1) as Hq.
  { by rewrite Hk, order_perm, elem_of_elements. }
  split_and!.
  - rewrite Hq, list_elem_of_fmap. split; [intros ([? o]&->&?); eauto|].
    intros [o ?]. by exists (p, o).
  - intros o Hin. destruct (Htr _ _ Hin) as (Hs&Ha&Ht). split_and!; [done| |done].
    rewrite Ha. unfold eligible, _is_ready_for_retry. rewrite Qle_bool_iff. tauto.
  - intros Hn. apply Hoth. by rewrite Hq, Hk in Hn.
Qed.

(** The circuit breaker bounds the work: along any run from the initial state
    (requests, cycles, concurrent changes of reference counts and of the file
    system) the failure count of a path is the number of failed deletions since
    its last success and never exceeds [MAX_FAILURES]. *)
Theorem breaker_bounds_failures tr m p :
  mrun init tr m →
  _get_failure_count p m = failures_since p tr ∧ 0 <= failures_since p tr <= MAX_FAILURES.
Proof using order_perm.
  intros Hrun. remember init as m0 eqn:Em.
  induction Hrun as [m|m tr m1 tr' m2 _ IH Hstep]; subst; [done|].
  destruct (IH eq_refl) as [IHc IHb].
  destruct (mstep_failures p _ _ _ Hstep) as (Hc&Hb&_); [lia|].
  rewrite failures_since_app, failures_since_filter, <-IHc, <-Hc. done.
Qed.

(** The breaker is permanent: once a path has reached [MAX_FAILURES], no
    later cycle attempts to delete it, even when it is scheduled again. *)
Theorem breaker_permanent m tr m' p :
  _get_failure_count p m = MAX_FAILURES → mrun m tr m' →
  attempts p tr = [] ∧ _get_failure_count p m' = MAX_FAILURES.
Proof using order_perm.
  intros Hm Hrun. induction Hrun as [m|m tr m1 tr' m2 _ IH Hstep]; [done|].
  destruct (IH Hm) as [Ha Hc]. destruct (mstep_failures p _ _ _ Hstep) as (Hc'&Hb&Ha'); [rewrite Hc; done|].
  unfold attempts in *. rewrite filter_app, Ha, Ha' by (rewrite Hc; done). split; [done|].
  rewrite Hc', Hc. assert (filter (λ qo, attempted qo.2 = true) (filter (λ qo, qo.1 = p) tr') = []) as Hf.
  { rewrite <-Ha' by (rewrite Hc; done). rewrite list_filter_filter. apply list_filter_iff. intros ?. tauto. }
  clear -Hf. induction (filter (λ qo, qo.1 = p) tr') as [|[q o] l IH]; [done|].
  rewrite filter_cons in Hf. destruct (decide (attempted (q, o).2 = true)) as [|Hn]; [done|].
  destruct o; simpl in *; try done; auto.
Qed.
End runs.

(** ** A concrete environment for the witnesses: the world is the set of existing
    directories, and removing a tree succeeds unless the path is read-only. *)

Definition dirs_env (read_only : string → bool) : environment (gset string) := {|
  snapshot_manager := None;
  path_exists := λ p w, bool_decide (p ∈ w);
  path_is_dir := λ _ _, true;
  rmtree := λ p w, if read_only p then (Err OtherErrno, w) else (Ok (), w ∖ {[p]});
  os_walk := λ _ _, [];
  os_unlink := λ _ w, (Ok (), w);
  os_rmdir := λ _ w, (Err OtherErrno, w);
  register_job := λ w, (None, w);
  complete_job := λ _ w, w;
  fail_job := λ _ w, w;
|}.

Definition quiet_probe : fd_probe :=
  {| fd_dir_exists := true; soft_limit := Some 1024; open_fds := Some 10 |}.

Definition one_queued : manager := schedule_cleanup "v_1" init.

Lemma cleanup_cycle_spec_witness :
  ∃ tr m' w', _process_cleanup_queue (dirs_env (λ _, false)) elements quiet_probe (λ _, 0%Q) (λ _, 0%Q)
       QueryTracker.init one_queued {["v_1"]} = (tr, m', w') ∧
  ("v_1"%string ∈ cleanup_queue one_queued ↔ ∃ o, ("v_1"%string, o) ∈ tr) ∧
  (∀ o, ("v_1"%string, o) ∈ tr →
     path_state m' "v_1" = outcome_state 0%Q o (path_state one_queued "v_1") ∧
     (attempted o = true ↔
        rc_count QueryTracker.init "v_1" = 0 ∧
        (default 0 (next_retry_times one_queued !! "v_1"%string) <= 0)%Q ∧
        _get_failure_count "v_1" one_queued < MAX_FAILURES) ∧
     (o = Tripped ↔ MAX_FAILURES <= _get_failure_count "v_1" one_queued)) ∧
  ("v_1"%string ∉ cleanup_queue one_queued → path_state m' "v_1" = path_state one_queued "v_1").
Proof.
  destruct (_process_cleanup_queue (dirs_env (λ _, false)) elements quiet_probe (λ _, 0%Q) (λ _, 0%Q)
       QueryTracker.init one_queued {["v_1"]}) as [[tr m'] w'] eqn:E.
  exists tr, m', w'. split; [done|].
  apply (cleanup_cycle_spec (dirs_env (λ _, false)) elements (λ _, reflexivity _) quiet_probe
           (λ _, 0%Q) (λ _, 0%Q) QueryTracker.init one_queued {["v_1"]} tr m' w' "v_1" eq_refl E).
Defined.

(** Five cycles on a read-only directory, the clock far apart. *)
Fixpoint cycles (n : nat) (m : manager) : list (string * outcome) * manager :=
  match n with
  | O => ([], m)
  | S n' =>
      let '(tr, m') := cycles n' m in
      let '(tr', m'', _) := _process_cleanup_queue (dirs_env (λ _, true)) elements quiet_probe
           (λ _, inject_Z (1000 * Z.of_nat (S n'))) (λ _, inject_Z (1000 * Z.of_nat (S n')))
           QueryTracker.init m' {["v_1"%string]} in
      (tr ++ tr', m'')
  end.

Lemma cycles_run n m : mrun (T := gmap string Z) (dirs_env (λ _, true)) elements m (cycles n m).1 (cycles n m).2.
Proof.
  induction n as [|n IH]; simpl; [constructor|].
  destruct (cycles n m) as [tr m']. simpl in IH.
  destruct (_process_cleanup_queue _ _ _ _ _ _ _ _) as [[tr' m''] w] eqn:E. simpl.
  eapply run_snoc; [exact IH|]. eapply step_cycle, E.
Defined.

Lemma breaker_bounds_failures_witness :
  _get_failure_count "v_1" (cycles 3 one_queued).2 = failures_since "v_1" (cycles 3 one_queued).1 ∧
  0 <= failures_since "v_1" (cycles 3 one_queued).1 <= MAX_FAILURES.
Proof.
  exact (breaker_bounds_failures (T := gmap string Z) (dirs_env (λ _, true)) elements (λ _, reflexivity _)
    (cycles 3 one_queued).1 (cycles 3 one_queued).2 "v_1"
    (run_cons _ _ _ [] _ _ _ (step_schedule _ _ init "v_1") (cycles_run 3 one_queued))).
Defined.

Lemma breaker_permanent_witness :
  attempts "v_1" (cycles 2 (cycles 5 one_queued).2).1 = [] ∧
  _get_failure_count "v_1" (cycles 2 (cycles 5 one_queued).2).2 = MAX_FAILURES.
Proof.
  apply (breaker_permanent (T := gmap string Z) (dirs_env (λ _, true)) elements (λ _, reflexivity _)
           (cycles 5 one_queued).2); [by vm_compute|apply cycles_run].
Defined.

(** ** Interleaving with queries

    The reference count is read without a lock that excludes new queries, and the
    deletion happens later.  [pc] is the path the cleaner has found unused and is
    about to delete. *)

Record system := {
  refs : gmap string Z;
  dirs : gset string;
  pc : option string;
}.

Inductive sstep (m : manager) : system → system → Prop :=
| sys_query_start s p :
    sstep m s {| refs := QueryTracker.increment_ref p (refs s); dirs := dirs s; pc := pc s |}
| sys_query_end s p r :
    QueryTracker.decrement_ref p (refs s) = Ok r →
    sstep m s {| refs := r; dirs := dirs s; pc := pc s |}
| sys_check s p ct :
    pc s = None → p ∈ cleanup_queue m → eligible ct (refs s) p m →
    sstep m s {| refs := refs s; dirs := dirs s; pc := Some p |}
| sys_delete s p :
    pc s = Some p →
    sstep m s {| refs := refs s; dirs := (_delete_index (dirs_env (λ _, false)) p (dirs s)).2; pc := None |}.

(** The zero-reference test and the deletion are not atomic: a query that
    starts on a scheduled path after the test has its index directory deleted
    while its reference is still counted. *)
Theorem deletion_race :
  ∃ s1 s2, rtc (sstep one_queued)
      {| refs := QueryTracker.init; dirs := {["v_1"]}; pc := None |} s1 ∧
    sstep one_queued s1 s2 ∧
    ("v_1"%string ∈ dirs s1) ∧ ("v_1"%string ∉ dirs s2) ∧
    0 < QueryTracker.get_ref_count "v_1" (refs s1) ∧ 0 < QueryTracker.get_ref_count "v_1" (refs s2).
Proof.
  eexists _, _. split.
  - eapply rtc_l; [apply (sys_check _ _ "v_1" 0%Q); [done|by vm_compute|by vm_compute]|].
    eapply rtc_l; [apply (sys_query_start _ _ "v_1")|]. apply rtc_refl.
  - split; [by apply (sys_delete _ _ "v_1")|]. split_and!; [set_solver|set_solver| |]; by vm_compute.
Qed.
End CleanupManager.
