(* ===== verification/ProviderControl.v ===== *)
(** * Adaptive concurrency and retry towards the embedding providers

    - [ResizableLimiter]: src/src/code_indexer/server/services/resizable_limiter.py
    - [AimdController]: src/src/code_indexer/server/services/aimd_controller.py
    - [Governor]: src/src/code_indexer/server/services/provider_concurrency_governor.py
    - [Backoff]: src/src/code_indexer/services/provider_backoff.py

    Every HTTP attempt takes a slot of its lane's limiter; the lane's AIMD
    controller moves the limit from the attempt's outcome; the retry loop sleeps
    outside the slot. *)

From S2P Require Import Prelude.
From stdpp Require Import options.
Local Open Scope Z_scope.

Module ResizableLimiter.

Definition K_MIN : Z := 8.
Definition K_MAX : Z := 32.

Definition _clamp_limit (value k_min k_max : Z) : Z :=
  if value <? k_min then k_min else if value >? k_max then k_max else value.

Record limiter := {
  l_k_min : Z;
  l_k_max : Z;
  limit : Z;
  in_flight : Z;
  high_water : Z;
}.

Definition new (initial k_min k_max : Z) : limiter :=
  {| l_k_min := k_min; l_k_max := k_max; limit := _clamp_limit initial k_min k_max;
     in_flight := 0; high_water := 0 |}.

Definition set_limit (new_limit : Z) (l : limiter) : limiter :=
  {| l_k_min := l_k_min l; l_k_max := l_k_max l;
     limit := _clamp_limit new_limit (l_k_min l) (l_k_max l);
     in_flight := in_flight l; high_water := high_water l |}.

Definition release (l : limiter) : limiter :=
  {| l_k_min := l_k_min l; l_k_max := l_k_max l; limit := limit l;
     in_flight := in_flight l - 1; high_water := high_water l |}.

(** Taking a slot once the wait loop has been left. *)
Definition take_slot (l : limiter) : limiter :=
  let n := in_flight l + 1 in
  {| l_k_min := l_k_min l; l_k_max := l_k_max l; limit := limit l;
     in_flight := n; high_water := if n >? high_water l then n else high_water l |}.

(** One evaluation of the wait loop at time [now]. *)
Inductive acquire_status := Granted (l : limiter) | TimedOut | Waiting (remaining : Q).

Definition acquire_check (deadline now : Q) (l : limiter) : acquire_status :=
  if limit l <=? in_flight l then
    let remaining := (deadline - now)%Q in
    if Qle_bool remaining 0 then TimedOut else Waiting remaining
  else Granted (take_slot l).

(** [acquire(timeout)] entered at time [t0].  [wakes] are the returns from
    [Condition.wait]: what the other threads did to the limiter meanwhile, and
    the clock then.  [None]: still waiting after the given wake-ups. *)
Fixpoint acquire_loop (deadline now : Q) (wakes : list ((limiter → limiter) * Q)) (l : limiter) :
    option (bool * limiter) :=
  match acquire_check deadline now l with
  | Granted l' => Some (true, l')
  | TimedOut => Some (false, l)
  | Waiting _ =>
      match wakes with
      | [] => None
      | (others, now') :: wakes' => acquire_loop deadline now' wakes' (others l)
      end
  end.

Definition acquire (timeout t0 : Q) (wakes : list ((limiter → limiter) * Q)) (l : limiter) :
    option (bool * limiter) :=
  acquire_loop (t0 + timeout) t0 wakes l.

Lemma clamp_bounds v a b : a <= b → a <= _clamp_limit v a b <= b.
Proof. unfold _clamp_limit. destruct (Z.ltb_spec v a), (Z.gtb_spec v b); lia. Qed.

Lemma clamp_id v a b : a <= v <= b → _clamp_limit v a b = v.
Proof. unfold _clamp_limit. destruct (Z.ltb_spec v a), (Z.gtb_spec v b); lia. Qed.

(** [acquire] never hangs: once a wake-up happens at or after the deadline it
    has returned; a slot is granted only when the number of slots in use is below
    the limit at that moment, and a time-out leaves the limiter as the other
    threads left it. *)
Theorem acquire_returns timeout t0 wakes l :
  (∃ w, w ∈ wakes ∧ (t0 + timeout <= w.2)%Q) →
  ∃ granted l', acquire timeout t0 wakes l = Some (granted, l') ∧
    if granted : bool then ∃ l0, in_flight l0 < limit l0 ∧ l' = take_slot l0 ∧ limit l' = limit l0
    else limit l' <= in_flight l'.
Proof.
  unfold acquire. generalize (t0 + timeout)%Q as d. intros d. revert t0 l.
  induction wakes as [|[f t] wakes IH]; intros t0 l (w&Hin&Hw).
  { by apply not_elem_of_nil in Hin. }
  cbn [acquire_loop]. unfold acquire_check.
  destruct (Z.leb_spec (limit l) (in_flight l)) as [Hle|Hlt]; [|by eexists true, _; eauto 6].
  destruct (Qle_bool_spec (d - t0) 0) as [Hd|Hd]; [by exists false, l|].
  apply elem_of_cons in Hin as [->|Hin]; [|by apply IH; eauto]. simpl in Hw.
  clear IH. set (l1 := f l).
  destruct wakes as [|[f' t'] wakes]; cbn [acquire_loop]; unfold acquire_check;
    (destruct (Z.leb_spec (limit l1) (in_flight l1)); [|by eexists true, _; eauto 6]);
    destruct (Qle_bool_spec (d - t) 0); try (by exists false, l1); lra.
Qed.

Lemma acquire_returns_witness :
  ∃ granted l', acquire 5 10 [(id, 12%Q); (release, 16%Q)]
      {| l_k_min := 1; l_k_max := 4; limit := 2; in_flight := 2; high_water := 2 |} = Some (granted, l') ∧
    if granted : bool then ∃ l0, in_flight l0 < limit l0 ∧ l' = take_slot l0 ∧ limit l' = limit l0
    else limit l' <= in_flight l'.
Proof.
  apply (acquire_returns 5 10). exists (release, 16%Q). split; [right; left|]. simpl. lra.
Defined.
End ResizableLimiter.

Module AimdController.
Import ResizableLimiter.

Definition SUCCESS_THRESHOLD : Z := 8.
Definition COOLDOWN_SECONDS : Q := 3.

(** The controller and the limiter it is bound to share one lock domain. *)
Record controller := {
  lim : limiter;
  k_min : Z;
  k_max : Z;
  k : Z;
  success_run : Z;
  cooldown_until : Q;
}.

Definition new (l : limiter) (kmin kmax : Z) : controller :=
  {| lim := l; k_min := kmin; k_max := kmax; k := limit l; success_run := 0; cooldown_until := 0 |}.

Definition with_lim (l : limiter) (c : controller) : controller :=
  {| lim := l; k_min := k_min c; k_max := k_max c; k := k c;
     success_run := success_run c; cooldown_until := cooldown_until c |}.

Definition record (success : bool) (now : Q) (c : controller) : controller :=
  if negb success then
    let new_k := Z.max (k_min c) (k c / 2) in
    {| lim := set_limit new_k (lim c); k_min := k_min c; k_max := k_max c; k := new_k;
       success_run := 0; cooldown_until := (now + COOLDOWN_SECONDS)%Q |}
  else if Qltb now (cooldown_until c) then c
  else
    let run := success_run c + 1 in
    if (SUCCESS_THRESHOLD <=? run) && (k c <? k_max c) then
      {| lim := set_limit (k c + 1) (lim c); k_min := k_min c; k_max := k_max c; k := k c + 1;
         success_run := 0; cooldown_until := cooldown_until c |}
    else
      {| lim := lim c; k_min := k_min c; k_max := k_max c; k := k c;
         success_run := run; cooldown_until := cooldown_until c |}.

(** ** Invariant of a lane: the target and the enforced limit agree *)

Record inv (c : controller) : Prop := {
  inv_order : 0 < k_min c <= k_max c;
  inv_bounds : l_k_min (lim c) = k_min c ∧ l_k_max (lim c) = k_max c;
  inv_k : k_min c <= k c <= k_max c;
  inv_limit : limit (lim c) = k c;
  inv_run : 0 <= success_run c;
}.

Lemma new_inv kmin kmax seed :
  0 < kmin <= kmax → inv (new (ResizableLimiter.new seed kmin kmax) kmin kmax).
Proof. intros H. pose proof (clamp_bounds seed kmin kmax). constructor; simpl; lia. Qed.

Lemma set_limit_inv c n run cool :
  inv c → k_min c <= n <= k_max c → 0 <= run →
  inv {| lim := set_limit n (lim c); k_min := k_min c; k_max := k_max c; k := n;
         success_run := run; cooldown_until := cool |}.
Proof.
  intros [? [Hb1 Hb2] ? ? ?] Hn Hr. constructor; simpl; try done.
  by rewrite Hb1, Hb2, clamp_id.
Qed.

Lemma record_inv b now c : inv c → inv (record b now c).
Proof.
  intros Hc. pose proof Hc as [Ho Hb Hk Hl Hr]. unfold record. destruct b; simpl.
  - destruct (Qltb now (cooldown_until c)); [done|].
    destruct (Z.leb_spec SUCCESS_THRESHOLD (success_run c + 1)), (Z.ltb_spec (k c) (k_max c)); simpl;
      try (apply set_limit_inv; [done|lia|lia]); constructor; simpl; try done; lia.
  - apply set_limit_inv; [done| |lia]. pose proof (Z.div_le_upper_bound (k c) 2 (k c)). lia.
Qed.

Lemma record_in_flight b now c :
  in_flight (lim (record b now c)) = in_flight (lim c) ∧
  high_water (lim (record b now c)) = high_water (lim c) ∧
  k_min (record b now c) = k_min c ∧ k_max (record b now c) = k_max c.
Proof. unfold record. destruct b; simpl; repeat case_match; done. Qed.

(** A sequence of recorded outcomes with their times. *)
Definition records (os : list (bool * Q)) (c : controller) : controller :=
  foldl (λ c o, record o.1 o.2 c) c os.

Lemma records_inv os c : inv c → inv (records os c).
Proof. unfold records. revert c. induction os; intros c Hc; simpl; auto using record_inv. Qed.

Definition successes (os : list (bool * Q)) : Z := Z.of_nat (length (filter (λ o, o.1 = true) os)).

(** Additive increase is slow: starting from a fresh success run, any sequence
    of outcomes raises [K] by at most one per [SUCCESS_THRESHOLD] successes, and
    [K] stays within its bounds and equal to the limiter's enforced limit. *)
Theorem additive_increase_bound os c :
  inv c → success_run c = 0 →
  SUCCESS_THRESHOLD * (k (records os c) - k c) <= successes os ∧
  k_min c <= k (records os c) <= k_max c ∧ limit (lim (records os c)) = k (records os c).
Proof.
  intros Hc Hr. split.
  - assert (SUCCESS_THRESHOLD * k (records os c) + success_run (records os c) <=
            SUCCESS_THRESHOLD * k c + success_run c + successes os) as H.
    { clear Hr. unfold records. revert c Hc. induction os as [|[b now] os IH]; intros c Hc; simpl.
      { unfold successes. simpl. lia. }
      specialize (IH (record b now c) (record_inv b now c Hc)).
      unfold successes in *. rewrite filter_cons. pose proof Hc as [Ho _ Hk _ Hrn].
      enough (SUCCESS_THRESHOLD * k (record b now c) + success_run (record b now c) <=
              SUCCESS_THRESHOLD * k c + success_run c + (if b then 1 else 0)).
      { destruct b; case_decide; simpl in *; try done; lia. }
      unfold record, SUCCESS_THRESHOLD. destruct b; simpl.
      - destruct (Qltb now (cooldown_until c)); [lia|].
        destruct (Z.leb_spec 8 (success_run c + 1)), (Z.ltb_spec (k c) (k_max c)); simpl; lia.
      - pose proof (Z.div_le_upper_bound (k c) 2 (k c)). lia. }
    pose proof (inv_run _ (records_inv os c Hc)). lia.
  - pose proof (records_inv os c Hc) as [? ? Hk Hl ?]. split; [|done].
    enough (k_min (records os c) = k_min c ∧ k_max (records os c) = k_max c) by lia.
    clear. revert c. induction os as [|o os IH]; intros c; [done|].
    unfold records in *. simpl. destruct (IH (record o.1 o.2 c)) as [-> ->].
    pose proof (record_in_flight o.1 o.2 c). naive_solver.
Qed.

Definition fresh_lane : controller := new (ResizableLimiter.new 16 8 32) 8 32.

Lemma additive_increase_bound_witness :
  let os := [(true, 1%Q); (false, 2%Q); (true, 3%Q)] in
  SUCCESS_THRESHOLD * (k (records os fresh_lane) - k fresh_lane) <= successes os ∧
  8 <= k (records os fresh_lane) <= 32 ∧
  limit (lim (records os fresh_lane)) = k (records os fresh_lane).
Proof. apply (additive_increase_bound _ fresh_lane); [apply new_inv; lia|done]. Defined.

(** Multiplicative decrease: [n] consecutive rate-limit signals halve [K] [n]
    times, never below the floor, and no success recorded before the cooldown
    after the last signal ends changes [K]. *)
Theorem multiplicative_decrease n times c os :
  inv c → length times = n → n ≠ 0%nat →
  let c' := records ((λ t, (false, t)) <$> times) c in
  k c' = Z.max (k_min c) (k c / 2 ^ Z.of_nat n) ∧
  (Forall (λ o, o.1 = true ∧ (o.2 < default 0 (last times) + COOLDOWN_SECONDS)%Q) os →
   records os c' = c').
Proof.
  intros Hc Hn Hn0 c'. split.
  - subst c' n. clear Hn0. unfold records. revert c Hc.
    induction times as [|t times IH]; intros c Hc; cbn [fmap list_fmap foldl length fst snd].
    { pose proof (inv_k _ Hc). change (2 ^ Z.of_nat 0) with 1. rewrite Z.div_1_r. lia. }
    rewrite IH by (by apply record_inv). rewrite Nat2Z.inj_succ, Z.pow_succ_r by lia.
    change (k (record false t c)) with (Z.max (k_min c) (k c / 2)).
    change (k_min (record false t c)) with (k_min c).
    pose proof (inv_order _ Hc). pose proof (inv_k _ Hc).
    rewrite <-Z.div_div by lia. destruct (Z.max_spec (k_min c) (k c / 2)) as [[? ->]|[Hle ->]]; [done|].
    assert (k_min c / 2 ^ Z.of_nat (length times) <= k_min c) by
      (apply Z.div_le_upper_bound; nia).
    assert (k c / 2 / 2 ^ Z.of_nat (length times) <= k_min c / 2 ^ Z.of_nat (length times)) by
      (apply Z.div_le_mono; lia).
    lia.
  - intros Hos. assert (cooldown_until c' = (default 0 (last times) + COOLDOWN_SECONDS)%Q) as Hcool.
    { subst c'. destruct times as [|t times _] using rev_ind; [simpl in *; lia|].
      unfold records. rewrite fmap_app, foldl_app, last_snoc. done. }
    clearbody c'. induction os as [|[b t] os IH]; [done|].
    apply Forall_cons in Hos as [[? Ht] Hos]. simpl in *. subst b.
    unfold records in *. simpl. assert (record true t c' = c') as ->; [|by apply IH].
    unfold record. simpl. rewrite (proj2 (Qltb_true _ _)); [done|]. rewrite Hcool. done.
Qed.

Lemma multiplicative_decrease_witness :
  let c' := records ((λ t, (false, t)) <$> [1; 2]%Q) fresh_lane in
  k c' = Z.max 8 (16 / 2 ^ 2) ∧
  (Forall (λ o, o.1 = true ∧ (o.2 < default 0 (last [1; 2]%Q) + COOLDOWN_SECONDS)%Q) [(true, 3%Q)] →
   records [(true, 3%Q)] c' = c').
Proof. apply (multiplicative_decrease 2 [1; 2]%Q fresh_lane); [apply new_inv; lia|done|done]. Defined.
End AimdController.

(** ** Exceptions seen by the retry layer *)
Module ProviderErrors.

(** [float(header)] of a Retry-After header. *)
Inductive float_value := Fin (q : Q) | PosInf | NegInf | NaN.
Inductive header := Numeric (v : float_value) | Malformed.

Record http_error := { status_code : Z; retry_after : option header }.

Inductive exn_kind :=
| HTTPStatusError (e : http_error)
| ProviderRateLimitedError (attempts : Z) (last_status_code : Z)
| ProviderSinbinnedError (budget health_key : string)
| GovernorBusyError (budget : string)
| KeyError
| ValueError
| OtherError (name : string).

(** [cause] is [__cause__] when that is an [httpx.HTTPStatusError]. *)
Record exn := { kind : exn_kind; cause : option http_error }.

Definition get_http_status_error (e : exn) : option http_error :=
  match kind e with
  | HTTPStatusError h => Some h
  | _ => cause e
  end.

Definition is_rate_limited (e : exn) : bool :=
  match kind e with
  | ProviderRateLimitedError _ _ => true
  | _ =>
      match get_http_status_error e with
      | Some h => status_code h =? 429
      | None => false
      end
  end.
End ProviderErrors.

Module Governor.
Import ResizableLimiter AimdController ProviderErrors.

Definition _K_MAX_HARD_CEILING : Z := 256.
Definition _DEFAULT_MAX_CONCURRENCY : Z := K_MIN.

Definition _LANE_HEALTH_KEY : gmap string string :=
  {[ "voyage:embed" := "voyage-ai"; "voyage:rerank" := "voyage-reranker";
     "cohere:embed" := "cohere"; "cohere:rerank" := "cohere-reranker" ]}%string.

(** ** Configuration *)

(** A configuration attribute: an [int], or a value of another type. *)
Inductive cfg_value := CInt (z : Z) | COther.

(** The attributes the governor reads, each possibly missing; the whole is [None]
    when the configuration service raises. *)
Record cfg := {
  coalesce_k_min : option cfg_value;
  coalesce_k_max : option cfg_value;
  query_provider_max_concurrency : option cfg_value;
}.

Definition _read_config_k_bounds (c : option cfg) : Z * Z :=
  match c with
  | Some c =>
      match coalesce_k_min c, coalesce_k_max c with
      | Some (CInt a), Some (CInt b) =>
          if (K_MIN <=? a) && (a <=? b) && (b <=? _K_MAX_HARD_CEILING) then (a, b) else (K_MIN, K_MAX)
      | _, _ => (K_MIN, K_MAX)
      end
  | None => (K_MIN, K_MAX)
  end.

Definition _read_config_concurrency (c : option cfg) : Z :=
  match c with
  | Some c =>
      match query_provider_max_concurrency c with
      | Some (CInt v) => if 0 <? v then v else _DEFAULT_MAX_CONCURRENCY
      | _ => _DEFAULT_MAX_CONCURRENCY
      end
  | None => _DEFAULT_MAX_CONCURRENCY
  end.

(** [get_applied_worker_count]: the [--workers] of the unit file, else the value
    of applied_launch.json, else 1. *)
Definition get_applied_worker_count (execstart applied_launch : option Z) : Z :=
  match execstart with
  | Some v => Z.max 1 v
  | None => match applied_launch with Some v => Z.max 1 v | None => 1 end
  end.

Definition _read_config_workers (execstart applied_launch : option Z) : Z :=
  get_applied_worker_count execstart applied_launch.

(** ** State *)

Record lane := { ctl : controller; wait_count : Z }.
Abbreviation governor := (gmap string lane).

Definition seed_of (max_concurrency k_min k_max : Z) : Z := Z.min (Z.max max_concurrency k_min) k_max.

Definition init (max_concurrency : option Z) (c : option cfg) (execstart applied_launch : option Z) :
    governor :=
  let '(mc, kmin, kmax) :=
    match max_concurrency with
    | None =>
        let '(kmin, kmax) := _read_config_k_bounds c in
        (Z.max kmin (_read_config_concurrency c / _read_config_workers execstart applied_launch), kmin, kmax)
    | Some mc => (mc, K_MIN, K_MAX)
    end in
  let seed := seed_of mc kmin kmax in
  (λ _, {| ctl := AimdController.new (ResizableLimiter.new seed kmin kmax) kmin kmax; wait_count := 0 |})
    <$> _LANE_HEALTH_KEY.

Definition _record_waited (budget : string) (g : governor) : governor :=
  alter (λ l, {| ctl := ctl l; wait_count := wait_count l + 1 |}) budget g.

Definition set_ctl (budget : string) (c : controller) (g : governor) : governor :=
  alter (λ l, {| ctl := c; wait_count := wait_count l |}) budget g.

(** ** One governed attempt *)

(** Leaving the slot: record the outcome unless it is an error that is not a
    rate-limit signal, then release. *)
Definition finish {A} (out : result exn A) (now : Q) (c : controller) : controller :=
  let c1 := match out with
            | Ok _ => record true now c
            | Err e => if is_rate_limited e then record false now c else c
            end in
  with_lim (release (lim c1)) c1.

(** [execute(budget, fn, acquire_timeout)].  [others_waiting] and [others_running]
    are what the other threads of the lane do while this one waits for a slot and
    while [fn] runs; [t0], [t1] and [t2] the clock on entry, when the wait ends and
    when the outcome is recorded.  [None]: the slot is not granted yet and the
    deadline not passed. *)
Definition execute {A} (sinbinned : string → bool) (budget : string) (acquire_timeout t0 t1 t2 : Q)
    (others_waiting others_running : controller → controller) (out : result exn A) (g : governor) :
    option (result exn A * governor) :=
  match _LANE_HEALTH_KEY !! budget, g !! budget with
  | Some key, Some l =>
      if sinbinned key then Some (Err {| kind := ProviderSinbinnedError budget key; cause := None |}, g)
      else
        let g1 := if limit (lim (ctl l)) <=? in_flight (lim (ctl l)) then _record_waited budget g else g in
        let c1 := others_waiting (ctl l) in
        match acquire_check (t0 + acquire_timeout) t1 (lim c1) with
        | Granted lim' =>
            let c2 := others_running (with_lim lim' c1) in
            Some (out, set_ctl budget (finish out t2 c2) g1)
        | TimedOut =>
            Some (Err {| kind := GovernorBusyError budget; cause := None |}, set_ctl budget c1 g1)
        | Waiting _ => None
        end
  | _, _ => Some (Err {| kind := KeyError; cause := None |}, g)
  end.

Definition current_k (g : governor) : gmap string Z := (λ l, k (ctl l)) <$> g.
Definition in_flight_high_water_mark (g : governor) : gmap string Z := (λ l, high_water (lim (ctl l))) <$> g.

(** ** Invariant of a lane with [holders] attempts in progress *)

Record lane_inv (holders : Z) (c : controller) : Prop := {
  li_aimd : AimdController.inv c;
  li_in_flight : in_flight (lim c) = holders;
  li_nonneg : 0 <= holders;
  li_high : holders <= high_water (lim c) <= k_max c;
}.

(** The lane as a transition system: attempts take slots and finish in any order. *)
Inductive lane_step : Z * controller → Z * controller → Prop :=
| lane_enter h c deadline now l :
    acquire_check deadline now (lim c) = Granted l → lane_step (h, c) (h + 1, with_lim l c)
| lane_leave {A} h c (out : result exn A) now :
    0 < h → lane_step (h, c) (h - 1, finish out now c).

Lemma with_lim_inv c l :
  AimdController.inv c → l_k_min l = l_k_min (lim c) → l_k_max l = l_k_max (lim c) →
  limit l = limit (lim c) → AimdController.inv (with_lim l c).
Proof. intros [? [? ?] ? ? ?] H1 H2 H3. constructor; simpl; try done; rewrite ?H1, ?H2, ?H3; auto. Qed.

Lemma enter_inv h c deadline now l :
  lane_inv h c → acquire_check deadline now (lim c) = Granted l → lane_inv (h + 1) (with_lim l c).
Proof.
  intros [Ha Hi Hn Hh] Hg. unfold acquire_check in Hg.
  destruct (Z.leb_spec (limit (lim c)) (in_flight (lim c))).
  { by destruct (Qle_bool _ _). }
  injection Hg as <-. pose proof (inv_limit _ Ha). pose proof (inv_k _ Ha).
  constructor; [by apply with_lim_inv| | |]; cbn [with_lim lim take_slot in_flight high_water k_max]; [lia..|].
  destruct (Z.gtb_spec (in_flight (lim c) + 1) (high_water (lim c))); lia.
Qed.

Lemma leave_inv {A} h c (out : result exn A) now : 0 < h → lane_inv h c → lane_inv (h - 1) (finish out now c).
Proof.
  intros Hpos [Ha Hi Hn Hh].
  assert (∃ c1, finish out now c = with_lim (release (lim c1)) c1 ∧ AimdController.inv c1 ∧
     in_flight (lim c1) = in_flight (lim c) ∧ high_water (lim c1) = high_water (lim c) ∧
     k_max c1 = k_max c) as (c1&->&Hc1&Hi1&Hh1&Hm).
  { unfold finish. destruct out as [a|e]; [|destruct (is_rate_limited e)]; eexists; (split; [done|]).
    - pose proof (record_in_flight true now c). split_and!; try tauto. by apply record_inv.
    - pose proof (record_in_flight false now c). split_and!; try tauto. by apply record_inv.
    - done. }
  constructor; [by apply with_lim_inv|cbn [with_lim lim release in_flight high_water k_max]; lia..].
Qed.

(** C40: the governor's safety property: however attempts on a lane interleave and
    whatever their outcomes, the adaptive target stays within its bounds and is
    the limit the limiter enforces, the in-flight counter is the number of
    attempts holding a slot, and that number has never exceeded [k_max]. *)
Theorem lane_safe seed kmin kmax h c :
  0 < kmin <= kmax →
  rtc lane_step (0, AimdController.new (ResizableLimiter.new seed kmin kmax) kmin kmax) (h, c) →
  kmin <= k c <= kmax ∧ limit (lim c) = k c ∧ in_flight (lim c) = h ∧
  0 <= h <= high_water (lim c) ∧ high_water (lim c) <= kmax.
Proof.
  intros Hk Hrtc.
  assert (∀ s s', rtc lane_step s s' →
     (lane_inv s.1 s.2 ∧ k_min s.2 = kmin ∧ k_max s.2 = kmax) →
     lane_inv s'.1 s'.2 ∧ k_min s'.2 = kmin ∧ k_max s'.2 = kmax) as Hind.
  { induction 1 as [|s1 s2 s3 Hstep _ IH]; [done|]. intros (Hi&Hmin&Hmax). apply IH.
    destruct Hstep as [h' c' d now l Hg|A h' c' out now Hpos]; cbn [fst snd] in *.
    - split; [by eapply enter_inv|done].
    - split; [by apply leave_inv|]. unfold finish. cbn [with_lim k_min k_max].
      destruct out as [a|e]; [|destruct (is_rate_limited e); [|done]].
      + destruct (record_in_flight true now c') as (_&_&->&->). done.
      + destruct (record_in_flight false now c') as (_&_&->&->). done. }
  destruct (Hind _ _ Hrtc) as ([Ha Hi Hn Hh]&Hmin&Hmax); cbn [fst snd] in *.
  { pose proof (clamp_bounds seed kmin kmax). split; [|done].
    constructor; [by apply new_inv|done|simpl; lia|simpl; lia]. }
  destruct Ha. subst. lia.
Qed.

Lemma lane_safe_witness :
  let c := finish (@Err exn nat {| kind := HTTPStatusError {| status_code := 429; retry_after := None |};
                                   cause := None |}) 1 (with_lim (take_slot (lim fresh_lane)) fresh_lane) in
  8 <= k c <= 32 ∧ limit (lim c) = k c ∧ in_flight (lim c) = 0 ∧
  0 <= 0 <= high_water (lim c) ∧ high_water (lim c) <= 32.
Proof.
  apply (lane_safe 16 8 32 0); [lia|].
  eapply rtc_l; [apply (lane_enter 0 _ 0%Q 0%Q (take_slot (lim fresh_lane))); reflexivity|].
  eapply rtc_l; [apply (lane_leave 1 _ (@Err exn nat {| kind := HTTPStatusError {| status_code := 429; retry_after := None |}; cause := None |}) 1%Q); lia|]. apply rtc_refl.
Defined.
Definition lane_in_flight (budget : string) (g : governor) : option Z :=
  (λ l, in_flight (lim (ctl l))) <$> g !! budget.

Lemma finish_in_flight {A} (out : result exn A) now c :
  in_flight (lim (finish out now c)) = in_flight (lim c) - 1.
Proof.
  unfold finish. cbn [with_lim lim release in_flight].
  destruct out as [a|e]; [|destruct (is_rate_limited e); [|done]]; by rewrite (proj1 (record_in_flight _ now c)).
Qed.

(** An attempt never leaks a slot and never touches another lane: whatever the
    outcome of the governed call (success, rate limit, any other exception) and of
    the wait, the in-flight count of its lane changes only by what the other
    threads did to it, every other lane is unchanged, and the caller sees the
    outcome of the call itself or one of the governor's own three refusals. *)
Theorem execute_no_leak {A} sinbinned budget acquire_timeout t0 t1 t2 w r (out : result exn A) g res g' dw dr :
  (∀ c, in_flight (lim (w c)) = in_flight (lim c) + dw) →
  (∀ c, in_flight (lim (r c)) = in_flight (lim c) + dr) →
  execute sinbinned budget acquire_timeout t0 t1 t2 w r out g = Some (res, g') →
  (∀ b, b ≠ budget → g' !! b = g !! b) ∧
  match res with
  | Err {| kind := KeyError; cause := None |} =>
      (g' = g ∧ (_LANE_HEALTH_KEY !! budget = None ∨ g !! budget = None)) ∨ res = out
  | Err {| kind := ProviderSinbinnedError _ key; cause := None |} => (g' = g ∧ sinbinned key = true) ∨ res = out
  | Err {| kind := GovernorBusyError _; cause := None |} =>
      lane_in_flight budget g' = Z.add dw <$> lane_in_flight budget g ∨ res = out
  | _ => res = out
  end ∧
  (lane_in_flight budget g' = lane_in_flight budget g ∨
   lane_in_flight budget g' = Z.add dw <$> lane_in_flight budget g ∨
   lane_in_flight budget g' = Z.add (dw + dr) <$> lane_in_flight budget g).
Proof.
  intros Hw Hr. unfold execute.
  destruct (_LANE_HEALTH_KEY !! budget) as [key|]; [|intros [= <- <-]; split_and!; auto].
  destruct (g !! budget) as [l|] eqn:El; [|intros [= <- <-]; split_and!; auto].
  destruct (sinbinned key) eqn:Es; [intros [= <- <-]; split_and!; auto|].
  set (g1 := if limit (lim (ctl l)) <=? in_flight (lim (ctl l)) then _record_waited budget g else g).
  assert (∃ n, g1 !! budget = Some {| ctl := ctl l; wait_count := n |}) as [n Hn].
  { subst g1. unfold _record_waited. destruct (_ <=? _); [|exists (wait_count l); by destruct l].
    rewrite lookup_alter_eq, El. simpl. eauto. }
  assert (∀ b c, b ≠ budget → set_ctl budget c g1 !! b = g !! b) as Hoth.
  { intros b c Hb. unfold set_ctl. rewrite lookup_alter_ne by done. subst g1. unfold _record_waited.
    destruct (_ <=? _); [by rewrite lookup_alter_ne|done]. }
  assert (∀ c, lane_in_flight budget (set_ctl budget c g1) = Some (in_flight (lim c))) as Hlane.
  { intros c. unfold lane_in_flight, set_ctl. by rewrite lookup_alter_eq, Hn. }
  assert (lane_in_flight budget g = Some (in_flight (lim (ctl l)))) as Hg.
  { unfold lane_in_flight. by rewrite El. }
  clearbody g1. unfold acquire_check. destruct (_ <=? _).
  { destruct (Qle_bool _ _); [|done]. intros [= <- <-].
    assert (lane_in_flight budget (set_ctl budget (w (ctl l)) g1) = Z.add dw <$> lane_in_flight budget g) as Heq.
    { rewrite Hlane, Hg, Hw. simpl. f_equal. lia. }
    split_and!; auto. }
  intros [= <- <-]. split_and!; [by auto| |].
  - destruct out as [|[[] []]]; auto.
  - right; right. rewrite Hlane, Hg, finish_in_flight, Hr.
    cbn [with_lim lim take_slot in_flight fmap option_fmap option_map]. rewrite Hw. f_equal. lia.
Qed.

Lemma execute_no_leak_witness :
  let out : result exn nat := Ok 7%nat in
  let g : governor := init None None (Some 2) None in
  ∃ g', execute (λ _, false) "cohere:embed" 5 0 1 2 id id out g = Some (out, g') ∧
    lane_in_flight "cohere:embed" g' = Some 0.
Proof.
  intros out g. eexists. split; [reflexivity|].
  destruct (execute_no_leak (λ _, false) "cohere:embed" 5 0 1 2 id id out g out _ 0 0
              ltac:(intros; simpl; lia) ltac:(intros; simpl; lia) eq_refl) as (_&_&[->|[->| ->]]); reflexivity.
Defined.
End Governor.

Module Backoff.
Import ProviderErrors.

Definition _DEFAULT_MAX_RETRIES : Z := 2.
Definition _DEFAULT_PER_ATTEMPT_CAP : Q := 15.
Definition _DEFAULT_CUMULATIVE_CAP : Q := 45.
Definition _DEFAULT_NO_HEADER_BASE : Q := 1.

(** Python's [min(base, cap)] for a finite [cap]; comparisons with NaN are false. *)
Definition fmin_cap (base : float_value) (cap : Q) : float_value :=
  match base with
  | Fin b => Fin (pymin b cap)
  | PosInf => Fin cap
  | NegInf => NegInf
  | NaN => NaN
  end.

(** [random.uniform(0.0, ceiling)] is [0.0 + (ceiling - 0.0) * u], [u] drawn from [0, 1). *)
Definition uniform0 (ceiling : float_value) (u : Q) : float_value :=
  match ceiling with
  | Fin c => Fin (c * u)
  | PosInf => if Qeq_bool u 0 then NaN else PosInf
  | NegInf => if Qeq_bool u 0 then NaN else NegInf
  | NaN => NaN
  end.

Definition _compute_sleep (e : option http_error) (per_attempt_cap u : Q) : float_value :=
  let base :=
    match e ≫= retry_after with
    | Some (Numeric v) => v
    | Some Malformed => Fin per_attempt_cap
    | None => Fin _DEFAULT_NO_HEADER_BASE
    end in
  uniform0 (fmin_cap base per_attempt_cap) u.

(** [cumulative_slept + sleep_duration > cumulative_cap]. *)
Definition over_budget (slept : Q) (s : float_value) (cumulative_cap : Q) : bool :=
  match s with
  | Fin x => Qltb cumulative_cap (slept + x)
  | PosInf => true
  | NegInf | NaN => false
  end.

(** [time.sleep(s)] refuses a negative or non-finite duration. *)
Definition time_sleep (s : float_value) : result exn_kind Q :=
  match s with
  | Fin x => if Qltb x 0 then Err ValueError else Ok x
  | NaN => Err ValueError
  | PosInf | NegInf => Err (OtherError "OverflowError")
  end.

Definition direct_cause (e : exn) : option http_error :=
  match kind e with HTTPStatusError h => Some h | _ => None end.

Definition rate_limited_error (attempts : Z) (from : exn) : exn :=
  {| kind := ProviderRateLimitedError attempts 429; cause := direct_cause from |}.

(** The retry loop.  [fn i] and [u i] are the outcome of, and the random number
    drawn after, the [i]-th attempt.  The result comes with the sleeps made (in
    order) and the number of calls of [fn]. *)
Fixpoint backoff_loop {A} (fn : nat → result exn A) (u : nat → Q) (total_attempts : Z)
    (per_attempt_cap cumulative_cap slept : Q) (attempt remaining : nat) : result exn A * list Q * nat :=
  match remaining with
  | O => (Err {| kind := ProviderRateLimitedError total_attempts 429; cause := None |}, [], O)
  | S remaining' =>
      match fn attempt with
      | Ok a => (Ok a, [], 1%nat)
      | Err e =>
          if negb (is_rate_limited e) then (Err e, [], 1%nat)
          else if total_attempts - 1 <=? Z.of_nat attempt
          then (Err (rate_limited_error total_attempts e), [], 1%nat)
          else
            let s := _compute_sleep (get_http_status_error e) per_attempt_cap (u attempt) in
            if over_budget slept s cumulative_cap
            then (Err (rate_limited_error (Z.of_nat attempt + 1) e), [], 1%nat)
            else
              match time_sleep s with
              | Err x => (Err {| kind := x; cause := None |}, [], 1%nat)
              | Ok d =>
                  let '(r, ds, n) :=
                    backoff_loop fn u total_attempts per_attempt_cap cumulative_cap
                      (slept + d) (S attempt) remaining' in
                  (r, d :: ds, S n)
              end
      end
  end.

Definition execute_with_backoff {A} (fn : nat → result exn A) (u : nat → Q) (max_retries : Z)
    (per_attempt_cap cumulative_cap : Q) : result exn A * list Q * nat :=
  let total_attempts := max_retries + 1 in
  backoff_loop fn u total_attempts per_attempt_cap cumulative_cap 0 0 (Z.to_nat total_attempts).

(** The outcomes that make the loop retry. *)
Definition retried {A} (r : result exn A) : bool :=
  match r with Ok _ => false | Err e => is_rate_limited e end.

(** A Retry-After header whose value is a number of seconds to wait. *)
Definition sane {A} (r : result exn A) : Prop :=
  match r with
  | Err e =>
      match get_http_status_error e ≫= retry_after with
      | Some (Numeric (Fin q)) => (0 <= q)%Q
      | Some (Numeric NegInf) | Some (Numeric NaN) => False
      | _ => True
      end
  | Ok _ => True
  end.

Lemma scale_bounds (c u : Q) : (0 <= c → 0 <= u < 1 → 0 <= c * u <= c)%Q.
Proof. intros. split; nra. Qed.

Lemma compute_sleep_sane {A} (e : exn) (cap u : Q) :
  (0 <= cap)%Q → (0 <= u < 1)%Q → sane (@Err exn A e) →
  ∃ x, _compute_sleep (get_http_status_error e) cap u = Fin x ∧ (0 <= x <= cap)%Q.
Proof.
  unfold sane, _compute_sleep. intros Hcap Hu Hs.
  assert (∀ b, (0 <= b)%Q → ∃ x, uniform0 (fmin_cap (Fin b) cap) u = Fin x ∧ (0 <= x <= cap)%Q) as Hfin.
  { intros b Hb. eexists. split; [reflexivity|]. qminmax.
    assert (0 <= mn)%Q as H0 by (destruct Hmin as (_&_&[->| ->]); done).
    pose proof (scale_bounds mn u H0 Hu). lra. }
  destruct (get_http_status_error e ≫= retry_after) as [[[q| | |]|]|]; try done.
  - by apply Hfin.
  - eexists. split; [reflexivity|]. by apply scale_bounds.
  - by apply Hfin.
  - apply Hfin. unfold _DEFAULT_NO_HEADER_BASE. lra.
Qed.

Section spec.
Context {A : Type} (fn : nat → result exn A) (u : nat → Q) (cap cum : Q).
Hypothesis Hcap : (0 <= cap)%Q.
Hypothesis Hu : ∀ i, (0 <= u i < 1)%Q.
Hypothesis Hsane : ∀ i, sane (fn i).

(** What a run from attempt [a] with [slept] seconds already slept promises. *)
Definition run_ok (total : Z) (a : nat) (slept : Q) (run : result exn A * list Q * nat) : Prop :=
  let '(out, sleeps, n) := run in
  n = S (length sleeps) ∧ Z.of_nat (a + n) <= total ∧
  Forall (λ s, (0 <= s <= cap)%Q) sleeps ∧ (slept + sumQ sleeps <= cum)%Q ∧
  (∀ i, (i < length sleeps)%nat → retried (fn (a + i)) = true) ∧
  if retried (fn (a + length sleeps)) then
    (∃ e, fn (a + length sleeps)%nat = Err e ∧ out = Err (rate_limited_error (Z.of_nat (a + n)) e)) ∧
    (Z.of_nat (a + n) = total ∨
     ∃ s, (0 <= s <= cap)%Q ∧ (cum < slept + sumQ sleeps + s)%Q)
  else out = fn (a + length sleeps)%nat.

Lemma backoff_loop_ok total remaining : ∀ a slept,
  total = Z.of_nat (a + remaining) → remaining ≠ 0%nat → (slept <= cum)%Q →
  run_ok total a slept (backoff_loop fn u total cap cum slept a remaining).
Proof using Hcap Hu Hsane.
  induction remaining as [|r IH]; intros a slept Ht Hr Hs; [done|]. cbn [backoff_loop].
  assert (∀ out : result exn A,
    (if retried (fn a) then (∃ e, fn a = Err e ∧ out = Err (rate_limited_error (Z.of_nat (a + 1)) e)) ∧
       (Z.of_nat (a + 1) = total ∨ ∃ s, (0 <= s <= cap)%Q ∧ (cum < slept + s)%Q)
     else out = fn a) → run_ok total a slept (out, [], 1%nat)) as Hstop.
  { intros out Hout. simpl. rewrite Nat.add_0_r. split_and!; [done|lia|done|lra|lia|].
    destruct (retried (fn a)); [|done]. destruct Hout as [? [?|(s&?&?)]]; split; auto.
    right. exists s. split; [done|lra]. }
  pose proof (Hsane a) as Hsa.
  destruct (fn a) as [x|e] eqn:Ea; [by apply Hstop|].
  destruct (is_rate_limited e) eqn:El; simpl negb; cbn iota.
  2: { apply Hstop. simpl. by rewrite El. }
  destruct (Z.leb_spec (total - 1) (Z.of_nat a)) as [Hlast|Hlast].
  { apply Hstop. simpl. rewrite El. split; [|left; lia]. exists e. split; [done|].
    by replace total with (Z.of_nat (a + 1)) by lia. }
  destruct (compute_sleep_sane e cap (u a) Hcap (Hu a) Hsa) as (x&Hx&Hx0). rewrite Hx. simpl over_budget.
  qcase.
  { apply Hstop. simpl. rewrite El. split; [|right; eauto]. exists e. split; [done|]. do 2 f_equal. lia. }
  simpl time_sleep. qcase; [lra|].
  specialize (IH (S a) (slept + x)%Q). destruct (backoff_loop _ _ _ _ _ _ _ _) as [[out ds] n].
  destruct IH as (Hn&Hle&Hall&Hsum&Hret&Hout); [lia|lia|done|].
  simpl. replace (a + S (length ds))%nat with (S a + length ds)%nat by lia.
  replace (a + S n)%nat with (S a + n)%nat by lia.
  split_and!; [lia|lia|by constructor|lra| |].
  - intros [|i] Hi; [rewrite Nat.add_0_r, Ea; done|].
    replace (a + S i)%nat with (S a + i)%nat by lia. apply Hret. lia.
  - change (S a + length ds)%nat with (S (a + length ds)) in *.
    destruct (retried (fn (S (a + length ds)))); [|done]. destruct Hout as [? [?|(s&?&?)]]; split; auto.
    right. exists s. split; [done|lra].
Qed.

(** [execute_with_backoff] with headers that carry a waiting time: it makes at
    most [max_retries + 1] calls, each sleep is within the per-attempt cap and all
    of them together within the cumulative cap; every call but the last was rate
    limited; if the last one was not, its outcome is returned or re-raised as it
    is, otherwise ProviderRateLimitedError names the number of calls made and
    either the attempts are exhausted or some admissible next sleep would have
    broken the cumulative budget. *)
Theorem execute_with_backoff_spec max_retries :
  0 <= max_retries → (0 <= cum)%Q →
  run_ok (max_retries + 1) 0 0 (execute_with_backoff fn u max_retries cap cum).
Proof using Hcap Hu Hsane.
  intros. unfold execute_with_backoff. apply backoff_loop_ok; [lia|lia|done].
Qed.
End spec.

Definition http (code : Z) (h : option header) : exn :=
  {| kind := HTTPStatusError {| status_code := code; retry_after := h |}; cause := None |}.

Lemma execute_with_backoff_spec_witness :
  let fn i := if (i =? 0)%nat then Err (http 429 (Some (Numeric (Fin 100)))) else Ok i in
  run_ok fn 15 45 (2 + 1) 0 0 (execute_with_backoff fn (λ _, 1 # 2)%Q 2 15 45).
Proof.
  intros fn. apply execute_with_backoff_spec; [lra|intros; lra| |lia|lra].
  intros [|i]; subst fn; cbn; [lra|done].
Defined.

(** A negative Retry-After header escapes the retry loop: the rate-limit signal is
    replaced by the ValueError of [time.sleep]. *)
Lemma negative_retry_after_escapes :
  execute_with_backoff (A := nat) (λ _, Err (http 429 (Some (Numeric (Fin (-5)))))) (λ _, 1 # 2)%Q 2 15 45
  = (Err {| kind := ValueError; cause := None |}, [], 1%nat).
Proof. reflexivity. Qed.
End Backoff.
