(* ===== verification/QueryFusion.v ===== *)
(** * Score gating and fusion of two providers' results

    src/src/code_indexer/services/query_strategy.py.

    Dictionaries whose iteration order reaches the stable sort are association
    lists; [set] iteration order is a parameter.  A missing dictionary key would
    be a KeyError and is [None]; the theorems show it does not occur. *)

From S2P Require Import Prelude.
From stdpp Require Import options.

Module QueryFusion.

Inductive ScoreFusion := RRF | MULTIPLY | AVERAGE.

Definition RRF_K : Z := 60.
Definition SCORE_GATE_RATIO : Q := 80 # 100.
Definition SCORE_GATE_FLOOR : Q := 70 # 100.

Section fusion.
(** The opaque metadata dictionary. *)
Context {M : Type}.

Record QueryResult := {
  file_path : string;
  score : Q;
  content : string;
  chunk_id : string;
  repository_alias : string;
  metadata : M;
  source_provider : string;
  fusion_score : option Q;
  contributing_providers : option (list string);
}.

Implicit Types (r : QueryResult) (l : list QueryResult) (key : string).

(** [f"{r.repository_alias}:{r.file_path}:{r.chunk_id}"]. *)
Definition dedup_key r : string :=
  repository_alias r +:+ ":" +:+ file_path r +:+ ":" +:+ chunk_id r.

(** [max(... for r in l)] and [min(... for r in l)] of a non-empty list. *)
Definition max_score r l : Q := score (max_by score r l).
Definition min_score r l : Q := score (max_by (λ r, - score r)%Q r l).

(** ** Score gate *)

Definition apply_score_gate (primary secondary : list QueryResult) :
    list QueryResult * list QueryResult :=
  match primary, secondary with
  | p :: ps, s :: ss =>
      let primary_max := max_score p ps in
      let secondary_max := max_score s ss in
      if Qltb secondary_max (primary_max * SCORE_GATE_RATIO) then
        (primary, filter (λ r, Qle_bool (primary_max * SCORE_GATE_FLOOR) (score r) = true) secondary)
      else if Qltb primary_max (secondary_max * SCORE_GATE_RATIO) then
        (filter (λ r, Qle_bool (secondary_max * SCORE_GATE_FLOOR) (score r) = true) primary, secondary)
      else (primary, secondary)
  | _, _ => (primary, secondary)
  end.

(** ** Dictionaries filled by the fusion loops *)

Record tables := {
  scores : list (string * Q);
  result_map : list (string * QueryResult);
  contributing : list (string * gset string);
}.

Definition no_tables : tables := {| scores := []; result_map := []; contributing := [] |}.

(** [contributing[key].add(provider)] on a [defaultdict(set)]. *)
Definition add_provider key (provider : string) (d : list (string * gset string)) :
    list (string * gset string) :=
  dset key ({[provider]} ∪ default ∅ (dget key d)) d.

(** [if key not in d: d[key] = v]. *)
Definition set_if_absent {V} key (v : V) (d : list (string * V)) : list (string * V) :=
  match dget key d with Some _ => d | None => dset key v d end.

(** [sorted(contributing[key])]. *)
Definition sorted_providers (X : gset string) : list string :=
  merge_sort String.le (elements X).

(** The common tail: sort the keys by score, descending and stable, keep [limit]
    of them and annotate the results. *)
Definition fused_result key (t : tables) : option QueryResult :=
  r ← dget key (result_map t);
  s ← dget key (scores t);
  Some {| file_path := file_path r; score := s; content := content r; chunk_id := chunk_id r;
          repository_alias := repository_alias r; metadata := metadata r;
          source_provider := "fused"; fusion_score := Some s;
          contributing_providers := Some (sorted_providers (default ∅ (dget key (contributing t)))) |}.

Definition sorted_keys (t : tables) : list string :=
  (sort_desc snd (scores t)).*1.

Definition emit (limit : Z) (t : tables) : option (list QueryResult) :=
  mapM (λ key, fused_result key t) (upto limit (sorted_keys t)).

(** ** Reciprocal rank fusion *)

Definition rrf_weight (rank : nat) : Q := 1 / inject_Z (RRF_K + Z.of_nat rank + 1).

Definition rrf_add (rank : nat) r (t : tables) : tables :=
  let key := dedup_key r in
  {| scores := dset key (default 0%Q (dget key (scores t)) + rrf_weight rank)%Q (scores t);
     result_map := set_if_absent key r (result_map t);
     contributing := add_provider key (source_provider r) (contributing t) |}.

Fixpoint rrf_pass (rank : nat) l (t : tables) : tables :=
  match l with
  | [] => t
  | r :: l' => rrf_pass (S rank) l' (rrf_add rank r t)
  end.

Definition fuse_rrf (primary secondary : list QueryResult) (limit : Z) : option (list QueryResult) :=
  emit limit (rrf_pass 0 secondary (rrf_pass 0 primary no_tables)).

(** ** Normalised fusion *)

Definition normalize (mn mx x : Q) : Q := if Qeq_bool mx mn then 1 else ((x - mn) / (mx - mn))%Q.

Definition _normalize_scores l : list (string * Q) :=
  match l with
  | [] => []
  | r0 :: l' =>
      foldl (λ d r, dset (dedup_key r) (normalize (min_score r0 l') (max_score r0 l') (score r)) d) [] l
  end.

(** Same body, called on the combined pool. *)
Definition _normalize_scores_global l : list (string * Q) := _normalize_scores l.

(** The two loops that fill [result_map] and [contributing]. *)
Definition add_primary (t : tables) r : tables :=
  {| scores := scores t; result_map := dset (dedup_key r) r (result_map t);
     contributing := add_provider (dedup_key r) (source_provider r) (contributing t) |}.

Definition add_secondary (t : tables) r : tables :=
  {| scores := scores t; result_map := set_if_absent (dedup_key r) r (result_map t);
     contributing := add_provider (dedup_key r) (source_provider r) (contributing t) |}.

Definition key_set l : gset string := list_to_set (dedup_key <$> l).

(** Iteration order of a set of keys. *)
Context (order : gset string → list string).

(** The scoring loop over [all_keys], parametrised by the body of the loop. *)
Definition fuse_scored (key_score : gset string → gset string → list (string * Q) → string → Q)
    (primary secondary : list QueryResult) (limit : Z) : option (list QueryResult) :=
  let global_norm := _normalize_scores_global (primary ++ secondary) in
  let t := foldl add_secondary (foldl add_primary no_tables primary) secondary in
  let pk := key_set primary in
  let sk := key_set secondary in
  emit limit
    {| scores := foldl (λ d key, dset key (key_score pk sk global_norm key) d) [] (order (pk ∪ sk));
       result_map := result_map t; contributing := contributing t |}.

Definition multiply_score (pk sk : gset string) (norm : list (string * Q)) key : Q :=
  let p := if bool_decide (key ∈ pk) then default (1 # 2)%Q (dget key norm) else 1 # 2 in
  let s := if bool_decide (key ∈ sk) then default (1 # 2)%Q (dget key norm) else 1 # 2 in
  (p * s)%Q.

Definition average_score (pk sk : gset string) (norm : list (string * Q)) key : Q :=
  let norm_val := default 0%Q (dget key norm) in
  if bool_decide (key ∈ pk) && bool_decide (key ∈ sk) then norm_val else ((norm_val + (1 # 2)) / 2)%Q.

Definition fuse_multiply := fuse_scored multiply_score.
Definition fuse_average := fuse_scored average_score.

(** ** Parallel and failover execution *)

Definition FUSION_METHODS (f : ScoreFusion) :
    list QueryResult → list QueryResult → Z → option (list QueryResult) :=
  match f with RRF => fuse_rrf | MULTIPLY => fuse_multiply | AVERAGE => fuse_average end.

Inductive provider := Primary | Secondary.

(** The completed futures, in completion order; a failed one is logged and ignored. *)
Definition collect {E} (done : list (provider * result E (list QueryResult))) :
    list QueryResult * list QueryResult :=
  foldl (λ acc pr, match pr with
                   | (Primary, Ok rs) => (rs, acc.2)
                   | (Secondary, Ok rs) => (acc.1, rs)
                   | (_, Err _) => acc
                   end) ([], []) done.

Definition execute_parallel_query {E} (done : list (provider * result E (list QueryResult)))
    (fusion : ScoreFusion) (limit : Z) : option (list QueryResult) :=
  let '(primary, secondary) := collect done in
  match primary, secondary with
  | [], [] => Some []
  | _, [] => Some (upto limit primary)
  | [], _ => Some (upto limit secondary)
  | _, _ => FUSION_METHODS fusion primary secondary limit
  end.

Definition execute_failover_query {E} (primary : result E (list QueryResult))
    (secondary : () → result E (list QueryResult)) (limit : Z) : result E (list QueryResult) :=
  match primary with
  | Ok rs => Ok (upto limit rs)
  | Err _ => upto limit <$> secondary ()
  end.

(** ** Reference definitions *)

(** The results of [l] that carry [key]. *)
Definition with_key key l : list QueryResult := filter (λ r, dedup_key r = key) l.

(** The reciprocal rank score of [key] in one provider's list. *)
Definition rrf_score (key : string) (l : list QueryResult) : Q :=
  sumQ (imap (λ rank r, if decide (dedup_key r = key) then rrf_weight rank else 0%Q) l).

(** [out] is the ranking of [keys] by [val]: one result per key, descending, the
    [limit] best ones. *)
Record ranking (limit : Z) (keys : gset string) (val : string → Q) (out : list QueryResult) : Prop := {
  rk_NoDup : NoDup (dedup_key <$> out);
  rk_sorted : StronglySorted (desc score) out;
  rk_score : ∀ r, r ∈ out → dedup_key r ∈ keys ∧ (score r == val (dedup_key r))%Q ∧ fusion_score r = Some (score r);
  rk_length : (0 <= limit)%Z → length out = Z.to_nat limit `min` size keys;
  rk_best : ∀ key r, key ∈ keys → key ∉ dedup_key <$> out → r ∈ out → (val key <= score r)%Q;
}.

(** [r] carries the payload of [r0] and the providers in [X]. *)
Definition fused_from r r0 (X : gset string) : Prop :=
  file_path r = file_path r0 ∧ content r = content r0 ∧ chunk_id r = chunk_id r0 ∧
  repository_alias r = repository_alias r0 ∧ metadata r = metadata r0 ∧
  source_provider r = "fused"%string ∧ contributing_providers r = Some (sorted_providers X).

Definition providers_of (key : string) l : gset string := list_to_set (source_provider <$> with_key key l).

(** ** The common tail *)

Record tables_ok (keys : gset string) (val : string → Q) (t : tables) : Prop := {
  ok_NoDup : NoDup (scores t).*1;
  ok_keys : ∀ key, key ∈ (scores t).*1 ↔ key ∈ keys;
  ok_vals : ∀ key v, dget key (scores t) = Some v → (v == val key)%Q;
  ok_map : ∀ key, key ∈ keys → ∃ r, dget key (result_map t) = Some r ∧ dedup_key r = key;
}.

Lemma fused_pairs t (ps : list (string * Q)) :
  (∀ key v, (key, v) ∈ ps → dget key (scores t) = Some v ∧
     ∃ r, dget key (result_map t) = Some r ∧ dedup_key r = key) →
  ∃ out, mapM (λ key, fused_result key t) ps.*1 = Some out ∧
    (λ r, (dedup_key r, score r)) <$> out = ps ∧
    Forall (λ r, fused_result (dedup_key r) t = Some r) out.
Proof.
  induction ps as [|[key v] ps IH]; intros Hps; [by exists []|].
  destruct IH as (out&Hout&Hpairs&Hall); [intros; apply Hps; by right|].
  destruct (Hps key v) as (Hv&r&Hr&Hk); [left|].
  assert (∃ r', fused_result key t = Some r' ∧ dedup_key r' = key ∧ score r' = v) as (r'&Hr'&Hk'&Hs).
  { unfold fused_result. rewrite Hr, Hv. simpl. eexists. split; [done|]. done. }
  exists (r' :: out). cbn [fmap list_fmap mapM fst]. rewrite Hr'. simpl. rewrite Hout. simpl.
  split_and!; [done|by rewrite Hpairs, Hk', Hs|]. constructor; [by rewrite Hk'|done].
Qed.

Lemma emit_ranking limit keys val t :
  tables_ok keys val t →
  ∃ out, emit limit t = Some out ∧ ranking limit keys val out ∧
    Forall (λ r, fused_result (dedup_key r) t = Some r) out.
Proof.
  intros [Hnd Hkeys Hvals Hmap]. unfold emit, sorted_keys. rewrite upto_fmap.
  set (srt := sort_desc snd (scores t)). assert (srt ≡ₚ scores t) as Hperm by apply sort_desc_perm.
  assert (∀ key v, (key, v) ∈ srt → dget key (scores t) = Some v ∧ key ∈ keys) as Hin.
  { intros key v. rewrite Hperm. intros Hin. split; [by apply elem_of_dget|].
    apply Hkeys, list_elem_of_fmap. by exists (key, v). }
  destruct (fused_pairs t (upto limit srt)) as (out&Hout&Hpairs&Hall).
  { intros key v Hk. apply (sublist_elem_of _ _ srt) in Hk; [|apply upto_sublist]. destruct (Hin _ _ Hk); auto. }
  exists out. split_and!; [done| |done].
  assert (dedup_key <$> out = (upto limit srt).*1) as Hk1.
  { rewrite <-Hpairs, <-list_fmap_compose. done. }
  assert (∀ r, r ∈ out → (dedup_key r, score r) ∈ upto limit srt) as Hr.
  { intros r Hr. rewrite <-Hpairs. apply list_elem_of_fmap. eauto. }
  assert (NoDup srt.*1) as Hnds by (by rewrite Hperm).
  split.
  - rewrite Hk1. eapply sublist_NoDup; [exact Hnds|]. apply fmap_sublist, upto_sublist.
  - assert (StronglySorted (desc snd) (upto limit srt)) as Hs.
    { eapply desc_sublist; [apply upto_sublist|apply sort_desc_sorted]. }
    rewrite <-Hpairs in Hs. clear -Hs. induction out as [|r out IH]; [constructor|].
    cbn in Hs. inversion Hs as [|? ? Hs' Hf]; subst. constructor; [by apply IH|].
    apply (Forall_fmap (λ r, (dedup_key r, score r))) in Hf. eapply Forall_impl; [exact Hf|]. intros r1. unfold desc. simpl. done.
  - intros r Hr0. destruct (Hin (dedup_key r) (score r)) as [Hv Hkey].
    { eapply sublist_elem_of; [apply Hr, Hr0|apply upto_sublist]. }
    split_and!; [done|by apply Hvals|].
    rewrite Forall_forall in Hall. specialize (Hall r Hr0). unfold fused_result in Hall.
    destruct (dget _ (result_map t)) as [r0|]; [|done]. simpl in Hall. rewrite Hv in Hall. simpl in Hall.
    injection Hall as Heq. by rewrite <-Heq.
  - intros Hl. apply (f_equal length) in Hpairs. rewrite length_fmap in Hpairs. rewrite Hpairs.
    rewrite upto_nonneg, length_take by done. f_equal.
    rewrite (Permutation_length Hperm), <-(length_fmap fst).
    rewrite <-(size_list_to_set (C := gset string)) by done. f_equal.
    apply set_eq. intros key. by rewrite elem_of_list_to_set, Hkeys.
  - intros key r Hkey Hnin Hr0. rewrite Hk1 in Hnin.
    apply Hkeys in Hkey. apply list_elem_of_fmap in Hkey as ([k0 v]&Hk0&Hv). simpl in Hk0. subst k0.
    rewrite <-(Hvals key v) by (by apply elem_of_dget).
    rewrite <-Hperm in Hv. unfold upto in *. set (n := Z.to_nat _) in *.
    apply (sort_desc_take_best snd n (scores t) (dedup_key r, score r) (key, v)); [by apply Hr|].
    fold srt. rewrite <-(take_drop n srt) in Hv. apply elem_of_app in Hv as [Hv|Hv]; [|done].
    exfalso. apply Hnin, list_elem_of_fmap. by exists (key, v).
Qed.

(** ** The dictionaries after the loops *)

Lemma dget_set_if_absent {V} key k (v : V) d :
  dget k (set_if_absent key v d) =
  match dget k d with Some w => Some w | None => if decide (key = k) then Some v else None end.
Proof.
  unfold set_if_absent. destruct (decide (key = k)) as [->|Hne].
  - destruct (dget k d) eqn:E; [by rewrite E|]. by rewrite dget_dset_eq.
  - destruct (dget key d) eqn:E; [by destruct (dget k d)|].
    rewrite dget_dset_ne by done. by destruct (dget k d).
Qed.

Lemma with_key_cons key r l :
  with_key key (r :: l) = if decide (dedup_key r = key) then r :: with_key key l else with_key key l.
Proof. unfold with_key. by rewrite filter_cons. Qed.

Lemma with_key_app key l k : with_key key (l ++ k) = with_key key l ++ with_key key k.
Proof. apply filter_app. Qed.

Lemma with_key_nil key l : with_key key l = [] ↔ key ∉ dedup_key <$> l.
Proof.
  induction l as [|r l IH]; [split; [intros _; apply not_elem_of_nil|done]|].
  rewrite with_key_cons. cbn. rewrite elem_of_cons. case_decide; naive_solver.
Qed.

(** Adding a list of results one by one to the providers of a key. *)
Lemma add_provider_spec key k p d :
  default ∅ (dget k (add_provider key p d)) =
  (if decide (key = k) then {[p]} else ∅) ∪ default ∅ (dget k d).
Proof.
  unfold add_provider. rewrite dget_dset. case_decide; subst; simpl; [done|]. by rewrite (left_id_L ∅ (∪)).
Qed.

Lemma providers_of_cons key r l :
  providers_of key (r :: l) = (if decide (dedup_key r = key) then {[source_provider r]} else ∅) ∪ providers_of key l.
Proof.
  unfold providers_of. rewrite with_key_cons. case_decide; [done|]. by rewrite (left_id_L ∅ (∪)).
Qed.

Lemma providers_of_app key l k : providers_of key (l ++ k) = providers_of key l ∪ providers_of key k.
Proof. unfold providers_of. by rewrite with_key_app, fmap_app, list_to_set_app_L. Qed.

Lemma rrf_pass_map rank l t key :
  dget key (result_map (rrf_pass rank l t)) =
  match dget key (result_map t) with Some r => Some r | None => head (with_key key l) end.
Proof.
  revert rank t. induction l as [|r l IH]; intros rank t; simpl; [by destruct (dget _ _)|].
  rewrite IH. simpl. rewrite dget_set_if_absent, with_key_cons.
  destruct (dget key (result_map t)); [done|]. by case_decide.
Qed.

Lemma rrf_pass_providers rank l t key :
  default ∅ (dget key (contributing (rrf_pass rank l t))) =
  default ∅ (dget key (contributing t)) ∪ providers_of key l.
Proof.
  revert rank t. induction l as [|r l IH]; intros rank t; cbn [rrf_pass].
  { unfold providers_of. simpl. by rewrite (right_id_L ∅ (∪)). }
  rewrite IH. cbn [rrf_add contributing]. rewrite add_provider_spec, providers_of_cons. set_solver.
Qed.

Lemma rrf_pass_keys rank l t key :
  key ∈ (scores (rrf_pass rank l t)).*1 ↔ key ∈ (scores t).*1 ∨ key ∈ dedup_key <$> l.
Proof.
  revert rank t. induction l as [|r l IH]; intros rank t; cbn [rrf_pass fmap list_fmap].
  { split; [by left|]. by intros [?|?%not_elem_of_nil]. }
  rewrite IH. cbn [rrf_add scores]. rewrite dset_elem_of_keys, elem_of_cons. naive_solver.
Qed.

Lemma rrf_pass_NoDup rank l t : NoDup (scores t).*1 → NoDup (scores (rrf_pass rank l t)).*1.
Proof. revert rank t. induction l as [|r l IH]; intros rank t ?; simpl; [done|]. by apply IH, dset_NoDup. Qed.

Lemma rrf_pass_score rank l t key :
  (default 0 (dget key (scores (rrf_pass rank l t))) ==
   default 0 (dget key (scores t)) +
   sumQ (imap (λ i r, if decide (dedup_key r = key) then rrf_weight (rank + i) else 0) l))%Q.
Proof.
  revert rank t. induction l as [|r l IH]; intros rank t; cbn [rrf_pass]; [simpl; lra|].
  rewrite IH. cbn [rrf_add scores]. rewrite dget_dset, imap_cons. cbn [sumQ foldr].
  rewrite Nat.add_0_r.
  assert (imap ((λ i r0, if decide (dedup_key r0 = key) then rrf_weight (rank + i) else 0%Q) ∘ S) l =
          imap (λ i r0, if decide (dedup_key r0 = key) then rrf_weight (S rank + i) else 0%Q) l) as ->.
  { apply imap_ext. intros i x _. unfold compose. by rewrite Nat.add_succ_r. }
  fold (sumQ (imap (λ i r0, if decide (dedup_key r0 = key) then rrf_weight (S rank + i) else 0%Q) l)).
  destruct (decide (dedup_key r = key)) as [->|]; simpl; lra.
Qed.

Lemma key_set_spec key l : key ∈ key_set l ↔ key ∈ dedup_key <$> l.
Proof. unfold key_set. by rewrite elem_of_list_to_set. Qed.

Lemma head_with_key key l : key ∈ dedup_key <$> l → ∃ r, head (with_key key l) = Some r ∧ dedup_key r = key.
Proof.
  intros Hin. destruct (with_key key l) as [|r l'] eqn:E; [by apply with_key_nil in E|].
  exists r. split; [done|]. assert (r ∈ with_key key l) as Hr by (rewrite E; left).
  by apply list_elem_of_filter in Hr as [? _].
Qed.

Lemma fused_result_from key t r r0 :
  fused_result key t = Some r → dget key (result_map t) = Some r0 →
  fused_from r r0 (default ∅ (dget key (contributing t))).
Proof.
  unfold fused_result, fused_from. intros H Hr0. rewrite Hr0 in H. simpl in H. destruct (dget key (scores t)); [|done].
  simpl in H. by injection H as <-.
Qed.

(** C28: [fuse_rrf] computes Reciprocal Rank Fusion: for every document of the two
    lists the score is the sum over both of 1/(60 + rank), ranks from 1; the result
    has one entry per document, in descending order of score, with the payload of
    its first occurrence and the sorted set of the providers that returned it; it
    has [limit] entries (or all documents when there are fewer), and no document
    left out beats one returned. *)
Theorem fuse_rrf_spec primary secondary limit :
  ∃ out, fuse_rrf primary secondary limit = Some out ∧
    ranking limit (key_set (primary ++ secondary))
      (λ key, rrf_score key primary + rrf_score key secondary)%Q out ∧
    Forall (λ r, ∃ r0, head (with_key (dedup_key r) (primary ++ secondary)) = Some r0 ∧
                       fused_from r r0 (providers_of (dedup_key r) (primary ++ secondary))) out.
Proof.
  unfold fuse_rrf. set (t := rrf_pass 0 secondary (rrf_pass 0 primary no_tables)).
  assert (∀ key, dget key (result_map t) = head (with_key key (primary ++ secondary))) as Hmap.
  { intros key. unfold t. rewrite !rrf_pass_map, with_key_app. simpl. by destruct (with_key key primary). }
  destruct (emit_ranking limit (key_set (primary ++ secondary))
    (λ key, rrf_score key primary + rrf_score key secondary)%Q t) as (out&Hout&Hrk&Hall).
  { split.
    - by apply rrf_pass_NoDup, rrf_pass_NoDup, NoDup_nil_2.
    - intros key. unfold t. rewrite !rrf_pass_keys, key_set_spec, fmap_app, elem_of_app.
      simpl. pose proof (not_elem_of_nil (A := string) key). tauto.
    - intros key v Hv. pose proof (rrf_pass_score 0 secondary (rrf_pass 0 primary no_tables) key) as H2.
      pose proof (rrf_pass_score 0 primary no_tables key) as H1. fold t in H2. rewrite Hv in H2.
      simpl in H1, H2. unfold rrf_score. rewrite H2, H1. simpl. lra.
    - intros key Hkey%key_set_spec. rewrite Hmap. by apply head_with_key. }
  exists out. split_and!; [done|done|]. rewrite Forall_forall in *. intros r Hr.
  destruct (rk_score _ _ _ _ Hrk r Hr) as (Hkey&_). apply key_set_spec in Hkey.
  destruct (head_with_key _ _ Hkey) as (r0&Hr0&_). exists r0. split; [done|].
  specialize (Hall r Hr). rewrite <-Hmap in Hr0.
  pose proof (fused_result_from _ _ _ _ Hall Hr0) as Hf.
  assert (default ∅ (dget (dedup_key r) (contributing t)) = providers_of (dedup_key r) (primary ++ secondary)) as <-; [|done].
  unfold t. rewrite !rrf_pass_providers, providers_of_app. simpl. by rewrite (left_id_L ∅ (∪)).
Qed.

(** ** Normalised fusion *)

(** The normalised score of [key]: that of its last occurrence in the pool. *)
Definition norm_of (pool : list QueryResult) (key : string) : Q :=
  match pool, last (with_key key pool) with
  | r0 :: l, Some r => normalize (min_score r0 l) (max_score r0 l) (score r)
  | _, _ => 0
  end.

Definition in_both (primary secondary : list QueryResult) key : bool :=
  bool_decide (key ∈ key_set primary) && bool_decide (key ∈ key_set secondary).

Lemma foldl_dset_last {V} (f : QueryResult → V) l d key :
  dget key (foldl (λ d r, dset (dedup_key r) (f r) d) d l) =
  match last (with_key key l) with Some r => Some (f r) | None => dget key d end.
Proof.
  revert d. induction l as [|r l IH] using rev_ind; intros d; [done|].
  rewrite foldl_app, with_key_app, with_key_cons. change (with_key key []) with (@nil QueryResult).
  cbn [foldl]. rewrite dget_dset, IH. case_decide; [by rewrite last_snoc|]. by rewrite app_nil_r.
Qed.

Lemma norm_dget pool key : key ∈ dedup_key <$> pool → dget key (_normalize_scores_global pool) = Some (norm_of pool key).
Proof.
  intros Hkey. unfold _normalize_scores_global, _normalize_scores, norm_of.
  destruct pool as [|r0 l]; [by apply not_elem_of_nil in Hkey|]. rewrite foldl_dset_last.
  destruct (last (with_key key (r0 :: l))) eqn:E; [done|]. by apply last_None, with_key_nil in E.
Qed.

Lemma normalize_bounds mn mx x : (mn <= x <= mx → 0 <= normalize mn mx x <= 1)%Q.
Proof.
  intros [? ?]. unfold normalize. qcase; [lra|].
  assert (0 < mx - mn)%Q by (destruct (Qlt_le_dec mn mx); lra).
  split; [apply Qle_shift_div_l|apply Qle_shift_div_r]; lra.
Qed.

Lemma norm_of_bounds pool key : (0 <= norm_of pool key <= 1)%Q.
Proof.
  unfold norm_of. destruct pool as [|r0 l]; [lra|].
  destruct (last _) as [r|] eqn:E; [|lra].
  assert (r ∈ r0 :: l) as Hr.
  { apply last_Some_elem_of in E. by apply list_elem_of_filter in E as [_ ?]. }
  apply normalize_bounds. unfold min_score, max_score.
  pose proof (max_by_ge score r0 l r Hr). pose proof (max_by_ge (λ r, - score r)%Q r0 l r Hr). simpl in *. lra.
Qed.

Lemma scored_tables_map primary secondary key :
  let t := foldl add_secondary (foldl add_primary no_tables primary) secondary in
  dget key (result_map t) =
    match last (with_key key primary) with Some r => Some r | None => head (with_key key secondary) end ∧
  default ∅ (dget key (contributing t)) = providers_of key (primary ++ secondary).
Proof.
  assert (∀ l t, result_map (foldl add_primary t l) = foldl (λ d r, dset (dedup_key r) r d) (result_map t) l ∧
    default ∅ (dget key (contributing (foldl add_primary t l))) =
    default ∅ (dget key (contributing t)) ∪ providers_of key l) as Hp.
  { induction l as [|r l IH]; intros t; cbn [foldl].
    { unfold providers_of. simpl. by rewrite (right_id_L ∅ (∪)). }
    destruct (IH (add_primary t r)) as [-> ->]. split; [done|].
    cbn [add_primary contributing]. rewrite add_provider_spec, providers_of_cons. set_solver. }
  assert (∀ l t, dget key (result_map (foldl add_secondary t l)) =
      match dget key (result_map t) with Some r => Some r | None => head (with_key key l) end ∧
    default ∅ (dget key (contributing (foldl add_secondary t l))) =
    default ∅ (dget key (contributing t)) ∪ providers_of key l) as Hs.
  { induction l as [|r l IH]; intros t; cbn [foldl].
    { split; [by destruct (dget _ _)|]. unfold providers_of. simpl. by rewrite (right_id_L ∅ (∪)). }
    destruct (IH (add_secondary t r)) as [-> ->].
    cbn [add_secondary contributing result_map]. rewrite dget_set_if_absent, with_key_cons,
      add_provider_spec, providers_of_cons. split; [|set_solver].
    destruct (dget key (result_map t)); [done|]. by case_decide. }
  intros t. subst t. destruct (Hs secondary (foldl add_primary no_tables primary)) as [-> ->].
  destruct (Hp primary no_tables) as [-> ->]. rewrite foldl_dset_last, providers_of_app. simpl.
  split; [by destruct (last _)|]. by rewrite (left_id_L ∅ (∪)).
Qed.

Hypothesis order_perm : ∀ X, order X ≡ₚ elements X.

Lemma order_dict (f : string → Q) X :
  let d := foldl (λ d key, dset key (f key) d) [] (order X) in
  NoDup d.*1 ∧ (∀ key, key ∈ d.*1 ↔ key ∈ X) ∧ (∀ key v, dget key d = Some v → v = f key).
Proof using order_perm.
  assert (∀ ks d0, NoDup d0.*1 → (∀ key v, dget key d0 = Some v → v = f key) →
    let d := foldl (λ d key, dset key (f key) d) d0 ks in
    NoDup d.*1 ∧ (∀ key, key ∈ d.*1 ↔ key ∈ d0.*1 ∨ key ∈ ks) ∧
    (∀ key v, dget key d = Some v → v = f key)) as Hgen.
  { induction ks as [|k ks IH]; intros d0 Hnd Hv; cbn [foldl].
    { split_and!; [done| |done]. intros key. split; [by left|]. by intros [?|?%not_elem_of_nil]. }
    destruct (IH (dset k (f k) d0)) as (H1&H2&H3); [by apply dset_NoDup| |].
    { intros key v. rewrite dget_dset. case_decide; naive_solver. }
    split_and!; [done| |done]. intros key. rewrite H2, dset_elem_of_keys, elem_of_cons. naive_solver. }
  intros d. subst d. destruct (Hgen (order X) []) as (H1&H2&H3); [apply NoDup_nil_2|done|].
  split_and!; [done| |done]. intros key. rewrite H2, order_perm, elem_of_elements.
  split; [by intros [?%not_elem_of_nil|?]|by right].
Qed.

Lemma fuse_scored_ranking score_fn val primary secondary limit :
  (∀ key, key ∈ key_set primary ∪ key_set secondary →
     score_fn (key_set primary) (key_set secondary) (_normalize_scores_global (primary ++ secondary)) key == val key)%Q →
  ∃ out, fuse_scored score_fn primary secondary limit = Some out ∧
    ranking limit (key_set primary ∪ key_set secondary) val out ∧
    Forall (λ r, ∃ r0, r0 ∈ primary ++ secondary ∧ dedup_key r0 = dedup_key r ∧
                       fused_from r r0 (providers_of (dedup_key r) (primary ++ secondary))) out.
Proof using order_perm.
  intros Hval. unfold fuse_scored.
  set (tb := foldl add_secondary (foldl add_primary no_tables primary) secondary).
  destruct (order_dict (score_fn (key_set primary) (key_set secondary)
    (_normalize_scores_global (primary ++ secondary))) (key_set primary ∪ key_set secondary)) as (Hnd&Hk&Hv).
  assert (∀ key, key ∈ key_set primary ∪ key_set secondary → ∃ r,
    dget key (result_map tb) = Some r ∧ dedup_key r = key ∧ r ∈ primary ++ secondary) as Hmap.
  { intros key Hkey. destruct (scored_tables_map primary secondary key) as [Hm _]. fold tb in Hm. rewrite Hm.
    destruct (last (with_key key primary)) as [r|] eqn:E.
    - exists r. apply last_Some_elem_of, list_elem_of_filter in E as [? ?]. split_and!; [done|done|].
      apply elem_of_app. by left.
    - rewrite last_None, with_key_nil, <-key_set_spec in E. apply elem_of_union in Hkey as [?|Hkey]; [done|].
      apply key_set_spec in Hkey. destruct (head_with_key _ _ Hkey) as (r&Hr&?). exists r.
      split_and!; [done|done|]. apply elem_of_app. right. apply head_Some_elem_of in Hr.
      by apply list_elem_of_filter in Hr as [_ ?]. }
  edestruct emit_ranking as (out&Hout&Hrk&Hall); [|exists out; split_and!; [exact Hout|exact Hrk|]].
  { split; simpl; [exact Hnd|exact Hk| |].
    - intros key v Hkv. rewrite (Hv _ _ Hkv). apply Hval, Hk.
      apply dget_elem_of in Hkv. apply list_elem_of_fmap. by eexists (_, _).
    - intros key Hkey. destruct (Hmap key Hkey) as (r&?&?&_). eauto. }
  rewrite Forall_forall in *. intros r Hr. destruct (rk_score _ _ _ _ Hrk r Hr) as (Hkey&_).
  destruct (Hmap _ Hkey) as (r0&Hr0&?&?). exists r0. split_and!; [done|done|].
  specialize (Hall r Hr). pose proof (fused_result_from _ _ _ _ Hall Hr0) as Hf. simpl in Hf.
  destruct (scored_tables_map primary secondary (dedup_key r)) as [_ Hc]. fold tb in Hc. by rewrite Hc in Hf.
Qed.

Definition multiply_val primary secondary key : Q :=
  let n := norm_of (primary ++ secondary) key in
  if in_both primary secondary key then (n * n)%Q else (n * (1 # 2))%Q.

Definition average_val primary secondary key : Q :=
  let n := norm_of (primary ++ secondary) key in
  if in_both primary secondary key then n else ((n + (1 # 2)) / 2)%Q.

(** The two normalised fusions rank every document by the min-max normalised
    score over the combined pool, blended with the neutral 1/2 when only one
    provider returned the document; scores lie in [0, 1], each document appears
    once, in descending order.  When both providers returned it, the score of its
    last occurrence in the combined pool alone decides: multiplication squares it. *)
Theorem fuse_normalised_spec primary secondary limit :
  (∃ out, fuse_multiply primary secondary limit = Some out ∧
     ranking limit (key_set primary ∪ key_set secondary) (multiply_val primary secondary) out ∧
     Forall (λ r, (0 <= score r <= 1)%Q ∧
       ∃ r0, r0 ∈ primary ++ secondary ∧ dedup_key r0 = dedup_key r ∧
             fused_from r r0 (providers_of (dedup_key r) (primary ++ secondary))) out) ∧
  (∃ out, fuse_average primary secondary limit = Some out ∧
     ranking limit (key_set primary ∪ key_set secondary) (average_val primary secondary) out ∧
     Forall (λ r, (0 <= score r <= 1)%Q ∧
       ∃ r0, r0 ∈ primary ++ secondary ∧ dedup_key r0 = dedup_key r ∧
             fused_from r r0 (providers_of (dedup_key r) (primary ++ secondary))) out).
Proof using order_perm.
  assert (∀ key, key ∈ key_set primary ∪ key_set secondary →
    dget key (_normalize_scores_global (primary ++ secondary)) = Some (norm_of (primary ++ secondary) key)) as Hn.
  { intros key. rewrite elem_of_union, !key_set_spec. intros Hkey. apply norm_dget.
    rewrite fmap_app, elem_of_app. done. }
  assert (∀ val out, ranking limit (key_set primary ∪ key_set secondary) val out →
    (∀ key, 0 <= val key <= 1)%Q → Forall (λ r, 0 <= score r <= 1)%Q out) as Hb.
  { intros val out Hrk Hval. apply Forall_forall. intros r Hr.
    destruct (rk_score _ _ _ _ Hrk r Hr) as (_&Hs&_). rewrite Hs. apply Hval. }
  pose proof (norm_of_bounds (primary ++ secondary)) as H01. split.
  - destruct (fuse_scored_ranking multiply_score (multiply_val primary secondary) primary secondary limit)
      as (out&Hout&Hrk&Hall).
    { intros key Hkey. unfold multiply_score, multiply_val, in_both. rewrite (Hn _ Hkey). simpl.
      apply elem_of_union in Hkey. repeat case_bool_decide; simpl; try lra. tauto. }
    exists out. split_and!; [done|done|]. apply Forall_and. split; [|done]. apply (Hb _ _ Hrk).
    intros key. unfold multiply_val. specialize (H01 key). destruct (in_both _ _ _); nra.
  - destruct (fuse_scored_ranking average_score (average_val primary secondary) primary secondary limit)
      as (out&Hout&Hrk&Hall).
    { intros key Hkey. unfold average_score, average_val, in_both. rewrite (Hn _ Hkey). simpl.
      destruct (_ && _); lra. }
    exists out. split_and!; [done|done|]. apply Forall_and. split; [|done]. apply (Hb _ _ Hrk).
    intros key. unfold average_val. specialize (H01 key). destruct (in_both _ _ _); [done|].
    split; [apply Qle_shift_div_l|apply Qle_shift_div_r]; lra.
Qed.

(** What one provider contributed: nothing when its query raised. *)
Definition outcome_results {E} (o : result E (list QueryResult)) : list QueryResult :=
  match o with Ok rs => rs | Err _ => [] end.

(** A parallel query never raises, whatever the two providers do and in
    whichever order they complete: with results from both it is their fusion,
    otherwise the first [limit] results of the one that answered, in its order. *)
Theorem execute_parallel_query_spec {E} (po so : result E (list QueryResult)) done f limit :
  done ≡ₚ [(Primary, po); (Secondary, so)] →
  let primary := outcome_results po in
  let secondary := outcome_results so in
  ∃ out, execute_parallel_query done f limit = Some out ∧
    if decide (primary = [] ∨ secondary = []) then out = upto limit (primary ++ secondary)
    else FUSION_METHODS f primary secondary limit = Some out.
Proof using order_perm.
  intros Hdone primary secondary.
  assert (collect done = (primary, secondary)) as Hc.
  { symmetry in Hdone. apply Permutation_length_2_inv in Hdone as [->| ->];
      subst primary secondary; by destruct po, so. }
  unfold execute_parallel_query. rewrite Hc. clearbody primary secondary.
  destruct primary as [|p ps], secondary as [|q qs].
  - exists []. split; [done|]. rewrite decide_True by auto. unfold upto. cbn [app]. by rewrite firstn_nil.
  - eexists. split; [done|]. by rewrite decide_True by auto.
  - eexists. split; [done|]. rewrite decide_True by auto. by rewrite app_nil_r.
  - assert (∃ out, FUSION_METHODS f (p :: ps) (q :: qs) limit = Some out) as [out Hout].
    { unfold FUSION_METHODS. destruct f.
      - destruct (fuse_rrf_spec (p :: ps) (q :: qs) limit) as (out&?&_). eauto.
      - destruct (fuse_scored_ranking multiply_score _ (p :: ps) (q :: qs) limit (λ _ _, Qeq_refl _)) as (out&?&_).
        eauto.
      - destruct (fuse_scored_ranking average_score _ (p :: ps) (q :: qs) limit (λ _ _, Qeq_refl _)) as (out&?&_).
        eauto. }
    exists out. rewrite decide_False by naive_solver. done.
Qed.

(** ** Score gate *)

Lemma max_score_spec r l : (∀ q, q ∈ r :: l → (score q <= max_score r l)%Q) ∧ ∃ q, q ∈ r :: l ∧ score q = max_score r l.
Proof. split; [intros; by apply max_by_ge|]. exists (max_by score r l). split; [apply max_by_in|done]. Qed.

(** What one side of the gate guarantees for the list [l] it may have culled to
    [l'], the other list being [k]. *)
Definition gated (l l' k : list QueryResult) : Prop :=
  l' `sublist_of` l ∧
  ∀ r, r ∈ l → r ∈ l' ∨ ∃ q, q ∈ k ∧ (score r < SCORE_GATE_FLOOR * score q)%Q ∧
    ∀ r', r' ∈ l → (score r' < SCORE_GATE_RATIO * score q)%Q.

Lemma gated_refl l k : gated l l k.
Proof. split; [done|]. by left. Qed.

Lemma gated_filter r0 l q0 k :
  Qltb (max_score r0 l) (max_score q0 k * SCORE_GATE_RATIO) = true →
  gated (r0 :: l)
    (filter (λ r, Qle_bool (max_score q0 k * SCORE_GATE_FLOOR) (score r) = true) (r0 :: l)) (q0 :: k).
Proof.
  rewrite Qltb_true. intros Hlt. split; [apply sublist_filter|]. intros r Hr.
  rewrite list_elem_of_filter. destruct (max_score_spec q0 k) as [_ (q&Hq&Heq)].
  destruct (Qle_bool_spec (max_score q0 k * SCORE_GATE_FLOOR) (score r)); [by left|right].
  exists q. rewrite Heq. split_and!; [done|lra|].
  intros r' Hr'. pose proof (proj1 (max_score_spec r0 l) r' Hr'). lra.
Qed.

(** The score gate, for non-negative scores: it only removes results, from one
    of the two lists at most; a removed result scores below 70% of some result of
    the other list, which beats every result of the culled list by more than a
    fifth; so a result with the best score overall is never removed. *)
Theorem apply_score_gate_spec primary secondary primary' secondary' :
  Forall (λ r, 0 <= score r)%Q (primary ++ secondary) →
  apply_score_gate primary secondary = (primary', secondary') →
  gated primary primary' secondary ∧ gated secondary secondary' primary ∧
  (primary' = primary ∨ secondary' = secondary) ∧
  (∀ r, r ∈ primary ++ secondary → (∀ q, q ∈ primary ++ secondary → score q <= score r)%Q →
     r ∈ primary' ++ secondary').
Proof using.
  intros Hpos Hgate.
  assert (gated primary primary' secondary ∧ gated secondary secondary' primary ∧
    (primary' = primary ∨ secondary' = secondary)) as (H1&H2&H3).
  { unfold apply_score_gate in Hgate. destruct primary as [|p ps], secondary as [|s ss];
      try (injection Hgate as <- <-; auto using gated_refl).
    destruct (Qltb (max_score s ss) _) eqn:E1; [|destruct (Qltb (max_score p ps) _) eqn:E2];
      injection Hgate as <- <-; auto using gated_refl, gated_filter. }
  split_and!; [done|done|done|]. intros r Hr Hbest. apply elem_of_app.
  assert (∀ l l' k, gated l l' k → r ∈ l → (∀ q, q ∈ k → score q <= score r ∧ 0 <= score q)%Q → r ∈ l') as Hkeep.
  { intros l l' k [_ Hg] Hin Hk. destruct (Hg r Hin) as [?|(q&Hq&_&Hall)]; [done|].
    exfalso. specialize (Hall r Hin). specialize (Hk q Hq). unfold SCORE_GATE_RATIO in Hall. lra. }
  rewrite Forall_forall in Hpos. setoid_rewrite elem_of_app in Hbest. setoid_rewrite elem_of_app in Hpos.
  apply elem_of_app in Hr as [Hr|Hr]; [left; apply (Hkeep _ _ _ H1 Hr)|right; apply (Hkeep _ _ _ H2 Hr)];
    intros q Hq; split; [apply Hbest|apply Hpos|apply Hbest|apply Hpos]; auto.
Qed.
End fusion.

(** ** Witnesses *)

Definition hit (alias path : string) (sc : Q) (provider : string) : QueryResult (M := ()) :=
  {| file_path := path; score := sc; content := "c"; chunk_id := "0"; repository_alias := alias;
     metadata := (); source_provider := provider; fusion_score := None; contributing_providers := None |}.

Definition voyage : list (QueryResult (M := ())) :=
  [hit "r" "a.py" (9 # 10) "voyage"; hit "r" "b.py" (5 # 10) "voyage"].
Definition cohere : list (QueryResult (M := ())) :=
  [hit "r" "b.py" (6 # 10) "cohere"; hit "r" "c.py" (4 # 10) "cohere"].

Lemma fuse_normalised_spec_witness :
  ∃ out, fuse_multiply elements voyage cohere 10 = Some out ∧
    ranking 10 (key_set voyage ∪ key_set cohere) (multiply_val voyage cohere) out ∧ length out = 3.
Proof.
  destruct (fuse_normalised_spec elements (λ X, Permutation_refl (elements X)) voyage cohere 10)
    as ((out&Hout&Hrk&_)&_).
  exists out. split_and!; [done|done|]. rewrite (rk_length _ _ _ _ Hrk) by lia. by vm_compute.
Defined.

Lemma execute_parallel_query_spec_witness :
  execute_parallel_query elements [(Secondary, Err "timeout"%string); (Primary, Ok voyage)] RRF 1 =
    Some [hit "r" "a.py" (9 # 10) "voyage"].
Proof.
  destruct (execute_parallel_query_spec elements (λ X, Permutation_refl (elements X)) (Ok voyage)
    (Err "timeout"%string) [(Secondary, Err "timeout"%string); (Primary, Ok voyage)] RRF 1) as (out&->&Hout).
  - apply Permutation_swap.
  - simpl in Hout. by rewrite Hout.
Defined.

Lemma apply_score_gate_spec_witness :
  let strong := [hit "r" "a.py" 1 "voyage"] in
  let weak := [hit "r" "b.py" (75 # 100) "cohere"; hit "r" "c.py" (5 # 10) "cohere"] in
  apply_score_gate strong weak = (strong, [hit "r" "b.py" (75 # 100) "cohere"]) ∧
  gated weak [hit "r" "b.py" (75 # 100) "cohere"] strong.
Proof.
  intros strong weak. split; [reflexivity|].
  destruct (apply_score_gate_spec strong weak strong [hit "r" "b.py" (75 # 100) "cohere"]) as (_&H&_).
  - repeat constructor; simpl; lra.
  - reflexivity.
  - exact H.
Defined.

(** With negative scores the comparison against a fraction of the maximum inverts:
    the list with the better maximum is culled. *)
Lemma apply_score_gate_negative :
  apply_score_gate [hit "r" "a.py" (-1) "voyage"] [hit "r" "b.py" (-(85 # 100)) "cohere"] =
    ([hit "r" "a.py" (-1) "voyage"], []).
Proof. reflexivity. Qed.
End QueryFusion.
