(* ===== verification/TemporalFusion.v ===== *)
(** * Fusion of temporal search results

    src/src/code_indexer/services/temporal/temporal_fusion.py: reciprocal rank
    fusion over providers, score-true merging of disjoint quarterly shards, and
    the collapse of chunk hits to one representative per commit.

    The functions annotate the result objects they return; a result is a value
    here and the annotated value is what the caller gets. *)

From S2P Require Import Prelude.
From stdpp Require Import pretty.
From stdpp Require Import options.

Module TemporalFusion.

Definition DEFAULT_RRF_K : Z := 60.

(** The keys of a result's [metadata] and [temporal_context] dictionaries that the
    code reads or writes. *)
Record meta := {
  commit_hash : option string;
  paths : option (list string);
  is_head : option bool;
  commit_message : option string;
  _head_commit_message : option string;
}.

Record hit := {
  file_path : string;
  chunk_index : Z;
  score : Q;
  metadata : option meta;
  temporal_context : option meta;
  source_provider : string;
  contributing_providers : list string;
  fusion_score : option Q;
  temporal_chunk_id : option string;
}.

Implicit Types (r : hit) (provider key : string).

(** [None]: [temporal_context] is [None] and has no [get]. *)
Definition make_temporal_dedup_key r : option string :=
  c ← temporal_context r;
  Some (default "" (commit_hash c) +:+ ":" +:+ file_path r +:+ ":" +:+ pretty (chunk_index r))%string.

(** The assignments to the attributes of a result. *)
Definition annotate r (fs : Q) provider (contributors : list string) (chunk : option string) : hit :=
  {| file_path := file_path r; chunk_index := chunk_index r; score := score r;
     metadata := metadata r; temporal_context := temporal_context r;
     source_provider := provider; contributing_providers := contributors;
     fusion_score := Some fs; temporal_chunk_id := chunk |}.

(** [r.fusion_score or 0.0]. *)
Definition sort_score r : Q := default 0%Q (fusion_score r).

Section fusion.
Context (dedup_key : hit → string).

(** ** Reciprocal rank fusion over providers *)

Record entry := {
  rrf_score : Q;
  best_result : hit;
  best_score : Q;
  best_provider : string;
  contributors : list string;
}.

Definition rrf_step (k : Z) provider (rank : nat) r (fused : list (string * entry)) : list (string * entry) :=
  let key := dedup_key r in
  let w := (1 / inject_Z (k + Z.of_nat rank + 1))%Q in
  let e := match dget key fused with
           | Some e => e
           | None => {| rrf_score := 0; best_result := r; best_score := score r;
                        best_provider := provider; contributors := [] |}
           end in
  let e1 := {| rrf_score := rrf_score e + w; best_result := best_result e; best_score := best_score e;
               best_provider := best_provider e; contributors := contributors e ++ [provider] |} in
  dset key (if Qltb (best_score e1) (score r)
            then {| rrf_score := rrf_score e1; best_result := r; best_score := score r;
                    best_provider := provider; contributors := contributors e1 |}
            else e1) fused.

Fixpoint rrf_provider (k : Z) provider (rank : nat) (rs : list hit) (fused : list (string * entry)) :
    list (string * entry) :=
  match rs with
  | [] => fused
  | r :: rs' => rrf_provider k provider (S rank) rs' (rrf_step k provider rank r fused)
  end.

Definition build_rrf (ke : string * entry) : hit :=
  let '(key, e) := ke in
  annotate (best_result e) (rrf_score e) (best_provider e) (contributors e) (Some key).

Definition fuse_rrf_multi (results_by_provider : list (string * list hit)) (limit k : Z) : list hit :=
  match results_by_provider with
  | [] => []
  | [(provider, rs)] =>
      upto limit ((λ r, annotate r (score r) provider [provider] (temporal_chunk_id r)) <$> rs)
  | _ =>
      let fused := foldl (λ d prs, rrf_provider k prs.1 0 prs.2 d) [] results_by_provider in
      upto limit (sort_desc sort_score (build_rrf <$> fused))
  end.

(** ** Merging disjoint shards by true score *)

Definition merge_step provider (merged : list (string * (hit * string))) r : list (string * (hit * string)) :=
  let key := dedup_key r in
  match dget key merged with
  | Some (r0, _) => if Qltb (score r0) (score r) then dset key (r, provider) merged else merged
  | None => dset key (r, provider) merged
  end.

Definition build_merged (ke : string * (hit * string)) : hit :=
  let '(key, (r, provider)) := ke in annotate r (score r) provider [provider] (Some key).

Definition merge_shards_by_score (results_by_provider : list (string * list hit)) (limit : Z) : list hit :=
  match results_by_provider with
  | [] => []
  | _ =>
      let merged := foldl (λ d prs, foldl (merge_step prs.1) d prs.2) [] results_by_provider in
      upto limit (sort_desc sort_score (build_merged <$> merged))
  end.
End fusion.

(** ** One result per commit *)

(** [x or y] on strings. *)
Definition or_str (x : option string) (y : string) : string :=
  match x with Some s => if decide (s = ""%string) then y else s | None => y end.

Definition _commit_hash_of r : string :=
  let from m := m ≫= commit_hash in
  match from (metadata r) with
  | Some s => if decide (s = ""%string) then or_str (from (temporal_context r)) "" else s
  | None => or_str (from (temporal_context r)) ""
  end.

(** [groups.setdefault(key, []).append(result)]. *)
Definition group_step (groups : list (string * list hit)) r : list (string * list hit) :=
  let key := _commit_hash_of r in
  dset key (default [] (dget key groups) ++ [r]) groups.

Definition member_paths r : list string := default [] (metadata r ≫= paths).

(** The paths not seen before, in order. *)
Definition union_step (seen : list string) (path : string) : list string :=
  if decide (path ∈ seen) then seen else seen ++ [path].

Definition union_paths (group : list hit) : list string :=
  foldl (λ seen r, foldl union_step seen (member_paths r)) [] group.

Definition truthy (b : option bool) : bool := default false b.

Definition head_message (group : list hit) : string :=
  foldl (λ msg r, if truthy (metadata r ≫= is_head)
                  then default "" (metadata r ≫= commit_message) else msg) "" group.

Definition with_metadata r (m : option meta) : hit :=
  {| file_path := file_path r; chunk_index := chunk_index r; score := score r; metadata := m;
     temporal_context := temporal_context r; source_provider := source_provider r;
     contributing_providers := contributing_providers r; fusion_score := fusion_score r;
     temporal_chunk_id := temporal_chunk_id r |}.

Definition representative (group : list hit) : option hit :=
  match group with
  | [] => None
  | r0 :: rs =>
      let best := max_by score r0 rs in
      Some match metadata best with
           | None => best
           | Some m =>
               with_metadata best (Some
                 {| commit_hash := commit_hash m; paths := Some (union_paths group);
                    is_head := is_head m; commit_message := commit_message m;
                    _head_commit_message :=
                      if truthy (is_head m) then _head_commit_message m else Some (head_message group) |})
           end
  end.

Definition dedup_by_commit (results : list hit) : list hit :=
  omap (λ g, representative g.2) (foldl group_step [] results).

(** ** Reference definitions *)

(** A candidate: the provider (or shard) that returned it, its rank there, the result. *)
Abbreviation candidate := (string * nat * hit)%type.
Definition cand_provider (c : candidate) : string := c.1.1.
Definition cand_rank (c : candidate) : nat := c.1.2.
Definition cand_score (c : candidate) : Q := score c.2.

Definition candidates (rbp : list (string * list hit)) : list candidate :=
  concat ((λ prs : string * list hit, imap (λ i r, (prs.1, i, r)) prs.2) <$> rbp).

Definition rrf_weight (k : Z) (c : candidate) : Q := (1 / inject_Z (k + Z.of_nat (cand_rank c) + 1))%Q.

Section spec.
Context (dedup_key : hit → string).

(** The candidates with a given key, in the order they are met. *)
Definition occurrences key (cs : list candidate) : list candidate := filter (λ c, dedup_key c.2 = key) cs.

(** The result returned for a key: the first highest-scoring occurrence, annotated. *)
Definition fused_hit (r : hit) key (fs : Q) (contributors : list string) (c : candidate) (cs : list candidate) : Prop :=
  let b := max_by cand_score c cs in
  ∃ q, r = annotate b.2 q (cand_provider b) contributors (Some key) ∧ (q == fs)%Q.

Lemma occurrences_snoc key cs c :
  occurrences key (cs ++ [c]) =
  if decide (dedup_key c.2 = key) then occurrences key cs ++ [c] else occurrences key cs.
Proof.
  unfold occurrences. rewrite filter_app, filter_cons, filter_nil. case_decide; [done|]. by rewrite app_nil_r.
Qed.

Definition entry_of (k : Z) (c : candidate) (cs : list candidate) : entry :=
  let b := max_by cand_score c cs in
  {| rrf_score := foldl Qplus 0%Q (rrf_weight k <$> (c :: cs)); best_result := b.2;
     best_score := cand_score b; best_provider := cand_provider b;
     contributors := cand_provider <$> (c :: cs) |}.

Definition rrf_fold (k : Z) (cs : list candidate) : list (string * entry) :=
  foldl (λ d c, rrf_step dedup_key k (cand_provider c) (cand_rank c) c.2 d) [] cs.

Lemma rrf_fold_dget k cs key :
  dget key (rrf_fold k cs) =
  match occurrences key cs with [] => None | c :: cs' => Some (entry_of k c cs') end.
Proof.
  induction cs as [|c cs IH] using rev_ind; [done|].
  unfold rrf_fold in *. rewrite foldl_app, occurrences_snoc. cbn [foldl].
  set (d := foldl _ _ cs) in *. clearbody d. unfold rrf_step.
  rewrite dget_dset. case_decide as Hk; [|done]. rewrite Hk, IH.
  destruct (occurrences key cs) as [|c0 cs0]; cbn [app].
  - simpl. rewrite (proj2 (Qltb_false _ _)) by lra. done.
  - unfold entry_of. cbn [rrf_score best_score best_result best_provider contributors].
    rewrite max_by_snoc. rewrite !(app_comm_cons _ [c]), !fmap_app, foldl_app.
    change (cand_score c) with (score c.2). destruct (Qltb _ _); done.
Qed.

Lemma table_keys {V} (d : list (string * V)) (cs : list candidate) :
  (∀ key, dget key d = None ↔ occurrences key cs = []) →
  ∀ key, key ∈ d.*1 ↔ occurrences key cs ≠ [].
Proof.
  intros H key. rewrite <-H, dget_None. destruct (decide (key ∈ d.*1)); tauto.
Qed.

Lemma rrf_fold_NoDup k cs : NoDup (rrf_fold k cs).*1.
Proof.
  induction cs as [|c cs IH] using rev_ind; [apply NoDup_nil_2|].
  unfold rrf_fold in *. rewrite foldl_app. cbn [foldl]. by apply dset_NoDup.
Qed.

Lemma rrf_provider_fold k p rank rs d :
  rrf_provider dedup_key k p rank rs d =
  foldl (λ d c, rrf_step dedup_key k (cand_provider c) (cand_rank c) c.2 d) d
    (imap (λ i r, (p, (rank + i)%nat, r)) rs).
Proof.
  revert rank d. induction rs as [|r rs IH]; intros rank d; [done|].
  cbn [rrf_provider imap foldl]. rewrite IH. unfold cand_provider, cand_rank at 2. simpl.
  rewrite Nat.add_0_r. f_equal. apply imap_ext. intros i x _. simpl. by rewrite Nat.add_succ_r.
Qed.

Lemma rrf_fold_rbp k rbp :
  foldl (λ d prs, rrf_provider dedup_key k prs.1 0 prs.2 d) [] rbp = rrf_fold k (candidates rbp).
Proof.
  unfold rrf_fold, candidates. generalize (@nil (string * entry)).
  induction rbp as [|[p rs] rbp IH]; intros d; [done|]. cbn [foldl fmap list_fmap concat].
  rewrite foldl_app, IH, rrf_provider_fold. done.
Qed.

(** What the two fusions promise: every key met among the candidates gives exactly
    one result, and the [limit] best of them are returned in descending order. *)
Definition fusion_spec (limit : Z) (cs : list candidate) (fs : string → Q)
    (contributors : candidate → list candidate → list string) (out : list hit) : Prop :=
  ∃ all, top_n sort_score limit all out ∧
    NoDup (temporal_chunk_id <$> all) ∧
    (∀ key, Some key ∈ temporal_chunk_id <$> all ↔ occurrences key cs ≠ []) ∧
    (∀ r, r ∈ all → ∃ key c cs', occurrences key cs = c :: cs' ∧
       fused_hit r key (fs key) (contributors c cs') c cs').

Lemma built_spec {V} limit cs fs contributors (d : list (string * V)) (build : string * V → hit) :
  NoDup d.*1 → (∀ key, key ∈ d.*1 ↔ occurrences key cs ≠ []) →
  (∀ key v, (key, v) ∈ d → ∃ c cs', occurrences key cs = c :: cs' ∧
     fused_hit (build (key, v)) key (fs key) (contributors c cs') c cs') →
  fusion_spec limit cs fs contributors (upto limit (sort_desc sort_score (build <$> d))).
Proof.
  intros Hnd Hkeys Hbuild. exists (build <$> d).
  assert (temporal_chunk_id <$> (build <$> d) = Some <$> d.*1) as Hid.
  { rewrite <-!list_fmap_compose. apply list_fmap_ext. intros i [key v] Hi.
    apply list_elem_of_lookup_2 in Hi. destruct (Hbuild _ _ Hi) as (c&cs'&_&q&Hr&_).
    unfold compose. by rewrite Hr. }
  split_and!.
  - apply upto_sort_top.
  - rewrite Hid. by apply NoDup_fmap_2; [intros ?? [= ?]|].
  - intros key. rewrite Hid, <-Hkeys, list_elem_of_fmap. split; [by intros (?&[= ->]&?)|eauto].
  - intros r ([key v]&->&Hin)%list_elem_of_fmap. destruct (Hbuild _ _ Hin) as (c&cs'&?&?). eauto.
Qed.

(** Fusion over two or more providers: each document (by dedup key) appears
    once, with fusion score the sum over all its occurrences of 1/(k + rank), ranks
    from 1, all contributing providers in order, and the attributes of its first
    highest-scoring occurrence; the output is the [limit] best in descending order
    of fusion score. *)
Theorem fuse_rrf_multi_spec rbp limit k :
  2 ≤ length rbp →
  fusion_spec limit (candidates rbp)
    (λ key, sumQ (rrf_weight k <$> occurrences key (candidates rbp)))
    (λ c cs, cand_provider <$> (c :: cs)) (fuse_rrf_multi dedup_key rbp limit k).
Proof.
  intros Hlen. assert (fuse_rrf_multi dedup_key rbp limit k =
    upto limit (sort_desc sort_score (build_rrf <$> rrf_fold k (candidates rbp)))) as ->.
  { rewrite <-rrf_fold_rbp. destruct rbp as [|[p rs] [|]]; simpl in Hlen; [lia|lia|done]. }
  apply built_spec; [apply rrf_fold_NoDup| |].
  - apply table_keys. intros key. rewrite rrf_fold_dget. by destruct (occurrences key _).
  - intros key e Hin. apply elem_of_dget in Hin; [|apply rrf_fold_NoDup]. rewrite rrf_fold_dget in Hin.
    destruct (occurrences key (candidates rbp)) as [|c cs'] eqn:E; [done|]. injection Hin as <-.
    exists c, cs'. split; [done|]. eexists. split; [done|].
    cbn [entry_of rrf_score]. rewrite foldl_sumQ. lra.
Qed.

Definition merge_fold (cs : list candidate) : list (string * (hit * string)) :=
  foldl (λ d c, merge_step dedup_key (cand_provider c) d c.2) [] cs.

Lemma merge_fold_dget cs key :
  dget key (merge_fold cs) =
  match occurrences key cs with
  | [] => None
  | c :: cs' => let b := max_by cand_score c cs' in Some (b.2, cand_provider b)
  end.
Proof.
  induction cs as [|c cs IH] using rev_ind; [done|].
  unfold merge_fold in *. rewrite foldl_app, occurrences_snoc. cbn [foldl].
  set (d := foldl _ _ cs) in *. clearbody d. unfold merge_step.
  case_decide as Hk.
  - rewrite Hk, IH. destruct (occurrences key cs) as [|c0 cs0]; cbn [app]; [by rewrite dget_dset_eq|].
    rewrite max_by_snoc. cbn zeta iota beta. change (cand_score c) with (score c.2).
    change (cand_score (max_by cand_score c0 cs0)) with (score (max_by cand_score c0 cs0).2).
    destruct (Qltb _ _); [by rewrite dget_dset_eq|done].
  - destruct (dget (dedup_key c.2) _) as [[r0 ?]|]; [destruct (Qltb _ _)|]; rewrite ?dget_dset_ne by done; done.
Qed.

Lemma merge_fold_NoDup cs : NoDup (merge_fold cs).*1.
Proof.
  induction cs as [|c cs IH] using rev_ind; [apply NoDup_nil_2|].
  unfold merge_fold in *. rewrite foldl_app. cbn [foldl].
  set (d := foldl _ _ cs) in *. clearbody d. unfold merge_step.
  destruct (dget _ _) as [[r0 ?]|]; [destruct (Qltb _ _)|]; by try apply dset_NoDup.
Qed.

Lemma merge_fold_rbp rbp :
  foldl (λ d prs, foldl (merge_step dedup_key prs.1) d prs.2) [] rbp = merge_fold (candidates rbp).
Proof.
  unfold merge_fold, candidates. generalize (@nil (string * (hit * string))).
  induction rbp as [|[p rs] rbp IH]; intros d; [done|]. cbn [foldl fmap list_fmap concat fst snd].
  rewrite foldl_app, IH. f_equal. clear IH.
  assert (∀ (f : nat → hit → candidate) d, (∀ i r, cand_provider (f i r) = p ∧ (f i r).2 = r) →
    foldl (merge_step dedup_key p) d rs =
    foldl (λ d c, merge_step dedup_key (cand_provider c) d c.2) d (imap f rs)) as Hgen.
  { clear d. induction rs as [|r rs IH]; intros f d Hf; [done|]. cbn [imap foldl].
    destruct (Hf 0 r) as [-> ->]. apply IH. intros i r'. apply (Hf (S i)). }
  by apply Hgen.
Qed.

(** Merging shards keeps, for every key, the first occurrence with the highest
    true score, attributed to its shard, and returns the [limit] highest-scoring
    of them in descending order of that true score. *)
Theorem merge_shards_by_score_spec rbp limit :
  fusion_spec limit (candidates rbp)
    (λ key, match occurrences key (candidates rbp) with
            | [] => 0%Q
            | c :: cs => cand_score (max_by cand_score c cs)
            end)
    (λ c cs, [cand_provider (max_by cand_score c cs)])
    (merge_shards_by_score dedup_key rbp limit).
Proof.
  assert (merge_shards_by_score dedup_key rbp limit =
    upto limit (sort_desc sort_score (build_merged <$> merge_fold (candidates rbp)))) as ->.
  { rewrite <-merge_fold_rbp. destruct rbp as [|[p rs] rbp]; [|done]. unfold upto. simpl. by rewrite firstn_nil. }
  apply built_spec; [apply merge_fold_NoDup| |].
  - apply table_keys. intros key. rewrite merge_fold_dget. by destruct (occurrences key _).
  - intros key v Hin. apply elem_of_dget in Hin; [|apply merge_fold_NoDup]. rewrite merge_fold_dget in Hin.
    destruct (occurrences key (candidates rbp)) as [|c cs'] eqn:E; [done|]. injection Hin as <-.
    exists c, cs'. split; [done|]. by eexists.
Qed.
End spec.

(** ** Collapse by commit *)

(** The hits of a commit, in order. *)
Definition commit_hits (h : string) (results : list hit) : list hit :=
  filter (λ r, _commit_hash_of r = h) results.

Lemma groups_dget results h :
  dget h (foldl group_step [] results) =
  match commit_hits h results with [] => None | g => Some g end.
Proof.
  induction results as [|r rs IH] using rev_ind; [done|]. unfold commit_hits in *.
  rewrite foldl_app, filter_app, filter_cons, filter_nil. cbn [foldl]. set (d := foldl _ _ rs) in *. clearbody d.
  unfold group_step. rewrite dget_dset. case_decide as Hh; [|by rewrite app_nil_r].
  rewrite Hh, IH. by destruct (filter _ rs).
Qed.

Lemma groups_NoDup results : NoDup (foldl group_step [] results).*1.
Proof.
  induction results as [|r rs IH] using rev_ind; [apply NoDup_nil_2|].
  rewrite foldl_app. cbn [foldl]. by apply dset_NoDup.
Qed.

Lemma union_step_foldl ps seen :
  NoDup seen →
  let u := foldl union_step seen ps in
  NoDup u ∧ (∀ p, p ∈ u ↔ p ∈ seen ∨ p ∈ ps) ∧ ∃ new, u = seen ++ new ∧ new `sublist_of` ps.
Proof.
  revert seen. induction ps as [|p ps IH]; intros seen Hnd; cbn [foldl].
  { split_and!; [done| |by exists []; rewrite app_nil_r]. intros q. split; [by left|]. by intros [?|?%not_elem_of_nil]. }
  unfold union_step at 2 4 6. case_decide as Hp.
  - destruct (IH seen Hnd) as (H1&H2&new&H3&H4). split_and!; [done| |exists new; by split; [|constructor]].
    intros q. rewrite H2, elem_of_cons. naive_solver.
  - destruct (IH (seen ++ [p])) as (H1&H2&new&H3&H4).
    { apply NoDup_app. split_and!; [done| |apply NoDup_singleton].
      intros q Hq ->%list_elem_of_singleton. done. }
    split_and!; [done| |].
    + intros q. rewrite H2, elem_of_app, list_elem_of_singleton, elem_of_cons. tauto.
    + exists (p :: new). rewrite H3, <-app_assoc. split; [done|by constructor].
Qed.

Lemma union_paths_concat g : union_paths g = foldl union_step [] (concat (member_paths <$> g)).
Proof.
  unfold union_paths. generalize (@nil string). induction g as [|r g IH]; intros seen; [done|].
  cbn [foldl fmap list_fmap concat]. by rewrite foldl_app, IH.
Qed.

Lemma union_paths_spec g :
  NoDup (union_paths g) ∧ union_paths g `sublist_of` concat (member_paths <$> g) ∧
  (∀ p, p ∈ union_paths g ↔ ∃ r, r ∈ g ∧ p ∈ member_paths r).
Proof.
  rewrite union_paths_concat.
  destruct (union_step_foldl (concat (member_paths <$> g)) [] (NoDup_nil_2)) as (H1&H2&new&H3&H4).
  split_and!; [done|by rewrite H3|]. intros p. rewrite H2, elem_of_concat. split.
  - intros [?%not_elem_of_nil|(l&(r&->&Hr)%list_elem_of_fmap&Hp)]; eauto. done.
  - intros (r&Hr&Hp). right. exists (member_paths r). split; [|done]. apply list_elem_of_fmap. eauto.
Qed.

(** [rep] represents the non-empty group [g] of a commit. *)
Definition represents (g : list hit) (rep : hit) : Prop :=
  ∃ b, b ∈ g ∧ (∀ r, r ∈ g → score r <= score b)%Q ∧
    score rep = score b ∧ file_path rep = file_path b ∧ chunk_index rep = chunk_index b ∧
    match metadata b, metadata rep with
    | Some m, Some m' =>
        paths m' = Some (union_paths g) ∧ commit_hash m' = commit_hash m ∧ is_head m' = is_head m ∧
        (truthy (is_head m) = false → _head_commit_message m' = Some (head_message g))
    | None, None => True
    | _, _ => False
    end.

Lemma representative_spec h r0 rs :
  Forall (λ r, _commit_hash_of r = h) (r0 :: rs) →
  ∃ rep, representative (r0 :: rs) = Some rep ∧ _commit_hash_of rep = h ∧ represents (r0 :: rs) rep.
Proof.
  intros Hh. cbn [representative]. set (b := max_by score r0 rs).
  assert (b ∈ r0 :: rs) as Hb by apply max_by_in.
  rewrite Forall_forall in Hh. specialize (Hh b Hb).
  eexists. split; [done|]. unfold represents. split.
  - destruct (metadata b) as [m|] eqn:Em; [|done]. rewrite <-Hh. unfold _commit_hash_of.
    cbn [with_metadata metadata temporal_context]. by rewrite Em.
  - exists b. split_and!; [done|by apply max_by_ge|by destruct (metadata b)..|].
    destruct (metadata b) as [m|] eqn:Em; [|by rewrite Em]. cbn [with_metadata metadata paths commit_hash is_head].
    split_and!; [done|done|done|]. cbn. by intros ->.
Qed.

(** The collapse by commit loses no commit and no provenance: there is exactly
    one result per distinct commit hash; it is a highest-scoring chunk of that
    commit, carries the duplicate-free, order-preserving union of the paths of all
    the commit's chunks, and, when it is not the head chunk, the message of the
    commit's head chunk. *)
Theorem dedup_by_commit_spec results :
  NoDup (_commit_hash_of <$> dedup_by_commit results) ∧
  (∀ h, h ∈ _commit_hash_of <$> dedup_by_commit results ↔ h ∈ _commit_hash_of <$> results) ∧
  (∀ rep, rep ∈ dedup_by_commit results → represents (commit_hits (_commit_hash_of rep) results) rep) ∧
  (∀ h, let u := union_paths (commit_hits h results) in
     NoDup u ∧ u `sublist_of` concat (member_paths <$> commit_hits h results) ∧
     ∀ p, p ∈ u ↔ ∃ r, r ∈ results ∧ _commit_hash_of r = h ∧ p ∈ member_paths r).
Proof.
  set (d := foldl group_step [] results).
  assert (∀ h g, (h, g) ∈ d → g = commit_hits h results ∧ g ≠ []) as Hd.
  { intros h g Hin%elem_of_dget; [|apply groups_NoDup]. unfold d in Hin. rewrite groups_dget in Hin.
    by destruct (commit_hits h results); simplify_eq. }
  assert (∀ h g, (h, g) ∈ d → ∃ rep, representative g = Some rep ∧ _commit_hash_of rep = h ∧
    represents (commit_hits h results) rep) as Hrep.
  { intros h g Hin. destruct (Hd _ _ Hin) as [-> Hne]. destruct (commit_hits h results) as [|r0 rs] eqn:E; [done|].
    apply representative_spec. rewrite <-E. apply Forall_forall. by intros r [? _]%list_elem_of_filter. }
  assert (_commit_hash_of <$> dedup_by_commit results = d.*1) as Hkeys.
  { unfold dedup_by_commit. fold d. clear Hd. clearbody d. induction d as [|[h g] d IH]; [done|].
    destruct (Hrep h g) as (rep&Hr&Hh&_); [left|]. cbn [omap list_omap snd]. rewrite Hr. cbn.
    rewrite Hh. f_equal. apply IH. intros h' g' Hin. apply Hrep. by right. }
  split_and!.
  - rewrite Hkeys. apply groups_NoDup.
  - intros h. rewrite Hkeys. destruct (decide (h ∈ d.*1)) as [Hin|Hnin].
    + split; [|done]. intros _. apply list_elem_of_fmap in Hin as ([h' g]&->&Hin).
      destruct (Hd _ _ Hin) as [Hg Hne]. destruct g as [|r g]; [done|].
      assert (r ∈ commit_hits h' results) as [<- Hr]%list_elem_of_filter by (rewrite <-Hg; left).
      apply list_elem_of_fmap. eauto.
    + split; [done|]. intros (r&->&Hr)%list_elem_of_fmap. exfalso. apply dget_None in Hnin.
      unfold d in Hnin. rewrite groups_dget in Hnin.
      assert (r ∈ commit_hits (_commit_hash_of r) results) as Hin by by apply list_elem_of_filter.
      destruct (commit_hits _ _); [by apply not_elem_of_nil in Hin|done].
  - intros rep Hin. unfold dedup_by_commit in Hin. apply list_elem_of_omap in Hin as ([h g]&Hin&Hr).
    fold d in Hin. destruct (Hrep _ _ Hin) as (rep'&Hr'&<-&?). simpl in Hr. by simplify_eq.
  - intros h u. destruct (union_paths_spec (commit_hits h results)) as (H1&H2&H3).
    split_and!; [done|done|]. intros p. subst u. rewrite H3. unfold commit_hits. setoid_rewrite list_elem_of_filter. naive_solver.
Qed.

(** ** Witness *)

Definition chunk (hash path : string) (ix : Z) (sc : Q) : hit :=
  {| file_path := path; chunk_index := ix; score := sc; metadata := None;
     temporal_context := Some {| commit_hash := Some hash; paths := None; is_head := None;
                                 commit_message := None; _head_commit_message := None |};
     source_provider := ""; contributing_providers := []; fusion_score := None; temporal_chunk_id := None |}.

Lemma fuse_rrf_multi_spec_witness :
  let key r := default ""%string (make_temporal_dedup_key r) in
  let rbp := [("voyage", [chunk "a1" "x.py" 0 (9 # 10)]); ("cohere", [chunk "a1" "x.py" 0 1; chunk "b2" "y.py" 3 1])]%string in
  fusion_spec key 10 (candidates rbp) (λ k, sumQ (rrf_weight 60 <$> occurrences key k (candidates rbp)))
    (λ c cs, cand_provider <$> (c :: cs)) (fuse_rrf_multi key rbp 10 60) ∧
  (file_path <$> fuse_rrf_multi key rbp 10 60) = ["x.py"; "y.py"]%string.
Proof. intros key rbp. split; [apply fuse_rrf_multi_spec; simpl; lia|]. vm_compute. reflexivity. Defined.
End TemporalFusion.
