(* ===== verification/IdIndex.v ===== *)
(** * The binary index from vector ids to files

    src/src/code_indexer/storage/id_index_manager.py, with the build-and-swap of
    src/src/code_indexer/storage/background_index_rebuilder.py.

    A byte is an [N]; identifiers and paths are lists of code points, encoded with
    strict UTF-8.  The disk is the collection directory's [id_index.bin] and its
    temporary side-car. *)

From S2P Require Import Prelude.
From S2P Require Import PyText.
From stdpp Require Import options.
Local Open Scope N_scope.

(** ** UTF-8 as [str.encode] and [bytes.decode] implement it *)
Module Utf8.

Definition is_surrogate (c : N) : bool := (55296 <=? c) && (c <? 57344).

(** A code point a Python string can hold and UTF-8 can encode. *)
Definition scalar (c : N) : bool := (c <? 1114112) && negb (is_surrogate c).

Definition encode_char (c : N) : option (list N) :=
  if c <? 128 then Some [c]
  else if c <? 2048 then Some [192 + c / 64; 128 + c mod 64]
  else if c <? 65536 then
    if is_surrogate c then None
    else Some [224 + c / 4096; 128 + (c / 64) mod 64; 128 + c mod 64]
  else if c <? 1114112 then
    Some [240 + c / 262144; 128 + (c / 4096) mod 64; 128 + (c / 64) mod 64; 128 + c mod 64]
  else None.

(** [s.encode("utf-8")]; [None] is UnicodeEncodeError. *)
Definition encode (s : text) : option (list N) := (λ bss, concat bss) <$> mapM encode_char s.

Definition cont (b : N) : bool := (128 <=? b) && (b <? 192).

(** [raw.decode("utf-8")]: overlong forms, surrogates and truncated sequences are
    rejected; [None] is UnicodeDecodeError. *)
Fixpoint decode (bs : list N) : option text :=
  match bs with
  | [] => Some []
  | b0 :: bs0 =>
      if b0 <? 128 then cons b0 <$> decode bs0
      else
        match bs0 with
        | [] => None
        | b1 :: bs1 =>
            if (194 <=? b0) && (b0 <? 224) && cont b1 then
              cons ((b0 - 192) * 64 + (b1 - 128)) <$> decode bs1
            else
              match bs1 with
              | [] => None
              | b2 :: bs2 =>
                  if (224 <=? b0) && (b0 <? 240) && cont b1 && cont b2 then
                    let c := (b0 - 224) * 4096 + (b1 - 128) * 64 + (b2 - 128) in
                    if (2048 <=? c) && negb (is_surrogate c) then cons c <$> decode bs2 else None
                  else
                    match bs2 with
                    | [] => None
                    | b3 :: bs3 =>
                        if (240 <=? b0) && (b0 <? 245) && cont b1 && cont b2 && cont b3 then
                          let c := (b0 - 240) * 262144 + (b1 - 128) * 4096 + (b2 - 128) * 64 + (b3 - 128) in
                          if (65536 <=? c) && (c <? 1114112) then cons c <$> decode bs3 else None
                        else None
                    end
              end
        end
  end.

(** Decide the comparisons of the goal one after the other. *)
Ltac nbool :=
  repeat match goal with
  | |- context [?a <? ?b] =>
      first [rewrite (proj2 (N.ltb_lt a b)) by lia | rewrite (proj2 (N.ltb_ge a b)) by lia]
  | |- context [?a <=? ?b] =>
      first [rewrite (proj2 (N.leb_le a b)) by lia | rewrite (proj2 (N.leb_gt a b)) by lia]
  end; cbn [andb negb].

Lemma decode_encode_char c bs rest :
  encode_char c = Some bs → decode (bs ++ rest) = cons c <$> decode rest.
Proof.
  unfold encode_char, is_surrogate.
  pose proof (N.div_mod c 64). pose proof (N.mod_lt c 64).
  pose proof (N.div_mod (c / 64) 64). pose proof (N.mod_lt (c / 64) 64).
  pose proof (N.div_mod (c / 4096) 64). pose proof (N.mod_lt (c / 4096) 64).
  assert (c / 64 / 64 = c / 4096) as E1 by (rewrite N.Div0.div_div; done).
  assert (c / 4096 / 64 = c / 262144) as E2 by (rewrite N.Div0.div_div; done).
  rewrite E1 in *. rewrite E2 in *.
  set (q1 := c / 64) in *. set (q2 := c / 4096) in *. set (q3 := c / 262144) in *.
  set (r0 := c mod 64) in *. set (r1 := q1 mod 64) in *. set (r2 := q2 mod 64) in *.
  clearbody q1 q2 q3 r0 r1 r2.
  destruct (N.ltb_spec c 128).
  { intros [= <-]. simpl. nbool. done. }
  destruct (N.ltb_spec c 2048).
  { intros [= <-]. cbn [app decode]. unfold cont. nbool. do 2 f_equal. lia. }
  destruct (N.ltb_spec c 65536).
  { destruct ((55296 <=? c) && (c <? 57344)) eqn:Es; [done|]. intros [= <-].
    cbn [app decode]. unfold cont, is_surrogate.
    replace ((224 + q2 - 224) * 4096 + (128 + r1 - 128) * 64 + (128 + r0 - 128)) with c by lia.
    rewrite Es. nbool. done. }
  destruct (N.ltb_spec c 1114112); [|done]. intros [= <-]. cbn [app decode]. unfold cont.
  replace ((240 + q3 - 240) * 262144 + (128 + r2 - 128) * 4096 + (128 + r1 - 128) * 64 + (128 + r0 - 128))
    with c by lia.
  nbool. done.
Qed.

Lemma decode_encode s bs : encode s = Some bs → decode bs = Some s.
Proof.
  unfold encode. intros (bss&Hm&->)%fmap_Some.
  revert bss Hm. induction s as [|c s IH]; intros bss Hm; simpl in Hm.
  { by injection Hm as <-. }
  destruct (encode_char c) as [bs|] eqn:Ec; [|done]. simpl in Hm.
  destruct (mapM encode_char s) as [bss'|]; [|done]. injection Hm as <-.
  cbn [concat]. rewrite (decode_encode_char c) by done. by rewrite (IH bss').
Qed.
End Utf8.

Module IdIndex.

Definition _MAX_INDEX_ENTRIES : N := 10000000.
Definition _HEADER_SIZE : N := 4.
Definition INDEX_FILENAME : text := txt "id_index.bin".
Definition _TEMPORAL_BOOKKEEPING_FILENAMES : list text :=
  [txt "temporal_structure.json"; txt "temporal_progress.json"; txt "temporal_meta.json"].

Inductive error := CorruptIDIndexError | StructError | UnicodeEncodeError.

Abbreviation bytes := (list N).
Abbreviation index := (list (text * Path)).
Implicit Types (bs rest : bytes) (cp : Path) (idx : index).

(** ** Reading *)

Definition _read_exact (size : N) bs : result error (bytes * bytes) :=
  if N.of_nat (length bs) <? size then Err CorruptIDIndexError
  else Ok (take (N.to_nat size) bs, drop (N.to_nat size) bs).

(** Little-endian [struct.unpack]. *)
Definition le_value (bs : bytes) : N := foldr (λ b acc, b + 256 * acc) 0 bs.

Definition _read_u16 bs : result error (N * bytes) :=
  '(raw, rest) ← _read_exact 2 bs; Ok (le_value raw, rest).

Definition _read_u32 bs : result error (N * bytes) :=
  '(raw, rest) ← _read_exact 4 bs; Ok (le_value raw, rest).

Definition _read_utf8_string (length : N) bs : result error (text * bytes) :=
  '(raw, rest) ← _read_exact length bs;
  match Utf8.decode raw with
  | Some s => Ok (s, rest)
  | None => Err CorruptIDIndexError
  end.

Definition dotdot : text := [dot; dot].

(** [Path( *p.parts )]. *)
Definition path_of_parts (parts : list text) : Path :=
  foldl path_join {| proot := 0; ptail := [] |} (path_of <$> parts).

Definition _safe_relative_path (path_str : text) : result error Path :=
  let p := path_of path_str in
  if is_absolute p then Err CorruptIDIndexError
  else
    let normalised := path_of_parts (path_parts p) in
    if decide (dotdot ∈ path_parts normalised) then Err CorruptIDIndexError else Ok normalised.

Fixpoint read_entries (n : nat) cp bs (id_index : index) : result error index :=
  match n with
  | O => Ok id_index
  | S n' =>
      '(id_len, bs1) ← _read_u16 bs;
      '(point_id, bs2) ← _read_utf8_string id_len bs1;
      '(path_len, bs3) ← _read_u16 bs2;
      '(path_str, bs4) ← _read_utf8_string path_len bs3;
      safe_path ← _safe_relative_path path_str;
      read_entries n' cp bs4 (dset point_id (path_join cp safe_path) id_index)
  end.

(** The body of [load_index] on the content of an existing file. *)
Definition load_bytes cp bs : result error index :=
  if N.of_nat (length bs) =? 0 then Err CorruptIDIndexError
  else if N.of_nat (length bs) <? _HEADER_SIZE then Err CorruptIDIndexError
  else
    '(num_entries, rest) ← _read_u32 bs;
    if _MAX_INDEX_ENTRIES <? num_entries then Err CorruptIDIndexError
    else read_entries (N.to_nat num_entries) cp rest [].

(** ** Writing *)

(** Little-endian [struct.pack] on [k] bytes; [None] is struct.error. *)
Fixpoint le_bytes (k : nat) (n : N) : bytes :=
  match k with O => [] | S k' => n mod 256 :: le_bytes k' (n / 256) end.

Definition pack (k : nat) (n : N) : option bytes :=
  if n <? 256 ^ N.of_nat k then Some (le_bytes k n) else None.

Definition stored_path cp (file_path : Path) : text :=
  match relative_to file_path cp with
  | Some relative_path => path_str relative_path
  | None => path_str file_path
  end.

(** The writes of one entry: what reached the file, and the exception if any. *)
Definition write_entry cp (e : text * Path) : bytes * option error :=
  match Utf8.encode e.1, Utf8.encode (stored_path cp e.2) with
  | Some id_bytes, Some path_bytes =>
      match pack 2 (N.of_nat (length id_bytes)) with
      | None => ([], Some StructError)
      | Some l1 =>
          match pack 2 (N.of_nat (length path_bytes)) with
          | None => (l1 ++ id_bytes, Some StructError)
          | Some l2 => (l1 ++ id_bytes ++ l2 ++ path_bytes, None)
          end
      end
  | _, _ => ([], Some UnicodeEncodeError)
  end.

Fixpoint write_entries cp idx : bytes * option error :=
  match idx with
  | [] => ([], None)
  | e :: idx' =>
      match write_entry cp e with
      | (bs, Some x) => (bs, Some x)
      | (bs, None) => let '(bs', x) := write_entries cp idx' in (bs ++ bs', x)
      end
  end.

Definition write_index cp idx : bytes * option error :=
  match pack 4 (N.of_nat (length idx)) with
  | None => ([], Some StructError)
  | Some header => let '(bs, x) := write_entries cp idx in (header ++ bs, x)
  end.

(** ** Operations on the collection directory *)

(** [id_index.bin] and its temporary file, which [save_index] and the rebuild share. *)
Record disk := { index_file : option bytes; temp_file : option bytes }.

Definition load_index cp (d : disk) : result error index :=
  match index_file d with None => Ok [] | Some bs => load_bytes cp bs end.

Definition save_index cp idx (d : disk) : result error () * disk :=
  match write_index cp idx with
  | (bs, None) => (Ok (), {| index_file := Some bs; temp_file := None |})
  | (bs, Some x) => (Err x, {| index_file := index_file d; temp_file := Some bs |})
  end.

Definition update_batch cp (updates : index) (d : disk) : result error () * disk :=
  match load_index cp d with
  | Err x => (Err x, d)
  | Ok existing => save_index cp (dupdate existing updates) d
  end.

Definition remove_ids cp (point_ids : list text) (d : disk) : result error () * disk :=
  match load_index cp d with
  | Err x => (Err x, d)
  | Ok existing => save_index cp (foldl (λ m i, ddel i m) existing point_ids) d
  end.

(** ** Rebuilding from the vector files *)

(** What [json.load] of a scanned file gives: a parse error, a value that is not an
    object, or an object with its ["id"] entry, whose value is a string or not. *)
Inductive json_id := IdString (s : text) | IdOther.
Inductive json_content := JsonDecodeError | NotADict | Dict (id : option json_id).

Definition scanned (json_file : Path) : bool :=
  negb (contains (txt "collection_meta") (path_name json_file)) &&
  negb (bool_decide (path_name json_file = INDEX_FILENAME)) &&
  negb (bool_decide (path_name json_file ∈ _TEMPORAL_BOOKKEEPING_FILENAMES)).

Definition scan_file (id_index : index) (f : Path * json_content) : index :=
  if scanned f.1 then
    match f.2 with
    | Dict (Some (IdString s)) => if decide (s = []) then id_index else dset s f.1 id_index
    | _ => id_index
    end
  else id_index.

(** [rebuild_with_lock]: build into the temporary file, swap it in; on an exception
    the temporary file is removed.  The clean-up of orphaned temporary files that
    precedes it can only remove a file the build overwrites. *)
Definition rebuild_with_lock (build : bytes * option error) (d : disk) : result error () * disk :=
  match build with
  | (bs, None) => (Ok (), {| index_file := Some bs; temp_file := None |})
  | (_, Some x) => (Err x, {| index_file := index_file d; temp_file := None |})
  end.

Definition rebuild_from_vectors cp (files : list (Path * json_content)) (d : disk) :
    result error index * disk :=
  let id_index := foldl scan_file [] files in
  let '(r, d') := rebuild_with_lock (write_index cp id_index) d in
  (match r with Ok _ => Ok id_index | Err x => Err x end, d').

(** ** Little-endian integers *)

Lemma le_bytes_length k n : length (le_bytes k n) = k.
Proof. revert n. induction k; intros n; simpl; auto. Qed.

Lemma le_value_bytes k n : n < 256 ^ N.of_nat k → le_value (le_bytes k n) = n.
Proof.
  revert n. induction k as [|k IH]; intros n Hn; cbn [le_bytes le_value foldr]; [simpl in Hn; lia|].
  fold (le_value (le_bytes k (n / 256))). rewrite IH.
  - pose proof (N.div_mod n 256). lia.
  - rewrite Nat2N.inj_succ, N.pow_succ_r' in Hn. by apply N.Div0.div_lt_upper_bound.
Qed.

Lemma pack_spec k n l : pack k n = Some l → length l = k ∧ le_value l = n.
Proof.
  unfold pack. destruct (N.ltb_spec n (256 ^ N.of_nat k)); [|done]. intros [= <-].
  split; [apply le_bytes_length|by apply le_value_bytes].
Qed.

(** ** Reading a file cut at [n]: the field [a] is read, or the cut is reported *)

Lemma read_exact_take size n (a r : bytes) :
  size = N.of_nat (length a) →
  _read_exact size (take n (a ++ r)) =
  if decide ((length a ≤ n)%nat) then Ok (a, take (n - length a) r) else Err CorruptIDIndexError.
Proof.
  intros ->. unfold _read_exact. rewrite length_take, length_app, Nat2N.id. case_decide as Hn.
  - destruct (N.ltb_spec (N.of_nat (n `min` (length a + length r))) (N.of_nat (length a))); [lia|].
    rewrite take_app, (take_ge a n) by done. by rewrite take_app_length, drop_app_length.
  - destruct (N.ltb_spec (N.of_nat (n `min` (length a + length r))) (N.of_nat (length a))); [done|lia].
Qed.

Lemma read_exact_app size (a r : bytes) : size = N.of_nat (length a) → _read_exact size (a ++ r) = Ok (a, r).
Proof.
  intros ->. unfold _read_exact. rewrite length_app, Nat2N.id.
  destruct (N.ltb_spec (N.of_nat (length a + length r)) (N.of_nat (length a))); [lia|].
  by rewrite take_app_length, drop_app_length.
Qed.

(** ** Entries *)

(** An entry whose path lies under the collection and round-trips. *)
Definition entry_ok cp (e : text * Path) : Prop :=
  ∃ rel, e.2 = path_join cp rel ∧ proot rel = O ∧ path_wf rel ∧ dotdot ∉ ptail rel.

Lemma entry_ok_stored cp e :
  entry_ok cp e → ∃ rel, stored_path cp e.2 = path_str rel ∧ _safe_relative_path (path_str rel) = Ok rel ∧
    path_join cp rel = e.2.
Proof.
  intros (rel&->&Hr&Hwf&Hdd). exists rel. unfold stored_path. split_and!; [|unfold _safe_relative_path|done].
  - rewrite relative_to_join; [done|]. unfold is_absolute. by rewrite Hr.
  - rewrite path_of_str by done. unfold is_absolute. rewrite Hr. cbn [Nat.eqb negb].
    unfold path_of_parts. rewrite path_join_parts by done. rewrite decide_False; [done|].
    unfold path_parts. by rewrite decide_True.
Qed.

(** The four fields of an entry that was written without an error. *)
Lemma write_entry_Some cp e bs :
  write_entry cp e = (bs, None) →
  ∃ l1 ib l2 pb, bs = l1 ++ ib ++ l2 ++ pb ∧
    length l1 = 2%nat ∧ le_value l1 = N.of_nat (length ib) ∧ Utf8.decode ib = Some e.1 ∧
    length l2 = 2%nat ∧ le_value l2 = N.of_nat (length pb) ∧ Utf8.decode pb = Some (stored_path cp e.2).
Proof.
  unfold write_entry. destruct (Utf8.encode e.1) as [ib|] eqn:E1; [|done].
  destruct (Utf8.encode (stored_path cp e.2)) as [pb|] eqn:E2; [|done].
  destruct (pack 2 _) as [l1|] eqn:P1; [|done].
  destruct (pack 2 (N.of_nat (length pb))) as [l2|] eqn:P2; [|done]. intros [= <-].
  exists l1, ib, l2, pb. apply pack_spec in P1, P2. split_and!; try naive_solver; by apply Utf8.decode_encode.
Qed.

Lemma read_written_entry n cp e bs rest acc :
  write_entry cp e = (bs, None) →
  read_entries (S n) cp (bs ++ rest) acc =
  (p ← _safe_relative_path (stored_path cp e.2); read_entries n cp rest (dset e.1 (path_join cp p) acc)).
Proof.
  intros (l1&ib&l2&pb&->&H1&H2&H3&H4&H5&H6)%write_entry_Some.
  cbn [read_entries]. unfold _read_u16, _read_utf8_string. rewrite <-!app_assoc.
  rewrite read_exact_app by (by rewrite H1). cbn. rewrite H2, read_exact_app by done. cbn. rewrite H3. cbn.
  rewrite read_exact_app by (by rewrite H4). cbn. rewrite H5, read_exact_app by done. cbn. by rewrite H6.
Qed.

Lemma read_cut_entry n k cp e bs acc :
  write_entry cp e = (bs, None) → (k < length bs)%nat →
  read_entries (S n) cp (take k bs) acc = Err CorruptIDIndexError.
Proof.
  intros (l1&ib&l2&pb&->&H1&H2&H3&H4&H5&H6)%write_entry_Some Hk. rewrite !length_app in Hk.
  cbn [read_entries]. unfold _read_u16, _read_utf8_string.
  rewrite read_exact_take by (by rewrite H1). case_decide; [|done]. cbn.
  rewrite H2, read_exact_take by done. case_decide; [|done]. cbn. rewrite H3. cbn.
  rewrite read_exact_take by (by rewrite H4). case_decide; [|done]. cbn.
  match goal with |- context [take ?m pb] =>
    pose proof (read_exact_take _ m pb [] eq_refl) as Hpb end.
  rewrite app_nil_r in Hpb. rewrite H5, Hpb. case_decide; [lia|done].
Qed.

(** ** Whole files *)

Lemma write_entries_cons cp e idx bs :
  write_entries cp (e :: idx) = (bs, None) →
  ∃ b1 b2, bs = b1 ++ b2 ∧ write_entry cp e = (b1, None) ∧ write_entries cp idx = (b2, None).
Proof.
  cbn. destruct (write_entry cp e) as [b1 [x|]]; [done|].
  destruct (write_entries cp idx) as [b2 x]. intros [= <- ->]. eauto.
Qed.

Lemma read_written_entries cp idx bs rest acc n :
  Forall (entry_ok cp) idx → write_entries cp idx = (bs, None) →
  read_entries (length idx + n) cp (bs ++ rest) acc = read_entries n cp rest (dupdate acc idx).
Proof.
  intros Hok. revert bs acc. induction Hok as [|e idx He Hok IH]; intros bs acc Hw.
  { by injection Hw as <-. }
  apply write_entries_cons in Hw as (b1&b2&->&H1&H2). rewrite <-app_assoc. cbn [length Nat.add].
  rewrite (read_written_entry _ cp e) by done. apply entry_ok_stored in He as (rel&->&Hp&Hj). rewrite Hp. cbn [mbind result_bind]. rewrite Hj.
  by rewrite (IH b2).
Qed.

Lemma read_cut_entries cp idx bs acc k :
  Forall (entry_ok cp) idx → write_entries cp idx = (bs, None) → (k < length bs)%nat →
  read_entries (length idx) cp (take k bs) acc = Err CorruptIDIndexError.
Proof.
  intros Hok. revert bs acc k. induction Hok as [|e idx He Hok IH]; intros bs acc k Hw Hk.
  { injection Hw as <-. simpl in Hk. lia. }
  apply write_entries_cons in Hw as (b1&b2&->&H1&H2). rewrite length_app in Hk.
  destruct (decide (k < length b1)%nat).
  - rewrite take_app_le by lia. cbn [length]. by eapply read_cut_entry.
  - rewrite take_app_ge by lia. cbn [length]. rewrite (read_written_entry _ cp e) by done.
    apply entry_ok_stored in He as (rel&->&Hp&Hj). rewrite Hp. cbn [mbind result_bind]. rewrite Hj. apply (IH b2); [done|lia].
Qed.

(** ** The index file as a map *)

(** A string [struct.pack("<H", ...)] can prefix with its length. *)
Definition fits (s : text) : Prop := ∃ bs, Utf8.encode s = Some bs ∧ N.of_nat (length bs) < 65536.

Definition storable cp (e : text * Path) : Prop :=
  entry_ok cp e ∧ fits e.1 ∧ fits (stored_path cp e.2).

Record good cp idx : Prop := {
  good_NoDup : NoDup idx.*1;
  good_count : N.of_nat (length idx) <= _MAX_INDEX_ENTRIES;
  good_entries : Forall (storable cp) idx;
}.

(** The disk holds the index [idx]. *)
Definition holds cp idx (d : disk) : Prop :=
  good cp idx ∧
  match index_file d with None => idx = [] | Some bs => write_index cp idx = (bs, None) end.

Lemma pack_ok k n : n < 256 ^ N.of_nat k → ∃ l, pack k n = Some l.
Proof. intros. unfold pack. destruct (N.ltb_spec n (256 ^ N.of_nat k)); [eauto|lia]. Qed.

Lemma write_entry_ok cp e : storable cp e → ∃ bs, write_entry cp e = (bs, None).
Proof.
  intros (_&(ib&Hi&Hil)&(pb&Hp&Hpl)). unfold write_entry. rewrite Hi, Hp.
  destruct (pack_ok 2 (N.of_nat (length ib))) as [l1 ->]; [done|].
  destruct (pack_ok 2 (N.of_nat (length pb))) as [l2 ->]; [done|]. eauto.
Qed.

Lemma write_index_ok cp idx : good cp idx → ∃ h bs, write_index cp idx = (h ++ bs, None) ∧
  write_entries cp idx = (bs, None) ∧ length h = 4%nat ∧ le_value h = N.of_nat (length idx).
Proof.
  intros [_ Hc He]. unfold write_index.
  assert (∃ bs, write_entries cp idx = (bs, None)) as [bs ->].
  { clear Hc. induction He as [|e idx He Hes IH]; [by eexists|]. cbn.
    destruct (write_entry_ok cp e He) as [b1 ->]. destruct IH as [b2 ->]. eauto. }
  destruct (pack_ok 4 (N.of_nat (length idx))) as [h Hh].
  { unfold _MAX_INDEX_ENTRIES in Hc. simpl. lia. }
  rewrite Hh. apply pack_spec in Hh as [? ?]. eauto 10.
Qed.

Lemma good_ok cp idx : good cp idx → Forall (entry_ok cp) idx.
Proof. intros [_ _ H]. eapply Forall_impl; [exact H|]. by intros ? [? _]. Qed.

(** Reading a written file cut after [k] bytes. *)
Lemma load_cut cp idx h bs k :
  good cp idx → write_entries cp idx = (bs, None) → length h = 4%nat → le_value h = N.of_nat (length idx) →
  load_bytes cp (take k (h ++ bs)) =
  if decide (4 ≤ k)%nat then read_entries (length idx) cp (take (k - 4) bs) [] else Err CorruptIDIndexError.
Proof.
  intros Hg Hw Hh Hv. unfold load_bytes, _read_u32.
  rewrite read_exact_take by (by rewrite Hh). rewrite length_take, length_app, Hh.
  case_decide as Hk.
  - destruct (N.eqb_spec (N.of_nat (k `min` (4 + length bs))) 0); [lia|].
    destruct (N.ltb_spec (N.of_nat (k `min` (4 + length bs))) _HEADER_SIZE) as [Hl|_].
    { unfold _HEADER_SIZE in Hl. lia. }
    cbn [mbind result_bind]. rewrite Hv. pose proof (good_count _ _ Hg).
    destruct (N.ltb_spec _MAX_INDEX_ENTRIES (N.of_nat (length idx))); [lia|]. by rewrite Nat2N.id.
  - destruct (N.of_nat (k `min` (4 + length bs)) =? 0); [done|].
    by destruct (_ <? _HEADER_SIZE).
Qed.

Lemma load_written cp idx bs : good cp idx → write_index cp idx = (bs, None) → load_bytes cp bs = Ok idx.
Proof.
  intros Hg Hw. destruct (write_index_ok cp idx Hg) as (h&b&Hw'&He&Hh&Hv).
  rewrite Hw' in Hw. injection Hw as <-.
  rewrite <-(take_ge (h ++ b) (length (h ++ b))) by done.
  rewrite (load_cut cp idx) by done. rewrite length_app, decide_True by lia.
  rewrite take_ge by lia. pose proof (read_written_entries cp idx b [] [] 0 (good_ok _ _ Hg) He) as Hr.
  rewrite app_nil_r, Nat.add_0_r in Hr. rewrite Hr. cbn. by rewrite dupdate_fresh; [|apply Hg].
Qed.

Lemma holds_load cp idx d : holds cp idx d → load_index cp d = Ok idx.
Proof.
  intros [Hg Hd]. unfold load_index. destruct (index_file d) as [bs|]; [by apply load_written|by subst].
Qed.

Lemma save_holds cp idx d :
  good cp idx → ∃ d', save_index cp idx d = (Ok (), d') ∧ holds cp idx d' ∧ temp_file d' = None.
Proof.
  intros Hg. destruct (write_index_ok cp idx Hg) as (h&b&Hw&_). unfold save_index. rewrite Hw.
  eexists. split; [done|]. split; [|done]. split; [done|]. done.
Qed.

(** C35: save/load round trip: an index with distinct encodable identifiers and
    paths below the collection directory is written without error, whatever was
    on the disk, and loading gives it back, entry for entry and in order. *)
Theorem save_load_roundtrip cp idx d :
  good cp idx → ∃ d', save_index cp idx d = (Ok (), d') ∧ load_index cp d' = Ok idx ∧ temp_file d' = None.
Proof.
  intros Hg. destruct (save_holds cp idx d Hg) as (d'&?&?&?). eauto using holds_load.
Qed.

(** A torn index file never loads: every proper prefix of a file that
    [save_index] writes, the empty one included, is reported as corrupt. *)
Theorem torn_file_detected cp idx bs k :
  good cp idx → write_index cp idx = (bs, None) → (k < length bs)%nat →
  load_bytes cp (take k bs) = Err CorruptIDIndexError.
Proof.
  intros Hg Hw Hk. destruct (write_index_ok cp idx Hg) as (h&b&Hw'&He&Hh&Hv).
  rewrite Hw' in Hw. injection Hw as <-. rewrite (load_cut cp idx) by done. case_decide; [|done].
  rewrite length_app in Hk. eapply read_cut_entries; [by apply good_ok|done|lia].
Qed.

(** ** Updates *)

Definition remove_all (ids : list text) idx : index := foldl (λ m i, ddel i m) idx ids.

Lemma remove_all_good cp ids idx : good cp idx → good cp (remove_all ids idx).
Proof.
  unfold remove_all. revert idx. induction ids as [|i ids IH]; intros idx Hg; [done|]. apply IH.
  destruct Hg as [H1 H2 H3]. split; [by apply ddel_NoDup| |by apply ddel_Forall].
  pose proof (ddel_length i idx). lia.
Qed.

Lemma dget_remove_all ids idx k :
  dget k (remove_all ids idx) = if decide (k ∈ ids) then None else dget k idx.
Proof.
  unfold remove_all. revert idx. induction ids as [|i ids IH]; intros idx; cbn [foldl].
  { rewrite decide_False; [done|apply not_elem_of_nil]. }
  rewrite IH, dget_ddel. repeat case_decide; try done; set_solver.
Qed.

Lemma failed_unchanged cp idx d e d' : save_index cp idx d = (Err e, d') → index_file d' = index_file d.
Proof. unfold save_index. destruct (write_index cp idx) as [bs [x|]]; by intros [= <- <-]. Qed.


(** A path outside the collection directory poisons the index: it is stored as
    an absolute path without complaint, and from then on loading the file fails as
    corrupt. *)
Theorem outside_path_poisons cp pre e post bs :
  Forall (entry_ok cp) pre → is_absolute e.2 = true → relative_to e.2 cp = None →
  N.of_nat (length (pre ++ e :: post)) <= _MAX_INDEX_ENTRIES →
  write_index cp (pre ++ e :: post) = (bs, None) →
  load_bytes cp bs = Err CorruptIDIndexError.
Proof.
  intros Hpre Habs Hout Hc Hw. unfold write_index in Hw.
  destruct (pack 4 _) as [h|] eqn:Hh; [|done]. apply pack_spec in Hh as [Hh Hv].
  destruct (write_entries cp (pre ++ e :: post)) as [b x] eqn:Hb. injection Hw as <- ->.
  unfold load_bytes, _read_u32. rewrite read_exact_app by (by rewrite Hh). rewrite length_app, Hh.
  destruct (N.eqb_spec (N.of_nat (4 + length b)) 0); [lia|].
  destruct (N.ltb_spec (N.of_nat (4 + length b)) _HEADER_SIZE) as [Hl|_]; [unfold _HEADER_SIZE in Hl; lia|].
  cbn [mbind result_bind]. rewrite Hv.
  destruct (N.ltb_spec _MAX_INDEX_ENTRIES (N.of_nat (length (pre ++ e :: post)))); [lia|].
  rewrite Nat2N.id. clear -Hpre Habs Hout Hb.
  revert b Hb. generalize (@nil (text * Path)) as acc.
  induction Hpre as [|e0 pre He0 Hpre IH]; intros acc b Hb; cbn [app length] in *.
  - apply write_entries_cons in Hb as (b1&b2&->&H1&_). rewrite (read_written_entry _ cp e) by done.
    unfold stored_path. rewrite Hout. unfold _safe_relative_path. by rewrite absolute_str.
  - apply write_entries_cons in Hb as (b1&b2&->&H1&H2). rewrite (read_written_entry _ cp e0) by done.
    apply entry_ok_stored in He0 as (rel&->&Hp&_). rewrite Hp. cbn [mbind result_bind]. by apply IH.
Qed.

(** ** Witnesses *)

Definition coll : Path := path_of (txt "/data/c").
Definition small : index := [(txt "id1", path_of (txt "/data/c/a/v1.json")); (txt "id2", path_of (txt "/data/c/v2.json"))].

Lemma small_entry_ok i rel : path_wf (path_of rel) → proot (path_of rel) = O → dotdot ∉ ptail (path_of rel) →
  entry_ok coll (i, path_join coll (path_of rel)).
Proof. intros. by exists (path_of rel). Qed.

Lemma small_good : good coll small.
Proof.
  split.
  - apply (bool_decide_unpack _). by vm_compute.
  - by vm_compute.
  - assert (∀ i rel ib pb, bool_decide (dotdot ∉ ptail (path_of rel)) = true → proot (path_of rel) = O →
      Utf8.encode i = Some ib → N.of_nat (length ib) < 65536 →
      Utf8.encode (stored_path coll (path_join coll (path_of rel))) = Some pb → N.of_nat (length pb) < 65536 →
      storable coll (i, path_join coll (path_of rel))) as H.
    { intros i rel ib pb Hdd Hr ?? ??. apply bool_decide_eq_true in Hdd.
      split; [apply small_entry_ok; [apply path_of_wf|done|done]|]. split; by eexists. }
    constructor; [|constructor; [|constructor]].
    + by eapply (H (txt "id1") (txt "a/v1.json")); vm_compute.
    + by eapply (H (txt "id2") (txt "v2.json")); vm_compute.
Qed.

Lemma save_load_roundtrip_witness :
  ∃ d', save_index coll small {| index_file := None; temp_file := None |} = (Ok (), d') ∧
    load_index coll d' = Ok small ∧ temp_file d' = None.
Proof. apply (save_load_roundtrip coll small), small_good. Defined.

Lemma torn_file_detected_witness :
  let bs := (write_index coll small).1 in
  length bs = 34%nat ∧ load_bytes coll (take 20 bs) = Err CorruptIDIndexError.
Proof.
  split; [by vm_compute|]. apply (torn_file_detected coll small); [apply small_good|by vm_compute|].
  apply (bool_decide_unpack _). by vm_compute.
Defined.


Lemma outside_path_poisons_witness :
  let idx := [(txt "id1", path_of (txt "/data/c/a/v1.json")); (txt "x", path_of (txt "/tmp/v.json"))] in
  ∃ d, save_index coll idx {| index_file := None; temp_file := None |} = (Ok (), d) ∧
    load_index coll d = Err CorruptIDIndexError.
Proof.
  intros idx. eexists. split; [by vm_compute|].
  apply (outside_path_poisons coll [(txt "id1", path_of (txt "/data/c/a/v1.json"))] (txt "x", path_of (txt "/tmp/v.json")) []).
  - constructor; [|constructor]. apply (small_entry_ok (txt "id1") (txt "a/v1.json")); [apply path_of_wf|done|].
    apply (bool_decide_unpack _). by vm_compute.
  - by vm_compute.
  - by vm_compute.
  - by vm_compute.
  - by vm_compute.
Defined.

(** ** Two writers of one temporary file

    [save_index] holds the manager's thread lock, [rebuild_from_vectors] the
    rebuild file lock, so the two can run at the same time; both write
    [id_index.bin.tmp].  Files are inodes: opening for writing truncates the inode
    the name is bound to, a rename moves the binding. *)

Record dir := {
  tmp_inode : option nat;
  index_inode : option nat;
  contents : gmap nat bytes;
}.

Inductive writer := Saver | Rebuilder.

(** Per writer: its open handle, and the bytes it has still to write. *)
Record race := { files : dir; handle : writer → option nat; pending : writer → bytes }.

#[export] Instance writer_eq_dec : EqDecision writer.
Proof. solve_decision. Defined.

Definition open_wb (f : dir) : nat * dir :=
  let i := match tmp_inode f with Some i => i | None => fresh (dom (contents f)) end in
  (i, {| tmp_inode := Some i; index_inode := index_inode f; contents := <[i := []]> (contents f) |}).

Definition append (i : nat) bs (f : dir) : dir :=
  {| tmp_inode := tmp_inode f; index_inode := index_inode f;
     contents := alter (λ old, old ++ bs) i (contents f) |}.

Definition rename_tmp (f : dir) : option dir :=
  i ← tmp_inode f;
  Some {| tmp_inode := None; index_inode := Some i; contents := contents f |}.

(** The steps of the two writers: open the temporary file, write everything, rename. *)
Inductive rstep : race → race → Prop :=
| rs_open w s : handle s w = None →
    rstep s {| files := (open_wb (files s)).2; pending := pending s;
               handle := λ w', if decide (w = w') then Some (open_wb (files s)).1 else handle s w' |}
| rs_write w s i : handle s w = Some i → pending s w ≠ [] →
    rstep s {| files := append i (pending s w) (files s); handle := handle s;
               pending := λ w', if decide (w = w') then [] else pending s w' |}
| rs_rename w s i f : handle s w = Some i → pending s w = [] → rename_tmp (files s) = Some f →
    rstep s {| files := f; handle := handle s; pending := pending s |}.

Definition load_dir cp (f : dir) : result error index :=
  match index_inode f with
  | None => Ok []
  | Some i => load_bytes cp (default [] (contents f !! i))
  end.

(** The temporary file is not exclusive: with a save and a rebuild in progress
    at the same time, each writing a complete valid index, there is an interleaving
    after which the published [id_index.bin] no longer loads. *)
Theorem shared_temp_race :
  let bs := (write_index coll small).1 in
  let start := {| files := {| tmp_inode := None; index_inode := Some 0%nat; contents := {[0%nat := bs]} |};
                  handle := λ _, None; pending := λ _, bs |} in
  load_dir coll (files start) = Ok small ∧
  ∃ s, rtc rstep start s ∧ load_dir coll (files s) = Err CorruptIDIndexError.
Proof.
  intros bs start. split; [by vm_compute|]. eexists. split.
  - eapply rtc_l; [apply (rs_open Saver); reflexivity|].
    eapply rtc_l; [eapply (rs_write Saver); [reflexivity|by vm_compute]|].
    eapply rtc_l; [apply (rs_open Rebuilder); reflexivity|].
    eapply rtc_l; [eapply (rs_rename Saver); [reflexivity|reflexivity|reflexivity]|]. apply rtc_refl.
  - vm_compute. reflexivity.
Qed.
End IdIndex.
