(* ===== verification/WriteLock.v ===== *)
(** * File-based write locks of the golden repositories

    src/src/code_indexer/global_repos/write_lock_manager.py.

    First the operations as atomic steps on the directory of lock files, then the
    interleaving of the create and write steps of [acquire] with an inspection. *)

From S2P Require Import Prelude.
From stdpp Require Import options.
Local Open Scope Z_scope.

Module WriteLock.

Definition DEFAULT_LOCK_TTL_SECONDS : Z := 3600.

(** ** Lock files *)

(** Values of the JSON fields: an integer or something [int()] and [os.kill] refuse. *)
Inductive int_field := IntValue (z : Z) | NotAnInt.
(** A non-empty [acquired_at]: a timestamp or a string [fromisoformat] refuses. *)
Inductive time_field := Timestamp (t : Q) | BadTimestamp.

Record metadata := {
  owner : option string;
  pid : option int_field;
  hostname : option string;
  acquired_at : option time_field;
  ttl_seconds : option int_field;
}.

(** The content of a lock file: JSON, or bytes that do not parse (an empty file included). *)
Inductive lock_content := Json (m : metadata) | Unparsable.

Abbreviation locks := (gmap string lock_content).

(** ** The machine an operation runs on *)

(** [os.kill(pid, 0)]. *)
Inductive probe := Signalled | ESRCH | OtherErrno.

Record host := {
  now : Q;
  local_hostname : string;
  getpid : Z;
  kill0 : Z → probe;
  (** whether removing a lock file succeeds *)
  can_unlink : bool;
}.

Definition _is_stale (h : host) (c : metadata) : bool :=
  let is_local := match hostname c with None => true | Some n => bool_decide (n = local_hostname h) end in
  let dead := match pid c with
              | Some (IntValue p) => match kill0 h p with ESRCH => true | _ => false end
              | _ => false
              end in
  let ttl := match ttl_seconds c with Some (IntValue z) => z | _ => DEFAULT_LOCK_TTL_SECONDS end in
  if is_local && dead then true
  else
    let expired := match acquired_at c with
                   | Some (Timestamp t) => Qltb (inject_Z ttl) (now h - t)
                   | _ => false
                   end in
    if expired then true
    else match pid c, acquired_at c with None, None => true | _, _ => false end.

Definition unlink (h : host) (alias : string) (s : locks) : locks :=
  if can_unlink h then delete alias s else s.

(** [True]: the lock was stale and removed, or gone. *)
Definition _evict_if_stale (h : host) (alias : string) (s : locks) : bool * locks :=
  match s !! alias with
  | None => (true, s)
  | Some Unparsable => (true, unlink h alias s)
  | Some (Json c) => if _is_stale h c then (true, unlink h alias s) else (false, s)
  end.

Definition new_metadata (h : host) (owner_name : string) (ttl : Z) : metadata :=
  {| owner := Some owner_name; pid := Some (IntValue (getpid h)); hostname := Some (local_hostname h);
     acquired_at := Some (Timestamp (now h)); ttl_seconds := Some (IntValue ttl) |}.

(** [intra_free]: whether the in-process guard of the alias is free. *)
Definition acquire (h : host) (intra_free : bool) (alias owner_name : string) (ttl : Z) (s : locks) :
    bool * locks :=
  if negb intra_free then (false, s)
  else
    let '(go, s1) := match s !! alias with
                     | Some _ => _evict_if_stale h alias s
                     | None => (true, s)
                     end in
    if negb go then (false, s1)
    else match s1 !! alias with
         | Some _ => (false, s1)
         | None => (true, <[alias := Json (new_metadata h owner_name ttl)]> s1)
         end.

Definition release (h : host) (alias owner_name : string) (s : locks) : bool * locks :=
  match s !! alias with
  | None => (true, s)
  | Some Unparsable => (true, s)
  | Some (Json c) =>
      if decide (default ""%string (owner c) = owner_name)
      then if can_unlink h then (true, delete alias s) else (false, s)
      else (false, s)
  end.

Definition is_locked (h : host) (alias : string) (s : locks) : bool * locks :=
  match s !! alias with
  | None => (false, s)
  | Some _ => let '(gone, s') := _evict_if_stale h alias s in (negb gone, s')
  end.

Definition get_lock_info (h : host) (alias : string) (s : locks) : option metadata * locks :=
  match s !! alias with
  | None | Some Unparsable => (None, s)
  | Some (Json c) => if _is_stale h c then (None, unlink h alias s) else (Some c, s)
  end.

(** ** Runs of operations by any number of processes on any number of hosts *)

Inductive op :=
| OpAcquire (intra_free : bool) (alias owner_name : string) (ttl : Z)
| OpRelease (alias owner_name : string)
| OpIsLocked (alias : string)
| OpInfo (alias : string).

(** The result of an operation, with the answer of a test for the lock. *)
Definition exec_op (h : host) (o : op) (s : locks) : bool * locks :=
  match o with
  | OpAcquire f a n t => acquire h f a n t s
  | OpRelease a n => release h a n s
  | OpIsLocked a => is_locked h a s
  | OpInfo a => let '(r, s') := get_lock_info h a s in (match r with Some _ => true | None => false end, s')
  end.

Definition run (ops : list (host * op)) (s : locks) : list bool * locks :=
  foldl (λ acc ho, let '(b, s') := exec_op ho.1 ho.2 acc.2 in (acc.1 ++ [b], s')) ([], s) ops.

Definition releases (alias owner_name : string) (o : op) : bool :=
  match o with OpRelease a n => bool_decide (a = alias ∧ n = owner_name) | _ => false end.

(** What an operation on the alias must answer while the lock is held. *)
Definition answer_while_held (alias : string) (o : op) (b : bool) : Prop :=
  match o with
  | OpAcquire _ a _ _ => a = alias → b = false
  | OpRelease a _ => a = alias → b = false
  | OpIsLocked a | OpInfo a => a = alias → b = true
  end.

Lemma evict_other h a a' s b s' : _evict_if_stale h a s = (b, s') → a' ≠ a → s' !! a' = s !! a'.
Proof.
  unfold _evict_if_stale, unlink. intros H Hne.
  destruct (s !! a) as [[c|]|]; [destruct (_is_stale h c)| |]; simplify_eq; try done;
    (destruct (can_unlink h); [by rewrite lookup_delete_ne|done]).
Qed.

Lemma exec_op_held h o s alias c :
  s !! alias = Some (Json c) → _is_stale h c = false →
  releases alias (default ""%string (owner c)) o = false →
  let '(b, s') := exec_op h o s in s' !! alias = Some (Json c) ∧ answer_while_held alias o b.
Proof.
  intros Hs Hf Hr. destruct o as [f a n t|a n|a|a]; cbn [exec_op answer_while_held].
  - unfold acquire. destruct f; cbn [negb]; [|done]. destruct (decide (a = alias)) as [->|Hne].
    + rewrite Hs. unfold _evict_if_stale. rewrite Hs, Hf. done.
    + destruct (match s !! a with Some _ => _evict_if_stale h a s | None => (true, s) end) as [go s1] eqn:E.
      assert (s1 !! alias = Some (Json c)) as Hs1.
      { destruct (s !! a); [|by simplify_eq]. by rewrite (evict_other _ _ _ _ _ _ E). }
      destruct go; [|done]. cbn [negb]. destruct (s1 !! a); [done|]. by rewrite lookup_insert_ne.
  - cbn in Hr. apply bool_decide_eq_false in Hr. unfold release. destruct (decide (a = alias)) as [->|Hne].
    + rewrite Hs. rewrite decide_False by naive_solver. done.
    + destruct (s !! a) as [[c'|]|]; [|done|done]. case_decide; [|done]. destruct (can_unlink h); [|done].
      by rewrite lookup_delete_ne.
  - unfold is_locked. destruct (decide (a = alias)) as [->|Hne].
    + rewrite Hs. unfold _evict_if_stale. by rewrite Hs, Hf.
    + destruct (s !! a); [|done]. destruct (_evict_if_stale h a s) as [g s'] eqn:E.
      by rewrite (evict_other _ _ _ _ _ _ E).
  - unfold get_lock_info, unlink. destruct (decide (a = alias)) as [->|Hne].
    + by rewrite Hs, Hf.
    + destruct (s !! a) as [[c'|]|]; [|done|done].
      destruct (_is_stale h c'); [destruct (can_unlink h)|]; by rewrite ?lookup_delete_ne.
Qed.

Lemma run_held ops s alias c :
  s !! alias = Some (Json c) →
  Forall (λ ho, _is_stale ho.1 c = false ∧ releases alias (default ""%string (owner c)) ho.2 = false) ops →
  (run ops s).2 !! alias = Some (Json c) ∧ Forall2 (λ ho b, answer_while_held alias ho.2 b) ops (run ops s).1.
Proof.
  intros Hs. induction ops as [|[h o] ops IH] using rev_ind; intros Hops; [split; [done|constructor]|].
  apply Forall_app in Hops as [Hops [[Hf Hr] _]%Forall_cons]. destruct (IH Hops) as [IH1 IH2].
  unfold run in *. rewrite foldl_app. cbn [foldl]. set (acc := foldl _ _ ops) in *. clearbody acc.
  pose proof (exec_op_held h o acc.2 alias c IH1 Hf Hr) as He. cbn [fst snd] in *.
  destruct (exec_op h o acc.2) as [b s']. destruct He as [? ?]. split; [done|].
  apply Forall2_app; [done|]. by repeat constructor.
Qed.

(** Freshness of a lock as seen from a host: its time to live has not elapsed and,
    seen from the host that took it, its process is alive. *)
Definition fresh_for (h0 h : host) (ttl : Z) : Prop :=
  (now h <= now h0 + inject_Z ttl)%Q ∧ (local_hostname h = local_hostname h0 → kill0 h (getpid h0) ≠ ESRCH).

Lemma new_not_stale h0 h n ttl : fresh_for h0 h ttl → _is_stale h (new_metadata h0 n ttl) = false.
Proof.
  intros [Ht Hp]. unfold _is_stale, new_metadata. cbn [hostname pid acquired_at ttl_seconds].
  rewrite (proj2 (Qltb_false _ _)) by lra.
  case_bool_decide as Hh; [|done]. destruct (kill0 h (getpid h0)) eqn:E; [done| |done].
  exfalso. by apply Hp.
Qed.

(** Mutual exclusion of the atomic operations.  After a successful [acquire],
    as long as no operation runs when the lock looks stale (time to live elapsed,
    or process dead on its own host) and its owner does not release it, however
    many operations run on whatever hosts: every other [acquire] of the alias is
    refused, a [release] in another name is refused, and inspections report the
    lock as held, with its owner. *)
Theorem write_lock_exclusive h0 f alias n ttl s s1 ops :
  acquire h0 f alias n ttl s = (true, s1) →
  Forall (λ ho, fresh_for h0 ho.1 ttl ∧ releases alias n ho.2 = false) ops →
  (run ops s1).2 !! alias = Some (Json (new_metadata h0 n ttl)) ∧
  Forall2 (λ ho b, answer_while_held alias ho.2 b) ops (run ops s1).1.
Proof.
  intros Ha Hops. apply run_held.
  - unfold acquire in Ha. destruct f; [|done]. cbn [negb] in Ha.
    destruct (match s !! alias with Some _ => _evict_if_stale h0 alias s | None => (true, s) end) as [go s2].
    destruct go; [|done]. cbn [negb] in Ha. destruct (s2 !! alias); [done|]. simplify_eq. by rewrite lookup_insert_eq.
  - eapply Forall_impl; [exact Hops|]. intros [h o] [Hf Hr]. split; [by apply new_not_stale|done].
Qed.

(** No lock is held for ever: once its time to live has elapsed, or its process
    is gone on the host that took it, the next [acquire] of the alias by anyone
    who may delete lock files succeeds. *)
Theorem stale_lock_reacquired h0 n ttl h alias n' ttl' s :
  s !! alias = Some (Json (new_metadata h0 n ttl)) → can_unlink h = true →
  ((now h0 + inject_Z ttl < now h)%Q ∨ (local_hostname h = local_hostname h0 ∧ kill0 h (getpid h0) = ESRCH)) →
  acquire h true alias n' ttl' s = (true, <[alias := Json (new_metadata h n' ttl')]> s).
Proof.
  intros Hs Hu Hst. unfold acquire. cbn [negb]. rewrite Hs. unfold _evict_if_stale. rewrite Hs.
  assert (_is_stale h (new_metadata h0 n ttl) = true) as ->.
  { unfold _is_stale, new_metadata. cbn [hostname pid acquired_at ttl_seconds].
    destruct Hst as [Ht|[Hh Hp]].
    - destruct (_ && _); [done|]. rewrite (proj2 (Qltb_true _ _)) by lra. done.
    - rewrite bool_decide_eq_true_2 by done. by rewrite Hp. }
  unfold unlink. rewrite Hu. cbn [negb]. rewrite lookup_delete_eq. by rewrite insert_delete_eq.
Qed.

Definition node (nm : string) (p : Z) (t : Q) (alive : bool) : host :=
  {| now := t; local_hostname := nm; getpid := p; kill0 := λ _, if alive then Signalled else ESRCH;
     can_unlink := true |}.

Lemma write_lock_exclusive_witness :
  let s1 := (acquire (node "a" 7 0 true) true "r" "svc" 60 ∅).2 in
  let ops := [(node "b" 9 30 true, OpAcquire true "r" "other" 60); (node "a" 7 60 true, OpIsLocked "r")]%string in
  (run ops s1).2 !! "r"%string = Some (Json (new_metadata (node "a" 7 0 true) "svc" 60)) ∧
  (run ops s1).1 = [false; true].
Proof.
  intros s1 ops. split; [|reflexivity].
  apply (write_lock_exclusive (node "a" 7 0 true) true "r" "svc" 60 ∅ s1 ops); [reflexivity|].
  repeat constructor; simpl; try lra; try done.
Defined.

Lemma stale_lock_reacquired_witness :
  let s := {["r"%string := Json (new_metadata (node "a" 7 0 true) "svc" 60)]} in
  (acquire (node "b" 9 61 true) true "r" "other" 60 s).1 = true.
Proof.
  intros s. rewrite (stale_lock_reacquired (node "a" 7 0 true) "svc" 60 (node "b" 9 61 true) "r" "other" 60 s);
    [reflexivity|reflexivity|reflexivity|]. left. reflexivity.
Defined.

(** ** [acquire] is two steps

    The file is created empty with O_CREAT|O_EXCL and the metadata is written
    through the descriptor afterwards; the in-process guard covers [acquire] only,
    not the inspections. *)

Inductive taker := Idle | Created (inode : nat) | Holds (inode : nat).

Record lockdir := {
  entry : option nat;
  inodes : gmap nat lock_content;
  takers : gmap nat taker;
}.

Inductive lstep (h : host) : lockdir → lockdir → Prop :=
| l_create p d : takers d !! p = Some Idle → entry d = None →
    let i := fresh (dom (inodes d)) in
    lstep h d {| entry := Some i; inodes := <[i := Unparsable]> (inodes d); takers := <[p := Created i]> (takers d) |}
| l_write p i m d : takers d !! p = Some (Created i) →
    lstep h d {| entry := entry d; inodes := <[i := Json m]> (inodes d); takers := <[p := Holds i]> (takers d) |}
| l_inspect i c d : entry d = Some i → inodes d !! i = Some c →
    (** [is_locked] or another process's [acquire] *)
    lstep h d {| entry := if (_evict_if_stale h "" {["" := c]}).1 then None else Some i;
                 inodes := inodes d; takers := takers d |}.

(** Two holders at once: an inspection between the create and the write of a
    first [acquire] takes the empty file for a corrupt lock and removes it; a
    second [acquire] then succeeds, and both callers hold the lock, well within
    its time to live and with both processes alive. *)
Theorem acquire_not_atomic :
  let h := node "a" 7 0 true in
  ∃ d i j, rtc (lstep h) {| entry := None; inodes := ∅; takers := {[1%nat := Idle; 2%nat := Idle]} |} d ∧
    takers d !! 1%nat = Some (Holds i) ∧ takers d !! 2%nat = Some (Holds j) ∧
    inodes d !! j = Some (Json (new_metadata h "second" 60)) ∧ _is_stale h (new_metadata h "first" 60) = false.
Proof.
  intros h. eexists _, _, _. split.
  - eapply rtc_l; [apply (l_create h 1%nat); reflexivity|].
    eapply rtc_l; [eapply (l_inspect h); reflexivity|].
    eapply rtc_l; [apply (l_create h 2%nat); reflexivity|].
    eapply rtc_l; [eapply (l_write h 1%nat _ (new_metadata h "first" 60)); reflexivity|].
    eapply rtc_l; [eapply (l_write h 2%nat _ (new_metadata h "second" 60)); reflexivity|]. apply rtc_refl.
  - split_and!; vm_compute; reflexivity.
Qed.
End WriteLock.
