(* ===== verification/TokenBucket.v ===== *)
(** * Token bucket rate limiting

    src/src/code_indexer/server/auth/token_bucket.py: the in-memory bucket, its
    PostgreSQL counterpart for cluster mode and the per-user manager.  Every clock
    reading of the code is an argument. *)

From S2P Require Import Prelude.
From stdpp Require Import options.
Local Open Scope Q_scope.

Module TokenBucket.

Definition _TOKEN_COST : Q := 1.

(** ** One bucket *)

Record bucket := { capacity : Q; tokens : Q; refill_rate : Q; last_refill : Q }.

Definition new (cap : Z) (rate now : Q) : bucket :=
  {| capacity := inject_Z cap; tokens := inject_Z cap; refill_rate := rate; last_refill := now |}.

Definition with_tokens (tk : Q) (b : bucket) : bucket :=
  {| capacity := capacity b; tokens := tk; refill_rate := refill_rate b; last_refill := last_refill b |}.

Definition _refill (now : Q) (b : bucket) : bucket :=
  let elapsed := pymax 0 (now - last_refill b) in
  if Qltb 0 elapsed then
    {| capacity := capacity b; tokens := pymin (capacity b) (tokens b + elapsed * refill_rate b);
       refill_rate := refill_rate b; last_refill := now |}
  else b.

(** Seconds until a token is available; [None] is [float("inf")]. *)
Definition retry_after (rate have : Q) : option Q :=
  let needed := pymax 0 (1 - have) in
  if Qltb 0 rate then Some (needed / rate) else None.

Definition consume (now : Q) (b : bucket) : bool * option Q * bucket :=
  let b1 := _refill now b in
  if Qle_bool 1 (tokens b1) then (true, Some 0, with_tokens (tokens b1 - 1) b1)
  else (false, retry_after (refill_rate b1) (tokens b1), b1).

Definition refund (now : Q) (b : bucket) : bucket :=
  let b1 := _refill now b in with_tokens (pymin (capacity b1) (tokens b1 + 1)) b1.

(** ** Cluster mode: one row per key *)

Record row := { r_tokens : Q; r_last_refill : Q; r_last_access : Q }.

Section pg.
Context (cap rate : Q).

(** [LEAST(capacity, tokens + GREATEST(0, now - last_refill) * refill_rate)]. *)
Definition refilled_expr (now : Q) (r : row) : Q :=
  pymin cap (r_tokens r + pymax 0 (now - r_last_refill r) * rate).

Definition _pg_ensure_row (now : Q) (r : option row) : row :=
  default {| r_tokens := cap; r_last_refill := now; r_last_access := now |} r.

(** The conditional UPDATE decides; the read after a denial only computes the hint. *)
Definition _pg_consume (now : Q) (r : option row) : bool * option Q * row :=
  let r1 := _pg_ensure_row now r in
  if Qle_bool _TOKEN_COST (refilled_expr now r1) then
    (true, Some 0, {| r_tokens := refilled_expr now r1 - _TOKEN_COST; r_last_refill := now; r_last_access := now |})
  else (false, retry_after rate (refilled_expr now r1), r1).

Definition _pg_refund (now : Q) (r : option row) : row :=
  let r1 := _pg_ensure_row now r in
  {| r_tokens := pymin cap (r_tokens r1 + _TOKEN_COST); r_last_refill := r_last_refill r1; r_last_access := now |}.
End pg.

(** ** The manager *)

Record manager := {
  m_capacity : Z;
  m_rate : Q;
  cleanup_seconds : Q;
  buckets : gmap string bucket;
  last_access : gmap string Q;
  (** the PostgreSQL table, when a connection pool is set *)
  pool : option (gmap string row);
}.

Definition set_mem (bs : gmap string bucket) (la : gmap string Q) (m : manager) : manager :=
  {| m_capacity := m_capacity m; m_rate := m_rate m; cleanup_seconds := cleanup_seconds m;
     buckets := bs; last_access := la; pool := pool m |}.

Definition set_pool (rows : gmap string row) (m : manager) : manager :=
  {| m_capacity := m_capacity m; m_rate := m_rate m; cleanup_seconds := cleanup_seconds m;
     buckets := buckets m; last_access := last_access m; pool := Some rows |}.

Definition _cleanup (now : Q) (m : manager) : manager :=
  let idle u := match last_access m !! u with Some ts => Qltb (cleanup_seconds m) (now - ts) | None => false end in
  set_mem (filter (λ ub, idle ub.1 = false) (buckets m)) (filter (λ ut, idle ut.1 = false) (last_access m)) m.

(** [t 0] is read when a bucket is created, [t 1] for the access time. *)
Definition _get_bucket (u : string) (t : nat → Q) (m : manager) : bucket * manager :=
  let b := default (new (m_capacity m) (m_rate m) (t 0%nat)) (buckets m !! u) in
  (b, set_mem (<[u := b]> (buckets m)) (<[u := t 1%nat]> (last_access m)) m).

(** The clock readings of one call, in order: clean-up, creation, access, refill, access. *)
Definition m_consume (u : string) (t : nat → Q) (m : manager) : bool * option Q * manager :=
  match pool m with
  | Some rows =>
      let '(ok, retry, r) := _pg_consume (inject_Z (m_capacity m)) (m_rate m) (t 0%nat) (rows !! u) in
      (ok, retry, set_pool (<[u := r]> rows) m)
  | None =>
      let m1 := _cleanup (t 0%nat) m in
      let '(b, m2) := _get_bucket u (λ i, t (1 + i)%nat) m1 in
      let '(ok, retry, b') := consume (t 3%nat) b in
      (ok, retry, set_mem (<[u := b']> (buckets m2)) (<[u := t 4%nat]> (last_access m2)) m2)
  end.

Definition m_refund (u : string) (t : nat → Q) (m : manager) : manager :=
  match pool m with
  | Some rows =>
      set_pool (<[u := _pg_refund (inject_Z (m_capacity m)) (t 0%nat) (rows !! u)]> rows) m
  | None =>
      let '(b, m1) := _get_bucket u t m in
      set_mem (<[u := refund (t 2%nat) b]> (buckets m1)) (<[u := t 3%nat]> (last_access m1)) m1
  end.

(** Reads the in-memory bucket, also when a pool is set. *)
Definition get_tokens (u : string) (t : nat → Q) (m : manager) : Q * manager :=
  let '(b, m1) := _get_bucket u t m in
  let '(ok, _, b1) := consume (t 2%nat) b in
  let b2 := if ok then refund (t 3%nat) b1 else b1 in
  (tokens b2, set_mem (<[u := b2]> (buckets m1)) (last_access m1) m1).

(** ** The bucket in closed form *)

(** Tokens available at time [t] if nothing happens in between. *)
Definition level (t : Q) (b : bucket) : Q := pymin (capacity b) (tokens b + (t - last_refill b) * refill_rate b).

Record inv (b : bucket) : Prop := {
  inv_capacity : 1 <= capacity b;
  inv_tokens : 0 <= tokens b <= capacity b;
  inv_rate : 0 <= refill_rate b;
}.

Lemma bucket_new_inv cap rate now : (1 <= cap)%Z → 0 <= rate → inv (new cap rate now).
Proof.
  intros Hc Hr. assert (1 <= inject_Z cap) by (change 1 with (inject_Z 1); by rewrite <-Zle_Qle).
  split; simpl; lra.
Qed.

Lemma refill_spec now b :
  inv b → last_refill b <= now →
  inv (_refill now b) ∧ last_refill (_refill now b) == now ∧ tokens (_refill now b) == level now b ∧
  capacity (_refill now b) = capacity b ∧ refill_rate (_refill now b) = refill_rate b.
Proof.
  intros [Hc Ht Hr] Hn. unfold _refill, level, pymax.
  destruct (Qltb_spec 0 (now - last_refill b)) as [Hlt|Hge].
  - rewrite (proj2 (Qltb_true _ _)) by lra. simpl. qminmax.
    assert (0 <= (now - last_refill b) * refill_rate b) by nra.
    split_and!; [split; simpl; [lra| |lra]|lra|lra|done|done].
    destruct Hmin as (?&?&[->| ->]); lra.
  - rewrite (proj2 (Qltb_false _ _)) by lra.
    assert (now - last_refill b == 0) as E by lra.
    assert ((now - last_refill b) * refill_rate b == 0) by (rewrite E; ring).
    split_and!; [by split|lra| |done|done]. unfold pymin. qcase; lra.
Qed.

(** Refilling in between does not change the level later on. *)
Lemma level_later b t0 t :
  inv b → last_refill b <= t0 → t0 <= t →
  pymin (capacity b) (level t0 b + (t - t0) * refill_rate b) == level t b.
Proof.
  intros [Hc Ht Hr] H0 H1. unfold level.
  assert (0 <= (t - t0) * refill_rate b) by nra.
  assert ((t - last_refill b) * refill_rate b ==
    (t0 - last_refill b) * refill_rate b + (t - t0) * refill_rate b) as E by ring.
  unfold pymin. repeat qcase; lra.
Qed.

(** ** Runs *)

Inductive call := Consume | Refund.

#[export] Instance call_eq_dec : EqDecision call.
Proof. solve_decision. Defined.

Definition step (c : call) (now : Q) (b : bucket) : option bool * bucket :=
  match c with
  | Consume => let '(ok, _, b') := consume now b in (Some ok, b')
  | Refund => (None, refund now b)
  end.

Fixpoint run (calls : list (call * Q)) (b : bucket) : list (option bool) * bucket :=
  match calls with
  | [] => ([], b)
  | (c, now) :: calls' =>
      let '(o, b1) := step c now b in
      let '(os, b2) := run calls' b1 in (o :: os, b2)
  end.

(** The clock of a run never goes back, and starts at or after [t0]. *)
Fixpoint clock_from (t0 : Q) (calls : list (call * Q)) : Prop :=
  match calls with [] => True | (_, t) :: calls' => t0 <= t ∧ clock_from t calls' end.

Fixpoint end_time (t0 : Q) (calls : list (call * Q)) : Q :=
  match calls with [] => t0 | (_, t) :: calls' => end_time t calls' end.

Definition granted (os : list (option bool)) : Q := inject_Z (Z.of_nat (length (filter (λ o, o = Some true) os))).
Definition refunds (calls : list (call * Q)) : Q :=
  inject_Z (Z.of_nat (length (filter (λ ct, ct.1 = Refund) calls))).

Lemma inject_S n : inject_Z (Z.of_nat (S n)) == 1 + inject_Z (Z.of_nat n).
Proof. rewrite Nat2Z.inj_succ. unfold Z.succ. rewrite inject_Z_plus. change (inject_Z 1) with 1. ring. Qed.

Lemma granted_cons o os : granted (o :: os) == (if decide (o = Some true) then 1 else 0) + granted os.
Proof. unfold granted. rewrite filter_cons. case_decide; [rewrite length_cons, inject_S|]; ring. Qed.

Lemma refunds_cons c calls : refunds (c :: calls) == (match c.1 with Refund => 1 | Consume => 0 end) + refunds calls.
Proof.
  unfold refunds. rewrite filter_cons. destruct c as [[|] t]; cbn [fst].
  - rewrite decide_False by done. ring.
  - rewrite decide_True, length_cons, inject_S by done. ring.
Qed.

Lemma step_spec c now b o b1 :
  inv b → last_refill b <= now → step c now b = (o, b1) →
  inv b1 ∧ last_refill b1 == now ∧ capacity b1 = capacity b ∧ refill_rate b1 = refill_rate b ∧
  match c with
  | Consume => o = Some (Qle_bool 1 (level now b)) ∧
               tokens b1 == level now b - (if Qle_bool 1 (level now b) then 1 else 0)
  | Refund => o = None ∧ tokens b1 == pymin (capacity b) (level now b + 1)
  end.
Proof.
  intros Hb Hn Hs. destruct (refill_spec now b Hb Hn) as ([Hc Ht Hr]&Hl&Htk&Hcap&Hrate).
  destruct c; cbn in Hs.
  - unfold consume in Hs. assert (Qle_bool 1 (tokens (_refill now b)) = Qle_bool 1 (level now b)) as E by (by rewrite Htk).
    rewrite E in Hs. destruct (Qle_bool_spec 1 (level now b)); injection Hs as <- <-; simpl.
    + split_and!; try done; [split; simpl; lra|lra].
    + split_and!; try done; lra.
  - injection Hs as <- <-. unfold refund. simpl. rewrite Hcap in *.
    assert (pymin (capacity b) (tokens (_refill now b) + 1) == pymin (capacity b) (level now b + 1)) as E.
    { unfold pymin. repeat qcase; lra. }
    split_and!; try done. split; simpl; rewrite ?Hcap; [lra| |lra]. qminmax.
    destruct Hmin as (?&?&[->| ->]); lra.
Qed.

(** C38: the rate bound: over any run of calls with a clock that does not go back, a
    bucket grants at most its initial tokens, plus what [refill_rate] produces in
    the elapsed time, plus the refunds; and its level stays between 0 and its
    capacity. *)
Theorem token_bucket_rate calls b t0 :
  inv b → last_refill b == t0 → clock_from t0 calls →
  let '(os, b') := run calls b in
  granted os <= tokens b + refill_rate b * (end_time t0 calls - t0) + refunds calls ∧
  0 <= tokens b' <= capacity b.
Proof.
  intros Hb Hl Hclk.
  assert (let '(os, b') := run calls b in inv b' ∧ capacity b' = capacity b ∧
    granted os + tokens b' <= tokens b + refill_rate b * (end_time t0 calls - t0) + refunds calls) as H.
  { revert b t0 Hb Hl Hclk. induction calls as [|[c now] calls IH]; intros b t0 Hb Hl Hclk; cbn [run end_time].
    { unfold granted, refunds. cbn. split_and!; [done|done|]. ring_simplify. lra. }
    destruct Hclk as [Hn Hclk]. destruct (step c now b) as [o b1] eqn:Es.
    destruct (step_spec c now b o b1 Hb) as (Hb1&Hl1&Hc1&Hr1&Ho); [lra|done|].
    specialize (IH b1 now Hb1 Hl1 Hclk). destruct (run calls b1) as [os b2]. destruct IH as (Hi&Hcap&Hsum).
    rewrite Hc1 in Hcap. rewrite Hr1 in Hsum. split_and!; [done|done|].
    rewrite granted_cons, refunds_cons. cbn [fst].
    assert (refill_rate b * (end_time now calls - t0) ==
      refill_rate b * (end_time now calls - now) + (now - last_refill b) * refill_rate b) as E by (rewrite Hl; ring). rewrite E. clear E.
    assert (level now b <= tokens b + (now - last_refill b) * refill_rate b) as Hlev.
    { unfold level. apply pymin_spec. }
    destruct c; destruct Ho as [-> Htk].
    - rewrite Htk in Hsum. destruct (Qle_bool_spec 1 (level now b)); case_decide; try done; lra.
    - case_decide; [done|]. pose proof (pymin_spec (capacity b) (level now b + 1)) as (_&Hm&_). lra. }
  destruct (run calls b) as [os b']. destruct H as ([Hc Ht Hr]&Hcap&Hsum). rewrite Hcap in Ht. lra.
Qed.

(** The retry hint is exact: when a request is denied with hint [r], a request
    after any further [d] seconds, with no other call in between, is granted if and
    only if [d >= r]; no hint is given exactly when the bucket never refills. *)
Theorem retry_after_exact b now retry b1 :
  inv b → last_refill b <= now → consume now b = (false, retry, b1) →
  match retry with
  | Some r => 0 < r ∧ ∀ d, 0 <= d → ((consume (now + d) b1).1.1 = true ↔ r <= d)
  | None => ∀ d, 0 <= d → (consume (now + d) b1).1.1 = false
  end.
Proof.
  intros Hb Hn Hc. pose proof Hb as [Hcap _ Hrate].
  destruct (refill_spec now b Hb Hn) as (Hi&Hl&Htk&Hcp&Hr). unfold consume in Hc.
  destruct (Qle_bool_spec 1 (tokens (_refill now b))) as [|Hlow]; [done|]. injection Hc as <- <-.
  set (b1 := _refill now b) in *.
  assert (∀ d, 0 <= d → (consume (now + d) b1).1.1 = true ↔ 1 <= tokens b1 + d * refill_rate b) as Hiff.
  { intros d Hd. destruct (refill_spec (now + d) b1 Hi) as (_&_&Hlev&_); [lra|]. unfold consume.
    assert (level (now + d) b1 == pymin (capacity b) (tokens b1 + d * refill_rate b)) as Hm.
    { unfold level. rewrite Hcp, Hr.
      assert ((now + d - last_refill b1) * refill_rate b == d * refill_rate b) as E by (rewrite Hl; ring).
      unfold pymin. repeat qcase; lra. }
    destruct (Qle_bool_spec 1 (tokens (_refill (now + d) b1))) as [H|H]; cbn; rewrite Hlev, Hm in H;
      revert H; unfold pymin; qcase; intros; split; intros; try done; lra. }
  unfold retry_after. rewrite Hr. destruct (Qltb_spec 0 (refill_rate b)) as [Hpos|Hzero].
  - unfold pymax. rewrite (proj2 (Qltb_true _ _)) by lra. split.
    + apply Qlt_shift_div_l; lra.
    + intros d Hd. rewrite Hiff by done. split; intros H.
      * apply Qle_shift_div_r; [done|]. lra.
      * assert (1 - tokens b1 <= d * refill_rate b); [|lra].
        assert (1 - tokens b1 == (1 - tokens b1) / refill_rate b * refill_rate b) as E by (field; lra).
        rewrite E. apply Qmult_le_compat_r; [done|lra].
  - intros d Hd. apply not_true_is_false. rewrite Hiff by done. nra.
Qed.

(** ** The PostgreSQL row simulates the bucket *)

Definition pg_step (cap rate : Q) (c : call) (now : Q) (r : option row) : option bool * row :=
  match c with
  | Consume => let '(ok, _, r') := _pg_consume cap rate now r in (Some ok, r')
  | Refund => (None, _pg_refund cap now r)
  end.

Fixpoint pg_run (cap rate : Q) (calls : list (call * Q)) (r : option row) : list (option bool) * option row :=
  match calls with
  | [] => ([], r)
  | (c, now) :: calls' =>
      let '(o, r1) := pg_step cap rate c now r in
      let '(os, r2) := pg_run cap rate calls' (Some r1) in (o :: os, r2)
  end.

(** The row and the bucket have the same level at all times from [t0] on. *)
Definition related (t0 : Q) (b : bucket) (r : row) : Prop :=
  inv b ∧ last_refill b <= t0 ∧ r_last_refill r <= t0 ∧
  ∀ t, t0 <= t → level t b == refilled_expr (capacity b) (refill_rate b) t r.

Lemma refilled_expr_eq cap rate now r : r_last_refill r <= now →
  refilled_expr cap rate now r == pymin cap (r_tokens r + (now - r_last_refill r) * rate).
Proof.
  intros. unfold refilled_expr, pymax. qcase; [done|].
  assert (now - r_last_refill r == 0) as E by lra.
  assert ((now - r_last_refill r) * rate == 0) by (rewrite E; ring). unfold pymin. repeat qcase; lra.
Qed.

Lemma related_step c now t0 b r : related t0 b r → t0 <= now →
  let '(o, b1) := step c now b in
  let '(o', r1) := pg_step (capacity b) (refill_rate b) c now (Some r) in
  o = o' ∧ related now b1 r1 ∧ capacity b1 = capacity b ∧ refill_rate b1 = refill_rate b.
Proof.
  intros (Hb&Hl&Hrl&Hlev) Hn. destruct (step c now b) as [o b1] eqn:Es.
  destruct (step_spec c now b o b1 Hb) as (Hb1&Hl1&Hc1&Hr1&Ho); [lra|done|].
  assert (∀ t, now <= t → level t b1 == pymin (capacity b) (tokens b1 + (t - now) * refill_rate b)) as Hb1lev.
  { intros t Ht. unfold level. rewrite Hc1, Hr1.
    assert ((t - last_refill b1) * refill_rate b == (t - now) * refill_rate b) as E by (rewrite Hl1; ring).
    unfold pymin. repeat qcase; lra. }
  pose proof (Hlev now Hn) as Hnow. pose proof Hb as [Hcap Htok Hrate].
  destruct c; cbn [pg_step]; unfold _pg_consume, _pg_refund;
    change (_pg_ensure_row (capacity b) now (Some r)) with r.
  - destruct Ho as [-> Htk]. unfold _TOKEN_COST.
    assert (Qle_bool 1 (refilled_expr (capacity b) (refill_rate b) now r) = Qle_bool 1 (level now b)) as -> by (by rewrite Hnow).
    destruct (Qle_bool_spec 1 (level now b)) as [H1|H1]; (split; [done|]); (split; [|done]); unfold related.
    + split_and!; [done|lra|simpl; lra|]. intros t Ht. rewrite Hb1lev by done. rewrite Hc1, Hr1, refilled_expr_eq by done.
      cbn [r_tokens r_last_refill]. unfold pymin. repeat qcase; lra.
    + split_and!; [done|lra|lra|]. intros t Ht. rewrite Hb1lev by done. rewrite Hc1, Hr1, <-Hlev by lra.
      rewrite <-(level_later b now t Hb) by lra. unfold pymin. repeat qcase; lra.
  - destruct Ho as [-> Htk]. split; [done|]. split; [|done]. unfold related. split_and!; [done|lra|simpl; lra|].
    intros t Ht. rewrite Hb1lev by done. rewrite Hc1, Hr1, refilled_expr_eq by (simpl; lra).
    cbn [r_tokens r_last_refill]. pose proof (Hlev t ltac:(lra)) as Hlt.
    rewrite <-(level_later b now t Hb) in Hlt by lra. rewrite refilled_expr_eq in Hlt by lra.
    unfold _TOKEN_COST. assert (0 <= (t - now) * refill_rate b) by nra.
    assert (0 <= (now - r_last_refill r) * refill_rate b) by nra.
    assert ((t - r_last_refill r) * refill_rate b ==
      (now - r_last_refill r) * refill_rate b + (t - now) * refill_rate b) as E by ring.
    rewrite refilled_expr_eq in Hnow by lra.
    set (x := (t - r_last_refill r) * refill_rate b) in *. set (y := (now - r_last_refill r) * refill_rate b) in *.
    set (z := (t - now) * refill_rate b) in *. set (lv := level now b) in *. clearbody x y z lv.
    revert Htk Hlt Hnow. unfold pymin. repeat qcase; intros; lra.
Qed.

(** Cluster mode limits exactly as standalone mode: for every sequence of
    consume and refund calls on a key, with a clock that does not go back, the
    PostgreSQL row (created on first use) and a bucket created at the same moment
    grant and deny the same requests. *)
Theorem pg_matches_memory cap rate calls t0 :
  (1 <= cap)%Z → 0 <= rate → clock_from t0 calls →
  (pg_run (inject_Z cap) rate calls None).1 = (run calls (new cap rate t0)).1.
Proof.
  intros Hc Hr Hclk.
  assert (∀ b r t0, related t0 b r → clock_from t0 calls →
    (pg_run (capacity b) (refill_rate b) calls (Some r)).1 = (run calls b).1) as Hgen.
  { clear t0 Hclk. induction calls as [|[c now] calls IH]; intros b r t0 Hrel Hclk; [done|].
    destruct Hclk as [Hn Hclk]. cbn [run pg_run]. pose proof (related_step c now t0 b r Hrel Hn) as Hs.
    destruct (step c now b) as [o b1], (pg_step _ _ c now (Some r)) as [o' r1].
    destruct Hs as (->&Hrel1&Hcap&Hrate). specialize (IH b1 r1 now Hrel1 Hclk). rewrite Hcap, Hrate in IH.
    destruct (pg_run _ _ calls _) as [os ?], (run calls b1) as [os' ?]. simpl in *. by f_equal. }
  destruct calls as [|[c now] calls]; [done|].
  assert (pg_run (inject_Z cap) rate ((c, now) :: calls) None =
    pg_run (inject_Z cap) rate ((c, now) :: calls)
      (Some {| r_tokens := inject_Z cap; r_last_refill := now; r_last_access := now |})) as -> by done.
  apply (Hgen (new cap rate t0) _ now).
  - split_and!; [by apply bucket_new_inv|by destruct Hclk|simpl; lra|]. destruct Hclk as [Hn _].
    intros t Ht. rewrite refilled_expr_eq by done. unfold level. simpl.
    assert (0 <= (t - t0) * rate) by nra. assert (0 <= (t - now) * rate) by nra.
    unfold pymin. repeat qcase; lra.
  - destruct Hclk as [_ Hclk]. cbn. split; [lra|done].
Qed.

(** ** Witnesses *)

Lemma token_bucket_rate_witness :
  let calls := [(Consume, 0); (Consume, 1); (Refund, 2); (Consume, 8)] in
  let '(os, b') := run calls (new 2 (1 # 6) 0) in
  granted os <= 2 + (1 # 6) * (8 - 0) + 1 ∧ 0 <= tokens b' <= 2.
Proof.
  apply (token_bucket_rate [(Consume, 0); (Consume, 1); (Refund, 2); (Consume, 8)] (new 2 (1 # 6) 0) 0).
  - by apply bucket_new_inv.
  - simpl. lra.
  - simpl. lra.
Defined.

Lemma retry_after_exact_witness :
  let b := with_tokens (1 # 2) (new 2 (1 # 6) 0) in
  ∃ r b1, consume 0 b = (false, Some r, b1) ∧ 0 < r ∧ ∀ d, 0 <= d → ((consume (0 + d) b1).1.1 = true ↔ r <= d).
Proof.
  intros b. eexists _, _. split; [reflexivity|].
  refine (retry_after_exact b 0 _ _ _ _ eq_refl); [split; [|split|]; by vm_compute|by vm_compute].
Defined.

Lemma pg_matches_memory_witness :
  (pg_run 2 (1 # 6) [(Consume, 1); (Consume, 1); (Consume, 3)] None).1 =
  (run [(Consume, 1); (Consume, 1); (Consume, 3)] (new 2 (1 # 6) 0)).1.
Proof. apply (pg_matches_memory 2); [lia|lra|simpl; lra]. Defined.
End TokenBucket.
