(* ===== verification/AuthLockout.v ===== *)
(** * Account lockout and MFA challenges

    - [LoginRateLimiter]: src/src/code_indexer/server/auth/login_rate_limiter.py
    - [MfaChallenge]: src/src/code_indexer/server/auth/mfa_challenge.py

    Both keep their state in memory or, in cluster mode, in PostgreSQL tables. *)

From S2P Require Import Prelude.
From stdpp Require Import options.
Local Open Scope Q_scope.

Module LoginRateLimiter.

Record config := {
  max_attempts : Z;
  lockout_duration_seconds : Q;
  window_seconds : Q;
  enabled : bool;
}.

Definition default_config : config :=
  {| max_attempts := 5; lockout_duration_seconds := 15 * 60; window_seconds := 15 * 60; enabled := true |}.

Definition in_window (cfg : config) (now ts : Q) : bool := Qltb (now - window_seconds cfg) ts.

(** ** In-memory state *)

Record memory := { failures : gmap string (list Q); lockout_until : gmap string Q }.

Definition mem_init : memory := {| failures := ∅; lockout_until := ∅ |}.

Definition mem_check_locked (now : Q) (u : string) (s : memory) : (bool * Q) * memory :=
  match lockout_until s !! u with
  | None => ((false, 0), s)
  | Some l =>
      if Qltb now l then ((true, l - now), s)
      else ((false, 0), {| failures := delete u (failures s); lockout_until := delete u (lockout_until s) |})
  end.

Definition _prune_old_failures (cfg : config) (now : Q) (u : string) (s : memory) : memory :=
  {| failures := alter (filter (λ ts, in_window cfg now ts = true)) u (failures s);
     lockout_until := lockout_until s |}.

Definition mem_record_failure (cfg : config) (now : Q) (u : string) (s : memory) : (bool * Q) * memory :=
  let s1 := _prune_old_failures cfg now u s in
  let fs := default [] (failures s1 !! u) ++ [now] in
  let s2 := {| failures := <[u := fs]> (failures s1); lockout_until := lockout_until s1 |} in
  if (max_attempts cfg <=? Z.of_nat (length fs))%Z then
    ((true, lockout_duration_seconds cfg),
     {| failures := failures s2; lockout_until := <[u := now + lockout_duration_seconds cfg]> (lockout_until s2) |})
  else ((false, 0), s2).

Definition mem_record_success (u : string) (s : memory) : memory :=
  {| failures := delete u (failures s); lockout_until := delete u (lockout_until s) |}.

(** ** Cluster state: the tables login_failures and login_lockouts *)

Record tables := { login_failures : list (string * Q); login_lockouts : gmap string Q }.

Definition pg_init : tables := {| login_failures := []; login_lockouts := ∅ |}.

Definition _pg_check_locked (now : Q) (u : string) (s : tables) : (bool * Q) * tables :=
  match login_lockouts s !! u with
  | Some l => if Qltb now l then ((true, l - now), s) else ((false, 0), s)
  | None => ((false, 0), s)
  end.

Definition _pg_record_failure (cfg : config) (now : Q) (u : string) (s : tables) : (bool * Q) * tables :=
  let rows := login_failures s ++ [(u, now)] in
  let count := length (filter (λ ut, ut.1 = u ∧ in_window cfg now ut.2 = true) rows) in
  if (max_attempts cfg <=? Z.of_nat count)%Z then
    ((true, lockout_duration_seconds cfg),
     {| login_failures := rows; login_lockouts := <[u := now + lockout_duration_seconds cfg]> (login_lockouts s) |})
  else ((false, 0), {| login_failures := rows; login_lockouts := login_lockouts s |}).

Definition _pg_record_success (u : string) (s : tables) : tables :=
  {| login_failures := filter (λ ut, ut.1 ≠ u) (login_failures s); login_lockouts := delete u (login_lockouts s) |}.

(** ** What the limiter needs from its store *)

(** The three helpers, two observations of the state, and the laws the limiter's
    theorems rest on; memory and PostgreSQL are the two instances. *)
Class LockoutStore (cfg : config) (S : Type) := {
  ls_init : S;
  ls_check : Q → string → S → (bool * Q) * S;
  ls_fail : Q → string → S → (bool * Q) * S;
  ls_success : string → S → S;
  ls_until : string → S → option Q;
  ls_failures : string → S → list Q;
  ls_init_spec u : ls_until u ls_init = None ∧ ls_failures u ls_init = [];
  ls_check_locked now u s l : ls_until u s = Some l → now < l → ls_check now u s = ((true, l - now), s);
  ls_check_free now u s : (∀ l, ls_until u s = Some l → l <= now) →
    ∃ s', ls_check now u s = ((false, 0), s') ∧
      (ls_until u s' = ls_until u s ∨ ls_until u s' = None) ∧
      (ls_failures u s' = ls_failures u s ∨ ls_failures u s' = []);
  ls_check_other now u v s : u ≠ v →
    let s' := (ls_check now u s).2 in ls_until v s' = ls_until v s ∧ ls_failures v s' = ls_failures v s;
  ls_fail_spec now u s :
    let recent := filter (λ ts, in_window cfg now ts = true) (ls_failures u s ++ [now]) in
    let lock := (max_attempts cfg <=? Z.of_nat (length recent))%Z in
    (ls_fail now u s).1 = (if lock then (true, lockout_duration_seconds cfg) else (false, 0)) ∧
    ls_until u (ls_fail now u s).2 = (if lock then Some (now + lockout_duration_seconds cfg) else ls_until u s) ∧
    ls_failures u (ls_fail now u s).2 `sublist_of` ls_failures u s ++ [now];
  ls_fail_other now u v s : u ≠ v →
    let s' := (ls_fail now u s).2 in ls_until v s' = ls_until v s ∧ ls_failures v s' = ls_failures v s;
  ls_success_spec u s : ls_until u (ls_success u s) = None ∧ ls_failures u (ls_success u s) = [];
  ls_success_other u v s : u ≠ v →
    ls_until v (ls_success u s) = ls_until v s ∧ ls_failures v (ls_success u s) = ls_failures v s;
}.

(** ** The limiter over either store *)

Inductive audit := FailureAudit (u : string) | LockoutAudit (u : string).

Section limiter.
Context (cfg : config) {S : Type} `{LockoutStore cfg S}.
Implicit Types (s : S) (u v : string).

Definition is_locked (now : Q) u s : (bool * Q) * S :=
  if enabled cfg then ls_check now u s else ((false, 0), s).

(** [t0]: the clock when the lock is checked, [t1]: when the failure is recorded. *)
Definition check_and_record_failure (t0 t1 : Q) u s : (bool * Q) * list audit * S :=
  if enabled cfg then
    let '((locked, remaining), s1) := ls_check t0 u s in
    if locked then ((true, remaining), [FailureAudit u], s1)
    else
      let '((locked', remaining'), s2) := ls_fail t1 u s1 in
      ((locked', remaining'), FailureAudit u :: (if locked' then [LockoutAudit u] else []), s2)
  else ((false, 0), [], s).

Definition record_success u s : S := if enabled cfg then ls_success u s else s.

Inductive op := Check (t : Q) (u : string) | Failed (t0 t1 : Q) (u : string) | Success (u : string).

Definition exec (o : op) s : option (bool * Q) * S :=
  match o with
  | Check t u => let '(r, s') := is_locked t u s in (Some r, s')
  | Failed t0 t1 u => let '(r, _, s') := check_and_record_failure t0 t1 u s in (Some r, s')
  | Success u => (None, record_success u s)
  end.

Definition run (ops : list op) s : list (option (bool * Q)) * S :=
  foldl (λ acc o, let '(r, s') := exec o acc.2 in (acc.1 ++ [r], s')) ([], s) ops.

(** The operation happens before [l] and is not a success of [u]. *)
Definition before (l : Q) u (o : op) : Prop :=
  match o with
  | Check t v => v = u → t < l
  | Failed t0 _ v => v = u → t0 < l
  | Success v => v ≠ u
  end.

(** While locked until [l], every answer about [u] is "locked, for so long". *)
Definition answers_locked (l : Q) u (o : op) (r : option (bool * Q)) : Prop :=
  match o with
  | Check t v => v = u → r = Some (true, l - t)
  | Failed t0 _ v => v = u → r = Some (true, l - t0)
  | Success _ => True
  end.

Lemma exec_locked l u o s :
  enabled cfg = true → ls_until u s = Some l → before l u o →
  let '(r, s') := exec o s in ls_until u s' = Some l ∧ answers_locked l u o r.
Proof.
  intros He Hu Hb. destruct o as [t v|t0 t1 v|v]; cbn [exec before answers_locked] in *.
  - unfold is_locked. rewrite He. destruct (decide (v = u)) as [->|Hne].
    + rewrite (ls_check_locked t u s l) by auto. done.
    + pose proof (ls_check_other t v u s Hne) as [H1 _]. destruct (ls_check t v s) as [r s']. cbn in *.
      split; [congruence|done].
  - unfold check_and_record_failure. rewrite He. destruct (decide (v = u)) as [->|Hne].
    + rewrite (ls_check_locked t0 u s l) by auto. done.
    + pose proof (ls_check_other t0 v u s Hne) as [H1 _]. destruct (ls_check t0 v s) as [[b r] s1]. cbn in *.
      destruct b; [split; [congruence|done]|].
      pose proof (ls_fail_other t1 v u s1 Hne) as [H2 _]. destruct (ls_fail t1 v s1) as [[b' r'] s2]. cbn in *.
      split; [congruence|done].
  - unfold record_success. rewrite He. split; [|done]. by rewrite (proj1 (ls_success_other v u s Hb)).
Qed.

(** A lockout holds: once an account is locked until [l], then whatever happens
    to other accounts and however often this one is tried before [l], without a
    recorded success every check and every attempt answers locked, with exactly the
    time remaining to [l], and attempts neither extend nor shorten it.  In memory
    and in PostgreSQL. *)
Theorem lockout_holds ops s l u :
  enabled cfg = true → ls_until u s = Some l → Forall (before l u) ops →
  ls_until u (run ops s).2 = Some l ∧ Forall2 (answers_locked l u) ops (run ops s).1.
Proof.
  intros He Hu. induction ops as [|o ops IH] using rev_ind; intros Hops; [split; [done|constructor]|].
  apply Forall_app in Hops as [Hops [Ho _]%Forall_cons]. destruct (IH Hops) as [IH1 IH2].
  unfold run in *. rewrite foldl_app. cbn [foldl]. set (acc := foldl _ _ ops) in *. clearbody acc.
  pose proof (exec_locked l u o acc.2 He IH1 Ho) as Hx. destruct (exec o acc.2) as [r s'].
  destruct Hx as [? ?]. split; [done|]. apply Forall2_app; [done|]. by repeat constructor.
Qed.

(** The times of the failed attempts of [u] since its last success. *)
Fixpoint fail_times u (acc : list Q) (ops : list op) : list Q :=
  match ops with
  | [] => acc
  | Failed _ t1 v :: ops' => fail_times u (if decide (v = u) then acc ++ [t1] else acc) ops'
  | Success v :: ops' => fail_times u (if decide (v = u) then [] else acc) ops'
  | Check _ _ :: ops' => fail_times u acc ops'
  end.

(** [l] was set by a failure at some time [now] that ended a series of at least
    [max_attempts] failures, all within the window. *)
Definition justified (l : Q) (fs : list Q) : Prop :=
  ∃ now recent, l = now + lockout_duration_seconds cfg ∧ recent `sublist_of` fs ∧
    (max_attempts cfg <= Z.of_nat (length recent))%Z ∧
    Forall (λ ts, now - window_seconds cfg < ts) recent.

Lemma justified_mono l fs fs' : justified l fs → fs `sublist_of` fs' → justified l fs'.
Proof. intros (now&rc&?&?&?&?) ?. exists now, rc. split_and!; try done. by etrans. Qed.

Definition state_ok u (fs : list Q) s : Prop :=
  ls_failures u s `sublist_of` fs ∧ ∀ l, ls_until u s = Some l → justified l fs.

Lemma check_ok t u v fs s :
  state_ok u fs s → state_ok u fs (ls_check t v s).2 ∧
  (v = u → (ls_check t v s).1.1 = false → ∀ l, ls_until u s = Some l → l <= t).
Proof.
  intros [Hf Hl]. destruct (decide (v = u)) as [->|Hne].
  - destruct (ls_until u s) as [l|] eqn:El.
    + destruct (Qlt_le_dec t l) as [Hlt|Hge].
      * rewrite (ls_check_locked t u s l El Hlt). cbn. split; [split; [done|]|done].
        intros l'. rewrite El. auto.
      * destruct (ls_check_free t u s) as (s'&->&Hu&Hfs); [by intros l' [= <-]%(eq_trans (eq_sym El))|].
        cbn. split; [|by intros _ _ l' [= <-]]. split.
        -- destruct Hfs as [->| ->]; [done|apply sublist_nil_l].
        -- intros l' Hl'. destruct Hu as [Hu|Hu]; rewrite Hu in Hl'; [|done]. rewrite El in Hl'. auto.
    + destruct (ls_check_free t u s) as (s'&->&Hu&Hfs); [by intros l' ?%(eq_trans (eq_sym El))|].
      cbn. split; [|done]. split.
      * destruct Hfs as [->| ->]; [done|apply sublist_nil_l].
      * intros l' Hl'. destruct Hu as [Hu|Hu]; rewrite Hu in Hl'; congruence.
  - pose proof (ls_check_other t v u s Hne) as [H1 H2]. split; [|done]. split; [by rewrite H2|].
    rewrite H1. done.
Qed.

Lemma fail_ok t u v fs s :
  state_ok u fs s → state_ok u (if decide (v = u) then fs ++ [t] else fs) (ls_fail t v s).2.
Proof.
  intros [Hf Hl]. destruct (decide (v = u)) as [->|Hne].
  - destruct (ls_fail_spec t u s) as (_&Hu&Hs).
    assert (ls_failures u s ++ [t] `sublist_of` fs ++ [t]) as Hsub by by apply sublist_app.
    split; [by etrans|]. intros l. rewrite Hu. destruct (Z.leb_spec (max_attempts cfg)
      (Z.of_nat (length (filter (λ ts, in_window cfg t ts = true) (ls_failures u s ++ [t]))))) as [Hmax|_].
    + intros [= <-]. eexists t, _. split_and!; [done| |exact Hmax|].
      * etrans; [apply sublist_filter|done].
      * apply Forall_forall. intros ts [Hw _]%list_elem_of_filter. by apply Qltb_true.
    + intros Hlk. eapply justified_mono; [by apply Hl|]. by apply sublist_inserts_r.
  - pose proof (ls_fail_other t v u s Hne) as [H1 H2]. split; [by rewrite H2|]. by rewrite H1.
Qed.

Lemma run_ok u ops : enabled cfg = true → state_ok u (fail_times u [] ops) (run ops ls_init).2.
Proof.
  intros He.
  assert (∀ ops fs s, state_ok u fs s → state_ok u (fail_times u fs ops) (foldl (λ s o, (exec o s).2) s ops)) as Hgen.
  { clear ops. induction ops as [|o ops IH]; intros fs s Hs; [done|]. cbn [foldl].
    destruct o as [t v|t0 t1 v|v]; cbn [fail_times]; apply IH; cbn [exec].
    - unfold is_locked. rewrite He. destruct (ls_check t v s) as [r s'] eqn:E. cbn.
      replace s' with (ls_check t v s).2 by (by rewrite E). by apply check_ok.
    - unfold check_and_record_failure. rewrite He. destruct (ls_check t0 v s) as [[b r] s1] eqn:E.
      assert (state_ok u fs s1) as Hs1 by (replace s1 with (ls_check t0 v s).2 by (by rewrite E); by apply check_ok).
      destruct b; cbn.
      + destruct Hs1 as [H1 H2]. case_decide; [|done].
        split; [by apply sublist_inserts_r|]. intros l Hl. eapply justified_mono; [by apply H2|]. by apply sublist_inserts_r.
      + pose proof (fail_ok t1 u v fs s1 Hs1) as Hs2. destruct (ls_fail t1 v s1) as [[b' r'] s2]. done.
    - unfold record_success. rewrite He. destruct (decide (v = u)) as [->|Hne].
      + destruct (ls_success_spec u s) as [H1 H2]. split; cbn; [by rewrite H2|]. by rewrite H1.
      + destruct (ls_success_other v u s) as [H1 H2]; [done|]. destruct Hs as [H3 H4].
        split; cbn; [by rewrite H2|]. by rewrite H1. }
  assert (∀ ops acc, (foldl (λ acc o, let '(r, s') := exec o acc.2 in (acc.1 ++ [r], s')) acc ops).2 =
    foldl (λ s o, (exec o s).2) acc.2 ops) as Hsnd.
  { clear. induction ops as [|o ops IH]; intros acc; [done|]. cbn [foldl]. rewrite IH.
    by destruct (exec o acc.2). }
  unfold run. rewrite Hsnd. apply Hgen. destruct (ls_init_spec u) as [H1 H2]. split; cbn; [by rewrite H2|].
  rewrite H1. done.
Qed.

(** No lockout without cause: in every run from the initial state an account is
    locked only if at least [max_attempts] failed attempts on it, since its last
    success, fall within one window before the lock was set, and the lock ends one
    lockout duration after it was set.  In memory and in PostgreSQL. *)
Theorem lockout_justified ops u l :
  enabled cfg = true → ls_until u (run ops ls_init).2 = Some l → justified l (fail_times u [] ops).
Proof. intros He Hl. by apply (run_ok u ops He). Qed.
End limiter.

(** ** The two stores *)

Section instances.
Context (cfg : config).
(** The window is not empty: a failure counts at the moment it is recorded. *)
Hypothesis Hwindow : 0 < window_seconds cfg.

Lemma now_in_window now : in_window cfg now now = true.
Proof using Hwindow. unfold in_window. apply Qltb_true. lra. Qed.

Lemma recent_snoc now l :
  filter (λ ts, in_window cfg now ts = true) (l ++ [now]) = filter (λ ts, in_window cfg now ts = true) l ++ [now].
Proof using Hwindow.
  rewrite filter_app, filter_cons_True; [done|]. apply now_in_window.
Qed.

#[export] Program Instance memory_store : LockoutStore cfg memory := {
  ls_init := mem_init;
  ls_check := mem_check_locked;
  ls_fail := mem_record_failure cfg;
  ls_success := mem_record_success;
  ls_until := λ u s, lockout_until s !! u;
  ls_failures := λ u s, default [] (failures s !! u);
}.
Next Obligation. intros u. done. Qed.
Next Obligation. intros now u s l Hl Hlt. unfold mem_check_locked. rewrite Hl. by rewrite (proj2 (Qltb_true _ _)). Qed.
Next Obligation.
  intros now u s Hl. unfold mem_check_locked. destruct (lockout_until s !! u) as [l|] eqn:E.
  - rewrite (proj2 (Qltb_false _ _)) by auto. eexists. split; [done|]. cbn.
    rewrite !lookup_delete_eq. auto.
  - eauto 6.
Qed.
Next Obligation.
  intros now u v s Hne. unfold mem_check_locked. cbn. destruct (lockout_until s !! u); [|done].
  destruct (Qltb _ _); cbn; [done|]. by rewrite !lookup_delete_ne.
Qed.
Next Obligation.
  intros now u s. unfold mem_record_failure, _prune_old_failures. cbn.
  rewrite recent_snoc, lookup_alter_eq.
  assert (default [] (filter (λ ts, in_window cfg now ts = true) <$> failures s !! u) =
    filter (λ ts, in_window cfg now ts = true) (default [] (failures s !! u))) as E by by destruct (failures s !! u).
  rewrite E. destruct (_ <=? _)%Z; cbn; rewrite !lookup_insert_eq; cbn;
    (split_and!; [done|done|]); apply sublist_app; [apply sublist_filter|done|apply sublist_filter|done].
Qed.
Next Obligation.
  intros now u v s Hne. unfold mem_record_failure, _prune_old_failures. cbn.
  destruct (_ <=? _)%Z; cbn; rewrite ?lookup_insert_ne, ?lookup_alter_ne by done; done.
Qed.
Next Obligation. intros u s. cbn. by rewrite !lookup_delete_eq. Qed.
Next Obligation. intros u v s Hne. cbn. by rewrite !lookup_delete_ne. Qed.

Definition user_failures (u : string) (rows : list (string * Q)) : list Q := (filter (λ ut, ut.1 = u) rows).*2.

Lemma user_failures_snoc u v t rows :
  user_failures u (rows ++ [(v, t)]) = if decide (v = u) then user_failures u rows ++ [t] else user_failures u rows.
Proof.
  unfold user_failures. rewrite filter_app, filter_cons, filter_nil. cbn.
  case_decide; [by rewrite fmap_app|]. by rewrite app_nil_r.
Qed.

Lemma count_user now u rows :
  length (filter (λ ut, ut.1 = u ∧ in_window cfg now ut.2 = true) rows) =
  length (filter (λ ts, in_window cfg now ts = true) (user_failures u rows)).
Proof.
  unfold user_failures. induction rows as [|[v t] rows IH]; [done|]. rewrite !filter_cons. cbn.
  destruct (decide (v = u)) as [->|Hne].
  - rewrite fmap_cons, filter_cons. cbn. repeat case_decide; cbn; try tauto; by rewrite IH.
  - rewrite decide_False by naive_solver. apply IH.
Qed.

#[export] Program Instance postgres_store : LockoutStore cfg tables := {
  ls_init := pg_init;
  ls_check := _pg_check_locked;
  ls_fail := _pg_record_failure cfg;
  ls_success := _pg_record_success;
  ls_until := λ u s, login_lockouts s !! u;
  ls_failures := λ u s, user_failures u (login_failures s);
}.
Next Obligation. intros u. done. Qed.
Next Obligation. intros now u s l Hl Hlt. unfold _pg_check_locked. rewrite Hl. by rewrite (proj2 (Qltb_true _ _)). Qed.
Next Obligation.
  intros now u s Hl. unfold _pg_check_locked. destruct (login_lockouts s !! u) as [l|] eqn:E.
  - rewrite (proj2 (Qltb_false _ _)) by auto. eauto 6.
  - eauto 6.
Qed.
Next Obligation.
  intros now u v s Hne. unfold _pg_check_locked. cbn. destruct (login_lockouts s !! u); [|done]. by destruct (Qltb _ _).
Qed.
Next Obligation.
  intros now u s. unfold _pg_record_failure. cbn zeta. rewrite count_user, user_failures_snoc, decide_True by done.
  destruct (_ <=? _)%Z; cbn [fst snd login_failures login_lockouts];
    rewrite ?lookup_insert_eq, user_failures_snoc, decide_True by done; done.
Qed.
Next Obligation.
  intros now u v s Hne. unfold _pg_record_failure. cbn zeta.
  destruct (_ <=? _)%Z; cbn [fst snd login_failures login_lockouts]; rewrite ?lookup_insert_ne, user_failures_snoc, decide_False by done; done.
Qed.
Next Obligation.
  intros u s. cbn. rewrite lookup_delete_eq. split; [done|]. unfold user_failures.
  rewrite list_filter_filter. rewrite (list_filter_iff _ (λ _, False)) by naive_solver.
  by induction (login_failures s).
Qed.
Next Obligation.
  intros u v s Hne. cbn. rewrite lookup_delete_ne by done. split; [done|]. unfold user_failures.
  rewrite list_filter_filter. f_equal. apply list_filter_iff. naive_solver.
Qed.
End instances.

(** ** Witnesses *)

Lemma default_window : 0 < window_seconds default_config.
Proof. by vm_compute. Qed.

Definition five_failures : list op := (λ t, Failed t t "bob") <$> [0; 1; 2; 3; 4].

Lemma lockout_holds_witness :
  let I := memory_store default_config default_window in
  let s := (run default_config five_failures mem_init).2 in
  ls_until "bob" s = Some (4 + 15 * 60) ∧
  ls_until "bob" (run default_config [Failed 5 5 "bob"; Check 903 "bob"] s).2 = Some (4 + 15 * 60).
Proof.
  intros I s. assert (ls_until "bob" s = Some (4 + 15 * 60)) as Hs by reflexivity. split; [exact Hs|].
  apply (lockout_holds default_config [Failed 5 5 "bob"; Check 903 "bob"] s (4 + 15 * 60) "bob"); [reflexivity|exact Hs|].
  repeat constructor; cbn; intros _; reflexivity.
Defined.

Lemma lockout_justified_witness :
  justified default_config (4 + 15 * 60) (fail_times "bob" [] five_failures).
Proof. by apply (lockout_justified (S := tables) default_config five_failures "bob"). Defined.

(** When the window is longer than the lockout the two stores differ: after the
    lockout expires, memory starts a new count and PostgreSQL still counts the
    failures before it, so one more failure locks the account again. *)
Definition short_lockout : config :=
  {| max_attempts := 2; lockout_duration_seconds := 5; window_seconds := 60; enabled := true |}.

Lemma expiry_differs (H : 0 < window_seconds short_lockout) :
  let ops := [Failed 0 0 "bob"; Failed 1 1 "bob"; Failed 10 10 "bob"] in
  last (run (H := memory_store short_lockout H) short_lockout ops mem_init).1 = Some (Some (false, 0)) ∧
  last (run (H := postgres_store short_lockout) short_lockout ops pg_init).1 = Some (Some (true, 5)).
Proof. split; reflexivity. Qed.
End LoginRateLimiter.

Module MfaChallenge.

Definition _CHALLENGE_TTL_SECONDS : Q := 300.
Definition _MAX_ATTEMPTS : Z := 5.

Record challenge := {
  username : string;
  role : string;
  client_ip : string;
  created_at : Q;
  attempt_count : Z;
  redirect_url : string;
  oauth_client_id : option string;
  oauth_redirect_uri : option string;
  oauth_code_challenge : option string;
  oauth_state : option string;
}.

(** Challenges by token: the in-memory dictionary or the table mfa_challenges. *)
Inductive mode := Memory | Postgres.
Abbreviation store := (gmap string challenge).

Section manager.
Context (m : mode) (ttl : Q) (max_attempts : Z).
Implicit Types (s : store) (c : challenge) (token : string).

(** [now - created_at > ttl] in memory, [created_at <= now - ttl] in SQL. *)
Definition expired (now : Q) c : bool :=
  match m with
  | Memory => Qltb ttl (now - created_at c)
  | Postgres => Qle_bool (created_at c) (now - ttl)
  end.

(** [redirect_url or "/admin/"] of a row. *)
Definition _row_to_challenge c : challenge :=
  {| username := username c; role := role c; client_ip := client_ip c; created_at := created_at c;
     attempt_count := attempt_count c;
     redirect_url := if decide (redirect_url c = ""%string) then "/admin/" else redirect_url c;
     oauth_client_id := oauth_client_id c; oauth_redirect_uri := oauth_redirect_uri c;
     oauth_code_challenge := oauth_code_challenge c; oauth_state := oauth_state c |}.

Definition read c : challenge := match m with Memory => c | Postgres => _row_to_challenge c end.

Definition _cleanup_expired (now : Q) s : store := filter (λ tc, expired now tc.2 = false) s.

(** [token] is the fresh random token; [c] carries [created_at] and no attempts. *)
Definition create_challenge (now_cleanup : Q) token c s : store :=
  <[token := c]> (_cleanup_expired now_cleanup s).

Definition ip_mismatch (ip : option string) c : bool :=
  match ip with
  | Some i => negb (bool_decide (i = ""%string)) && negb (bool_decide (client_ip c = i))
  | None => false
  end.

Definition get_challenge (now : Q) token (ip : option string) s : option challenge * store :=
  match s !! token with
  | None => (None, s)
  | Some c =>
      if expired now c then (None, delete token s)
      else if (max_attempts <=? attempt_count c)%Z then (None, delete token s)
      else if ip_mismatch ip c then (None, s)
      else (Some (read c), s)
  end.

Definition add_attempt c : challenge :=
  {| username := username c; role := role c; client_ip := client_ip c; created_at := created_at c;
     attempt_count := attempt_count c + 1; redirect_url := redirect_url c;
     oauth_client_id := oauth_client_id c; oauth_redirect_uri := oauth_redirect_uri c;
     oauth_code_challenge := oauth_code_challenge c; oauth_state := oauth_state c |}.

Definition record_attempt token s : store := alter add_attempt token s.

Definition consume (now : Q) token s : option challenge * store :=
  match s !! token with
  | None => (None, s)
  | Some c => if expired now c then (None, delete token s) else (Some (read c), delete token s)
  end.

(** ** Runs *)

Inductive op :=
| Create (now : Q) (token : string) (c : challenge)
| Get (now : Q) (token : string) (ip : option string)
| Attempt (token : string)
| Use (now : Q) (token : string).

Definition exec (o : op) s : store :=
  match o with
  | Create t k c => create_challenge t k c s
  | Get t k ip => (get_challenge t k ip s).2
  | Attempt k => record_attempt k s
  | Use t k => (consume t k s).2
  end.

Definition run (ops : list op) s : store := foldl (λ s o, exec o s) s ops.

Definition is_attempt token (o : op) : bool := match o with Attempt k => bool_decide (k = token) | _ => false end.
Definition is_use token (o : op) : bool := match o with Use _ k => bool_decide (k = token) | _ => false end.
Definition is_create token (o : op) : bool := match o with Create _ k _ => bool_decide (k = token) | _ => false end.

Definition attempts token (ops : list op) : Z := Z.of_nat (length (filter (λ o, is_attempt token o = true) ops)).

(** The challenge [c] with [n] attempts recorded. *)
Definition with_attempts c (n : Z) : challenge :=
  {| username := username c; role := role c; client_ip := client_ip c; created_at := created_at c;
     attempt_count := n; redirect_url := redirect_url c;
     oauth_client_id := oauth_client_id c; oauth_redirect_uri := oauth_redirect_uri c;
     oauth_code_challenge := oauth_code_challenge c; oauth_state := oauth_state c |}.

(** A token that was not created again is gone, or untouched but for its attempts;
    once used it is gone. *)
Lemma run_token token c ops s :
  s !! token = Some c → Forall (λ o, is_create token o = false) ops →
  run ops s !! token = None ∨
  (run ops s !! token = Some (with_attempts c (attempt_count c + attempts token ops)) ∧
   Forall (λ o, is_use token o = false) ops).
Proof.
  intros Hs. induction ops as [|o ops IH] using rev_ind; intros Hc.
  { right. split; [|constructor]. unfold attempts. cbn. rewrite Z.add_0_r. by destruct c. }
  apply Forall_app in Hc as [Hc [Ho _]%Forall_cons]. specialize (IH Hc).
  unfold run in *. rewrite foldl_app. cbn [foldl]. set (s1 := foldl _ _ ops) in *. clearbody s1.
  assert (attempts token (ops ++ [o]) = attempts token ops + (if is_attempt token o then 1 else 0))%Z as Ha.
  { unfold attempts. rewrite filter_app, length_app, filter_cons, filter_nil.
    destruct (is_attempt token o); [rewrite decide_True by done|rewrite decide_False by done]; cbn [length]; lia. }
  rewrite Ha, Forall_app, Forall_cons.
  assert (∀ x : store, x !! token = None ∨ x !! token = s1 !! token → is_attempt token o = false → is_use token o = false →
    x !! token = None ∨ (x !! token = Some (with_attempts c (attempt_count c + (attempts token ops +
      (if is_attempt token o then 1 else 0)))) ∧ Forall (λ o, is_use token o = false) ops ∧
      is_use token o = false ∧ Forall (λ o, is_use token o = false) [])) as Hsame.
  { intros x Hx H1 H2. rewrite H1, Z.add_0_r. destruct Hx as [Hx|Hx]; [by left|]. rewrite Hx.
    destruct IH as [IH|[IH1 IH2]]; [by left|right]. split_and!; auto. }
  destruct o as [t k c'|t k ip|k|t k]; cbn [exec is_create] in *.
  - apply bool_decide_eq_false in Ho. apply Hsame; [|done|done].
    unfold create_challenge, _cleanup_expired. rewrite lookup_insert_ne by done.
    destruct (filter _ s1 !! token) as [c1|] eqn:E; [right|by left].
    apply map_lookup_filter_Some in E as [E _]. by rewrite E.
  - apply Hsame; [|done|done]. unfold get_challenge. destruct (s1 !! k) as [c1|]; [|by right].
    destruct (expired t c1), (max_attempts <=? attempt_count c1)%Z, (ip_mismatch ip c1); cbn; try (by right);
      (destruct (decide (k = token)) as [->|Hne]; [left; by rewrite lookup_delete_eq|right; by rewrite lookup_delete_ne]).
  - unfold record_attempt. destruct (decide (k = token)) as [->|Hne].
    + rewrite lookup_alter_eq. cbn [is_attempt is_use]. rewrite bool_decide_eq_true_2 by done.
      destruct IH as [->|[-> IH2]]; [by left|right]. cbn. split_and!; [|done|done|constructor].
      unfold add_attempt, with_attempts. cbn. do 2 f_equal. lia.
    + apply Hsame; cbn; [right; by rewrite lookup_alter_ne|by apply bool_decide_eq_false_2|done].
  - unfold consume. destruct (decide (k = token)) as [->|Hne].
    + destruct (s1 !! token) as [c1|] eqn:E; [|by left].
      destruct (expired t c1); cbn; left; by rewrite lookup_delete_eq.
    + apply Hsame; [|done|cbn; by apply bool_decide_eq_false_2]. right.
      destruct (s1 !! k) as [c1|]; [|done]. destruct (expired t c1); cbn; by rewrite lookup_delete_ne.
Qed.

(** The life of a challenge.  After a token has been issued (and not issued
    again), and whatever operations ran since: the challenge is only ever shown if
    fewer than [max_attempts] attempts were recorded, it has not expired, the
    client address matches and it was not used before; it can be used only if not
    expired and not used before, so at most once; and both return the data it was
    created with. *)
Theorem challenge_life token c ops s now ip c' :
  s !! token = Some c → attempt_count c = 0%Z → Forall (λ o, is_create token o = false) ops →
  ((get_challenge now token ip (run ops s)).1 = Some c' →
     (attempts token ops < max_attempts)%Z ∧ expired now c = false ∧ ip_mismatch ip c = false ∧
     Forall (λ o, is_use token o = false) ops ∧ c' = read (with_attempts c (attempts token ops))) ∧
  ((consume now token (run ops s)).1 = Some c' →
     expired now c = false ∧ Forall (λ o, is_use token o = false) ops ∧
     c' = read (with_attempts c (attempts token ops)) ∧ (consume now token (run ops s)).2 !! token = None).
Proof.
  intros Hs H0 Hc. unfold get_challenge, consume.
  destruct (run_token token c ops s Hs Hc) as [->|[-> Hu]]; [done|]. rewrite H0, Z.add_0_l.
  assert (∀ n, expired now (with_attempts c n) = expired now c) as He by (intros; unfold expired; by destruct m).
  rewrite !He. destruct (expired now c); [done|]. split.
  - cbn [with_attempts attempt_count].
    destruct (Z.leb_spec max_attempts (attempts token ops)); [done|].
    assert (ip_mismatch ip (with_attempts c (attempts token ops)) = ip_mismatch ip c) as -> by (by destruct ip).
    destruct (ip_mismatch ip c); [done|]. cbn. intros [= <-]. done.
  - cbn. intros [= <-]. split_and!; try done. by rewrite lookup_delete_eq.
Qed.
End manager.

Definition alice : challenge :=
  {| username := "alice"; role := "admin"; client_ip := "10.0.0.1"; created_at := 100; attempt_count := 0;
     redirect_url := "/admin/"; oauth_client_id := None; oauth_redirect_uri := None;
     oauth_code_challenge := None; oauth_state := None |}.

Lemma challenge_life_witness :
  let s := {["tok"%string := alice]} in
  let ops := [Attempt "tok"; Get 110 "tok" (Some "10.0.0.1")]%string in
  (consume Memory 300 400 "tok" (run Memory 300 5 ops s)).1 = Some (with_attempts alice 1) ∧
  (consume Memory 300 400 "tok" (run Memory 300 5 ops s)).2 !! "tok"%string = None.
Proof.
  intros s ops. split; [reflexivity|].
  destruct (challenge_life Memory 300 5 "tok" alice ops s 400 None (with_attempts alice 1)) as [_ H];
    [reflexivity|reflexivity|repeat constructor|]. destruct H as (_&_&_&H); [reflexivity|exact H].
Defined.

(** At exactly the time to live the two modes disagree: memory still accepts the
    challenge, SQL has expired it. *)
Lemma boundary_differs :
  expired Memory 300 400 alice = false ∧ expired Postgres 300 400 alice = true.
Proof. done. Qed.

(** ** [_consume_pg] is two statements

    The SELECT and the DELETE of a node are separate steps, not serialised against
    those of another node. *)

Inductive node_state := Ready | Selected (c : option challenge) | Done (c : option challenge).

Definition select (ttl now : Q) (token : string) (s : store) : option challenge :=
  c ← s !! token; if expired Postgres ttl now c then None else Some (_row_to_challenge c).

Inductive nstep (ttl now : Q) (token : string) : store * (nat → node_state) → store * (nat → node_state) → Prop :=
| n_select i s ns : ns i = Ready →
    nstep ttl now token (s, ns) (s, λ j, if decide (i = j) then Selected (select ttl now token s) else ns j)
| n_delete i s ns c : ns i = Selected c →
    nstep ttl now token (s, ns) (delete token s, λ j, if decide (i = j) then Done c else ns j).

(** In cluster mode a challenge token can be used twice: two nodes that handle
    the same token at the same time can both select it before either deletes it,
    and both return the challenge. *)
Theorem consume_pg_not_single_use :
  ∃ s ns, rtc (nstep 300 200 "tok") ({["tok"%string := alice]}, λ _, Ready) (s, ns) ∧
    ns 1%nat = Done (Some alice) ∧ ns 2%nat = Done (Some alice).
Proof.
  eexists _, _. split.
  - eapply rtc_l; [apply (n_select _ _ _ 1%nat); reflexivity|].
    eapply rtc_l; [apply (n_select _ _ _ 2%nat); reflexivity|].
    eapply rtc_l; [eapply (n_delete _ _ _ 1%nat); reflexivity|].
    eapply rtc_l; [eapply (n_delete _ _ _ 2%nat); reflexivity|]. apply rtc_refl.
  - split; reflexivity.
Qed.
End MfaChallenge.
