(* ===== verification/Sharding.v ===== *)
(** * Repository sharding over the cluster

    - [ShardOwnership]: src/src/code_indexer/server/services/shard_ownership.py
    - [ShardRouter]: src/src/code_indexer/server/services/shard_router.py

    The BLAKE2b digest of hashlib is a parameter; the theorems hold for every
    digest, ties included. *)

From S2P Require Import Prelude.
From stdpp Require Import options.

Module ShardOwnership.

Section hrw.
(** [int.from_bytes(hashlib.blake2b(data, digest_size=8).digest(), "big")]. *)
Context (digest : string → Z).
Implicit Types (alias node : string) (nodes : list string).

Definition nul : string := String.String Ascii.zero String.EmptyString.

Definition _hrw_score alias node : Z := digest (alias +:+ nul +:+ node).

(** The sort key [( _hrw_score(alias, n), n )], compared as Python compares tuples. *)
Definition key_le alias (n1 n2 : string) : Prop :=
  (_hrw_score alias n1 < _hrw_score alias n2)%Z ∨
  (_hrw_score alias n1 = _hrw_score alias n2 ∧ String.le n1 n2).

#[export] Instance key_le_dec alias n1 n2 : Decision (key_le alias n1 n2).
Proof. unfold key_le. apply _. Defined.

(** [reverse=True]: highest key first; equal keys are equal nodes. *)
Definition key_ge alias (n1 n2 : string) : Prop := key_le alias n2 n1.

#[export] Instance key_ge_dec alias n1 n2 : Decision (key_ge alias n1 n2).
Proof. unfold key_ge. apply _. Defined.

Definition ranked alias nodes : list string := merge_sort (key_ge alias) nodes.

Definition want (replicas : Z) nodes : nat :=
  Z.to_nat (Z.max 1 (Z.min replicas (Z.of_nat (length nodes)))).

Definition compute_owners alias nodes (replicas : Z) : list string :=
  match nodes with
  | [] => []
  | _ => take (want replicas nodes) (ranked alias nodes)
  end.

(** ** This node's view of the ring *)

Record ownership := {
  node_id : string;
  replicas : Z;
  refresh_seconds : Q;
  cached_nodes : list string;
  cached_at : Q;
}.

Definition new (id : string) (reps : Z) (refresh : Q) : ownership :=
  {| node_id := id; replicas := Z.max 1 reps; refresh_seconds := refresh; cached_nodes := []; cached_at := 0 |}.

(** One call: the clock, and what the provider would return ([None]: it raises). *)
Record env := { now : Q; provider : option (list string) }.

Definition _get_nodes (e : env) (o : ownership) : list string * ownership :=
  if negb (bool_decide (cached_nodes o = [])) && Qltb (now e - cached_at o) (refresh_seconds o)
  then (cached_nodes o, o)
  else
    let nodes0 := default [] (provider e) in
    let nodes := if negb (bool_decide (node_id o = ""%string)) && negb (bool_decide (node_id o ∈ nodes0))
                 then nodes0 ++ [node_id o] else nodes0 in
    (nodes, {| node_id := node_id o; replicas := replicas o; refresh_seconds := refresh_seconds o;
               cached_nodes := nodes; cached_at := now e |}).

Definition owns (e : env) alias (o : ownership) : bool * ownership :=
  if decide (alias = ""%string) then (true, o)
  else
    let '(nodes, o') := _get_nodes e o in
    if (length nodes <=? 1)%nat then (true, o')
    else (bool_decide (node_id o ∈ compute_owners alias nodes (replicas o)), o').

Definition owners_of (e : env) alias (o : ownership) : list string * ownership :=
  if decide (alias = ""%string) then ([], o)
  else let '(nodes, o') := _get_nodes e o in (compute_owners alias nodes (replicas o), o').

(** ** Rendezvous hashing *)

#[export] Instance key_ge_trans alias : Transitive (key_ge alias).
Proof.
  intros x y z [H1|[H1 H1']] [H2|[H2 H2']]; unfold key_ge, key_le; [left; lia|left; lia|left; lia|right].
  split; [lia|]. by etrans.
Qed.

#[export] Instance key_ge_antisym alias : AntiSymm (=) (key_ge alias).
Proof.
  intros x y [H1|[H1 H1']] [H2|[H2 H2']]; [lia|lia|lia|]. by apply (anti_symm String.le).
Qed.

#[export] Instance key_ge_total alias : Total (key_ge alias).
Proof.
  intros x y. unfold key_ge, key_le.
  destruct (Z.lt_trichotomy (_hrw_score alias x) (_hrw_score alias y)) as [H|[H|H]]; [by auto| |by auto].
  destruct (total String.le x y); auto.
Qed.

Lemma ranked_perm alias nodes : ranked alias nodes ≡ₚ nodes.
Proof. apply merge_sort_Permutation. Qed.

Lemma ranked_sorted alias nodes : StronglySorted (key_ge alias) (ranked alias nodes).
Proof. apply StronglySorted_merge_sort; apply _. Qed.

Lemma ranked_unique alias nodes l :
  l ≡ₚ nodes → StronglySorted (key_ge alias) l → l = ranked alias nodes.
Proof.
  intros Hp Hs. apply (StronglySorted_unique (key_ge alias)); [done|apply ranked_sorted|].
  by rewrite Hp, ranked_perm.
Qed.

Lemma StronglySorted_filter_key alias (P : string → Prop) `{∀ x, Decision (P x)} l :
  StronglySorted (key_ge alias) l → StronglySorted (key_ge alias) (filter P l).
Proof.
  induction 1 as [|x l Hs IH Hall]; [constructor|]. rewrite filter_cons. case_decide; [|done].
  constructor; [done|]. rewrite Forall_forall in *. intros y [_ ?]%list_elem_of_filter. auto.
Qed.

Lemma ranked_filter alias (P : string → Prop) `{∀ x, Decision (P x)} nodes :
  ranked alias (filter P nodes) = filter P (ranked alias nodes).
Proof.
  symmetry. apply ranked_unique; [by rewrite (ranked_perm alias nodes)|].
  apply StronglySorted_filter_key, ranked_sorted.
Qed.

(** Ownership is a function of the live set alone: every node that sees the same
    set of live nodes, in whatever order, computes the same owners; there are
    [replicas] of them (all nodes if there are fewer), distinct, and each owner
    outranks each node that is not an owner. *)
Theorem owners_agree alias nodes nodes' reps :
  nodes ≡ₚ nodes' → NoDup nodes → (1 <= reps)%Z →
  let owners := compute_owners alias nodes reps in
  compute_owners alias nodes' reps = owners ∧
  NoDup owners ∧ owners ⊆ nodes ∧ length owners = Z.to_nat reps `min` length nodes ∧
  ∀ x y, x ∈ owners → y ∈ nodes → y ∉ owners → key_le alias y x.
Proof.
  intros Hp Hnd Hr owners.
  assert (∀ l, compute_owners alias l reps = take (want reps l) (ranked alias l)) as Hco.
  { intros [|]; [|done]. cbn [compute_owners]. unfold ranked. cbn. by rewrite firstn_nil. }
  assert (ranked alias nodes' = ranked alias nodes) as Hrk.
  { apply ranked_unique; [by rewrite ranked_perm|apply ranked_sorted]. }
  assert (want reps nodes' = want reps nodes) as Hw by (unfold want; by rewrite Hp).
  unfold owners. rewrite !Hco, Hrk, Hw. pose proof (ranked_perm alias nodes) as Hpr. split_and!.
  - done.
  - eapply sublist_NoDup; [|apply sublist_take]. by rewrite Hpr.
  - intros x Hx. rewrite <-Hpr. eapply sublist_elem_of; [done|apply sublist_take].
  - rewrite length_take, Hpr. unfold want. destruct nodes as [|n l]; [simpl; lia|]. cbn [length]. lia.
  - intros x y Hx Hy Hny. rewrite <-Hpr, <-(take_drop (want reps nodes) (ranked alias nodes)) in Hy.
    apply elem_of_app in Hy as [Hy|Hy]; [done|].
    pose proof (ranked_sorted alias nodes) as Hs. rewrite <-(take_drop (want reps nodes) (ranked alias nodes)) in Hs.
    by eapply (StronglySorted_app_1_elem_of (key_ge alias)).
Qed.

Lemma filter_ne_notin (x : string) (l : list string) : x ∉ l → filter (λ y, y ≠ x) l = l.
Proof.
  induction l as [|y l IH]; [done|]. intros [Hne Hx]%not_elem_of_cons.
  rewrite filter_cons_True by done. by rewrite IH.
Qed.

(** Membership changes move the minimum: when a node leaves (or, read the other
    way round, joins), the owners of an alias that remain are still owners, in the
    same order; at most one further node becomes an owner; and an alias the node
    did not own keeps exactly its owners. *)
Theorem hrw_minimal_disruption alias nodes x reps :
  NoDup nodes → (1 <= reps)%Z → x ∈ nodes →
  let owners := compute_owners alias nodes reps in
  let owners' := compute_owners alias (filter (λ n, n ≠ x) nodes) reps in
  filter (λ n, n ≠ x) owners `prefix_of` owners' ∧
  (length owners' ≤ length (filter (λ n, n ≠ x) owners) + 1)%nat ∧
  (x ∉ owners → owners' = owners).
Proof.
  intros Hnd Hr Hx owners owners'.
  assert (∀ l, compute_owners alias l reps = take (want reps l) (ranked alias l)) as Hco.
  { intros [|]; [|done]. cbn [compute_owners]. unfold ranked. cbn. by rewrite firstn_nil. }
  unfold owners, owners'. rewrite !Hco, ranked_filter. clear owners owners'.
  assert (length (filter (λ n, n ≠ x) nodes) = (length nodes - 1)%nat ∧ (1 ≤ length nodes)%nat) as [Hlen Hpos].
  { apply list_elem_of_split in Hx as (l1&l2&->). apply NoDup_app in Hnd as (_&Hd&[Hx2 _]%NoDup_cons).
    rewrite filter_app, filter_cons_False by naive_solver.
    rewrite !filter_ne_notin, !length_app; [cbn; lia|done|]. intros Hin. apply (Hd x Hin). left. }
  assert (NoDup (ranked alias nodes)) as Hndr by (by rewrite ranked_perm).
  assert (x ∈ ranked alias nodes) as Hxr by (by rewrite ranked_perm).
  assert (length (ranked alias nodes) = length nodes) as Hlr by (by rewrite ranked_perm).
  set (w := want reps nodes). set (w' := want reps (filter (λ n, n ≠ x) nodes)).
  assert (w = Z.to_nat reps `min` length nodes)%nat as Hw by (unfold w, want; lia).
  assert (w' = max 1 (Z.to_nat reps `min` (length nodes - 1)))%nat as Hw' by (unfold w', want; rewrite Hlen; lia).
  set (rk := ranked alias nodes) in *. clearbody rk w w'.
  assert (filter (λ n, n ≠ x) rk = filter (λ n, n ≠ x) (take w rk) ++ filter (λ n, n ≠ x) (drop w rk)) as Hsplit.
  { by rewrite <-filter_app, take_drop. }
  rewrite <-(take_drop w rk) in Hndr, Hxr. apply NoDup_app in Hndr as (Hn1&Hdis&Hn2).
  destruct (decide (x ∈ take w rk)) as [Hin|Hnin].
  - assert (length (filter (λ n, n ≠ x) (take w rk)) = (w - 1)%nat) as Hl1.
    { apply list_elem_of_split in Hin as (l1&l2&E). assert (length (take w rk) = w) as Hlt by (rewrite length_take; lia).
      rewrite E in *. apply NoDup_app in Hn1 as (_&Hd&[Hx2 _]%NoDup_cons).
      rewrite filter_app, filter_cons_False by naive_solver.
      rewrite !length_app in *. rewrite !filter_ne_notin; [cbn in Hlt; lia|done|]. intros Hx1. apply (Hd x Hx1). left. }
    rewrite Hsplit. split_and!; [| |done].
    + rewrite take_app_ge by lia. by eexists.
    + rewrite length_take, !length_app, Hl1. lia.
  - assert (w < length nodes)%nat as Hlt.
    { destruct (decide (w < length nodes)%nat); [done|]. rewrite take_ge in Hnin by lia.
      apply elem_of_app in Hxr as [?|Hd]; [by rewrite take_ge in * by lia|]. rewrite drop_ge in Hd by lia.
      by apply not_elem_of_nil in Hd. }
    assert (w' = w) as -> by lia.
    assert (take w (filter (λ n, n ≠ x) rk) = take w rk) as ->.
    { rewrite Hsplit, filter_ne_notin by done. apply take_app_length'. rewrite length_take. lia. }
    rewrite filter_ne_notin by done. split_and!; [done|lia|done].
Qed.
End hrw.
End ShardOwnership.

Module ShardRouter.
Import ShardOwnership.

Section router.
Context (digest : string → Z).

Record router := {
  r_node_id : string;
  shard_ownership : option ownership;
  forwards : Z;
  forward_failures : Z;
}.

Definition with_ownership (o : ownership) (rt : router) : router :=
  {| r_node_id := r_node_id rt; shard_ownership := Some o; forwards := forwards rt;
     forward_failures := forward_failures rt |}.

(** What one routing decision sees: the calls of [owns] and [owners_of] read the
    clock and the provider separately; [None] addresses: the lookup raised. *)
Record view := { at_owns : env; at_owners : env; addresses : option (gmap string string) }.

(** The first reachable owner that is not this node. *)
Fixpoint first_reachable (self : string) (addrs : gmap string string) (owners : list string) : option string :=
  match owners with
  | [] => None
  | o :: owners' =>
      if decide (o = self) then first_reachable self addrs owners'
      else match addrs !! o with
           | Some a => if decide (a = ""%string) then first_reachable self addrs owners' else Some a
           | None => first_reachable self addrs owners'
           end
  end.

Definition target_for (v : view) (alias : string) (rt : router) : option string * router :=
  match shard_ownership rt with
  | None => (None, rt)
  | Some o =>
      let '(mine, o1) := owns digest (at_owns v) alias o in
      if mine then (None, with_ownership o1 rt)
      else
        let '(owners, o2) := owners_of digest (at_owners v) alias o1 in
        (match owners with
         | [] => None
         | _ => match addresses v with
                | None => None
                | Some addrs => first_reachable (r_node_id rt) addrs owners
                end
         end, with_ownership o2 rt)
  end.

(** [local] and [groups], the latter in insertion order of the peers. *)
Fixpoint group_by_owner (items : list (string * view)) (local : list string)
    (groups : list (string * list string)) (rt : router) :
    (list string * list (string * list string)) * router :=
  match items with
  | [] => ((local, groups), rt)
  | (alias, v) :: items' =>
      let '(address, rt1) := target_for v alias rt in
      match address with
      | None => group_by_owner items' (local ++ [alias]) groups rt1
      | Some a => group_by_owner items' local (dset a (default [] (dget a groups) ++ [alias]) groups) rt1
      end
  end.

(** [forward]: the counters around the POST to the peer. *)
Definition forward {E A} (post : result E A) (rt : router) : result E A * router :=
  let rt1 := {| r_node_id := r_node_id rt; shard_ownership := shard_ownership rt;
                forwards := forwards rt + 1; forward_failures := forward_failures rt |} in
  match post with
  | Ok a => (Ok a, rt1)
  | Err e => (Err e, {| r_node_id := r_node_id rt; shard_ownership := shard_ownership rt;
                        forwards := forwards rt + 1; forward_failures := forward_failures rt + 1 |})
  end.

Lemma first_reachable_spec self addrs owners a :
  first_reachable self addrs owners = Some a →
  ∃ o, o ∈ owners ∧ o ≠ self ∧ addrs !! o = Some a ∧ a ≠ ""%string.
Proof.
  induction owners as [|o owners IH]; cbn; [done|].
  assert (first_reachable self addrs owners = Some a → ∃ o', o' ∈ o :: owners ∧ o' ≠ self ∧
    addrs !! o' = Some a ∧ a ≠ ""%string) as Hrest.
  { intros (o'&?&?&?)%IH. exists o'. split; [by right|done]. }
  case_decide; [done|]. destruct (addrs !! o) as [a'|] eqn:E; [|done]. case_decide; [done|].
  intros [= ->]. exists o. split; [left|]. done.
Qed.

(** Forwarding [alias] to [a] is right in the view [v]: this node did not own the
    alias and [a] is the address of an owner that is another node. *)
Definition right_target (v : view) (alias : string) (self : string) (a : string) : Prop :=
  ∃ o1 o2 owners addrs peer,
    (owns digest (at_owns v) alias o1).1 = false ∧
    (owners_of digest (at_owners v) alias o2).1 = owners ∧ addresses v = Some addrs ∧
    peer ∈ owners ∧ peer ≠ self ∧ addrs !! peer = Some a.

Lemma target_for_spec v alias rt a rt' :
  target_for v alias rt = (a, rt') →
  r_node_id rt' = r_node_id rt ∧
  match a with Some a => right_target v alias (r_node_id rt) a | None => True end.
Proof.
  unfold target_for. destruct (shard_ownership rt) as [o|]; [|intros [= <- <-]; done].
  destruct (owns digest (at_owns v) alias o) as [mine o1] eqn:E1. destruct mine; [intros [= <- <-]; done|].
  destruct (owners_of digest (at_owners v) alias o1) as [owners o2] eqn:E2. intros [= <- <-]. split; [done|].
  destruct owners as [|w ws]; [done|]. destruct (addresses v) as [addrs|] eqn:Ea; [|done].
  destruct (first_reachable _ _ _) as [a|] eqn:Ef; [|done].
  apply first_reachable_spec in Ef as (peer&?&?&?&?).
  exists o, o1, (w :: ws), addrs, peer. by rewrite E1, E2.
Qed.

(** The aliases handled by the partition. *)
Definition handled (local : list string) (groups : list (string * list string)) : list string :=
  local ++ concat groups.*2.

Lemma handled_dset (a alias : string) (groups : list (string * list string)) :
  concat (dset a (default [] (dget a groups) ++ [alias]) groups).*2 ≡ₚ alias :: concat groups.*2.
Proof.
  induction groups as [|[b l] groups IH]; [done|]. cbn [dget dset].
  case_decide; cbn; [rewrite <-app_assoc; cbn; by rewrite <-Permutation_middle|].
  rewrite IH. by rewrite Permutation_middle.
Qed.

(** A multi-repository query is partitioned: every alias is searched exactly
    once, locally or by one peer; a peer is only ever asked for aliases this node
    did not own when it decided, is an owner of the alias, and is not this node. *)
Theorem group_by_owner_partition items rt local groups rt' :
  group_by_owner items [] [] rt = ((local, groups), rt') →
  handled local groups ≡ₚ items.*1 ∧ NoDup groups.*1 ∧
  ∀ a l alias, dget a groups = Some l → alias ∈ l →
    ∃ v, (alias, v) ∈ items ∧ right_target v alias (r_node_id rt) a.
Proof.
  assert (∀ loc grp rt0 done,
    r_node_id rt0 = r_node_id rt → handled loc grp ≡ₚ done.*1 → NoDup grp.*1 →
    (∀ a l alias, dget a grp = Some l → alias ∈ l → ∃ v, (alias, v) ∈ done ∧ right_target v alias (r_node_id rt) a) →
    group_by_owner items loc grp rt0 = ((local, groups), rt') →
    handled local groups ≡ₚ (done ++ items).*1 ∧ NoDup groups.*1 ∧
    ∀ a l alias, dget a groups = Some l → alias ∈ l →
      ∃ v, (alias, v) ∈ done ++ items ∧ right_target v alias (r_node_id rt) a) as Hgen.
  { induction items as [|[alias v] items IH]; intros loc grp rt0 done Hid Hh Hnd Hg Hrun; cbn in Hrun.
    { simplify_eq. rewrite app_nil_r. done. }
    destruct (target_for v alias rt0) as [a rt1] eqn:Et. apply target_for_spec in Et as [Hid1 Ha].
    rewrite Hid in *. rewrite (cons_middle (alias, v) done items), app_assoc.
    assert (∀ b l x, dget b grp = Some l → x ∈ l →
      ∃ v0, (x, v0) ∈ done ++ [(alias, v)] ∧ right_target v0 x (r_node_id rt) b) as Hg'.
    { intros b l x Hb Hx. destruct (Hg b l x Hb Hx) as (v0&?&?). exists v0. split; [|done]. apply elem_of_app. by left. }
    destruct a as [a|]; eapply IH in Hrun; [exact Hrun|done| | | |exact Hrun|done| |done|exact Hg'].
    - unfold handled in *. rewrite handled_dset, <-Permutation_middle, Hh, fmap_app. cbn.
      by rewrite Permutation_app_comm.
    - by apply dset_NoDup.
    - intros b l x. rewrite dget_dset. case_decide as Hab; [subst b|by apply Hg'].
      intros [= <-] [Hx|Hx%list_elem_of_singleton]%elem_of_app.
      + destruct (dget a grp) as [l0|] eqn:E; [|by apply not_elem_of_nil in Hx]. by apply (Hg' a l0).
      + subst x. exists v. split; [|done]. apply elem_of_app. right. left.
    - unfold handled in *. rewrite <-app_assoc. cbn. rewrite <-Permutation_middle, Hh, fmap_app. cbn.
      by rewrite Permutation_app_comm. }
  intros Hrun. apply (Hgen [] [] rt []); [done|done|apply NoDup_nil_2|done|done].
Qed.
End router.

(** ** Witnesses, with a digest that counts characters *)

Definition len_digest (s : string) : Z := Z.of_nat (String.length s).

Lemma owners_agree_witness :
  compute_owners len_digest "r" ["a"; "bbb"; "cc"]%string 2 = ["bbb"; "cc"]%string ∧
  compute_owners len_digest "r" ["cc"; "a"; "bbb"]%string 2 = ["bbb"; "cc"]%string.
Proof.
  split; [reflexivity|].
  apply (owners_agree len_digest "r" ["a"; "bbb"; "cc"]%string ["cc"; "a"; "bbb"]%string 2).
  - by apply (bool_decide_unpack _); vm_compute.
  - by apply (bool_decide_unpack _); vm_compute.
  - lia.
Defined.

Lemma hrw_minimal_disruption_witness :
  compute_owners len_digest "r" (filter (λ n, n ≠ "a"%string) ["a"; "bbb"; "cc"]%string) 2 =
  compute_owners len_digest "r" ["a"; "bbb"; "cc"]%string 2.
Proof.
  apply (hrw_minimal_disruption len_digest "r" ["a"; "bbb"; "cc"]%string "a" 2).
  - by apply (bool_decide_unpack _); vm_compute.
  - lia.
  - left.
  - apply (bool_decide_unpack _). by vm_compute.
Defined.

Definition idle_env : env := {| now := 0; provider := Some ["a"; "bbb"; "cc"]%string |}.
Definition seen : view := {| at_owns := idle_env; at_owners := idle_env; addresses := Some {["bbb" := "10.0.0.2:80"]}%string |}.
Definition node_a : router :=
  {| r_node_id := "a"; shard_ownership := Some (new "a" 1 5); forwards := 0; forward_failures := 0 |}.

Lemma group_by_owner_partition_witness :
  ∃ rt', group_by_owner len_digest [("r", seen); ("", seen)]%string [] [] node_a =
    (([""], [("10.0.0.2:80", ["r"])])%string, rt') ∧
    handled [""]%string [("10.0.0.2:80", ["r"])]%string ≡ₚ ["r"; ""]%string.
Proof.
  eexists. split; [reflexivity|].
  refine (proj1 (group_by_owner_partition len_digest [("r", seen); ("", seen)]%string node_a _ _ _ _)). reflexivity.
Defined.
End ShardRouter.
