(* ===== verification/Progress.v ===== *)
(** * Indexing progress

    - [ProgressPhases]: src/src/code_indexer/services/progress_phase_allocator.py
    - [SlotTracker]: src/src/code_indexer/services/clean_slot_tracker.py *)

From S2P Require Import Prelude.
From stdpp Require Import options.
Local Open Scope Q_scope.

Module ProgressPhases.

Definition COST_PER_FILE : Q := 1.
Definition COST_PER_COMMIT : Q := 5 # 2.
Definition COST_FTS_FIXED : Q := 50.
Definition COST_SCIP_FIXED : Q := 30.
Definition COST_COW_FIXED : Q := 20.

Definition _EXECUTION_ORDER : list string := ["semantic"; "fts"; "temporal"; "scip"; "cow"]%string.

Record Phase := { name : string; weight : Q; range_start : Q; range_end : Q }.

(** The phases in order.  [_phase_lookup] holds the same objects under their names. *)
Abbreviation allocator := (list Phase).

Definition cost_map (index_types : list string) (file_count commit_count : Z) (max_commits : option Z) :
    list (string * Q) :=
  let has t := bool_decide (t ∈ index_types) in
  (if has "semantic" then [("semantic", inject_Z file_count * COST_PER_FILE)] else []) ++
  (if has "fts" then [("fts", COST_FTS_FIXED)] else []) ++
  (if has "temporal" then
     let effective_commits := match max_commits with Some m => Z.min commit_count m | None => commit_count end in
     [("temporal", inject_Z effective_commits * COST_PER_COMMIT)]
   else []) ++
  (if has "scip" then [("scip", COST_SCIP_FIXED)] else []) ++
  [("cow", COST_COW_FIXED)]%string.

Fixpoint build_phases (costs : list (string * Q)) (total_cost range_cursor : Q) (order : list string) : list Phase :=
  match order with
  | [] => []
  | phase_name :: order' =>
      match dget phase_name costs with
      | None => build_phases costs total_cost range_cursor order'
      | Some c =>
          let w := c / total_cost in
          let range_end := range_cursor + w * 100 in
          {| name := phase_name; weight := w; range_start := range_cursor; range_end := range_end |}
            :: build_phases costs total_cost range_end order'
      end
  end.

(** [self.phases[-1].range_end = 100.0]. *)
Fixpoint clamp_last (ps : list Phase) : list Phase :=
  match ps with
  | [] => []
  | [p] => [{| name := name p; weight := weight p; range_start := range_start p; range_end := 100 |}]
  | p :: ps' => p :: clamp_last ps'
  end.

Definition calculate_weights (index_types : list string) (file_count commit_count : Z) (max_commits : option Z) :
    allocator :=
  let costs := cost_map index_types file_count commit_count max_commits in
  clamp_last (build_phases costs (sumQ costs.*2) 0 _EXECUTION_ORDER).

Inductive error := ValueError.

Definition _get_phase (phase_name : string) (ps : allocator) : result error Phase :=
  match head (filter (λ p, name p = phase_name) ps) with Some p => Ok p | None => Err ValueError end.

Definition map_phase_progress (phase_name : string) (local_current local_total : Z) (ps : allocator) :
    result error Q :=
  p ← _get_phase phase_name ps;
  if (local_total =? 0)%Z then Ok (range_start p)
  else Ok (range_start p + inject_Z local_current / inject_Z local_total * (range_end p - range_start p)).

Definition phase_start (phase_name : string) (ps : allocator) : result error Q :=
  p ← _get_phase phase_name ps; Ok (range_start p).

Definition phase_end (phase_name : string) (ps : allocator) : result error Q :=
  p ← _get_phase phase_name ps; Ok (range_end p).

(** ** Tiling *)

(** The phases cover [a, b] without gap or overlap, none of negative length. *)
Fixpoint tiles (a b : Q) (ps : list Phase) : Prop :=
  match ps with
  | [] => a == b
  | p :: ps' => range_start p == a ∧ a <= range_end p ∧ range_end p - range_start p == weight p * 100 ∧
                tiles (range_end p) b ps'
  end.

Lemma tiles_le a b ps : tiles a b ps → a <= b.
Proof. revert a. induction ps as [|p ps IH]; intros a; cbn; [lra|]. intros (H1&H2&_&H3%IH). lra. Qed.

(** The costs of the phases of [order], in that order. *)
Definition ordered_costs (costs : list (string * Q)) (order : list string) : list Q := omap (λ n, dget n costs) order.

Lemma tiles_end a b b' ps : b == b' → tiles a b ps → tiles a b' ps.
Proof.
  revert a. induction ps as [|p ps IH]; intros a Hb; cbn; [lra|]. intros (?&?&?&?). split_and!; auto.
Qed.

Lemma build_tiles costs total cursor order :
  0 < total → Forall (λ c, 0 <= c) (ordered_costs costs order) →
  tiles cursor (cursor + sumQ (ordered_costs costs order) / total * 100) (build_phases costs total cursor order).
Proof.
  intros Ht. revert cursor. induction order as [|n order IH]; intros cursor; cbn.
  { intros _. field. lra. }
  destruct (dget n costs) as [c|]; cbn; [|apply IH].
  intros [Hc Hall]%Forall_cons. assert (0 <= c / total) by (apply Qle_shift_div_l; lra).
  split_and!; [lra|lra|lra|]. eapply tiles_end; [|by apply IH].
  fold (ordered_costs costs order). fold (sumQ (ordered_costs costs order)).
  generalize (sumQ (ordered_costs costs order)). intros q. field. lra.
Qed.

Lemma clamp_tiles a ps : ps ≠ [] → tiles a 100 ps → tiles a 100 (clamp_last ps).
Proof.
  revert a. induction ps as [|p [|q ps] IH]; intros a Hne; cbn [clamp_last]; [done| |].
  - cbn. intros (H1&H2&H3&H4). split_and!; lra.
  - intros (H1&H2&H3&H4). cbn [tiles]. split_and!; try done. by apply IH.
Qed.

Lemma clamp_last_end ps p : last (clamp_last ps) = Some p → range_end p = 100.
Proof.
  induction ps as [|q [|r ps] IH]; [done|by intros [= <-]|].
  change (clamp_last (q :: r :: ps)) with (q :: clamp_last (r :: ps)). rewrite last_cons.
  destruct (last (clamp_last (r :: ps))) eqn:E; [intros [= ->]; by apply IH|].
  apply last_None in E. by destruct ps.
Qed.

Lemma clamp_names ps : name <$> clamp_last ps = name <$> ps.
Proof. induction ps as [|p [|q ps] IH]; [done|done|]. cbn [clamp_last fmap list_fmap]. f_equal. apply IH. Qed.

Lemma build_names costs total cursor order :
  name <$> build_phases costs total cursor order = filter (λ n, is_Some (dget n costs)) order.
Proof.
  revert cursor. induction order as [|n order IH]; intros cursor; [done|]. cbn [build_phases].
  rewrite filter_cons. destruct (dget n costs) as [c|]; cbn.
  - rewrite decide_True by eauto. by rewrite IH.
  - rewrite decide_False by (by intros []). apply IH.
Qed.

(** The phases tile the progress bar: for any requested index types and
    non-negative counts, the allocated ranges start at 0, follow one another in
    execution order without gap or overlap, have lengths proportional to their
    weights, include the snapshot phase last, and end at exactly 100. *)
Theorem phases_tile index_types file_count commit_count max_commits :
  (0 <= file_count)%Z → (0 <= commit_count)%Z → (∀ m, max_commits = Some m → 0 <= m)%Z →
  let ps := calculate_weights index_types file_count commit_count max_commits in
  tiles 0 100 ps ∧ name <$> ps `sublist_of` _EXECUTION_ORDER ∧
  ∃ p, last ps = Some p ∧ name p = "cow"%string ∧ range_end p = 100.
Proof.
  intros Hf Hc Hm ps. set (costs := cost_map index_types file_count commit_count max_commits).
  assert (0 <= inject_Z file_count * COST_PER_FILE) as Hfq.
  { unfold COST_PER_FILE. pose proof (inject_Z_nonneg file_count Hf). lra. }
  set (ec := match max_commits with Some m => Z.min commit_count m | None => commit_count end).
  assert (0 <= inject_Z ec * COST_PER_COMMIT) as Hcq.
  { assert (0 <= ec)%Z by (subst ec; destruct max_commits as [m|]; [specialize (Hm m eq_refl); lia|done]).
    unfold COST_PER_COMMIT. pose proof (inject_Z_nonneg ec). apply Qmult_le_0_compat; [auto|lra]. }
  assert (ordered_costs costs _EXECUTION_ORDER = costs.*2 ∧ 0 < sumQ costs.*2 ∧ Forall (λ c, 0 <= c) costs.*2 ∧
    dget "cow"%string costs = Some COST_COW_FIXED) as (Hord&Hpos&Hnn&Hcow).
  { subst costs. unfold cost_map. fold ec. clearbody ec.
    set (x := inject_Z file_count * COST_PER_FILE) in *. set (y := inject_Z ec * COST_PER_COMMIT) in *. clearbody x y.
    repeat case_bool_decide; cbn; (split_and!; [reflexivity|unfold COST_FTS_FIXED, COST_SCIP_FIXED, COST_COW_FIXED; lra| |reflexivity]);
      repeat constructor; try done; unfold COST_FTS_FIXED, COST_SCIP_FIXED, COST_COW_FIXED; lra. }
  set (bs := build_phases costs (sumQ costs.*2) 0 _EXECUTION_ORDER).
  assert (name <$> bs = filter (λ n, is_Some (dget n costs)) _EXECUTION_ORDER) as Hnames by apply build_names.
  assert (∃ l, name <$> bs = l ++ ["cow"%string]) as [l Hl].
  { rewrite Hnames. unfold _EXECUTION_ORDER.
    change (["semantic"; "fts"; "temporal"; "scip"; "cow"]%string) with (["semantic"; "fts"; "temporal"; "scip"]%string ++ ["cow"%string]).
    rewrite filter_app. eexists. f_equal. rewrite filter_cons_True; [done|]. rewrite Hcow. eauto. }
  assert (bs ≠ []) as Hne by (intros E; rewrite E in Hl; by destruct l).
  assert (tiles 0 100 bs) as Htiles.
  { pose proof (build_tiles costs (sumQ costs.*2) 0 _EXECUTION_ORDER Hpos) as Ht. rewrite Hord in Ht.
    eapply tiles_end; [|by apply Ht]. field. lra. }
  split_and!.
  - by apply clamp_tiles.
  - unfold ps, calculate_weights. rewrite clamp_names. fold costs bs. rewrite Hnames. apply sublist_filter.
  - assert (name <$> ps = l ++ ["cow"%string]) as Hps by (unfold ps, calculate_weights; by rewrite clamp_names).
    assert (name <$> last ps = Some "cow"%string) as Hlast by (by rewrite <-fmap_last, Hps, last_snoc).
    destruct (last ps) as [p0|] eqn:E; [|done]. exists p0. split_and!; [done|by injection Hlast|].
    by apply (clamp_last_end bs).
Qed.

(** Progress within a phase stays in the phase's range: for a known phase and
    0 <= current <= total the reported value lies between the phase's start and
    end, is the start at 0 and the end at [total], and never decreases as [current]
    grows; an unknown phase is a ValueError. *)
Theorem map_phase_progress_spec a b ps n p :
  tiles a b ps → _get_phase n ps = Ok p →
  (∀ total, (0 < total)%Z →
     (∀ cur, (0 <= cur <= total)%Z → ∃ v, map_phase_progress n cur total ps = Ok v ∧
        range_start p <= v <= range_end p ∧ a <= v <= b) ∧
     (∃ v, map_phase_progress n 0 total ps = Ok v ∧ v == range_start p) ∧
     (∃ v, map_phase_progress n total total ps = Ok v ∧ v == range_end p) ∧
     (∀ c1 c2 v1 v2, (c1 <= c2)%Z → map_phase_progress n c1 total ps = Ok v1 →
        map_phase_progress n c2 total ps = Ok v2 → v1 <= v2)) ∧
  map_phase_progress n 0 0 ps = Ok (range_start p) ∧
  (∀ n', n' ∉ name <$> ps → ∀ c t, map_phase_progress n' c t ps = Err ValueError).
Proof.
  intros Ht Hp.
  assert (a <= range_start p ∧ range_start p <= range_end p ∧ range_end p <= b) as (Ha&Hse&Hb).
  { unfold _get_phase in Hp. destruct (head (filter _ ps)) as [p'|] eqn:E; [|done]. injection Hp as ->.
    apply head_Some_elem_of, list_elem_of_filter in E as [_ Hin]. clear -Ht Hin. revert a Ht.
    induction ps as [|q ps IH]; intros a Ht; [by apply not_elem_of_nil in Hin|].
    destruct Ht as (H1&H2&H3&H4). pose proof (tiles_le _ _ _ H4).
    apply elem_of_cons in Hin as [->|Hin]; [lra|]. specialize (IH Hin _ H4). lra. }
  assert (∀ c t, map_phase_progress n c t ps = if (t =? 0)%Z then Ok (range_start p)
    else Ok (range_start p + inject_Z c / inject_Z t * (range_end p - range_start p))) as Hmap.
  { intros. unfold map_phase_progress. by rewrite Hp. }
  split_and!.
  - intros total Htot. setoid_rewrite Hmap. rewrite (proj2 (Z.eqb_neq total 0)) by lia.
    assert (0 < inject_Z total) as Hq by (change 0 with (inject_Z 0); by rewrite <-Zlt_Qlt).
    split_and!.
    + intros cur Hcur. eexists. split; [done|].
      assert (0 <= inject_Z cur / inject_Z total) as H0.
      { apply Qle_shift_div_l; [done|]. pose proof (inject_Z_nonneg cur ltac:(lia)). lra. }
      assert (inject_Z cur / inject_Z total <= 1) as H1.
      { apply Qle_shift_div_r; [done|]. assert (inject_Z cur <= inject_Z total) by (rewrite <-Zle_Qle; lia). lra. }
      set (f := inject_Z cur / inject_Z total) in *. clearbody f.
      assert (0 <= f * (range_end p - range_start p)) by nra.
      assert (f * (range_end p - range_start p) <= range_end p - range_start p) by nra. lra.
    + eexists. split; [done|]. change (inject_Z 0) with 0. field. lra.
    + eexists. split; [done|]. field. lra.
    + intros c1 c2 v1 v2 Hc [= <-] [= <-].
      assert (inject_Z c1 / inject_Z total <= inject_Z c2 / inject_Z total) as Hle.
      { unfold Qdiv. apply Qmult_le_compat_r; [by rewrite <-Zle_Qle|]. apply Qlt_le_weak, Qinv_lt_0_compat. done. }
      set (f1 := inject_Z c1 / inject_Z total) in *. set (f2 := inject_Z c2 / inject_Z total) in *. clearbody f1 f2. nra.
  - by rewrite Hmap.
  - intros n' Hn c t. unfold map_phase_progress, _get_phase.
    destruct (head (filter _ ps)) as [q|] eqn:E; [|done]. exfalso.
    apply head_Some_elem_of, list_elem_of_filter in E as [<- Hin]. apply Hn, list_elem_of_fmap. eauto.
Qed.

Definition sample : allocator := calculate_weights ["semantic"; "temporal"]%string 500 200 None.

Lemma phases_tile_witness : tiles 0 100 sample ∧ name <$> sample = ["semantic"; "temporal"; "cow"]%string.
Proof.
  split; [|reflexivity]. apply (phases_tile ["semantic"; "temporal"]%string 500 200 None); [lia|lia|done].
Defined.

Lemma map_phase_progress_spec_witness :
  ∃ p, _get_phase "temporal" sample = Ok p ∧ map_phase_progress "temporal" 0 0 sample = Ok (range_start p).
Proof.
  eexists. split; [reflexivity|].
  refine (proj1 (proj2 (map_phase_progress_spec 0 100 sample "temporal" _ _ eq_refl))).
  repeat split; by vm_compute.
Defined.
End ProgressPhases.

Module SlotTracker.

Inductive FileStatus := STARTING | CHUNKING | VECTORIZING | FINALIZING | PROCESSING | COMPLETING | COMPLETE.

Record FileData := {
  filename : string;
  file_size : Z;
  status : FileStatus;
  start_time : Q;
  last_updated : Q;
}.

(** [available_slots] is the LIFO queue, its next slot first. *)
Record tracker := { status_array : list (option FileData); available_slots : list nat }.

Definition init (max_slots : nat) : tracker :=
  {| status_array := replicate max_slots None; available_slots := reverse (seq 0 max_slots) |}.

(** [None]: no slot is available and the call blocks. *)
Definition acquire_slot (d : FileData) (t : tracker) : option (nat * tracker) :=
  match available_slots t with
  | [] => None
  | slot_id :: rest =>
      Some (slot_id, {| status_array := <[slot_id := Some d]> (status_array t); available_slots := rest |})
  end.

Inductive error := IndexError.

Definition update_data (st : FileStatus) (fn : option string) (size : option Z) (now : Q) (d : FileData) : FileData :=
  {| filename := default (filename d) fn; file_size := default (file_size d) size; status := st;
     start_time := start_time d; last_updated := now |}.

Definition update_slot (slot_id : nat) (st : FileStatus) (fn : option string) (size : option Z) (now : Q)
    (t : tracker) : result error tracker :=
  match status_array t !! slot_id with
  | None => Err IndexError
  | Some None => Ok t
  | Some (Some d) =>
      Ok {| status_array := <[slot_id := Some (update_data st fn size now d)]> (status_array t);
            available_slots := available_slots t |}
  end.

(** [release_slot] and [release_slot_keep_visible] have the same body. *)
Definition release_slot (slot_id : nat) (t : tracker) : tracker :=
  {| status_array := status_array t; available_slots := slot_id :: available_slots t |}.

Definition get_display_files (t : tracker) : list FileData := omap id (status_array t).
Definition get_slot_count (t : tracker) : nat := length (get_display_files t).
Definition is_slot_occupied (slot_id : nat) (t : tracker) : result error bool :=
  match status_array t !! slot_id with
  | None => Err IndexError
  | Some o => Ok (bool_decide (is_Some o))
  end.
Definition get_available_slot_count (t : tracker) : nat := length (available_slots t).

(** [(slot_id, data)] of every displayed file. *)
Definition get_concurrent_files_data (t : tracker) : list (nat * FileData) :=
  omap id (imap (λ i o, pair i <$> o) (status_array t)).

(** ** Runs in which each worker releases the slots it holds, once *)

Inductive step : tracker * list nat → tracker * list nat → Prop :=
| st_acquire t held d slot_id t' :
    acquire_slot d t = Some (slot_id, t') → step (t, held) (t', slot_id :: held)
| st_update t held slot_id st fn size now t' :
    update_slot slot_id st fn size now t = Ok t' → step (t, held) (t', held)
| st_release t held1 slot_id held2 :
    step (t, held1 ++ slot_id :: held2) (release_slot slot_id t, held1 ++ held2).

Record inv (max_slots : nat) (s : tracker * list nat) : Prop := {
  inv_slots : available_slots s.1 ++ s.2 ≡ₚ seq 0 max_slots;
  inv_array : length (status_array s.1) = max_slots;
}.

Lemma step_inv n s s' : step s s' → inv n s → inv n s'.
Proof.
  destruct 1 as [t held d i t' Ha|t held i st fn size now t' Hu|t h1 i h2]; intros [Hs Hl]; cbn in *.
  - unfold acquire_slot in Ha. destruct (available_slots t) as [|j rest]; [done|]. injection Ha as -> <-.
    split; cbn; [|by rewrite length_insert]. by rewrite <-Hs, <-Permutation_middle.
  - unfold update_slot in Hu. destruct (status_array t !! i) as [[d|]|]; [| |done]; injection Hu as <-; split; cbn;
      rewrite ?length_insert; done.
  - split; cbn; [|done]. rewrite <-Hs. by rewrite <-Permutation_middle, (Permutation_middle (available_slots t)),
      <-Permutation_middle, Permutation_middle.
Qed.

(** Slots are conserved and exclusive: in every run in which workers release what
    they hold, no slot is held twice or held while available, every slot is one or
    the other, and [acquire_slot] blocks exactly when all slots are held; a slot it
    returns was free and shows the new file. *)
Theorem slots_exclusive max_slots t held d :
  rtc step (init max_slots, []) (t, held) →
  NoDup held ∧ (∀ i, i ∈ held → i < max_slots ∧ i ∉ available_slots t)%nat ∧
  (length held + get_available_slot_count t = max_slots)%nat ∧
  match acquire_slot d t with
  | None => length held = max_slots
  | Some (i, t') => (i ∉ held) ∧ (i < max_slots)%nat ∧ status_array t' !! i = Some (Some d) ∧
                    get_available_slot_count t = S (get_available_slot_count t')
  end.
Proof.
  intros Hrun.
  assert (inv max_slots (t, held)) as [Hs Hl].
  { assert (inv max_slots (init max_slots, [])) as H0.
    { split; cbn; [by rewrite app_nil_r, reverse_Permutation|by rewrite length_replicate]. }
    remember (init max_slots, []) as s0 eqn:E0. clear E0. induction Hrun; eauto using step_inv. }
  cbn in *. assert (NoDup (available_slots t ++ held)) as Hnd by (rewrite Hs; apply NoDup_seq).
  apply NoDup_app in Hnd as (Hna&Hdis&Hnh).
  assert (∀ i, i ∈ available_slots t ++ held → i < max_slots)%nat as Hlt.
  { intros i. rewrite Hs, elem_of_seq. lia. }
  assert (length held + length (available_slots t) = max_slots)%nat as Hlen.
  { rewrite Nat.add_comm, <-length_app, Hs. apply length_seq. }
  split_and!; [done| |done|].
  - intros i Hi. split; [apply Hlt, elem_of_app; by right|]. intros Ha. by apply (Hdis i).
  - unfold acquire_slot, get_available_slot_count. destruct (available_slots t) as [|i rest] eqn:E; [cbn in Hlen; lia|].
    cbn. assert (i < max_slots)%nat by (apply Hlt; left). split_and!; [|done| |done].
    + intros Hi. apply (Hdis i); [left|done].
    + apply list_lookup_insert_eq. lia.
Qed.

Definition some_file : FileData :=
  {| filename := "a.py"; file_size := 10; status := STARTING; start_time := 0; last_updated := 0 |}.

Lemma slots_exclusive_witness :
  ∃ t, rtc step (init 2, []) (t, [1%nat]) ∧ (length [1%nat] + get_available_slot_count t = 2)%nat.
Proof.
  assert (∃ t, rtc step (init 2, []) (t, [1%nat])) as [t Ht].
  { eexists. eapply rtc_l; [eapply (st_acquire _ _ some_file); reflexivity|]. apply rtc_refl. }
  exists t. split; [exact Ht|]. destruct (slots_exclusive 2 t [1%nat] some_file Ht) as (_&_&H&_). exact H.
Defined.

(** A second release of the same slot is not refused: two workers then get one slot. *)
Lemma double_release_shares :
  let t := release_slot 0 (release_slot 0 {| status_array := [None]; available_slots := [] |}) in
  ∃ t1 t2, acquire_slot some_file t = Some (0%nat, t1) ∧ acquire_slot some_file t1 = Some (0%nat, t2).
Proof. eexists _, _. split; reflexivity. Qed.
End SlotTracker.
