(* ===== verification/RegexTrigram.v ===== *)
(** * Required trigrams of a regular expression

    src/src/code_indexer/global_repos/regex_trigram.py.

    The analyser works on the pattern text; the theorem relates it to a fragment of
    the regular expression syntax (printed to pattern text) with its meaning. *)

From S2P Require Import Prelude.
From S2P Require Import PyText.
From stdpp Require Import options.

Module RegexTrigram.

Definition _TRIGRAM : nat := 3.

(** ** Text side *)

Definition trigrams (s : text) : gset text :=
  list_to_set ((λ i, slice s i (i + _TRIGRAM)) <$> seq 0 (length s + 1 - _TRIGRAM)).

Definition _index_storable (ch : N) : bool :=
  ((32 <=? ch) && (ch <=? 126))%N || bool_decide (ch ∈ [9; 10; 13]%N).

(** The [for] loop: finished parts and the current one. *)
Fixpoint subruns_loop (run current : text) (parts : list text) : list text :=
  match run with
  | [] => if decide (current = []) then parts else parts ++ [current]
  | ch :: run' =>
      if _index_storable ch then subruns_loop run' (current ++ [ch]) parts
      else subruns_loop run' [] (if decide (current = []) then parts else parts ++ [current])
  end.

Definition _ascii_subruns (run : text) : list text := subruns_loop run [] [].

(** ** Pattern side *)

Definition ch_question : N := 63.
Definition ch_plus : N := 43.
Definition ch_lbrace : N := 123.
Definition ch_rbrace : N := 125.
Definition ch_bar : N := 124.
Definition ch_lparen : N := 40.
Definition ch_lbracket : N := 91.
Definition ch_rbracket : N := 93.
Definition ch_caret : N := 94.
Definition ch_dollar : N := 36.

Section analyse.
(** [str.isdigit] and [str.isalnum] on one character. *)
Context (isdigit isalnum : N → bool).

Fixpoint drop_digits (s : text) : text :=
  match s with
  | c :: s' => if isdigit c then drop_digits s' else s
  | [] => []
  end.

(** The pattern from position [i] on; the result is the length of the quantifier. *)
Definition _is_quantifier_at (s : text) : nat :=
  match s with
  | [] => 0
  | c :: s' =>
      if bool_decide (c ∈ [ch_question; star; ch_plus]) then 1
      else if bool_decide (c = ch_lbrace) then
        let s1 := drop_digits s' in
        let saw_digit := negb (length s1 =? length s') in
        let s2 := match s1 with
                  | d :: s1' => if bool_decide (d = comma) then drop_digits s1' else s1
                  | [] => s1
                  end in
        match s2 with
        | d :: s3 => if saw_digit && bool_decide (d = ch_rbrace) then length s - length s3 else 0
        | [] => 0
        end
      else 0
  end.

(** Skip to after the closing bracket of a character class. *)
Fixpoint skip_members (s : text) : text :=
  match s with
  | [] => []
  | c :: s' =>
      if bool_decide (c = ch_rbracket) then s'
      else if bool_decide (c = backslash) then match s' with [] => [] | _ :: s'' => skip_members s'' end
      else skip_members s'
  end.

Definition skip_char (c : N) (s : text) : text :=
  match s with d :: s' => if bool_decide (d = c) then s' else s | [] => s end.

Definition skip_class (s : text) : text := skip_members (skip_char ch_rbracket (skip_char ch_caret s)).

Definition flush (current : text) (runs : list text) : list text :=
  if decide (current = []) then runs else runs ++ [current].

Inductive outcome := OutOfFuel | Bail | Runs (runs : list text).

(** The main loop on the rest [s] of the pattern. *)
Fixpoint runs_loop (fuel : nat) (s current : text) (runs : list text) : outcome :=
  match fuel with
  | O => OutOfFuel
  | S fuel' =>
      match s with
      | [] => Runs (flush current runs)
      | c :: s' =>
          if bool_decide (c = ch_bar) || bool_decide (c = ch_lparen) then Bail
          else if bool_decide (c = ch_lbracket) then runs_loop fuel' (skip_class s') [] (flush current runs)
          else if bool_decide (c ∈ [dot; ch_caret; ch_dollar]) then runs_loop fuel' s' [] (flush current runs)
          else if negb (_is_quantifier_at s =? 0) then
            runs_loop fuel' (drop (_is_quantifier_at s) s) []
              (if decide (current = []) then runs else flush (take (length current - 1) current) runs)
          else if bool_decide (c = backslash) then
            match s' with
            | [] => runs_loop fuel' s' [] (flush current runs)
            | nxt :: s'' =>
                if isalnum nxt then runs_loop fuel' s'' [] (flush current runs)
                else if negb (_is_quantifier_at s'' =? 0) then
                  runs_loop fuel' (drop (_is_quantifier_at s'') s'') [] (flush current runs)
                else runs_loop fuel' s'' (current ++ [nxt]) runs
            end
          else if negb (_is_quantifier_at s' =? 0) then
            runs_loop fuel' (drop (_is_quantifier_at s') s') [] (flush current runs)
          else runs_loop fuel' s' (current ++ [c]) runs
      end
  end.

(** Every iteration shortens the pattern, so this much fuel is enough. *)
Definition _required_literal_runs (pattern : text) : outcome := runs_loop (S (length pattern)) pattern [] [].

Definition required_of (runs : list text) : gset text :=
  ⋃ ((λ sub, if _TRIGRAM <=? length sub then trigrams (ascii_lower sub) else ∅) <$> (runs ≫= _ascii_subruns)).

Definition extract_required_trigrams (pattern : text) : option (gset text) :=
  match pattern with
  | [] => None
  | _ =>
      match _required_literal_runs pattern with
      | Runs runs =>
          let required := required_of runs in if decide (required = ∅) then None else Some required
      | Bail | OutOfFuel => None
      end
  end.

(** ** Termination *)

Lemma skip_members_length s : length (skip_members s) ≤ length s.
Proof.
  induction s as [s IH] using (induction_ltof1 _ length). unfold ltof in IH.
  destruct s as [|c s]; cbn [skip_members]; [done|]. case_bool_decide; [cbn; lia|]. case_bool_decide.
  - destruct s as [|d s]; [cbn; lia|]. specialize (IH s). cbn in *. lia.
  - specialize (IH s). cbn in *. lia.
Qed.

Lemma skip_char_length c s : length (skip_char c s) ≤ length s.
Proof. destruct s as [|d s]; cbn; [done|]. case_bool_decide; cbn; lia. Qed.

Lemma skip_class_length s : length (skip_class s) ≤ length s.
Proof.
  unfold skip_class. pose proof (skip_members_length (skip_char ch_rbracket (skip_char ch_caret s))).
  pose proof (skip_char_length ch_rbracket (skip_char ch_caret s)). pose proof (skip_char_length ch_caret s). lia.
Qed.

Lemma runs_loop_fuel fuel s current runs : length s < fuel → runs_loop fuel s current runs ≠ OutOfFuel.
Proof.
  revert s current runs. induction fuel as [|fuel IH]; intros s current runs Hf; [lia|]. cbn [runs_loop].
  destruct s as [|c s]; [done|]. cbn [length] in Hf.
  destruct (_ || _); [done|].
  case_bool_decide; [apply IH; pose proof (skip_class_length s); lia|].
  case_bool_decide; [apply IH; lia|].
  destruct (Nat.eqb_spec (_is_quantifier_at (c :: s)) 0) as [Hq|Hq]; cbn [negb].
  2: { apply IH. rewrite length_drop. cbn [length]. lia. }
  case_bool_decide.
  - destruct s as [|d s]; [apply IH; lia|]. cbn [length] in Hf. destruct (isalnum d); [apply IH; lia|].
    destruct (negb _); apply IH; rewrite ?length_drop; lia.
  - destruct (negb _); apply IH; rewrite ?length_drop; lia.
Qed.

(** ** A fragment of the regular expression syntax *)

(** Characters that are not themselves when unescaped. *)
Definition meta_chars : list N :=
  [ch_bar; ch_lparen; ch_lbracket; dot; ch_caret; ch_dollar; ch_question; star; ch_plus; ch_lbrace; backslash].

Inductive member := Member (c : N) | EscMember (c : N).

(** [Escape c] is a two-character escape such as \w, \b or \n. *)
Inductive atom :=
| Lit (c : N)
| EscLit (c : N)
| Escape (c : N)
| Dot
| Anchor (dollar : bool)
| Class (negated leading_bracket : bool) (ms : list member).

Inductive quantifier := QOpt | QStar | QPlus | QCount (m : text) | QRange (m n : text).

Record item := { it_atom : atom; it_quant : option (quantifier * bool) }.

Definition atom_wf (a : atom) : Prop :=
  match a with
  | Lit c => c ∉ meta_chars
  | EscLit c => isalnum c = false
  | Escape c => isalnum c = true
  | Dot | Anchor _ => True
  | Class neg lead ms =>
      (lead = true ∨ ms ≠ []) ∧ (neg = false → lead = false → head ms ≠ Some (Member ch_caret)) ∧
      Forall (λ m, match m with Member c => c ≠ ch_rbracket ∧ c ≠ backslash ∧ c ≠ ch_lbracket | EscMember _ => True end) ms
  end.

Definition digits (ds : text) : Prop := Forall (λ d, isdigit d = true) ds.

Definition quant_wf (q : quantifier) : Prop :=
  match q with
  | QCount m => m ≠ [] ∧ digits m
  | QRange m n => m ≠ [] ∧ digits m ∧ digits n
  | _ => True
  end.

Definition item_wf (it : item) : Prop :=
  atom_wf (it_atom it) ∧ match it_quant it with Some (q, _) => quant_wf q | None => True end.

(** ** Printing *)

Definition show_member (m : member) : text := match m with Member c => [c] | EscMember c => [backslash; c] end.

Definition show_atom (a : atom) : text :=
  match a with
  | Lit c => [c]
  | EscLit c | Escape c => [backslash; c]
  | Dot => [dot]
  | Anchor false => [ch_caret]
  | Anchor true => [ch_dollar]
  | Class neg lead ms =>
      [ch_lbracket] ++ (if neg then [ch_caret] else []) ++ (if lead then [ch_rbracket] else []) ++
      (ms ≫= show_member) ++ [ch_rbracket]
  end.

Definition show_quant (q : quantifier) : text :=
  match q with
  | QOpt => [ch_question]
  | QStar => [star]
  | QPlus => [ch_plus]
  | QCount m => [ch_lbrace] ++ m ++ [ch_rbrace]
  | QRange m n => [ch_lbrace] ++ m ++ [comma] ++ n ++ [ch_rbrace]
  end.

(** A trailing question mark makes the quantifier lazy. *)
Definition show_lazy (l : bool) : text := if l then [ch_question] else [].

Definition show_item (it : item) : text :=
  show_atom (it_atom it) ++ match it_quant it with Some (q, l) => show_quant q ++ show_lazy l | None => [] end.

Definition show (r : list item) : text := r ≫= show_item.

(** ** Meaning *)

(** What escapes, the dot and the classes match is left open: any meaning will do.
    [same c d]: the literal [c] matches the character [d]; equality, or equality up
    to case for a search that ignores it. *)
Context (same : N → N → Prop) (escape_matches : N → text → Prop) (dot_matches : N → Prop)
        (class_matches : bool → bool → list member → N → Prop) (digits_value : text → nat).

Inductive matches_atom : atom → text → Prop :=
| m_lit c d : same c d → matches_atom (Lit c) [d]
| m_esclit c d : same c d → matches_atom (EscLit c) [d]
| m_escape c w : escape_matches c w → matches_atom (Escape c) w
| m_dot c : dot_matches c → matches_atom Dot [c]
| m_anchor d : matches_atom (Anchor d) []
| m_class n l ms c : class_matches n l ms c → matches_atom (Class n l ms) [c].

Definition times (q : quantifier) (k : nat) : Prop :=
  match q with
  | QOpt => k ≤ 1
  | QStar => True
  | QPlus => 1 ≤ k
  | QCount m => k = digits_value m
  | QRange m n => digits_value m ≤ k ∧ (n = [] ∨ k ≤ digits_value n)
  end.

Inductive matches_item (it : item) : text → Prop :=
| mi_once w : it_quant it = None → matches_atom (it_atom it) w → matches_item it w
| mi_many q l ws : it_quant it = Some (q, l) → times q (length ws) →
    Forall (matches_atom (it_atom it)) ws → matches_item it (concat ws).

Inductive matches : list item → text → Prop :=
| m_nil : matches [] []
| m_cons it r w w' : matches_item it w → matches r w' → matches (it :: r) (w ++ w').

(** ** The analyser follows the syntax *)

(** [",".isdigit()] and ["}".isdigit()] are false. *)
Hypothesis isdigit_comma : isdigit comma = false.
Hypothesis isdigit_rbrace : isdigit ch_rbrace = false.

Lemma quantifier_none c s : c ∉ [ch_question; star; ch_plus; ch_lbrace] → _is_quantifier_at (c :: s) = 0.
Proof.
  rewrite !not_elem_of_cons. intros (H1&H2&H3&H4&_). cbn [_is_quantifier_at].
  rewrite bool_decide_eq_false_2, bool_decide_eq_false_2; [done|done|].
  rewrite !not_elem_of_cons. split_and!; try done. apply not_elem_of_nil.
Qed.

Lemma drop_digits_app m c s : digits m → isdigit c = false → drop_digits (m ++ c :: s) = c :: s.
Proof. intros Hm Hc. induction Hm as [|d m Hd Hm IH]; cbn; [by rewrite Hc|]. by rewrite Hd. Qed.

Lemma quantifier_show q s : quant_wf q → _is_quantifier_at (show_quant q ++ s) = length (show_quant q).
Proof using isdigit_comma isdigit_rbrace.
  destruct q as [| | |m|m n]; [done..| |].
  - intros [Hne Hm]. unfold show_quant. rewrite <-!app_assoc. cbn [app _is_quantifier_at].
    rewrite (drop_digits_app m ch_rbrace s) by done. rewrite length_app. cbn [length].
    destruct m as [|d m]; [done|]. cbn [length].
    destruct (Nat.eqb_spec (S (length s)) (S (length m) + S (length s))); [lia|].
    eval_decisions. cbn. rewrite !length_app. cbn. lia.
  - intros (Hne&Hm&Hn). unfold show_quant. rewrite <-!app_assoc. cbn [app _is_quantifier_at].
    rewrite (drop_digits_app m comma) by done. rewrite (drop_digits_app n ch_rbrace s) by done.
    rewrite !length_app. cbn [length]. destruct m as [|d m]; [done|]. cbn [length].
    rewrite length_app. cbn [length].
    destruct (Nat.eqb_spec (S (length n + S (length s))) (S (length m) + S (length n + S (length s)))); [lia|].
    eval_decisions. cbn. rewrite !length_app. cbn. rewrite !length_app. cbn. lia.
Qed.

Lemma show_atom_cons a : ∃ c t, show_atom a = c :: t ∧ (atom_wf a → c ∉ [ch_question; star; ch_plus; ch_lbrace]).
Proof.
  destruct a as [c|c|c| |[]|]; cbn [show_atom app]; eexists _, _; (split; [reflexivity|]); intros Hwf;
    try (apply (bool_decide_unpack _); by vm_compute).
  cbn in Hwf. unfold meta_chars in Hwf. rewrite !not_elem_of_cons in *.
  destruct_and! Hwf. split_and!; done.
Qed.

Lemma quantifier_rest r : Forall item_wf r → _is_quantifier_at (show r) = 0.
Proof.
  destruct 1 as [|it r [Ha _] _]; [done|]. unfold show. cbn. unfold show_item.
  destruct (show_atom_cons (it_atom it)) as (c&t&->&Hc). cbn. by apply quantifier_none, Hc.
Qed.

Lemma skip_members_show ms s :
  Forall (λ m, match m with Member c => c ≠ ch_rbracket ∧ c ≠ backslash ∧ c ≠ ch_lbracket | EscMember _ => True end) ms →
  skip_members ((ms ≫= show_member) ++ ch_rbracket :: s) = s.
Proof.
  induction 1 as [|[c|c] ms Hm Hms IH]; [done| |].
  - cbn. destruct Hm as (?&?&_). rewrite !bool_decide_eq_false_2 by done. apply IH.
  - cbn. apply IH.
Qed.

Lemma skip_char_ne c d s : d ≠ c → skip_char c (d :: s) = d :: s.
Proof. intros. cbn. by rewrite bool_decide_eq_false_2. Qed.

Lemma skip_class_show neg lead ms s :
  atom_wf (Class neg lead ms) →
  skip_class ((if neg then [ch_caret] else []) ++ (if lead then [ch_rbracket] else []) ++
              (ms ≫= show_member) ++ [ch_rbracket] ++ s) = s.
Proof.
  intros (Hne&Hcaret&Hms). unfold skip_class.
  assert (skip_char ch_caret ((if neg then [ch_caret] else []) ++ (if lead then [ch_rbracket] else []) ++
    (ms ≫= show_member) ++ [ch_rbracket] ++ s) =
    (if lead then [ch_rbracket] else []) ++ (ms ≫= show_member) ++ [ch_rbracket] ++ s) as ->.
  { destruct neg; [done|]. destruct lead; [done|]. cbn [app].
    destruct Hne as [?|Hne]; [done|]. destruct ms as [|[c|c] ms]; [done| |].
    - apply skip_char_ne. intros ->. by apply Hcaret.
    - by apply skip_char_ne. }
  destruct lead; cbn [app].
  - by apply skip_members_show.
  - destruct Hne as [?|Hne]; [done|]. rewrite <-(skip_members_show ms s Hms) at 2. f_equal.
    destruct ms as [|[c|c] ms]; [done| |].
    + apply Forall_cons in Hms as [(?&_) _]. by apply skip_char_ne.
    + by apply skip_char_ne.
Qed.

(** ** Runs are required *)

(** [x] occurs in [pre] up to [R]. *)
Definition occurs (R : N → N → Prop) (x pre : text) : Prop := ∃ y, Forall2 R x y ∧ substring y pre.

(** Having consumed [pre]: the current run ends it and the finished runs occur in it. *)
Definition ok (R : N → N → Prop) (pre current : text) (runs : list text) : Prop :=
  (∃ a y, pre = a ++ y ∧ Forall2 R current y) ∧ Forall (λ x, occurs R x pre) runs.

Lemma occurs_app R x pre w : occurs R x pre → occurs R x (pre ++ w).
Proof. intros (y&Hy&a&b&->). exists y. split; [done|]. exists a, (b ++ w). by rewrite <-!app_assoc. Qed.

Lemma occurs_eq x pre : occurs eq x pre → substring x pre.
Proof. by intros (y&->%list_eq_Forall2&?). Qed.

Lemma ok_flush R pre current runs w : ok R pre current runs → ok R (pre ++ w) [] (flush current runs).
Proof.
  intros [(a&y&->&Hy) Hr]. split; [exists ((a ++ y) ++ w), []; by rewrite app_nil_r|]. unfold flush.
  assert (Forall (λ x, occurs R x ((a ++ y) ++ w)) runs) as Hr'.
  { eapply Forall_impl; [exact Hr|]. intros x. apply occurs_app. }
  case_decide; [done|]. apply Forall_app. split; [done|]. constructor; [|done]. exists y. split; [done|].
  exists a, w. by rewrite <-app_assoc.
Qed.

Lemma ok_push (R : N → N → Prop) pre current runs c d :
  R c d → ok R pre current runs → ok R (pre ++ [d]) (current ++ [c]) runs.
Proof.
  intros Hcd [(a&y&->&Hy) Hr]. split.
  - exists a, (y ++ [d]). split; [by rewrite app_assoc|]. apply Forall2_app; [done|]. by constructor.
  - eapply Forall_impl; [exact Hr|]. intros x. apply occurs_app.
Qed.

(** Reaching [Runs out] through the rest [s] with a state that is [ok]. *)
Definition reaches (s pre : text) (out : list text) : Prop :=
  ∃ fuel current runs, runs_loop fuel s current runs = Runs out ∧ ok same pre current runs.

Lemma skip_lazy l s fuel runs out pre :
  runs_loop fuel (show_lazy l ++ s) [] runs = Runs out → ok same pre [] runs → reaches s pre out.
Proof.
  destruct l; cbn [show_lazy app]; [|intros; by exists fuel, [], runs].
  destruct fuel as [|fuel]; cbn; [done|]. intros. by exists fuel, [], runs.
Qed.

Lemma skip_quant q l s fuel runs out pre :
  quant_wf q → runs_loop fuel (show_quant q ++ show_lazy l ++ s) [] runs = Runs out → ok same pre [] runs →
  reaches s pre out.
Proof using isdigit_comma isdigit_rbrace.
  intros Hq Hloop Hok. destruct fuel as [|fuel]; [done|].
  pose proof (quantifier_show q (show_lazy l ++ s) Hq) as Hlen.
  pose proof (drop_app_length (show_quant q) (show_lazy l ++ s)) as Hdrop.
  assert (∃ c t, show_quant q = c :: t ∧ c ∈ [ch_question; star; ch_plus; ch_lbrace]) as (c&t&Hc&Hin).
  { destruct q; eexists _, _; (split; [reflexivity|]); apply (bool_decide_unpack _); by vm_compute. }
  rewrite Hc in *. cbn [app runs_loop] in Hloop. rewrite <-app_comm_cons in Hlen, Hdrop.
  assert (c ≠ ch_bar ∧ c ≠ ch_lparen ∧ c ≠ ch_lbracket ∧ c ∉ [dot; ch_caret; ch_dollar]) as (?&?&?&?).
  { rewrite !elem_of_cons in Hin. destruct Hin as [->|[->|[->|[->|Hin]]]]; [..|by apply not_elem_of_nil in Hin];
      (split_and!; [done..|]); apply (bool_decide_unpack _); by vm_compute. }
  rewrite (bool_decide_eq_false_2 (c = ch_bar)), (bool_decide_eq_false_2 (c = ch_lparen)),
    (bool_decide_eq_false_2 (c = ch_lbracket)), (bool_decide_eq_false_2 (c ∈ _)) in Hloop by done.
  cbn [orb] in Hloop. rewrite Hlen in Hloop. cbn [length Nat.eqb negb] in Hloop.
  cbn [length] in Hdrop. rewrite Hdrop in Hloop. by eapply skip_lazy.
Qed.

Definition tail_of (it : item) : text :=
  match it_quant it with Some (q, l) => show_quant q ++ show_lazy l | None => [] end.

(** After an atom that breaks the current run. *)
Lemma after_breaker it s fuel current runs out pre w :
  item_wf it → runs_loop fuel (tail_of it ++ s) [] (flush current runs) = Runs out → ok same pre current runs →
  reaches s (pre ++ w) out.
Proof using isdigit_comma isdigit_rbrace.
  intros [_ Hq] Hloop Hok. apply (ok_flush same pre current runs w) in Hok. unfold tail_of in Hloop.
  destruct (it_quant it) as [[q l]|].
  - rewrite <-app_assoc in Hloop. by eapply skip_quant.
  - by exists fuel, [], (flush current runs).
Qed.

(** After a literal: pushed when it has no quantifier, dropped otherwise. *)
Lemma after_literal it c s fuel current runs out pre w :
  item_wf it → _is_quantifier_at s = 0 → ok same pre current runs →
  (it_quant it = None → ∃ d, w = [d] ∧ same c d) →
  (if negb (_is_quantifier_at (tail_of it ++ s) =? 0)
   then runs_loop fuel (drop (_is_quantifier_at (tail_of it ++ s)) (tail_of it ++ s)) [] (flush current runs)
   else runs_loop fuel (tail_of it ++ s) (current ++ [c]) runs) = Runs out →
  reaches s (pre ++ w) out.
Proof using isdigit_comma isdigit_rbrace.
  intros [_ Hq] Hs Hok Hw. unfold tail_of. destruct (it_quant it) as [[q l]|].
  - rewrite <-app_assoc, quantifier_show by done.
    assert (length (show_quant q) ≠ 0) as Hne by (by destruct q).
    rewrite (proj2 (Nat.eqb_neq _ _) Hne). cbn [negb]. rewrite drop_app_length. intros Hloop.
    eapply skip_lazy; [exact Hloop|]. by apply ok_flush.
  - cbn [app]. rewrite Hs. cbn [Nat.eqb negb]. intros Hloop. destruct (Hw eq_refl) as (d&->&Hd).
    exists fuel, (current ++ [c]), runs. split; [done|by apply ok_push].
Qed.

Lemma item_reaches it s fuel current runs out pre w :
  item_wf it → _is_quantifier_at s = 0 → runs_loop fuel (show_item it ++ s) current runs = Runs out →
  ok same pre current runs → matches_item it w → reaches s (pre ++ w) out.
Proof using isdigit_comma isdigit_rbrace.
  intros Hwf Hs Hloop Hok Hm. pose proof Hwf as [Ha _]. unfold show_item in Hloop.
  fold (tail_of it) in Hloop. rewrite <-app_assoc in Hloop.
  destruct fuel as [|fuel]; [done|].
  assert (it_quant it = None → matches_atom (it_atom it) w) as Hw1.
  { intros Hn. inversion Hm as [w0 ? ?|q l ws Hq]; subst; [done|congruence]. }
  destruct (it_atom it) as [c|c|c| |d|neg lead ms]; cbn [show_atom app atom_wf] in *.
  - unfold meta_chars in Ha. rewrite !not_elem_of_cons in Ha. destruct_and! Ha. cbn [runs_loop] in Hloop.
    rewrite (bool_decide_eq_false_2 (c = ch_bar)), (bool_decide_eq_false_2 (c = ch_lparen)),
      (bool_decide_eq_false_2 (c = ch_lbracket)), (bool_decide_eq_false_2 (c ∈ [dot; ch_caret; ch_dollar])),
      quantifier_none, (bool_decide_eq_false_2 (c = backslash)) in Hloop
      by (try done; rewrite !not_elem_of_cons; split_and!; done).
    cbn [orb Nat.eqb negb] in Hloop. eapply (after_literal it c); try done.
    intros Hn. specialize (Hw1 Hn). inversion Hw1; eauto.
  - cbn [runs_loop] in Hloop. rewrite quantifier_none in Hloop by (apply (bool_decide_unpack _); by vm_compute).
    revert Hloop. eval_decisions. cbn [orb Nat.eqb negb]. rewrite Ha. intros Hloop.
    eapply (after_literal it c); try done. intros Hn. specialize (Hw1 Hn). inversion Hw1; eauto.
  - cbn [runs_loop] in Hloop. rewrite quantifier_none in Hloop by (apply (bool_decide_unpack _); by vm_compute).
    revert Hloop. eval_decisions. cbn [orb Nat.eqb negb]. rewrite Ha. intros Hloop. by eapply after_breaker.
  - cbn [runs_loop] in Hloop. revert Hloop. eval_decisions. cbn [orb]. intros Hloop. by eapply after_breaker.
  - revert Hloop. destruct d; cbn [app runs_loop]; eval_decisions; cbn [orb]; intros Hloop; by eapply after_breaker.
  - cbn [runs_loop] in Hloop. rewrite <-!app_assoc in Hloop. rewrite skip_class_show in Hloop by done.
    revert Hloop. eval_decisions. cbn [orb]. intros Hloop. by eapply after_breaker.
Qed.

Lemma runs_required r pre w out :
  Forall item_wf r → reaches (show r) pre out → matches r w → Forall (λ x, occurs same x (pre ++ w)) out.
Proof using isdigit_comma isdigit_rbrace.
  intros Hwf. revert pre w. induction Hwf as [|it r Hit Hr IH]; intros pre w (fuel&current&runs&Hloop&Hok) Hm.
  - inversion Hm; subst. destruct fuel as [|fuel]; [done|]. cbn in Hloop. injection Hloop as <-.
    by apply (ok_flush same pre current runs []).
  - inversion Hm as [|? ? w1 w2 Hi Hrest]; subst. rewrite app_assoc. apply IH; [|done].
    eapply item_reaches; [done|by apply quantifier_rest|exact Hloop|done|done].
Qed.

(** ** Trigrams of the runs *)

Lemma substring_trans x y z : substring x y → substring y z → substring x z.
Proof. intros (a&b&->) (c&d&->). exists (c ++ a), (b ++ d). by rewrite <-!app_assoc. Qed.

Lemma subruns_spec run sub :
  sub ∈ _ascii_subruns run → substring sub run ∧ Forall (λ c, _index_storable c = true) sub.
Proof.
  unfold _ascii_subruns.
  assert (∀ rest pre current parts,
    ok eq pre current parts → Forall (λ c, _index_storable c = true) current →
    Forall (Forall (λ c, _index_storable c = true)) parts →
    Forall (λ x, occurs eq x (pre ++ rest) ∧ Forall (λ c, _index_storable c = true) x)
      (subruns_loop rest current parts)) as Hgen.
  { induction rest as [|c rest IH]; intros pre current parts Hok Hc Hp; cbn [subruns_loop].
    - pose proof (ok_flush eq pre current parts [] Hok) as [_ Hf]. unfold flush in Hf.
      apply Forall_and. split; [done|]. case_decide; [done|]. apply Forall_app. auto.
    - replace (pre ++ c :: rest) with ((pre ++ [c]) ++ rest) by (by rewrite <-app_assoc).
      destruct (_index_storable c) eqn:E.
      + apply IH; [by apply ok_push| |done]. apply Forall_app. auto.
      + apply IH; [by apply (ok_flush eq pre current parts [c])|constructor|].
        case_decide; [done|]. apply Forall_app. auto. }
  intros Hin. assert (ok eq [] [] []) as H0 by (split; [by exists [], []|constructor]).
  specialize (Hgen run [] [] [] H0 (Forall_nil_2 _) (Forall_nil_2 _)).
  destruct (proj1 (Forall_forall _ _) Hgen sub Hin). split; [by apply occurs_eq|done].
Qed.

Lemma trigrams_spec t s : t ∈ trigrams s → substring t s ∧ length t = 3.
Proof.
  unfold trigrams. rewrite elem_of_list_to_set. intros (i&->&Hi)%list_elem_of_fmap.
  apply elem_of_seq in Hi. unfold _TRIGRAM in *. unfold slice. split.
  - exists (take i s), (drop 3 (drop i s)). replace (i + 3 - i) with 3 by lia. by rewrite take_drop, take_drop.
  - rewrite length_take, length_drop. lia.
Qed.

(** Comparison of characters may ignore case, but only as the index does. *)
Hypothesis same_lower : ∀ c d, same c d → _index_storable c = true →
  ascii_lower_char d = ascii_lower_char c ∧ _index_storable d = true.

Lemma same_storable x u :
  Forall (λ c, _index_storable c = true) x → Forall2 same x u →
  ascii_lower x = ascii_lower u ∧ Forall (λ c, _index_storable c = true) u.
Proof using same_lower.
  intros Hx Hu. induction Hu as [|c d x u Hcd Hu IH]; [done|]. inversion Hx as [|?? Hc Hx']; subst.
  destruct (IH Hx') as [E1 E2]. destruct (same_lower c d Hcd Hc) as [E3 E4]. split; [|by constructor].
  unfold ascii_lower in *. cbn. by rewrite E1, E3.
Qed.

Lemma occurs_part a x b run w : substring (a ++ x ++ b) run → occurs same run w → ∃ u, Forall2 same x u ∧ substring u w.
Proof.
  intros (p&q&->) (y&Hy&Hsub). rewrite <-!app_assoc in Hy.
  apply Forall2_app_inv_l in Hy as (y1&y'&_&Hy&->). apply Forall2_app_inv_l in Hy as (y2&y''&_&Hy&->).
  apply Forall2_app_inv_l in Hy as (u&y3&Hu&_&->). exists u. split; [done|].
  apply (substring_trans _ (y1 ++ y2 ++ u ++ y3)); [|done]. exists (y1 ++ y2), y3. by rewrite <-!app_assoc.
Qed.

(** Soundness on the fragment: what is required occurs in every match. *)
Lemma required_in_match r w req before after :
  Forall item_wf r → matches r w → extract_required_trigrams (show r) = Some req →
  ∀ t, t ∈ req → ∃ u, t = ascii_lower u ∧ length u = 3 ∧ substring u (before ++ w ++ after) ∧
    Forall (λ c, _index_storable c = true) u.
Proof using isdigit_comma isdigit_rbrace same_lower.
  intros Hwf Hm Hex t Ht. unfold extract_required_trigrams in Hex.
  destruct (show r) as [|c0 p0] eqn:Hshow; [done|]. rewrite <-Hshow in Hex.
  destruct (_required_literal_runs (show r)) as [| |runs] eqn:Hruns; [done|done|].
  case_decide; [done|]. injection Hex as <-.
  assert (Forall (λ x, occurs same x ([] ++ w)) runs) as Hreq.
  { apply (runs_required r); [done| |done]. exists (S (length (show r))), [], []. split; [done|].
    split; [by exists [], []|constructor]. }
  unfold required_of in Ht. apply elem_of_union_list in Ht as (X&HX&Ht).
  apply list_elem_of_fmap in HX as (sub&->&Hsub). apply list_elem_of_bind in Hsub as (run&Hsub&Hrun).
  destruct (_TRIGRAM <=? length sub); [|by apply elem_of_empty in Ht].
  apply trigrams_spec in Ht as [(a&b&Hab) Hlen]. apply subruns_spec in Hsub as [Hsr Hst].
  unfold ascii_lower in Hab. apply fmap_app_inv in Hab as (a'&ub&_&Hub&->).
  symmetry in Hub. apply fmap_app_inv in Hub as (x&b'&Hx&_&->).
  rewrite Forall_forall in Hreq. destruct (occurs_part a' x b' run w) as (u&Hu&Hsub);
    [done|by apply (Hreq run)|]. apply Forall_app in Hst as [_ [Hst _]%Forall_app].
  destruct (same_storable x u Hst Hu) as [Hlow Hst']. exists u. change (t = ascii_lower x) in Hx.
  split_and!; [congruence|by rewrite <-(Forall2_length _ _ _ Hu), <-(length_fmap ascii_lower_char x), <-Hlen, Hx| |done].
  apply (substring_trans _ w); [done|]. by exists before, after.
Qed.

(** A character the analyser copies to the current run and the index stores. *)
Definition plain (c : N) : Prop := (c ∉ meta_chars) ∧ _index_storable c = true.

Lemma runs_loop_plain s : ∀ fuel current runs, Forall plain s → length s < fuel →
  runs_loop fuel s current runs = Runs (flush (current ++ s) runs).
Proof.
  clear same_lower isdigit_comma isdigit_rbrace same escape_matches dot_matches class_matches digits_value.
  induction s as [|c s IH]; intros [|fuel] current runs Hs Hf; cbn [length] in Hf; try lia; cbn [runs_loop].
  { by rewrite app_nil_r. }
  inversion Hs as [|?? [Hc Hst] Hs']; subst. unfold meta_chars in Hc.
  rewrite !bool_decide_eq_false_2 by set_solver. cbn [orb].
  rewrite (quantifier_none c s) by set_solver. cbn [Nat.eqb negb].
  assert (_is_quantifier_at s = 0) as ->.
  { destruct s as [|d s']; [done|]. inversion Hs' as [|?? [Hd _] _]; subst. apply quantifier_none. unfold meta_chars in Hd. set_solver. }
  cbn [Nat.eqb negb]. rewrite IH by (done || lia). by rewrite <-app_assoc.
Qed.

Lemma subruns_plain s current parts : Forall plain s → subruns_loop s current parts = flush (current ++ s) parts.
Proof.
  intros Hs. revert current. induction Hs as [|c s [_ Hc] Hs IH]; intros current; cbn [subruns_loop].
  - by rewrite app_nil_r.
  - by rewrite Hc, IH, <-app_assoc.
Qed.

Lemma trigrams_nonempty s : 3 ≤ length s → trigrams s ≠ ∅.
Proof.
  intros Hs. assert (slice s 0 3 ∈ trigrams s) as Hin; [|intros E; rewrite E in Hin; by apply elem_of_empty in Hin].
  unfold trigrams, _TRIGRAM. apply elem_of_list_to_set, list_elem_of_fmap. exists 0. split; [done|].
  apply elem_of_seq. lia.
Qed.

(** Completeness on plain text: a literal of three characters or more is not given
    up on, all its trigrams are required. *)
Lemma literal_required s : Forall plain s → 3 ≤ length s →
  extract_required_trigrams s = Some (trigrams (ascii_lower s)).
Proof.
  intros Hs Hlen. unfold extract_required_trigrams. destruct s as [|c s'] eqn:Es; [cbn in Hlen; lia|]. rewrite <-Es in *.
  unfold _required_literal_runs. rewrite runs_loop_plain by (done || lia).
  assert (required_of (flush ([] ++ s) []) = trigrams (ascii_lower s)) as ->.
  { unfold flush. rewrite decide_False by (cbn; congruence). cbn [app]. unfold required_of. cbn [mbind list_bind].
    unfold _ascii_subruns. rewrite subruns_plain by done. unfold flush. rewrite decide_False by (cbn; congruence).
    cbn [app fmap list_fmap union_list foldr]. rewrite (proj2 (Nat.leb_le _ _)) by (unfold _TRIGRAM; lia). apply union_empty_r_L. }
  rewrite decide_False; [done|]. apply trigrams_nonempty. unfold ascii_lower. by rewrite length_fmap.
Qed.

End analyse.

(** ** Witness and the limits of the analyser *)

Definition ascii_digit (c : N) : bool := ((48 <=? c) && (c <=? 57))%N.
Definition ascii_alnum (c : N) : bool :=
  ascii_digit c || ((65 <=? c) && (c <=? 90))%N || ((97 <=? c) && (c <=? 122))%N.

(** Case-insensitive comparison of ASCII letters. *)
Definition same_ci (c d : N) : Prop := ascii_lower_char d = ascii_lower_char c.

Lemma same_ci_lower c d : same_ci c d → _index_storable c = true →
  ascii_lower_char d = ascii_lower_char c ∧ _index_storable d = true.
Proof.
  unfold same_ci. intros E Hc. split; [done|]. revert E Hc. unfold ascii_lower_char, _index_storable.
  rewrite !orb_true_iff, !andb_true_iff, !bool_decide_eq_true, !elem_of_cons, !elem_of_nil, !N.leb_le.
  repeat match goal with |- context [(?a <=? ?b)%N] => destruct (N.leb_spec a b) end; cbn [andb]; lia.
Qed.

Definition lits (s : string) : list item := (λ c, {| it_atom := Lit c; it_quant := None |}) <$> txt s.

(** def\w+x{2,}foo *)
Definition sample : list item :=
  lits "def" ++ [{| it_atom := Escape 119; it_quant := Some (QPlus, false) |};
                 {| it_atom := Lit 120; it_quant := Some (QRange [50%N] [], false) |}] ++ lits "foo".


(** Outside the fragment the analyser is not sound: longer escapes and bracketed
    classes inside classes leave part of their spelling as a required literal.
    \x41bcd matches Abcd, [[:alpha:]]xyz matches qxyz. *)
Lemma long_escapes_unsound :
  extract_required_trigrams ascii_digit ascii_alnum (txt "\x41bcd") = Some {[txt "41b"; txt "1bc"; txt "bcd"]} ∧
  extract_required_trigrams ascii_digit ascii_alnum (txt "[[:alpha:]]xyz") = Some {[txt "]xy"; txt "xyz"]} ∧
  contains (txt "41b") (txt "abcd") = false ∧ contains (txt "]xy") (txt "qxyz") = false.
Proof. split_and!; [apply (bool_decide_unpack _); by vm_compute..|done|done]. Qed.
End RegexTrigram.
