(* ===== verification/TrigramIndex.v ===== *)
(** * The trigram index and the regular expression pre-filter

    src/src/code_indexer/global_repos/trigram_index_manager.py, with
    [RegexSearchService._prefilter_candidate_files] and the lazy rebuild of
    src/src/code_indexer/global_repos/regex_search.py.

    The SQLite file is its tables as lists of rows.  The file system is what [stat]
    and [read_bytes] return for a repository-relative path; the order in which a
    Python set is iterated, [str.lower] outside ASCII and [Path.resolve] are
    parameters. *)

From S2P Require Import Prelude.
From S2P Require Import PyText.
From S2P Require Import IdIndex.
From S2P Require Import RegexTrigram.
From stdpp Require Import options.

Module TrigramIndex.
Import RegexTrigram.

Abbreviation bytes := (list N).

Definition _SCHEMA_VERSION : Z := 1.
Definition _MAX_INDEX_BYTES : N := 5 * 1024 * 1024.
Definition _INSERT_BATCH : Z := 5000.
Definition _COMMIT_EVERY_FILES : Z := 2000.
Definition _MAX_PREFILTER_CANDIDATES : Z := 8000.

(** The character class of [_PRINTABLE_RUN]. *)
Definition printable (b : N) : bool := bool_decide (b ∈ [9; 10; 13]%N) || ((32 <=? b) && (b <=? 126))%N.

(** [_PRINTABLE_RUN.finditer]: the maximal runs of at least three such bytes. *)
Fixpoint printable_runs (data current : bytes) : list bytes :=
  let found := if _TRIGRAM <=? length current then [current] else [] in
  match data with
  | [] => found
  | b :: rest => if printable b then printable_runs rest (current ++ [b]) else found ++ printable_runs rest []
  end.

(** ** Tables *)

Record file_row := { fr_id : Z; fr_path : text; fr_indexed : bool }.

Record database := {
  files : list file_row;
  postings : list (text * Z);
  trigram_df : gmap text Z;
  file_count : Z;
  schema_version : Z }.

(** A database file: not readable as one (or of an older layout), or its tables. *)
Inductive db_file := BadFormat | Db (d : database).

(** [SELECT trigram, COUNT( * ) ... GROUP BY trigram]. *)
Definition group_count (ts : list text) : gmap text Z :=
  foldr (λ t m, <[t := (default 0 (m !! t) + 1)%Z]> m) ∅ ts.

Definition exists_index (f : option db_file) : bool :=
  match f with
  | None | Some BadFormat => false
  | Some (Db d) => (schema_version d =? _SCHEMA_VERSION)%Z && negb (bool_decide (files d = []))
  end.

(** ** Printable runs *)

(** The two modules agree on the characters an index can hold. *)
Lemma printable_storable b : printable b = _index_storable b.
Proof. unfold printable, _index_storable. apply orb_comm. Qed.

Lemma storable_ascii c : _index_storable c = true → (c < 128)%N.
Proof.
  unfold _index_storable. rewrite orb_true_iff, andb_true_iff, !N.leb_le, bool_decide_eq_true, !elem_of_cons, elem_of_nil. lia.
Qed.

(** A text without [b] does not straddle it. *)
Lemma substring_around u x b y : b ∉ u → substring u (x ++ b :: y) → substring u x ∨ substring u y.
Proof.
  intros Hb (p&q&E). apply app_eq_inv in E as [(k&->&E)|(k&->&E)].
  - destruct (decide (length u ≤ length k)) as [Hle|Hgt].
    + left. assert (k = u ++ take (length k - length u) q) as ->.
      { apply (f_equal (take (length k))) in E. rewrite take_app_length, take_app, (take_ge u) in E by lia. done. }
      eexists p, _. reflexivity.
    + exfalso. apply Hb. apply (f_equal (.!! length k)) in E. rewrite lookup_app_l in E by lia.
      rewrite lookup_app_r, Nat.sub_diag in E by lia. cbn in E. by eapply list_elem_of_lookup_2.
  - destruct k as [|b' k]; cbn in E.
    + destruct u as [|c u]; [left; exists x, []; by rewrite !app_nil_r|]. cbn in E. injection E as -> _.
      exfalso. apply Hb. left.
    + injection E as _ ->. right. by exists k, q.
Qed.

Lemma printable_runs_covers u data current :
  Forall (λ c, printable c = true) u → 3 ≤ length u → substring u (current ++ data) →
  Forall (λ c, printable c = true) current → ∃ run, run ∈ printable_runs data current ∧ substring u run.
Proof.
  intros Hu Hlen. revert current. induction data as [|b data IH]; intros current Hsub Hc; cbn [printable_runs].
  - rewrite app_nil_r in Hsub. exists current. split; [|done]. pose proof Hsub as (p&q&->).
    rewrite (proj2 (Nat.leb_le _ _)); [left|]. rewrite !length_app. unfold _TRIGRAM. lia.
  - destruct (printable b) eqn:Eb.
    + apply IH; [by rewrite <-app_assoc|]. apply Forall_app. auto.
    + apply substring_around in Hsub as [Hsub|Hsub].
      * exists current. split; [|done]. pose proof Hsub as (p&q&->). apply elem_of_app. left.
        rewrite (proj2 (Nat.leb_le _ _)); [left|]. rewrite !length_app. unfold _TRIGRAM. lia.
      * destruct (IH [] Hsub) as (run&?&?); [constructor|]. exists run. split; [|done]. apply elem_of_app. auto.
      * intros Hin. rewrite Forall_forall in Hu. apply Hu in Hin. congruence.
Qed.

Lemma printable_runs_printable data current run :
  Forall (λ c, printable c = true) current → run ∈ printable_runs data current → Forall (λ c, printable c = true) run.
Proof.
  revert current. induction data as [|b data IH]; intros current Hc; cbn [printable_runs].
  - destruct (_ <=? _); [|by intros ?%elem_of_nil]. by intros ->%list_elem_of_singleton.
  - destruct (printable b) eqn:Eb; [apply IH, Forall_app; auto|]. rewrite elem_of_app. intros [Hin|Hin].
    + destruct (_ <=? _); [|by apply elem_of_nil in Hin]. by apply list_elem_of_singleton in Hin as ->.
    + by apply (IH []).
Qed.

Lemma trigrams_complete t s : substring t s → length t = 3 → t ∈ trigrams s.
Proof.
  intros (a&b&->) Hlen. unfold trigrams, _TRIGRAM. apply elem_of_list_to_set, list_elem_of_fmap. exists (length a). split.
  - unfold slice. rewrite drop_app_length. replace (length a + 3 - length a) with (length t) by lia.
    by rewrite take_app_length.
  - apply elem_of_seq. rewrite !length_app. lia.
Qed.

Lemma ascii_lower_char_idem c : ascii_lower_char (ascii_lower_char c) = ascii_lower_char c.
Proof.
  unfold ascii_lower_char. destruct (N.leb_spec 65 c), (N.leb_spec c 90); cbn [andb];
    repeat match goal with |- context [(?a <=? ?b)%N] => destruct (N.leb_spec a b) end; cbn [andb]; lia.
Qed.

Lemma ascii_lower_idem s : ascii_lower (ascii_lower s) = ascii_lower s.
Proof.
  unfold ascii_lower. rewrite <-list_fmap_compose. apply list_fmap_ext. intros _ c _. apply ascii_lower_char_idem.
Qed.

(** An ASCII piece of a text is a piece of its UTF-8 encoding. *)
Lemma ascii_in_encoding u w enc :
  Forall (λ c, (c < 128)%N) u → substring u w → Utf8.encode w = Some enc → substring u enc.
Proof.
  intros Hu (a&b&->). unfold Utf8.encode. intros (bss&Hm&->)%fmap_Some.
  apply mapM_Some_1, Forall2_app_inv_l in Hm as (ea&er&_&Hm&->).
  apply Forall2_app_inv_l in Hm as (eu&eb&Hm&_&->). rewrite !concat_app.
  assert (concat eu = u) as ->; [|by exists (concat ea), (concat eb)].
  clear -Hu Hm. induction Hm as [|c e u eu Hc Hm IH]; [done|]. inversion Hu as [|?? Hlt Hu']; subst.
  unfold Utf8.encode_char in Hc. rewrite (proj2 (N.ltb_lt _ _) Hlt) in Hc. injection Hc as <-. cbn. by rewrite IH.
Qed.

(** [DELETE FROM cand WHERE NOT EXISTS ...] per trigram, stopping at an empty table. *)
Fixpoint narrow (rows : list (text * Z)) (ts : list text) (cand : list Z) : list Z :=
  match ts with
  | [] => cand
  | t :: ts' =>
      let cand' := filter (λ i, (t, i) ∈ rows) cand in
      if decide (cand' = []) then cand' else narrow rows ts' cand'
  end.

(** ** Numbering of files and counting of trigrams *)

(** The file with identifier [i] when numbering starts at [k]. *)
Definition file_at (k : Z) (rels : list text) (i : Z) (rel : text) : Prop :=
  (k ≤ i)%Z ∧ rels !! Z.to_nat (i - k) = Some rel.

Lemma file_at_cons k rel0 rels i rel :
  file_at k (rel0 :: rels) i rel ↔ (i = k ∧ rel = rel0) ∨ file_at (k + 1) rels i rel.
Proof.
  unfold file_at. destruct (decide (i = k)) as [->|Hne].
  - replace (k - k)%Z with 0%Z by lia. cbn. split; [naive_solver|]. intros [[_ ->]|[? _]]; [split; [lia|done]|lia].
  - split.
    + intros [? H]. right. split; [lia|]. rewrite <-H. replace (i - k)%Z with (Z.succ (i - (k + 1)))%Z by lia.
      by rewrite Z2Nat.inj_succ by lia.
    + intros [[? _]|[? H]]; [done|]. split; [lia|]. rewrite <-H.
      replace (i - k)%Z with (Z.succ (i - (k + 1)))%Z by lia. by rewrite Z2Nat.inj_succ by lia.
Qed.

Lemma file_at_some k rels rel : rel ∈ rels ↔ ∃ i, file_at k rels i rel.
Proof.
  split.
  - intros (n&Hn)%list_elem_of_lookup. exists (k + Z.of_nat n)%Z. split; [lia|].
    by replace (Z.to_nat (k + Z.of_nat n - k)) with n by lia.
  - intros (i&_&H). by apply list_elem_of_lookup_2 in H.
Qed.

Lemma group_count_nonneg ts t : (0 ≤ default 0 (group_count ts !! t))%Z.
Proof.
  induction ts as [|t0 ts IH]; [done|]. cbn. destruct (decide (t0 = t)) as [->|].
  - rewrite lookup_insert_eq. cbn. fold (group_count ts). lia.
  - by rewrite lookup_insert_ne.
Qed.

Lemma group_count_zero ts t : default 0%Z (group_count ts !! t) = 0%Z ↔ t ∉ ts.
Proof.
  induction ts as [|t0 ts IH]; [cbn; set_solver|].
  rewrite not_elem_of_cons. cbn. destruct (decide (t0 = t)) as [->|].
  - rewrite lookup_insert_eq. cbn. fold (group_count ts). pose proof (group_count_nonneg ts t) as Hn. split; [lia|naive_solver].
  - rewrite lookup_insert_ne, IH by done. naive_solver.
Qed.

Lemma narrow_spec rows ts cand i : i ∈ narrow rows ts cand ↔ i ∈ cand ∧ ∀ t, t ∈ ts → (t, i) ∈ rows.
Proof.
  revert cand. induction ts as [|t ts IH]; intros cand; cbn [narrow].
  - split; [intros; split; [done|]; intros ? ?%elem_of_nil; done|naive_solver].
  - setoid_rewrite elem_of_cons. case_decide as Hc.
    + rewrite Hc, elem_of_nil. split; [done|]. intros [Hi Hall].
      assert (i ∈ filter (λ i, (t, i) ∈ rows) cand) as Hin by (apply list_elem_of_filter; naive_solver).
      rewrite Hc in Hin. by apply elem_of_nil in Hin.
    + rewrite IH, list_elem_of_filter. naive_solver.
Qed.

Section manager.
Context (stat_size : text → option N) (read_bytes : text → option bytes)
        (lower : text → text) (set_order : gset text → list text).

(** ** Build *)

Definition _file_trigrams (rel : text) : gset text * bool :=
  match stat_size rel with
  | None => (∅, false)
  | Some size =>
      if (_MAX_INDEX_BYTES <? size)%N then (∅, false)
      else match read_bytes rel with
           | None => (∅, false)
           | Some data => (foldl (λ tris run, tris ∪ trigrams (lower run)) ∅ (printable_runs data []), true)
           end
  end.

Record build_state := {
  b_files : list file_row; b_postings : list (text * Z); batch : list (text * Z); count : Z }.

Definition no_rows : build_state := {| b_files := []; b_postings := []; batch := []; count := 0 |}.

(** [executemany] of the batch, then [batch.clear()]. *)
Definition insert_batch (st : build_state) : build_state :=
  {| b_files := b_files st; b_postings := b_postings st ++ batch st; batch := []; count := count st |}.

Definition add_posting (file_id : Z) (st : build_state) (t : text) : build_state :=
  let st' := {| b_files := b_files st; b_postings := b_postings st;
                batch := batch st ++ [(t, file_id)]; count := count st |} in
  if (_INSERT_BATCH <=? Z.of_nat (length (batch st')))%Z then insert_batch st' else st'.

Definition add_file (st : build_state) (rel : text) : build_state :=
  let file_id := (count st + 1)%Z in
  let '(tris, indexed) := _file_trigrams rel in
  let st1 := {| b_files := b_files st ++ [{| fr_id := file_id; fr_path := rel; fr_indexed := indexed |}];
                b_postings := b_postings st; batch := batch st; count := count st |} in
  let st2 := foldl (add_posting file_id) st1 (set_order tris) in
  let st3 := {| b_files := b_files st2; b_postings := b_postings st2; batch := batch st2;
                count := (count st2 + 1)%Z |} in
  if (count st3 mod _COMMIT_EVERY_FILES =? 0)%Z then insert_batch st3 else st3.

Definition finish_db (st : build_state) : database :=
  let st' := insert_batch st in
  {| files := b_files st'; postings := b_postings st'; trigram_df := group_count (b_postings st').*1;
     file_count := count st'; schema_version := _SCHEMA_VERSION |}.

Definition build_db (rel_files : list text) : database := finish_db (foldl add_file no_rows rel_files).

(** The new database is written to a temporary file of its own and published by
    [os.replace]; after an exception the published file is as it was. *)
Definition build (raised : bool) (rel_files : list text) (f : option db_file) : option Z * option db_file :=
  if raised then (None, f) else let d := build_db rel_files in (Some (file_count d), Some (Db d)).

(** ** Query *)

Definition always (d : database) : list text := fr_path <$> filter (λ r, fr_indexed r = false) (files d).

Definition df_of (d : database) (t : text) : Z := default 0%Z (trigram_df d !! t).

(** Duplicate keys in the temporary table are an sqlite3.IntegrityError. *)
Definition query_db (d : database) (tris : list text) : option (list text) :=
  match sort_desc (λ t, inject_Z (- df_of d t)) tris with
  | [] => None
  | rarest :: others =>
      if (df_of d rarest =? 0)%Z then Some (always d)
      else
        let seed := (filter (λ p, p.1 = rarest) (postings d)).*2 in
        if decide (NoDup seed) then
          let cand := narrow (postings d) others seed in
          Some (always d ++ (fr_path <$> filter (λ r, fr_id r ∈ cand) (files d)))
        else None
  end.

Definition query (required : gset text) (f : option db_file) : option (list text) :=
  if decide (required = ∅) then None
  else match f with
       | None | Some BadFormat => None
       | Some (Db d) => query_db d (set_order (set_map lower required))
       end.
(** ** What a build stores *)

Fixpoint file_rows (k : Z) (rels : list text) : list file_row :=
  match rels with
  | [] => []
  | rel :: rels' => {| fr_id := k; fr_path := rel; fr_indexed := (_file_trigrams rel).2 |} :: file_rows (k + 1) rels'
  end.

Fixpoint posting_rows (k : Z) (rels : list text) : list (text * Z) :=
  match rels with
  | [] => []
  | rel :: rels' => ((λ t, (t, k)) <$> set_order (_file_trigrams rel).1) ++ posting_rows (k + 1) rels'
  end.

Lemma add_postings_spec file_id ts st :
  let st' := foldl (add_posting file_id) st ts in
  b_files st' = b_files st ∧ count st' = count st ∧
  b_postings st' ++ batch st' = b_postings st ++ batch st ++ ((λ t, (t, file_id)) <$> ts).
Proof.
  revert st. induction ts as [|t ts IH]; intros st; cbn [foldl].
  - cbn. by rewrite app_nil_r.
  - destruct (IH (add_posting file_id st t)) as (E1&E2&E3). rewrite E1, E2, E3. unfold add_posting.
    destruct (_ <=? _)%Z; cbn; by rewrite ?app_nil_l, <-!app_assoc.
Qed.

Lemma add_files_spec rels st :
  let st' := foldl add_file st rels in
  b_files st' = b_files st ++ file_rows (count st + 1) rels ∧ count st' = (count st + Z.of_nat (length rels))%Z ∧
  b_postings st' ++ batch st' = b_postings st ++ batch st ++ posting_rows (count st + 1) rels.
Proof.
  revert st. induction rels as [|rel rels IH]; intros st; cbn [foldl file_rows posting_rows length].
  - rewrite !app_nil_r. cbn. split_and!; [done|lia|done].
  - destruct (IH (add_file st rel)) as (E1&E2&E3). rewrite E1, E2, E3. unfold add_file.
    destruct (_file_trigrams rel) as [tris indexed]. cbn [fst snd].
    match goal with |- context [foldl (add_posting ?i) ?s ?l] =>
      pose proof (add_postings_spec i l s) as (F1&F2&F3); set (st2 := foldl (add_posting i) s l) in * end.
    cbn in F1, F2, F3.
    destruct (_ =? 0)%Z; cbn; rewrite F1, F2, ?app_nil_l, <-app_assoc; (split_and!; [done|lia|]);
      rewrite <-?app_assoc, (app_assoc (b_postings st2)), F3, <-!app_assoc; done.
Qed.

Lemma build_db_spec rels :
  files (build_db rels) = file_rows 1 rels ∧ postings (build_db rels) = posting_rows 1 rels ∧
  file_count (build_db rels) = Z.of_nat (length rels) ∧
  trigram_df (build_db rels) = group_count (posting_rows 1 rels).*1.
Proof.
  unfold build_db, finish_db. destruct (add_files_spec rels no_rows) as (E1&E2&E3). cbn in *.
  rewrite E1, E2, E3. split_and!; [done|done|lia|done].
Qed.
(** ** Rows of a built index *)

Hypothesis set_order_perm : ∀ X, set_order X ≡ₚ elements X.

Lemma elem_of_order t X : t ∈ set_order X ↔ t ∈ X.
Proof using set_order_perm. by rewrite set_order_perm, elem_of_elements. Qed.

Lemma elem_of_file_rows k rels i rel b :
  {| fr_id := i; fr_path := rel; fr_indexed := b |} ∈ file_rows k rels ↔
  file_at k rels i rel ∧ b = (_file_trigrams rel).2.
Proof.
  revert k. induction rels as [|rel0 rels IH]; intros k; cbn [file_rows].
  - rewrite elem_of_nil. split; [done|]. intros [[_ H] _]. by rewrite lookup_nil in H.
  - rewrite elem_of_cons, IH, file_at_cons. naive_solver.
Qed.

Lemma elem_of_posting_rows k rels t i :
  (t, i) ∈ posting_rows k rels ↔ ∃ rel, file_at k rels i rel ∧ t ∈ (_file_trigrams rel).1.
Proof using set_order_perm.
  revert k. induction rels as [|rel0 rels IH]; intros k; cbn [posting_rows].
  - rewrite elem_of_nil. split; [done|]. intros (?&[_ H]&_). by rewrite lookup_nil in H.
  - rewrite elem_of_app, IH, list_elem_of_fmap. setoid_rewrite file_at_cons. setoid_rewrite elem_of_order. naive_solver.
Qed.

Lemma posting_rows_NoDup k rels : NoDup (posting_rows k rels).
Proof using set_order_perm.
  revert k. induction rels as [|rel rels IH]; intros k; cbn [posting_rows]; [constructor|].
  apply NoDup_app. split_and!; [| |apply IH].
  - apply NoDup_fmap; [by intros ?? [= ->]|]. rewrite set_order_perm. apply NoDup_elements.
  - intros [t i] (?&[= <- ->]&_)%list_elem_of_fmap (rel'&[? _]&_)%elem_of_posting_rows. lia.
Qed.

Lemma posting_ids_NoDup k rels t : NoDup (filter (λ p, p.1 = t) (posting_rows k rels)).*2.
Proof using set_order_perm.
  apply NoDup_fmap_2_strong; [|apply NoDup_filter, posting_rows_NoDup].
  intros [t1 i] [t2 j] [E1 _]%list_elem_of_filter [E2 _]%list_elem_of_filter E. cbn in *. congruence.
Qed.

Lemma always_spec rels rel :
  rel ∈ always (build_db rels) ↔ rel ∈ rels ∧ (_file_trigrams rel).2 = false.
Proof.
  unfold always. rewrite list_elem_of_fmap. destruct (build_db_spec rels) as (->&_). split.
  - intros ([i rel' b]&->&[Hb Hin]%list_elem_of_filter). cbn in Hb. subst b.
    apply elem_of_file_rows in Hin as [Hat Hf]. split; [|done]. apply (file_at_some 1). by exists i.
  - intros [(i&Hat)%(file_at_some 1) Hf]. exists {| fr_id := i; fr_path := rel; fr_indexed := false |}.
    split; [done|]. apply list_elem_of_filter. split; [done|]. by apply elem_of_file_rows.
Qed.

Lemma unindexed_empty rel : (_file_trigrams rel).2 = false → (_file_trigrams rel).1 = ∅.
Proof. unfold _file_trigrams. by repeat case_match. Qed.

(** Rows joined with the candidates: the files that hold every trigram. *)
Lemma joined_spec rels rarest others rel :
  rel ∈ fr_path <$> filter (λ r, fr_id r ∈ narrow (posting_rows 1 rels) others
                                (filter (λ p, p.1 = rarest) (posting_rows 1 rels)).*2) (file_rows 1 rels) ↔
  rel ∈ rels ∧ ∀ t, t ∈ rarest :: others → t ∈ (_file_trigrams rel).1.
Proof using set_order_perm.
  assert (∀ i, i ∈ narrow (posting_rows 1 rels) others (filter (λ p, p.1 = rarest) (posting_rows 1 rels)).*2 ↔
    ∀ t, t ∈ rarest :: others → (t, i) ∈ posting_rows 1 rels) as Hcand.
  { intros i. rewrite narrow_spec, list_elem_of_fmap. setoid_rewrite elem_of_cons. split.
    - intros [([t j]&->&[Ht Hin]%list_elem_of_filter) Hall] t' [->|?]; [by cbn in Ht; subst|eauto].
    - intros Hall. split; [|eauto]. exists (rarest, i). split; [done|]. apply list_elem_of_filter. eauto. }
  rewrite list_elem_of_fmap. split.
  - intros ([i rel' b]&->&[Hc Hin]%list_elem_of_filter). apply elem_of_file_rows in Hin as [Hat _].
    split; [apply (file_at_some 1); by exists i|]. intros t Ht.
    apply (proj1 (Hcand i) Hc), elem_of_posting_rows in Ht as (rel2&Hat2&Ht).
    destruct Hat as [_ H1], Hat2 as [_ H2]. cbn in *. by simplify_eq.
  - intros [(i&Hat)%(file_at_some 1) Hall].
    exists {| fr_id := i; fr_path := rel; fr_indexed := (_file_trigrams rel).2 |}. split; [done|].
    apply list_elem_of_filter. split; [|by apply elem_of_file_rows]. apply Hcand. intros t Ht.
    apply elem_of_posting_rows. eauto.
Qed.

Lemma query_built rels required :
  required ≠ ∅ →
  ∃ l, query required (Some (Db (build_db rels))) = Some l ∧
    ∀ rel, rel ∈ l ↔ rel ∈ rels ∧
      ((_file_trigrams rel).2 = false ∨ ∀ t, t ∈ required → lower t ∈ (_file_trigrams rel).1).
Proof using set_order_perm.
  intros Hne. unfold query. rewrite decide_False by done. unfold query_db.
  set (tris := set_order _). set (key := λ t : text, inject_Z (- df_of _ t)).
  assert (∀ t, t ∈ sort_desc key tris ↔ ∃ t', t = lower t' ∧ t' ∈ required) as Htris.
  { intros t. rewrite (sort_desc_perm key tris). unfold tris. by rewrite elem_of_order, elem_of_map. }
  assert (∀ rel, (∀ t, t ∈ required → lower t ∈ (_file_trigrams rel).1) ↔
    ∀ t, t ∈ sort_desc key tris → t ∈ (_file_trigrams rel).1) as Hreq.
  { intros rel. setoid_rewrite Htris. naive_solver. }
  setoid_rewrite Hreq. clear Hreq. destruct (build_db_spec rels) as (Hf&Hp&_&Hdf).
  destruct (sort_desc key tris) as [|rarest others].
  { exfalso. apply set_choose_L in Hne as [t Ht]. apply (not_elem_of_nil (lower t)), Htris. eauto. }
  destruct (Z.eqb_spec (df_of (build_db rels) rarest) 0) as [E|_].
  - exists (always (build_db rels)). split; [done|]. intros rel. rewrite always_spec. split; [naive_solver|].
    intros [Hin [?|Hall]]; [done|]. exfalso. unfold df_of in E. rewrite Hdf in E.
    apply group_count_zero in E. apply E, list_elem_of_fmap. apply (file_at_some 1) in Hin as [i Hat].
    exists (rarest, i). split; [done|]. apply elem_of_posting_rows. exists rel. split; [done|]. apply Hall. left.
  - rewrite Hp, decide_True by apply posting_ids_NoDup. eexists. split; [done|]. intros rel.
    rewrite elem_of_app, always_spec, Hf, joined_spec. naive_solver.
Qed.

(** An index just built answers exactly.  A build that raises leaves the
    published index as it was.  Otherwise it reports the number of files, the new
    index counts as present when there is a file, and for every non-empty set of
    required trigrams [query] succeeds and returns the files that hold all of them
    (lower-cased) together with those that could not be indexed. *)
Theorem query_exact raised rels f n f' :
  build raised rels f = (n, f') →
  if raised then n = None ∧ f' = f
  else n = Some (Z.of_nat (length rels)) ∧ exists_index f' = bool_decide (rels ≠ []) ∧ query ∅ f' = None ∧
    ∀ required, required ≠ ∅ → ∃ l, query required f' = Some l ∧
      ∀ rel, rel ∈ l ↔ rel ∈ rels ∧
        ((_file_trigrams rel).2 = false ∨ ∀ t, t ∈ required → lower t ∈ (_file_trigrams rel).1).
Proof using set_order_perm.
  unfold build. destruct raised; intros [= <- <-]; [done|]. destruct (build_db_spec rels) as (Hf&_&Hn&_).
  split_and!; [by rewrite <-Hn| | |intros; by apply query_built].
  - unfold exists_index. rewrite Hf. by destruct rels.
  - unfold query. by rewrite decide_True.
Qed.

(** ** The pre-filter of a search *)

Context (isdigit isalnum : N → bool) (resolve : text → option Path).

(** Candidates inside the scope; [None] when [resolve] raises. *)
Fixpoint in_scope (scope : Path) (rels : list text) : option (list Path) :=
  match rels with
  | [] => Some []
  | rel :: rels' =>
      ap ← resolve rel;
      rest ← in_scope scope rels';
      Some (match relative_to ap scope with Some _ => ap :: rest | None => rest end)
  end.

(** [None]: scan everything.  The boolean: a background build is asked for. *)
Definition _prefilter_candidate_files (pattern : text) (scope : Path) (f : option db_file) :
    option (list Path) * bool :=
  if negb (exists_index f) then (None, true)
  else
    (required ← extract_required_trigrams isdigit isalnum pattern;
     rels ← query required f;
     if (_MAX_PREFILTER_CANDIDATES <? Z.of_nat (length rels))%Z then None else in_scope scope rels, false).

(** ** The pre-filter keeps every match *)

Context (same : N → N → Prop) (escape_matches : N → text → Prop) (dot_matches : N → Prop)
        (class_matches : bool → bool → list member → N → Prop) (digits_value : text → nat).

Hypothesis isdigit_comma : isdigit comma = false.
Hypothesis isdigit_rbrace : isdigit ch_rbrace = false.
Hypothesis same_lower : ∀ c d, same c d → _index_storable c = true →
  ascii_lower_char d = ascii_lower_char c ∧ _index_storable d = true.

(** On ASCII text [str.lower] changes the letters A to Z. *)
Hypothesis lower_ascii : ∀ s, Forall (λ c, (c < 128)%N) s → lower s = ascii_lower s.

Lemma storable_lower s : Forall (λ c, _index_storable c = true) s → lower s = ascii_lower s.
Proof using lower_ascii. intros Hs. apply lower_ascii. eapply Forall_impl; [exact Hs|]. apply storable_ascii. Qed.

(** What the index stores of a readable file: every storable trigram of its bytes. *)
Lemma file_trigrams_complete rel data u :
  (_file_trigrams rel).2 = true → read_bytes rel = Some data → substring u data → length u = 3 →
  Forall (λ c, _index_storable c = true) u → ascii_lower u ∈ (_file_trigrams rel).1.
Proof using lower_ascii.
  unfold _file_trigrams. destruct (stat_size rel) as [size|]; [|done]. destruct (_ <? size)%N; [done|].
  intros _ -> Hsub Hlen Hst. cbn [fst].
  destruct (printable_runs_covers u data []) as (run&Hrun&Hsubr); [|lia|done|constructor|].
  { eapply Forall_impl; [exact Hst|]. intros c ?. by rewrite printable_storable. }
  assert (lower run = ascii_lower run) as Hlow.
  { apply storable_lower. eapply Forall_impl; [by eapply (printable_runs_printable _ [])|]. intros c.
    cbn. by rewrite printable_storable. }
  assert (∀ X, ascii_lower u ∈ X → ∀ runs, ascii_lower u ∈ foldl (λ tris r, tris ∪ trigrams (lower r)) X runs) as Hmono.
  { intros X HX runs. revert X HX. induction runs as [|r runs IH]; intros X HX; [done|]. cbn. apply IH, elem_of_union. by left. }
  generalize (∅ : gset text). induction Hrun as [runs|r0 r runs Hrun IH]; intros X; cbn [foldl]; [|by apply IH].
  apply Hmono, elem_of_union. right. rewrite Hlow. apply trigrams_complete.
  - destruct Hsubr as (a&b&->). unfold ascii_lower. rewrite !fmap_app. by eexists _, _.
  - unfold ascii_lower. by rewrite length_fmap.
Qed.

Lemma in_scope_spec scope rels l :
  in_scope scope rels = Some l →
  ∀ rel ap, rel ∈ rels → resolve rel = Some ap → is_Some (relative_to ap scope) → ap ∈ l.
Proof.
  revert l. induction rels as [|rel0 rels IH]; intros l; cbn [in_scope]; [by intros _ ?? ?%elem_of_nil|].
  rewrite bind_Some. intros (ap0&Hap0&H). apply bind_Some in H as (rest&Hrest&[= <-]).
  intros rel ap [->|Hin]%elem_of_cons Hap Hsc.
  - rewrite Hap0 in Hap. injection Hap as ->. destruct Hsc as [? ->]. left.
  - specialize (IH _ Hrest rel ap Hin Hap Hsc). destruct (relative_to ap0 scope); [by right|done].
Qed.

Lemma in_scope_None scope rels : in_scope scope rels = None → ∃ rel, rel ∈ rels ∧ resolve rel = None.
Proof.
  induction rels as [|rel rels IH]; cbn [in_scope]; [done|].
  destruct (resolve rel) as [ap|] eqn:E; [|intros _; exists rel; split; [left|done]].
  cbn [mbind option_bind]. destruct (in_scope scope rels); [done|]. intros _.
  destruct IH as (rel'&?&?); [done|]. exists rel'. split; [by right|done].
Qed.

End manager.

(** ** Witnesses *)

(** a.py and b.py are readable, c.bin is not. *)
Definition demo_read (rel : text) : option bytes :=
  if decide (rel = txt "a.py") then Some (txt "def Foo():")
  else if decide (rel = txt "b.py") then Some (txt "class Bar") else None.
Definition demo_stat (rel : text) : option N := (λ d, N.of_nat (length d)) <$> demo_read rel.
Definition demo_files : list text := [txt "a.py"; txt "b.py"; txt "c.bin"].
Definition demo_resolve (rel : text) : option Path := Some (path_of (txt "/repo/" ++ rel)).

Lemma elements_order (X : gset text) : elements X ≡ₚ elements X.
Proof. done. Qed.

Lemma query_exact_witness :
  let f := Some (Db (build_db demo_stat demo_read ascii_lower elements demo_files)) in
  query ascii_lower elements {[txt "foo"]} f = Some [txt "c.bin"; txt "a.py"] ∧
  exists_index f = true ∧
  (_file_trigrams demo_stat demo_read ascii_lower (txt "b.py")).2 = true ∧
  ¬ (∀ t, t ∈ ({[txt "foo"]} : gset text) → ascii_lower t ∈ (_file_trigrams demo_stat demo_read ascii_lower (txt "b.py")).1).
Proof.
  intros f. assert (query ascii_lower elements {[txt "foo"]} f = Some [txt "c.bin"; txt "a.py"]) as Hq by (by vm_compute).
  destruct (query_exact demo_stat demo_read ascii_lower elements elements_order false demo_files None (Some 3%Z) f)
    as (_&Hex&_&Hall); [by vm_compute|]. split_and!; [done|by rewrite Hex|done|].
  intros Hb. destruct (Hall {[txt "foo"]}) as (l&Hl&Hin); [done|]. rewrite Hq in Hl. injection Hl as <-.
  assert (txt "b.py" ∈ [txt "c.bin"; txt "a.py"]) as Hbad.
  { apply Hin. split; [apply (bool_decide_unpack _); by vm_compute|by right]. }
  revert Hbad. apply (bool_decide_unpack _). by vm_compute.
Defined.

End TrigramIndex.

(** ** The lazy rebuild *)
Module LazyBuild.

Definition _LAZY_BUILD_COOLDOWN_SEC : Q := 300.

Record builds := { in_progress : gset string; last_attempt : gmap string Q }.

Definition no_builds : builds := {| in_progress := ∅; last_attempt := ∅ |}.

(** The critical section of [_maybe_trigger_lazy_index_build]; [true]: a thread starts. *)
Definition maybe_trigger (enabled : bool) (key : string) (now : Q) (s : builds) : bool * builds :=
  if negb enabled then (false, s)
  else if bool_decide (key ∈ in_progress s) then (false, s)
  else if match last_attempt s !! key with
          | Some last => Qltb (now - last) _LAZY_BUILD_COOLDOWN_SEC
          | None => false
          end then (false, s)
  else (true, {| in_progress := {[key]} ∪ in_progress s; last_attempt := <[key := now]> (last_attempt s) |}).

(** The [finally] block of the thread, whether the build succeeded or not. *)
Definition finish (key : string) (now : Q) (s : builds) : builds :=
  {| in_progress := in_progress s ∖ {[key]}; last_attempt := <[key := now]> (last_attempt s) |}.

Inductive op := Search (enabled : bool) (key : string) (now : Q) | ThreadEnds (key : string) (now : Q).
Inductive event := Started (key : string) (t : Q) | Finished (key : string) (t : Q).

(** A thread ends only if it runs. *)
Definition exec (s : builds) (o : op) : list event * builds :=
  match o with
  | Search enabled key now =>
      let '(started, s') := maybe_trigger enabled key now s in (if started then [Started key now] else [], s')
  | ThreadEnds key now =>
      if bool_decide (key ∈ in_progress s) then ([Finished key now], finish key now s) else ([], s)
  end.

Definition run (ops : list op) : list event * builds :=
  foldl (λ '(evs, s) o, let '(ev, s') := exec s o in (evs ++ ev, s')) ([], no_builds) ops.

(** The history of a repository's builds, read off the events alone. *)
Inductive status := Never | Running | Idle (since : Q).

Definition after (key : string) (st : status) (e : event) : status :=
  match e with
  | Started k _ => if decide (k = key) then Running else st
  | Finished k t => if decide (k = key) then Idle t else st
  end.

Definition status_of (key : string) (evs : list event) : status := foldl (after key) Never evs.

Definition agrees (s : builds) (key : string) (st : status) : Prop :=
  match st with
  | Never => (key ∉ in_progress s) ∧ last_attempt s !! key = None
  | Running => key ∈ in_progress s
  | Idle t => (key ∉ in_progress s) ∧ last_attempt s !! key = Some t
  end.

(** A start is allowed after the given history. *)
Definition may_start (st : status) (t : Q) : Prop :=
  match st with Never => True | Running => False | Idle t' => (_LAZY_BUILD_COOLDOWN_SEC <= t - t')%Q end.

Lemma status_snoc key evs e : status_of key (evs ++ [e]) = after key (status_of key evs) e.
Proof. unfold status_of. by rewrite foldl_app. Qed.

Lemma maybe_trigger_spec enabled key now s st :
  agrees s key st → (maybe_trigger enabled key now s).1 = true ↔ enabled = true ∧ may_start st now.
Proof.
  intros Hst. unfold maybe_trigger. destruct enabled; cbn [negb]; [|by split; [|intros []]].
  destruct st as [| |t]; cbn in Hst |- *.
  - destruct Hst as [Hn Hl]. rewrite bool_decide_eq_false_2, Hl by done. done.
  - rewrite bool_decide_eq_true_2 by done. cbn. naive_solver.
  - destruct Hst as [Hn Hl]. rewrite bool_decide_eq_false_2, Hl by done. qcase; cbn.
    + split; [done|]. intros [_ ?]. exfalso. lra.
    + split; [intros _; split; [done|lra]|done].
Qed.

Lemma exec_agrees s o key evs :
  (∀ k, agrees s k (status_of k evs)) →
  let '(ev, s') := exec s o in agrees s' key (status_of key (evs ++ ev)).
Proof.
  intros Ha. destruct o as [enabled k now|k now]; unfold exec.
  - destruct (maybe_trigger enabled k now s) as [started s'] eqn:E. destruct started.
    + rewrite status_snoc. cbn. revert E. unfold maybe_trigger. destruct enabled; [|done]. cbn [negb].
      case_bool_decide; [done|]. destruct (match _ with Some _ => _ | None => _ end); [done|]. intros [= <-].
      case_decide as Hk; [subst; cbn; set_solver|]. specialize (Ha key). unfold agrees in *. cbn.
      rewrite lookup_insert_ne by done. destruct (status_of key evs); set_solver.
    + rewrite app_nil_r. revert E. unfold maybe_trigger. repeat case_match; intros [= <-]; apply Ha.
  - case_bool_decide; [|by rewrite app_nil_r]. rewrite status_snoc. cbn. specialize (Ha key). case_decide as Hk.
    + subst. cbn. rewrite lookup_insert_eq. set_solver.
    + unfold agrees in *. cbn. rewrite lookup_insert_ne by done. destruct (status_of key evs); set_solver.
Qed.

Lemma exec_events s o evs ev s' :
  (∀ k, agrees s k (status_of k evs)) → exec s o = (ev, s') →
  ev = [] ∨ ∃ e, ev = [e] ∧ match e with Started k t => may_start (status_of k evs) t | Finished _ _ => True end.
Proof.
  intros Ha. destruct o as [enabled k now|k now]; unfold exec.
  - destruct (maybe_trigger enabled k now s) as [started ?] eqn:E. destruct started; intros [= <- <-]; [right|by left].
    eexists. split; [done|]. cbn. apply (maybe_trigger_spec enabled k now s _ (Ha k)). by rewrite E.
  - case_bool_decide; intros [= <- <-]; [right; by eexists|by left].
Qed.

(** Background builds of one repository never overlap and are spaced.  In every
    interleaving of searches and ending threads, a build starts only when none of
    the repository runs and the cool-down since the last one ended has passed; and
    an enabled search that finds this to be so does start one. *)
Theorem lazy_build_exclusive ops evs s :
  run ops = (evs, s) →
  (∀ key pre t post, evs = pre ++ Started key t :: post → may_start (status_of key pre) t) ∧
  (∀ key now, may_start (status_of key evs) now ↔ (maybe_trigger true key now s).1 = true).
Proof.
  intros Hrun. assert ((∀ k, agrees s k (status_of k evs)) ∧
    ∀ key pre t post, evs = pre ++ Started key t :: post → may_start (status_of key pre) t) as [Ha Hst].
  2: { split; [exact Hst|]. intros key now. rewrite (maybe_trigger_spec true key now s _ (Ha key)). naive_solver. }
  revert evs s Hrun. induction ops as [|o ops IH] using rev_ind; intros evs s.
  { intros [= <- <-]. split; [done|]. intros ? [] ? ?; done. }
  unfold run. rewrite foldl_app. fold (run ops). destruct (run ops) as [evs0 s0]. cbn.
  destruct (IH _ _ eq_refl) as [Ha Hst]. pose proof (λ k, exec_agrees s0 o k evs0 Ha) as Hex.
  destruct (exec s0 o) as [ev s'] eqn:Eo. intros [= <- <-]. split; [exact Hex|].
  intros key pre t post E.
  destruct (exec_events s0 o evs0 ev s' Ha Eo) as [->|(e&->&He)]; [rewrite app_nil_r in E; by eapply Hst|].
  destruct post as [|e' post _] using rev_ind.
  - apply app_inj_tail in E as [-> ->]. exact He.
  - rewrite app_comm_cons, app_assoc in E. apply app_inj_tail in E as [E _]. by eapply Hst.
Qed.

Lemma lazy_build_exclusive_witness :
  run [Search true "r" 0; Search true "r" 1; ThreadEnds "r" 10; Search true "r" 200; Search true "r" 310] =
    ([Started "r" 0; Finished "r" 10; Started "r" 310],
     {| in_progress := {["r"]}; last_attempt := {["r" := 310%Q]} |}) ∧
  may_start (status_of "r" [Started "r" 0; Finished "r" 10]) 310.
Proof.
  assert (run [Search true "r" 0; Search true "r" 1; ThreadEnds "r" 10; Search true "r" 200; Search true "r" 310] =
    ([Started "r" 0; Finished "r" 10; Started "r" 310],
     {| in_progress := {["r"]}; last_attempt := {["r" := 310%Q]} |})) as E by (by vm_compute).
  split; [exact E|]. destruct (lazy_build_exclusive _ _ _ E) as [H _]. by apply (H "r" _ _ []).
Defined.
End LazyBuild.
