(* ===== verification/TemporalShards.v ===== *)
(** * Quarterly shards of the temporal index

    src/src/code_indexer/services/temporal/temporal_collection_naming.py, with the
    shard pruning of temporal_fusion_dispatch.py and the time filter of
    temporal_search_service.py.

    [Calendar] is the part of Python's [datetime] the code uses: proleptic Gregorian
    dates, comparison of instants, [fromtimestamp] in UTC.  [TemporalNaming] models
    the naming module on top of it. *)

From S2P Require Import Prelude.
From S2P Require Import PyText.
From stdpp Require Import options.
Local Open Scope Z_scope.

Module Calendar.

Definition is_leap (year : Z) : bool :=
  (year mod 4 =? 0) && (negb (year mod 100 =? 0) || (year mod 400 =? 0)).

(** Days before the year, counted from 0001-01-01. *)
Definition days_before_year (year : Z) : Z :=
  let y := year - 1 in y * 365 + y / 4 - y / 100 + y / 400.

(** Days of a common year before the month. *)
Definition month_offset (month : Z) : Z :=
  match month with
  | 1 => 0 | 2 => 31 | 3 => 59 | 4 => 90 | 5 => 120 | 6 => 151 | 7 => 181
  | 8 => 212 | 9 => 243 | 10 => 273 | 11 => 304 | 12 => 334 | _ => 365
  end.

Definition days_before_month (leap : bool) (month : Z) : Z :=
  month_offset month + (if leap && (2 <? month) then 1 else 0).

Definition days_in_month (leap : bool) (month : Z) : Z :=
  days_before_month leap (month + 1) - days_before_month leap month.

(** A [datetime]: wall clock and UTC offset in seconds, [None] for a naive one. *)
Record datetime := { year : Z; month : Z; day : Z; second : Z; utcoffset : option Z }.

Definition ymd2ord (y m d : Z) : Z := days_before_year y + days_before_month (is_leap y) m + d.

(** Seconds on the time line; comparison of aware datetimes compares these. *)
Definition instant (t : datetime) : Z := ymd2ord (year t) (month t) (day t) * 86400 + second t - default 0 (utcoffset t).

Definition valid (t : datetime) : Prop :=
  1 ≤ year t ≤ 9999 ∧ 1 ≤ month t ≤ 12 ∧ 1 ≤ day t ≤ days_in_month (is_leap (year t)) (month t) ∧ 0 ≤ second t < 86400.

Definition utc_midnight (y m d : Z) : datetime :=
  {| year := y; month := m; day := d; second := 0; utcoffset := Some 0 |}.

(** [_ord2ymd] of the standard library. *)
Definition ord2md (leap : bool) (n : Z) : Z * Z :=
  let m := Z.shiftr (n + 50) 5 in
  let preceding := days_before_month leap m in
  if n <? preceding then (m - 1, n - days_before_month leap (m - 1) + 1) else (m, n - preceding + 1).

Definition ord2ymd (ordinal : Z) : Z * Z * Z :=
  let n := ordinal - 1 in
  let n400 := n / 146097 in let n := n mod 146097 in
  let n100 := n / 36524 in let n := n mod 36524 in
  let n4 := n / 1461 in let n := n mod 1461 in
  let n1 := n / 365 in let n := n mod 365 in
  let year := n400 * 400 + 1 + n100 * 100 + n4 * 4 + n1 in
  if (n1 =? 4) || (n100 =? 4) then (year - 1, 12, 31)
  else
    let leap := (n1 =? 3) && (negb (n4 =? 24) || (n100 =? 3)) in
    let '(m, d) := ord2md leap n in (year, m, d).

Definition EPOCH_ORDINAL : Z := 719163.

(** [datetime.fromtimestamp(ts, tz=timezone.utc)]; [None]: year out of range. *)
Definition fromtimestamp (ts : Z) : option datetime :=
  let '(y, m, d) := ord2ymd (ts / 86400 + EPOCH_ORDINAL) in
  if (1 <=? y) && (y <=? 9999)
  then Some {| year := y; month := m; day := d; second := ts mod 86400; utcoffset := Some 0 |}
  else None.

Definition EPOCH : Z := EPOCH_ORDINAL * 86400.

(** ** Facts *)

Lemma days_in_month_bounds leap m : 1 ≤ m ≤ 12 → 28 ≤ days_in_month leap m ≤ 31.
Proof.
  intros Hm. assert (m = 1 ∨ m = 2 ∨ m = 3 ∨ m = 4 ∨ m = 5 ∨ m = 6 ∨ m = 7 ∨ m = 8 ∨ m = 9 ∨ m = 10 ∨ m = 11 ∨ m = 12)
    as Hcases by lia. repeat destruct Hcases as [->|Hcases]; subst; destruct leap; vm_compute; split; discriminate.
Qed.

(** Month and day of a day of the year, checked for each of the 365 or 366 days. *)
Definition md_ok (leap : bool) (n : Z) : bool :=
  let '(m, d) := ord2md leap n in
  (1 <=? m) && (m <=? 12) && (1 <=? d) && (d <=? days_in_month leap m) && (days_before_month leap m + d =? n + 1).

Lemma ord2md_ok (leap : bool) n : 0 ≤ n < (if leap then 366 else 365) → md_ok leap n = true.
Proof.
  intros Hn. assert (forallb (λ k, md_ok leap (Z.of_nat k)) (seq 0 (if leap then 366 else 365)) = true) as H
    by (destruct leap; by vm_compute).
  rewrite forallb_forall in H. specialize (H (Z.to_nat n)). rewrite Z2Nat.id in H by lia. apply H.
  apply in_seq. destruct leap; lia.
Qed.

Lemma leap_of_parts a b c d : 0 ≤ b ≤ 3 → 0 ≤ c ≤ 24 → 0 ≤ d ≤ 3 →
  is_leap (a * 400 + 1 + b * 100 + c * 4 + d) = (d =? 3) && (negb (c =? 24) || (b =? 3)).
Proof.
  intros. unfold is_leap.
  destruct (Z.eqb_spec ((a * 400 + 1 + b * 100 + c * 4 + d) mod 4) 0),
    (Z.eqb_spec ((a * 400 + 1 + b * 100 + c * 4 + d) mod 100) 0),
    (Z.eqb_spec ((a * 400 + 1 + b * 100 + c * 4 + d) mod 400) 0),
    (Z.eqb_spec d 3), (Z.eqb_spec c 24), (Z.eqb_spec b 3); cbn; try done;
    exfalso; Z.to_euclidean_division_equations; lia.
Qed.

Lemma days_of_parts a b c d : 0 ≤ b ≤ 3 → 0 ≤ c ≤ 24 → 0 ≤ d ≤ 3 →
  days_before_year (a * 400 + 1 + b * 100 + c * 4 + d) = a * 146097 + b * 36524 + c * 1461 + d * 365.
Proof. intros. unfold days_before_year. Z.to_euclidean_division_equations. lia. Qed.

Lemma ord2ymd_spec ordinal y m d :
  ord2ymd ordinal = (y, m, d) →
  ymd2ord y m d = ordinal ∧ 1 ≤ m ≤ 12 ∧ 1 ≤ d ≤ days_in_month (is_leap y) m.
Proof.
  unfold ord2ymd, ymd2ord. remember (ordinal - 1) as n eqn:Hn. set (a := n / 146097). set (r := n mod 146097).
  set (b := r / 36524). set (r1 := r mod 36524). set (c := r1 / 1461). set (r2 := r1 mod 1461).
  set (e := r2 / 365). set (r3 := r2 mod 365).
  assert (n = a * 146097 + r ∧ 0 ≤ r < 146097) as [? ?] by (subst a r; Z.to_euclidean_division_equations; lia).
  assert (r = b * 36524 + r1 ∧ 0 ≤ r1 < 36524) as [? ?] by (subst b r1; Z.to_euclidean_division_equations; lia).
  assert (r1 = c * 1461 + r2 ∧ 0 ≤ r2 < 1461) as [? ?] by (subst c r2; Z.to_euclidean_division_equations; lia).
  assert (r2 = e * 365 + r3 ∧ 0 ≤ r3 < 365) as [? ?] by (subst e r3; Z.to_euclidean_division_equations; lia).
  clearbody a r b r1 c r2 e r3.
  destruct (Z.eqb_spec e 4) as [He|He]; [|destruct (Z.eqb_spec b 4) as [Hb|Hb]]; cbn [orb].
  - intros [= <- <- <-]. replace (a * 400 + 1 + b * 100 + c * 4 + e - 1) with (a * 400 + 1 + b * 100 + c * 4 + 3) by lia.
    rewrite days_of_parts, leap_of_parts by lia. change (3 =? 3) with true.
    destruct (Z.eqb_spec c 24), (Z.eqb_spec b 3); cbn [negb andb orb]; try lia;
      (split; [change (days_before_month true 12) with 335; lia|split; [lia|by vm_compute]]).
  - intros [= <- <- <-]. assert (c = 0 ∧ e = 0) as [-> ->] by lia. subst b.
    replace (a * 400 + 1 + 4 * 100 + 0 * 4 + 0 - 1) with (a * 400 + 1 + 3 * 100 + 24 * 4 + 3) by lia.
    rewrite days_of_parts, leap_of_parts by lia. change ((3 =? 3) && (negb (24 =? 24) || (3 =? 3))) with true.
    split; [change (days_before_month true 12) with 335; lia|split; [lia|by vm_compute]].
  - rewrite <-(leap_of_parts a) by lia. set (yr := a * 400 + 1 + b * 100 + c * 4 + e).
    pose proof (ord2md_ok (is_leap yr) r3) as Hok. destruct (ord2md (is_leap yr) r3) as [m' d'] eqn:E.
    unfold md_ok in Hok. rewrite E in Hok. intros [= <- <- <-].
    rewrite !andb_true_iff, !Z.leb_le, Z.eqb_eq in Hok.
    destruct Hok as ((((?&?)&?)&?)&?); [destruct (is_leap yr); lia|]. split; [|lia].
    unfold yr. rewrite days_of_parts by lia. fold yr. lia.
Qed.

(** [fromtimestamp] is right: a valid UTC datetime at that many seconds of the epoch. *)
Lemma fromtimestamp_spec ts t : fromtimestamp ts = Some t → valid t ∧ utcoffset t = Some 0 ∧ instant t = ts + EPOCH.
Proof.
  unfold fromtimestamp, valid, instant. destruct (ord2ymd _) as [[y m] d] eqn:E. apply ord2ymd_spec in E as (E&Hm&Hd).
  destruct (Z.leb_spec 1 y), (Z.leb_spec y 9999); cbn; try done. intros [= <-]. cbn.
  pose proof (Z.mod_pos_bound ts 86400). pose proof (Z.div_mod ts 86400).
  split_and!; try lia; try done. unfold EPOCH. rewrite E. lia.
Qed.
End Calendar.

Module TemporalNaming.
Import Calendar.

Inductive error := ValueError | KeyError.

(** ** Text of numbers and names *)

Fixpoint digits_loop (fuel : nat) (n : Z) (acc : text) : text :=
  match fuel with
  | O => acc
  | S fuel' =>
      let acc' := Z.to_N (48 + n mod 10) :: acc in
      if n <? 10 then acc' else digits_loop fuel' (n / 10) acc'
  end.

(** [str(n)] for a natural number; each step divides by ten. *)
Definition str_int (n : Z) : text := digits_loop (S (Z.to_nat (Z.log2 n))) n [].

Definition TEMPORAL_COLLECTION_PREFIX : text := txt "code-indexer-temporal-".
Definition LEGACY_TEMPORAL_COLLECTION : text := txt "code-indexer-temporal".

Definition dash : N := 45.
Definition underscore : N := 95.
Definition ch_Q : N := 81.

(** The class [a-zA-Z0-9_]. *)
Definition word_char (c : N) : bool :=
  (((48 <=? c) && (c <=? 57)) || ((65 <=? c) && (c <=? 90)) || ((97 <=? c) && (c <=? 122)) || (c =? underscore))%N.

Lemma StronglySorted_lookup {A} (R : A → A → Prop) l i j x y :
  StronglySorted R l → l !! i = Some x → l !! j = Some y → (i < j)%nat → R x y.
Proof.
  intros Hs. revert i j. induction Hs as [|z l Hs IH Hall]; intros i j Hi Hj Hij; [done|].
  destruct j as [|j]; [lia|]. cbn in Hj. destruct i as [|i]; [|by eapply (IH i j); try done; lia].
  cbn in Hi. injection Hi as ->. rewrite Forall_forall in Hall. by eapply Hall, list_elem_of_lookup_2.
Qed.

(** ** Dates *)

(** [_MONTH_TO_QUARTER]. *)
Definition month_to_quarter (m : Z) : option Z :=
  match m with
  | 1 | 2 | 3 => Some 1
  | 4 | 5 | 6 => Some 2
  | 7 | 8 | 9 => Some 3
  | 10 | 11 | 12 => Some 4
  | _ => None
  end.

Definition quarter_suffix (t : datetime) : result error text :=
  match month_to_quarter (month t) with
  | Some q => Ok (str_int (year t) ++ [ch_Q] ++ str_int q)
  | None => Err KeyError
  end.

(** The [datetime] constructor checks the year. *)
Definition make_midnight (y m : Z) : result error datetime :=
  if (1 <=? y) && (y <=? 9999) then Ok (utc_midnight y m 1) else Err ValueError.

Definition get_quarter_range (y q : Z) : result error (datetime * datetime) :=
  let start_month := (q - 1) * 3 + 1 in
  start ← make_midnight y start_month;
  stop ← (if q =? 4 then make_midnight (y + 1) 1 else make_midnight y (start_month + 3));
  Ok (start, stop).

Definition _utc (t : datetime) : datetime :=
  match utcoffset t with
  | Some _ => t
  | None => {| year := year t; month := month t; day := day t; second := second t; utcoffset := Some 0 |}
  end.

(** ** Printing years and quarters *)

Lemma digits_step fuel n acc : (1 ≤ fuel)%nat →
  digits_loop fuel n acc =
  if n <? 10 then Z.to_N (48 + n mod 10) :: acc else digits_loop (fuel - 1) (n / 10) (Z.to_N (48 + n mod 10) :: acc).
Proof. intros. destruct fuel; [lia|]. cbn [digits_loop]. by rewrite Nat.sub_succ, Nat.sub_0_r. Qed.

(** A year of four digits. *)
Definition four_digits (y : Z) : text :=
  [Z.to_N (48 + y / 1000); Z.to_N (48 + y / 100 mod 10); Z.to_N (48 + y / 10 mod 10); Z.to_N (48 + y mod 10)].

Lemma str_year y : 1000 ≤ y ≤ 9999 → str_int y = four_digits y.
Proof.
  intros Hy. unfold str_int. assert (9 ≤ Z.log2 y) by (apply (Z.log2_le_mono 512); lia).
  rewrite digits_step by lia. destruct (Z.ltb_spec y 10); [lia|].
  rewrite digits_step by lia. destruct (Z.ltb_spec (y / 10) 10); [Z.to_euclidean_division_equations; lia|].
  rewrite digits_step by lia. destruct (Z.ltb_spec (y / 10 / 10) 10); [Z.to_euclidean_division_equations; lia|].
  rewrite digits_step by lia. destruct (Z.ltb_spec (y / 10 / 10 / 10) 10); [|Z.to_euclidean_division_equations; lia].
  rewrite !Z.div_div by lia. unfold four_digits. change (10 * 10 * 10) with 1000. change (10 * 10) with 100.
  rewrite (Z.mod_small (y / 1000)); [done|]. Z.to_euclidean_division_equations. lia.
Qed.

Lemma str_quarter q : 1 ≤ q ≤ 4 → str_int q = [Z.to_N (48 + q)].
Proof. intros. assert (q = 1 ∨ q = 2 ∨ q = 3 ∨ q = 4) as [E|[E|[E|E]]] by lia; by rewrite E. Qed.

Lemma quarter_of_month m : 1 ≤ m ≤ 12 → ∃ q, month_to_quarter m = Some q ∧ 1 ≤ q ≤ 4 ∧ 3 * q - 2 ≤ m ≤ 3 * q.
Proof.
  intros Hm. assert (m = 1 ∨ m = 2 ∨ m = 3 ∨ m = 4 ∨ m = 5 ∨ m = 6 ∨ m = 7 ∨ m = 8 ∨ m = 9 ∨ m = 10 ∨ m = 11 ∨ m = 12)
    as Hcases by lia.
  repeat destruct Hcases as [->|Hcases]; subst; eexists; (split; [reflexivity|lia]).
Qed.

(** ** Quarters contain their dates *)

Lemma days_before_next_year y : 1 ≤ y → days_before_year (y + 1) = days_before_year y + (if is_leap y then 366 else 365).
Proof.
  intros. unfold days_before_year, is_leap. replace (y + 1 - 1) with y by lia.
  destruct (Z.eqb_spec (y mod 4) 0), (Z.eqb_spec (y mod 100) 0), (Z.eqb_spec (y mod 400) 0); cbn [andb orb negb];
    Z.to_euclidean_division_equations; lia.
Qed.

Lemma month_mono leap m m' : 1 ≤ m → m ≤ m' → m' ≤ 13 → days_before_month leap m ≤ days_before_month leap m'.
Proof.
  intros Hm Hle Hm'. assert (∀ k, (k ≤ 12)%nat → 1 ≤ m → m + Z.of_nat k ≤ 13 →
    days_before_month leap m ≤ days_before_month leap (m + Z.of_nat k)) as Hk.
  { intros k. induction k as [|k IH]; intros; [replace (m + Z.of_nat 0) with m by lia; lia|].
    pose proof (days_in_month_bounds leap (m + Z.of_nat k)) as Hb. unfold days_in_month in Hb.
    replace (m + Z.of_nat (S k)) with (m + Z.of_nat k + 1) by lia. lia. }
  specialize (Hk (Z.to_nat (m' - m))). rewrite Z2Nat.id in Hk by lia. replace (m + (m' - m)) with m' in Hk by lia. lia.
Qed.

Lemma quarter_contains t q r :
  valid t → utcoffset t = Some 0 → month_to_quarter (month t) = Some q → get_quarter_range (year t) q = Ok r →
  instant r.1 ≤ instant t < instant r.2.
Proof.
  intros (Hy&Hm&Hd&Hs) Hoff Hq Hr. destruct (quarter_of_month (month t) Hm) as (q'&Hq'&Hq4&Hmq).
  rewrite Hq in Hq'. injection Hq' as <-. unfold days_in_month in Hd.
  assert (instant r.1 = (days_before_year (year t) + days_before_month (is_leap (year t)) (3 * q - 2) + 1) * 86400 ∧
    instant r.2 = (days_before_year (year t) + days_before_month (is_leap (year t)) (3 * q + 1) + 1) * 86400) as [-> ->].
  { revert Hr. unfold get_quarter_range, make_midnight.
    destruct (Z.leb_spec 1 (year t)), (Z.leb_spec (year t) 9999); cbn [andb mbind result_bind]; try done.
    replace ((q - 1) * 3 + 1) with (3 * q - 2) by lia. destruct (Z.eqb_spec q 4) as [->|].
    - destruct (Z.leb_spec 1 (year t + 1)), (Z.leb_spec (year t + 1) 9999); cbn [andb mbind result_bind]; try done.
      intros [= <-]. unfold instant, ymd2ord. cbn [fst snd utc_midnight year month day second utcoffset default from_option id].
      rewrite days_before_next_year by lia. change (3 * 4 - 2) with 10. change (3 * 4 + 1) with 13.
      split; [lia|]. destruct (is_leap (year t)), (is_leap (year t + 1)); unfold days_before_month; cbn; lia.
    - cbn [mbind result_bind]. intros [= <-]. unfold instant, ymd2ord.
      cbn [fst snd utc_midnight year month day second utcoffset default from_option id].
      replace (3 * q - 2 + 3) with (3 * q + 1) by lia. lia. }
  unfold instant, ymd2ord. rewrite Hoff. cbn [default from_option id].
  pose proof (month_mono (is_leap (year t)) (3 * q - 2) (month t)).
  pose proof (month_mono (is_leap (year t)) (month t + 1) (3 * q + 1)). lia.
Qed.

(** ** Collections *)

(** A directory entry of the index directory. *)
Record entry := { e_name : text; e_is_dir : bool; e_has_marker : bool; e_has_hnsw : bool }.

Definition has_real_monolith (e : entry) : bool :=
  if negb (e_is_dir e) then false else if e_has_marker e then false else e_has_hnsw e.

Definition is_temporal_collection (name : text) : bool :=
  if decide (name = []) then false
  else bool_decide (name = LEGACY_TEMPORAL_COLLECTION) || is_prefix TEMPORAL_COLLECTION_PREFIX name.

Definition collection_display_name (name : text) : text :=
  if is_prefix TEMPORAL_COLLECTION_PREFIX name then drop (length TEMPORAL_COLLECTION_PREFIX) name
  else if decide (name = LEGACY_TEMPORAL_COLLECTION) then txt "temporal" else name.

Section naming.
(** [str.lower], and the value of a decimal digit (the class \d and [int]). *)
Context (lower : text → text) (decimal : N → option Z).

Definition sanitize_model_name (model : text) : text :=
  (λ c, if word_char c then c else underscore) <$> lower model.

Definition resolve_temporal_collection_name (model : text) : text :=
  TEMPORAL_COLLECTION_PREFIX ++ sanitize_model_name model.

Definition get_shard_collection_name (model : text) (t : datetime) : result error text :=
  suffix ← quarter_suffix t; Ok (resolve_temporal_collection_name model ++ [dash] ++ suffix).

(** The match of -\d{4}Q[1-4] on seven characters: year and quarter. *)
Definition parse_suffix (s : text) : option (Z * Z) :=
  match s with
  | [h; a; b; c; d; q; k] =>
      if bool_decide (h = dash) && bool_decide (q = ch_Q) && ((49 <=? k) && (k <=? 52))%N then
        a' ← decimal a; b' ← decimal b; c' ← decimal c; d' ← decimal d;
        Some (1000 * a' + 100 * b' + 10 * c' + d', Z.of_N k - 48)
      else None
  | _ => None
  end.

(** A match at the end, [$] also matching before a last newline: what precedes the
    match, its year and quarter, and what follows it. *)
Definition split_shard (name : text) : option (text * (Z * Z) * text) :=
  let '(body, tail) :=
    if decide (last name = Some newline) then (take (length name - 1) name, [newline]) else (name, []) in
  yq ← parse_suffix (drop (length body - 7) body);
  Some (take (length body - 7) body, yq, tail).

Definition is_sharded_temporal_collection (name : text) : bool :=
  match split_shard name with Some _ => true | None => false end.

Definition base_collection_name (name : text) : text :=
  match split_shard name with Some (base, _, tail) => base ++ tail | None => name end.

Definition overlaps (start stop : option datetime) (range : datetime * datetime) : bool :=
  negb (match stop with Some e => instant (_utc e) <=? instant range.1 | None => false end) &&
  negb (match start with Some s => instant range.2 <=? instant (_utc s) | None => false end).

(** One directory entry: shards so far and whether the monolith was seen. *)
Definition visit (base : text) (start stop : option datetime) (acc : result error (list text * bool)) (e : entry) :
    result error (list text * bool) :=
  '(shards, legacy) ← acc;
  if negb (e_is_dir e) then Ok (shards, legacy)
  else
    match split_shard (e_name e) with
    | Some (b, (y, q), _) =>
        if decide (b = base) then
          range ← get_quarter_range y q;
          Ok (if overlaps start stop range then shards ++ [e_name e] else shards, legacy)
        else Ok (shards, if decide (e_name e = base) then legacy || has_real_monolith e else legacy)
    | None => Ok (shards, if decide (e_name e = base) then legacy || has_real_monolith e else legacy)
    end.

Definition get_overlapping_shards (model : text) (entries : option (list entry)) (start stop : option datetime) :
    result error (list text) :=
  let base := resolve_temporal_collection_name model in
  match entries with
  | None => Ok []
  | Some es =>
      '(shards, legacy) ← foldl (visit base start stop) (Ok ([], false)) es;
      Ok (sort_texts shards ++ (if legacy : bool then [base] else []))
  end.

(** [sorted(index_path.iterdir())]: the siblings are ordered by name. *)
Definition get_temporal_collections (entries : option (list entry)) : list text :=
  match entries with
  | None => []
  | Some es => filter (λ n, is_temporal_collection n = true) (sort_texts (e_name <$> filter (λ e, e_is_dir e = true) es))
  end.
(** ** Names and their parts *)

Hypothesis decimal_ascii : ∀ k, 0 ≤ k ≤ 9 → decimal (Z.to_N (48 + k)) = Some k.

Lemma split_shard_canonical base y q :
  1000 ≤ y ≤ 9999 → 1 ≤ q ≤ 4 →
  split_shard (base ++ [dash] ++ four_digits y ++ [ch_Q] ++ [Z.to_N (48 + q)]) = Some (base, (y, q), []).
Proof using decimal_ascii.
  clear lower. intros Hy Hq. unfold split_shard. set (suf := [dash] ++ _).
  assert (last (base ++ suf) = Some (Z.to_N (48 + q))) as Hlast by (unfold suf; cbn [app]; by rewrite last_app_cons).
  rewrite Hlast, decide_False by (unfold newline; intros [=]; lia).
  assert (length (base ++ suf) - 7 = length base)%nat as -> by (rewrite length_app; cbn; lia).
  rewrite drop_app_length, take_app_length.
  assert (parse_suffix suf = Some (y, q)) as ->; [|done].
  unfold suf, parse_suffix, four_digits. cbn [app]. rewrite !bool_decide_eq_true_2 by done. cbn [andb].
  rewrite (proj2 (N.leb_le _ _)), (proj2 (N.leb_le _ _)) by lia. cbn [andb].
  rewrite !decimal_ascii by (Z.to_euclidean_division_equations; lia). cbn. f_equal. f_equal; [|lia].
  Z.to_euclidean_division_equations. lia.
Qed.

Lemma shard_name_shape model t name :
  valid t → 1000 ≤ year t → get_shard_collection_name model t = Ok name →
  ∃ q, month_to_quarter (month t) = Some q ∧ 1 ≤ q ≤ 4 ∧
    name = resolve_temporal_collection_name model ++ [dash] ++ four_digits (year t) ++ [ch_Q] ++ [Z.to_N (48 + q)].
Proof.
  intros (Hy&Hm&_) Hy4. destruct (quarter_of_month (month t) Hm) as (q&Hq&Hq4&_).
  unfold get_shard_collection_name, quarter_suffix. rewrite Hq, str_year, str_quarter by lia.
  cbn [mbind result_bind]. intros [= <-]. by exists q.
Qed.

(** ** Directory listing *)

Section listing.
Context (model : text) (start stop : option datetime).
Local Abbreviation base := (resolve_temporal_collection_name model).

(** Year and quarter of a shard directory of the model. *)
Definition shard_of (e : entry) : option (Z * Z) :=
  match split_shard (e_name e) with
  | Some (b, yq, _) => if e_is_dir e && bool_decide (b = base) then Some yq else None
  | None => None
  end.

Definition selected (e : entry) : bool :=
  match shard_of e with
  | Some (y, q) => match get_quarter_range y q with Ok r => overlaps start stop r | Err _ => false end
  | None => false
  end.

Definition monolith (e : entry) : bool := bool_decide (e_name e = base) && has_real_monolith e.

Definition range_ok (e : entry) : Prop := match shard_of e with Some (y, q) => 1 ≤ y ≤ 9998 | None => True end.

Lemma range_exists y q : 1 ≤ y ≤ 9998 → ∃ r, get_quarter_range y q = Ok r.
Proof.
  intros. unfold get_quarter_range, make_midnight.
  rewrite (proj2 (Z.leb_le 1 y)), (proj2 (Z.leb_le y 9999)) by lia. cbn [andb mbind result_bind].
  destruct (q =? 4); [|by eexists]. rewrite (proj2 (Z.leb_le 1 (y + 1))), (proj2 (Z.leb_le (y + 1) 9999)) by lia. by eexists.
Qed.

Lemma split_shard_shorter name b yq tail : split_shard name = Some (b, yq, tail) → b ≠ name.
Proof.
  unfold split_shard. destruct (decide _); cbn [mbind option_bind]; destruct (parse_suffix _) eqn:E; try done;
    intros [= <- _ _] Heq; apply (f_equal length) in Heq; revert E; unfold parse_suffix;
    rewrite !length_take in Heq; set (l := drop _ _); assert (length l = 7%nat → False) as Hl;
    try (unfold l; rewrite length_drop, ?length_take; lia);
    destruct l as [|? [|? [|? [|? [|? [|? [|? []]]]]]]]; try done; by destruct (Hl eq_refl).
Qed.

Lemma visit_spec shards legacy e :
  range_ok e →
  visit base start stop (Ok (shards, legacy)) e =
  Ok (shards ++ (if selected e then [e_name e] else []), legacy || monolith e).
Proof.
  unfold range_ok, visit, selected, shard_of, monolith, has_real_monolith. intros Hok. cbn [mbind result_bind].
  destruct (e_is_dir e) eqn:Hdir; cbn [negb andb] in *.
  2: { rewrite andb_false_r, orb_false_r. destruct (split_shard _) as [[[b [y q]] tl]|]; by rewrite app_nil_r. }
  destruct (split_shard (e_name e)) as [[[b [y q]] tl]|] eqn:Hs.
  - pose proof (split_shard_shorter _ _ _ _ Hs) as Hne. case_bool_decide as Hb; subst.
    + rewrite decide_True by done. destruct (range_exists y q Hok) as [r Hr]. rewrite Hr. cbn [mbind result_bind].
      rewrite (bool_decide_eq_false_2 (e_name e = base)) by done. rewrite andb_false_l, orb_false_r.
      destruct (overlaps start stop r); by rewrite ?app_nil_r.
    + rewrite decide_False by done. rewrite app_nil_r. case_decide; case_bool_decide; try done. by rewrite orb_false_r.
  - rewrite app_nil_r. case_decide; case_bool_decide; try done. by rewrite orb_false_r.
Qed.

Lemma visit_all es shards legacy :
  Forall range_ok es →
  foldl (visit base start stop) (Ok (shards, legacy)) es =
  Ok (shards ++ (e_name <$> filter (λ e, selected e = true) es), legacy || existsb monolith es).
Proof.
  intros Hall. revert shards legacy. induction Hall as [|e es He Hall IH]; intros shards legacy; cbn [foldl].
  - cbn. by rewrite app_nil_r, orb_false_r.
  - rewrite visit_spec, IH by done. rewrite filter_cons. cbn [existsb].
    destruct (selected e); cbn [decide]; rewrite <-app_assoc, orb_assoc; done.
Qed.
End listing.

(** The name of a model's shard for a year of four digits. *)
Definition shard_name (model : text) (y q : Z) : text :=
  resolve_temporal_collection_name model ++ [dash] ++ four_digits y ++ [ch_Q] ++ [Z.to_N (48 + q)].

Definition in_calendar (y q : Z) : Prop := 1000 ≤ y ≤ 9999 ∧ 1 ≤ q ≤ 4.

Lemma shard_names_order model y q y' q' :
  in_calendar y q → in_calendar y' q' → text_leb (shard_name model y q) (shard_name model y' q') = true →
  y < y' ∨ (y = y' ∧ q ≤ q').
Proof.
  clear decimal decimal_ascii. intros [Hy Hq] [Hy' Hq']. unfold shard_name. rewrite text_leb_prefix. cbn [app text_leb four_digits].
  repeat match goal with |- context [(?a <? ?b)%N] => destruct (N.ltb_spec a b) end; try done;
    Z.to_euclidean_division_equations; lia.
Qed.
Definition dir_names (es : list entry) : list text := e_name <$> filter (λ e, e_is_dir e = true) es.

Definition from (start : option datetime) (i : Z) : Prop :=
  match start with Some s => instant (_utc s) ≤ i | None => True end.
Definition until (stop : option datetime) (i : Z) : Prop :=
  match stop with Some e => i < instant (_utc e) | None => True end.

Lemma overlapping_closed model es start stop :
  Forall (range_ok model) es →
  get_overlapping_shards model (Some es) start stop =
  Ok (sort_texts (e_name <$> filter (λ e, selected model start stop e = true) es) ++
      (if existsb (monolith model) es then [resolve_temporal_collection_name model] else [])).
Proof. intros Hall. unfold get_overlapping_shards. by rewrite visit_all. Qed.

Lemma overlaps_spec start stop r :
  overlaps start stop r = true ↔
  (∀ s, start = Some s → instant (_utc s) < instant r.2) ∧ (∀ e, stop = Some e → instant r.1 < instant (_utc e)).
Proof.
  unfold overlaps. rewrite andb_true_iff, !negb_true_iff. destruct start, stop; rewrite ?Z.leb_gt; naive_solver.
Qed.

(** The directory of a commit's shard is selected as soon as the bounds admit a
    part of its quarter. *)
Lemma shard_selected model es start stop t name r q :
  valid t → 1000 ≤ year t ≤ 9998 → get_shard_collection_name model t = Ok name → name ∈ dir_names es →
  month_to_quarter (month t) = Some q → get_quarter_range (year t) q = Ok r → overlaps start stop r = true →
  name ∈ e_name <$> filter (λ e, selected model start stop e = true) es.
Proof using decimal_ascii.
  intros Hv Hy Hname Hin Hq Hr Hover. destruct (shard_name_shape model t name Hv) as (q'&Hq'&Hq4&Hshape); [lia|done|].
  rewrite Hq in Hq'. injection Hq' as <-.
  unfold dir_names in Hin. apply list_elem_of_fmap in Hin as (e&->&[Hdir He]%list_elem_of_filter).
  apply list_elem_of_fmap. exists e. split; [done|]. apply list_elem_of_filter. split; [|done].
  unfold selected, shard_of. rewrite Hshape, split_shard_canonical, Hdir by (done || lia).
  rewrite bool_decide_eq_true_2 by done. cbn [andb]. by rewrite Hr.
Qed.

(** Pruning by time keeps the shards that matter.  The listing succeeds when the
    shard directories carry a representable year; it contains the shard of every
    commit inside the bounds; whatever it contains is a directory of this model, the
    unmigrated monolith or a shard whose quarter meets the bounds; and the shards
    come in chronological order. *)
Theorem overlapping_shards_spec model es start stop :
  Forall (range_ok model) es →
  ∃ shards, get_overlapping_shards model (Some es) start stop = Ok shards ∧
  (∀ ts t name, fromtimestamp ts = Some t → 1000 ≤ year t ≤ 9998 → get_shard_collection_name model t = Ok name →
    name ∈ dir_names es → from start (ts + EPOCH) → until stop (ts + EPOCH) → name ∈ shards) ∧
  (∀ name, name ∈ shards → ∃ e, e ∈ es ∧ e_name e = name ∧ e_is_dir e = true ∧
    (monolith model e = true ∨ ∃ y q r, shard_of model e = Some (y, q) ∧ get_quarter_range y q = Ok r ∧
      (∀ s, start = Some s → instant (_utc s) < instant r.2) ∧ (∀ s, stop = Some s → instant r.1 < instant (_utc s)))) ∧
  (∀ i j y q y' q', in_calendar y q → in_calendar y' q' → (i < j)%nat →
    shards !! i = Some (shard_name model y q) → shards !! j = Some (shard_name model y' q') →
    y < y' ∨ (y = y' ∧ q ≤ q')).
Proof using decimal_ascii.
  intros Hall. rewrite overlapping_closed by done. eexists. split; [done|]. split_and!.
  - intros ts t name Ht Hy Hname Hin Hfrom Huntil. destruct (fromtimestamp_spec ts t Ht) as (Hv&Hoff&Hi).
    destruct (shard_name_shape model t name Hv) as (q&Hq&_); [lia|done|].
    destruct (range_exists (year t) q) as [r Hr]; [lia|]. pose proof (quarter_contains t q r Hv Hoff Hq Hr).
    apply elem_of_app. left. rewrite sort_texts_perm. eapply shard_selected; try done.
    apply overlaps_spec. split; intros ? ->; cbn in *; lia.
  - intros name. rewrite elem_of_app, sort_texts_perm, list_elem_of_fmap. intros [(e&->&[Hs He]%list_elem_of_filter)|Hin].
    + exists e. unfold selected in Hs. destruct (shard_of model e) as [[y q]|] eqn:Hy; [|done].
      destruct (get_quarter_range y q) as [r|] eqn:Hr; [|done]. apply overlaps_spec in Hs as [Hs1 Hs2].
      split_and!; [done|done| |right; by exists y, q, r].
      unfold shard_of in Hy. destruct (split_shard _) as [[[b yq] ?]|]; [|done]. by destruct (e_is_dir e).
    + destruct (existsb _ es) eqn:Hex; [|by apply elem_of_nil in Hin]. apply list_elem_of_singleton in Hin as ->.
      apply existsb_exists in Hex as (e&He%list_elem_of_In&Hm). exists e. unfold monolith in Hm.
      pose proof Hm as [Hn%bool_decide_eq_true Hr]%andb_true_iff. unfold has_real_monolith in Hr.
      split_and!; [done|done|by destruct (e_is_dir e)|by left].
  - intros i j y q y' q' Hc Hc' Hij Hi Hj. apply (shard_names_order model); [done|done|].
    pose proof (sort_texts_sorted (e_name <$> filter (λ e, selected model start stop e = true) es)) as Hsort.
    set (l := sort_texts _) in *. assert (∀ k yy qq, (l ++ (if existsb (monolith model) es
      then [resolve_temporal_collection_name model] else [])) !! k = Some (shard_name model yy qq) →
      l !! k = Some (shard_name model yy qq)) as Hl.
    { intros k yy qq [?|[_ Hk]]%lookup_app_Some; [done|exfalso]. destruct (existsb _ es); [|done].
      apply list_lookup_singleton_Some in Hk as [_ Hk]. apply (f_equal length) in Hk. unfold shard_name in Hk.
      rewrite length_app in Hk. cbn in Hk. lia. }
    exact (StronglySorted_lookup _ l i j _ _ Hsort (Hl _ _ _ Hi) (Hl _ _ _ Hj) Hij).
Qed.
(** ** Pruning and filtering of a query *)

(** A date parsed from YYYY-MM-DD. *)
Abbreviation date := (Z * Z * Z)%type.

Definition ALL_TIME_RANGE : date * date := ((1970, 1, 1), (2100, 12, 31)).

Definition midnight (d : date) : datetime := let '(y, m, dd) := d in utc_midnight y m dd.
Definition valid_date (d : date) : Prop := valid (midnight d).

Definition bound_of (sentinel d : date) : option datetime := if decide (d = sentinel) then None else Some (midnight d).

(** The embedder a query resolves to: the explicit one, else the active one. *)
Definition resolved_embedder (temporal_embedder active : option text) : option text :=
  match temporal_embedder with
  | Some (c :: e) => Some (c :: e)
  | _ => match active with Some (c :: e) => Some (c :: e) | _ => None end
  end.

Definition _discover_provider_shards_with_pruning (entries : option (list entry)) (time_range : option (date * date))
    (provider_filter temporal_embedder active : option text) : result error (list (text * list text)) :=
  let '(dt_start, dt_end) :=
    match time_range with
    | None => (None, None)
    | Some (s, e) => (bound_of ALL_TIME_RANGE.1 s, bound_of ALL_TIME_RANGE.2 e)
    end in
  match resolved_embedder temporal_embedder active with
  | None => Ok []
  | Some model =>
      if match provider_filter with Some (c :: f) => negb (contains (c :: f) model) | _ => false end then Ok []
      else
        shards ← get_overlapping_shards model entries dt_start dt_end;
        Ok (match shards with [] => [] | _ => [(resolve_temporal_collection_name model, shards)] end)
  end.

(** [datetime.strptime(d).timestamp()] of a naive date on a server whose zone has the
    given offset. *)
Definition local_timestamp (offset : Z) (d : date) : Z := instant (midnight d) - EPOCH - offset.

(** The [commit_timestamp] range of [query_temporal]. *)
Definition time_filter (offset : Z) (at_commit_ts : option Z) (range : date * date) (ts : Z) : bool :=
  let start_ts := local_timestamp offset range.1 in
  let end_ts := local_timestamp offset range.2 + 86399 in
  let end_ts := match at_commit_ts with Some a => Z.min end_ts a | None => end_ts end in
  (start_ts <=? ts) && (ts <=? end_ts).

Lemma midnight_multiple y m d : instant (utc_midnight y m d) = ymd2ord y m d * 86400.
Proof. unfold instant. cbn [year month day second utcoffset utc_midnight default from_option id]. lia. Qed.

Lemma quarter_starts_at_midnight y q r : get_quarter_range y q = Ok r → ∃ k, instant r.1 = k * 86400.
Proof.
  unfold get_quarter_range, make_midnight. destruct ((1 <=? y) && (y <=? 9999)); cbn [mbind result_bind]; [|done].
  destruct (if q =? 4 then _ else _) as [s2|]; cbn [mbind result_bind]; [|done]. intros [= <-]. cbn [fst].
  rewrite midnight_multiple. eauto.
Qed.

(** The commits of the time filter that pruning keeps, on a server in UTC. *)
Lemma pruning_keeps es model s e at_commit_ts ts t name q r :
  Forall (range_ok model) es → model ≠ [] → fromtimestamp ts = Some t → 1000 ≤ year t ≤ 9998 →
  get_shard_collection_name model t = Ok name → name ∈ dir_names es →
  month_to_quarter (month t) = Some q → get_quarter_range (year t) q = Ok r →
  time_filter 0 at_commit_ts (s, e) ts = true →
  (∃ base shards, _discover_provider_shards_with_pruning (Some es) (Some (s, e)) None (Some model) None =
     Ok [(base, shards)] ∧ name ∈ shards) ∨
  (instant r.1 = instant (midnight e) ∧ ymd2ord (year t) (month t) (day t) * 86400 = instant (midnight e)).
Proof using decimal_ascii.
  intros Hall Hne Ht Hy Hname Hin Hq Hr Hfilter.
  destruct (fromtimestamp_spec ts t Ht) as (Hv&Hoff&Hi). pose proof (quarter_contains t q r Hv Hoff Hq Hr) as Hcont.
  assert (instant (midnight s) ≤ instant t ≤ instant (midnight e) + 86399) as Hrange.
  { revert Hfilter. unfold time_filter, local_timestamp. cbn [fst snd]. rewrite andb_true_iff, !Z.leb_le.
    destruct at_commit_ts; lia. }
  assert (∀ d, _utc (midnight d) = midnight d) as Hutc by (by intros [[??]?]).
  destruct (overlaps (bound_of ALL_TIME_RANGE.1 s) (bound_of ALL_TIME_RANGE.2 e) r) eqn:Hover.
  - left. exists (resolve_temporal_collection_name model). unfold _discover_provider_shards_with_pruning.
    assert (resolved_embedder (Some model) None = Some model) as -> by (by destruct model).
    rewrite overlapping_closed by done. cbn [mbind result_bind].
    pose proof (shard_selected model es _ _ t name r q Hv Hy Hname Hin Hq Hr Hover) as Hsel.
    rewrite <-sort_texts_perm in Hsel. set (l := sort_texts _) in *. set (k := if existsb _ _ then _ else _).
    exists (l ++ k). split; [|apply elem_of_app; by left]. destruct l; [by apply elem_of_nil in Hsel|done].
  - right. revert Hover. unfold overlaps, bound_of. rewrite andb_false_iff, !negb_false_iff.
    destruct (quarter_starts_at_midnight _ _ _ Hr) as [k Hk].
    assert (∃ k', instant (midnight e) = k' * 86400) as [k' Hk'].
    { destruct e as [[ye me] de]. unfold midnight. rewrite midnight_multiple. eauto. }
    assert (instant t = ymd2ord (year t) (month t) (day t) * 86400 + second t) as Hit
      by (unfold instant; rewrite Hoff; cbn [default from_option id]; lia).
    destruct Hv as (_&_&_&Hsec).
    intros [Hover|Hover]; case_decide; try done; rewrite Hutc, Z.leb_le in Hover; lia.
Qed.
End naming.

(** ** Concrete instances *)

Definition ascii_decimal (c : N) : option Z := if ((48 <=? c) && (c <=? 57))%N then Some (Z.of_N c - 48) else None.

Lemma ascii_decimal_spec k : 0 ≤ k ≤ 9 → ascii_decimal (Z.to_N (48 + k)) = Some k.
Proof.
  intros. unfold ascii_decimal. rewrite (proj2 (N.leb_le _ _)), (proj2 (N.leb_le _ _)) by lia. cbn [andb]. f_equal. lia.
Qed.

Definition directory (name : text) : entry := {| e_name := name; e_is_dir := true; e_has_marker := false; e_has_hnsw := true |}.

Definition demo_entries : list entry :=
  [directory (txt "code-indexer-temporal-m-2024Q2"); directory (txt "code-indexer-temporal-m-2024Q1");
   directory (txt "code-indexer-temporal-n-2024Q1"); directory (txt "code-indexer-temporal-m")].

(** What pruning loses against the time filter of the search, on a server in
    UTC.  A commit the filter accepts and whose shard exists is found, unless the end
    date is the first day of the commit's quarter and the commit was made on it.
    Such commits are lost: the bound of the pruning is the midnight at which the end
    date begins, while the filter runs to its last second. *)
Theorem pruning_loses_end_day :
  (∀ lower decimal, (∀ k, 0 ≤ k ≤ 9 → decimal (Z.to_N (48 + k)) = Some k) →
    ∀ es model s e at_commit_ts ts t name q r,
    Forall (range_ok lower decimal model) es → model ≠ [] → fromtimestamp ts = Some t → 1000 ≤ year t ≤ 9998 →
    get_shard_collection_name lower model t = Ok name → name ∈ dir_names es →
    month_to_quarter (month t) = Some q → get_quarter_range (year t) q = Ok r →
    time_filter 0 at_commit_ts (s, e) ts = true →
    (∃ base shards, _discover_provider_shards_with_pruning lower decimal (Some es) (Some (s, e)) None (Some model) None =
       Ok [(base, shards)] ∧ name ∈ shards) ∨
    (instant r.1 = instant (midnight e) ∧ ymd2ord (year t) (month t) (day t) * 86400 = instant (midnight e))) ∧
  (let noon := {| year := 2024; month := 4; day := 1; second := 43200; utcoffset := Some 0 |} in
   fromtimestamp 1711972800 = Some noon ∧
   get_shard_collection_name ascii_lower (txt "m") noon = Ok (txt "code-indexer-temporal-m-2024Q2") ∧
   time_filter 0 None ((2024, 1, 1), (2024, 4, 1)) 1711972800 = true ∧
   _discover_provider_shards_with_pruning ascii_lower ascii_decimal (Some (take 3 demo_entries))
     (Some ((2024, 1, 1), (2024, 4, 1))) None (Some (txt "m")) None =
     Ok [(txt "code-indexer-temporal-m", [txt "code-indexer-temporal-m-2024Q1"])]).
Proof.
  split; [|split_and!; by vm_compute].
  intros lower decimal Hdec es model s e at_commit_ts ts t name q r. by apply pruning_keeps.
Qed.

Lemma overlapping_shards_spec_witness :
  get_overlapping_shards ascii_lower ascii_decimal (txt "m") (Some demo_entries) None (Some (utc_midnight 2024 4 2)) =
    Ok [txt "code-indexer-temporal-m-2024Q1"; txt "code-indexer-temporal-m-2024Q2"; txt "code-indexer-temporal-m"] ∧
  txt "code-indexer-temporal-m-2024Q2" ∈
    [txt "code-indexer-temporal-m-2024Q1"; txt "code-indexer-temporal-m-2024Q2"; txt "code-indexer-temporal-m"].
Proof.
  assert (get_overlapping_shards ascii_lower ascii_decimal (txt "m") (Some demo_entries) None (Some (utc_midnight 2024 4 2)) =
    Ok [txt "code-indexer-temporal-m-2024Q1"; txt "code-indexer-temporal-m-2024Q2"; txt "code-indexer-temporal-m"]) as E
    by (by vm_compute).
  split; [exact E|].
  destruct (overlapping_shards_spec ascii_lower ascii_decimal ascii_decimal_spec (txt "m") demo_entries None
    (Some (utc_midnight 2024 4 2))) as (shards&Hs&Hfind&_).
  { unfold demo_entries. rewrite !Forall_cons. split_and!; [by vm_compute..|constructor]. }
  rewrite E in Hs. injection Hs as <-.
  apply (Hfind 1711972800 {| year := 2024; month := 4; day := 1; second := 43200; utcoffset := Some 0 |});
    [by vm_compute|cbn; lia|by vm_compute| |done|by vm_compute].
  apply (bool_decide_unpack _). by vm_compute.
Defined.
End TemporalNaming.
