(* ===== verification/TemporalIndexing.v ===== *)
(** * Incremental temporal indexing: progress, plan, reconciliation

    src/src/code_indexer/services/temporal/temporal_progressive_metadata.py
    ([ProgressMetadata]), temporal_incremental_gate.py ([IncrementalGate]) and
    temporal_reconciliation.py ([Reconciliation]).

    The progress file is its parsed content; the time stamp it carries is written and
    never read, and is left out.  The vector store is what the code asks of it: the
    names of the collections, the completed commits and the staleness flag of a
    shard, and the point files of a shard. *)

From S2P Require Import Prelude.
From S2P Require Import PyText.
From S2P Require Import TemporalShards.
From stdpp Require Import options.
Import TemporalNaming.

Module ProgressMetadata.

Inductive error := ValueError | KeyError | OSError.

Definition VALID_STATES : list text := [txt "idle"; txt "building"; txt "failed"].

(** Content of temporal_progress.json: absent, not parsable, of the format without a
    version, or current.  Keys may be missing. *)
Inductive file :=
| Absent
| Unreadable
| Legacy (commits : option (list text)) (status : text)
| Current (commits : option (list text)) (state : option text).

(** The dictionary a load returns. *)
Record data := { completed_commits : option (list text); d_state : option text }.

Definition _default_data : data := {| completed_commits := Some []; d_state := Some (txt "idle") |}.

Definition to_file (d : data) : file := Current (completed_commits d) (d_state d).

Definition _migrate_legacy (commits : option (list text)) (status : text) : data :=
  {| completed_commits := Some (sort_texts (remove_dups (default [] commits)));
     d_state := Some (if decide (status = txt "failed") then txt "failed" else txt "idle") |}.

(** Loading a legacy file rewrites it. *)
Definition _load (f : file) : data * file :=
  match f with
  | Absent | Unreadable => (_default_data, f)
  | Legacy commits status => let d := _migrate_legacy commits status in (d, to_file d)
  | Current commits st => ({| completed_commits := commits; d_state := st |}, f)
  end.

(** [modifier] works on the loaded data; [write_ok] is false when writing the new
    file raises, in which case the old one is still there. *)
Definition _atomic_update (modifier : data → result error data) (write_ok : bool) (f : file) : result error () * file :=
  let '(d, f1) := _load f in
  match modifier d with
  | Err x => (Err x, f1)
  | Ok d1 =>
      match completed_commits d1 with
      | None => (Err KeyError, f1)
      | Some cs =>
          if write_ok
          then (Ok (), to_file {| completed_commits := Some (sort_texts (remove_dups cs)); d_state := d_state d1 |})
          else (Err OSError, f1)
      end
  end.

Definition extend (hs : list text) (d : data) : result error data :=
  match completed_commits d with
  | None => Err KeyError
  | Some cs => Ok {| completed_commits := Some (cs ++ hs); d_state := d_state d |}
  end.

Definition put_state (s : text) (d : data) : result error data :=
  Ok {| completed_commits := completed_commits d; d_state := Some s |}.

(** An instance on a shard directory: the staged commits and the file. *)
Record progress := { pending : gset text; disk : file }.

Definition mark_commit_indexed (h : text) (p : progress) : progress :=
  {| pending := {[h]} ∪ pending p; disk := disk p |}.

(** The staged set is taken and cleared before the write. *)
Definition flush_pending (write_ok : bool) (p : progress) : result error () * progress :=
  if decide (pending p = ∅) then (Ok (), p)
  else
    let '(r, f) := _atomic_update (extend (elements (pending p))) write_ok (disk p) in
    (r, {| pending := ∅; disk := f |}).

Definition save_completed (h : text) (write_ok : bool) (p : progress) : result error () * progress :=
  flush_pending write_ok (mark_commit_indexed h p).

Definition mark_completed (hs : list text) (write_ok : bool) (p : progress) : result error () * progress :=
  let '(r, f) := _atomic_update (extend hs) write_ok (disk p) in (r, {| pending := pending p; disk := f |}).

Definition load_completed (p : progress) : gset text * progress :=
  let '(d, f) := _load (disk p) in
  (list_to_set (default [] (completed_commits d)) ∪ pending p, {| pending := pending p; disk := f |}).

Definition set_state (s : text) (write_ok : bool) (p : progress) : result error () * progress :=
  if decide (s ∈ VALID_STATES) then
    let '(r, f) := _atomic_update (put_state s) write_ok (disk p) in (r, {| pending := pending p; disk := f |})
  else (Err ValueError, p).

Definition get_state (p : progress) : text * progress :=
  let '(d, f) := _load (disk p) in (default (txt "idle") (d_state d), {| pending := pending p; disk := f |}).

Definition clear (p : progress) : progress := {| pending := pending p; disk := Absent |}.

(** ** Specification: a durable set and a staged set *)

Inductive op :=
| Mark (h : text)
| Flush (write_ok : bool)
| Save (h : text) (write_ok : bool)
| MarkAll (hs : list text) (write_ok : bool)
| Load
| SetState (s : text) (write_ok : bool)
| Clear
| Crash.

(** A crash drops the instance; a new one starts with nothing staged. *)
Definition exec (p : progress) (o : op) : progress :=
  match o with
  | Mark h => mark_commit_indexed h p
  | Flush ok => (flush_pending ok p).2
  | Save h ok => (save_completed h ok p).2
  | MarkAll hs ok => (mark_completed hs ok p).2
  | Load => (load_completed p).2
  | SetState s ok => (set_state s ok p).2
  | Clear => clear p
  | Crash => {| pending := ∅; disk := disk p |}
  end.

Record spec := { durable : gset text; staged : gset text }.

Definition spec_exec (a : spec) (o : op) : spec :=
  match o with
  | Mark h => {| durable := durable a; staged := {[h]} ∪ staged a |}
  | Flush ok => {| durable := if ok : bool then durable a ∪ staged a else durable a; staged := ∅ |}
  | Save h ok => {| durable := if ok : bool then durable a ∪ ({[h]} ∪ staged a) else durable a; staged := ∅ |}
  | MarkAll hs ok => {| durable := if ok : bool then durable a ∪ list_to_set hs else durable a; staged := staged a |}
  | Load | SetState _ _ => a
  | Clear => {| durable := ∅; staged := staged a |}
  | Crash => {| durable := durable a; staged := ∅ |}
  end.

(** Files the class writes, and legacy files, hold a list of commits. *)
Definition file_commits (f : file) : option (gset text) :=
  match f with
  | Absent | Unreadable => Some ∅
  | Legacy commits _ => Some (list_to_set (default [] commits))
  | Current commits _ => list_to_set <$> commits
  end.

Definition abstracts (p : progress) (a : spec) : Prop := file_commits (disk p) = Some (durable a) ∧ pending p = staged a.

Lemma sorted_set (l : list text) : list_to_set (sort_texts (remove_dups l)) =@{gset text} list_to_set l.
Proof.
  apply set_eq. intros x. rewrite !elem_of_list_to_set, sort_texts_perm. apply elem_of_remove_dups.
Qed.

Lemma load_commits f s : file_commits f = Some s →
  ∃ cs, completed_commits (_load f).1 = Some cs ∧ list_to_set cs = s ∧ file_commits (_load f).2 = Some s.
Proof.
  destruct f as [| |commits status|[cs|] st]; cbn; intros [= <-]; eexists; (split; [done|]); try done.
  by rewrite sorted_set.
Qed.

Lemma update_extend hs ok f s :
  file_commits f = Some s →
  let '(r, f') := _atomic_update (extend hs) ok f in
  r = (if ok then Ok () else Err OSError) ∧ file_commits f' = Some (if ok then s ∪ list_to_set hs else s).
Proof.
  intros Hf. destruct (load_commits f s Hf) as (cs&Hcs&Hs&Hf'). unfold _atomic_update.
  destruct (_load f) as [d f1]. cbn in Hcs, Hf'. unfold extend. rewrite Hcs. cbn.
  destruct ok; [|done]. split; [done|]. cbn. by rewrite sorted_set, list_to_set_app_L, Hs.
Qed.

Lemma flush_spec ok p a :
  abstracts p a → abstracts (flush_pending ok p).2 (spec_exec a (Flush ok)) ∧
  (flush_pending ok p).1 = (if ok || bool_decide (staged a = ∅) then Ok () else Err OSError).
Proof.
  intros [Hd Hp]. unfold flush_pending, abstracts. rewrite Hp. cbn [spec_exec durable staged]. case_decide as He.
  - cbn [fst snd]. rewrite bool_decide_eq_true_2, orb_true_r, Hd, Hp, He by done. destruct ok; by rewrite ?union_empty_r_L.
  - rewrite bool_decide_eq_false_2, orb_false_r by done.
    pose proof (update_extend (elements (staged a)) ok (disk p) _ Hd) as H.
    destruct (_atomic_update _ _ _) as [r f]. destruct H as [-> H]. cbn.
    rewrite H. by rewrite list_to_set_elements_L.
Qed.

Lemma exec_refines p a o : abstracts p a → abstracts (exec p o) (spec_exec a o).
Proof.
  intros Ha. pose proof Ha as [Hd Hp]. destruct o as [h|ok|h ok|hs ok| |s ok| |]; cbn [exec].
  - split; cbn; [done|by rewrite Hp].
  - apply flush_spec. done.
  - unfold save_completed. assert (abstracts (mark_commit_indexed h p) (spec_exec a (Mark h))) as Hm
      by (split; cbn; [done|by rewrite Hp]).
    by apply (flush_spec ok) in Hm as [Hm _].
  - unfold mark_completed. pose proof (update_extend hs ok (disk p) _ Hd) as H.
    destruct (_atomic_update _ _ _) as [r f]. destruct H as [_ H]. by split.
  - unfold load_completed. destruct (load_commits _ _ Hd) as (cs&_&_&Hf). destruct (_load (disk p)). by split.
  - unfold set_state. case_decide; [|done]. destruct (load_commits _ _ Hd) as (cs&Hcs&Hs&Hf).
    unfold _atomic_update. destruct (_load (disk p)) as [d f1]. cbn in Hcs, Hf. unfold put_state. cbn. rewrite Hcs.
    destruct ok; (split; [|done]); cbn; [|done]. by rewrite sorted_set, Hs.
  - by split.
  - by split.
Qed.

(** Progress tracking implements a durable set and a staged set.  From a file of
    any readable format, for every sequence of operations with writes failing at will
    and crashes at any point, the commits in the file are exactly those whose write
    succeeded since it was last cleared, the staged ones those marked since; a load
    returns both, and a new instance only the durable ones. *)
Theorem progress_refines_sets f s ops :
  file_commits f = Some s →
  let p := foldl exec {| pending := ∅; disk := f |} ops in
  let a := foldl spec_exec {| durable := s; staged := ∅ |} ops in
  abstracts p a ∧ (load_completed p).1 = durable a ∪ staged a ∧
  (load_completed (exec p Crash)).1 = durable a ∧
  (∀ ok, (flush_pending ok p).1 = (if ok || bool_decide (staged a = ∅) then Ok () else Err OSError)).
Proof.
  intros Hf. cbn zeta. assert (abstracts (foldl exec {| pending := ∅; disk := f |} ops)
    (foldl spec_exec {| durable := s; staged := ∅ |} ops)) as Ha.
  { assert (∀ p a, abstracts p a → abstracts (foldl exec p ops) (foldl spec_exec a ops)) as H; [|by apply H].
    induction ops as [|o ops IH]; intros p a Ha; [done|]. cbn. by apply IH, exec_refines. }
  generalize dependent (foldl exec {| pending := ∅; disk := f |} ops). intros p Ha. split; [done|].
  pose proof Ha as [Hd Hp]. destruct (load_commits _ _ Hd) as (cs&Hcs&Hs&_). split_and!.
  - unfold load_completed. destruct (_load (disk p)) as [d f1]. cbn in *. rewrite Hcs. cbn. by rewrite Hs, Hp.
  - unfold load_completed. cbn. destruct (_load (disk p)) as [d f1]. cbn in *. rewrite Hcs. cbn. by rewrite Hs, union_empty_r_L.
  - intros ok. by apply flush_spec.
Qed.

Lemma progress_refines_sets_witness :
  let p := foldl exec {| pending := ∅; disk := Legacy (Some [txt "b"; txt "a"; txt "b"]) (txt "complete") |}
             [Mark (txt "c"); Flush true; Mark (txt "d")] in
  (load_completed p).1 = {[txt "a"; txt "b"; txt "c"; txt "d"]} ∧
  (load_completed (exec p Crash)).1 = {[txt "a"; txt "b"; txt "c"]}.
Proof.
  destruct (progress_refines_sets (Legacy (Some [txt "b"; txt "a"; txt "b"]) (txt "complete")) {[txt "a"; txt "b"]}
    [Mark (txt "c"); Flush true; Mark (txt "d")]) as (_&H1&H2&_); [by vm_compute|].
  split; [rewrite H1|rewrite H2]; by vm_compute.
Defined.

(** The rewrite of a legacy file is done by readers too, outside the lock: a reader
    that loaded the legacy file before a writer's flush and writes after it drops the
    flushed commits. *)
Lemma migration_loses_flush :
  let legacy := Legacy (Some [txt "a"]) (txt "complete") in
  let read := (_load legacy).2 in
  let flushed := (_atomic_update (extend [txt "b"]) true legacy).2 in
  file_commits flushed = Some {[txt "a"; txt "b"]} ∧ file_commits read = Some {[txt "a"]}.
Proof. by vm_compute. Qed.
End ProgressMetadata.

(** ** Grouping: [d.setdefault(key(x), []).append(x)] *)

Section group.
Context {K A : Type} `{EqDecision K} (key : A → K).

Definition group_step (d : list (K * list A)) (x : A) : list (K * list A) :=
  dset (key x) (default [] (dget (key x) d) ++ [x]) d.

Definition group_by (l : list A) : list (K * list A) := foldl group_step [] l.

Definition nonempty (l : list A) : option (list A) := match l with [] => None | _ => Some l end.

Lemma group_by_spec l : NoDup (group_by l).*1 ∧ ∀ k, dget k (group_by l) = nonempty (filter (λ x, key x = k) l).
Proof.
  unfold group_by. induction l as [|x l [Hnd IH]] using rev_ind; [split; [constructor|done]|].
  rewrite foldl_app. cbn [foldl]. unfold group_step at 1 3. split; [by apply dset_NoDup|].
  intros k. rewrite dget_dset, IH, filter_app. destruct (decide (key x = k)) as [<-|Hne].
  - rewrite filter_cons_True by done. cbn. destruct (filter _ l); done.
  - rewrite filter_cons_False, app_nil_r by done. apply IH.
Qed.
(** [d.setdefault(k, [])]. *)
Definition set_default (d : list (K * list A)) (k : K) : list (K * list A) :=
  match dget k d with Some _ => d | None => dset k [] d end.

(** Setting defaults only adds missing keys. *)
Lemma setdefault_spec (ks : list K) (d : list (K * list A)) :
  NoDup d.*1 →
  let d' := foldl set_default d ks in
  NoDup d'.*1 ∧ ∀ k, dget k d' = match dget k d with Some l => Some l | None => if decide (k ∈ ks) then Some [] else None end.
Proof.
  revert d. induction ks as [|s ks IH]; intros d Hnd; cbn [foldl].
  - split; [done|]. intros k. by destruct (dget k d).
  - destruct (IH (set_default d s)) as [Hnd' H].
    { unfold set_default. destruct (dget s d); [done|by apply dset_NoDup]. }
    split; [done|]. intros k. rewrite H. unfold set_default. destruct (dget s d) eqn:Es.
    + destruct (dget k d) eqn:Ek; [done|]. assert (k ≠ s) by congruence.
      destruct (decide (k ∈ ks)), (decide (k ∈ s :: ks)); set_solver.
    + rewrite dget_dset. destruct (decide (s = k)) as [->|Hne].
      * rewrite Es, decide_True by left. done.
      * destruct (dget k d); [done|]. destruct (decide (k ∈ ks)), (decide (k ∈ s :: ks)); set_solver.
Qed.
End group.

Module IncrementalGate.
Import Calendar.

Record CommitInfo := {
  hash : text; timestamp : Z; author_name : text; author_email : text; message : text; parent_hashes : text }.

Section gate.
Context (lower : text → text) (decimal : N → option Z) (set_order : gset text → list text).
(** The vector store: collections in listing order, completed commits and stale flag
    of a shard directory. *)
Context (list_collections : list text) (load_completed : text → gset text) (is_stale : text → bool).

Definition _disk_shards_for_embedder (embedder : text) : list text :=
  filter (λ name, is_sharded_temporal_collection decimal name = true ∧
                  base_collection_name decimal name = resolve_temporal_collection_name lower embedder) list_collections.

Definition _load_indexed_set (embedder : text) : gset text :=
  foldl (λ indexed shard, indexed ∪ load_completed shard) ∅ (_disk_shards_for_embedder embedder).

Definition _find_stale_shards (embedder : text) : gset text :=
  list_to_set (filter (λ shard, is_stale shard = true) (_disk_shards_for_embedder embedder)).

Definition _parse_since_date_cutoff (d : Z * Z * Z) : Z := instant (midnight d) - EPOCH.

(** The shard of a commit; the date must be representable. *)
Definition shard_for (embedder : text) (c : CommitInfo) : result error text :=
  match fromtimestamp (timestamp c) with
  | Some t => get_shard_collection_name lower embedder t
  | None => Err ValueError
  end.

Definition bucket_step (embedder : text) (acc : result error (list (text * list CommitInfo))) (c : CommitInfo) :
    result error (list (text * list CommitInfo)) :=
  buckets ← acc;
  shard ← shard_for embedder c;
  Ok (dset shard (default [] (dget shard buckets) ++ [c]) buckets).

Definition bucket_commits_by_shard (commits : list CommitInfo) (embedder : text) :
    result error (list (text * list CommitInfo)) :=
  foldl (bucket_step embedder) (Ok []) commits.

(** The commits to index: not recorded as complete, then the scheduling limits. *)
Definition new_commits (universe : list CommitInfo) (embedder : text) (max_commits : option Z)
    (since_date : option (Z * Z * Z)) : list CommitInfo :=
  let indexed_set := _load_indexed_set embedder in
  let l := filter (λ c, hash c ∉ indexed_set) universe in
  let l := match since_date with
           | Some d => filter (λ c, _parse_since_date_cutoff d ≤ timestamp c)%Z l
           | None => l
           end in
  match max_commits with
  | Some n => if (0 <? n)%Z then drop (length l - Z.to_nat n) l else l
  | None => l
  end.

Definition compute_embedder_indexing_plan (universe : list CommitInfo) (embedder : text) (max_commits : option Z)
    (since_date : option (Z * Z * Z)) : result error (list (text * list CommitInfo)) :=
  buckets ← bucket_commits_by_shard (new_commits universe embedder max_commits since_date) embedder;
  Ok (foldl set_default buckets
        (set_order (_find_stale_shards embedder))).

Definition plan_is_empty (plan : list (text * list CommitInfo)) : bool := bool_decide (plan = []).

(** ** Correctness *)

Hypothesis decimal_ascii : ∀ k, (0 ≤ k ≤ 9)%Z → decimal (Z.to_N (48 + k)) = Some k.
Hypothesis set_order_perm : ∀ X, set_order X ≡ₚ elements X.

(** A commit whose date has a year of four digits, and its shard. *)
Definition in_shard (embedder : text) (c : CommitInfo) (name : text) : Prop :=
  ∃ t, fromtimestamp (timestamp c) = Some t ∧ (1000 ≤ year t)%Z ∧ get_shard_collection_name lower embedder t = Ok name.

Lemma in_shard_for embedder c name : in_shard embedder c name → shard_for embedder c = Ok name.
Proof. intros (t&Ht&_&Hname). unfold shard_for. by rewrite Ht. Qed.

Definition shard_or_nil (embedder : text) (c : CommitInfo) : text :=
  match shard_for embedder c with Ok n => n | Err _ => [] end.

Lemma buckets_closed embedder cs :
  Forall (λ c, ∃ name, in_shard embedder c name) cs →
  bucket_commits_by_shard cs embedder = Ok (group_by (shard_or_nil embedder) cs).
Proof.
  intros Hall. unfold bucket_commits_by_shard, group_by. generalize (@nil (text * list CommitInfo)).
  induction Hall as [|c cs [name Hc%in_shard_for] Hall IH]; intros d; [done|]. cbn [foldl].
  unfold bucket_step at 2. rewrite Hc. cbn [mbind result_bind]. rewrite IH. unfold group_step at 3, shard_or_nil at 3 4.
  by rewrite Hc.
Qed.

Lemma indexed_set_spec embedder h :
  h ∈ _load_indexed_set embedder ↔ ∃ shard, shard ∈ _disk_shards_for_embedder embedder ∧ h ∈ load_completed shard.
Proof.
  clear is_stale. unfold _load_indexed_set. assert (∀ X, h ∈ foldl (λ indexed shard, indexed ∪ load_completed shard) X
    (_disk_shards_for_embedder embedder) ↔ h ∈ X ∨ ∃ shard, shard ∈ _disk_shards_for_embedder embedder ∧ h ∈ load_completed shard) as H.
  { induction (_disk_shards_for_embedder embedder) as [|s l IH]; intros X; cbn [foldl].
    - split; [by left|]. intros [?|(?&?%elem_of_nil&_)]; done.
    - rewrite IH, elem_of_union. setoid_rewrite elem_of_cons. naive_solver. }
  rewrite H. split; [|by right]. intros [?%elem_of_empty|?]; done.
Qed.

Lemma new_commits_subset universe embedder max_commits since_date c :
  c ∈ new_commits universe embedder max_commits since_date → c ∈ universe ∧ hash c ∉ _load_indexed_set embedder.
Proof.
  unfold new_commits. intros Hin.
  assert (∀ l, c ∈ match max_commits with
    | Some n => if (0 <? n)%Z then drop (length l - Z.to_nat n) l else l | None => l end → c ∈ l) as Hdrop.
  { intros l. destruct max_commits as [n|]; [|done]. destruct (0 <? n)%Z; [|done]. intros H.
    rewrite <-(take_drop (length l - Z.to_nat n) l). apply elem_of_app. by right. }
  apply Hdrop in Hin. destruct since_date; [apply list_elem_of_filter in Hin as [_ Hin]|];
    apply list_elem_of_filter in Hin as [??]; done.
Qed.

Lemma shard_on_disk embedder c name :
  in_shard embedder c name → name ∈ list_collections → name ∈ _disk_shards_for_embedder embedder.
Proof using decimal_ascii.
  intros (t&Ht&Hy&Hname) Hin. destruct (fromtimestamp_spec _ _ Ht) as [Hv _].
  destruct (shard_name_shape lower embedder t name Hv Hy Hname) as (q&_&Hq&->).
  apply list_elem_of_filter. split; [|done]. pose proof Hv as [[_ Hy9] _].
  unfold is_sharded_temporal_collection, base_collection_name.
  rewrite (split_shard_canonical decimal decimal_ascii) by lia. split; [done|]. apply app_nil_r.
Qed.

(** The indexing plan.  For commits with representable dates it succeeds; each
    shard is planned with exactly the commits to index that belong to it, in order,
    and a stale shard without such commits with none; nothing else is planned.
    Without limits the commits to index are those recorded complete in no shard of
    the embedder on disk, and limits only drop some of them.  Once every commit is
    recorded in its shard and no shard is stale, the plan is empty. *)
Theorem indexing_plan_spec universe embedder max_commits since_date :
  Forall (λ c, ∃ name, in_shard embedder c name) universe →
  let work := new_commits universe embedder max_commits since_date in
  ∃ plan, compute_embedder_indexing_plan universe embedder max_commits since_date = Ok plan ∧ NoDup plan.*1 ∧
  (∀ shard, dget shard plan =
    match filter (λ c, shard_or_nil embedder c = shard) work with
    | [] => if decide (shard ∈ _find_stale_shards embedder) then Some [] else None
    | commits => Some commits
    end) ∧
  (∀ c, c ∈ work → c ∈ universe ∧ ∀ shard, shard ∈ _disk_shards_for_embedder embedder → hash c ∉ load_completed shard) ∧
  (max_commits = None → since_date = None → ∀ c, c ∈ universe →
    c ∈ work ∨ ∃ shard, shard ∈ _disk_shards_for_embedder embedder ∧ hash c ∈ load_completed shard) ∧
  (Forall (λ c, ∃ name, in_shard embedder c name ∧ name ∈ list_collections ∧ hash c ∈ load_completed name) universe →
   (∀ shard, shard ∈ list_collections → is_stale shard = false) → plan_is_empty plan = true).
Proof using decimal_ascii set_order_perm.
  intros Hall work. assert (Forall (λ c, ∃ name, in_shard embedder c name) work) as Hwork.
  { rewrite !Forall_forall in *. intros c [Hc _]%new_commits_subset. by apply Hall. }
  unfold compute_embedder_indexing_plan. fold work. rewrite buckets_closed by done. cbn [mbind result_bind].
  destruct (group_by_spec (shard_or_nil embedder) work) as [Hnd Hget].
  destruct (setdefault_spec (set_order (_find_stale_shards embedder)) _ Hnd) as [Hnd' Hget'].
  eexists. split; [done|]. split; [done|]. split_and!.
  - intros shard. rewrite Hget', Hget. destruct (filter _ work); cbn [nonempty]; [|done].
    destruct (decide (shard ∈ set_order _)) as [Hi|Hi], (decide (shard ∈ _find_stale_shards embedder)) as [Hj|Hj]; try done;
      rewrite set_order_perm, elem_of_elements in Hi; done.
  - intros c [Hc Hn]%new_commits_subset. split; [done|]. intros shard Hs Hin. apply Hn, indexed_set_spec. eauto.
  - intros Hmax Hsince c Hc. destruct (decide (hash c ∈ _load_indexed_set embedder)) as [Hi|Hi].
    + right. by apply indexed_set_spec.
    + left. unfold work, new_commits. rewrite Hmax, Hsince. by apply list_elem_of_filter.
  - intros Hdone Hfresh. assert (work = []) as Hnil.
    { destruct work as [|c w] eqn:Ew; [done|]. assert (c ∈ work) as Hc by (rewrite Ew; left). unfold work in Hc.
      apply new_commits_subset in Hc as [Hc Hn]. rewrite Forall_forall in Hdone.
      destruct (Hdone c Hc) as (name&Hin&Hl&Hh). exfalso. apply Hn, indexed_set_spec. exists name. split; [|done].
      by eapply shard_on_disk. }
    rewrite Hnil. assert (_find_stale_shards embedder = ∅) as ->.
    { apply set_eq. intros x. unfold _find_stale_shards. rewrite elem_of_list_to_set, elem_of_empty, list_elem_of_filter.
      split; [|done]. intros [Hs [_ Hx]%list_elem_of_filter]. rewrite (Hfresh x Hx) in Hs. done. }
    assert (set_order ∅ = []) as -> by (apply Permutation_nil_r; by rewrite set_order_perm, elements_empty). done.
Qed.
End gate.
End IncrementalGate.

Module Reconciliation.
Import IncrementalGate.

Definition colon : N := 58.

Definition build_point_id (project_id commit_hash : text) (chunk_index : Z) : text :=
  project_id ++ [colon] ++ txt "commit" ++ [colon] ++ commit_hash ++ [colon] ++ str_int chunk_index.

(** The commit of a point: [parts[2]] when there are four parts and the second is
    commit. *)
Definition commit_of_point (point_id : text) : option text :=
  match split_on colon point_id with
  | [_; kind; h; _] => if decide (kind = txt "commit") then Some h else None
  | _ => None
  end.

Inductive error := StrayDeleteFailedError.

(** Point files of a shard: point id and path, in the order of the scan. *)
Abbreviation points := (list (text * text)).

Definition add_point (d : list (text * list text)) (pt : text * text) : list (text * list text) :=
  match commit_of_point pt.1 with
  | Some h => dset h (default [] (dget h d) ++ [pt.2]) d
  | None => d
  end.

Definition hashes_with_points (pts : points) : list (text * list text) := foldl add_point [] pts.

(** The loop over the commits: missing ones and paths of partial ones. *)
Definition classify (d : list (text * list text)) (completed : gset text) (acc : list CommitInfo * list text) (c : CommitInfo) :
    list CommitInfo * list text :=
  let '(missing, partial_paths) := acc in
  match dget (hash c) d with
  | None => (missing ++ [c], partial_paths)
  | Some paths => if decide (hash c ∈ completed) then acc else (missing ++ [c], partial_paths ++ paths)
  end.

(** [unlink] of the stray files; the first failure raises. *)
Fixpoint unlink_all (can_delete : text → bool) (paths : list text) (pts : points) : result error () * points :=
  match paths with
  | [] => (Ok (), pts)
  | p :: paths' =>
      if bool_decide (p ∈ pts.*2) && can_delete p
      then unlink_all can_delete paths' (filter (λ pt, pt.2 ≠ p) pts)
      else (Err StrayDeleteFailedError, pts)
  end.

Definition reconcile_shard (collection_exists : bool) (completed : gset text) (can_delete : text → bool)
    (shard_commits : list CommitInfo) (pts : points) : result error (list CommitInfo) * points :=
  match shard_commits with
  | [] => (Ok [], pts)
  | _ =>
      if negb collection_exists then (Ok shard_commits, pts)
      else
        let '(missing, partial_paths) := foldl (classify (hashes_with_points pts) completed) ([], []) shard_commits in
        match unlink_all can_delete partial_paths pts with
        | (Ok _, pts') => (Ok missing, pts')
        | (Err x, pts') => (Err x, pts')
        end
  end.

(** ** Point identifiers *)

Lemma digits_range fuel n acc : (0 ≤ n)%Z → Forall (λ c, 48 ≤ c ≤ 57)%N acc → Forall (λ c, 48 ≤ c ≤ 57)%N (digits_loop fuel n acc).
Proof.
  revert n acc. induction fuel as [|fuel IH]; intros n acc Hn Hacc; [done|]. cbn [digits_loop].
  pose proof (Z.mod_pos_bound n 10). assert (Forall (λ c, 48 ≤ c ≤ 57)%N (Z.to_N (48 + n mod 10) :: acc)) by (constructor; [lia|done]).
  destruct (n <? 10)%Z; [done|]. apply IH; [|done]. apply Z.div_pos; lia.
Qed.

(** The commit of a point is recovered from its identifier. *)
Lemma commit_of_build_point_id project_id commit_hash j :
  colon ∉ project_id → colon ∉ commit_hash → (0 ≤ j)%Z →
  commit_of_point (build_point_id project_id commit_hash j) = Some commit_hash.
Proof.
  intros Hp Hh Hj. unfold commit_of_point, build_point_id. cbn [app].
  assert (colon ∉ str_int j) as Hs.
  { intros Hin. pose proof (digits_range (S (Z.to_nat (Z.log2 j))) j [] Hj (Forall_nil_2 _)) as Hr.
    rewrite Forall_forall in Hr. specialize (Hr _ Hin). unfold colon in Hr. lia. }
  rewrite split_on_app by done. rewrite (split_on_app colon (txt "commit")) by (apply (bool_decide_unpack _); by vm_compute).
  rewrite split_on_app by done. rewrite split_on_no_sep by done. by rewrite decide_True.
Qed.

(** ** Correctness *)

Definition points_of (h : text) (pts : points) : points := filter (λ pt, commit_of_point pt.1 = Some h) pts.

Lemma hashes_with_points_spec h pts : dget h (hashes_with_points pts) = nonempty (points_of h pts).*2.
Proof.
  unfold hashes_with_points, points_of. induction pts as [|pt pts IH] using rev_ind; [done|].
  rewrite foldl_app, filter_app, fmap_app. cbn [foldl]. unfold add_point at 1.
  destruct (commit_of_point pt.1) as [h'|] eqn:E.
  - rewrite dget_dset. destruct (decide (h' = h)) as [->|Hne].
    + rewrite IH, filter_cons_True by done. cbn. destruct (filter _ pts).*2; done.
    + rewrite filter_cons_False by congruence. cbn. by rewrite app_nil_r.
  - rewrite filter_cons_False by congruence. cbn. by rewrite app_nil_r.
Qed.

(** Without points in the shard, or not recorded as complete. *)
Definition needs_indexing (completed : gset text) (pts : points) (c : CommitInfo) : Prop :=
  points_of (hash c) pts = [] ∨ hash c ∉ completed.

#[export] Instance needs_indexing_dec completed pts c : Decision (needs_indexing completed pts c) := ltac:(unfold needs_indexing; apply _).

Definition stray_paths (completed : gset text) (pts : points) (c : CommitInfo) : list text :=
  if decide (hash c ∈ completed) then [] else (points_of (hash c) pts).*2.

Lemma classify_spec completed pts commits missing paths :
  foldl (classify (hashes_with_points pts) completed) (missing, paths) commits =
  (missing ++ filter (needs_indexing completed pts) commits, paths ++ (commits ≫= stray_paths completed pts)).
Proof.
  revert missing paths. induction commits as [|c commits IH]; intros missing paths; cbn [foldl mbind list_bind].
  { by rewrite !app_nil_r. }
  unfold classify at 2. rewrite hashes_with_points_spec. unfold stray_paths at 1.
  destruct (points_of (hash c) pts) as [|pt rest] eqn:E; cbn [fmap list_fmap nonempty].
  - rewrite IH, filter_cons_True by (by left). rewrite <-app_assoc. by case_decide.
  - case_decide as Hc.
    + rewrite IH, filter_cons_False; [done|]. unfold needs_indexing. rewrite E. by intros [?|?].
    + rewrite IH, filter_cons_True by (by right). by rewrite <-!app_assoc.
Qed.

Lemma filter_all {A} (P : A → Prop) `{!∀ x, Decision (P x)} (l : list A) : (∀ x, P x) → filter P l = l.
Proof. intros HP. induction l as [|x l IH]; [done|]. by rewrite filter_cons_True, IH. Qed.

Lemma list_filter_nil {A} (P : A → Prop) `{!∀ x, Decision (P x)} (l : list A) : (∀ x, x ∈ l → ¬ P x) → filter P l = [].
Proof.
  induction l as [|x l IH]; intros HP; [done|]. rewrite filter_cons_False by (apply HP; left). apply IH.
  intros y Hy. apply HP. by right.
Qed.

Lemma unlink_all_ok can_delete paths pts pts' :
  unlink_all can_delete paths pts = (Ok (), pts') → pts' = filter (λ pt, pt.2 ∉ paths) pts.
Proof.
  revert pts. induction paths as [|p paths IH]; intros pts; cbn [unlink_all].
  - intros [= <-]. symmetry. apply filter_all. intros pt. apply not_elem_of_nil.
  - destruct (_ && _); [|done]. intros ->%IH. rewrite list_filter_filter. apply list_filter_iff. intros pt.
    rewrite not_elem_of_cons. naive_solver.
Qed.

Lemma unlink_all_err can_delete paths pts x pts' :
  unlink_all can_delete paths pts = (Err x, pts') →
  NoDup paths → (∀ p, p ∈ paths → p ∈ pts.*2) →
  (∃ p, p ∈ paths ∧ can_delete p = false) ∧ ∀ pt, pt ∈ pts → pt.2 ∉ paths → pt ∈ pts'.
Proof.
  revert pts. induction paths as [|p paths IH]; intros pts; cbn [unlink_all]; [done|].
  intros H Hnd Hin. apply NoDup_cons in Hnd as [Hp Hnd]. rewrite bool_decide_eq_true_2 in H by (apply Hin; left).
  cbn [andb] in H. destruct (can_delete p) eqn:Ep.
  - destruct (IH _ H Hnd) as [(p'&?&?) Hkeep].
    { intros p' Hp'. specialize (Hin p' (list_elem_of_further _ _ _ Hp')). apply list_elem_of_fmap in Hin as (pt&->&Hpt).
      apply list_elem_of_fmap. exists pt. split; [done|]. apply list_elem_of_filter. split; [|done]. intros Heq. by rewrite Heq in Hp'. }
    split; [exists p'; split; [by right|done]|]. intros pt Hpt [Hne Hnin]%not_elem_of_cons.
    apply Hkeep; [|done]. by apply list_elem_of_filter.
  - simplify_eq. split; [exists p; split; [left|done]|done].
Qed.
Lemma elem_of_strays completed pts commits p :
  p ∈ (commits ≫= stray_paths completed pts) ↔
  ∃ c pt, c ∈ commits ∧ (hash c ∉ completed) ∧ pt ∈ pts ∧ commit_of_point pt.1 = Some (hash c) ∧ p = pt.2.
Proof.
  rewrite list_elem_of_bind. unfold stray_paths, points_of. split.
  - intros (c&Hp&Hc). case_decide; [by apply elem_of_nil in Hp|].
    apply list_elem_of_fmap in Hp as (pt&->&[??]%list_elem_of_filter). by exists c, pt.
  - intros (c&pt&Hc&Hn&Hpt&Hid&->). exists c. split; [|done]. rewrite decide_False by done.
    apply list_elem_of_fmap. exists pt. split; [done|]. by apply list_elem_of_filter.
Qed.

(** Distinct files: two points with the same path are the same point. *)
Lemma same_path (pts : points) pt pt' : NoDup pts.*2 → pt ∈ pts → pt' ∈ pts → pt.2 = pt'.2 → pt = pt'.
Proof.
  intros Hnd (i&Hi)%list_elem_of_lookup (j&Hj)%list_elem_of_lookup E.
  assert (i = j) as ->; [|congruence]. eapply (NoDup_lookup pts.*2); [done|..]; rewrite list_lookup_fmap.
  - by rewrite Hi.
  - by rewrite Hj, E.
Qed.

Lemma strays_NoDup completed pts commits :
  NoDup (hash <$> commits) → NoDup pts.*2 → NoDup (commits ≫= stray_paths completed pts).
Proof.
  intros Hh Hp. induction commits as [|c commits IH]; cbn [mbind list_bind]; [constructor|].
  rewrite fmap_cons in Hh. apply NoDup_cons in Hh as [Hc Hh]. apply NoDup_app. split_and!; [| |by apply IH].
  - unfold stray_paths, points_of. case_decide; [constructor|]. eapply sublist_NoDup; [exact Hp|].
    apply fmap_sublist, sublist_filter.
  - unfold stray_paths at 1. intros p Hpin. case_decide; [by apply elem_of_nil in Hpin|].
    apply list_elem_of_fmap in Hpin as (pt&->&[Hid Hpt]%list_elem_of_filter).
    intros (c'&pt'&Hc'&_&Hpt'&Hid'&E)%elem_of_strays. pose proof (same_path pts pt pt' Hp Hpt Hpt' E) as <-.
    apply Hc, list_elem_of_fmap. exists c'. split; [congruence|done].
Qed.

(** A stray point: of a commit of the shard that is not recorded as complete. *)
Definition stray (completed : gset text) (commits : list CommitInfo) (pt : text * text) : Prop :=
  ∃ c, c ∈ commits ∧ (hash c ∉ completed) ∧ commit_of_point pt.1 = Some (hash c).


Definition demo_commit (h : string) (ts : Z) : CommitInfo :=
  {| hash := txt h; timestamp := ts; author_name := []; author_email := []; message := []; parent_hashes := [] |}.

(** aa is complete, bb has a point but no record, cc has no point. *)
Definition demo_points : points :=
  [(build_point_id (txt "p") (txt "aa") 0, txt "v1.json"); (build_point_id (txt "p") (txt "bb") 0, txt "v2.json")].


(** Two commits of 1 April 2024; the first is recorded in its shard. *)
Lemma indexing_plan_spec_witness :
  let universe := [demo_commit "aa" 1711972800; demo_commit "bb" 1711972801] in
  let shard := txt "code-indexer-temporal-m-2024Q2" in
  let completed := λ n, if decide (n = shard) then {[txt "aa"]} else ∅ in
  compute_embedder_indexing_plan ascii_lower ascii_decimal elements [shard] completed (λ _, false)
    universe (txt "m") None None = Ok [(shard, [demo_commit "bb" 1711972801])] ∧
  dget shard [(shard, [demo_commit "bb" 1711972801])] = Some [demo_commit "bb" 1711972801].
Proof.
  intros universe shard completed.
  assert (compute_embedder_indexing_plan ascii_lower ascii_decimal elements [shard] completed (λ _, false)
    universe (txt "m") None None = Ok [(shard, [demo_commit "bb" 1711972801])]) as E by (by vm_compute).
  split; [exact E|].
  destruct (indexing_plan_spec ascii_lower ascii_decimal elements [shard] completed (λ _, false) ascii_decimal_spec
    (λ X, Permutation_refl _) universe (txt "m") None None) as (plan&Hplan&_&Hget&_).
  - repeat constructor; exists shard; eexists; (split; [by vm_compute|]); (split; [cbn; lia|by vm_compute]).
  - rewrite E in Hplan. injection Hplan as <-. rewrite Hget. by vm_compute.
Defined.
End Reconciliation.
