(* ===== verification/PayloadCache.v ===== *)
(** * The payload cache of the server

    src/src/code_indexer/server/cache/payload_cache.py with its own SQLite table, and
    its two storage backends: [PayloadCacheSqliteBackend] of
    src/src/code_indexer/server/storage/sqlite_backends.py and
    src/src/code_indexer/server/storage/postgres/payload_cache_backend.py.

    The class [PayloadStore] is what the cache asks of a store; paging and truncation
    are proved against it and the three tables are its instances. *)

From S2P Require Import Prelude.
From stdpp Require Import options.
Local Open Scope Z_scope.

Module PayloadCache.

Inductive error := CacheNotFoundError | ZeroDivisionError.

Record CacheRetrievalResult := { content : text; page : Z; total_pages : Z; has_more : bool }.

Record PayloadCacheConfig := {
  preview_size_chars : Z; max_fetch_size_chars : Z; cache_ttl_seconds : Z; cleanup_interval_seconds : Z }.

Definition default_config : PayloadCacheConfig :=
  {| preview_size_chars := 2000; max_fetch_size_chars := 5000; cache_ttl_seconds := 900; cleanup_interval_seconds := 60 |}.

(** [s[start:stop]] with Python's treatment of negative and large bounds. *)
Definition clip (n i : Z) : nat := Z.to_nat (Z.min n (Z.max 0 (if i <? 0 then i + n else i))).

Definition py_slice (s : text) (start stop : Z) : text :=
  let n := Z.of_nat (length s) in take (clip n stop - clip n start) (drop (clip n start) s).

(** [math.ceil(a / b)]. *)
Definition ceil_div (a b : Z) : Z := - ((- a) / b).

(** The paging part of [retrieve]. *)
Definition paginate (page_size : Z) (c : text) (p : Z) : result error CacheRetrievalResult :=
  let total_size := Z.of_nat (length c) in
  if page_size =? 0 then Err ZeroDivisionError
  else
    let total := Z.max 1 (ceil_div total_size page_size) in
    if total <=? p then Err CacheNotFoundError
    else
      let start := p * page_size in
      Ok {| content := py_slice c start (start + page_size); page := p; total_pages := total; has_more := p <? total - 1 |}.

(** ** What the cache asks of a store *)

(** [stored h c t s]: under handle [h] there is the content [c] of time [t]. *)
Class PayloadStore (cfg : PayloadCacheConfig) (S : Type) := {
  ps_put : Q → string → text → S → S;
  ps_get : Q → string → S → option text;
  ps_cleanup : Q → S → S;
  stored : string → text → Q → S → Prop;
  stored_put : ∀ t h c s, stored h c t (ps_put t h c s);
  stored_put_ne : ∀ t h c s h' c' t', h ≠ h' → stored h' c' t' s → stored h' c' t' (ps_put t h c s);
  stored_cleanup : ∀ now h c t s, stored h c t s → (now - t < inject_Z (cache_ttl_seconds cfg) - 1)%Q →
    stored h c t (ps_cleanup now s);
  stored_get : ∀ now h c t s, stored h c t s → (now - t <= inject_Z (cache_ttl_seconds cfg))%Q → ps_get now h s = Some c }.
Arguments stored _ {_ _} _ _ _ _.
Arguments ps_put _ {_ _} _ _ _ _.
Arguments ps_get _ {_ _} _ _ _.
Arguments ps_cleanup _ {_ _} _ _.

Section cache.
Context (cfg : PayloadCacheConfig) {T : Type} `{PS : PayloadStore cfg T}.

(** The handle is a fresh UUID4, an argument here. *)
Definition store (now : Q) (handle : string) (c : text) (s : T) : string * T := (handle, ps_put cfg now handle c s).

Definition store_batch (now : Q) (entries : list (string * text)) (s : T) : list string * T :=
  (entries.*1, foldl (λ s e, ps_put cfg now e.1 e.2 s) s entries).

Definition store_with_key (now : Q) (key : string) (c : text) (s : T) : T := ps_put cfg now key c s.

Definition has_key (now : Q) (key : string) (s : T) : bool :=
  match ps_get cfg now key s with Some _ => true | None => false end.

Definition retrieve (now : Q) (handle : string) (p : Z) (s : T) : result error CacheRetrievalResult :=
  if p <? 0 then Err CacheNotFoundError
  else match ps_get cfg now handle s with
       | None => Err CacheNotFoundError
       | Some c => paginate (max_fetch_size_chars cfg) c p
       end.

(** The response of [truncate_result]: preview with a handle, or everything. *)
Inductive truncated :=
| Preview (preview : text) (cache_handle : string) (total_size : Z)
| Whole (c : text).

Definition truncate_result (now : Q) (handle : string) (c : text) (s : T) : truncated * T :=
  if preview_size_chars cfg <? Z.of_nat (length c) then
    (Preview (py_slice c 0 (preview_size_chars cfg)) handle (Z.of_nat (length c)), ps_put cfg now handle c s)
  else (Whole c, s).

(** ** Paging *)

Lemma clip_in n i : 0 ≤ i ≤ n → clip n i = Z.to_nat i.
Proof. intros. unfold clip. destruct (Z.ltb_spec i 0); lia. Qed.

Lemma py_slice_in c a b : 0 ≤ a → a ≤ b → py_slice c a b = take (Z.to_nat (b - a)) (drop (Z.to_nat a) c).
Proof.
  intros Ha Hab. unfold py_slice. destruct (decide (a ≤ Z.of_nat (length c))) as [Hin|Hout].
  - rewrite (clip_in _ a) by lia. destruct (decide (b ≤ Z.of_nat (length c))) as [Hb|Hb].
    + rewrite clip_in by lia. f_equal. lia.
    + rewrite !take_ge; [done| |]; rewrite length_drop; unfold clip; destruct (Z.ltb_spec b 0); lia.
  - rewrite !drop_ge; [by rewrite !take_nil| |unfold clip; destruct (Z.ltb_spec a 0)]; lia.
Qed.

Lemma ceil_div_spec a b : 0 < b → 0 ≤ a → (ceil_div a b - 1) * b < a ≤ ceil_div a b * b.
Proof. intros. unfold ceil_div. Z.to_euclidean_division_equations. nia. Qed.

Definition page_text (size : Z) (c : text) (p : Z) : text := py_slice c (p * size) (p * size + size).

Lemma pages_prefix size c k : 0 < size → concat (page_text size c <$> seqZ 0 (Z.of_nat k)) = take (k * Z.to_nat size) c.
Proof.
  intros Hs. induction k as [|k IH]; [by rewrite take_0|].
  rewrite Nat2Z.inj_succ, <-Z.add_1_r, seqZ_app by lia. cbn [seqZ]. rewrite fmap_app, concat_app, IH.
  change (seqZ (0 + Z.of_nat k) 1) with [0 + Z.of_nat k]. cbn [fmap list_fmap concat]. rewrite app_nil_r. unfold page_text.
  rewrite py_slice_in by lia. replace (Z.to_nat ((0 + Z.of_nat k) * size + size - (0 + Z.of_nat k) * size)) with (Z.to_nat size) by lia.
  replace (Z.to_nat ((0 + Z.of_nat k) * size)) with (k * Z.to_nat size)%nat by nia.
  rewrite take_take_drop. f_equal. lia.
Qed.

Definition pages_of (size : Z) (c : text) : Z := Z.max 1 (ceil_div (Z.of_nat (length c)) size).

Lemma pages_all size c : 0 < size → concat (page_text size c <$> seqZ 0 (pages_of size c)) = c.
Proof.
  intros Hs. pose proof (ceil_div_spec (Z.of_nat (length c)) size Hs ltac:(lia)) as Hc. unfold pages_of.
  rewrite <-(Z2Nat.id (Z.max 1 _)) by lia. rewrite pages_prefix by done. apply take_ge. nia.
Qed.

Lemma paginate_spec size c p : 0 < size → 0 ≤ p →
  paginate size c p =
  if pages_of size c <=? p then Err CacheNotFoundError
  else Ok {| content := page_text size c p; page := p; total_pages := pages_of size c; has_more := p <? pages_of size c - 1 |}.
Proof. intros. unfold paginate. destruct (Z.eqb_spec size 0); [lia|done]. Qed.

(** ** Life of an entry *)

Inductive op := Put (t : Q) (h : string) (c : text) | Cleanup (t : Q).

Definition exec (s : T) (o : op) : T :=
  match o with Put t h c => ps_put cfg t h c s | Cleanup t => ps_cleanup cfg t s end.

(** Later operations use other handles and do not run in the future. *)
Definition harmless (h : string) (now : Q) (o : op) : Prop :=
  match o with Put _ h' _ => h' ≠ h | Cleanup t => (t <= now)%Q end.

Lemma stored_run h c t now ops s :
  stored cfg h c t s → (now - t < inject_Z (cache_ttl_seconds cfg) - 1)%Q → Forall (harmless h now) ops →
  stored cfg h c t (foldl exec s ops).
Proof.
  intros Hs Hnow Hall. revert s Hs. induction Hall as [|o ops Ho Hall IH]; intros s Hs; [done|]. cbn [foldl]. apply IH.
  destruct o as [t' h' c'|t']; cbn in *; [by apply stored_put_ne|]. apply stored_cleanup; [done|lra].
Qed.

(** Cached content can be read back in full.  For every store that keeps the
    promise, after [store] and any further stores under other handles and clean-ups,
    until one second before the time to live has passed, the pages from 0 to
    [total_pages - 1] exist, are no longer than the page size and concatenate to the
    content, only the last one has [has_more] unset, and every other page number is
    refused. *)
Theorem payload_readable now t h c s ops :
  0 < max_fetch_size_chars cfg → (now - t < inject_Z (cache_ttl_seconds cfg) - 1)%Q → Forall (harmless h now) ops →
  let s' := foldl exec (store t h c s).2 ops in
  ∃ total, 1 ≤ total ∧
  (∀ p, 0 ≤ p < total → ∃ r, retrieve now h p s' = Ok r ∧ page r = p ∧ total_pages r = total ∧
    Z.of_nat (length (content r)) ≤ max_fetch_size_chars cfg ∧ has_more r = bool_decide (p + 1 < total)) ∧
  (∀ p, p < 0 ∨ total ≤ p → retrieve now h p s' = Err CacheNotFoundError) ∧
  concat ((λ p, match retrieve now h p s' with Ok r => content r | Err _ => [] end) <$> seqZ 0 total) = c.
Proof.
  intros Hsize Hnow Hall s'. assert (ps_get cfg now h s' = Some c) as Hget.
  { apply (stored_get now h c t); [|lra]. apply stored_run with (now := now); [apply stored_put|done|done]. }
  set (size := max_fetch_size_chars cfg) in *. exists (pages_of size c).
  assert (∀ p, 0 ≤ p < pages_of size c → retrieve now h p s' =
    Ok {| content := page_text size c p; page := p; total_pages := pages_of size c; has_more := p <? pages_of size c - 1 |}) as Hr.
  { intros p Hp. unfold retrieve. destruct (Z.ltb_spec p 0); [lia|]. rewrite Hget, paginate_spec by lia. fold size.
    destruct (Z.leb_spec (pages_of size c) p); [lia|done]. }
  split_and!.
  - unfold pages_of. lia.
  - intros p Hp. eexists. split; [by apply Hr|]. cbn. split_and!; [done|done| |].
    + unfold page_text. rewrite py_slice_in by lia. rewrite length_take. lia.
    + apply eq_bool_prop_intro. split; intros H%Is_true_true; apply Is_true_true; [apply bool_decide_eq_true|apply bool_decide_eq_true in H]; lia.
  - intros p Hp. unfold retrieve. destruct (Z.ltb_spec p 0); [done|]. rewrite Hget, paginate_spec by lia. fold size.
    destruct (Z.leb_spec (pages_of size c) p); [done|lia].
  - etransitivity; [|apply (pages_all size c Hsize)]. f_equal. apply list_fmap_ext. intros i p Hp.
    apply lookup_seqZ in Hp as [-> Hi]. by rewrite Hr by lia.
Qed.
End cache.

(** ** The cache's own SQLite table *)

Record own_row := { o_content : text; o_created_at : Q; o_total_size : Z }.

Definition own_insert (now : Q) (h : string) (c : text) (s : gmap string own_row) : gmap string own_row :=
  <[h := {| o_content := c; o_created_at := now; o_total_size := Z.of_nat (length c) |}]> s.

(** The age of the row is not looked at. *)
Definition own_get (now : Q) (h : string) (s : gmap string own_row) : option text := o_content <$> s !! h.

Definition own_cleanup (ttl : Z) (now : Q) (s : gmap string own_row) : gmap string own_row :=
  filter (λ hr, negb (Qltb (o_created_at hr.2) (now - inject_Z ttl)) = true) s.

#[export] Program Instance own_store cfg : PayloadStore cfg (gmap string own_row) := {
  ps_put := own_insert; ps_get := own_get; ps_cleanup := own_cleanup (cache_ttl_seconds cfg);
  stored h c t s := ∃ r, s !! h = Some r ∧ o_content r = c ∧ o_created_at r = t }.
Next Obligation. intros. eexists. split; [apply lookup_insert_eq|done]. Qed.
Next Obligation. intros cfg t h c s h' c' t' Hne (r&Hr&?). exists r. split; [|done]. unfold own_insert. by rewrite lookup_insert_ne. Qed.
Next Obligation.
  intros cfg now h c t s (r&Hr&?&<-) Hlt. exists r. split; [|done]. apply map_lookup_filter_Some. split; [done|].
  cbn. qcase; [lra|done].
Qed.
Next Obligation. intros cfg now h c t s (r&Hr&<-&_) _. unfold own_get. by rewrite Hr. Qed.

(** ** The storage backends *)

Record backend_row := {
  b_content : text; b_preview : text; b_created_at : Q; b_ttl_seconds : Z; b_node_id : option string }.

Definition backend_put (preview_size ttl : Z) (now : Q) (h : string) (c : text) (s : gmap string backend_row) :
    gmap string backend_row :=
  <[h := {| b_content := c; b_preview := py_slice c 0 preview_size; b_created_at := now; b_ttl_seconds := ttl; b_node_id := None |}]> s.

(** An expired row is not returned. *)
Definition backend_get (now : Q) (h : string) (s : gmap string backend_row) : option text :=
  match s !! h with
  | None => None
  | Some r => if Qltb (inject_Z (b_ttl_seconds r)) (now - b_created_at r) then None else Some (b_content r)
  end.

(** SQLite compares whole seconds, with [>=]. *)
Definition sqlite_cleanup (now : Q) (s : gmap string backend_row) : gmap string backend_row :=
  filter (λ hr, (b_ttl_seconds hr.2 <=? Qfloor now - Qfloor (b_created_at hr.2)) = false) s.

(** PostgreSQL compares exactly, with [>]. *)
Definition pg_cleanup (now : Q) (s : gmap string backend_row) : gmap string backend_row :=
  filter (λ hr, Qltb (inject_Z (b_ttl_seconds hr.2)) (now - b_created_at hr.2) = false) s.

(** A failing statement is logged and dropped. *)
Definition pg_put (ok : bool) (preview_size ttl : Z) (now : Q) (h : string) (c : text) (s : gmap string backend_row) :
    gmap string backend_row :=
  if ok then backend_put preview_size ttl now h c s else s.

(** A row with this content and time, and the configured time to live. *)
Definition backend_stored (ttl : Z) (h : string) (c : text) (t : Q) (s : gmap string backend_row) : Prop :=
  ∃ r, s !! h = Some r ∧ b_content r = c ∧ b_created_at r = t ∧ b_ttl_seconds r = ttl.

Lemma backend_stored_put preview_size ttl t h c s : backend_stored ttl h c t (backend_put preview_size ttl t h c s).
Proof. eexists. split; [apply lookup_insert_eq|done]. Qed.

Lemma backend_stored_put_ne preview_size ttl t h c s h' c' t' :
  h ≠ h' → backend_stored ttl h' c' t' s → backend_stored ttl h' c' t' (backend_put preview_size ttl t h c s).
Proof. intros Hne (r&Hr&?). exists r. split; [|done]. unfold backend_put. by rewrite lookup_insert_ne. Qed.

Lemma backend_stored_get ttl now h c t s :
  backend_stored ttl h c t s → (now - t <= inject_Z ttl)%Q → backend_get now h s = Some c.
Proof. intros (r&Hr&<-&<-&<-) Hle. unfold backend_get. rewrite Hr. qcase; [lra|done]. Qed.

Lemma floor_diff (a b : Q) (n : Z) : (a - b < inject_Z n - 1)%Q → Qfloor a - Qfloor b < n.
Proof.
  intros H. pose proof (Qfloor_le a). pose proof (Qlt_floor b) as Hb. rewrite inject_Z_plus in Hb.
  change (inject_Z 1) with 1%Q in Hb.
  apply Z.lt_nge. intros Hge. assert (inject_Z n <= inject_Z (Qfloor a - Qfloor b))%Q as Hq by (by rewrite <-Zle_Qle).
  unfold Z.sub in Hq. rewrite inject_Z_plus, inject_Z_opp in Hq. lra.
Qed.

(** Each backend keeps the promise. *)
Record sqlite_table := { sqlite_rows : gmap string backend_row }.
Record pg_table := { pg_rows : gmap string backend_row }.

#[export] Program Instance sqlite_store cfg : PayloadStore cfg sqlite_table := {
  ps_put t h c s := {| sqlite_rows := backend_put (preview_size_chars cfg) (cache_ttl_seconds cfg) t h c (sqlite_rows s) |};
  ps_get now h s := backend_get now h (sqlite_rows s);
  ps_cleanup now s := {| sqlite_rows := sqlite_cleanup now (sqlite_rows s) |};
  stored h c t s := backend_stored (cache_ttl_seconds cfg) h c t (sqlite_rows s) }.
Next Obligation. intros. apply backend_stored_put. Qed.
Next Obligation. intros. by apply backend_stored_put_ne. Qed.
Next Obligation.
  intros cfg now h c t s (r&Hr&?&<-&Httl) Hlt. exists r. split; [|done]. apply map_lookup_filter_Some. split; [done|].
  cbn. apply Z.leb_gt. rewrite Httl. by apply floor_diff.
Qed.
Next Obligation. intros cfg now h c t s. apply backend_stored_get. Qed.

#[export] Program Instance pg_store cfg : PayloadStore cfg pg_table := {
  ps_put t h c s := {| pg_rows := pg_put true (preview_size_chars cfg) (cache_ttl_seconds cfg) t h c (pg_rows s) |};
  ps_get now h s := backend_get now h (pg_rows s);
  ps_cleanup now s := {| pg_rows := pg_cleanup now (pg_rows s) |};
  stored h c t s := backend_stored (cache_ttl_seconds cfg) h c t (pg_rows s) }.
Next Obligation. intros. apply backend_stored_put. Qed.
Next Obligation. intros. by apply backend_stored_put_ne. Qed.
Next Obligation.
  intros cfg now h c t s (r&Hr&?&<-&Httl) Hlt. exists r. split; [|done]. apply map_lookup_filter_Some. split; [done|].
  cbn. rewrite Httl. qcase; [lra|done].
Qed.
Next Obligation. intros cfg now h c t s. apply backend_stored_get. Qed.

Definition demo_config : PayloadCacheConfig :=
  {| preview_size_chars := 3; max_fetch_size_chars := 4; cache_ttl_seconds := 900; cleanup_interval_seconds := 60 |}.

Lemma payload_readable_witness :
  let s := foldl (exec demo_config) (store demo_config 0 "h" (txt "abcdefghij") {| pg_rows := ∅ |}).2
             [Put 5 "k" (txt "xyz"); Cleanup 60] in
  retrieve demo_config 100 "h" 2 s = Ok {| content := txt "ij"; page := 2; total_pages := 3; has_more := false |} ∧
  ∃ total, concat ((λ p, match retrieve demo_config 100 "h" p s with Ok r => content r | Err _ => [] end) <$> seqZ 0 total) =
    txt "abcdefghij".
Proof.
  intros s. split; [by vm_compute|].
  destruct (payload_readable demo_config 100 0 "h" (txt "abcdefghij") {| pg_rows := ∅ |} [Put 5 "k" (txt "xyz"); Cleanup 60])
    as (total&_&_&_&H); [done|by vm_compute| |by exists total].
  repeat constructor; [done|by vm_compute].
Defined.

(** The backends and the cache's own table differ: an expired row is still served
    by the own table until it is cleaned up, SQLite cleans up to a second early, and a
    failed PostgreSQL store still hands out its handle. *)
Lemma stores_differ :
  let row c := {| b_content := c; b_preview := []; b_created_at := 9 # 10; b_ttl_seconds := 5; b_node_id := None |} in
  let own := own_insert 0 "h" (txt "x") ∅ in
  own_get 1000 "h" own = Some (txt "x") ∧
  backend_get (51 # 10) "h" {["h" := row (txt "x")]} = Some (txt "x") ∧
  sqlite_cleanup (51 # 10) {["h" := row (txt "x")]} = ∅ ∧
  backend_get 1 "h" (pg_put false 3 900 0 "h" (txt "x") ∅) = None.
Proof. by vm_compute. Qed.
End PayloadCache.
