(* ===== verification/Aggregation.v ===== *)
(** * Aggregation of results over repositories

    src/src/code_indexer/server/omni/result_aggregator.py ([OmniAggregator]) and
    src/src/code_indexer/server/multi/multi_result_aggregator.py ([MultiAggregator]).

    A result is its optional score and the rest of its dictionary; the repository
    added to the copy is the first component of a pair.  Proportions are exact. *)

From S2P Require Import Prelude.
From stdpp Require Import options.

Module OmniAggregator.

Inductive error := ValueError.

Section aggregate.
Context {B : Type}.

Record hit := { score : option Q; body : B }.

(** [r.get("score", 0.0)]. *)
Definition score_of (r : hit) : Q := default 0%Q (score r).

Abbreviation repos := (list (string * list hit)).

Definition tag (alias : string) (rs : list hit) : list (string * hit) := (λ r, (alias, r)) <$> rs.

(** ** Global mode *)

Definition _aggregate_global (limit : nat) (rr : repos) : list (string * hit) :=
  take limit (sort_desc (λ p, score_of p.2) (rr ≫= λ '(alias, rs), tag alias rs)).

(** ** Per-repository mode *)

Definition total_of (rr : repos) : nat := sum_list_with (λ p, length p.2) rr.

(** [min(max(1, ceil(len / total * limit)), len)]. *)
Definition allocation (limit total len : nat) : nat := Nat.max 1 ((len * limit + (total - 1)) `div` total) `min` len.

Definition allocations (limit : nat) (rr : repos) : list (string * nat) :=
  (λ p, (p.1, allocation limit (total_of rr) (length p.2))) <$> rr.

Definition sum_of (al : list (string * nat)) : nat := sum_list_with snd al.

(** [max(repo_allocations.keys(), key=...)]: the first key with the largest value. *)
Definition max_repo (p : string * nat) (al : list (string * nat)) : string * nat :=
  max_by (λ q, inject_Z (Z.of_nat q.2)) p al.

(** One reduction of the repository with most results. *)
Definition reduce_once (al : list (string * nat)) : list (string * nat) :=
  match al with
  | [] => []
  | p :: al' =>
      let '(k, n) := max_repo p al' in
      if n - 1 =? 0 then ddel k al else dset k (n - 1) al
  end.

Fixpoint reduce (fuel limit : nat) (al : list (string * nat)) : list (string * nat) :=
  match fuel with
  | O => al
  | S fuel' => if limit <? sum_of al then reduce fuel' limit (reduce_once al) else al
  end.

(** Iterators over the best results of each repository. *)
Definition iterators (rr : repos) (al : list (string * nat)) : repos :=
  (λ '(k, n), (k, take n (sort_desc score_of (default [] (dget k rr))))) <$> al.

(** One pass over the repositories; an exhausted iterator is deleted, and the pass
    stops when the limit is reached. *)
Fixpoint pass (limit : nat) (its : repos) (agg : list (string * hit)) : list (string * hit) * repos :=
  match its with
  | [] => (agg, [])
  | (k, []) :: its' => pass limit its' agg
  | (k, r :: rs) :: its' =>
      let agg' := agg ++ [(k, r)] in
      if limit <=? length agg' then (agg', (k, rs) :: its')
      else let '(agg2, its2) := pass limit its' agg' in (agg2, (k, rs) :: its2)
  end.

Fixpoint interleave (fuel limit : nat) (its : repos) (agg : list (string * hit)) : list (string * hit) :=
  match fuel with
  | O => agg
  | S fuel' =>
      if (length agg <? limit) && negb (bool_decide (its = []))
      then let '(agg', its') := pass limit its agg in interleave fuel' limit its' agg'
      else agg
  end.

Definition _aggregate_per_repo (limit : nat) (rr : repos) : list (string * hit) :=
  let non_empty := filter (λ p, p.2 ≠ []) rr in
  match non_empty with
  | [] => []
  | _ =>
      let al0 := allocations limit non_empty in
      let al := reduce (sum_of al0) limit al0 in
      let its := iterators non_empty al in
      interleave (S (total_of its + length its)) limit its []
  end.

Inductive mode := Global | PerRepo.

(** The constructor rejects a negative limit. *)
Definition aggregate (m : mode) (limit : Z) (rr : repos) : result error (list (string * hit)) :=
  if (limit <? 0)%Z then Err ValueError
  else if bool_decide (rr = []) || (limit =? 0)%Z then Ok []
  else Ok (match m with
           | Global => _aggregate_global (Z.to_nat limit) rr
           | PerRepo => _aggregate_per_repo (Z.to_nat limit) rr
           end).

(** ** Allocations *)

Lemma allocation_ge limit total len : len ≤ total → 0 < len → limit ≤ total → limit * len ≤ allocation limit total len * total.
Proof.
  intros Hle Hpos Hlim. unfold allocation.
  pose proof (Nat.div_mod (len * limit + (total - 1)) total ltac:(lia)) as Hd.
  pose proof (Nat.mod_upper_bound (len * limit + (total - 1)) total ltac:(lia)) as Hm.
  set (c := (len * limit + (total - 1)) `div` total) in *.
  destruct (Nat.min_spec (Nat.max 1 c) len) as [[? ->]|[? ->]]; nia.
Qed.

Lemma allocation_full limit total len : len ≤ total → 0 < len → total ≤ limit → allocation limit total len = len.
Proof.
  intros Hle Hpos Hlim. unfold allocation. apply Nat.min_r.
  assert (len ≤ (len * limit + (total - 1)) `div` total) by (apply Nat.div_le_lower_bound; nia). lia.
Qed.

Lemma allocation_range limit total len : 0 < len → 1 ≤ allocation limit total len ≤ len.
Proof. intros. unfold allocation. lia. Qed.

Lemma length_le_total k rs (rr : repos) : (k, rs) ∈ rr → length rs ≤ total_of rr.
Proof.
  unfold total_of. induction rr as [|p rr IH]; cbn; [by intros ?%elem_of_nil|].
  intros [<-|Hin]%elem_of_cons; cbn; [lia|]. specialize (IH Hin). lia.
Qed.

Lemma allocations_sum limit rr : Forall (λ p, p.2 ≠ []) rr → limit `min` total_of rr ≤ sum_of (allocations limit rr).
Proof.
  intros Hne. assert (∀ l, (∀ p, p ∈ l → p ∈ rr) →
    (total_of rr ≤ limit → sum_list_with (λ p, allocation limit (total_of rr) (length p.2)) l = total_of l) ∧
    (limit ≤ total_of rr → limit * total_of l ≤ sum_list_with (λ p, allocation limit (total_of rr) (length p.2)) l * total_of rr)) as Hl.
  { induction l as [|[k rs] l IH]; intros Hin; [split; intros; cbn; lia|].
    destruct IH as [IH1 IH2]; [intros; apply Hin; by right|]. assert ((k, rs) ∈ rr) as Hk by (apply Hin; left).
    pose proof (length_le_total k rs rr Hk). rewrite Forall_forall in Hne. specialize (Hne _ Hk). cbn in Hne.
    assert (0 < length rs) by (destruct rs; [done|cbn; lia]). unfold total_of in *. cbn. split; intros Hlim.
    - rewrite allocation_full, IH1 by done. done.
    - pose proof (allocation_ge limit (sum_list_with (λ p, length p.2) rr) (length rs)). specialize (IH2 Hlim). nia. }
  destruct (Hl rr (λ _ H, H)) as [H1 H2]. unfold sum_of, allocations.
  assert (sum_list_with snd ((λ p, (p.1, allocation limit (total_of rr) (length p.2))) <$> rr) =
    sum_list_with (λ p, allocation limit (total_of rr) (length p.2)) rr) as ->.
  { clear. generalize (total_of rr). intros n. induction rr as [|p rr IH]; cbn; [done|]. by rewrite IH. }
  destruct (decide (total_of rr ≤ limit)) as [Hle|Hgt]; [rewrite H1 by done; lia|].
  specialize (H2 ltac:(lia)). rewrite Nat.min_l by lia. destruct (total_of rr); [lia|]. nia.
Qed.

(** ** The reduction *)

Definition positive (al : list (string * nat)) : Prop := Forall (λ p, 1 ≤ p.2) al.

Lemma sum_of_ddel k n al : NoDup al.*1 → dget k al = Some n → sum_of (ddel k al) + n = sum_of al.
Proof.
  unfold sum_of, ddel. induction al as [|[k' n'] al IH]; [done|]. rewrite fmap_cons, NoDup_cons. cbn [dget fst].
  intros [Hnin Hnd].
  case_decide as Hk; subst.
  - intros [= ->]. rewrite filter_cons_False by (cbn; naive_solver). cbn.
    assert (filter (λ p, p.1 ≠ k') al = al) as ->; [|lia].
    clear -Hnin. induction al as [|[k'' ?] al IH]; [done|]. cbn in Hnin. rewrite not_elem_of_cons in Hnin.
    rewrite filter_cons_True, IH; naive_solver.
  - intros Hget. rewrite filter_cons_True by (cbn; naive_solver). cbn. specialize (IH Hnd Hget). lia.
Qed.

Lemma sum_of_dset k n m al : NoDup al.*1 → dget k al = Some n → sum_of (dset k m al) + n = sum_of al + m.
Proof.
  unfold sum_of. induction al as [|[k' n'] al IH]; cbn; [done|]. rewrite NoDup_cons. intros [Hnin Hnd].
  case_decide as Hk; subst; [intros [= ->]; cbn; lia|]. intros Hget. cbn. specialize (IH Hnd Hget). lia.
Qed.

(** What a reduction keeps. *)
Definition shrinks (al al' : list (string * nat)) : Prop :=
  NoDup al'.*1 ∧ positive al' ∧ ∀ k n, dget k al' = Some n → ∃ n0, dget k al = Some n0 ∧ n ≤ n0.

Lemma shrinks_refl al : NoDup al.*1 → positive al → shrinks al al.
Proof. intros. split_and!; eauto. Qed.

Lemma shrinks_trans al al' al'' : shrinks al al' → shrinks al' al'' → shrinks al al''.
Proof.
  intros (_&_&H1) (Hn&Hp&H2). split_and!; [done|done|]. intros k n (n0&H0&?)%H2. apply H1 in H0 as (n1&?&?).
  exists n1. split; [done|lia].
Qed.

Lemma positive_sum al : positive al → length al ≤ sum_of al.
Proof. unfold sum_of. induction 1 as [|p al Hp Hal IH]; cbn; lia. Qed.

Lemma reduce_once_spec al :
  NoDup al.*1 → positive al → 0 < sum_of al →
  shrinks al (reduce_once al) ∧ sum_of (reduce_once al) + 1 = sum_of al ∧
  (length al < sum_of al → (reduce_once al).*1 = al.*1).
Proof.
  intros Hnd Hpos Hsum. unfold reduce_once. destruct al as [|p al]; [cbn in Hsum; lia|].
  pose proof (max_by_in (λ q : string * nat, inject_Z (Z.of_nat q.2)) p al) as Hin.
  pose proof (λ q, max_by_ge (λ q : string * nat, inject_Z (Z.of_nat q.2)) p al q) as Hge.
  unfold max_repo. destruct (max_by _ p al) as [k n]. set (l := p :: al) in *.
  pose proof (elem_of_dget k n l Hnd Hin) as Hget. unfold positive in Hpos. pose proof Hpos as Hpos'.
  rewrite Forall_forall in Hpos'. specialize (Hpos' _ Hin). cbn in Hpos'. destruct (Nat.eqb_spec (n - 1) 0) as [E|E].
  - split_and!.
    + split_and!; [by apply ddel_NoDup|by apply ddel_Forall|]. intros k' n'. rewrite dget_ddel. case_decide; [done|]. eauto.
    + pose proof (sum_of_ddel k n l Hnd Hget). lia.
    + intros Hlt. exfalso. assert (sum_of l ≤ length l); [|lia].
      assert (∀ q, q ∈ l → q.2 ≤ 1) as Hone.
      { intros q Hq. specialize (Hge q Hq). cbn in Hge. rewrite <-Zle_Qle in Hge. lia. }
      clear -Hone. unfold sum_of. induction l as [|q l IH]; cbn; [lia|].
      pose proof (Hone q (list_elem_of_here _ _)). specialize (IH (λ q' Hq', Hone q' (list_elem_of_further _ _ _ Hq'))). lia.
  - split_and!.
    + split_and!; [by apply dset_NoDup|apply dset_Forall; [cbn; lia|done]|]. intros k' n'. rewrite dget_dset.
      case_decide; [|eauto]. intros [= <-]. subst. exists n. split; [done|lia].
    + pose proof (sum_of_dset k n (n - 1) l Hnd Hget). lia.
    + intros _. rewrite dset_keys, decide_True; [done|]. apply list_elem_of_fmap. by exists (k, n).
Qed.

Lemma reduce_spec fuel limit al :
  NoDup al.*1 → positive al → sum_of al ≤ fuel + limit →
  shrinks al (reduce fuel limit al) ∧ sum_of (reduce fuel limit al) = sum_of al `min` limit ∧
  (length al ≤ limit → (reduce fuel limit al).*1 = al.*1).
Proof.
  revert al. induction fuel as [|fuel IH]; intros al Hnd Hpos Hf; cbn [reduce].
  { split_and!; [by apply shrinks_refl|lia|done]. }
  destruct (Nat.ltb_spec limit (sum_of al)) as [Hlt|Hge]; [|split_and!; [by apply shrinks_refl|lia|done]].
  destruct (reduce_once_spec al Hnd Hpos ltac:(lia)) as (Hsh&Hsum&Hkeys). pose proof Hsh as (Hnd'&Hpos'&_).
  destruct (IH (reduce_once al) Hnd' Hpos' ltac:(lia)) as (Hsh'&Hsum'&Hkeys'). split_and!.
  - by eapply shrinks_trans.
  - lia.
  - intros Hlen. specialize (Hkeys ltac:(lia)). rewrite <-Hkeys. apply Hkeys'.
    by rewrite <-(length_fmap fst (reduce_once al)), Hkeys, length_fmap.
Qed.

(** ** The interleaving *)

(** The results of one repository. *)
Definition of_repo (k : string) (l : list (string * hit)) : list (string * hit) := filter (λ p, p.1 = k) l.
Definition left_of (k : string) (its : repos) : list hit := default [] (dget k its).

Lemma of_repo_snoc k l k' r : of_repo k (l ++ [(k', r)]) = of_repo k l ++ (if decide (k' = k) then [(k', r)] else []).
Proof.
  unfold of_repo. by rewrite filter_app, filter_cons.
Qed.

Lemma left_of_cons k k' rs its : left_of k ((k', rs) :: its) = if decide (k = k') then rs else left_of k its.
Proof. unfold left_of. cbn [dget]. by case_decide. Qed.

Lemma left_of_fresh k its : k ∉ its.*1 → left_of k its = [].
Proof. intros H%dget_None. unfold left_of. by rewrite H. Qed.

Lemma pass_spec limit its agg agg' its' :
  NoDup its.*1 → pass limit its agg = (agg', its') →
  its'.*1 `sublist_of` its.*1 ∧
  (∀ k, of_repo k agg' ++ tag k (left_of k its') = of_repo k agg ++ tag k (left_of k its)) ∧
  length agg' + total_of its' = length agg + total_of its ∧
  (its ≠ [] → total_of its' + length its' < total_of its + length its).
Proof.
  revert agg agg' its'. induction its as [|[k0 rs] its IH]; intros agg agg' its' Hnd; cbn [pass].
  { intros [= <- <-]. split_and!; [done|done|done|done]. }
  rewrite fmap_cons, NoDup_cons in Hnd. destruct Hnd as [Hk0 Hnd]. cbn [fst] in Hk0.
  destruct rs as [|r rs].
  - intros Hp. destruct (IH _ _ _ Hnd Hp) as (Hs&Hr&Hl&Hm). split_and!.
    + cbn. by apply sublist_cons.
    + intros k. rewrite Hr, left_of_cons. case_decide; [|done]. subst. by rewrite left_of_fresh.
    + unfold total_of in *. cbn. lia.
    + intros _. destruct its; [cbn in *; injection Hp as <- <-; cbn; lia|].
      specialize (Hm ltac:(done)). unfold total_of in *. cbn in *. lia.
  - destruct (limit <=? length (agg ++ [(k0, r)])).
    + intros [= <- <-]. split_and!; [done| | |].
      * intros k. rewrite of_repo_snoc, !left_of_cons. destruct (decide (k0 = k)), (decide (k = k0)); subst; try done.
        -- by rewrite <-app_assoc.
        -- by rewrite app_nil_r.
      * rewrite length_app. unfold total_of. cbn. lia.
      * intros _. unfold total_of. cbn. lia.
    + destruct (pass limit its (agg ++ [(k0, r)])) as [agg2 its2] eqn:Hp. intros [= <- <-].
      destruct (IH _ _ _ Hnd Hp) as (Hs&Hr&Hl&Hm). split_and!.
      * cbn. by apply sublist_skip.
      * intros k. rewrite !left_of_cons. specialize (Hr k). rewrite of_repo_snoc in Hr.
        destruct (decide (k0 = k)), (decide (k = k0)); subst; try done.
        -- assert (k ∉ its2.*1) as Hk2 by (intros Hin; by eapply Hk0, sublist_elem_of).
           rewrite (left_of_fresh k its Hk0), (left_of_fresh k its2 Hk2) in Hr. cbn in Hr. rewrite !app_nil_r in Hr. rewrite Hr. by rewrite <-app_assoc.
        -- by rewrite app_nil_r in Hr.
      * rewrite length_app in Hl. cbn in Hl. unfold total_of in *. cbn. lia.
      * intros _. destruct its; [cbn in Hp; injection Hp as <- <-; unfold total_of; cbn; lia|].
        specialize (Hm ltac:(done)). unfold total_of in *. cbn in *. lia.
Qed.

Lemma left_of_total k its : total_of its = 0 → left_of k its = [].
Proof.
  unfold total_of. induction its as [|[k' rs] its IH]; [done|]. cbn [sum_list_with snd]. intros H. rewrite left_of_cons.
  case_decide; [destruct rs; [done|cbn in H; lia]|]. apply IH. lia.
Qed.

Lemma interleave_spec fuel limit its agg :
  NoDup its.*1 → total_of its + length its < fuel → length agg + total_of its ≤ limit →
  (∀ k, of_repo k (interleave fuel limit its agg) = of_repo k agg ++ tag k (left_of k its)) ∧
  length (interleave fuel limit its agg) = length agg + total_of its.
Proof.
  revert its agg. induction fuel as [|fuel IH]; intros its agg Hnd Hf Hlim; [lia|]. cbn [interleave].
  destruct (Nat.ltb_spec (length agg) limit) as [Hlt|Hge]; cbn [andb].
  2: { assert (total_of its = 0) as H0 by lia. rewrite H0. split; [|lia]. intros k. rewrite left_of_total by done.
       cbn. by rewrite app_nil_r. }
  case_bool_decide as Hits; cbn [negb].
  { subst. split; [|cbn; lia]. intros k. cbn. by rewrite app_nil_r. }
  destruct (pass limit its agg) as [agg' its'] eqn:Hp. destruct (pass_spec _ _ _ _ _ Hnd Hp) as (Hs&Hr&Hl&Hm).
  specialize (Hm Hits). destruct (IH its' agg') as [H1 H2]; [by eapply sublist_NoDup|lia|lia|].
  split; [intros k; by rewrite H1, Hr|lia].
Qed.

Lemma left_of_iterators k rr al : NoDup al.*1 →
  left_of k (iterators rr al) =
  match dget k al with Some n => take n (sort_desc score_of (default [] (dget k rr))) | None => [] end.
Proof.
  intros Hnd. unfold iterators. induction al as [|[k' n] al IH]; [done|].
  rewrite fmap_cons, NoDup_cons in Hnd. destruct Hnd as [Hnin Hnd]. cbn [fmap list_fmap]. rewrite left_of_cons. cbn [dget].
  case_decide as E; [by subst|]. by apply IH.
Qed.

Lemma iterators_total rr al :
  NoDup al.*1 → (∀ k n, dget k al = Some n → ∃ rs, dget k rr = Some rs ∧ n ≤ length rs) →
  total_of (iterators rr al) = sum_of al.
Proof.
  unfold total_of, sum_of, iterators. induction al as [|[k n] al IH]; intros Hnd Hal; [done|].
  rewrite fmap_cons, NoDup_cons in Hnd. destruct Hnd as [Hnin Hnd]. cbn [fmap list_fmap sum_list_with snd].
  change (list_fmap _ _ _ _) with ((λ '(k, n), (k, take n (sort_desc score_of (default [] (dget k rr))))) <$> al).
  rewrite IH; [|done|].
  - f_equal. destruct (Hal k n) as (rs&Hrs&Hn); [cbn; by rewrite decide_True|]. rewrite Hrs. cbn [default from_option id].
    rewrite length_take, (Permutation_length (sort_desc_perm score_of rs)). lia.
  - intros k' n' Hget. apply Hal. cbn. rewrite decide_False; [done|]. intros ->. apply Hnin.
    apply dget_elem_of in Hget. apply list_elem_of_fmap. by exists (k, n').
Qed.

Lemma iterators_keys rr al : (iterators rr al).*1 = al.*1.
Proof. unfold iterators. rewrite <-list_fmap_compose. apply list_fmap_ext. by intros _ [??] _. Qed.

Lemma total_of_filter rr : total_of (filter (λ p, p.2 ≠ []) rr) = total_of rr.
Proof.
  unfold total_of. induction rr as [|[k rs] rr IH]; [done|]. rewrite filter_cons. cbn [snd]. case_decide as E; cbn; [by rewrite IH|].
  rewrite IH. by destruct rs.
Qed.

Lemma dget_filter k (rr : repos) rs : NoDup rr.*1 → dget k (filter (λ p, p.2 ≠ []) rr) = Some rs → dget k rr = Some rs.
Proof. intros Hnd [_ Hin]%dget_elem_of%list_elem_of_filter. by apply elem_of_dget. Qed.

Lemma allocations_keys limit rr : (allocations limit rr).*1 = rr.*1.
Proof. unfold allocations. rewrite <-list_fmap_compose. by apply list_fmap_ext. Qed.

Lemma allocations_dget limit rr k n :
  NoDup rr.*1 → Forall (λ p, p.2 ≠ []) rr → dget k (allocations limit rr) = Some n →
  ∃ rs, dget k rr = Some rs ∧ 1 ≤ n ≤ length rs.
Proof.
  intros Hnd Hfull (p&[= -> ->]&Hp)%dget_elem_of%list_elem_of_fmap. exists p.2.
  split; [apply elem_of_dget; [done|by destruct p]|]. apply allocation_range.
  rewrite Forall_forall in Hfull. specialize (Hfull _ Hp). destruct p.2; [done|cbn; lia].
Qed.

Lemma allocations_positive limit rr : NoDup rr.*1 → Forall (λ p, p.2 ≠ []) rr → positive (allocations limit rr).
Proof.
  intros Hnd Hfull. apply Forall_forall. intros [k n] Hin.
  assert (dget k (allocations limit rr) = Some n) as Hg by (apply elem_of_dget; [by rewrite allocations_keys|done]).
  apply allocations_dget in Hg as (rs&_&?); [|done|done]. cbn. lia.
Qed.

Lemma allocations_le limit rr : sum_of (allocations limit rr) ≤ total_of rr.
Proof.
  unfold sum_of, allocations, total_of at 2. generalize (total_of rr). intros t.
  induction rr as [|p l IH]; cbn; [lia|]. unfold allocation at 1. lia.
Qed.

(** Per-repository aggregation is exact and fair.  For a positive limit there is
    a number of results per repository, at least one and at most what it has, such
    that of each repository exactly its best results by score are returned, in
    descending order, and nothing else; altogether as many as the limit allows; and
    if the limit is not below the number of repositories with results, each of them
    is represented. *)
Theorem per_repo_spec limit (rr : repos) :
  NoDup rr.*1 → 0 < limit →
  ∃ al : list (string * nat), NoDup al.*1 ∧
  (∀ k n, dget k al = Some n → ∃ rs, dget k rr = Some rs ∧ 1 ≤ n ≤ length rs) ∧
  (∀ k, of_repo k (_aggregate_per_repo limit rr) =
    match dget k al with Some n => tag k (take n (sort_desc score_of (default [] (dget k rr)))) | None => [] end) ∧
  length (_aggregate_per_repo limit rr) = limit `min` total_of rr ∧
  (length (filter (λ p, p.2 ≠ []) rr) ≤ limit → ∀ k rs, (k, rs) ∈ rr → rs ≠ [] → is_Some (dget k al)).
Proof.
  intros Hnd Hlim. unfold _aggregate_per_repo. set (ne := filter _ rr).
  assert (NoDup ne.*1) as Hne by (eapply sublist_NoDup; [exact Hnd|]; apply fmap_sublist, sublist_filter).
  assert (total_of ne = total_of rr) as Htot by apply total_of_filter.
  assert (Forall (λ p, p.2 ≠ []) ne) as Hfull.
  { apply Forall_forall. by intros p [? _]%list_elem_of_filter. }
  assert (∀ k rs, dget k ne = Some rs → dget k rr = Some rs) as Hsub.
  { intros k rs Hg. by apply dget_filter. }
  destruct ne as [|p0 ne0] eqn:Ene.
  { exists []. split_and!; [constructor|done|done|rewrite <-Htot; cbn; lia|].
    intros _ k rs Hin Hrs. exfalso. assert ((k, rs) ∈ ne) as H by (by apply list_elem_of_filter). rewrite Ene in H. by apply elem_of_nil in H. }
  rewrite <-Ene in *. cbn zeta.
  destruct (reduce_spec (sum_of (allocations limit ne)) limit (allocations limit ne)) as ((Hnd'&Hpos'&Hsh)&Hsum&Hkeys);
    [by rewrite allocations_keys|by apply allocations_positive|lia|].
  set (al := reduce _ _ _) in *. exists al.
  assert (∀ k n, dget k al = Some n → ∃ rs, dget k ne = Some rs ∧ 1 ≤ n ≤ length rs) as Hal.
  { intros k n Hg. destruct (Hsh k n Hg) as (n0&H0&Hle). apply allocations_dget in H0 as (rs&Hrs&?); [|done|done]. exists rs. split; [done|].
    unfold positive in Hpos'. rewrite Forall_forall in Hpos'. apply dget_elem_of in Hg. specialize (Hpos' _ Hg). cbn in Hpos'. lia. }
  assert (total_of (iterators ne al) = limit `min` total_of rr) as Hits.
  { rewrite iterators_total; [|done|].
    - rewrite Hsum. pose proof (allocations_sum limit ne Hfull). pose proof (allocations_le limit ne). lia.
    - intros k n Hg. apply Hal in Hg as (rs&?&?). exists rs. split; [done|lia]. }
  destruct (interleave_spec (S (total_of (iterators ne al) + length (iterators ne al))) limit (iterators ne al) []) as [Hr Hlen].
  { by rewrite iterators_keys. } { lia. } { cbn. rewrite Hits. lia. }
  split_and!.
  - done.
  - intros k n Hg. apply Hal in Hg as (rs&?&?). eauto.
  - intros k. rewrite Hr, left_of_iterators by done. cbn [app of_repo]. destruct (dget k al) as [n|] eqn:Hg; [|done].
    apply Hal in Hg as (rs&Hrs&_). by rewrite Hrs, (Hsub _ _ Hrs).
  - rewrite Hlen. cbn. lia.
  - intros Hcount k rs Hin Hrs. specialize (Hkeys ltac:(by rewrite <-(length_fmap fst), allocations_keys, length_fmap)).
    destruct (dget k al) eqn:Hg; [by eexists|]. exfalso. apply dget_None in Hg. apply Hg. rewrite Hkeys, allocations_keys.
    apply list_elem_of_fmap. exists (k, rs). split; [done|]. by apply list_elem_of_filter.
Qed.

(** Global mode returns the best results of all repositories, in stable descending
    order. *)
Lemma global_spec limit rr :
  top_n (λ p, score_of p.2) (Z.of_nat limit) (rr ≫= λ '(alias, rs), tag alias rs) (_aggregate_global limit rr).
Proof.
  unfold _aggregate_global. rewrite <-(Nat2Z.id limit) at 2. rewrite <-upto_nonneg by lia. apply upto_sort_top.
Qed.
End aggregate.
Arguments hit : clear implicits.

Definition demo_hits : list (string * list (hit string)) :=
  [("a", [{| score := Some (1 # 2)%Q; body := "a1" |}; {| score := Some (9 # 10)%Q; body := "a2" |}; {| score := None; body := "a3" |}]);
   ("b", []); ("c", [{| score := Some (3 # 10)%Q; body := "c1" |}])].

Lemma per_repo_spec_witness :
  _aggregate_per_repo 2 demo_hits = [("a", {| score := Some (9 # 10)%Q; body := "a2" |}); ("c", {| score := Some (3 # 10)%Q; body := "c1" |})] ∧
  length (_aggregate_per_repo 2 demo_hits) = 2 `min` total_of demo_hits.
Proof.
  split; [by vm_compute|].
  destruct (per_repo_spec 2 demo_hits) as (al&_&_&_&H&_); [apply (bool_decide_unpack _); by vm_compute|lia|exact H].
Defined.
End OmniAggregator.

Module MultiAggregator.
Import OmniAggregator.

Section aggregate.
Context {B : Type}.

(** Score filter, then the limit as a slice, per repository. *)
Definition aggregate_one (limit : Z) (min_score : option Q) (rs : list (hit B)) : list (hit B) :=
  upto limit (match min_score with
              | Some m => filter (λ r, Qle_bool m (score_of r) = true) rs
              | None => rs
              end).

(** Every result carries its repository. *)
Definition aggregate (limit : Z) (min_score : option Q) (rr : list (string * list (hit B))) :
    list (string * list (string * hit B)) :=
  (λ '(repo_id, rs), (repo_id, tag repo_id (aggregate_one limit min_score rs))) <$> rr.

(** The repositories and their order are kept; the results of each are a prefix, of
    at most the limit, of those that reach the minimum score. *)
Lemma multi_aggregate_spec limit min_score rr :
  (0 ≤ limit)%Z →
  (aggregate limit min_score rr).*1 = rr.*1 ∧
  ∀ k rs, (k, rs) ∈ rr → (k, tag k (aggregate_one limit min_score rs)) ∈ aggregate limit min_score rr ∧
    aggregate_one limit min_score rs `sublist_of` rs ∧ (Z.of_nat (length (aggregate_one limit min_score rs)) ≤ limit)%Z ∧
    ∀ m r, min_score = Some m → r ∈ aggregate_one limit min_score rs → (m <= score_of r)%Q.
Proof.
  intros Hlim. split; [unfold aggregate; rewrite <-list_fmap_compose; apply list_fmap_ext; by intros _ [??] _|].
  intros k rs Hin. split_and!.
  - apply list_elem_of_fmap. by exists (k, rs).
  - unfold aggregate_one. etrans; [apply upto_sublist|]. destruct min_score; [apply sublist_filter|done].
  - unfold aggregate_one. rewrite upto_nonneg by done. rewrite length_take. lia.
  - intros m r -> Hr. unfold aggregate_one in Hr. eapply sublist_elem_of in Hr; [|apply upto_sublist].
    apply list_elem_of_filter in Hr as [Hm _]. by apply Qle_bool_iff.
Qed.
End aggregate.
End MultiAggregator.
