(* ===== verification/Filters.v ===== *)
(** * Path patterns and filters of a query

    - [PathPattern], [PatternMatcher]: src/src/code_indexer/services/path_pattern_matcher.py,
      normalisation and the matcher with its pattern cache
    - [FilterBuilder]: src/src/code_indexer/services/path_filter_builder.py
    - [ConflictDetector]: src/src/code_indexer/services/filter_conflict_detector.py

    The pathspec library is a parameter: compiling a pattern and matching a path may
    each raise. *)

From stdpp Require Import pretty.
From S2P Require Import Prelude.
From S2P Require Import PyText.
From stdpp Require Import options.

Module PathPattern.

Inductive error := TypeError | ValueError.

Definition parse_exclude_patterns (exclude_path : option text) : list text :=
  match exclude_path with
  | None => []
  | Some s => if blank s then [] else strip <$> filter (λ p, blank p = false) (split_on comma s)
  end.

(** ** Normalisation *)

Definition dotdot : text := [dot; dot].

(** One part of the path; the root marker is skipped. *)
Definition norm_step (parts : list text) (part : text) : list text :=
  if decide (part = [slash]) then parts
  else if decide (part = dotdot) then
    if bool_decide (parts ≠ []) && negb (bool_decide (last parts = Some dotdot))
    then take (length parts - 1) parts else parts ++ [part]
  else if bool_decide (part ≠ [dot]) && bool_decide (part ≠ []) then parts ++ [part]
  else parts.

Definition render (absolute : bool) (parts : list text) : text :=
  let result := join slash parts in if absolute then slash :: result else result.

(** For an absolute path without parts both branches of the code give a slash. *)
Definition _normalize_path (path : text) : text :=
  if decide (path = []) then []
  else
    let normalized := path_of (replace_char backslash slash path) in
    let absolute := is_prefix [slash] (path_str normalized) in
    render absolute (foldl norm_step [] (path_parts normalized)).

Definition _normalize_pattern_for_gitwildmatch (pattern : text) : text :=
  if is_prefix (txt "*/") pattern then txt "**/" ++ drop 2 pattern else pattern.

(** ** Normal forms *)

Definition component (f : text) : Prop := f ≠ [] ∧ f ≠ [dot] ∧ slash ∉ f.

(** Parts with [..] only at the front. *)
Definition normal (parts : list text) : Prop :=
  ∃ k rest, parts = replicate k dotdot ++ rest ∧ (dotdot ∉ rest) ∧ Forall component rest.

Lemma dotdot_component : component dotdot.
Proof. split_and!; try done. apply (bool_decide_unpack _). by vm_compute. Qed.

Lemma normal_components parts : normal parts → Forall component parts.
Proof. intros (k&rest&->&_&Hr). apply Forall_app. split; [apply Forall_replicate, dotdot_component|done]. Qed.

Lemma component_step parts part : component part →
  norm_step parts part =
  if decide (part = dotdot) then
    if bool_decide (parts ≠ []) && negb (bool_decide (last parts = Some dotdot))
    then take (length parts - 1) parts else parts ++ [part]
  else parts ++ [part].
Proof.
  intros (H1&H2&H3). unfold norm_step. destruct (decide (part = [slash])); [set_solver|].
  destruct (decide (part = dotdot)); [done|]. by rewrite !bool_decide_eq_true_2.
Qed.

Lemma norm_step_normal parts part : normal parts → component part → normal (norm_step parts part).
Proof.
  intros (k&rest&->&Hd&Hr) Hp. rewrite component_step by done. case_decide as E.
  - subst part. destruct rest as [|f rest _] using rev_ind.
    + rewrite app_nil_r. exists (S k), []. rewrite replicate_S_end, app_nil_r. split_and!; [|set_solver|constructor].
      destruct k as [|k]; [done|]. rewrite replicate_S_end, last_snoc, (bool_decide_eq_true_2 (Some _ = _)) by done.
      by rewrite andb_false_r.
    + rewrite app_assoc, last_snoc, bool_decide_eq_true_2 by (by destruct (replicate k dotdot), rest).
      rewrite bool_decide_eq_false_2 by set_solver. cbn [andb negb].
      rewrite length_app, Nat.add_sub, take_app_length. exists k, rest. apply Forall_app in Hr as [? _]. split_and!; set_solver.
  - exists k, (rest ++ [part]). rewrite app_assoc. split_and!; [done|set_solver|]. apply Forall_app. auto.
Qed.

Lemma norm_fold_normal fs parts : normal parts → Forall component fs → normal (foldl norm_step parts fs).
Proof. intros Hn Hf. revert parts Hn. induction Hf; intros parts Hn; cbn; [done|]. auto using norm_step_normal. Qed.

Lemma norm_fold_id parts : normal parts → foldl norm_step [] parts = parts.
Proof.
  intros (k&rest&->&Hd&Hr). rewrite foldl_app.
  assert (foldl norm_step [] (replicate k dotdot) = replicate k dotdot) as ->.
  { induction k as [|k IH]; [done|]. rewrite replicate_S_end, foldl_app, IH. cbn [foldl].
    rewrite component_step, decide_True by (done || apply dotdot_component).
    destruct k as [|k]; [done|]. rewrite (replicate_S_end k), last_snoc, (bool_decide_eq_true_2 (Some _ = _)) by done.
    by rewrite andb_false_r. }
  generalize (replicate k dotdot). intros pre. revert pre. induction Hr as [|f rest Hf Hr IH]; intros pre; cbn [foldl]; [by rewrite app_nil_r|].
  apply not_elem_of_cons in Hd as [Hne Hd]. rewrite component_step, decide_False by done. by rewrite IH, <-app_assoc.
Qed.

Lemma elem_of_split c sep s f : f ∈ split_on sep s → c ∈ f → c ∈ s.
Proof.
  revert f. induction s as [|d s IH]; cbn; intros f; [by intros ->%list_elem_of_singleton|].
  destruct (d =? sep)%N.
  - intros [->|Hin]%elem_of_cons; [by intros ?%elem_of_nil|]. intros. right. eauto.
  - destruct (split_on sep s) as [|g gs]; [by intros ->%list_elem_of_singleton ->%list_elem_of_singleton; left|].
    intros [->|Hin]%elem_of_cons; [|intros; right; eapply IH; [right|]; done].
    intros [->|Hc]%elem_of_cons; [left|right]. eapply IH; [left|done].
Qed.

Lemma elem_of_join c sep fs : c ∈ join sep fs → c = sep ∨ ∃ f, f ∈ fs ∧ c ∈ f.
Proof.
  induction fs as [|f [|g fs] IH]; cbn; [set_solver|set_solver|]. rewrite elem_of_app, elem_of_cons. intros [?|[?|Hin]]; [set_solver..|].
  destruct (IH Hin) as [?|(f'&?&?)]; [by left|]. right. exists f'. set_solver.
Qed.

(** No part contains a character the text does not have. *)
Lemma norm_fold_elems fs parts c :
  (∀ f, f ∈ foldl norm_step parts fs → c ∈ f → (∃ g, g ∈ fs ∧ c ∈ g) ∨ ∃ g, g ∈ parts ∧ c ∈ g).
Proof.
  revert parts. induction fs as [|g fs IH]; intros parts f; cbn [foldl]; [eauto|]. intros Hf Hc.
  destruct (IH _ _ Hf Hc) as [(h&?&?)|(h&Hh&?)]; [left; exists h; set_solver|].
  assert (h ∈ parts ∨ h = g) as [?|Hg]; [|right; eauto|subst; left; exists g; set_solver].
  unfold norm_step in Hh. repeat case_match; try set_solver. left.
  rewrite <-(take_drop (length parts - 1) parts). apply elem_of_app. by left.
Qed.

Lemma is_absolute_str p : path_wf p → is_prefix [slash] (path_str p) = negb (proot p =? 0).
Proof.
  destruct p as [[|r] fs]; intros [_ Hfs]; [|done]. destruct fs as [|f fs]; [done|].
  change (is_prefix [slash] (join slash (f :: fs)) = false). pose proof (join_not_slash (f :: fs) Hfs) as H.
  destruct (join slash (f :: fs)) as [|c s]; [done|]. cbn [leading_slashes] in H. destruct (N.eqb_spec c slash); [done|].
  cbn [is_prefix]. by rewrite (proj2 (N.eqb_neq slash c)) by congruence.
Qed.

Lemma path_of_render absolute parts :
  Forall component parts → render absolute parts ≠ [] →
  path_of (render absolute parts) = {| proot := if absolute then 1 else 0; ptail := parts |}.
Proof.
  intros Hc Hne. unfold render in *. destruct absolute.
  - unfold path_of. cbn [leading_slashes split_on]. rewrite N.eqb_refl, join_not_slash by done. f_equal.
    rewrite filter_cons_False by (by vm_compute). destruct parts as [|f fs]; [done|].
    rewrite split_join, path_component_id; [done|done|done|]. eapply Forall_impl; [done|]. unfold component. naive_solver.
  - destruct parts as [|f fs]; [done|]. apply (path_of_str_rel {| proot := 0; ptail := f :: fs |}); [|done|done].
    split; [cbn; lia|done].
Qed.

Lemma normal_nil : normal [].
Proof. exists 0, []. split_and!; [done|set_solver|constructor]. Qed.

(** The code's loop only sees the components of the path. *)
Lemma normalize_render path :
  let p := path_of (replace_char backslash slash path) in
  path ≠ [] → proot p ≠ 2 →
  ∃ parts, _normalize_path path = render (negb (proot p =? 0)) parts ∧
    parts = foldl norm_step [] (ptail p) ∧ normal parts.
Proof.
  intros p Hne Hroot. pose proof (path_of_wf (replace_char backslash slash path)) as Hwf. fold p in Hwf.
  eexists. split_and!; [|done|]; [|by apply norm_fold_normal, Hwf; apply normal_nil].
  unfold _normalize_path. rewrite decide_False by done. fold p. rewrite is_absolute_str by done. f_equal.
  unfold path_parts. rewrite foldl_app. destruct Hwf as [Hr _].
  by destruct (proot p) as [|[|[|]]]; [..|lia].
Qed.

Lemma render_no_backslash absolute path :
  backslash ∉ render absolute (foldl norm_step [] (ptail (path_of (replace_char backslash slash path)))).
Proof.
  intros Hin. assert (backslash ∈ join slash (foldl norm_step [] (ptail (path_of (replace_char backslash slash path))))) as Hj.
  { unfold render in Hin. destruct absolute; [apply elem_of_cons in Hin as [?|?]; done|done]. }
  apply elem_of_join in Hj as [?|(f&Hf&Hc)]; [done|].
  destruct (norm_fold_elems _ _ _ _ Hf Hc) as [(g&Hg&Hgc)|(?&?%elem_of_nil&_)]; [|done].
  cbn in Hg. apply list_elem_of_filter in Hg as [_ Hg].
  pose proof (elem_of_split _ _ _ _ Hg Hgc) as Hrep. unfold replace_char in Hrep.
  apply list_elem_of_fmap in Hrep as (c&Hrep&_). destruct (N.eqb_spec c backslash); [done|congruence].
Qed.

Lemma replace_absent s : backslash ∉ s → replace_char backslash slash s = s.
Proof.
  intros Hb. unfold replace_char. rewrite <-(list_fmap_id s) at 2. apply list_fmap_ext. intros i c Hc. cbn.
  destruct (N.eqb_spec c backslash) as [->|]; [|done]. exfalso. apply Hb. by eapply list_elem_of_lookup_2.
Qed.

Lemma render_fixpoint absolute parts :
  normal parts → backslash ∉ render absolute parts →
  _normalize_path (render absolute parts) = render absolute parts.
Proof.
  intros Hnorm Hb. unfold _normalize_path. case_decide as En; [done|].
  pose proof (normal_components parts Hnorm) as Hcomp. rewrite replace_absent, path_of_render by done.
  rewrite is_absolute_str by (split; [by destruct absolute; cbn; lia|done]). unfold path_parts. cbn [proot ptail].
  rewrite foldl_app. assert (foldl norm_step [] (if decide ((if absolute then 1 else 0) = 0) then [] else [root_text (if absolute then 1 else 0)]) = []) as ->
    by (by destruct absolute).
  rewrite norm_fold_id by done. by destruct absolute.
Qed.

(** Path normalisation gives a canonical form, for every path that does not start
    with exactly two slashes: no backslash is left, the parts are non-empty and not
    [.], with [..] only at the front, a path keeps being absolute or relative, and
    normalising again changes nothing. *)
Theorem normalize_path_canonical path :
  proot (path_of (replace_char backslash slash path)) ≠ 2 →
  ∃ absolute parts, _normalize_path path = render absolute parts ∧ normal parts ∧
    (path ≠ [] → absolute = negb (proot (path_of (replace_char backslash slash path)) =? 0)) ∧
    (backslash ∉ _normalize_path path) ∧ _normalize_path (_normalize_path path) = _normalize_path path.
Proof.
  intros Hroot. destruct (decide (path = [])) as [->|Hne].
  { exists false, []. split_and!; [done|apply normal_nil|done|apply not_elem_of_nil|done]. }
  destruct (normalize_render path Hne Hroot) as (parts&->&Hparts&Hnorm). set (abs := negb _).
  assert (backslash ∉ render abs parts) as Hb by (by subst parts; apply render_no_backslash).
  exists abs, parts. split_and!; [done..|]. by apply render_fixpoint.
Qed.

(** Two leading slashes are a root of their own in POSIX; it is not skipped and ends up
    as a part: the result has four slashes. *)
Lemma two_slashes_not_normal :
  _normalize_path (txt "//a/b") = txt "////a/b" ∧ _normalize_path (txt "////a/b") = txt "/a/b".
Proof. by vm_compute. Qed.

Lemma normalize_path_canonical_witness :
  _normalize_path (txt "src\./tests\..\a.py") = txt "src/a.py" ∧
  _normalize_path (_normalize_path (txt "src\./tests\..\a.py")) = _normalize_path (txt "src\./tests\..\a.py").
Proof.
  split; [by vm_compute|]. destruct (normalize_path_canonical (txt "src\./tests\..\a.py")) as (a&ps&_&_&_&_&H); [by vm_compute|exact H].
Defined.
End PathPattern.

Module PatternMatcher.
Import PathPattern.
Section matcher.
Context {Spec : Type} (compile : text → option Spec) (match_file : Spec → text → option bool).

(** [None] stands for an exception of the library, re-raised as ValueError. *)
Definition lookup_spec (key : text) (c : gmap text Spec) : option Spec * gmap text Spec :=
  match c !! key with
  | Some spec => (Some spec, c)
  | None => match compile key with Some spec => (Some spec, <[key := spec]> c) | None => (None, c) end
  end.

Definition matches_pattern (path : text) (pattern : option text) (c : gmap text Spec) : result error bool * gmap text Spec :=
  match pattern with
  | None => (Err TypeError, c)
  | Some p =>
      if blank p then (Ok false, c)
      else
        let normalized_path := _normalize_path path in
        let normalized_pattern := _normalize_path (strip p) in
        if decide (normalized_pattern = []) then (Ok false, c)
        else
          let key := _normalize_pattern_for_gitwildmatch normalized_pattern in
          let '(spec, c') := lookup_spec key c in
          (match spec ≫= λ s, match_file s normalized_path with
           | Some b => Ok b
           | None => Err ValueError
           end, c')
  end.

(** Patterns that raise are skipped. *)
Fixpoint matches_any_pattern (path : text) (patterns : list (option text)) (c : gmap text Spec) : bool * gmap text Spec :=
  match patterns with
  | [] => (false, c)
  | p :: ps =>
      match matches_pattern path p c with
      | (Ok true, c') => (true, c')
      | (_, c') => matches_any_pattern path ps c'
      end
  end.

(** ** The cache is transparent *)

Definition coherent (c : gmap text Spec) : Prop := ∀ key spec, c !! key = Some spec → compile key = Some spec.

Lemma lookup_spec_coherent key c : coherent c → (lookup_spec key c).1 = compile key ∧ coherent (lookup_spec key c).2.
Proof.
  intros Hc. unfold lookup_spec. destruct (c !! key) as [spec|] eqn:E; [by rewrite (Hc _ _ E)|].
  destruct (compile key) as [spec|] eqn:Ec; [|done]. split; [done|]. intros k s. cbn [snd].
  destruct (decide (key = k)) as [->|]; [rewrite lookup_insert_eq; congruence|rewrite lookup_insert_ne by done; apply Hc].
Qed.

(** The answer for one pattern when it is compiled afresh. *)
Definition direct (path : text) (pattern : option text) : result error bool :=
  match pattern with
  | None => Err TypeError
  | Some p =>
      let key := _normalize_path (strip p) in
      if blank p || bool_decide (key = []) then Ok false
      else
        match compile (_normalize_pattern_for_gitwildmatch key) ≫= λ s, match_file s (_normalize_path path) with
        | Some b => Ok b
        | None => Err ValueError
        end
  end.

Lemma matches_pattern_coherent path pattern c :
  coherent c → (matches_pattern path pattern c).1 = direct path pattern ∧
  coherent (matches_pattern path pattern c).2.
Proof.
  intros Hc. unfold matches_pattern, direct. destruct pattern as [p|]; [|done]. destruct (blank p); [done|]. cbn [orb].
  case_decide; [by rewrite bool_decide_eq_true_2 by done|]. rewrite bool_decide_eq_false_2 by done.
  set (key := _normalize_pattern_for_gitwildmatch _).
  destruct (lookup_spec_coherent key c Hc) as [H1 H2]. destruct (lookup_spec key c). cbn in *. by rewrite H1.
Qed.

Definition run_step (acc : list bool * gmap text Spec) (q : text * list (option text)) : list bool * gmap text Spec :=
  let '(b, c') := matches_any_pattern q.1 q.2 acc.2 in (acc.1 ++ [b], c').

Lemma matches_any_coherent path patterns c :
  coherent c →
  (matches_any_pattern path patterns c).1 = existsb (λ p, match direct path p with Ok b => b | Err _ => false end) patterns ∧
  coherent (matches_any_pattern path patterns c).2.
Proof.
  revert c. induction patterns as [|p ps IH]; intros c Hc; [done|]. cbn [matches_any_pattern existsb].
  destruct (matches_pattern_coherent path p c Hc) as [H1 H2]. 
  destruct (matches_pattern path p c) as [r c']. cbn in *. rewrite <-H1.
  destruct r as [[]|]; cbn [orb]; [done| |]; by apply IH.
Qed.

Definition run (qs : list (text * list (option text))) : list bool * gmap text Spec := foldl run_step ([], ∅) qs.

Lemma run_steps qs acc : coherent acc.2 →
  (foldl run_step acc qs).1 =
  acc.1 ++ ((λ q, existsb (λ p, match direct q.1 p with Ok b => b | Err _ => false end) q.2) <$> qs) ∧
  coherent (foldl run_step acc qs).2.
Proof.
  revert acc. induction qs as [|[path ps] qs IH]; intros [out c] Hc; cbn in *; [by rewrite app_nil_r|].
  unfold run_step at 2 4. cbn. destruct (matches_any_coherent path ps c Hc) as [H1 H2].
  destruct (matches_any_pattern path ps c) as [b c']. cbn in *. subst b.
  destruct (IH (out ++ [existsb (λ p, match direct path p with Ok b => b | Err _ => false end) ps], c') H2) as [-> ?].
  cbn. by rewrite <-app_assoc.
Qed.

(** The pattern cache is invisible: whatever was asked of the matcher before, each
    of its answers is whether some pattern, compiled afresh, matches, a pattern that is
    missing or that the library rejects counting as no match. *)
Theorem matcher_cache_transparent qs :
  (run qs).1 = (λ q, existsb (λ p, match direct q.1 p with Ok b => b | Err _ => false end) q.2) <$> qs.
Proof. apply (run_steps qs ([], ∅)). intros key spec. cbn. by rewrite lookup_empty. Qed.
End matcher.
End PatternMatcher.

Module FilterBuilder.

(** JSON-like values, as far as the filters use them. *)
Inductive Value :=
  | VStr (s : text)
  | VList (l : list Value)
  | VDict (d : list (string * Value))
  | VOther.

Definition _normalize_pattern (pattern : text) : text := replace_char backslash slash pattern.

Definition path_condition (pattern : text) : Value :=
  VDict [("key", VStr (txt "path")); ("match", VDict [("text", VStr (_normalize_pattern (strip pattern)))])].

Definition must_not_conditions (patterns : list text) : list Value :=
  path_condition <$> filter (λ p, blank p = false) patterns.

Definition build_exclusion_filter (patterns : list text) : list (string * Value) :=
  match must_not_conditions patterns with
  | [] => []
  | conds => [("must_not", VList conds)]
  end.

Definition has {V} (k : string) (d : list (string * V)) : bool := bool_decide (is_Some (dget k d)).

Definition valid_keys : list string := ["must"; "must_not"; "should"].

Definition valid_condition (c : Value) : bool :=
  match c with
  | VDict d => has "key" d && (has "match" d || has "text" d)
  | _ => false
  end.

Definition validate_filter_structure (filter_dict : Value) : bool :=
  match filter_dict with
  | VDict d =>
      forallb (λ kv, bool_decide (kv.1 ∈ valid_keys)) d &&
      forallb (λ k, match dget k d with
                    | None => true
                    | Some (VList conds) => forallb valid_condition conds
                    | Some _ => false
                    end) valid_keys
  | _ => false
  end.

Lemma build_exclusion_valid patterns : validate_filter_structure (VDict (build_exclusion_filter patterns)) = true.
Proof.
  unfold build_exclusion_filter. assert (forallb valid_condition (must_not_conditions patterns) = true) as H.
  { apply forallb_forall. intros c (p&->&_)%list_elem_of_In%list_elem_of_fmap. done. }
  destruct (must_not_conditions patterns) as [|c cs]; [done|].
  change (forallb valid_condition (c :: cs) && true = true). by rewrite H.
Qed.

(** Condition lists are mutable objects: a filter holds their locations. [copy] is
    shallow, so the copy and the original share them; the heap [h] holds the lists. *)
Definition Filter := list (string * nat).

Definition add_path_exclusions (base_filters : Filter) (patterns : list text) (h : list (list Value)) : Filter * list (list Value) :=
  match must_not_conditions patterns with
  | [] => (base_filters, h)
  | conds =>
      match dget "must_not" base_filters with
      | Some l => (base_filters, alter (λ old, old ++ conds) l h)
      | None => (dset "must_not" (length h) base_filters, h ++ [conds])
      end
  end.

Definition conditions (d : Filter) (h : list (list Value)) (k : string) : option (list Value) := dget k d ≫= λ l, h !! l.

(** Every list of the filter exists, and no two keys share one. *)
Definition filter_wf (d : Filter) (h : list (list Value)) : Prop :=
  (∀ k l, dget k d = Some l → l < length h) ∧
  (∀ k k' l, dget k d = Some l → dget k' d = Some l → k = k').

(** The merged filter keeps every condition and adds the exclusions. *)
Lemma add_path_exclusions_spec base patterns h : filter_wf base h →
  let '(d, h') := add_path_exclusions base patterns h in
  conditions d h' "must_not" =
    (if decide (must_not_conditions patterns = []) then conditions base h "must_not"
     else Some (default [] (conditions base h "must_not") ++ must_not_conditions patterns)) ∧
  ∀ k, k ≠ "must_not" → conditions d h' k = conditions base h k.
Proof.
  intros [Hlt Hinj]. unfold add_path_exclusions, conditions.
  destruct (must_not_conditions patterns) as [|c cs]; [by rewrite decide_True|]. rewrite decide_False by done.
  destruct (dget "must_not" base) as [l|] eqn:E; cbn [mbind option_bind].
  - split.
    + rewrite E. cbn. rewrite list_lookup_alter_eq. destruct (lookup_lt_is_Some_2 h l) as [old Hold]; [eauto|].
      by rewrite Hold.
    + intros k Hk. destruct (dget k base) as [l'|] eqn:E'; [|done]. cbn. apply list_lookup_alter_ne. intros ->. eauto.
  - split.
    + rewrite dget_dset_eq. cbn. by rewrite lookup_app_r, Nat.sub_diag.
    + intros k Hk. rewrite dget_dset_ne by done. destruct (dget k base) as [l'|] eqn:E'; [|done]. cbn.
      by rewrite lookup_app_l by eauto.
Qed.

(** When the caller's filter already has exclusions, its own list grows as well. *)
Lemma add_path_exclusions_mutates_base base patterns h l :
  dget "must_not" base = Some l →
  let '(d, h') := add_path_exclusions base patterns h in
  d = base ∧ conditions base h' "must_not" = (λ old, old ++ must_not_conditions patterns) <$> h !! l.
Proof.
  intros E. unfold add_path_exclusions, conditions. rewrite E.
  destruct (must_not_conditions patterns) as [|c cs]; (split; [done|]); cbn.
  - destruct (h !! l) as [old|]; [|done]. cbn. by rewrite app_nil_r.
  - by rewrite list_lookup_alter_eq.
Qed.
End FilterBuilder.

Module ConflictDetector.
Local Open Scope nat_scope.

Inductive Severity := SError | SWarning.
#[export] Instance Severity_eq_dec : EqDecision Severity.
Proof. solve_decision. Defined.

Record FilterConflict := { severity : Severity; message : text; affected_items : list text }.

Definition EXCESSIVE_EXCLUSION_THRESHOLD : nat := 5.

(** [str(n)]. *)
Definition str_nat (n : nat) : text := txt (pretty n).

Definition clean (path : text) : text := strip_by (λ c, (c =? star)%N) (replace_char backslash slash path).

Definition _is_path_overlap (path1 path2 : text) : bool :=
  contains (clean path1) (clean path2) || contains (clean path2) (clean path1).

Definition _is_more_specific (path1 path2 : text) : bool :=
  if contains (clean path2) (clean path1)
  then count_char slash (clean path2) <? count_char slash (clean path1) else false.

Definition language_conflict (lang : text) : FilterConflict :=
  {| severity := SError;
     message := txt "Language '" ++ lang ++ txt "' is both included and excluded. Exclusion will override inclusion, resulting in no "
                ++ lang ++ txt " files.";
     affected_items := [lang] |}.

Definition path_conflict (path : text) : FilterConflict :=
  {| severity := SError;
     message := txt "Path pattern '" ++ path ++ txt "' is both included and excluded. This will exclude all matching files.";
     affected_items := [path] |}.

Definition overlap_warning (inc_path exc_path : text) : FilterConflict :=
  {| severity := SWarning;
     message := txt "Path inclusion '" ++ inc_path ++ txt "' may conflict with exclusion '" ++ exc_path
                ++ txt "'. Verify this produces expected results.";
     affected_items := [inc_path; exc_path] |}.

Definition over_exclusion (exclude_languages : list text) : FilterConflict :=
  {| severity := SWarning;
     message := txt "Excluding " ++ str_nat (length exclude_languages)
                ++ txt " languages without any inclusion filters may result in unexpected results. Consider using --language to specify what you want instead.";
     affected_items := exclude_languages |}.

Definition path_warning (inc_path exc_path : text) : list FilterConflict :=
  if _is_path_overlap inc_path exc_path && bool_decide (inc_path ≠ exc_path) && negb (_is_more_specific exc_path inc_path)
  then [overlap_warning inc_path exc_path] else [].

Lemma elem_of_path_warning c i e :
  c ∈ path_warning i e ↔
  c = overlap_warning i e ∧ i ≠ e ∧ _is_path_overlap i e = true ∧ _is_more_specific e i = false.
Proof.
  unfold path_warning. destruct (_is_path_overlap i e), (_is_more_specific e i); cbn [andb negb]; rewrite ?andb_false_r, ?andb_true_r;
    destruct (bool_decide (i ≠ e)) eqn:E; try apply bool_decide_eq_true in E; try apply bool_decide_eq_false in E;
    rewrite ?list_elem_of_singleton, ?elem_of_nil; naive_solver.
Qed.

Section detector.
(** Unicode lower case, and the order in which Python walks through a set. *)
Context (lower : text → text) (iter : gset text → list text).

Definition _detect_language_conflicts (include_languages exclude_languages : list text) : list FilterConflict :=
  language_conflict <$>
    iter (list_to_set (lower <$> include_languages) ∩ list_to_set (lower <$> exclude_languages)).

Definition _detect_path_conflicts (include_paths exclude_paths : list text) : list FilterConflict :=
  (path_conflict <$> iter (list_to_set include_paths ∩ list_to_set exclude_paths)) ++
  (include_paths ≫= λ inc_path, exclude_paths ≫= λ exc_path, path_warning inc_path exc_path).

Definition _detect_over_exclusion (include_languages exclude_languages : list text) : list FilterConflict :=
  if bool_decide (include_languages = []) && (EXCESSIVE_EXCLUSION_THRESHOLD <=? length exclude_languages)
  then [over_exclusion exclude_languages] else [].

Definition detect_conflicts (include_languages exclude_languages include_paths exclude_paths : option (list text)) : list FilterConflict :=
  let il := default [] include_languages in
  let el := default [] exclude_languages in
  let ip := default [] include_paths in
  let ep := default [] exclude_paths in
  _detect_language_conflicts il el ++ _detect_path_conflicts ip ep ++ _detect_over_exclusion il el.

Definition bullet : text := [32; 32; 8226; 32]%N.

Definition format_conflicts_for_display (conflicts : list FilterConflict) : list text :=
  let errors := filter (λ c, bool_decide (severity c = SError)) conflicts in
  let warnings := filter (λ c, bool_decide (severity c = SWarning)) conflicts in
  let shown := λ c, bullet ++ message c in
  (match errors with [] => [] | _ => (128683%N :: txt " Filter Conflicts (Errors):") :: (shown <$> errors) end) ++
  (match warnings with
   | [] => []
   | _ => (match errors with [] => [] | _ => [[]] end) ++
          (9888%N :: 65039%N :: txt "  Filter Warnings:") :: (shown <$> warnings)
   end).

Context (iter_elements : ∀ X, iter X ≡ₚ elements X).

Lemma elem_of_iter x X : x ∈ iter X ↔ x ∈ X.
Proof using iter_elements. by rewrite iter_elements, elem_of_elements. Qed.

(** The conflicts reported are exactly: an error for every language, compared in
    lower case, and for every path pattern that is both included and excluded, a
    warning for every inclusion and different exclusion that overlap unless the
    exclusion lies deeper inside the inclusion, and one warning when five or more
    languages are excluded and none included. *)
Theorem detect_conflicts_spec include_languages exclude_languages include_paths exclude_paths c :
  let il := default [] include_languages in
  let el := default [] exclude_languages in
  let ip := default [] include_paths in
  let ep := default [] exclude_paths in
  c ∈ detect_conflicts include_languages exclude_languages include_paths exclude_paths ↔
  (∃ lang, c = language_conflict lang ∧ lang ∈ lower <$> il ∧ lang ∈ lower <$> el) ∨
  (∃ path, c = path_conflict path ∧ path ∈ ip ∧ path ∈ ep) ∨
  (∃ i e, c = overlap_warning i e ∧ i ∈ ip ∧ e ∈ ep ∧ i ≠ e ∧
     _is_path_overlap i e = true ∧ _is_more_specific e i = false) ∨
  (c = over_exclusion el ∧ il = [] ∧ EXCESSIVE_EXCLUSION_THRESHOLD ≤ length el).
Proof using iter_elements.
  cbn zeta. unfold detect_conflicts, _detect_language_conflicts, _detect_path_conflicts, _detect_over_exclusion.
  generalize (default [] include_languages) (default [] exclude_languages) (default [] include_paths) (default [] exclude_paths).
  intros il el ip ep. rewrite !elem_of_app, !list_elem_of_fmap, list_elem_of_bind. setoid_rewrite list_elem_of_bind.
  setoid_rewrite elem_of_iter. setoid_rewrite elem_of_intersection. setoid_rewrite elem_of_list_to_set.
  setoid_rewrite elem_of_path_warning.
  assert (c ∈ (if bool_decide (il = []) && (EXCESSIVE_EXCLUSION_THRESHOLD <=? length el) then [over_exclusion el] else []) ↔
    c = over_exclusion el ∧ il = [] ∧ EXCESSIVE_EXCLUSION_THRESHOLD ≤ length el) as ->; [|naive_solver].
  destruct (bool_decide_reflect (il = [])), (Nat.leb_spec EXCESSIVE_EXCLUSION_THRESHOLD (length el)); cbn [andb];
    rewrite ?list_elem_of_singleton, ?elem_of_nil; try naive_solver lia.
Qed.
End detector.

Lemma detect_conflicts_spec_witness :
  let src := txt "src/*" in
  path_conflict src ∈ detect_conflicts ascii_lower elements None None (Some [src]) (Some [txt "src/tests/*"; src]).
Proof.
  intros src. refine (proj2 (detect_conflicts_spec ascii_lower elements (λ X, Permutation_refl _) None None (Some [src]) (Some [txt "src/tests/*"; src]) _) _).
  right. left. exists src. split; [reflexivity|]. split; cbn; set_solver.
Defined.

(** The display shows the message of every conflict. *)
Lemma format_shows_all conflicts c :
  c ∈ conflicts → bullet ++ message c ∈ format_conflicts_for_display conflicts.
Proof.
  intros Hc. unfold format_conflicts_for_display.
  assert (∀ s (l : list FilterConflict), s = severity c → c ∈ l → c ∈ filter (λ c, bool_decide (severity c = s)) l) as Hin.
  { intros s l -> ?. apply list_elem_of_filter. split; [by apply bool_decide_pack|done]. }
  destruct (severity c) eqn:E.
  - specialize (Hin SError conflicts eq_refl Hc). apply elem_of_app. left.
    destruct (filter _ conflicts); [by apply elem_of_nil in Hin|]. right. by apply (list_elem_of_fmap_2 (λ c, bullet ++ message c)).
  - specialize (Hin SWarning conflicts eq_refl Hc). apply elem_of_app. right.
    destruct (filter (λ c, bool_decide (severity c = SWarning)) conflicts); [by apply elem_of_nil in Hin|]. apply elem_of_app. right. right.
    by apply (list_elem_of_fmap_2 (λ c, bullet ++ message c)).
Qed.
End ConflictDetector.
