(* ===== verification/RefreshTokens.v ===== *)
(** * Refresh tokens with family tracking

    src/src/code_indexer/server/auth/refresh_token_manager.py over its SQLite tables,
    and the storage backends [RefreshTokenSqliteBackend] of
    src/src/code_indexer/server/storage/sqlite_backends.py and
    src/src/code_indexer/server/storage/postgres/refresh_token_backend.py, whose
    statements are the same.

    The two tables are one state; an [execute_atomic] block is one step that is rolled
    back when a constraint fails.  Random identifiers and tokens, clock readings, the
    digest and the JWT are arguments.  Times are microseconds since the epoch: ISO texts
    of one time zone compare as the times do. *)

From S2P Require Import Prelude.
From stdpp Require Import options.
Local Open Scope Z_scope.

Module RefreshTokens.

Record TokenFamily := {
  f_username : string; f_created_at : Z; last_used_at : Z;
  is_revoked : bool; revocation_reason : option string }.

Record RefreshTokenRecord := {
  token_id : string; family_id : string; username : string; token_hash : string;
  created_at : Z; expires_at : Z; is_used : bool; used_at : option Z;
  parent_token_id : option string }.

(** The tables; tokens in the order of insertion. *)
Record db := { families : gmap string TokenFamily; tokens : list RefreshTokenRecord }.

(** A violated primary or foreign key. *)
Inductive error := IntegrityError.

(** ** Statements *)

Definition insert_family (fid user : string) (now : Z) (d : db) : result error db :=
  match families d !! fid with
  | Some _ => Err IntegrityError
  | None =>
      Ok {| families := <[fid := {| f_username := user; f_created_at := now; last_used_at := now;
                                    is_revoked := false; revocation_reason := None |}]> (families d);
            tokens := tokens d |}
  end.

Definition get_token_family (fid : string) (d : db) : option TokenFamily := families d !! fid.

Definition set_revoked (reason : string) (f : TokenFamily) : TokenFamily :=
  {| f_username := f_username f; f_created_at := f_created_at f; last_used_at := last_used_at f;
     is_revoked := true; revocation_reason := Some reason |}.

Definition revoke_family (fid reason : string) (d : db) : db :=
  {| families := alter (set_revoked reason) fid (families d); tokens := tokens d |}.

(** The families an update for one user touches. *)
Definition live_of (user : string) (f : TokenFamily) : bool :=
  bool_decide (f_username f = user) && negb (is_revoked f).

Definition revoke_user_families (user reason : string) (d : db) : nat * db :=
  (size (filter (λ kf, live_of user kf.2) (families d)),
   {| families := (λ f, if live_of user f then set_revoked reason f else f) <$> families d; tokens := tokens d |}).

Definition update_family_last_used (fid : string) (now : Z) (d : db) : db :=
  {| families := alter (λ f, {| f_username := f_username f; f_created_at := f_created_at f; last_used_at := now;
                                is_revoked := is_revoked f; revocation_reason := revocation_reason f |}) fid (families d);
     tokens := tokens d |}.

Definition store_refresh_token (tid fid user hash : string) (created expires : Z) (parent : option string) (d : db) :
    result error db :=
  if bool_decide (tid ∈ token_id <$> tokens d) || bool_decide (families d !! fid = None) then Err IntegrityError
  else Ok {| families := families d;
             tokens := tokens d ++ [{| token_id := tid; family_id := fid; username := user; token_hash := hash;
               created_at := created; expires_at := expires; is_used := false; used_at := None;
               parent_token_id := parent |}] |}.

Definition get_refresh_token_by_hash (hash : string) (d : db) : option RefreshTokenRecord :=
  head (filter (λ t, token_hash t = hash) (tokens d)).

Definition use (now : Z) (t : RefreshTokenRecord) : RefreshTokenRecord :=
  {| token_id := token_id t; family_id := family_id t; username := username t; token_hash := token_hash t;
     created_at := created_at t; expires_at := expires_at t; is_used := true; used_at := Some now;
     parent_token_id := parent_token_id t |}.

Definition mark_token_used (tid : string) (now : Z) (d : db) : db :=
  {| families := families d;
     tokens := (λ t, if decide (token_id t = tid) then use now t else t) <$> tokens d |}.

Definition active_in (fid : string) (t : RefreshTokenRecord) : bool :=
  bool_decide (family_id t = fid) && negb (is_used t).

Definition count_active_tokens_in_family (fid : string) (d : db) : nat := length (filter (λ t, active_in fid t) (tokens d)).

Definition delete_expired_tokens (now : Z) (d : db) : nat * db :=
  (length (filter (λ t, expires_at t < now) (tokens d)),
   {| families := families d; tokens := filter (λ t, ¬ expires_at t < now) (tokens d) |}).

Definition delete_orphaned_families (d : db) : db :=
  {| families := filter (λ kf, kf.1 ∈ family_id <$> tokens d) (families d); tokens := tokens d |}.

(** ** Facts on the statements *)

Lemma by_hash_Some h d t :
  get_refresh_token_by_hash h d = Some t → t ∈ tokens d ∧ token_hash t = h.
Proof.
  unfold get_refresh_token_by_hash. intros Ht. assert (t ∈ filter (λ t, token_hash t = h) (tokens d)) as Hin.
  { destruct (filter _ (tokens d)); [done|]. cbn in Ht. simplify_eq. left. }
  by apply list_elem_of_filter in Hin as [? ?].
Qed.

Lemma by_hash_None h d : get_refresh_token_by_hash h d = None ↔ h ∉ token_hash <$> tokens d.
Proof.
  unfold get_refresh_token_by_hash. induction (tokens d) as [|t ts IH]; [split; [set_solver|done]|].
  rewrite filter_cons, fmap_cons, not_elem_of_cons. case_decide; cbn; naive_solver.
Qed.

Lemma mark_used_hash tid now d : token_hash <$> tokens (mark_token_used tid now d) = token_hash <$> tokens d.
Proof. cbn. rewrite <-list_fmap_compose. apply list_fmap_ext. intros i t' _. cbn. by case_decide. Qed.

Lemma mark_used_id tid now d : token_id <$> tokens (mark_token_used tid now d) = token_id <$> tokens d.
Proof. cbn. rewrite <-list_fmap_compose. apply list_fmap_ext. intros i t' _. cbn. by case_decide. Qed.
Lemma mark_absent tid now (ts : list RefreshTokenRecord) : tid ∉ token_id <$> ts → (λ t, if decide (token_id t = tid) then use now t else t) <$> ts = ts.
Proof.
  intros Hn. rewrite <-(list_fmap_id ts) at 2. apply list_fmap_ext. intros i t Ht. cbn. rewrite decide_False; [done|].
  intros <-. apply Hn, list_elem_of_fmap_2. by eapply list_elem_of_lookup_2.
Qed.

(** Using a token takes one active token from its family. *)
Lemma mark_used_active t now d fid :
  NoDup (token_id <$> tokens d) → t ∈ tokens d → is_used t = false →
  (count_active_tokens_in_family fid (mark_token_used (token_id t) now d) + (if decide (family_id t = fid) then 1 else 0)
   = count_active_tokens_in_family fid d)%nat.
Proof.
  unfold count_active_tokens_in_family, mark_token_used, active_in. cbn [tokens].
  induction (tokens d) as [|x ts IH]; [intros _ []%elem_of_nil|]. rewrite !fmap_cons, NoDup_cons. intros [Hx Hnd] Hin Hu.
  destruct (decide (token_id x = token_id t)) as [He|Hne].
  - apply elem_of_cons in Hin as [<-|Hin]; [|exfalso; apply Hx; rewrite He; by apply list_elem_of_fmap_2].
    rewrite mark_absent by done. rewrite !filter_cons. cbn. rewrite Hu, andb_true_r, andb_false_r.
    rewrite decide_False by (by intros []). destruct (decide (family_id t = fid)) as [H1|H1].
    + rewrite decide_True by (by apply bool_decide_pack). cbn. lia.
    + rewrite decide_False by (by intros ?%bool_decide_unpack). lia.
  - apply elem_of_cons in Hin as [->|Hin]; [done|]. specialize (IH Hnd Hin Hu). rewrite !filter_cons.
    destruct (decide (bool_decide (family_id x = fid) && negb (is_used x))); cbn; lia.
Qed.

(** ** Revocation and clean-up *)

Definition revoke_token_family (fid reason : string) (d : db) : nat * db :=
  (count_active_tokens_in_family fid d, revoke_family fid reason d).

Definition revoke_user_tokens (user reason : string) (d : db) : nat * db := revoke_user_families user reason d.

Definition cleanup_expired_tokens (now : Z) (d : db) : nat * db :=
  let '(n, d1) := delete_expired_tokens now d in (n, delete_orphaned_families d1).

(** ** The invariant of the tables *)

Record inv (d : db) : Prop := {
  inv_hash : NoDup (token_hash <$> tokens d);
  inv_id : NoDup (token_id <$> tokens d);
  inv_family : ∀ t, t ∈ tokens d → ∃ f, families d !! family_id t = Some f ∧ f_username f = username t;
  inv_active : ∀ fid, (count_active_tokens_in_family fid d ≤ 1)%nat }.

Definition keeps (d d' : db) : Prop :=
  ∀ fid f, families d !! fid = Some f → ∃ f', families d' !! fid = Some f' ∧ f_username f' = f_username f.

(** Changes of families that keep the users keep the invariant. *)
Lemma inv_families d d' : inv d → tokens d' = tokens d → keeps d d' → inv d'.
Proof.
  intros [H1 H2 H3 H4] Ht Hf. split; unfold count_active_tokens_in_family in *; rewrite ?Ht; [done|done| |done].
  intros t (f&Hl&Hu)%H3. destruct (Hf _ _ Hl) as (f'&?&?). exists f'. split; [done|congruence].
Qed.

Lemma keeps_alter g fid d : (∀ f, f_username (g f) = f_username f) →
  keeps d {| families := alter g fid (families d); tokens := tokens d |}.
Proof.
  intros Hg k f Hf. cbn. destruct (decide (k = fid)) as [->|Hne].
  - rewrite lookup_alter_eq, Hf. eexists. split; [done|apply Hg].
  - rewrite lookup_alter_ne by done. eauto.
Qed.

Lemma inv_revoke_family fid reason d : inv d → inv (revoke_family fid reason d).
Proof. intros Hi. apply (inv_families d); [done|done|]. by apply keeps_alter. Qed.

Lemma inv_revoke_user user reason d : inv d → inv (revoke_user_families user reason d).2.
Proof.
  intros Hi. apply (inv_families d); [done|done|]. intros fid f Hf. cbn. rewrite lookup_fmap, Hf. cbn.
  eexists. split; [done|]. by destruct (live_of user f).
Qed.

Lemma inv_insert_family fid user now d d' : inv d → insert_family fid user now d = Ok d' → inv d'.
Proof.
  intros Hi. unfold insert_family. destruct (families d !! fid) eqn:E; [done|]. intros [= <-].
  apply (inv_families d); [done|done|]. intros k f Hf. cbn. exists f. split; [|done].
  rewrite lookup_insert_ne; [done|]. intros ->. congruence.
Qed.

Lemma inv_cleanup now d : inv d → inv (cleanup_expired_tokens now d).2.
Proof.
  intros [H1 H2 H3 H4]. cbn. set (kept := filter _ (tokens d)). assert (kept `sublist_of` tokens d) as Hsub by apply sublist_filter.
  split; cbn.
  - eapply sublist_NoDup; [exact H1|]. by apply fmap_sublist.
  - eapply sublist_NoDup; [exact H2|]. by apply fmap_sublist.
  - intros t Ht. destruct (H3 t) as (f&Hl&Hu); [by eapply sublist_elem_of|]. exists f. split; [|done].
    apply map_lookup_filter_Some. split; [done|]. cbn. by apply list_elem_of_fmap_2.
  - intros fid. etransitivity; [|apply (H4 fid)]. unfold count_active_tokens_in_family. cbn. apply sublist_length.
    by apply sublist_filter_mono.
Qed.

(** The invariant survives an insertion for a family without active token. *)
Lemma inv_store tid fid user h created expires parent d d' :
  inv d → (h ∉ token_hash <$> tokens d) → (∀ f, families d !! fid = Some f → f_username f = user) →
  count_active_tokens_in_family fid d = 0%nat →
  store_refresh_token tid fid user h created expires parent d = Ok d' → inv d'.
Proof.
  intros [H1 H2 H3 H4] Hh Hu Hact. unfold store_refresh_token. case_bool_decide as Hid; cbn [orb]; [done|].
  case_bool_decide as Hf; [done|]. intros [= <-]. split; cbn [tokens families].
  - rewrite fmap_app. apply NoDup_app. split_and!; [done|set_solver|apply NoDup_singleton].
  - rewrite fmap_app. apply NoDup_app. split_and!; [done|set_solver|apply NoDup_singleton].
  - intros t [Ht| ->%list_elem_of_singleton]%elem_of_app; [eauto|]. cbn. destruct (families d !! fid) as [f|]; [eauto|done].
  - intros k. unfold count_active_tokens_in_family in *. cbn [tokens]. rewrite filter_app, length_app.
    specialize (H4 k). rewrite filter_cons, filter_nil. case_decide as Ha; cbn; [|lia].
    unfold active_in in Ha. cbn in Ha. rewrite andb_true_r in Ha. apply bool_decide_unpack in Ha. subst k. lia.
Qed.

(** ** The manager on its own tables *)

Section manager.
Context (hash_token : string → string) (refresh_token_lifetime : Z).

Definition create_token_family (fid user : string) (now : Z) (d : db) : result error db := insert_family fid user now d.

Definition create_initial_refresh_token (fid user token tid : string) (now : Z) (d : db) : result error db :=
  store_refresh_token tid fid user (hash_token token) now (now + refresh_token_lifetime) None d.

(** What the transaction of a rotation finds. *)
Inductive outcome :=
  | Unknown
  | Replay (fid user : string)
  | Expired
  | Revoked (reason : option string)
  | Rotated (tid fid user : string).

(** [now] is the clock at the expiry check, [rotate_now] at the update. *)
Definition rotate (token new_token new_tid : string) (now rotate_now : Z) (d : db) : result error (outcome * db) :=
  match get_refresh_token_by_hash (hash_token token) d with
  | None => Ok (Unknown, d)
  | Some t =>
      if is_used t then Ok (Replay (family_id t) (username t), d)
      else if expires_at t <? now then Ok (Expired, d)
      else match families d !! family_id t with
           | None => Ok (Revoked None, d)
           | Some f =>
               if is_revoked f then Ok (Revoked (revocation_reason f), d)
               else
                 let d1 := update_family_last_used (family_id t) rotate_now (mark_token_used (token_id t) rotate_now d) in
                 match store_refresh_token new_tid (family_id t) (username t) (hash_token new_token) rotate_now
                         (rotate_now + refresh_token_lifetime) (Some (token_id t)) d1 with
                 | Err e => Err e
                 | Ok d2 => Ok (Rotated (token_id t) (family_id t) (username t), d2)
                 end
           end
  end.

(** What the caller is told. *)
Inductive response :=
  | InvalidToken
  | ReplayDetected
  | TokenExpired
  | TokenRevoked (reason : option string)
  | NewTokens (user role new_refresh_token fid tid parent : string).

(** The role is looked up outside the lock; without an answer it is [normal_user]. *)
Definition validate_and_rotate_refresh_token (token new_token new_tid : string) (now rotate_now : Z)
    (role : option string) (d : db) : result error response * db :=
  match rotate token new_token new_tid now rotate_now d with
  | Err e => (Err e, d)
  | Ok (Unknown, d') => (Ok InvalidToken, d')
  | Ok (Replay fid user, d') => (Ok ReplayDetected, revoke_family fid "replay_attack" d')
  | Ok (Expired, d') => (Ok TokenExpired, d')
  | Ok (Revoked reason, d') => (Ok (TokenRevoked reason), d')
  | Ok (Rotated tid fid user, d') => (Ok (NewTokens user (default "normal_user" role) new_token fid new_tid tid), d')
  end.

(** ** The manager on a backend *)

(** The same rotation as separate transactions; [store_ok] tells whether the last one
    succeeds. *)
Definition rotate_backend (store_ok : bool) (token new_token new_tid : string) (now rotate_now : Z) (d : db) :
    result error outcome * db :=
  match get_refresh_token_by_hash (hash_token token) d with
  | None => (Ok Unknown, d)
  | Some t =>
      if is_used t then (Ok (Replay (family_id t) (username t)), d)
      else if expires_at t <? now then (Ok Expired, d)
      else match get_token_family (family_id t) d with
           | None => (Ok (Revoked None), d)
           | Some f =>
               if is_revoked f then (Ok (Revoked (revocation_reason f)), d)
               else
                 let d1 := mark_token_used (token_id t) rotate_now d in
                 let d2 := update_family_last_used (family_id t) rotate_now d1 in
                 match (if store_ok
                        then store_refresh_token new_tid (family_id t) (username t) (hash_token new_token) rotate_now
                               (rotate_now + refresh_token_lifetime) (Some (token_id t)) d2
                        else Err IntegrityError) with
                 | Err e => (Err e, d2)
                 | Ok d3 => (Ok (Rotated (token_id t) (family_id t) (username t)), d3)
                 end
           end
  end.

(** ** Runs *)

Inductive op :=
  | CreateFamily (fid user : string) (now : Z)
  | InitialToken (fid user token tid : string) (now : Z)
  | Refresh (token new_token new_tid : string) (now rotate_now : Z) (role : option string)
  | RevokeFamily (fid reason : string)
  | RevokeUser (user reason : string)
  | Cleanup (now : Z).

(** A failed operation leaves the tables as they are. *)
Definition step (d : db) (o : op) : db :=
  match o with
  | CreateFamily fid user now => match create_token_family fid user now d with Ok d' => d' | Err _ => d end
  | InitialToken fid user token tid now =>
      match create_initial_refresh_token fid user token tid now d with Ok d' => d' | Err _ => d end
  | Refresh token new_token new_tid now rotate_now role =>
      (validate_and_rotate_refresh_token token new_token new_tid now rotate_now role d).2
  | RevokeFamily fid reason => (revoke_token_family fid reason d).2
  | RevokeUser user reason => (revoke_user_tokens user reason d).2
  | Cleanup now => (cleanup_expired_tokens now d).2
  end.

(** Generated tokens do not collide, and a login gives a new family its first token. *)
Definition fresh (d : db) (o : op) : Prop :=
  match o with
  | InitialToken fid user token _ _ =>
      (hash_token token ∉ token_hash <$> tokens d) ∧ (fid ∉ family_id <$> tokens d) ∧
      ∀ f, families d !! fid = Some f → f_username f = user
  | Refresh _ new_token _ _ _ _ => hash_token new_token ∉ token_hash <$> tokens d
  | _ => True
  end.

Fixpoint fresh_run (d : db) (ops : list op) : Prop :=
  match ops with
  | [] => True
  | o :: ops' => fresh d o ∧ fresh_run (step d o) ops'
  end.

(** ** Rotation *)

(** The new row of a rotation. *)
Definition successor (t : RefreshTokenRecord) (new_token new_tid : string) (now : Z) : RefreshTokenRecord :=
  {| token_id := new_tid; family_id := family_id t; username := username t; token_hash := hash_token new_token;
     created_at := now; expires_at := now + refresh_token_lifetime; is_used := false; used_at := None;
     parent_token_id := Some (token_id t) |}.

Definition rotated (t : RefreshTokenRecord) (new_token new_tid : string) (now : Z) (d : db) : db :=
  {| families := families (update_family_last_used (family_id t) now d);
     tokens := tokens (mark_token_used (token_id t) now d) ++ [successor t new_token new_tid now] |}.

(** A rotation that succeeds found an unused, unexpired token of a live family. *)
Lemma rotate_Rotated token nt ntid now rnow d tid fid user d' :
  rotate token nt ntid now rnow d = Ok (Rotated tid fid user, d') →
  ∃ t f, t ∈ tokens d ∧ token_hash t = hash_token token ∧ token_id t = tid ∧ family_id t = fid ∧ username t = user ∧
    is_used t = false ∧ now ≤ expires_at t ∧ families d !! fid = Some f ∧ is_revoked f = false ∧
    (ntid ∉ token_id <$> tokens d) ∧ d' = rotated t nt ntid rnow d.
Proof.
  unfold rotate. destruct (get_refresh_token_by_hash _ d) as [t|] eqn:Et; [|done].
  destruct (is_used t) eqn:Eu; [done|]. destruct (Z.ltb_spec (expires_at t) now); [done|].
  destruct (families d !! family_id t) as [f|] eqn:Ef; [|done]. destruct (is_revoked f) eqn:Er; [done|].
  unfold store_refresh_token. case_bool_decide as Hid; cbn [orb]; [done|]. case_bool_decide; [done|].
  intros [= <- <- <- <-]. apply by_hash_Some in Et as [Hin Hh]. exists t, f. split_and!; try done.
  intros Hn. apply Hid. cbn. rewrite <-list_fmap_compose. erewrite list_fmap_ext; [exact Hn|].
  intros i t' _. cbn. by case_decide.
Qed.


Lemma inv_rotated token nt ntid now rnow d tid fid user d' :
  inv d → (hash_token nt ∉ token_hash <$> tokens d) →
  rotate token nt ntid now rnow d = Ok (Rotated tid fid user, d') → inv d'.
Proof.
  intros Hi Hh Hr. apply rotate_Rotated in Hr as (t&f&Hin&_&<-&<-&<-&Hu&_&Hf&_&Hid&->).
  set (d1 := update_family_last_used (family_id t) rnow (mark_token_used (token_id t) rnow d)).
  assert (inv d1) as Hi1.
  { destruct Hi as [H1 H2 H3 H4]. apply (inv_families (mark_token_used (token_id t) rnow d)); [|done|by apply keeps_alter].
    split; [by rewrite mark_used_hash|by rewrite mark_used_id| |].
    - intros x (y&->&Hy)%list_elem_of_fmap. destruct (H3 y Hy) as (g&?&?). exists g. by case_decide.
    - intros k. specialize (H4 k). pose proof (mark_used_active t rnow d k H2 Hin Hu). lia. }
  eapply (inv_store ntid (family_id t) (username t) (hash_token nt) rnow (rnow + refresh_token_lifetime) (Some (token_id t)) d1); [done| | | |].
  - unfold d1. cbn [update_family_last_used tokens]. by rewrite mark_used_hash.
  - intros g Hg. destruct (inv_family _ Hi1 (use rnow t)) as (g'&Hg'&Hu').
    { cbn. apply list_elem_of_fmap. exists t. by rewrite decide_True. }
    cbn in Hg'. cbn in Hu'. unfold d1 in Hg. cbn in Hg. congruence.
  - pose proof (mark_used_active t rnow d (family_id t) (inv_id _ Hi) Hin Hu) as Hc. rewrite decide_True in Hc by done.
    pose proof (inv_active _ Hi (family_id t)). unfold count_active_tokens_in_family in *. unfold d1. cbn [update_family_last_used tokens]. lia.
  - unfold store_refresh_token. unfold d1 at 1 2. cbn [update_family_last_used tokens families]. rewrite mark_used_id.
    rewrite bool_decide_eq_false_2 by done. cbn [orb]. rewrite bool_decide_eq_false_2; [done|].
    unfold d1. cbn. by rewrite lookup_alter_eq, Hf.
Qed.

Lemma rotate_other token nt ntid now rnow d out d' :
  rotate token nt ntid now rnow d = Ok (out, d') → (∀ a b c, out ≠ Rotated a b c) → d' = d.
Proof.
  unfold rotate. intros Hr Hout. repeat case_match; simplify_eq; try done. by destruct (Hout (token_id r) (family_id r) (username r)).
Qed.

Lemma tokens_inv_step d o : inv d → fresh d o → inv (step d o).
Proof.
  intros Hi Hf. destruct o as [fid user now|fid user token tid now|token nt ntid now rnow role|fid reason|user reason|now]; cbn [step].
  - unfold create_token_family. destruct (insert_family _ _ _ _) eqn:E; [|done]. by eapply inv_insert_family.
  - destruct Hf as (Hh&Hfid&Hu). unfold create_initial_refresh_token.
    destruct (store_refresh_token _ _ _ _ _ _ _ _) eqn:E; [|done]. eapply inv_store; [exact Hi| | | |exact E]; [done|done|].
    unfold count_active_tokens_in_family. apply length_zero_iff_nil. apply filter_none_nil. intros t Ht Ha. apply Hfid.
    unfold active_in in Ha. apply andb_prop_elim in Ha as [<-%bool_decide_unpack _]. by apply list_elem_of_fmap_2.
  - unfold validate_and_rotate_refresh_token. destruct (rotate _ _ _ _ _ d) as [[out d']|] eqn:E; [|done].
    destruct out; [..|by eapply inv_rotated]; (rewrite (rotate_other _ _ _ _ _ _ _ _ E) by done; cbn; auto using inv_revoke_family).
  - by apply inv_revoke_family.
  - by apply inv_revoke_user.
  - by apply inv_cleanup.
Qed.

Lemma inv_run d ops : inv d → fresh_run d ops → inv (foldl step d ops).
Proof. revert d. induction ops as [|o ops IH]; intros d Hi; [done|]. intros [Hf Hr]. cbn. auto using tokens_inv_step. Qed.

(** ** Single use and revocation *)

(** All rows of a digest are used and belong to one family. *)
Definition spent (h fid : string) (d : db) : Prop :=
  ∀ t, t ∈ tokens d → token_hash t = h → is_used t = true ∧ family_id t = fid.

(** Every family with this property of its identifier and user is revoked. *)
Definition dead (P : string → string → Prop) (d : db) : Prop :=
  ∀ fid f, families d !! fid = Some f → P fid (f_username f) → is_revoked f = true.

(** The operation does not produce a token with this digest. *)
Definition avoids (h : string) (o : op) : Prop :=
  match o with
  | InitialToken _ _ token _ _ => hash_token token ≠ h
  | Refresh _ new_token _ _ _ _ => hash_token new_token ≠ h
  | _ => True
  end.

Definition not_create (P : string → string → Prop) (o : op) : Prop :=
  match o with CreateFamily fid user _ => ¬ P fid user | _ => True end.

Lemma spent_store h fid tid f user h' c e p d d' :
  spent h fid d → h' ≠ h → store_refresh_token tid f user h' c e p d = Ok d' → spent h fid d'.
Proof.
  intros Hs Hne. unfold store_refresh_token. repeat case_match; [done|]. intros [= <-] t.
  intros [Ht| ->%list_elem_of_singleton]%elem_of_app; [by apply Hs|done].
Qed.

Lemma spent_mark h fid tid now d : spent h fid d → spent h fid (mark_token_used tid now d).
Proof. intros Hs t (y&->&Hy)%list_elem_of_fmap. case_decide; cbn; [|by apply Hs]. intros Hh. by destruct (Hs y Hy Hh). Qed.

Lemma spent_step h fid d o : spent h fid d → avoids h o → spent h fid (step d o).
Proof.
  intros Hs Ha. destruct o as [f user now|f user token tid now|token nt ntid now rnow role|f reason|user reason|now]; cbn [step]; try exact Hs.
  - unfold create_token_family, insert_family. by destruct (families d !! f).
  - unfold create_initial_refresh_token. destruct (store_refresh_token _ _ _ _ _ _ _ _) eqn:E; [|done]. by eapply spent_store.
  - unfold validate_and_rotate_refresh_token. destruct (rotate _ _ _ _ _ d) as [[out d']|] eqn:E; [|done].
    destruct out as [|f user| |reason|tid f user]; try (rewrite (rotate_other _ _ _ _ _ _ _ _ E) by done; exact Hs).
    apply rotate_Rotated in E as (t&g&_&_&_&_&_&_&_&_&_&_&->). intros x.
    intros [Hx| ->%list_elem_of_singleton]%elem_of_app; [|done]. by apply (spent_mark h fid (token_id t) rnow d Hs).
  - intros t [_ Ht]%list_elem_of_filter. by apply Hs.
Qed.

Lemma spent_run h fid d ops : spent h fid d → Forall (avoids h) ops → spent h fid (foldl step d ops).
Proof. intros Hs Ha. revert d Hs. induction Ha; intros d Hs; cbn; auto using spent_step. Qed.

Lemma dead_alter P g k d : (∀ f, (is_revoked f = true → is_revoked (g f) = true) ∧ f_username (g f) = f_username f) →
  dead P d → dead P {| families := alter g k (families d); tokens := tokens d |}.
Proof.
  intros Hg Hd fid f. cbn. destruct (decide (k = fid)) as [->|Hne]; [|rewrite lookup_alter_ne by done; apply Hd].
  rewrite lookup_alter_eq. intros (f0&Hf&->)%fmap_Some. destruct (Hg f0) as [? ->]. eauto.
Qed.

Lemma dead_step P d o : dead P d → not_create P o → dead P (step d o).
Proof.
  intros Hd Hn. destruct o as [f user now|f user token tid now|token nt ntid now rnow role|f reason|user reason|now]; cbn [step].
  - unfold create_token_family, insert_family. destruct (families d !! f); [done|]. intros k g. cbn.
    destruct (decide (f = k)) as [->|]; [rewrite lookup_insert_eq; by intros [= <-]|rewrite lookup_insert_ne by done; apply Hd].
  - unfold create_initial_refresh_token, store_refresh_token. by destruct (_ || _).
  - unfold validate_and_rotate_refresh_token. destruct (rotate _ _ _ _ _ d) as [[out d']|] eqn:E; [|done].
    destruct out as [|f user| |reason|tid f user]; try (rewrite (rotate_other _ _ _ _ _ _ _ _ E) by done; cbn; first [exact Hd|by apply dead_alter]).
    apply rotate_Rotated in E as (t&g&_&_&_&_&_&_&_&_&_&_&->). by apply (dead_alter _ _ (family_id t) d).
  - by apply dead_alter.
  - intros k g. cbn. rewrite lookup_fmap. intros (f0&Hf&->)%fmap_Some. destruct (live_of user f0); [done|by eapply Hd].
  - intros k g. cbn. intros [Hg _]%map_lookup_filter_Some. by eapply Hd.
Qed.

Lemma dead_run P d ops : dead P d → Forall (not_create P) ops → dead P (foldl step d ops).
Proof. intros Hs Ha. revert d Hs. induction Ha; intros d Hs; cbn; auto using dead_step. Qed.

Lemma validate_NewTokens token nt ntid now rnow role d user role' nt' fid tid' parent d' :
  validate_and_rotate_refresh_token token nt ntid now rnow role d = (Ok (NewTokens user role' nt' fid tid' parent), d') ↔
  rotate token nt ntid now rnow d = Ok (Rotated parent fid user, d') ∧ role' = default "normal_user" role ∧ nt' = nt ∧ tid' = ntid.
Proof.
  unfold validate_and_rotate_refresh_token. destruct (rotate _ _ _ _ _ d) as [[out d1]|]; [|naive_solver].
  destruct out; naive_solver.
Qed.

(** A family that is revoked gets no tokens. *)
Lemma dead_no_success P fid d token nt ntid now rnow role user role' nt' tid' parent d' :
  dead P d → (∀ f, families d !! fid = Some f → P fid (f_username f)) →
  validate_and_rotate_refresh_token token nt ntid now rnow role d ≠ (Ok (NewTokens user role' nt' fid tid' parent), d').
Proof.
  intros Hd HP (E&_)%validate_NewTokens. apply rotate_Rotated in E as (t&g&_&_&_&_&_&_&_&Hf&Hr&_&_).
  specialize (Hd _ _ Hf (HP _ Hf)). congruence.
Qed.

Lemma rotated_spent token nt ntid now rnow d tid fid user d' :
  inv d → (hash_token nt ∉ token_hash <$> tokens d) →
  rotate token nt ntid now rnow d = Ok (Rotated tid fid user, d') → spent (hash_token token) fid d'.
Proof.
  intros Hi Hn Hr. apply rotate_Rotated in Hr as (t&g&Ht&Hh&<-&<-&_&_&_&_&_&_&->). intros x.
  intros [(y&->&Hy)%list_elem_of_fmap| ->%list_elem_of_singleton]%elem_of_app.
  - intros Hx. assert (y = t) as ->; [|by rewrite decide_True].
    eapply (NoDup_key_inj token_hash); [apply (inv_hash _ Hi)|done|done|]. rewrite Hh. revert Hx. by case_decide.
  - cbn. intros Hx. exfalso. apply Hn. rewrite Hx, <-Hh. by apply list_elem_of_fmap_2.
Qed.

(** C32: replay of a rotated refresh token is detected and kills its family.  After a
    successful rotation, whatever operations follow, the old token is never accepted
    again; while its row is kept, presenting it is answered as a replay, and from then
    on no token of that family is accepted, whatever operations follow that. *)
Theorem replay_kills_family d token nt ntid now rnow role user role' nt' fid tid' parent d1 ops :
  inv d → (hash_token nt ∉ token_hash <$> tokens d) →
  validate_and_rotate_refresh_token token nt ntid now rnow role d = (Ok (NewTokens user role' nt' fid tid' parent), d1) →
  Forall (avoids (hash_token token)) ops →
  let d2 := foldl step d1 ops in
  ∀ nt2 ntid2 now2 rnow2 role2,
    let '(r, d3) := validate_and_rotate_refresh_token token nt2 ntid2 now2 rnow2 role2 d2 in
    if decide (hash_token token ∈ token_hash <$> tokens d2) then
      r = Ok ReplayDetected ∧
      ∀ ops', Forall (not_create (λ k _, k = fid)) ops' →
      ∀ token3 nt3 ntid3 now3 rnow3 role3 u r3 n3 t3 p3 d5,
        validate_and_rotate_refresh_token token3 nt3 ntid3 now3 rnow3 role3 (foldl step d3 ops') ≠ (Ok (NewTokens u r3 n3 fid t3 p3), d5)
    else r = Ok InvalidToken.
Proof.
  intros Hi Hn (Hr&_)%validate_NewTokens Ha d2 nt2 ntid2 now2 rnow2 role2.
  pose proof (spent_run _ _ _ _ (rotated_spent _ _ _ _ _ _ _ _ _ _ Hi Hn Hr) Ha) as Hs. fold d2 in Hs.
  unfold validate_and_rotate_refresh_token at 1, rotate at 1.
  destruct (get_refresh_token_by_hash (hash_token token) d2) as [t|] eqn:Et.
  - destruct (by_hash_Some _ _ _ Et) as [Hin Hh]. destruct (Hs t Hin Hh) as [-> Hf].
    rewrite decide_True by (rewrite <-Hh; by apply list_elem_of_fmap_2). split; [done|].
    intros ops' Hops' token3 nt3 ntid3 now3 rnow3 role3 u r3 n3 t3 p3 d5.
    apply (dead_no_success (λ k _, k = fid)); [|done]. apply dead_run; [|done].
    intros k f Hk ->. cbn in Hk. rewrite Hf, lookup_alter_eq in Hk. by apply fmap_Some in Hk as (?&_&->).
  - rewrite decide_False by (by apply by_hash_None). done.
Qed.

(** Revoking a user's tokens logs him out everywhere: whatever operations follow,
    as long as no new family is created for him, no refresh token of his is accepted. *)
Theorem user_revocation_complete d user reason ops :
  inv d → fresh_run (revoke_user_tokens user reason d).2 ops → Forall (not_create (λ _ u, u = user)) ops →
  ∀ token nt ntid now rnow role r n fid t p d',
    validate_and_rotate_refresh_token token nt ntid now rnow role (foldl step (revoke_user_tokens user reason d).2 ops) ≠
    (Ok (NewTokens user r n fid t p), d').
Proof.
  intros Hi Hfr Hn token nt ntid now rnow role r n fid tid p d' Hv. set (d1 := (revoke_user_tokens user reason d).2) in *.
  assert (dead (λ _ u, u = user) d1) as Hd.
  { intros k f. cbn. rewrite lookup_fmap. intros (g&_&->)%fmap_Some. unfold live_of.
    case_bool_decide; destruct (is_revoked g) eqn:E; cbn; intros; congruence. }
  pose proof (inv_run d1 ops (inv_revoke_user _ _ _ Hi) Hfr) as Hi2.
  eapply (dead_no_success (λ _ u, u = user)); [by apply dead_run| |exact Hv].
  intros f Hf. apply validate_NewTokens in Hv as [Hr _].
  apply rotate_Rotated in Hr as (t&g&Ht&_&_&<-&<-&_). destruct (inv_family _ Hi2 t Ht) as (g'&?&?). congruence.
Qed.

(** A unique row is the one found. *)
Lemma by_hash_unique d t : NoDup (token_hash <$> tokens d) → t ∈ tokens d → get_refresh_token_by_hash (token_hash t) d = Some t.
Proof.
  intros Hnd Ht. destruct (get_refresh_token_by_hash (token_hash t) d) as [x|] eqn:E.
  - apply by_hash_Some in E as [Hx Hh]. f_equal. by eapply (NoDup_key_inj token_hash).
  - apply by_hash_None in E. exfalso. by apply E, list_elem_of_fmap_2.
Qed.

(** The clean-up keeps live tokens and their families. *)
Lemma cleanup_keeps d t f now : t ∈ tokens d → families d !! family_id t = Some f → now ≤ expires_at t →
  let d' := (cleanup_expired_tokens now d).2 in t ∈ tokens d' ∧ families d' !! family_id t = Some f.
Proof.
  intros Ht Hf Hle. cbn. assert (t ∈ filter (λ t, ¬ expires_at t < now) (tokens d)) as Hin by (apply list_elem_of_filter; split; [lia|done]).
  split; [done|]. apply map_lookup_filter_Some. split; [done|]. cbn. by apply list_elem_of_fmap_2.
Qed.

Lemma cleanups_keep ts d t f : t ∈ tokens d → families d !! family_id t = Some f → Forall (λ now, now ≤ expires_at t) ts →
  let d' := foldl step d (Cleanup <$> ts) in t ∈ tokens d' ∧ families d' !! family_id t = Some f.
Proof.
  intros Ht Hf Hts. revert d Ht Hf. induction Hts as [|now ts Hle Hts IH]; intros d Ht Hf; [done|]. cbn [foldl fmap list_fmap].
  destruct (cleanup_keeps d t f now Ht Hf Hle) as [? ?]. by apply IH.
Qed.

Lemma fresh_cleanups ts d : fresh_run d (Cleanup <$> ts).
Proof. revert d. induction ts as [|now ts IH]; intros d; cbn; [done|]. split; [done|apply IH]. Qed.

(** A session can always be continued: the refresh token handed out by a rotation
    is accepted until its lifetime has passed, whatever clean-ups run in between, and
    the answer continues the same family of the same user with it as the parent. *)
Theorem rotation_continues d token nt ntid now rnow role user role' nt' fid tid' parent d1 ts nt2 ntid2 now2 rnow2 role2 :
  inv d → (hash_token nt ∉ token_hash <$> tokens d) →
  validate_and_rotate_refresh_token token nt ntid now rnow role d = (Ok (NewTokens user role' nt' fid tid' parent), d1) →
  Forall (λ t, t ≤ rnow + refresh_token_lifetime) ts → now2 ≤ rnow + refresh_token_lifetime →
  let d2 := foldl step d1 (Cleanup <$> ts) in
  (ntid2 ∉ token_id <$> tokens d2) →
  ∃ d3, validate_and_rotate_refresh_token nt' nt2 ntid2 now2 rnow2 role2 d2 =
    (Ok (NewTokens user (default "normal_user" role2) nt2 fid ntid2 tid'), d3).
Proof.
  intros Hi Hn (Hr&->&->&->)%validate_NewTokens Hts Hnow d2 Hid. pose proof (inv_rotated _ _ _ _ _ _ _ _ _ _ Hi Hn Hr) as Hi1.
  apply rotate_Rotated in Hr as (t&f&Ht&_&<-&<-&<-&_&_&Hf&Hrev&_&->). set (s := successor t nt ntid rnow). set (d1 := rotated _ _ _ _ _) in *.
  assert (s ∈ tokens d1) as Hs by (apply elem_of_app; right; left).
  assert (∃ g, families d1 !! family_id s = Some g ∧ is_revoked g = false) as (g&Hg&Hgr).
  { cbn. rewrite lookup_alter_eq, Hf. by eexists. }
  destruct (cleanups_keep ts d1 s g Hs Hg Hts) as [Hs2 Hg2]. fold d2 in Hs2, Hg2.
  assert (inv d2) as Hi2 by (apply inv_run; [done|apply fresh_cleanups]).
  eexists. apply validate_NewTokens. split; [|done]. unfold rotate. change (hash_token nt) with (token_hash s).
  rewrite by_hash_unique; [|apply (inv_hash _ Hi2)|done]. cbn [is_used s successor].
  destruct (Z.ltb_spec (expires_at s) now2) as [Hlt|_]; [cbn in Hlt; lia|]. rewrite Hg2, Hgr.
  unfold store_refresh_token. cbn [update_family_last_used tokens families]. rewrite mark_used_id.
  rewrite bool_decide_eq_false_2 by done. cbn [orb]. rewrite bool_decide_eq_false_2; [done|]. cbn in Hg2 |- *. by rewrite lookup_alter_eq, Hg2.
Qed.

(** Over any run from empty tables every family has at most one token that can
    still be exchanged, identifiers and digests are unique, and each token belongs to a
    family of its user. *)
Theorem single_active_token ops :
  fresh_run {| families := ∅; tokens := [] |} ops →
  inv (foldl step {| families := ∅; tokens := [] |} ops).
Proof.
  apply inv_run. split; cbn; [constructor|constructor| |].
  - by intros t ?%elem_of_nil.
  - intros fid. unfold count_active_tokens_in_family. cbn. lia.
Qed.

(** Without a failing statement a backend rotates as the manager does on its tables. *)
Lemma rotate_backend_refines token nt ntid now rnow d out d' :
  rotate token nt ntid now rnow d = Ok (out, d') → rotate_backend true token nt ntid now rnow d = (Ok out, d').
Proof. unfold rotate, rotate_backend, get_token_family. intros H. by repeat case_match; simplify_eq. Qed.
End manager.

(** ** Instances *)

Definition demo_hash (t : string) : string := ("#" +:+ t)%string.
Definition demo_login : list op :=
  [CreateFamily "f" "bob" 0; InitialToken "f" "bob" "a" "t1" 0].
Definition demo_db : db := foldl (step demo_hash 100) {| families := ∅; tokens := [] |} demo_login.

Lemma demo_fresh : fresh_run demo_hash 100 {| families := ∅; tokens := [] |} demo_login.
Proof.
  split; [done|]. split; [|done]. split_and!; [set_solver|set_solver|]. intros f Hf.
  assert (Some f = Some {| f_username := "bob"; f_created_at := 0; last_used_at := 0; is_revoked := false; revocation_reason := None |})
    as [= ->]; [rewrite <-Hf; by vm_compute|done].
Qed.

Lemma demo_inv : inv demo_db.
Proof.
  apply inv_run; [|apply demo_fresh]. split; cbn; [constructor|constructor|by intros t ?%elem_of_nil|].
  intros fid. unfold count_active_tokens_in_family. cbn. lia.
Qed.

Definition demo_rotated : db := (validate_and_rotate_refresh_token demo_hash 100 "a" "b" "t2" 50 50 (Some "admin") demo_db).2.

Definition demo_later : db := foldl (step demo_hash 100) demo_rotated [Cleanup 70; Refresh "b" "c" "t3" 55 55 None].

Lemma replay_kills_family_witness :
  let v := validate_and_rotate_refresh_token demo_hash 100 "a" "x" "t9" 60 60 None demo_later in
  v.1 = Ok ReplayDetected ∧ (validate_and_rotate_refresh_token demo_hash 100 "c" "y" "t10" 61 61 None v.2).1 = Ok (TokenRevoked (Some "replay_attack")).
Proof.
  intros v. split; [|by vm_compute].
  pose proof (replay_kills_family demo_hash 100 demo_db "a" "b" "t2" 50 50 (Some "admin") "bob" "admin" "b" "f" "t2" "t1" demo_rotated
    [Cleanup 70; Refresh "b" "c" "t3" 55 55 None] demo_inv ltac:(apply (bool_decide_unpack _); by vm_compute) ltac:(by vm_compute)
    ltac:(repeat constructor; by vm_compute) "x" "t9" 60 60 None) as H.
  fold demo_later in H. fold v in H. destruct v as [r d3]. rewrite decide_True in H by (apply (bool_decide_unpack _); by vm_compute).
  exact (proj1 H).
Defined.

Lemma user_revocation_complete_witness :
  (validate_and_rotate_refresh_token demo_hash 100 "a" "b" "t2" 50 50 None (revoke_user_tokens "bob" "password_change" demo_db).2).1 =
    Ok (TokenRevoked (Some "password_change")) ∧
  ∀ r n fid t p d', validate_and_rotate_refresh_token demo_hash 100 "a" "b" "t2" 50 50 None
    (foldl (step demo_hash 100) (revoke_user_tokens "bob" "password_change" demo_db).2 [CreateFamily "g" "eve" 3]) ≠ (Ok (NewTokens "bob" r n fid t p), d').
Proof.
  split; [by vm_compute|]. apply (user_revocation_complete demo_hash 100 demo_db "bob" "password_change" [CreateFamily "g" "eve" 3] demo_inv).
  - split; done.
  - repeat constructor. done.
Defined.

Lemma rotation_continues_witness :
  ∃ d3, validate_and_rotate_refresh_token demo_hash 100 "b" "c" "t3" 140 141 None (foldl (step demo_hash 100) demo_rotated (Cleanup <$> [120])) =
    (Ok (NewTokens "bob" "normal_user" "c" "f" "t3" "t2"), d3).
Proof.
  apply (rotation_continues demo_hash 100 demo_db "a" "b" "t2" 50 50 (Some "admin") "bob" "admin" "b" "f" "t2" "t1" demo_rotated [120] "c" "t3" 140 141 None demo_inv).
  - apply (bool_decide_unpack _); by vm_compute.
  - by vm_compute.
  - repeat constructor. done.
  - done.
  - apply (bool_decide_unpack _); by vm_compute.
Defined.

Lemma single_active_token_witness : inv demo_db.
Proof. exact (single_active_token demo_hash 100 demo_login demo_fresh). Defined.

(** A backend whose last statement fails has used the token up; the client's retry is
    then taken for a replay. *)
Lemma backend_failure_revokes :
  let '(r, d1) := rotate_backend demo_hash 100 false "a" "b" "t2" 50 50 demo_db in
  r = Err IntegrityError ∧ (validate_and_rotate_refresh_token demo_hash 100 "a" "c" "t3" 51 51 None d1).1 = Ok ReplayDetected.
Proof. by vm_compute. Qed.

(** A clean-up between the two steps of a login removes the new family, and the login
    fails. *)
Lemma cleanup_during_login :
  let d1 := (cleanup_expired_tokens 1 (step demo_hash 100 {| families := ∅; tokens := [] |} (CreateFamily "f" "bob" 0))).2 in
  create_initial_refresh_token demo_hash 100 "f" "bob" "a" "t1" 2 d1 = Err IntegrityError.
Proof. by vm_compute. Qed.
End RefreshTokens.
