(* ===== verification/ElevatedSessions.v ===== *)
(** * Step-up elevation windows

    src/src/code_indexer/server/auth/elevated_session_manager.py: windows opened by a
    TOTP step-up, kept in SQLite or, once a pool is set, in PostgreSQL.

    A database is a table from session keys to rows.  Times are exact; each call reads
    the clock once, so the reading is an argument.  A statement runs in one transaction. *)

From S2P Require Import Prelude.
From S2P Require Import PyText.
From stdpp Require Import options.
Local Open Scope Q_scope.

Module ElevatedSessions.

Inductive error := ValueError.

Record ElevatedSession := {
  username : text; elevated_at : Q; last_touched_at : Q; elevated_from_ip : option text; scope : option text }.

(** What a caller sees; a missing scope reads as [full]. *)
Record view := { v_key : text; v_username : text; v_elevated_at : Q; v_last_touched_at : Q; v_ip : option text; v_scope : text }.

Definition full : text := txt "full".
Definition _VALID_SCOPES : list text := [full; txt "totp_repair"].

Definition _row_to_elevated_session (key : text) (r : ElevatedSession) : view :=
  {| v_key := key; v_username := username r; v_elevated_at := elevated_at r; v_last_touched_at := last_touched_at r;
     v_ip := elevated_from_ip r;
     v_scope := match scope r with Some s => if decide (s = []) then full else s | None => full end |}.

Abbreviation table := (gmap text ElevatedSession).

Record timeouts := { idle_timeout : Z; max_age : Z }.

(** [last_touched_at > now - idle AND elevated_at > now - max_age]. *)
Definition valid (c : timeouts) (now : Q) (r : ElevatedSession) : bool :=
  Qltb (now - inject_Z (idle_timeout c)) (last_touched_at r) && Qltb (now - inject_Z (max_age c)) (elevated_at r).

Definition touched (now : Q) (r : ElevatedSession) : ElevatedSession :=
  {| username := username r; elevated_at := elevated_at r; last_touched_at := now;
     elevated_from_ip := elevated_from_ip r; scope := scope r |}.

(** ** PostgreSQL *)

Definition new_row (user : text) (ip : option text) (sc : text) (now : Q) : ElevatedSession :=
  {| username := user; elevated_at := now; last_touched_at := now; elevated_from_ip := ip; scope := Some sc |}.

Definition pg_create (key user : text) (ip : option text) (sc : text) (now : Q) (t : table) : table := <[key := new_row user ip sc now]> t.

Definition pg_touch (c : timeouts) (key : text) (now : Q) (t : table) : option view * table :=
  match t !! key with
  | Some r => if valid c now r then (Some (_row_to_elevated_session key (touched now r)), <[key := touched now r]> t) else (None, t)
  | None => (None, t)
  end.

Definition pg_touch_for_user (c : timeouts) (key user : text) (now : Q) (t : table) : option view * table :=
  match t !! key with
  | Some r =>
      if bool_decide (username r = user) && valid c now r
      then (Some (_row_to_elevated_session key (touched now r)), <[key := touched now r]> t) else (None, t)
  | None => (None, t)
  end.

(** A storage error is answered as no elevation. *)
Definition pg_get_status (ok : bool) (c : timeouts) (key : text) (now : Q) (t : table) : option view :=
  if ok then match t !! key with
             | Some r => if valid c now r then Some (_row_to_elevated_session key r) else None
             | None => None
             end
  else None.

(** Rows whose creation and last use both lie before the cutoff. *)
Definition prunable (cutoff : Q) (r : ElevatedSession) : bool := Qltb (elevated_at r) cutoff && Qltb (last_touched_at r) cutoff.

Definition prune (seconds : Z) (now : Q) (t : table) : result error (nat * table) :=
  if (seconds <=? 0)%Z then Err ValueError
  else let cutoff := now - inject_Z seconds in
       Ok (size (filter (λ kr, prunable cutoff kr.2 = true) t), filter (λ kr, prunable cutoff kr.2 = false) t).

Definition delete_user (user : text) (t : table) : table := filter (λ kr, username kr.2 ≠ user) t.

(** ** SQLite *)

Definition _cleanup_expired (c : timeouts) (now : Q) (t : table) : table :=
  filter (λ kr, Qle_bool (last_touched_at kr.2) (now - inject_Z (idle_timeout c)) ||
                Qle_bool (elevated_at kr.2) (now - inject_Z (max_age c)) = false) t.

(** The clean-up of [create] reads the clock again, at [now']. *)
Definition sqlite_create (c : timeouts) (key user : text) (ip : option text) (sc : text) (now now' : Q) (t : table) : table :=
  <[key := new_row user ip sc now]> (_cleanup_expired c now' t).

(** The row is selected, updated and read back in one transaction. *)
Definition sqlite_touch (c : timeouts) (key : text) (now : Q) (t : table) : option view * table :=
  match t !! key with
  | None => (None, t)
  | Some r =>
      if valid c now r then
        let t' := <[key := touched now r]> t in (_row_to_elevated_session key <$> t' !! key, t')
      else (None, t)
  end.

Definition sqlite_touch_for_user (c : timeouts) (key user : text) (now : Q) (t : table) : option view * table :=
  match t !! key with
  | None => (None, t)
  | Some r =>
      if bool_decide (username r = user) && valid c now r then
        let t' := <[key := touched now r]> t in
        (match t' !! key with
         | Some r' => if bool_decide (username r' = user) then Some (_row_to_elevated_session key r') else None
         | None => None
         end, t')
      else (None, t)
  end.

(** ** The manager *)

Record manager := { conf : timeouts; pool : option table; db_path : text; files : gmap text table }.

Definition file (m : manager) : table := default ∅ (files m !! db_path m).

Definition set_conf (c : timeouts) (m : manager) : manager :=
  {| conf := c; pool := pool m; db_path := db_path m; files := files m |}.
Definition set_pool (p : option table) (m : manager) : manager :=
  {| conf := conf m; pool := p; db_path := db_path m; files := files m |}.
Definition set_file (t : table) (m : manager) : manager :=
  {| conf := conf m; pool := pool m; db_path := db_path m; files := <[db_path m := t]> (files m) |}.

Definition new (idle age : Z) (path : text) (fs : gmap text table) : result error manager :=
  if (idle <=? 0)%Z then Err ValueError
  else if (age <=? 0)%Z then Err ValueError
  else if (age <? idle)%Z then Err ValueError
  else Ok {| conf := {| idle_timeout := idle; max_age := age |}; pool := None; db_path := path; files := fs |}.

Definition update_timeouts (idle age : Z) (m : manager) : result error manager :=
  if negb ((60 <=? idle)%Z && (idle <=? 3600)%Z) then Err ValueError
  else if negb ((300 <=? age)%Z && (age <=? 7200)%Z) then Err ValueError
  else if (age <? idle)%Z then Err ValueError
  else Ok (set_conf {| idle_timeout := idle; max_age := age |} m).

Definition set_connection_pool (pg : table) (m : manager) : manager := set_pool (Some pg) m.

Definition set_sqlite_path (path : text) (m : manager) : result error manager :=
  match pool m with
  | Some _ => Ok m
  | None => if blank path then Err ValueError
            else Ok {| conf := conf m; pool := pool m; db_path := path; files := files m |}
  end.

Definition create (key user : text) (ip : option text) (sc : text) (now now' : Q) (m : manager) : result error manager :=
  if blank key then Err ValueError
  else if blank user then Err ValueError
  else if bool_decide (sc ∉ _VALID_SCOPES) then Err ValueError
  else Ok (match pool m with
           | Some t => set_pool (Some (pg_create key user ip sc now t)) m
           | None => set_file (sqlite_create (conf m) key user ip sc now now' (file m)) m
           end).

Definition touch_atomic (key : text) (now : Q) (m : manager) : result error (option view * manager) :=
  if blank key then Err ValueError
  else Ok (match pool m with
           | Some t => let '(v, t') := pg_touch (conf m) key now t in (v, set_pool (Some t') m)
           | None => let '(v, t') := sqlite_touch (conf m) key now (file m) in (v, set_file t' m)
           end).

Definition touch_atomic_for_user (key user : text) (now : Q) (m : manager) : result error (option view * manager) :=
  if blank key then Err ValueError
  else if blank user then Err ValueError
  else Ok (match pool m with
           | Some t => let '(v, t') := pg_touch_for_user (conf m) key user now t in (v, set_pool (Some t') m)
           | None => let '(v, t') := sqlite_touch_for_user (conf m) key user now (file m) in (v, set_file t' m)
           end).

Definition revoke (key : text) (m : manager) : result error manager :=
  if blank key then Err ValueError
  else Ok (match pool m with Some t => set_pool (Some (delete key t)) m | None => set_file (delete key (file m)) m end).

Definition revoke_all_for_username (user : text) (m : manager) : result error manager :=
  if blank user then Err ValueError
  else Ok (match pool m with Some t => set_pool (Some (delete_user user t)) m | None => set_file (delete_user user (file m)) m end).

Definition get_status (ok : bool) (key : text) (now : Q) (m : manager) : result error (option view) :=
  if blank key then Err ValueError
  else Ok (pg_get_status ok (conf m) key now (match pool m with Some t => t | None => file m end)).

Definition prune_expired (seconds : Z) (now : Q) (m : manager) : result error (nat * manager) :=
  match pool m with
  | Some t => match prune seconds now t with Ok (n, t') => Ok (n, set_pool (Some t') m) | Err e => Err e end
  | None => match prune seconds now (file m) with Ok (n, t') => Ok (n, set_file t' m) | Err e => Err e end
  end.

(** ** Both stores answer alike *)

Lemma sqlite_touch_pg c key now t : sqlite_touch c key now t = pg_touch c key now t.
Proof.
  unfold sqlite_touch, pg_touch. destruct (t !! key) as [r|]; [|done]. destruct (valid c now r); [|done].
  by rewrite lookup_insert_eq.
Qed.

Lemma sqlite_touch_for_user_pg c key user now t : sqlite_touch_for_user c key user now t = pg_touch_for_user c key user now t.
Proof.
  unfold sqlite_touch_for_user, pg_touch_for_user. destruct (t !! key) as [r|]; [|done].
  destruct (bool_decide_reflect (username r = user)) as [Hu|]; [|done]. destruct (valid c now r); [|done]. cbn [andb].
  rewrite lookup_insert_eq. cbn. by rewrite bool_decide_eq_true_2.
Qed.

(** ** Runs *)

Inductive op :=
  | Create (key user : text) (ip : option text) (sc : text) (now now' : Q)
  | Touch (key : text) (now : Q)
  | TouchUser (key user : text) (now : Q)
  | Revoke (key : text)
  | RevokeUser (user : text)
  | Prune (seconds : Z) (now : Q)
  | SetTimeouts (idle age : Z).

(** The answer of a call, where it has one, and the manager after it. *)
Definition step (m : manager) (o : op) : option view * manager :=
  match o with
  | Create key user ip sc now now' => (None, match create key user ip sc now now' m with Ok m' => m' | Err _ => m end)
  | Touch key now => match touch_atomic key now m with Ok (v, m') => (v, m') | Err _ => (None, m) end
  | TouchUser key user now => match touch_atomic_for_user key user now m with Ok (v, m') => (v, m') | Err _ => (None, m) end
  | Revoke key => (None, match revoke key m with Ok m' => m' | Err _ => m end)
  | RevokeUser user => (None, match revoke_all_for_username user m with Ok m' => m' | Err _ => m end)
  | Prune seconds now => (None, match prune_expired seconds now m with Ok (_, m') => m' | Err _ => m end)
  | SetTimeouts idle age => (None, match update_timeouts idle age m with Ok m' => m' | Err _ => m end)
  end.

Definition run (m : manager) (ops : list op) : manager := foldl (λ m o, (step m o).2) m ops.

(** The table in use. *)
Definition cur (m : manager) : table := match pool m with Some t => t | None => file m end.

Lemma cur_set_file m t : pool m = None → cur (set_file t m) = t.
Proof. intros Hp. unfold cur, set_file, file. cbn. rewrite Hp, lookup_insert_eq. done. Qed.

(** A call changes the table in use as the statement does. *)
Lemma cur_touch key now m v m' : touch_atomic key now m = Ok (v, m') →
  conf m' = conf m ∧ (v, cur m') = pg_touch (conf m) key now (cur m).
Proof.
  unfold touch_atomic. destruct (blank key); [done|]. unfold cur at 2. destruct (pool m) as [t|] eqn:Hp.
  - destruct (pg_touch _ _ _ _). by intros [= <- <-].
  - rewrite sqlite_touch_pg. destruct (pg_touch _ _ _ _) as [w t']. intros [= <- <-]. split; [done|]. by rewrite cur_set_file.
Qed.

Lemma cur_touch_user key user now m v m' : touch_atomic_for_user key user now m = Ok (v, m') →
  conf m' = conf m ∧ (v, cur m') = pg_touch_for_user (conf m) key user now (cur m).
Proof.
  unfold touch_atomic_for_user. destruct (blank key); [done|]. destruct (blank user); [done|]. unfold cur at 2. destruct (pool m) as [t|] eqn:Hp.
  - destruct (pg_touch_for_user _ _ _ _ _). by intros [= <- <-].
  - rewrite sqlite_touch_for_user_pg. destruct (pg_touch_for_user _ _ _ _ _) as [w t']. intros [= <- <-].
    split; [done|]. by rewrite cur_set_file.
Qed.

(** Creation is refused for blank names and unknown scopes. *)
Definition opens (o : op) : option (text * text * text * Q) :=
  match o with
  | Create key user _ sc now _ =>
      if negb (blank key) && negb (blank user) && bool_decide (sc ∈ _VALID_SCOPES) then Some (key, user, sc, now) else None
  | _ => None
  end.

Lemma cur_create key user ip sc now now' m m' : create key user ip sc now now' m = Ok m' →
  opens (Create key user ip sc now now') = Some (key, user, sc, now) ∧
  ∃ t, t ⊆ cur m ∧ cur m' = <[key := new_row user ip sc now]> t.
Proof.
  unfold create, opens. destruct (blank key); [done|]. destruct (blank user); [done|].
  destruct (bool_decide_reflect (sc ∉ _VALID_SCOPES)) as [|Hsc]; [done|]. rewrite bool_decide_eq_true_2 by (by apply dec_stable).
  intros [= <-]. split; [done|]. unfold cur at 1. destruct (pool m) as [t|] eqn:Hp.
  - exists t. done.
  - exists (_cleanup_expired (conf m) now' (file m)). split; [apply map_filter_subseteq|]. by rewrite cur_set_file.
Qed.

Lemma cur_revoke key m m' : revoke key m = Ok m' → blank key = false ∧ cur m' = delete key (cur m).
Proof.
  unfold revoke. destruct (blank key); [done|]. intros [= <-]. split; [done|]. unfold cur at 2.
  destruct (pool m) as [t|] eqn:Hp; [done|]. by rewrite cur_set_file.
Qed.

Lemma cur_revoke_user user m m' : revoke_all_for_username user m = Ok m' → blank user = false ∧ cur m' = delete_user user (cur m).
Proof.
  unfold revoke_all_for_username. destruct (blank user); [done|]. intros [= <-]. split; [done|]. unfold cur at 2.
  destruct (pool m) as [t|] eqn:Hp; [done|]. by rewrite cur_set_file.
Qed.

Lemma cur_prune seconds now m n m' : prune_expired seconds now m = Ok (n, m') →
  conf m' = conf m ∧ prune seconds now (cur m) = Ok (n, cur m').
Proof.
  unfold prune_expired. unfold cur at 1. destruct (pool m) as [t|] eqn:Hp.
  - destruct (prune seconds now t) as [[k t']|]; [|done]. by intros [= <- <-].
  - destruct (prune seconds now (file m)) as [[k t']|]; [|done]. intros [= <- <-]. by rewrite cur_set_file.
Qed.

Lemma cur_timeouts idle age m m' : update_timeouts idle age m = Ok m' → cur m' = cur m.
Proof. unfold update_timeouts. repeat case_match; try done. by intros [= <-]. Qed.

(** The row is as it was. *)
Ltac kept r := right; exists r; by split_and!; try done; left.

(** The row of a key after a call comes from the call or from the row before it. *)
Lemma step_rows m o key r :
  cur (step m o).2 !! key = Some r →
  (∃ sc, opens o = Some (key, username r, sc, elevated_at r) ∧ scope r = Some sc ∧ last_touched_at r = elevated_at r) ∨
  (∃ r0, cur m !! key = Some r0 ∧ username r = username r0 ∧ elevated_at r = elevated_at r0 ∧ scope r = scope r0 ∧
     (∀ u sc t, opens o ≠ Some (key, u, sc, t)) ∧ (o = Revoke key → blank key = true) ∧ (o = RevokeUser (username r0) → blank (username r0) = true) ∧
     (last_touched_at r = last_touched_at r0 ∨ o = Touch key (last_touched_at r) ∨ o = TouchUser key (username r) (last_touched_at r))).
Proof.
  destruct o as [k u ip sc now now'|k now|k u now|k|u|n now|i a]; cbn [step snd].
  - destruct (create k u ip sc now now' m) as [m'|] eqn:E.
    + apply cur_create in E as (Ho&t&Hsub&->). destruct (decide (k = key)) as [->|Hne].
      * rewrite lookup_insert_eq. intros [= <-]. left. by exists sc.
      * rewrite lookup_insert_ne by done. intros Hr. right. exists r. rewrite Ho. split_and!; try done; [|naive_solver|by left].
        by eapply lookup_weaken.
    + intros Hr. right. exists r. split_and!; try done; [|by left]. intros ???. unfold create in E. unfold opens.
      destruct (blank k); [done|]. destruct (blank u); [done|]. case_bool_decide; [|done]. by rewrite bool_decide_eq_false_2.
  - destruct (touch_atomic k now m) as [[v m']|] eqn:E; [|intros Hr; kept r].
    apply cur_touch in E as [_ E]. cbn. revert E. unfold pg_touch. destruct (cur m !! k) as [r1|] eqn:Hk.
    + destruct (valid _ now r1); intros [= _ ->]; [|intros Hr; kept r].
      destruct (decide (k = key)) as [->|Hne]; [rewrite lookup_insert_eq; intros [= <-]|rewrite lookup_insert_ne by done; intros Hr].
      * right. exists r1. split_and!; try done. by right; left.
      * kept r.
    + intros [= _ ->] Hr. kept r.
  - destruct (touch_atomic_for_user k u now m) as [[v m']|] eqn:E; [|intros Hr; kept r].
    apply cur_touch_user in E as [_ E]. cbn. revert E. unfold pg_touch_for_user. destruct (cur m !! k) as [r1|] eqn:Hk.
    + destruct (bool_decide_reflect (username r1 = u)) as [Hu|]; cbn [andb]; [destruct (valid _ now r1)|]; intros [= _ ->];
        [|intros Hr; kept r..].
      destruct (decide (k = key)) as [->|Hne]; [rewrite lookup_insert_eq; intros [= <-]|rewrite lookup_insert_ne by done; intros Hr].
      * right. exists r1. split_and!; try done. right. right. cbn. by rewrite Hu.
      * kept r.
    + intros [= _ ->] Hr. kept r.
  - destruct (revoke k m) as [m'|] eqn:E.
    + apply cur_revoke in E as [_ ->]. intros [? Hr]%lookup_delete_Some. right. exists r. split_and!; try done; [naive_solver|by left].
    + intros Hr. right. exists r. split_and!; try done; [|by left]. intros [= ->]. unfold revoke in E. by destruct (blank key).
  - destruct (revoke_all_for_username u m) as [m'|] eqn:E.
    + apply cur_revoke_user in E as [_ ->]. intros [Hr Hu]%map_lookup_filter_Some. right. exists r. split_and!; try done; [naive_solver|by left].
    + intros Hr. right. exists r. split_and!; try done; [|by left]. intros [= ->]. unfold revoke_all_for_username in E. by destruct (blank (username r)).
  - destruct (prune_expired n now m) as [[c m']|] eqn:E; [|intros Hr; kept r].
    apply cur_prune in E as [_ E]. unfold prune in E. destruct (n <=? 0)%Z; [done|]. injection E as _ <-.
    intros [Hr _]%map_lookup_filter_Some. kept r.
  - destruct (update_timeouts i a m) as [m'|] eqn:E; [rewrite (cur_timeouts _ _ _ _ E)|]; intros Hr; kept r.
Qed.
(** ** Every elevation is justified *)

(** The call neither replaces nor revokes the window. *)
Definition leaves (key user : text) (o : op) : Prop :=
  (∀ u sc t, opens o ≠ Some (key, u, sc, t)) ∧ o ≠ Revoke key ∧ o ≠ RevokeUser user.

Definition use_time (key : text) (o : op) : option Q :=
  match o with
  | Touch k now | TouchUser k _ now => if decide (k = key) then Some now else None
  | _ => None
  end.

Definition uses (key : text) (ops : list op) : list Q := omap (use_time key) ops.

Lemma opens_names o key user sc t : opens o = Some (key, user, sc, t) → blank key = false ∧ blank user = false ∧ sc ∈ _VALID_SCOPES.
Proof.
  destruct o as [k u ip sc' now now'| | | | | |]; try done. cbn. destruct (blank k) eqn:?, (blank u) eqn:?; try done. cbn.
  case_bool_decide; [|done]. by intros [= <- <- <- <-].
Qed.

Lemma rows_justified m ops key r :
  cur m = ∅ → cur (run m ops) !! key = Some r →
  ∃ ops1 o ops2 sc, ops = ops1 ++ o :: ops2 ∧ opens o = Some (key, username r, sc, elevated_at r) ∧ scope r = Some sc ∧
    Forall (leaves key (username r)) ops2 ∧ last_touched_at r ∈ elevated_at r :: uses key ops2.
Proof.
  intros Hm. revert r. induction ops as [|o ops IH] using rev_ind; intros r; [cbn; by rewrite Hm|].
  unfold run. rewrite foldl_app. cbn. fold (run m ops). intros [(sc&Ho&Hsc&->)|(r0&Hr0&Hu&He&Hs&Ho&Hrev&Hru&Hlast)]%step_rows.
  - exists ops, o, [], sc. split_and!; [done..|constructor|left].
  - destruct (IH r0 Hr0) as (ops1&o1&ops2&sc&->&Ho1&Hsc&Hl&Hin). destruct (opens_names _ _ _ _ _ Ho1) as (Hk&Hbu&_).
    exists ops1, o1, (ops2 ++ [o]), sc. rewrite Hu, He, Hs, <-app_assoc. split_and!; [done..| |].
    + apply Forall_app. split; [done|]. apply Forall_singleton. split_and!; [done|intros ?%Hrev; congruence|intros ?%Hru; congruence].
    + unfold uses in *. rewrite omap_app. destruct Hlast as [->|[->| ->]]; [set_solver|..]; cbn; rewrite decide_True by done; set_solver.
Qed.

(** C39: every elevation is justified.  A touch succeeds only if the same session key
    was opened for that user and scope, the window has since been neither replaced nor
    revoked, less than the maximum age has passed since it was opened, however often it
    was used, and less than the idle time since it was opened or last used.  This holds
    in either store and over changes of the time limits. *)
Theorem elevation_justified m ops key now v m' :
  cur m = ∅ → touch_atomic key now (run m ops) = Ok (Some v, m') →
  let c := conf (run m ops) in
  ∃ ops1 o ops2 t, ops = ops1 ++ o :: ops2 ∧ opens o = Some (key, v_username v, v_scope v, v_elevated_at v) ∧
    Forall (leaves key (v_username v)) ops2 ∧ t ∈ v_elevated_at v :: uses key ops2 ∧
    now - v_elevated_at v < inject_Z (max_age c) ∧ now - t < inject_Z (idle_timeout c) ∧ v_last_touched_at v = now.
Proof.
  intros Hm [_ E]%cur_touch. cbn. revert E. unfold pg_touch. destruct (cur (run m ops) !! key) as [r|] eqn:Hr; [|done].
  destruct (valid _ now r) eqn:Hv; [|done]. intros [= -> _].
  destruct (rows_justified m ops key r Hm Hr) as (ops1&o&ops2&sc&Hops&Ho&Hsc&Hl&Hin).
  exists ops1, o, ops2, (last_touched_at r). cbn. rewrite Hsc.
  rewrite decide_False by (intros ->; apply opens_names in Ho as (_&_&Hno); revert Hno; apply (bool_decide_unpack _); by vm_compute).
  apply andb_true_iff in Hv as [Hi%Qltb_true Ha%Qltb_true]. split_and!; [done..|lra|lra|done].
Qed.

(** ** The two stores agree *)

Definition agree (c : timeouts) (now : Q) (ts tp : table) : Prop :=
  ts ⊆ tp ∧ ∀ key r, tp !! key = Some r → valid c now r = true → ts !! key = Some r.

Lemma valid_mono c now now' r : now <= now' → valid c now' r = true → valid c now r = true.
Proof. unfold valid. intros Hle [H1%Qltb_true H2%Qltb_true]%andb_true_iff. apply andb_true_iff. rewrite !Qltb_true. split; lra. Qed.

Lemma agree_mono c now now' ts tp : now <= now' → agree c now ts tp → agree c now' ts tp.
Proof. intros Hle [Hs Ha]. split; [done|]. intros key r Hr Hv. apply Ha; [done|]. by eapply valid_mono. Qed.

(** The time after the call, when the clock does not run backwards. *)
Definition advance (now : Q) (o : op) : option Q :=
  match o with
  | Create _ _ _ _ t t' => if Qle_bool now t && Qle_bool t t' then Some t' else None
  | Touch _ t | TouchUser _ _ t | Prune _ t => if Qle_bool now t then Some t else None
  | Revoke _ | RevokeUser _ => Some now
  | SetTimeouts _ _ => None
  end.

Fixpoint ordered (now : Q) (ops : list op) : Prop :=
  match ops with
  | [] => True
  | o :: ops' => match advance now o with Some now' => ordered now' ops' | None => False end
  end.

Fixpoint answers (m : manager) (ops : list op) : list (option view) :=
  match ops with
  | [] => []
  | o :: ops' => (step m o).1 :: answers (step m o).2 ops'
  end.
Lemma agree_insert c now key r ts tp : agree c now ts tp → agree c now (<[key := r]> ts) (<[key := r]> tp).
Proof.
  intros [Hs Ha]. split; [by apply insert_mono|]. intros k x. destruct (decide (key = k)) as [->|]; [by rewrite !lookup_insert_eq|].
  rewrite !lookup_insert_ne by done. apply Ha.
Qed.

(** Touching decides on the same row. *)
Lemma agree_touch c now key (P : ElevatedSession → bool) ts tp :
  agree c now ts tp →
  match ts !! key with Some r => if P r && valid c now r then Some r else None | None => None end =
  match tp !! key with Some r => if P r && valid c now r then Some r else None | None => None end.
Proof.
  intros [Hs Ha]. destruct (ts !! key) as [r|] eqn:E.
  - by rewrite (lookup_weaken _ _ _ _ E Hs).
  - destruct (tp !! key) as [r|] eqn:Ep; [|done]. destruct (P r), (valid c now r) eqn:Ev; try done. by rewrite (Ha key r) in E.
Qed.

Lemma touch_spec c key now t :
  pg_touch c key now t =
  match (match t !! key with Some r => if true && valid c now r then Some r else None | None => None end) with
  | Some r => (Some (_row_to_elevated_session key (touched now r)), <[key := touched now r]> t)
  | None => (None, t)
  end.
Proof. unfold pg_touch. destruct (t !! key) as [r|]; [|done]. cbn. by destruct (valid c now r). Qed.

Lemma touch_user_spec c key user now t :
  pg_touch_for_user c key user now t =
  match (match t !! key with Some r => if bool_decide (username r = user) && valid c now r then Some r else None | None => None end) with
  | Some r => (Some (_row_to_elevated_session key (touched now r)), <[key := touched now r]> t)
  | None => (None, t)
  end.
Proof. unfold pg_touch_for_user. destruct (t !! key) as [r|]; [|done]. by destruct (_ && _). Qed.

Lemma agree_filter c now (P : text * ElevatedSession → Prop) `{∀ x, Decision (P x)} ts tp :
  agree c now ts tp → agree c now (filter P ts) (filter P tp).
Proof.
  intros [Hs Ha]. split.
  { apply map_subseteq_spec. intros k r [Hr HP]%map_lookup_filter_Some. apply map_lookup_filter_Some. split; [by eapply lookup_weaken|done]. }
  intros k r [Hr HP]%map_lookup_filter_Some Hv.
  apply map_lookup_filter_Some. auto.
Qed.

Lemma agree_cleanup c now ts tp : agree c now ts tp → agree c now (_cleanup_expired c now ts) tp.
Proof.
  intros [Hs Ha]. split; [by etransitivity; [apply map_filter_subseteq|]|]. intros k r Hr Hv. apply map_lookup_filter_Some.
  split; [auto|]. cbn. unfold valid in Hv. apply andb_true_iff in Hv as [H1%Qltb_true H2%Qltb_true].
  apply orb_false_iff. rewrite !Qle_bool_false. split; lra.
Qed.

Record related (now : Q) (ms mp : manager) : Prop := {
  r_sqlite : pool ms = None; r_pg : is_Some (pool mp); r_conf : conf ms = conf mp;
  r_agree : agree (conf mp) now (cur ms) (cur mp) }.
Lemma related_set now ms mp ts tp :
  related now ms mp → agree (conf mp) now ts tp → related now (set_file ts ms) (set_pool (Some tp) mp).
Proof. intros [Hp [t Ht] Hc Ha] H. split; [done|by eexists|done|]. by rewrite cur_set_file. Qed.

Lemma related_mono now now' ms mp : now <= now' → related now ms mp → related now' ms mp.
Proof. intros Hle [???]. split; try done. by eapply agree_mono. Qed.

(** Both managers react to a call in the same way. *)
Lemma stores_related_step now now' ms mp o :
  related now ms mp → advance now o = Some now' →
  (step ms o).1 = (step mp o).1 ∧ related now' (step ms o).2 (step mp o).2.
Proof.
  intros Hr Hadv. pose proof Hr as [Hp [t Ht] Hc Ha]. assert (cur ms = file ms) as Hs by (unfold cur; by rewrite Hp).
  assert (cur mp = t) as Hm by (unfold cur; by rewrite Ht). rewrite Hs, Hm in Ha.
  destruct o as [k u ip sc t1 t2|k t1|k u t1|k|u|n t1|i a]; cbn in Hadv |- *; try done.
  - destruct (Qle_bool_spec now t1), (Qle_bool_spec t1 t2); try done. injection Hadv as <-. split; [done|].
    assert (now <= t2) as Hle by lra. unfold create. repeat case_match; try (by eapply related_mono).
    all: simplify_eq. apply related_set; [by eapply related_mono|]. unfold sqlite_create, pg_create. rewrite Hc.
    apply agree_insert, agree_cleanup. by eapply agree_mono.
  - destruct (Qle_bool_spec now t1); [|done]. injection Hadv as <-. unfold touch_atomic. destruct (blank k); [split; [done|by eapply related_mono]|].
    rewrite Hp, Ht, sqlite_touch_pg, !touch_spec, Hc. apply (agree_mono _ _ t1) in Ha; [|done].
    rewrite (agree_touch _ _ _ (λ _, true) _ _ Ha). destruct (match t !! k with Some _ => _ | None => _ end); (split; [done|]);
      (apply related_set; [by eapply related_mono|auto using agree_insert]).
  - destruct (Qle_bool_spec now t1); [|done]. injection Hadv as <-. unfold touch_atomic_for_user.
    destruct (blank k); [split; [done|by eapply related_mono]|]. destruct (blank u); [split; [done|by eapply related_mono]|].
    rewrite Hp, Ht, sqlite_touch_for_user_pg, !touch_user_spec, Hc. apply (agree_mono _ _ t1) in Ha; [|done].
    rewrite (agree_touch _ _ _ (λ r, bool_decide (username r = u)) _ _ Ha). destruct (match t !! k with Some _ => _ | None => _ end); (split; [done|]);
      (apply related_set; [by eapply related_mono|auto using agree_insert]).
  - injection Hadv as <-. split; [done|]. unfold revoke. destruct (blank k); [done|]. rewrite Hp, Ht. apply related_set; [done|].
    destruct Ha as [Hsub Ha]. split; [by apply delete_mono|]. intros x r [? Hx]%lookup_delete_Some Hv. apply lookup_delete_Some. auto.
  - injection Hadv as <-. split; [done|]. unfold revoke_all_for_username. destruct (blank u); [done|]. rewrite Hp, Ht.
    apply related_set; [done|]. by apply agree_filter.
  - destruct (Qle_bool_spec now t1); [|done]. injection Hadv as <-. split; [done|]. unfold prune_expired, prune. rewrite Hp, Ht.
    destruct (n <=? 0)%Z; [by eapply related_mono|]. apply related_set; [by eapply related_mono|]. apply agree_filter. by eapply agree_mono.
Qed.

(** The two stores are interchangeable: from the same windows, with a clock that
    does not run backwards and unchanged time limits, SQLite and PostgreSQL give the
    same answer to every call of every sequence, although SQLite removes expired rows
    when a window is opened and PostgreSQL does not. *)
Theorem sqlite_refines_pg now ms mp ops :
  related now ms mp → ordered now ops → answers ms ops = answers mp ops.
Proof.
  revert now ms mp. induction ops as [|o ops IH]; intros now ms mp Hr Ho; [done|]. cbn [ordered answers] in *.
  destruct (advance now o) as [now'|] eqn:E; [|done]. destruct (stores_related_step now now' ms mp o Hr E) as [-> Hr'].
  f_equal. by eapply IH.
Qed.

(** ** Instances *)

Definition demo : manager :=
  {| conf := {| idle_timeout := 300; max_age := 1800 |}; pool := None; db_path := txt "a.db"; files := ∅ |}.
Definition demo_ops : list op :=
  [Create (txt "k") (txt "bob") None full 0 0; Touch (txt "k") 200; Create (txt "l") (txt "eve") None full 300 300; Touch (txt "k") 450].

Lemma elevation_justified_witness :
  ∃ v m', touch_atomic (txt "k") 600 (run demo demo_ops) = Ok (Some v, m') ∧ v_username v = txt "bob" ∧ v_last_touched_at v = 600.
Proof.
  destruct (touch_atomic (txt "k") 600 (run demo demo_ops)) as [[[v|] m']|] eqn:E; [|by vm_compute in E..].
  exists v, m'. split; [done|]. split; [by vm_compute in E; simplify_eq|].
  destruct (elevation_justified demo demo_ops (txt "k") 600 v m') as (?&?&?&?&_&_&_&_&_&_&H); [by vm_compute|done|exact H].
Defined.

Lemma sqlite_refines_pg_witness :
  answers demo demo_ops = answers (set_connection_pool ∅ demo) demo_ops ∧
  ((λ a, bool_decide (is_Some a)) <$> answers demo demo_ops) = [false; true; false; true].
Proof.
  split; [|by vm_compute]. apply (sqlite_refines_pg 0); [|by vm_compute].
  split; [done|by eexists|done|]. split; [done|]. intros key r Hr. by vm_compute in Hr.
Defined.

(** Raising the limits revives a window that had run out. *)
Lemma timeouts_revive :
  let m := run demo [Create (txt "k") (txt "bob") None full 0 0] in
  (step m (Touch (txt "k") 400)).1 = None ∧
  is_Some (step (run m [Touch (txt "k") 400; SetTimeouts 600 1800]) (Touch (txt "k") 400)).1.
Proof. split; [by vm_compute|]. vm_compute. by eexists. Qed.
End ElevatedSessions.
