(* ===== verification/IndexCache.v ===== *)
(** * The index caches of the server

    - src/src/code_indexer/server/cache/hnsw_index_cache.py
    - src/src/code_indexer/server/cache/fts_index_cache.py
    - src/src/code_indexer/server/cache/id_index_cache.py

    The three caches share one protocol: a dictionary of entries with a time to live
    under a lock, and one loader per key while other callers wait on its event.  The
    class [Policy] holds what differs, the values that are not cached and the limit;
    everything else is proved once.  A block under [_cache_lock] is one step; paths are
    already resolved; the clock, the loaded values and file times are arguments. *)

From S2P Require Import Prelude.
From S2P Require Import PyText.
From stdpp Require Import options.

Module IndexCache.

Record entry {V : Type} := {
  value : V; ttl_minutes : Q; created_at : Q; last_accessed : Q; access_count : nat;
  index_size_bytes : N; index_file_mtime : option Q }.
Arguments entry : clear implicits.

Inductive error := ValueError.

(** ** Entries *)

Section entries.
Context {V : Type}.
Implicit Types (e : entry V) (l : list (text * entry V)).

Definition record_access (now : Q) e : entry V :=
  {| value := value e; ttl_minutes := ttl_minutes e; created_at := created_at e; last_accessed := now;
     access_count := S (access_count e); index_size_bytes := index_size_bytes e; index_file_mtime := index_file_mtime e |}.

Definition expiration e : Q := (last_accessed e + ttl_minutes e * 60)%Q.

Definition is_expired (now : Q) e : bool := Qltb (expiration e) now.

Definition ttl_remaining_seconds (now : Q) e : Q := (expiration e - now)%Q.

(** The file's time, [None] when it cannot be read. *)
Definition _index_file_is_newer (stat : option Q) (cached_mtime : option Q) : bool :=
  match cached_mtime, stat with
  | Some c, Some t => Qltb c t
  | _, _ => false
  end.

(** ** Limits *)

Definition total_bytes l : N := foldr (λ p n, (index_size_bytes p.2 + n)%N) 0%N l.

(** The first key with the oldest access. *)
Definition lru (p : text * entry V) l : text * entry V := max_by (λ q, - last_accessed q.2)%Q p l.

Definition evict_lru l : list (text * entry V) :=
  match l with
  | [] => []
  | p :: l' => ddel (lru p l').1 l
  end.

Definition MB : N := 1024 * 1024.

Definition _evict_oversized_entries (cap_bytes : N) l : list (text * entry V) :=
  filter (λ p, ¬ (cap_bytes < index_size_bytes p.2)%N) l.

Fixpoint evict_while (fuel : nat) (over : list (text * entry V) → bool) l : list (text * entry V) :=
  match fuel with
  | O => l
  | S fuel' => if over l && negb (bool_decide (l = [])) then evict_while fuel' over (evict_lru l) else l
  end.

Definition over_bytes (cap_bytes : N) l : bool := (cap_bytes <? total_bytes l)%N.

Definition _evict_lru_until_under_cap (max_cache_size_mb : N) l : list (text * entry V) :=
  evict_while (length l) (over_bytes (max_cache_size_mb * MB)%N) l.

(** The entries kept, and how many were too large on their own. *)
Definition _enforce_size_limit (max_cache_size_mb : option N) l : list (text * entry V) * nat :=
  match max_cache_size_mb with
  | None => (l, 0)
  | Some mb =>
      let l1 := _evict_oversized_entries (mb * MB)%N l in
      (_evict_lru_until_under_cap mb l1, length l - length l1)
  end.

Definition over_entries (n : nat) l : bool := n <? length l.

Definition _enforce_entry_limit (max_entries : option nat) l : list (text * entry V) * nat :=
  match max_entries with
  | None => (l, 0)
  | Some n => (evict_while (length l) (over_entries n) l, 0)
  end.

(** ** Facts on the limits *)

Lemma lru_in p l : lru p l ∈ p :: l.
Proof. apply max_by_in. Qed.

Lemma lru_oldest p l q : q ∈ p :: l → (last_accessed (lru p l).2 <= last_accessed q.2)%Q.
Proof. intros Hq. pose proof (max_by_ge (λ q, - last_accessed q.2)%Q p l q Hq) as H. cbn in H. fold (lru p l) in H. lra. Qed.

Lemma ddel_elem k l q : q ∈ ddel k l ↔ q ∈ l ∧ q.1 ≠ k.
Proof. unfold ddel. rewrite list_elem_of_filter. tauto. Qed.

Lemma evict_lru_sublist l : evict_lru l `sublist_of` l.
Proof. destruct l; [done|]. apply sublist_filter. Qed.

Lemma ddel_length_one k v l : NoDup l.*1 → (k, v) ∈ l → S (length (ddel k l)) = length l.
Proof.
  unfold ddel. induction l as [|[k' v'] l IH]; [intros _ []%elem_of_nil|]. rewrite fmap_cons, NoDup_cons.
  intros [Hn Hnd] [[= -> ->]|Hin]%elem_of_cons.
  - rewrite filter_cons_False by naive_solver. cbn. f_equal.
    assert (filter (λ p, p.1 ≠ k') l = l) as ->; [|done].
    apply list_filter_all. intros [x y] Hx. cbn. intros ->. apply Hn. cbn. by apply (list_elem_of_fmap_2 fst _ (k', y)).
  - rewrite filter_cons_True; [cbn; by rewrite IH|]. cbn. intros ->. apply Hn. by apply (list_elem_of_fmap_2 fst _ (k, v)).
Qed.

Lemma evict_lru_length l : NoDup l.*1 → l ≠ [] → S (length (evict_lru l)) = length l.
Proof.
  intros Hnd Hne. destruct l as [|p l]; [done|]. unfold evict_lru. pose proof (lru_in p l) as Hin.
  destruct (lru p l) as [k v]. by eapply ddel_length_one.
Qed.

(** Eviction stops as soon as the limit is met and takes the oldest entries. *)
Lemma evict_while_spec fuel over l :
  over [] = false → NoDup l.*1 → length l ≤ fuel →
  let k := evict_while fuel over l in
  k `sublist_of` l ∧ over k = false ∧
  (∀ q r, q ∈ l → (q ∉ k) → r ∈ k → (last_accessed q.2 <= last_accessed r.2)%Q) ∧
  (k ≠ l → ∃ k', over k' = true ∧ k' `sublist_of` l ∧ k' ≠ [] ∧ k = evict_lru k').
Proof.
  intros Hnil. revert l. induction fuel as [|fuel IH]; intros l Hnd Hlen; cbn.
  { destruct l; [|cbn in Hlen; lia]. split_and!; [done|done|set_solver|done]. }
  destruct (over l) eqn:Ho; cbn [andb]; [|split_and!; [done|done|set_solver|done]].
  destruct (bool_decide_reflect (l = [])) as [->|Hne]; [congruence|]. cbn [negb].
  pose proof (evict_lru_length l Hnd Hne) as Hl. pose proof (evict_lru_sublist l) as Hs.
  destruct (IH (evict_lru l)) as (Hsub&Hover&Hold&Hmin); [eapply sublist_NoDup; [exact Hnd|by apply fmap_sublist]|lia|].
  set (k := evict_while fuel over (evict_lru l)) in *. split_and!.
  - by etransitivity.
  - done.
  - intros q r Hq Hqk Hr. destruct l as [|p l]; [done|].
    destruct (decide (q.1 = (lru p l).1)) as [Heq|Hneq]; [|apply Hold; [by apply ddel_elem|done|done]].
    assert (q = lru p l) as -> by (eapply (NoDup_key_inj fst); [exact Hnd|done|apply lru_in|done]).
    apply lru_oldest. eapply sublist_elem_of; [exact Hr|by etransitivity].
  - intros _. destruct (over (evict_lru l)) eqn:Hov.
    + destruct Hmin as (k'&?&?&?&?); [congruence|]. exists k'. split_and!; [done|by etransitivity|done|done].
    + exists l. split_and!; [done..|]. unfold k. destruct fuel; cbn; [done|]. by rewrite Hov.
Qed.

Lemma total_sublist l k : l `sublist_of` k → (total_bytes l <= total_bytes k)%N.
Proof. unfold total_bytes. induction 1; cbn in *; lia. Qed.

(** The size limit is enforced by evicting no more than needed, least recently
    used first.  What is kept fits the limit; an entry larger than the limit on its own
    is dropped without costing another entry its place; of the others, none that was
    dropped had been used later than one that is kept; and if any of them was dropped,
    then the kept ones together with the last one dropped exceed the limit. *)
Theorem enforce_size_limit_spec mb l :
  NoDup l.*1 →
  let cap := (mb * MB)%N in
  let fitting := filter (λ p, (index_size_bytes p.2 <= cap)%N) l in
  let k := (_enforce_size_limit (Some mb) l).1 in
  k `sublist_of` fitting ∧ (total_bytes k <= cap)%N ∧
  (∀ q r, q ∈ fitting → (q ∉ k) → r ∈ k → (last_accessed q.2 <= last_accessed r.2)%Q) ∧
  (k ≠ fitting → ∃ k', (cap < total_bytes k')%N ∧ k' `sublist_of` fitting ∧ k = evict_lru k' ∧ length k' = S (length k)) ∧
  (_enforce_size_limit (Some mb) l).2 = length l - length fitting.
Proof.
  intros Hnd cap fitting k. assert (_evict_oversized_entries cap l = fitting) as Hf.
  { unfold _evict_oversized_entries, fitting. apply list_filter_iff. intros p. lia. }
  unfold k, _enforce_size_limit. fold cap. rewrite Hf. cbn [fst snd]. unfold _evict_lru_until_under_cap. fold cap.
  assert (NoDup fitting.*1) as Hnf by (eapply sublist_NoDup; [exact Hnd|apply fmap_sublist, sublist_filter]).
  destruct (evict_while_spec (length fitting) (over_bytes cap) fitting) as (H1&H2&H3&H4); [by apply N.ltb_ge, N.le_0_l|done|done|].
  unfold over_bytes in H2. apply N.ltb_ge in H2. split_and!; [done|done|done| |done].
  intros (k'&Ho&Hs&Hne&->)%H4. exists k'. apply N.ltb_lt in Ho. split_and!; [done..|].
  symmetry. apply evict_lru_length; [|done]. eapply sublist_NoDup; [exact Hnf|by apply fmap_sublist].
Qed.

(** The identifier cache keeps at most its number of entries. *)
Lemma enforce_entry_limit_spec n l :
  NoDup l.*1 →
  let k := (_enforce_entry_limit (Some n) l).1 in
  k `sublist_of` l ∧ length k ≤ n ∧
  (∀ q r, q ∈ l → (q ∉ k) → r ∈ k → (last_accessed q.2 <= last_accessed r.2)%Q) ∧
  (k ≠ l → length k = n).
Proof.
  intros Hnd. cbn. destruct (evict_while_spec (length l) (over_entries n) l) as (H1&H2&H3&H4); [done|done|done|].
  unfold over_entries in *. apply Nat.ltb_ge in H2. split_and!; [done|done|done|].
  intros (k'&Ho%Nat.ltb_lt&Hs&Hne&Hk)%H4. assert (S (length (evict_lru k')) = length k') as Hl.
  { apply evict_lru_length; [|done]. eapply sublist_NoDup; [exact Hnd|by apply fmap_sublist]. }
  rewrite Hk in *. lia.
Qed.
End entries.
(** ** What a cache decides for itself *)

(** [rejects] are the values never served or stored, [enforce] the limit applied after
    storing, [within] the bound it establishes; [reload_on_access] is the FTS cache's
    reload on a hit. *)
Class Policy (V : Type) := {
  rejects : V → bool;
  reload_on_access : bool;
  enforce : list (text * entry V) → list (text * entry V) * nat;
  within : list (text * entry V) → Prop;
  enforce_sub : ∀ l, NoDup l.*1 → (enforce l).1 `sublist_of` l;
  enforce_within : ∀ l, NoDup l.*1 → within (enforce l).1;
  within_nil : within [];
  within_sub : ∀ l k, l `sublist_of` k → within k → within l;
  within_sizes : ∀ l k, (λ p, index_size_bytes p.2) <$> l = (λ p, index_size_bytes p.2) <$> k → within l → within k }.

Section cache.
Context {V : Type} `{Policy V} (config_ttl_minutes : Q).

(** [loading] maps a key to the event of its loader; [signalled] are the events set. *)
Record cache := {
  entries : list (text * entry V); loading : gmap text nat; next_event : nat; signalled : gset nat;
  hit_count : nat; miss_count : nat; eviction_count : nat; oversized_load_count : nat; reload_count : nat }.

Definition empty_cache : cache :=
  {| entries := []; loading := ∅; next_event := 0; signalled := ∅;
     hit_count := 0; miss_count := 0; eviction_count := 0; oversized_load_count := 0; reload_count := 0 |}.

Definition set_entries (l : list (text * entry V)) (evicted oversized : nat) (c : cache) : cache :=
  {| entries := l; loading := loading c; next_event := next_event c; signalled := signalled c;
     hit_count := hit_count c; miss_count := miss_count c; eviction_count := eviction_count c + evicted;
     oversized_load_count := oversized_load_count c + oversized; reload_count := reload_count c |}.

Inductive lookup_result := Hit (v : V) | Wait (ev : nat) | Load (ev : nat).

(** Whether an entry may be served; [index_file] is absent, or the reading of its time. *)
Definition servable (index_file : option (option Q)) (now : Q) (e : entry V) : bool :=
  negb (is_expired now e) && negb (rejects (value e)) &&
  negb (match index_file with Some stat => _index_file_is_newer stat (index_file_mtime e) | None => false end).

Definition hit (key : text) (now : Q) (reload_ok : bool) (e : entry V) (c : cache) : cache :=
  {| entries := dset key (record_access now e) (entries c); loading := loading c; next_event := next_event c;
     signalled := signalled c; hit_count := S (hit_count c); miss_count := miss_count c; eviction_count := eviction_count c;
     oversized_load_count := oversized_load_count c;
     reload_count := (if reload_on_access && reload_ok then S (reload_count c) else reload_count c) |}.

Definition miss (key : text) (c : cache) : lookup_result * cache :=
  match loading c !! key with
  | Some ev =>
      (Wait ev, {| entries := entries c; loading := loading c; next_event := next_event c; signalled := signalled c;
         hit_count := hit_count c; miss_count := S (miss_count c); eviction_count := eviction_count c;
         oversized_load_count := oversized_load_count c; reload_count := reload_count c |})
  | None =>
      (Load (next_event c), {| entries := entries c; loading := <[key := next_event c]> (loading c);
         next_event := S (next_event c); signalled := signalled c;
         hit_count := hit_count c; miss_count := S (miss_count c); eviction_count := eviction_count c;
         oversized_load_count := oversized_load_count c; reload_count := reload_count c |})
  end.

(** The locked part of the loop of [get_or_load]. *)
Definition lookup_step (key : text) (index_file : option (option Q)) (now : Q) (reload_ok : bool) (c : cache) : lookup_result * cache :=
  match dget key (entries c) with
  | Some e =>
      if servable index_file now e then (Hit (value e), hit key now reload_ok e c)
      else miss key (set_entries (ddel key (entries c)) 1 0 c)
  | None => miss key c
  end.

(** The entry is created at one reading of the clock and recorded at the next. *)
Definition store (key : text) (v : V) (size : N) (mtime : option Q) (created now : Q) (c : cache) : cache :=
  let e := record_access now {| value := v; ttl_minutes := config_ttl_minutes; created_at := created; last_accessed := created;
                                access_count := 0; index_size_bytes := size; index_file_mtime := mtime |} in
  let l := dset key e (entries c) in
  let '(l', oversized) := enforce l in
  set_entries l' (length l - length l') oversized c.

(** The [finally] block: the sentinel is removed under the lock, then the event is set. *)
Definition pop_loading (key : text) (c : cache) : cache :=
  {| entries := entries c; loading := delete key (loading c); next_event := next_event c; signalled := signalled c;
     hit_count := hit_count c; miss_count := miss_count c; eviction_count := eviction_count c;
     oversized_load_count := oversized_load_count c; reload_count := reload_count c |}.

Definition set_event (ev : nat) (c : cache) : cache :=
  {| entries := entries c; loading := loading c; next_event := next_event c; signalled := {[ev]} ∪ signalled c;
     hit_count := hit_count c; miss_count := miss_count c; eviction_count := eviction_count c;
     oversized_load_count := oversized_load_count c; reload_count := reload_count c |}.

(** ** Maintenance *)

Definition keep (P : text * entry V → bool) (c : cache) : nat * cache :=
  let l := filter (λ p, P p = true) (entries c) in
  let n := length (entries c) - length l in (n, set_entries l n 0 c).

Definition invalidate (key : text) (c : cache) : cache := (keep (λ p, negb (bool_decide (p.1 = key))) c).2.

Definition under (path_prefix key : text) : bool :=
  bool_decide (key = path_prefix) || is_prefix (path_prefix ++ [slash]) key.

Definition invalidate_prefix (path_prefix : text) (c : cache) : result error (nat * cache) :=
  match path_prefix with
  | [] => Err ValueError
  | _ => Ok (keep (λ p, negb (under path_prefix p.1)) c)
  end.

Definition clear (c : cache) : cache := (keep (λ _, false) c).2.

Definition _cleanup_expired_entries (now : Q) (c : cache) : cache := (keep (λ p, negb (is_expired now p.2)) c).2.

Fixpoint evict_n (n : nat) (l : list (text * entry V)) : list (text * entry V) :=
  match n with
  | O => l
  | S n' => match l with [] => [] | _ => evict_n n' (evict_lru l) end
  end.

Definition evict_lru_entries (n : Z) (c : cache) : nat * cache :=
  if (n <=? 0)%Z then (0, c)
  else let l := evict_n (Z.to_nat n) (entries c) in
       let k := length (entries c) - length l in (k, set_entries l k 0 c).

(** ** Concurrent callers *)

(** Where a caller of [get_or_load] is: before the lock, waiting for an event, running
    the loader, holding a loaded value, in the [finally] block before and after the
    sentinel is removed, or returned.  A result of [None] is an exception. *)
Inductive pc :=
  | Ready
  | Waiting (ev : nat)
  | Loading (ev : nat)
  | Loaded (ev : nat) (v : V)
  | Leaving (ev : nat) (r : option V)
  | Signalling (ev : nat) (r : option V)
  | Done (r : option V).

Record system := { shared : cache; callers : gmap nat (text * pc) }.

(** The event a caller has promised to set. *)
Definition owes (p : pc) : option nat :=
  match p with
  | Loading ev | Loaded ev _ | Leaving ev _ | Signalling ev _ => Some ev
  | _ => None
  end.

(** The event whose sentinel a caller holds. *)
Definition holds (p : pc) : option nat :=
  match p with
  | Loading ev | Loaded ev _ | Leaving ev _ => Some ev
  | _ => None
  end.

Definition after_lookup (r : lookup_result) : pc :=
  match r with Hit v => Done (Some v) | Wait ev => Waiting ev | Load ev => Loading ev end.

(** ** The protocol of sentinels and events *)

(** A sentinel has exactly one holder, events are numbered, and whoever waits will be
    woken. *)
Record protocol_inv (lo : gmap text nat) (next : nat) (sg : gset nat) (m : gmap nat (text * pc)) : Prop := {
  pi_holder : ∀ key ev, lo !! key = Some ev → ∃ i p, m !! i = Some (key, p) ∧ holds p = Some ev;
  pi_sentinel : ∀ i key p ev, m !! i = Some (key, p) → holds p = Some ev → lo !! key = Some ev;
  pi_unique : ∀ i j ki kj p q ev, m !! i = Some (ki, p) → m !! j = Some (kj, q) → owes p = Some ev → owes q = Some ev → i = j;
  pi_fresh : ∀ i key p ev, m !! i = Some (key, p) → owes p = Some ev → ev < next;
  pi_waiting : ∀ i key ev, m !! i = Some (key, Waiting ev) → ev ∈ sg ∨ ∃ j key' p, m !! j = Some (key', p) ∧ owes p = Some ev }.

Lemma holds_owes p ev : holds p = Some ev → owes p = Some ev.
Proof. by destruct p. Qed.

(** A caller that owes nothing moves to where it owes nothing and does not wait. *)
Lemma protocol_quiet lo next sg m i key p p' :
  protocol_inv lo next sg m → m !! i = Some (key, p) → owes p = None → owes p' = None → (∀ ev, p' ≠ Waiting ev) →
  protocol_inv lo next sg (<[i := (key, p')]> m).
Proof.
  intros [H1 H2 H3 H4 H5] Hi Hp Hp' Hw. assert (holds p = None) as Hh by (destruct p; done). split.
  - intros k ev Hl. destruct (H1 k ev Hl) as (j&q&Hj&Hq). exists j, q. split; [|done]. rewrite lookup_insert_ne; [done|]. intros ->. congruence.
  - intros j k q ev [[<- [= <- <-]]|[? Hj]]%lookup_insert_Some Hq; [apply holds_owes in Hq; congruence|eauto].
  - intros j1 j2 k1 k2 q1 q2 ev [[<- [= <- <-]]|[? Hj1]]%lookup_insert_Some [[<- [= <- <-]]|[? Hj2]]%lookup_insert_Some; [congruence..|eauto].
  - intros j k q ev [[<- [= <- <-]]|[? Hj]]%lookup_insert_Some Hq; [congruence|eauto].
  - intros j k ev [[<- [= <- ->]]|[? Hj]]%lookup_insert_Some; [by destruct (Hw ev)|].
    destruct (H5 j k ev Hj) as [?|(j2&k2&q&Hj2&Hq)]; [by left|]. right. exists j2, k2, q. split; [|done].
    rewrite lookup_insert_ne; [done|]. intros ->. congruence.
Qed.

(** A caller that keeps what it holds and owes. *)
Lemma protocol_same lo next sg m i key p p' ev :
  protocol_inv lo next sg m → m !! i = Some (key, p) → holds p = Some ev → holds p' = Some ev →
  protocol_inv lo next sg (<[i := (key, p')]> m).
Proof.
  intros [H1 H2 H3 H4 H5] Hi Hp Hp'. pose proof (holds_owes _ _ Hp) as Ho. pose proof (holds_owes _ _ Hp') as Ho'. split.
  - intros k ev' Hl. destruct (H1 k ev' Hl) as (j&q&Hj&Hq). destruct (decide (i = j)) as [->|Hne].
    + rewrite Hi in Hj. injection Hj as <- <-. exists j, p'. rewrite lookup_insert_eq. split; congruence.
    + exists j, q. by rewrite lookup_insert_ne.
  - intros j k q ev' [[<- [= <- <-]]|[? Hj]]%lookup_insert_Some Hq; [apply (H2 i key p); congruence|eauto].
  - intros j1 j2 k1 k2 q1 q2 ev' [[<- [= <- <-]]|[? Hj1]]%lookup_insert_Some [[<- [= <- <-]]|[? Hj2]]%lookup_insert_Some;
      intros Hq1 Hq2; [done|apply (H3 i j2 key k2 p q2 ev'); congruence|apply (H3 j1 i k1 key q1 p ev'); congruence|eauto].
  - intros j k q ev' [[<- [= <- <-]]|[? Hj]]%lookup_insert_Some Hq; [apply (H4 i key p); congruence|eauto].
  - intros j k ev' [[<- [= <- ->]]|[? Hj]]%lookup_insert_Some; [done|].
    destruct (H5 j k ev' Hj) as [?|(j2&k2&q&Hj2&Hq)]; [by left|]. right. destruct (decide (i = j2)) as [->|Hne].
    + exists j2, key, p'. rewrite lookup_insert_eq. split; congruence.
    + exists j2, k2, q. by rewrite lookup_insert_ne.
Qed.

Lemma protocol_wait lo next sg m i key p ev :
  protocol_inv lo next sg m → m !! i = Some (key, p) → owes p = None → lo !! key = Some ev →
  protocol_inv lo next sg (<[i := (key, Waiting ev)]> m).
Proof.
  intros Hpi Hi Hp Hl. pose proof (protocol_quiet lo next sg m i key p Ready Hpi Hi Hp eq_refl ltac:(done)) as Hr.
  destruct Hr as [H1 H2 H3 H4 H5]. assert (∀ j k q ev', <[i := (key, Waiting ev)]> m !! j = Some (k, q) → owes q = Some ev' →
    <[i := (key, Ready)]> m !! j = Some (k, q) ∧ i ≠ j) as Hback.
  { intros j k q ev' [[<- [= <- <-]]|[? Hj]]%lookup_insert_Some Hq; [done|]. by rewrite lookup_insert_ne. }
  assert (∀ j k q ev', <[i := (key, Ready)]> m !! j = Some (k, q) → owes q = Some ev' → <[i := (key, Waiting ev)]> m !! j = Some (k, q)) as Hfwd.
  { intros j k q ev' [[<- [= <- <-]]|[? Hj]]%lookup_insert_Some Hq; [done|]. by rewrite lookup_insert_ne. }
  split.
  - intros k ev' Hk. destruct (H1 k ev' Hk) as (j&q&Hj&Hq). exists j, q. split; [|done]. eapply Hfwd; [done|by apply holds_owes].
  - intros j k q ev' Hj Hq. destruct (Hback j k q ev' Hj) as [? _]; [by apply holds_owes|eauto].
  - intros j1 j2 k1 k2 q1 q2 ev' Hj1 Hj2 Hq1 Hq2. destruct (Hback _ _ _ _ Hj1 Hq1), (Hback _ _ _ _ Hj2 Hq2). eauto.
  - intros j k q ev' Hj Hq. destruct (Hback _ _ _ _ Hj Hq). eauto.
  - intros j k ev' [[<- [= <- <-]]|[? Hj]]%lookup_insert_Some.
    + right. destruct (H1 _ _ Hl) as (j2&q&Hj2&Hq). exists j2, key, q. split; [|by apply holds_owes]. eapply Hfwd; [done|by apply holds_owes].
    + destruct (H5 j k ev') as [?|(j2&k2&q&Hj2&Hq)]; [by rewrite lookup_insert_ne|by left|]. right. eauto 6.
Qed.

(** A new loader plants its sentinel. *)
Lemma protocol_load lo next sg m i key p :
  protocol_inv lo next sg m → m !! i = Some (key, p) → owes p = None → lo !! key = None →
  protocol_inv (<[key := next]> lo) (S next) sg (<[i := (key, Loading next)]> m).
Proof.
  intros [H1 H2 H3 H4 H5] Hi Hp Hl. split.
  - intros k ev [[<- <-]|[? Hk]]%lookup_insert_Some; [exists i, (Loading next); by rewrite lookup_insert_eq|].
    destruct (H1 k ev Hk) as (j&q&Hj&Hq). exists j, q. rewrite lookup_insert_ne; [done|]. intros ->. apply holds_owes in Hq. congruence.
  - intros j k q ev [[<- [= <- <-]]|[Hne Hj]]%lookup_insert_Some Hq; [injection Hq as <-; by rewrite lookup_insert_eq|].
    rewrite lookup_insert_ne; [eauto|]. intros <-. rewrite (H2 _ _ _ _ Hj Hq) in Hl. done.
  - intros j1 j2 k1 k2 q1 q2 ev [[<- [= <- <-]]|[? Hj1]]%lookup_insert_Some [[<- [= <- <-]]|[? Hj2]]%lookup_insert_Some Hq1 Hq2;
      [done|injection Hq1 as <-; specialize (H4 _ _ _ _ Hj2 Hq2); lia|injection Hq2 as <-; specialize (H4 _ _ _ _ Hj1 Hq1); lia|eauto].
  - intros j k q ev [[<- [= <- <-]]|[? Hj]]%lookup_insert_Some Hq; [injection Hq as <-; lia|specialize (H4 _ _ _ _ Hj Hq); lia].
  - intros j k ev [[_ [= ]]|[? Hj]]%lookup_insert_Some. destruct (H5 j k ev Hj) as [?|(j2&k2&q&Hj2&Hq)]; [by left|]. right.
    exists j2, k2, q. rewrite lookup_insert_ne; [done|]. intros ->. congruence.
Qed.

(** The loader removes its sentinel and still owes the signal. *)
Lemma protocol_pop lo next sg m i key ev r :
  protocol_inv lo next sg m → m !! i = Some (key, Leaving ev r) →
  protocol_inv (delete key lo) next sg (<[i := (key, Signalling ev r)]> m).
Proof.
  intros [H1 H2 H3 H4 H5] Hi. split.
  - intros k ev' [Hne Hk]%lookup_delete_Some. destruct (H1 k ev' Hk) as (j&q&Hj&Hq). exists j, q. rewrite lookup_insert_ne; [done|].
    intros ->. rewrite Hi in Hj. by injection Hj as <- <-.
  - intros j k q ev' [[_ [= <- <-]]|[Hne Hj]]%lookup_insert_Some Hq; [done|]. pose proof (H2 _ _ _ _ Hj Hq) as Hl.
    rewrite lookup_delete_ne; [done|]. intros <-. rewrite (H2 i key _ ev Hi eq_refl) in Hl. injection Hl as <-.
    apply Hne. eapply H3; [exact Hi|exact Hj|done|by apply holds_owes].
  - intros j1 j2 k1 k2 q1 q2 ev' [[<- [= <- <-]]|[? Hj1]]%lookup_insert_Some [[<- [= <- <-]]|[? Hj2]]%lookup_insert_Some Hq1 Hq2;
      [done|by apply (H3 i j2 key k2 (Leaving ev r) q2 ev')|by apply (H3 j1 i k1 key q1 (Leaving ev r) ev')|eauto].
  - intros j k q ev' [[<- [= <- <-]]|[? Hj]]%lookup_insert_Some Hq; [by apply (H4 i key (Leaving ev r))|eauto].
  - intros j k ev' [[_ [= ]]|[? Hj]]%lookup_insert_Some. destruct (H5 j k ev' Hj) as [?|(j2&k2&q&Hj2&Hq)]; [by left|]. right.
    destruct (decide (i = j2)) as [->|Hne]; [|exists j2, k2, q; by rewrite lookup_insert_ne].
    exists j2, key, (Signalling ev r). rewrite lookup_insert_eq. split; [done|]. rewrite Hi in Hj2. by injection Hj2 as <- <-.
Qed.

Lemma protocol_signal lo next sg m i key ev r :
  protocol_inv lo next sg m → m !! i = Some (key, Signalling ev r) →
  protocol_inv lo next ({[ev]} ∪ sg) (<[i := (key, Done r)]> m).
Proof.
  intros [H1 H2 H3 H4 H5] Hi. split.
  - intros k ev' Hk. destruct (H1 k ev' Hk) as (j&q&Hj&Hq). exists j, q. rewrite lookup_insert_ne; [done|]. intros ->. rewrite Hi in Hj. by injection Hj as <- <-.
  - intros j k q ev' [[_ [= <- <-]]|[Hne Hj]]%lookup_insert_Some Hq; [done|eauto].
  - intros j1 j2 k1 k2 q1 q2 ev' [[<- [= <- <-]]|[? Hj1]]%lookup_insert_Some [[<- [= <- <-]]|[? Hj2]]%lookup_insert_Some Hq1 Hq2; [done..|eauto].
  - intros j k q ev' [[<- [= <- <-]]|[? Hj]]%lookup_insert_Some Hq; [done|eauto].
  - intros j k ev' [[_ [= ]]|[? Hj]]%lookup_insert_Some. destruct (H5 j k ev' Hj) as [?|(j2&k2&q&Hj2&Hq)]; [set_solver|].
    destruct (decide (i = j2)) as [->|Hne]; [|right; exists j2, k2, q; by rewrite lookup_insert_ne].
    rewrite Hi in Hj2. injection Hj2 as <- <-. injection Hq as <-. set_solver.
Qed.

Lemma protocol_call lo next sg m i key :
  protocol_inv lo next sg m → m !! i = None → protocol_inv lo next sg (<[i := (key, Ready)]> m).
Proof.
  intros [H1 H2 H3 H4 H5] Hi. assert (∀ j k q, m !! j = Some (k, q) → <[i := (key, Ready)]> m !! j = Some (k, q)) as Hf.
  { intros j k q Hj. rewrite lookup_insert_ne; [done|]. intros ->. congruence. }
  split.
  - intros k ev Hk. destruct (H1 k ev Hk) as (j&q&Hj&Hq). eauto.
  - intros j k q ev [[_ [= <- <-]]|[_ Hj]]%lookup_insert_Some; [done|eauto].
  - intros j1 j2 k1 k2 q1 q2 ev' [[<- [= <- <-]]|[? Hj1]]%lookup_insert_Some [[<- [= <- <-]]|[? Hj2]]%lookup_insert_Some Hq1 Hq2; [done..|eauto].
  - intros j k q ev [[_ [= <- <-]]|[_ Hj]]%lookup_insert_Some; [done|eauto].
  - intros j k ev [[_ [= ]]|[_ Hj]]%lookup_insert_Some. destruct (H5 j k ev Hj) as [?|(j2&k2&q&Hj2&Hq)]; [by left|]. right. eauto 6.
Qed.

(** ** The whole system *)

(** [loads key v]: the loader of that key may return [v]. *)
Context (loads : text → V → Prop).

(** A move of one caller. *)
Inductive moves (key : text) : cache → pc → cache → pc → Prop :=
  | m_lookup c index_file now reload_ok :
      moves key c Ready (lookup_step key index_file now reload_ok c).2 (after_lookup (lookup_step key index_file now reload_ok c).1)
  | m_wake c ev : ev ∈ signalled c → moves key c (Waiting ev) c Ready
  | m_load c ev v : loads key v → moves key c (Loading ev) c (if rejects v then Leaving ev (Some v) else Loaded ev v)
  | m_fail c ev : moves key c (Loading ev) c (Leaving ev None)
  | m_store c ev v size mtime created now :
      moves key c (Loaded ev v) (store key v size mtime created now c) (Leaving ev (Some v))
  | m_pop c ev r : moves key c (Leaving ev r) (pop_loading key c) (Signalling ev r)
  | m_signal c ev r : moves key c (Signalling ev r) (set_event ev c) (Done r).

(** A call of another operation under the lock. *)
Inductive maintains : cache → cache → Prop :=
  | mt_invalidate key c : maintains c (invalidate key c)
  | mt_prefix pre n c c' : invalidate_prefix pre c = Ok (n, c') → maintains c c'
  | mt_clear c : maintains c (clear c)
  | mt_cleanup now c : maintains c (_cleanup_expired_entries now c)
  | mt_evict n c : maintains c (evict_lru_entries n c).2.

Inductive sys_step : system → system → Prop :=
  | s_move s i key p c' p' :
      callers s !! i = Some (key, p) → moves key (shared s) p c' p' →
      sys_step s {| shared := c'; callers := <[i := (key, p')]> (callers s) |}
  | s_call s i key :
      callers s !! i = None → sys_step s {| shared := shared s; callers := <[i := (key, Ready)]> (callers s) |}
  | s_maintain s c' :
      maintains (shared s) c' → sys_step s {| shared := c'; callers := callers s |}.

Definition start : system := {| shared := empty_cache; callers := ∅ |}.

Definition reachable (s : system) : Prop := rtc sys_step start s.

(** The value a caller has in hand. *)
Definition carries (p : pc) : option V :=
  match p with
  | Loaded _ v => Some v
  | Leaving _ r | Signalling _ r | Done r => r
  | _ => None
  end.

(** Keys are unique, the limit holds, and every value comes from a loader of its key. *)
Record entries_inv (l : list (text * entry V)) : Prop := {
  ei_nodup : NoDup l.*1;
  ei_within : within l;
  ei_loads : ∀ key e, (key, e) ∈ l → loads key (value e) }.

Lemma entries_inv_sub l k : l `sublist_of` k → entries_inv k → entries_inv l.
Proof.
  intros Hs [H1 H2 H3]. split; [|by eapply within_sub|].
  - eapply sublist_NoDup; [exact H1|by apply fmap_sublist].
  - intros key e Hin. apply H3. by eapply sublist_elem_of.
Qed.

Record sys_inv (s : system) : Prop := {
  si_entries : entries_inv (entries (shared s));
  si_protocol : protocol_inv (loading (shared s)) (next_event (shared s)) (signalled (shared s)) (callers s);
  si_carries : ∀ i key p v, callers s !! i = Some (key, p) → carries p = Some v → loads key v }.

Lemma entries_dset l key e : entries_inv l → loads key (value e) → within (dset key e l) → entries_inv (dset key e l).
Proof.
  intros [H1 H2 H3] Hv Hw. split; [by apply dset_NoDup|done|]. intros k x Hx.
  assert (Forall (λ p, loads p.1 (value p.2)) (dset key e l)) as Hall.
  { apply dset_Forall; [done|]. apply Forall_forall. intros [k' x'] Hin. by apply H3. }
  rewrite Forall_forall in Hall. by apply (Hall (k, x)).
Qed.

(** Recording an access keeps the sizes. *)
Lemma within_hit l key e now : dget key l = Some e → within l → within (dset key (record_access now e) l).
Proof.
  intros Hg. apply within_sizes. clear -Hg. induction l as [|[k x] l IH]; [done|]. cbn in *. case_decide; subst; cbn; [by injection Hg as ->|].
  f_equal. by apply IH.
Qed.

Lemma entries_inv_hit l key e now : dget key l = Some e → entries_inv l → entries_inv (dset key (record_access now e) l).
Proof.
  intros Hg Hi. apply entries_dset; [done| |apply within_hit; [done|apply Hi]]. cbn. apply Hi. by apply dget_elem_of.
Qed.

Lemma entries_inv_store c key v size mtime created now :
  entries_inv (entries c) → loads key v → entries_inv (entries (store key v size mtime created now c)).
Proof.
  intros Hi Hv. unfold store. set (e := record_access _ _). set (l := dset key e (entries c)).
  assert (NoDup l.*1) as Hnd by (apply dset_NoDup; apply Hi).
  pose proof (enforce_sub l Hnd) as Hs. pose proof (enforce_within l Hnd) as Hw. destruct (enforce l) as [l' n]. cbn in *.
  split; [eapply sublist_NoDup; [exact Hnd|by apply fmap_sublist]|done|].
  intros k x Hx. assert ((k, x) ∈ l) as Hl by (by eapply sublist_elem_of).
  assert (Forall (λ p, loads p.1 (value p.2)) l) as Hall.
  { apply dset_Forall; [done|]. apply Forall_forall. intros [k' x'] Hin. by apply Hi. }
  rewrite Forall_forall in Hall. by apply (Hall (k, x)).
Qed.

Lemma evict_n_sublist n l : evict_n n l `sublist_of` l.
Proof.
  revert l. induction n as [|n IH]; intros l; [done|]. cbn. destruct l as [|p l]; [done|].
  etransitivity; [apply IH|apply evict_lru_sublist].
Qed.

(** Maintenance removes entries and touches nothing else of the protocol. *)
Lemma maintains_frame c c' : maintains c c' →
  entries c' `sublist_of` entries c ∧ loading c' = loading c ∧ next_event c' = next_event c ∧ signalled c' = signalled c.
Proof.
  destruct 1 as [key c|pre n c c' Hp|c|now c|n c]; try (split_and!; [apply sublist_filter|done..]).
  - unfold invalidate_prefix in Hp. destruct pre; [done|]. injection Hp as <- <-. split_and!; [apply sublist_filter|done..].
  - unfold evict_lru_entries. destruct (n <=? 0)%Z; [done|]. split_and!; [apply evict_n_sublist|done..].
Qed.

Lemma lookup_cases key index_file now ok c :
  let '(r, c') := lookup_step key index_file now ok c in
  signalled c' = signalled c ∧
  ((∃ e, dget key (entries c) = Some e ∧ r = Hit (value e) ∧ entries c' = dset key (record_access now e) (entries c) ∧
      loading c' = loading c ∧ next_event c' = next_event c) ∨
   (entries c' `sublist_of` entries c ∧
     ((∃ ev, loading c !! key = Some ev ∧ r = Wait ev ∧ loading c' = loading c ∧ next_event c' = next_event c) ∨
      (loading c !! key = None ∧ r = Load (next_event c) ∧ loading c' = <[key := next_event c]> (loading c) ∧
       next_event c' = S (next_event c))))).
Proof.
  unfold lookup_step. assert (∀ c0, loading c0 = loading c → next_event c0 = next_event c → signalled c0 = signalled c →
    entries c0 `sublist_of` entries c → let '(r, c') := miss key c0 in
    signalled c' = signalled c ∧ (entries c' `sublist_of` entries c ∧
     ((∃ ev, loading c !! key = Some ev ∧ r = Wait ev ∧ loading c' = loading c ∧ next_event c' = next_event c) ∨
      (loading c !! key = None ∧ r = Load (next_event c) ∧ loading c' = <[key := next_event c]> (loading c) ∧
       next_event c' = S (next_event c))))) as Hmiss.
  { intros c0 Hl Hn Hs He. unfold miss. rewrite Hl. destruct (loading c !! key) as [ev|]; cbn; rewrite Hn; split_and!; try done.
    - left. by exists ev.
    - by right. }
  destruct (dget key (entries c)) as [e|].
  - destruct (servable index_file now e); cbn; [split; [done|]; left; by exists e|].
    specialize (Hmiss (set_entries (ddel key (entries c)) 1 0 c) eq_refl eq_refl eq_refl (sublist_filter _ _)).
    destruct (miss _ _). destruct Hmiss. by split; [|right].
  - specialize (Hmiss c eq_refl eq_refl eq_refl (reflexivity _)). destruct (miss _ _). destruct Hmiss. by split; [|right].
Qed.

Lemma sys_inv_start : sys_inv start.
Proof. split; [split; [constructor|apply within_nil|by intros ?? ?%elem_of_nil]|split; cbn; intros *; by rewrite lookup_empty|cbn; intros *; by rewrite lookup_empty]. Qed.

(** The part of the invariant on values in hand. *)
Lemma carries_insert (m : gmap nat (text * pc)) i key p' :
  (∀ j k p v, m !! j = Some (k, p) → carries p = Some v → loads k v) → (∀ v, carries p' = Some v → loads key v) →
  ∀ j k p v, <[i := (key, p')]> m !! j = Some (k, p) → carries p = Some v → loads k v.
Proof. intros Hm Hp j k p v [[_ [= <- <-]]|[_ Hj]]%lookup_insert_Some; [apply Hp|by eapply Hm]. Qed.

Lemma sys_inv_move s i key p c' p' :
  sys_inv s → callers s !! i = Some (key, p) → moves key (shared s) p c' p' →
  sys_inv {| shared := c'; callers := <[i := (key, p')]> (callers s) |}.
Proof.
  intros [He Hp Hc] Hi Hm. remember (shared s) as c eqn:Hcs. destruct Hm as [c idx now ok|c ev Hev|c ev v Hv|c ev|c ev v size mtime created now|c ev r|c ev r].
  - pose proof (lookup_cases key idx now ok c) as Hl. destruct (lookup_step key idx now ok c) as [r c']. cbn.
    destruct Hl as (Hs&[(e&Hg&->&Hent&Hlo&Hn)|(Hsub&[(ev&Hlo&->&Hl'&Hn)|(Hlo&->&Hl'&Hn)])]).
    + split; cbn; rewrite ?Hent, ?Hlo, ?Hn, ?Hs; [by apply entries_inv_hit|by eapply protocol_quiet|].
      apply carries_insert; [done|]. cbn. intros v [= <-]. apply He. by apply dget_elem_of.
    + split; cbn; rewrite ?Hl', ?Hn, ?Hs; [by eapply entries_inv_sub|by eapply protocol_wait|by apply carries_insert].
    + split; cbn; rewrite ?Hl', ?Hn, ?Hs; [by eapply entries_inv_sub|by eapply protocol_load|by apply carries_insert].
  - split; [done|by eapply protocol_quiet|by apply carries_insert].
  - split; cbn; [done| |apply carries_insert; [done|]; destruct (rejects v); cbn; by intros ? [= <-]].
    eapply protocol_same; [done|done|done|by destruct (rejects v)].
  - split; cbn; [done|by eapply protocol_same|by apply carries_insert].
  - assert (loads key v) as Hv by (by eapply Hc). split; cbn.
    + by apply entries_inv_store.
    + unfold store. destruct (enforce _). by eapply protocol_same.
    + apply carries_insert; [done|]. by intros ? [= <-].
  - split; cbn; [done|by apply protocol_pop|apply carries_insert; [done|]; intros v Hr; by eapply Hc].
  - split; cbn; [done|by apply protocol_signal|apply carries_insert; [done|]; intros v Hr; by eapply Hc].
Qed.

Lemma sys_inv_step s s' : sys_inv s → sys_step s s' → sys_inv s'.
Proof.
  intros Hi Hs. destruct Hs as [s i key p c' p' Hl Hm|s i key Hl|s c' Hm]; [by eapply sys_inv_move|..]; destruct Hi as [He Hp Hc].
  - split; cbn; [done|by apply protocol_call|by apply carries_insert].
  - apply maintains_frame in Hm as (Hsub&Hl&Hn&Hsg). split; cbn; rewrite ?Hl, ?Hn, ?Hsg; [by eapply entries_inv_sub|done|done].
Qed.

Lemma sys_inv_reachable s : reachable s → sys_inv s.
Proof. apply (rtc_ind_r (λ s, sys_inv s)); [apply sys_inv_start|]. intros x y _ Hs Hi. by eapply sys_inv_step. Qed.

(** Loads are deduplicated: at any time at most one caller runs the loader of a
    key, from planting the sentinel to removing it. *)
Theorem single_flight s i j key p q :
  reachable s → callers s !! i = Some (key, p) → callers s !! j = Some (key, q) →
  is_Some (holds p) → is_Some (holds q) → i = j.
Proof.
  intros [_ Hp _]%sys_inv_reachable Hi Hj [ev Hev] [ev' Hev']. pose proof (pi_sentinel _ _ _ _ Hp _ _ _ _ Hi Hev) as H1.
  pose proof (pi_sentinel _ _ _ _ Hp _ _ _ _ Hj Hev') as H2. rewrite H1 in H2. injection H2 as <-.
  eapply (pi_unique _ _ _ _ Hp); [done|done|by apply holds_owes|by apply holds_owes].
Qed.

(** How many moves a loader is away from setting its event, at most. *)
Definition rank (p : pc) : nat :=
  match p with Loading _ => 4 | Loaded _ _ => 3 | Leaving _ _ => 2 | Signalling _ _ => 1 | _ => 0 end.

(** No caller waits forever.  Whoever waits for an event either finds it set and can
    go on, or some other caller owes that event: that caller can move, and each of its
    moves sets the event or brings it one move nearer, whether its load succeeds or
    fails. *)
Theorem waiter_progress s i key ev :
  reachable s → callers s !! i = Some (key, Waiting ev) →
  moves key (shared s) (Waiting ev) (shared s) Ready ∨
  ∃ j key' p, j ≠ i ∧ callers s !! j = Some (key', p) ∧ owes p = Some ev ∧ rank p ≤ 4 ∧
    (∃ c' p', moves key' (shared s) p c' p') ∧
    (∀ c' p', moves key' (shared s) p c' p' → ev ∈ signalled c' ∨ owes p' = Some ev ∧ rank p' < rank p).
Proof.
  intros [_ Hp _]%sys_inv_reachable Hi. destruct (pi_waiting _ _ _ _ Hp _ _ _ Hi) as [Hs|(j&key'&p&Hj&Ho)]; [left; by constructor|].
  right. exists j, key', p. split_and!; [intros ->; rewrite Hi in Hj; by injection Hj as <- <-|done|done|by destruct p; cbn; lia| |].
  - destruct p; try done; eexists _, _; [apply m_fail|apply (m_store _ _ _ _ 0%N None 0%Q 0%Q)|apply m_pop|apply m_signal].
  - intros c' p' Hm. destruct Hm as [| |c ev' v Hv|c ev'|c ev' v|c ev' r|c ev' r]; try done; injection Ho as ->; cbn.
    + right. destruct (rejects v); cbn; (split; [done|lia]).
    + right. split; [done|lia].
    + right. split; [done|lia].
    + right. split; [done|lia].
    + left. set_solver.
Qed.

(** The cache never mixes up repositories and never exceeds its limit: in every
    reachable state keys are unique, the limit holds, every entry and every result
    handed to a caller was returned by a loader of that very key. *)
Theorem cache_safe s :
  reachable s →
  NoDup (entries (shared s)).*1 ∧ within (entries (shared s)) ∧
  (∀ key e, (key, e) ∈ entries (shared s) → loads key (value e)) ∧
  (∀ i key v, callers s !! i = Some (key, Done (Some v)) → loads key v).
Proof. intros [[H1 H2 H3] _ Hc]%sys_inv_reachable. split_and!; [done..|]. intros i key v Hi. by eapply Hc. Qed.
End cache.
Arguments cache : clear implicits.
Arguments lookup_result : clear implicits.
Arguments pc : clear implicits.
Arguments system : clear implicits.

(** ** The three caches *)

Lemma total_sizes {V} (l k : list (text * entry V)) :
  (λ p, index_size_bytes p.2) <$> l = (λ p, index_size_bytes p.2) <$> k → total_bytes l = total_bytes k.
Proof.
  unfold total_bytes. revert k. induction l as [|p l IH]; intros [|q k]; cbn; try done. intros [= -> H]. by rewrite (IH k).
Qed.

Definition fits {V} (max_cache_size_mb : option N) (l : list (text * entry V)) : Prop :=
  match max_cache_size_mb with Some mb => (total_bytes l <= mb * MB)%N | None => True end.

Lemma enforce_size_fits {V} mb (l : list (text * entry V)) :
  NoDup l.*1 → (_enforce_size_limit mb l).1 `sublist_of` l ∧ fits mb (_enforce_size_limit mb l).1.
Proof.
  intros Hnd. destruct mb as [mb|]; [|done]. cbn. set (f := _evict_oversized_entries _ l).
  assert (f `sublist_of` l) as Hf by apply sublist_filter.
  destruct (evict_while_spec (length f) (over_bytes (mb * MB)) f) as (H1&H2&_&_); [by apply N.ltb_ge, N.le_0_l| |done|].
  { eapply sublist_NoDup; [exact Hnd|by apply fmap_sublist]. }
  split; [by etransitivity|]. by apply N.ltb_ge in H2.
Qed.

Lemma fits_sub {V} mb (l k : list (text * entry V)) : l `sublist_of` k → fits mb k → fits mb l.
Proof. destruct mb as [mb|]; [|done]. intros Hs%total_sublist. cbn. lia. Qed.

Lemma fits_sizes {V} mb (l k : list (text * entry V)) :
  (λ p, index_size_bytes p.2) <$> l = (λ p, index_size_bytes p.2) <$> k → fits mb l → fits mb k.
Proof. intros H%total_sizes. destruct mb; [|done]. cbn. by rewrite H. Qed.

Lemma fits_nil {V} mb : fits mb ([] : list (text * entry V)).
Proof. destruct mb; [|done]. cbn. lia. Qed.

(** A missing HNSW index is returned but not cached. *)
#[local] Program Instance hnsw_policy (I M : Type) (max_cache_size_mb : option N) : Policy (option I * M) := {
  rejects v := match v.1 with None => true | Some _ => false end;
  reload_on_access := false;
  enforce := _enforce_size_limit max_cache_size_mb;
  within := fits max_cache_size_mb }.
Next Obligation. intros. by apply enforce_size_fits. Qed.
Next Obligation. intros. by apply enforce_size_fits. Qed.
Next Obligation. intros. apply fits_nil. Qed.
Next Obligation. intros I M mb l k. apply fits_sub. Qed.
Next Obligation. intros I M mb l k. apply fits_sizes. Qed.

#[local] Program Instance fts_policy (I S : Type) (reload : bool) (max_cache_size_mb : option N) : Policy (I * S) := {
  rejects v := false;
  reload_on_access := reload;
  enforce := _enforce_size_limit max_cache_size_mb;
  within := fits max_cache_size_mb }.
Next Obligation. intros. by apply enforce_size_fits. Qed.
Next Obligation. intros. by apply enforce_size_fits. Qed.
Next Obligation. intros. apply fits_nil. Qed.
Next Obligation. intros I S reload mb l k. apply fits_sub. Qed.
Next Obligation. intros I S reload mb l k. apply fits_sizes. Qed.

#[local] Program Instance id_policy (I : Type) (max_entries : option nat) : Policy I := {
  rejects v := false;
  reload_on_access := false;
  enforce := _enforce_entry_limit max_entries;
  within l := match max_entries with Some n => length l ≤ n | None => True end }.
Next Obligation. intros I [n|] l Hnd; [by apply enforce_entry_limit_spec|done]. Qed.
Next Obligation. intros I [n|] l Hnd; [by apply enforce_entry_limit_spec|done]. Qed.
Next Obligation. intros I [n|]; cbn; [lia|done]. Qed.
Next Obligation. intros I [n|] l k Hs Hk; cbn in *; [apply sublist_length in Hs; lia|done]. Qed.
Next Obligation. intros I [n|] l k He Hl; cbn in *; [|done]. apply (f_equal length) in He. rewrite !length_fmap in He. lia. Qed.

(** ** Instances *)

Section instances.
#[local] Instance demo_policy : Policy (option nat * nat) := hnsw_policy nat nat (Some 1%N).

Definition demo_loads (key : text) (v : option nat * nat) : Prop := v = (Some (length key), 0).

(** Two callers of one key: one loads, the other waits. *)
Lemma demo_two : ∃ s, reachable 10 demo_loads s ∧
  callers s !! 0 = Some (txt "a", Loading 0) ∧ callers s !! 1 = Some (txt "a", Waiting 0).
Proof.
  eexists. split.
  - eapply rtc_l; [apply (s_call _ _ _ 0 (txt "a")); done|]. eapply rtc_l; [apply (s_call _ _ _ 1 (txt "a")); done|].
    eapply rtc_l; [eapply (s_move _ _ _ 0); [reflexivity|apply (m_lookup _ _ _ _ None 0%Q true)]|].
    eapply rtc_l; [eapply (s_move _ _ _ 1); [reflexivity|apply (m_lookup _ _ _ _ None 0%Q true)]|]. apply rtc_refl.
  - by vm_compute.
Qed.

(** The first caller has stored its value and returned. *)
Lemma demo_done : ∃ s, reachable 10 demo_loads s ∧
  callers s !! 0 = Some (txt "a", Done (Some (Some 1, 0))) ∧ length (entries (shared s)) = 1.
Proof.
  eexists. split.
  - eapply rtc_l; [apply (s_call _ _ _ 0 (txt "a")); done|].
    eapply rtc_l; [eapply (s_move _ _ _ 0); [reflexivity|apply (m_lookup _ _ _ _ None 0%Q true)]|].
    eapply rtc_l; [eapply (s_move _ _ _ 0); [reflexivity|apply (m_load _ _ _ _ _ (Some 1, 0)); done]|].
    eapply rtc_l; [eapply (s_move _ _ _ 0); [reflexivity|apply (m_store _ _ _ _ _ _ 7%N None 0%Q 0%Q)]|].
    eapply rtc_l; [eapply (s_move _ _ _ 0); [reflexivity|apply m_pop]|].
    eapply rtc_l; [eapply (s_move _ _ _ 0); [reflexivity|apply m_signal]|]. apply rtc_refl.
  - by vm_compute.
Qed.

Lemma single_flight_witness : ∃ s : system (option nat * nat), callers s !! 0 = Some (txt "a", Loading 0) ∧
  ∀ j q, callers s !! j = Some (txt "a", q) → is_Some (holds q) → 0 = j.
Proof.
  destruct demo_two as (s&Hr&H0&_). exists s. split; [done|]. intros j q Hj Hq.
  exact (single_flight 10 demo_loads s 0 j (txt "a") (Loading 0) q Hr H0 Hj (ex_intro _ 0 eq_refl) Hq).
Defined.

Lemma waiter_progress_witness : ∃ s : system (option nat * nat), callers s !! 1 = Some (txt "a", Waiting 0) ∧
  (moves 10 demo_loads (txt "a") (shared s) (Waiting 0) (shared s) Ready ∨ ∃ j key' p, j ≠ 1 ∧ callers s !! j = Some (key', p) ∧ owes p = Some 0).
Proof.
  destruct demo_two as (s&Hr&_&H1). exists s. split; [done|].
  destruct (waiter_progress 10 demo_loads s 1 (txt "a") 0 Hr H1) as [?|(j&k&p&?&?&?&_)]; [by left|right; by exists j, k, p].
Defined.

Lemma cache_safe_witness : ∃ s : system (option nat * nat), callers s !! 0 = Some (txt "a", Done (Some (Some 1, 0))) ∧
  within (entries (shared s)) ∧ demo_loads (txt "a") (Some 1, 0).
Proof.
  destruct demo_done as (s&Hr&H0&_). exists s. destruct (cache_safe 10 demo_loads s Hr) as (_&Hw&_&Hd). split; [done|]. split; [done|]. by apply (Hd 0).
Defined.

(** The file's time is read after the load.  When the index is rebuilt in between, the
    old index is cached under the new time and the staleness check never fires. *)
Lemma rebuild_during_load_is_missed :
  let c := store 10 (txt "a") (Some 1, 0) 7 (Some (5 # 1)) 5 5 empty_cache in
  (lookup_step (txt "a") (Some (Some (5 # 1))) 6 true c).1 = Hit (Some 1, 0).
Proof. by vm_compute. Qed.

(** An invalidation that comes while the key is being loaded is undone by the store. *)
Lemma invalidation_during_load_is_lost :
  let c1 := (lookup_step (txt "a") None 0 true empty_cache).2 in
  let c2 := store 10 (txt "a") (Some 1, 0) 7 None 1 1 (invalidate (txt "a") c1) in
  (lookup_step (txt "a") None 2 true (pop_loading (txt "a") c2)).1 = Hit (Some 1, 0).
Proof. by vm_compute. Qed.
End instances.

Lemma enforce_size_limit_spec_witness :
  let e := λ t n, {| value := tt; ttl_minutes := 10; created_at := 0; last_accessed := t; access_count := 1; index_size_bytes := n; index_file_mtime := None |} in
  let l := [(txt "a", e 3%Q 700000%N); (txt "b", e 1%Q 600000%N); (txt "big", e 9%Q 2000000%N); (txt "c", e 2%Q 300000%N)] in
  ((_enforce_size_limit (Some 1%N) l).1).*1 = [txt "a"; txt "c"] ∧ (total_bytes (_enforce_size_limit (Some 1%N) l).1 <= 1 * MB)%N.
Proof.
  intros e l. split; [by vm_compute|]. apply (enforce_size_limit_spec 1 l). apply (bool_decide_unpack _). by vm_compute.
Defined.
End IndexCache.
