(* ===== verification/JobStore.v ===== *)
(** * Background job rows and the job tracker

    The table [background_jobs] and its backend [BackgroundJobsSqliteBackend]
    (src/src/code_indexer/server/storage/sqlite_backends.py), the partial unique index
    [idx_active_job_per_repo] (storage/database_manager.py), and [JobTracker]
    (services/job_tracker.py), which keeps its active jobs in memory and mirrors them
    into the table.

    A table is a map from job id to row.  An [execute_atomic] block is one function on
    the table that returns an error, and no table, when a constraint fails.  A tracker
    operation is split where the code releases its lock: the change of the dictionary
    and the write of the snapshot are two functions, which the manager's threads
    interleave (file BackgroundJobs.v).  Times are microseconds since the epoch; ISO
    texts of one time zone compare as the times do.  Dicts that the code only stores
    (metadata, the self-healing fields) are opaque texts. *)

From S2P Require Import Prelude PyText.
From stdpp Require Import options.
Local Open Scope Z_scope.

Module JobStore.

Inductive JobStatus :=
| PENDING | RUNNING | COMPLETED | COMPLETED_PARTIAL | FAILED | CANCELLED | RESOLVING_PREREQUISITES.

#[export] Instance JobStatus_eq_dec : EqDecision JobStatus.
Proof. solve_decision. Defined.

(** [_TERMINAL_JOB_STATUSES], the same tuple in the tracker and in both backends. *)
Definition terminal (s : JobStatus) : bool :=
  match s with COMPLETED | COMPLETED_PARTIAL | FAILED | CANCELLED => true | _ => false end.

(** [status IN ('pending', 'running')]. *)
Definition active (s : JobStatus) : bool := match s with PENDING | RUNNING => true | _ => false end.

(** The status reports a completed run. *)
Definition completed (s : JobStatus) : bool :=
  match s with COMPLETED | COMPLETED_PARTIAL => true | _ => false end.

(** What a job function returns, as far as the code looks into it. *)
Inductive value := VBool (b : bool) | VStr (s : string) | VOther (repr : string).

#[export] Instance value_eq_dec : EqDecision value.
Proof. solve_decision. Defined.

Inductive ret := RDict (d : list (string * value)) | ROther (truthy : bool) (repr : string).

(** [json.dumps(x) if x else None] as a stored column. *)
Definition if_truthy (r : option ret) : option ret :=
  match r with
  | Some (RDict []) | Some (ROther false _) => None
  | _ => r
  end.

(** The self-healing fields, which travel together. *)
Record Healing := {
  resolution_attempts : Z; claude_actions : option string; failure_reason : option string;
  extended_error : option string; language_resolution_status : option string }.

Definition no_healing : Healing :=
  {| resolution_attempts := 0; claude_actions := None; failure_reason := None;
     extended_error := None; language_resolution_status := None |}.

(** The fields that a job in memory and its row share: the keys of [_snapshot_job]. *)
Record Job := mkJob {
  operation_type : string; status : JobStatus; created_at : Z;
  started_at : option Z; completed_at : option Z; result : option ret; error : option value;
  progress : Z; username : string; is_admin : bool; cancelled : bool; repo_alias : option string;
  healing : Healing; current_phase : option string; phase_detail : option string;
  actor_username : option string }.

(** Assignments to the fields that change after creation. *)
Inductive attr :=
| AStatus (s : JobStatus) | AStarted (t : option Z) | ACompleted (t : option Z) | AResult (r : option ret)
| AError (e : option value) | AProgress (p : Z) | ACancelled (b : bool) | AHealing (h : Healing)
| APhase (p : option string) | ADetail (d : option string).

Definition set_attr (j : Job) (a : attr) : Job :=
  let 'mkJob op st cr sa co re er pr us ad ca al he ph de ac := j in
  match a with
  | AStatus x => mkJob op x cr sa co re er pr us ad ca al he ph de ac
  | AStarted x => mkJob op st cr x co re er pr us ad ca al he ph de ac
  | ACompleted x => mkJob op st cr sa x re er pr us ad ca al he ph de ac
  | AResult x => mkJob op st cr sa co x er pr us ad ca al he ph de ac
  | AError x => mkJob op st cr sa co re x pr us ad ca al he ph de ac
  | AProgress x => mkJob op st cr sa co re er x us ad ca al he ph de ac
  | ACancelled x => mkJob op st cr sa co re er pr us ad x al he ph de ac
  | AHealing x => mkJob op st cr sa co re er pr us ad ca al x ph de ac
  | APhase x => mkJob op st cr sa co re er pr us ad ca al he x de ac
  | ADetail x => mkJob op st cr sa co re er pr us ad ca al he ph x ac
  end.

Definition assign (l : list attr) (j : Job) : Job := foldl set_attr j l.

(** ** The table *)

Record Row := mkRow {
  cols : Job; progress_info : option string; metadata : option string;
  executing_node : option string; claimed_at : option Z }.

Inductive column := Attr (a : attr) | CInfo (i : option string) | CMeta (m : option string).

Definition set_column (r : Row) (c : column) : Row :=
  let 'mkRow j pi md no cl := r in
  match c with
  | Attr a => mkRow (set_attr j a) pi md no cl
  | CInfo x => mkRow j x md no cl
  | CMeta x => mkRow j pi x no cl
  end.

(** A violated primary key or unique index, or any other failure of a statement. *)
Inductive db_error := IntegrityError | OperationalError.

(** The entry of a row in [idx_active_job_per_repo]. *)
Definition index_key (r : Row) : option (string * string) :=
  if active (status (cols r)) then (λ a, (operation_type (cols r), a)) <$> repo_alias (cols r) else None.

(** Another row has the index entry of [r]. *)
Definition violates (j : string) (r : Row) (t : gmap string Row) : bool :=
  match index_key r with
  | None => false
  | Some k => existsb (λ kr, negb (bool_decide (kr.1 = j)) && bool_decide (index_key kr.2 = Some k)) (map_to_list t)
  end.

(** The row that [save_job] and [atomic_claim_insert] insert. *)
Definition new_row (job : Job) (info meta node : option string) : Row :=
  mkRow (assign [AResult (if_truthy (result job))] job) info meta node None.

(** [INSERT OR IGNORE]. *)
Definition save_job (j : string) (r : Row) (t : gmap string Row) : gmap string Row :=
  if bool_decide (is_Some (t !! j)) || violates j r t then t else <[j := r]> t.

(** A plain [INSERT]. *)
Definition atomic_claim_insert (j : string) (r : Row) (t : gmap string Row) : Prelude.result db_error (gmap string Row) :=
  if bool_decide (is_Some (t !! j)) || violates j r t then Err IntegrityError else Ok (<[j := r]> t).

Definition get_job (j : string) (t : gmap string Row) : option Row := t !! j.

(** [kwargs.get("status")]. *)
Fixpoint new_status (kwargs : list column) : option JobStatus :=
  match kwargs with
  | [] => None
  | Attr (AStatus s) :: _ => Some s
  | _ :: l => new_status l
  end.

Definition update_job (guard_terminal_status : bool) (kwargs : list column) (j : string) (t : gmap string Row) :
    Prelude.result db_error (gmap string Row) :=
  match kwargs, t !! j with
  | [], _ | _, None => Ok t
  | _, Some r =>
      if guard_terminal_status && from_option (λ s, negb (terminal s)) false (new_status kwargs)
         && terminal (status (cols r)) then Ok t
      else let r' := foldl set_column r kwargs in
           if violates j r' t then Err IntegrityError else Ok (<[j := r']> t)
  end.

(** [UPDATE ... SET status = 'failed' ... WHERE status IN ('running', 'pending') AND p];
    the number of rows and the table. *)
Definition fail_active (p : Row → bool) (msg : string) (now : Z) (t : gmap string Row) : nat * gmap string Row :=
  let hit r := active (status (cols r)) && p r in
  (size (filter (λ kr, hit kr.2) t),
   (λ r, if hit r then foldl set_column r
           [Attr (AStatus FAILED); Attr (AError (Some (VStr msg))); Attr (ACompleted (Some now))] else r) <$> t).

Definition fail_orphaned_jobs (msg : string) (now : Z) (t : gmap string Row) : nat * gmap string Row :=
  fail_active (λ _, true) msg now t.

Definition restart_message : string := "Job interrupted by server restart".

(** The SQLite backend ignores the node. *)
Definition cleanup_orphaned_jobs_on_startup (now : Z) (t : gmap string Row) : nat * gmap string Row :=
  fail_active (λ _, true) restart_message now t.

(** The PostgreSQL backend: nothing without a node, only that node's rows with one. *)
Definition pg_cleanup_orphaned_jobs_on_startup (node_id : option string) (now : Z) (t : gmap string Row) :
    nat * gmap string Row :=
  match node_id with
  | None => (0%nat, t)
  | Some _ => fail_active (λ r, bool_decide (executing_node r = node_id)) restart_message now t
  end.

Definition hour : Z := 3600 * 1000000.

(** The statuses that the clean-up of the table deletes. *)
Definition purgeable (s : JobStatus) : bool := match s with COMPLETED | FAILED | CANCELLED => true | _ => false end.

Definition expired (cutoff : Z) (r : Row) : bool :=
  purgeable (status (cols r)) && from_option (λ c, c <? cutoff) false (completed_at (cols r)).

Definition cleanup_old_jobs (max_age_hours now : Z) (t : gmap string Row) : nat * gmap string Row :=
  let cutoff := now - max_age_hours * hour in
  (size (filter (λ kr, expired cutoff kr.2) t), filter (λ kr, ¬ expired cutoff kr.2) t).

Definition delete_job (j : string) (t : gmap string Row) : bool * gmap string Row :=
  (bool_decide (is_Some (t !! j)), delete j t).

(** [if x: conditions.append("col = ?")]: an absent or empty argument is no condition. *)
Definition cond (arg : option string) (col : string) : bool :=
  match arg with None | Some "" => true | Some a => bool_decide (col = a) end.

(** The rows that satisfy the conditions, newest first, [LIMIT limit OFFSET offset]
    (a negative limit is no limit). *)
Definition list_jobs (user : option string) (st : option JobStatus) (op : option string) (limit : Z) (offset : nat)
    (t : gmap string Row) : list (string * Row) :=
  let hits := filter (λ kr, cond user (username (cols kr.2)) && cond op (operation_type (cols kr.2))
                            && from_option (λ s, bool_decide (status (cols kr.2) = s)) true st) (map_to_list t) in
  let rest := drop offset (sort_desc (λ kr, inject_Z (created_at (cols kr.2))) hits) in
  if limit <? 0 then rest else take (Z.to_nat limit) rest.

Definition find_active_job_by_type_and_alias (op alias : string) (t : gmap string Row) : option string :=
  fst <$> head (filter (λ kr, index_key kr.2 = Some (op, alias)) (map_to_list t)).

(** ** The tracker *)

Record TrackedJob := mkTracked {
  t_operation_type : string; t_status : JobStatus; t_username : string; t_repo_alias : option string;
  t_progress : Z; t_progress_info : option string; t_metadata : option string; t_created_at : Z;
  t_started_at : option Z; t_completed_at : option Z; t_error : option value; t_result : option ret;
  t_actor_username : option string }.

Definition new_tracked (op user : string) (alias meta : option string) (now : Z) : TrackedJob :=
  mkTracked op PENDING user alias 0 None meta now None None None None None.

(** [_dict_to_tracked_job], which leaves the actor out. *)
Definition tracked_of_row (r : Row) : TrackedJob :=
  let c := cols r in
  mkTracked (operation_type c) (status c) (username c) (repo_alias c) (progress c) (progress_info r) (metadata r)
    (created_at c) (started_at c) (completed_at c) (error c) (result c) None.

(** The row of a tracked job that is inserted for the first time. *)
Definition row_of_tracked (t : TrackedJob) (admin : bool) (actor node : option string) : Row :=
  new_row (mkJob (t_operation_type t) (t_status t) (t_created_at t) (t_started_at t) (t_completed_at t) (t_result t)
             (t_error t) (t_progress t) (t_username t) admin false (t_repo_alias t) no_healing None None actor)
    (t_progress_info t) (t_metadata t) node.

Definition insert_job (node : option string) (j : string) (t : TrackedJob) (rows : gmap string Row) : gmap string Row :=
  save_job j (row_of_tracked t false None node) rows.

(** The columns that [_upsert_job] sets. *)
Definition upsert_columns (t : TrackedJob) : list column :=
  [Attr (AStatus (t_status t)); Attr (AStarted (t_started_at t)); Attr (ACompleted (t_completed_at t));
   Attr (AResult (t_result t)); Attr (AError (t_error t)); Attr (AProgress (t_progress t));
   CInfo (t_progress_info t); CMeta (t_metadata t)].

Definition upsert_job (j : string) (t : TrackedJob) (rows : gmap string Row) : Prelude.result db_error (gmap string Row) :=
  update_job true (upsert_columns t) j rows.

Definition register_job (node : option string) (j op user : string) (alias meta : option string) (now : Z)
    (act : gmap string TrackedJob) (rows : gmap string Row) : gmap string TrackedJob * gmap string Row :=
  let t := new_tracked op user alias meta now in
  (<[j := t]> act, insert_job node j t rows).

Inductive register_error :=
| ValueError (name : string)
| DuplicateJobError (existing_job_id : string)
| BackendError.

Definition CONCURRENT_COMPLETED_SENTINEL : string := "(concurrent-completed)".
Definition MAX_ATOMIC_INSERT_ATTEMPTS : nat := 3.

(** Between a rejected insert and the look-up, and between the look-up and the next
    insert, other writers may change the table: [others] is what they do, in order. *)
Fixpoint insert_attempts (n : nat) (others : list (gmap string Row → gmap string Row)) (j : string) (r : Row)
    (op alias : string) (rows : gmap string Row) : Prelude.result register_error (gmap string Row) :=
  match n with
  | O => Err (DuplicateJobError CONCURRENT_COMPLETED_SENTINEL)
  | S n' =>
      match atomic_claim_insert j r rows with
      | Ok rows' => Ok rows'
      | Err _ =>
          let rows1 := default id (others !! 0%nat) rows in
          match find_active_job_by_type_and_alias op alias rows1 with
          | Some existing => Err (DuplicateJobError existing)
          | None => insert_attempts n' (drop 2 others) j r op alias (default id (others !! 1%nat) rows1)
          end
      end
  end.

Definition atomic_insert_or_raise := insert_attempts MAX_ATOMIC_INSERT_ATTEMPTS.

(** [_require_non_empty_str] fails. *)
Definition is_blank (s : string) : bool := blank (txt s).

Definition register_job_if_no_conflict (node : option string) (others : list (gmap string Row → gmap string Row))
    (j op user alias : string) (meta : option string) (admin : bool) (actor : option string) (stamp_executing_node : bool)
    (now : Z) (act : gmap string TrackedJob) (rows : gmap string Row) :
    Prelude.result register_error (gmap string TrackedJob * gmap string Row) :=
  if is_blank j then Err (ValueError "job_id")
  else if is_blank op then Err (ValueError "operation_type")
  else if is_blank user then Err (ValueError "username")
  else if is_blank alias then Err (ValueError "repo_alias")
  else
    let t := new_tracked op user (Some alias) meta now in
    rows' ← atomic_insert_or_raise others j
              (row_of_tracked t admin actor (if stamp_executing_node then node else None)) op alias rows;
    Ok (<[j := t]> act, rows').

(** The locked part of [update_status]: the snapshot to write and the dictionary. *)
Definition update_status (j : string) (st : option JobStatus) (pr : option Z) (info meta : option string) (now : Z)
    (act : gmap string TrackedJob) : option TrackedJob * gmap string TrackedJob :=
  match act !! j with
  | None => (None, act)
  | Some t =>
      let started := match st, t_started_at t with Some RUNNING, None => Some now | _, s => s end in
      let or_else {A} (o d : option A) := match o with Some x => Some x | None => d end in
      let t' := mkTracked (t_operation_type t) (default (t_status t) st) (t_username t) (t_repo_alias t)
                  (default (t_progress t) pr) (or_else info (t_progress_info t)) (or_else meta (t_metadata t))
                  (t_created_at t) started (t_completed_at t) (t_error t) (t_result t) (t_actor_username t) in
      (Some t', <[j := t']> act)
  end.

(** How [complete_job], [fail_job] and [cancel_job] end a job. *)
Inductive ending := Complete (r : option ret) | Fail (e : value) | Cancel.

Definition ending_status (e : ending) : JobStatus :=
  match e with Complete _ => COMPLETED | Fail _ => FAILED | Cancel => CANCELLED end.

(** The assignments to a tracked job; the two code paths make the same ones. *)
Definition finish (e : ending) (now : Z) (t : TrackedJob) : TrackedJob :=
  mkTracked (t_operation_type t) (ending_status e) (t_username t) (t_repo_alias t)
    (match e with Complete _ => 100 | _ => t_progress t end) (t_progress_info t) (t_metadata t) (t_created_at t)
    (t_started_at t) (Some now)
    (match e with Fail m => Some m | _ => t_error t end)
    (match e with Complete (Some r) => Some r | _ => t_result t end) (t_actor_username t).

(** [_active_jobs.pop(job_id, None)]. *)
Definition pop_active (j : string) (act : gmap string TrackedJob) : option TrackedJob * gmap string TrackedJob :=
  (act !! j, delete j act).

(** [_finalize_absent_job]: what to write, if anything. *)
Definition finalize_absent_job (j : string) (e : ending) (now : Z) (rows : gmap string Row) : option TrackedJob :=
  match rows !! j with
  | None => None
  | Some r => if terminal (status (cols r)) then None else Some (finish e now (tracked_of_row r))
  end.

(** [complete_job], [fail_job] and [cancel_job] without interference; a failed write
    propagates after the job has left the dictionary. *)
Definition end_job (j : string) (e : ending) (now : Z) (act : gmap string TrackedJob) (rows : gmap string Row) :
    gmap string TrackedJob * Prelude.result db_error (gmap string Row) :=
  let '(found, act') := pop_active j act in
  (act', match (match found with
                | Some t => Some (finish e now t)
                | None => finalize_absent_job j e now rows
                end) with
         | Some t => upsert_job j t rows
         | None => Ok rows
         end).

Definition is_cancelled (j : string) (rows : gmap string Row) : bool :=
  from_option (λ r, cancelled (cols r)) false (rows !! j).

(** Loading fails over to memory: the tracked job, or the row as one. *)
Definition tracker_get_job (j : string) (act : gmap string TrackedJob) (rows : gmap string Row) : option TrackedJob :=
  match act !! j with Some t => Some t | None => tracked_of_row <$> rows !! j end.

(** [TrackedOperation] around a body that returns or raises: the job is registered,
    marked running, and ended; the row writes are unhindered. *)
Definition tracked_operation (node : option string) (j op user : string) (alias meta : option string) (raised : option string)
    (t0 t1 t2 : Z) (act : gmap string TrackedJob) (rows : gmap string Row) :
    gmap string TrackedJob * Prelude.result db_error (gmap string Row) :=
  let '(act1, rows1) := register_job node j op user alias meta t0 act rows in
  let '(snap, act2) := update_status j (Some RUNNING) None None None t1 act1 in
  match (match snap with Some t => upsert_job j t rows1 | None => Ok rows1 end) with
  | Err e => (act2, Err e)
  | Ok rows2 => end_job j (match raised with Some m => Fail (VStr m) | None => Complete None end) t2 act2 rows2
  end.

(** ** Assignments and columns *)

Lemma status_set_attr j a : status (set_attr j a) = match a with AStatus s => s | _ => status j end.
Proof. by destruct j, a. Qed.

Lemma cancelled_set_attr j a : cancelled (set_attr j a) = match a with ACancelled b => b | _ => cancelled j end.
Proof. by destruct j, a. Qed.

Lemma operation_type_set_attr j a : operation_type (set_attr j a) = operation_type j.
Proof. by destruct j, a. Qed.

Lemma repo_alias_set_attr j a : repo_alias (set_attr j a) = repo_alias j.
Proof. by destruct j, a. Qed.

Lemma username_set_attr j a : username (set_attr j a) = username j.
Proof. by destruct j, a. Qed.

Lemma created_at_set_attr j a : created_at (set_attr j a) = created_at j.
Proof. by destruct j, a. Qed.

Lemma cols_set_column r c : cols (set_column r c) = match c with Attr a => set_attr (cols r) a | _ => cols r end.
Proof. by destruct r, c. Qed.

Lemma node_set_column r c : executing_node (set_column r c) = executing_node r.
Proof. by destruct r, c. Qed.

Create Rewrite HintDb jobs.
#[export] Hint Rewrite status_set_attr cancelled_set_attr operation_type_set_attr repo_alias_set_attr
  username_set_attr created_at_set_attr cols_set_column node_set_column : jobs.

Ltac job_simpl := unfold assign in *; cbn in *; autorewrite with jobs in *; cbn in *.

Lemma username_assign l j : username (assign l j) = username j.
Proof. revert j; induction l as [|a l IH]; intros j; [done|]. unfold assign in *. cbn. by rewrite IH, username_set_attr. Qed.

Lemma terminal_active s : terminal s = true → active s = false.
Proof. by destruct s. Qed.

Lemma completed_terminal s : completed s = true → terminal s = true.
Proof. by destruct s. Qed.

(** ** The unique index *)

(** At most one active row per operation and repository. *)
Definition unique_active (t : gmap string Row) : Prop :=
  ∀ i j r r' k, t !! i = Some r → t !! j = Some r' → index_key r = Some k → index_key r' = Some k → i = j.

Lemma violates_false j r t k : index_key r = Some k →
  violates j r t = false ↔ ∀ i r', t !! i = Some r' → index_key r' = Some k → i = j.
Proof.
  intros Hk. unfold violates. rewrite Hk. rewrite <- not_true_iff_false, existsb_exists. split.
  - intros H i r' Hi Hr. destruct (decide (i = j)) as [|Hne]; [done|]. exfalso. apply H.
    exists (i, r'). rewrite <- list_elem_of_In, elem_of_map_to_list. cbn. split; [done|].
    by rewrite bool_decide_eq_false_2, bool_decide_eq_true_2.
  - intros H ([i r'] & Hin%list_elem_of_In%elem_of_map_to_list & Hb). cbn in Hb.
    apply andb_true_iff in Hb as [Hb1 Hb2%bool_decide_eq_true]. apply negb_true_iff, bool_decide_eq_false in Hb1. eauto.
Qed.

Lemma unique_active_insert j r t : unique_active t → violates j r t = false → unique_active (<[j := r]> t).
Proof.
  intros Hu Hv x y rx ry k Hx Hy Hkx Hky.
  rewrite !lookup_insert_Some in *.
  destruct Hx as [[<- <-]|[Hx1 Hx]], Hy as [[<- <-]|[Hy1 Hy]]; [done| | |by eapply Hu].
  - symmetry. by eapply (violates_false j r t k).
  - by eapply (violates_false j r t k).
Qed.

Lemma unique_active_sub t t' :
  (∀ j r', t' !! j = Some r' → is_Some (index_key r') → ∃ r, t !! j = Some r ∧ index_key r = index_key r') →
  unique_active t → unique_active t'.
Proof.
  intros Hsub Hu x y rx ry k Hx Hy Hkx Hky.
  destruct (Hsub _ _ Hx ltac:(eauto)) as (rx' & Hx' & Ex), (Hsub _ _ Hy ltac:(eauto)) as (ry' & Hy' & Ey).
  apply (Hu x y rx' ry' k); congruence.
Qed.

(** ** What one statement does to the other rows and to terminal ones *)

(** A row that reached a terminal status is gone or still terminal. *)
Definition keeps_terminal (t t' : gmap string Row) : Prop :=
  ∀ j r r', t !! j = Some r → t' !! j = Some r' → terminal (status (cols r)) = true → terminal (status (cols r')) = true.

(** Keyword arguments are distinct: at most one status among them. *)
Definition one_status (kw : list column) : Prop := ∀ s, Attr (AStatus s) ∈ kw → new_status kw = Some s.

(** Every statement of the backend, with the arguments the manager and the tracker give
    it: updates carry the guard or a terminal status. *)
Inductive statement : gmap string Row → gmap string Row → Prop :=
| st_save j r t : statement t (save_job j r t)
| st_claim j r t t' : atomic_claim_insert j r t = Ok t' → statement t t'
| st_update g kw j t t' : one_status kw → g = true ∨ from_option terminal false (new_status kw) = true →
    update_job g kw j t = Ok t' → statement t t'
| st_fail p m now t : statement t (fail_active p m now t).2
| st_purge h now t : statement t (cleanup_old_jobs h now t).2
| st_delete j t : statement t (delete_job j t).2.

Lemma fail_active_row p m now t j :
  (fail_active p m now t).2 !! j =
  (λ r, if active (status (cols r)) && p r then foldl set_column r
          [Attr (AStatus FAILED); Attr (AError (Some (VStr m))); Attr (ACompleted (Some now))] else r) <$> t !! j.
Proof. unfold fail_active. cbn [snd]. by rewrite lookup_fmap. Qed.

Lemma index_key_failed p m now r : let r' := if active (status (cols r)) && p r then foldl set_column r
      [Attr (AStatus FAILED); Attr (AError (Some (VStr m))); Attr (ACompleted (Some now))] else r in
  is_Some (index_key r') → index_key r = index_key r'.
Proof. destruct (_ && _) eqn:E; [|done]. cbn zeta. intros [k Hk]. exfalso. unfold index_key in Hk. by job_simpl. Qed.

Lemma statement_unique t t' : statement t t' → unique_active t → unique_active t'.
Proof.
  intros Hs Hu. destruct Hs as [j r t|j r t t' H|g kw j t t' _ _ H|p m now t|h now t|j t].
  - unfold save_job. destruct (_ || _) eqn:E; [done|]. apply orb_false_iff in E as [_ E]. by apply unique_active_insert.
  - unfold atomic_claim_insert in H. destruct (_ || _) eqn:E; [done|]. simplify_eq.
    apply orb_false_iff in E as [_ E]. by apply unique_active_insert.
  - unfold update_job in H. destruct kw as [|c kw]; [by simplify_eq|]. destruct (t !! j) as [r|] eqn:Hj; [|by simplify_eq].
    destruct (_ && terminal _); [by simplify_eq|]. destruct (violates _ _ _) eqn:E; simplify_eq. by apply unique_active_insert.
  - revert Hu. apply unique_active_sub. intros j r' Hr' Hk. rewrite fail_active_row in Hr'.
    apply fmap_Some in Hr' as (r & Hr & ->). exists r. split; [done|]. by apply index_key_failed.
  - revert Hu. apply unique_active_sub. intros j r' Hr' _. unfold cleanup_old_jobs in Hr'. cbn in Hr'.
    apply map_lookup_filter_Some in Hr' as [Hr' _]. eauto.
  - revert Hu. apply unique_active_sub. intros i r' Hi _. cbn in Hi.
    apply lookup_delete_Some in Hi as [_ Hi]. eauto.
Qed.

Lemma status_foldl_keep kw r s : (∀ s', Attr (AStatus s') ∈ kw → s' = s) → status (cols r) = s →
  status (cols (foldl set_column r kw)) = s.
Proof.
  revert r. induction kw as [|c kw IH]; intros r H Hr; [done|]. cbn [foldl]. apply IH; [intros; apply H; by right|].
  rewrite cols_set_column. destruct c as [a| |]; [|done..]. rewrite status_set_attr. destruct a; try done. apply H. by left.
Qed.

Lemma status_foldl kw r : one_status kw → status (cols (foldl set_column r kw)) = default (status (cols r)) (new_status kw).
Proof.
  intros H1. destruct (new_status kw) as [s|] eqn:E; cbn.
  - assert (∀ s', Attr (AStatus s') ∈ kw → s' = s) as H by (intros s' Hs'; specialize (H1 s' Hs'); congruence). clear H1.
    revert r. induction kw as [|c kw IH]; intros r; [done|]. cbn [foldl].
    destruct c as [[]| |]; cbn in E; try (apply IH; [done|intros; apply H; by right]).
    apply status_foldl_keep; [intros; apply H; by right|]. simplify_eq. by rewrite cols_set_column, status_set_attr.
  - apply status_foldl_keep; [|done]. intros s' Hs'. specialize (H1 s' Hs'). congruence.
Qed.

Lemma statement_keeps_terminal t t' : statement t t' → keeps_terminal t t'.
Proof.
  intros Hs i r0 r1 H0 H1 Ht. destruct Hs as [j r t|j r t t' H|g kw j t t' Hkw Hg H|p m now t|h now t|j t].
  - unfold save_job in H1. destruct (_ || _) eqn:E; [by simplify_eq|]. apply orb_false_iff in E as [E _].
    apply bool_decide_eq_false in E. apply lookup_insert_Some in H1 as [[-> _]|[_ ?]]; [|by simplify_eq]. exfalso; eauto.
  - unfold atomic_claim_insert in H. destruct (_ || _) eqn:E; [done|]. simplify_eq. apply orb_false_iff in E as [E _].
    apply bool_decide_eq_false in E. apply lookup_insert_Some in H1 as [[-> _]|[_ ?]]; [|by simplify_eq]. exfalso; eauto.
  - unfold update_job in H. destruct kw as [|c kw]; [by simplify_eq|]. destruct (t !! j) as [r|] eqn:Hj; [|by simplify_eq].
    destruct (_ && terminal _) eqn:Eg; [by simplify_eq|]. destruct (violates _ _ _); simplify_eq.
    apply lookup_insert_Some in H1 as [[<- <-]|[_ ?]]; [|by simplify_eq]. simplify_eq.
    pose proof (status_foldl (c :: kw) r Hkw) as Hst. cbn [foldl] in Hst. rewrite Hst. rewrite Ht, andb_true_r in Eg.
    destruct (new_status (c :: kw)) as [s|] eqn:Es; [|done]. cbn in *.
    destruct Hg as [->|Hg]; [|done]. cbn in Eg. by apply negb_false_iff in Eg.
  - rewrite fail_active_row, H0 in H1. cbn in H1. simplify_eq. by rewrite (terminal_active _ Ht).
  - unfold cleanup_old_jobs in H1. cbn in H1. apply map_lookup_filter_Some in H1 as [H1 _]. by simplify_eq.
  - cbn in H1. apply lookup_delete_Some in H1 as [_ H1]. by simplify_eq.
Qed.

(** ** The atomic claim *)

Lemma find_active_Some op alias t e : find_active_job_by_type_and_alias op alias t = Some e →
  ∃ r, t !! e = Some r ∧ index_key r = Some (op, alias).
Proof.
  unfold find_active_job_by_type_and_alias. intros ([e' r] & Hh & ->)%fmap_Some. apply head_Some_elem_of in Hh.
  apply list_elem_of_filter in Hh as [Hk Hin%elem_of_map_to_list]. eauto.
Qed.

Lemma find_active_None op alias t e r : find_active_job_by_type_and_alias op alias t = None →
  t !! e = Some r → index_key r ≠ Some (op, alias).
Proof.
  unfold find_active_job_by_type_and_alias. rewrite fmap_None, head_None. intros Hf He Hk.
  assert ((e, r) ∈ filter (λ kr, index_key kr.2 = Some (op, alias)) (map_to_list t)) as Hin.
  { apply list_elem_of_filter. split; [done|]. by apply elem_of_map_to_list. }
  rewrite Hf in Hin. by apply not_elem_of_nil in Hin.
Qed.

(** An accepted claim was inserted into a table with a free slot, whatever other
    writers did between the attempts. *)
Lemma insert_attempts_ok n others j r op alias t t' : insert_attempts n others j r op alias t = Ok t' →
  ∃ t0, t' = <[j := r]> t0 ∧ t0 !! j = None ∧ violates j r t0 = false.
Proof.
  revert others t. induction n as [|n IH]; intros others t H; [done|]. cbn [insert_attempts] in H.
  destruct (atomic_claim_insert j r t) as [t1|] eqn:E.
  - simplify_eq. unfold atomic_claim_insert in E. destruct (_ || _) eqn:Ev; [done|]. simplify_eq.
    apply orb_false_iff in Ev as [En%bool_decide_eq_false%eq_None_not_Some Ev]. eauto.
  - destruct (find_active_job_by_type_and_alias _ _ _); [done|]. by eapply IH.
Qed.

(** Without interference the claim fails exactly when an active row holds the slot. *)
Lemma atomic_insert_alone j r op alias t : t !! j = None → index_key r = Some (op, alias) →
  atomic_insert_or_raise [] j r op alias t =
  match find_active_job_by_type_and_alias op alias t with
  | Some e => Err (DuplicateJobError e)
  | None => Ok (<[j := r]> t)
  end.
Proof.
  intros Hj Hk. unfold atomic_insert_or_raise, MAX_ATOMIC_INSERT_ATTEMPTS. cbn.
  unfold atomic_claim_insert. rewrite bool_decide_eq_false_2 by (by rewrite Hj; intros [? ?]). cbn.
  destruct (find_active_job_by_type_and_alias op alias t) as [e|] eqn:E.
  - apply find_active_Some in E as (r' & He & Hk'). destruct (violates j r t) eqn:Ev; [done|].
    apply (violates_false _ _ _ _ Hk) with (i := e) (r' := r') in Ev; [|done..]. congruence.
  - destruct (violates j r t) eqn:Ev; [|done]. exfalso. apply not_false_iff_true in Ev. apply Ev.
    apply (violates_false _ _ _ _ Hk). intros i r' Hi Hki. by destruct (find_active_None _ _ _ _ _ E Hi).
Qed.

Lemma insert_attempts_statement n j r op alias t t' : insert_attempts n [] j r op alias t = Ok t' → statement t t'.
Proof.
  revert t. induction n as [|n IH]; intros t H; [done|]. cbn in H.
  destruct (atomic_claim_insert j r t) eqn:E; [simplify_eq; by eapply st_claim|].
  destruct (find_active_job_by_type_and_alias _ _ _); [done|]. by apply IH.
Qed.

Lemma one_status_upsert t : one_status (upsert_columns t).
Proof. intros s Hs. unfold upsert_columns in *. cbn in *. repeat (apply elem_of_cons in Hs as [?|Hs]; simplify_eq; try done). by apply not_elem_of_nil in Hs. Qed.

Lemma upsert_statement j t rows rows' : upsert_job j t rows = Ok rows' → statement rows rows'.
Proof. intros H. eapply (st_update true); [apply one_status_upsert|by left|done]. Qed.

(** The status that an update leaves in a row. *)
Lemma update_job_status g kw i rows rows' j r' : one_status kw → update_job g kw i rows = Ok rows' →
  rows' !! j = Some r' → ∃ r, rows !! j = Some r ∧ (r' = r ∨ (i = j ∧ r' = foldl set_column r kw
     ∧ status (cols r') = default (status (cols r)) (new_status kw))).
Proof.
  intros Hkw H Hr'. unfold update_job in H. destruct kw as [|c kw]; [simplify_eq; eauto|].
  destruct (rows !! i) as [r|] eqn:Hi; [|simplify_eq; eauto]. destruct (_ && terminal _); [simplify_eq; eauto|].
  destruct (violates _ _ _); simplify_eq. apply lookup_insert_Some in Hr' as [[<- <-]|[_ ?]]; [|eauto].
  exists r. split; [done|]. right. split_and!; [done..|]. exact (status_foldl (c :: kw) r Hkw).
Qed.

End JobStore.
