(* ===== verification/BackgroundJobs.v ===== *)
(** * The background job manager

    [BackgroundJobManager] of src/src/code_indexer/server/repositories/background_jobs.py
    with a storage backend, over the table and the tracker of JobStore.v.

    The manager's lock protects the dictionary of jobs and is released around every
    database write and every tracker call, so the threads are modelled at that grain:
    [_execute_job] is a list of instructions, each of which is one locked section, one
    database access or one tracker section, and a step of the system executes the next
    instruction of any thread.  The instructions of a thread are executed by the function
    [exec]; the time, whether the database answers, and what the job's function does next
    are its arguments.  The requests (submit, cancel, clean-up, shutdown) are functions on
    the whole state; their own writes become threads where the code makes them outside
    the lock.

    Each entry of the dictionary is one object, and the state of an object is kept in
    the dictionary: after its removal no thread reads it again except to end.  The
    existence check and the write of [_persist_job_to_sqlite] are one step.  Child
    processes are the set of jobs that have some; cancel handlers, logging and the JSON
    file storage are left out. *)

From S2P Require Import Prelude PyText JobStore.
From stdpp Require Import options.
Local Open Scope Z_scope.

Module BackgroundJobs.
Import JobStore.

Inductive Lane := ordinary | temporal.

#[export] Instance Lane_eq_dec : EqDecision Lane.
Proof. solve_decision. Defined.

(** [_VALID_LANES]. *)
Definition lane_of (s : string) : option Lane :=
  if bool_decide (s = "ordinary"%string) then Some ordinary
  else if bool_decide (s = "temporal"%string) then Some temporal else None.

Record BackgroundJob := mkBg { fields : Job; lane : Lane; snapshot_ctx : option string }.

Definition assign_bg (l : list attr) (b : BackgroundJob) : BackgroundJob :=
  mkBg (assign l (fields b)) (lane b) (snapshot_ctx b).

Record Config := {
  node_id : option string; cluster_mode : bool; has_tracker : bool; postgres : bool;
  job_admission_memory_gate_enabled : bool; pool_size : nat; temporal_lane_concurrency : nat }.

(** What every thread can reach: [self.jobs], the tracker's [_active_jobs], the table
    and the keys of [_child_processes]. *)
Record Shared := mkShared {
  jobs : gmap string BackgroundJob; tracked : gmap string TrackedJob; rows : gmap string Row; children : gset string }.

Definition set_jobs (f : gmap string BackgroundJob → gmap string BackgroundJob) (m : Shared) : Shared :=
  mkShared (f (jobs m)) (tracked m) (rows m) (children m).
Definition set_tracked (x : gmap string TrackedJob) (m : Shared) : Shared := mkShared (jobs m) x (rows m) (children m).
Definition set_rows (x : gmap string Row) (m : Shared) : Shared := mkShared (jobs m) (tracked m) x (children m).

(** ** Executing a job *)

(** What the job's function does next: a progress callback (with the debounce window
    elapsed or not), a cancel check, one round of the polling loop around a function
    without progress callback, or its end. *)
Inductive event :=
| Tick (progress : Z) (phase detail : option string) (window_elapsed : bool)
| CancelCheck
| Poll
| Returned (r : option ret)
| RaisedInterrupted (msg : string)
| Raised (msg : string).

Inductive instr :=
| CheckQueued | SetRunning | Snapshot | Write (s : Job) | TrackRunning | Upsert (t : TrackedJob)
| CheckStart | Progress (p : Z) (phase detail : option string) | CheckDb | Run
| Finish (r : option ret) | Interrupted (msg : string) | Crashed (msg : string)
| Notify (e : ending) | Finalize (e : ending) | Evict.

Record Thread := mkThread {
  t_job : string; t_worker : option Lane; takes_progress : bool; persisted : bool; code : list instr }.

Definition goto (k : list instr) (t : Thread) : Thread :=
  mkThread (t_job t) (t_worker t) (takes_progress t) (persisted t) k.
Definition set_persisted (b : bool) (k : list instr) (t : Thread) : Thread :=
  mkThread (t_job t) (t_worker t) (takes_progress t) b k.

Record oracle := { now : Z; db_ok : bool; ev : event }.

(** A tracker call, when there is a tracker. *)
Definition notify (cfg : Config) (e : ending) : list instr := if has_tracker cfg then [Notify e] else [].

(** [progress_callback]. *)
Definition progress_callback (p : Z) (phase detail : option string) (window_elapsed : bool) : list instr :=
  Progress p phase detail :: (if window_elapsed then [Snapshot] else []) ++ [CheckDb].

(** [_execute_job] up to its end; the first call of a progress callback always finds the
    debounce window elapsed. *)
Definition execute_job (cfg : Config) (takes : bool) : list instr :=
  [CheckQueued; SetRunning; Snapshot] ++ (if has_tracker cfg then [TrackRunning] else []) ++ [CheckStart]
  ++ (if takes then [] else progress_callback 25 None None true) ++ [Run].

(** The columns that [_persist_job_to_sqlite] updates. *)
Definition persist_columns (s : Job) : list column :=
  [Attr (AStatus (status s)); Attr (AStarted (started_at s)); Attr (ACompleted (completed_at s));
   Attr (AResult (result s)); Attr (AError (error s)); Attr (AProgress (progress s)); Attr (ACancelled (cancelled s));
   Attr (AHealing (healing s)); Attr (APhase (current_phase s)); Attr (ADetail (phase_detail s))].

(** [_persist_job_to_sqlite]: whether it succeeded, and the table. *)
Definition persist_job_to_sqlite (ok : bool) (j : string) (s : Job) (t : gmap string Row) : bool * gmap string Row :=
  if negb ok then (false, t)
  else match get_job j t with
       | Some _ => match update_job true (persist_columns s) j t with Ok t' => (true, t') | Err _ => (false, t) end
       | None => (true, save_job j (new_row s None None None) t)
       end.

(** The status that a result stands for: [success] is [False], [partial] is [True]. *)
Definition result_status (r : option ret) : JobStatus :=
  match r with
  | Some (RDict d) =>
      if bool_decide (dget "success"%string d = Some (VBool false)) then FAILED
      else if bool_decide (dget "partial"%string d = Some (VBool true)) then COMPLETED_PARTIAL else COMPLETED
  | _ => COMPLETED
  end.

(** What the tracker is told about a finished run. *)
Definition result_ending (r : option ret) : ending :=
  match result_status r, r with
  | FAILED, Some (RDict d) => Fail (default (VStr "job failed") (dget "error"%string d))
  | FAILED, _ => Fail (VStr "job failed")
  | _, Some (RDict d) => Complete (Some (RDict d))
  | _, _ => Complete None
  end.

(** The end of a job: persist, tell the tracker, evict. *)
Definition ending_code (cfg : Config) (e : ending) : list instr := Snapshot :: notify cfg e ++ [Evict].

(** One instruction.  A missing dictionary entry is a [KeyError], which the handler
    raises again: the thread ends. *)
Definition exec (cfg : Config) (o : oracle) (t : Thread) (m : Shared) : Shared * Thread :=
  let j := t_job t in
  let put l m := set_jobs (alter (assign_bg l) j) m in
  let cancelled_now b := cancelled (fields b) in
  match code t with
  | [] => (m, t)
  | CheckQueued :: k =>
      match jobs m !! j with
      | None => (m, goto [] t)
      | Some b => if cancelled_now b then (put [AStatus CANCELLED; ACompleted (Some (now o))] m, goto (Snapshot :: notify cfg Cancel) t)
                  else (m, goto k t)
      end
  | SetRunning :: k => (put [AStatus RUNNING; AStarted (Some (now o)); AProgress 10] m, goto k t)
  | Snapshot :: k =>
      match jobs m !! j with
      | None => (m, set_persisted true k t)
      | Some b => (m, goto (Write (fields b) :: k) t)
      end
  | Write s :: k =>
      let '(ok, rows') := persist_job_to_sqlite (db_ok o) j s (rows m) in (set_rows rows' m, set_persisted ok k t)
  | TrackRunning :: k =>
      let '(snap, act) := update_status j (Some RUNNING) None None None (now o) (tracked m) in
      (set_tracked act m, goto (match snap with Some x => Upsert x :: k | None => k end) t)
  | Upsert x :: k =>
      (if db_ok o then match upsert_job j x (rows m) with Ok rows' => set_rows rows' m | Err _ => m end else m, goto k t)
  | CheckStart :: k =>
      match jobs m !! j with
      | None => (m, goto [] t)
      | Some b => if cancelled_now b then (put [AStatus CANCELLED; ACompleted (Some (now o))] m, goto (Snapshot :: notify cfg Cancel) t)
                  else (m, goto k t)
      end
  | Progress p ph d :: k =>
      (set_jobs (alter (λ b, if cancelled_now b then b else assign_bg
          ([AProgress p] ++ from_option (λ _, [APhase ph]) [] ph ++ from_option (λ _, [ADetail d]) [] d) b) j) m, goto k t)
  | CheckDb :: k =>
      (if db_ok o && from_option (λ r, bool_decide (status (cols r) = CANCELLED)) false (rows m !! j)
       then put [ACancelled true] m else m, goto k t)
  | Run :: _ =>
      match ev o with
      | Tick p ph d win => if takes_progress t then (m, goto (progress_callback p ph d win ++ [Run]) t) else (m, t)
      | CancelCheck => (m, goto [CheckDb; Run] t)
      | Poll =>
          if takes_progress t then (m, t)
          else match jobs m !! j with
               | None => (m, goto [Crashed "KeyError"] t)
               | Some b => if cancelled_now b then (m, goto [Interrupted "Job cancelled during execution"] t) else (m, t)
               end
      | Returned r => (m, goto [Finish r] t)
      | RaisedInterrupted msg => (m, goto [Interrupted msg] t)
      | Raised msg => (m, goto [Crashed msg] t)
      end
  | Finish r :: _ =>
      match jobs m !! j with
      | None => (m, goto [] t)
      | Some b =>
          if cancelled_now b then (put [AStatus CANCELLED; ACompleted (Some (now o))] m, goto (ending_code cfg Cancel) t)
          else (put [AStatus (result_status r); ACompleted (Some (now o)); AResult r; AProgress 100] m,
                goto (ending_code cfg (result_ending r)) t)
      end
  | Interrupted msg :: _ =>
      match jobs m !! j with
      | None => (m, goto [] t)
      | Some _ => (put [AStatus CANCELLED; ACompleted (Some (now o)); AError (Some (VStr msg)); AProgress 0] m,
                   goto (ending_code cfg Cancel) t)
      end
  | Crashed msg :: _ =>
      match jobs m !! j with
      | None => (m, goto [] t)
      | Some b =>
          if cancelled_now b then
            (put [AStatus CANCELLED; ACompleted (Some (default (now o) (completed_at (fields b)))); AError (Some (VStr "cancelled"))] m,
             goto (ending_code cfg Cancel) t)
          else (put [AStatus FAILED; ACompleted (Some (now o)); AError (Some (VStr msg)); AProgress 0] m,
                goto (ending_code cfg (Fail (VStr msg))) t)
      end
  | Notify e :: k =>
      let '(found, act) := pop_active j (tracked m) in
      (set_tracked act m, goto (match found with Some x => Upsert (finish e (now o) x) | None => Finalize e end :: k) t)
  | Finalize e :: k =>
      (m, goto (match (if db_ok o then finalize_absent_job j e (now o) (rows m) else None) with
                | Some x => Upsert x :: k | None => k end) t)
  | Evict :: k => (if persisted t then set_jobs (delete j) m else m, goto k t)
  end.

(** ** The manager *)

(** A queue item is a job and its function, or the sentinel of [shutdown]. *)
Record World := mkWorld {
  shared : Shared; pending_queue : list (option (string * bool)); temporal_queue : list (option (string * bool));
  pool : nat; temporal_pool : nat; threads : list Thread;
  issued : gset string (** identifiers that [uuid4] has returned; it never repeats one *) }.

Definition with_shared (m : Shared) (w : World) : World :=
  mkWorld m (pending_queue w) (temporal_queue w) (pool w) (temporal_pool w) (threads w) (issued w).
Definition with_threads (l : list Thread) (w : World) : World :=
  mkWorld (shared w) (pending_queue w) (temporal_queue w) (pool w) (temporal_pool w) l (issued w).
Definition queue_of (l : Lane) (w : World) : list (option (string * bool)) :=
  match l with ordinary => pending_queue w | temporal => temporal_queue w end.
Definition pool_of (l : Lane) (w : World) : nat := match l with ordinary => pool w | temporal => temporal_pool w end.
Definition with_queue (l : Lane) (q : list (option (string * bool))) (w : World) : World :=
  match l with
  | ordinary => mkWorld (shared w) q (temporal_queue w) (pool w) (temporal_pool w) (threads w) (issued w)
  | temporal => mkWorld (shared w) (pending_queue w) q (pool w) (temporal_pool w) (threads w) (issued w)
  end.
Definition stop_worker (l : Lane) (w : World) : World :=
  match l with
  | ordinary => mkWorld (shared w) (pending_queue w) (temporal_queue w) (pred (pool w)) (temporal_pool w) (threads w) (issued w)
  | temporal => mkWorld (shared w) (pending_queue w) (temporal_queue w) (pool w) (pred (temporal_pool w)) (threads w) (issued w)
  end.

(** A thread that makes one write outside the lock and ends. *)
Definition writer (j : string) (k : list instr) : Thread := mkThread j None false false k.

(** *** Submission *)

Definition memory_heavy (op : string) : bool :=
  bool_decide (op ∈ ["add_golden_repo"; "provider_index_add"; "provider_temporal_index_rebuild";
                     "sync_repository"; "change_branch"]%string).

(** [bool(repo_alias)]. *)
Definition given (alias : option string) : option string :=
  match alias with Some "" => None | a => a end.

Record submission := {
  s_op : string; s_user : string; s_admin : bool; s_alias : option string; s_actor : option string;
  s_lane : string; s_ctx : option string; s_meta : option string; s_takes_progress : bool }.

Inductive submit_error :=
| InvalidLane | MaintenanceMode | Duplicate (existing_job_id : string) | Rejected (field : string)
| StorageError | Deadlock (** the thread waits for a lock that it holds *).

Definition new_job (s : submission) (l : Lane) (now : Z) : BackgroundJob :=
  mkBg (mkJob (s_op s) PENDING now None None None None 0 (s_user s) (s_admin s) false (s_alias s) no_healing None None
          (Some (default (s_user s) (s_actor s)))) l (s_ctx s).

Definition STALE_JOB_THRESHOLD : Z := 86400 * 1000000.
Definition default_limit : Z := 100.

(** [_check_operation_conflict]: the rows when the queries succeed, the dictionary when
    they raise.  A stale entry of the dictionary is expired and persisted, which takes
    the lock that the caller holds. *)
Definition check_operation_conflict (query_ok : bool) (op alias : string) (now : Z) (m : Shared) :
    Prelude.result submit_error (option string) :=
  if query_ok then
    Ok (fst <$> head (filter (λ kr, repo_alias (cols kr.2) = Some alias)
          (list_jobs None (Some RUNNING) (Some op) default_limit 0 (rows m)
           ++ list_jobs None (Some PENDING) (Some op) default_limit 0 (rows m))))
  else
    match filter (λ jb, operation_type (fields jb.2) = op ∧ repo_alias (fields jb.2) = Some alias
                        ∧ active (status (fields jb.2)) = true) (map_to_list (jobs m)) with
    | [] => Ok None
    | (i, b) :: _ =>
        match started_at (fields b) with
        | Some st => if STALE_JOB_THRESHOLD <? now - st then Err Deadlock else Ok (Some i)
        | None => Ok (Some i)
        end
    end.

(** Whether the conflict queries, the first write and the tracker's insert succeed. *)
Record submit_oracle := { query_ok : bool; persist_ok : bool; register_ok : bool }.

Definition is_pod_pull_eligible (cfg : Config) (s : submission) : bool :=
  cluster_mode cfg && memory_heavy (s_op s) && bool_decide (is_Some (given (s_alias s)))
  && bool_decide (is_Some (s_meta s)) && has_tracker cfg.

(** The atomic claim of a job that belongs to a repository. *)
Definition submit_claim (cfg : Config) (o : submit_oracle) (now : Z) (j alias : string) (s : submission) (m : Shared) :
    Prelude.result submit_error Shared :=
  if negb (register_ok o) then Err StorageError
  else match register_job_if_no_conflict (node_id cfg) [] j (s_op s) (s_user s) alias (s_meta s) (s_admin s)
               (Some (default (s_user s) (s_actor s))) (negb (is_pod_pull_eligible cfg s)) now (tracked m) (rows m) with
       | Err (DuplicateJobError e) => Err (Duplicate e)
       | Err (ValueError f) => Err (Rejected f)
       | Err BackendError => Err StorageError
       | Ok (act, rows') => Ok (mkShared (jobs m) act rows' (children m))
       end.

(** The other path: a local check, the manager's own row, then the tracker's. *)
Definition submit_local (cfg : Config) (o : submit_oracle) (now : Z) (j : string) (s : submission) (b : BackgroundJob)
    (m : Shared) : Prelude.result submit_error Shared :=
  conflict ← (match given (s_alias s) with
              | Some alias => check_operation_conflict (query_ok o) (s_op s) alias now m
              | None => Ok None
              end);
  match conflict with
  | Some e => Err (Duplicate e)
  | None =>
      let '(_, rows1) := persist_job_to_sqlite (persist_ok o) j (fields b) (rows m) in
      if has_tracker cfg && register_ok o then
        let '(act, rows2) := register_job (node_id cfg) j (s_op s) (s_user s) (s_alias s) None now (tracked m) rows1 in
        Ok (mkShared (jobs m) act rows2 (children m))
      else Ok (set_rows rows1 m)
  end.

Definition submit_job (cfg : Config) (maintenance : bool) (o : submit_oracle) (now : Z) (j : string) (s : submission)
    (w : World) : Prelude.result submit_error World :=
  match lane_of (s_lane s) with
  | None => Err InvalidLane
  | Some l =>
      if maintenance then Err MaintenanceMode
      else
        let b := new_job s l now in
        m ← (match given (s_alias s), has_tracker cfg with
             | Some alias, true => submit_claim cfg o now j alias s (shared w)
             | _, _ => submit_local cfg o now j s b (shared w)
             end);
        let w' := mkWorld m (pending_queue w) (temporal_queue w) (pool w) (temporal_pool w) (threads w) ({[j]} ∪ issued w) in
        if is_pod_pull_eligible cfg s then Ok (with_shared (set_jobs (delete j) m) w')
        else Ok (with_queue l (queue_of l w' ++ [Some (j, s_takes_progress s)]) (with_shared (set_jobs (insert j b) m) w'))
  end.

(** *** Workers *)

(** [denied]: the answer of the memory governor, [None] without one or when it raises. *)
Definition admission_blocked (cfg : Config) (denied : option bool) (j : string) (m : Shared) : bool :=
  job_admission_memory_gate_enabled cfg
  && from_option (λ b, memory_heavy (operation_type (fields b))) false (jobs m !! j)
  && default false denied.

(** The workers of a lane that are executing a job. *)
Definition busy (l : Lane) (w : World) : nat := length (filter (λ t, t_worker t = Some l) (threads w)).

(** A free worker of the lane takes the next item. *)
Definition pool_worker (cfg : Config) (l : Lane) (denied : option bool) (w : World) : option World :=
  if (busy l w <? pool_of l w)%nat then
    match queue_of l w with
    | [] => None
    | None :: q => Some (stop_worker l (with_queue l q w))
    | Some (j, takes) :: q =>
        if admission_blocked cfg denied j (shared w) then Some (with_queue l (q ++ [Some (j, takes)]) w)
        else Some (with_threads (threads w ++ [mkThread j (Some l) takes false (execute_job cfg takes)]) (with_queue l q w))
    end
  else None.

(** The thread at position [i] executes one instruction; a finished one goes. *)
Definition run_thread (cfg : Config) (o : oracle) (i : nat) (w : World) : option World :=
  t ← threads w !! i;
  let '(m, t') := exec cfg o t (shared w) in
  Some (with_shared m (with_threads (take i (threads w) ++ (match code t' with [] => [] | _ => [t'] end)
                                     ++ drop (S i) (threads w)) w)).

(** *** Cancellation *)

Inductive cancel_reply := CancelOk | NotFound | CannotCancel (s : JobStatus) | CancelFailed.

Definition may_see (admin : bool) (user owner : string) : bool := admin || bool_decide (owner = user).

(** The job is in this manager's dictionary: the locked section, and a thread that
    persists. *)
Definition cancel_local (j user : string) (admin : bool) (now : Z) (b : BackgroundJob) (w : World) : cancel_reply * World :=
  if negb (may_see admin user (username (fields b))) then (NotFound, w)
  else if negb (active (status (fields b))) then (CannotCancel (status (fields b)), w)
  else
    let l := ACancelled true :: match status (fields b) with PENDING => [AStatus CANCELLED; ACompleted (Some now)] | _ => [] end in
    (CancelOk, with_threads (threads w ++ [writer j [Snapshot]])
                 (with_shared (set_jobs (alter (assign_bg l) j) (shared w)) w)).

(** It is not: the row is cancelled in the table, and the node that executes the job
    reads it there. *)
Definition cancel_row (ok : bool) (j user : string) (admin : bool) (now : Z) (t : gmap string Row) :
    cancel_reply * gmap string Row :=
  if negb ok then (CancelFailed, t)
  else match get_job j t with
       | None => (NotFound, t)
       | Some r =>
           if negb (may_see admin user (username (cols r))) then (NotFound, t)
           else if negb (active (status (cols r))) then (CannotCancel (status (cols r)), t)
           else match update_job false [Attr (AStatus CANCELLED); Attr (ACancelled true); Attr (ACompleted (Some now))] j t with
                | Ok t' => (CancelOk, t')
                | Err _ => (CancelFailed, t)
                end
       end.

(** X-Ray jobs are not in the dictionary but have local child processes. *)
Definition local_xray_job (cfg : Config) (j : string) (m : Shared) : option TrackedJob :=
  if bool_decide (j ∈ children m) && has_tracker cfg then tracker_get_job j (tracked m) (rows m) else None.

Definition cancel_absent (cfg : Config) (ok : bool) (j user : string) (admin : bool) (now : Z) (m : Shared) : cancel_reply * Shared :=
  match local_xray_job cfg j m with
  | Some t =>
      if negb (may_see admin user (t_username t)) then (NotFound, m)
      else let '(act, r) := end_job j (Fail (VStr "cancelled")) now (tracked m) (rows m) in
           (CancelOk, mkShared (jobs m) act (match r with Ok rows' => rows' | Err _ => rows m end) (children m))
  | None => let '(r, rows') := cancel_row ok j user admin now (rows m) in (r, set_rows rows' m)
  end.

Definition cancel_job (cfg : Config) (ok : bool) (j user : string) (admin : bool) (now : Z) (w : World) : cancel_reply * World :=
  match jobs (shared w) !! j with
  | Some b => cancel_local j user admin now b w
  | None => let '(r, m) := cancel_absent cfg ok j user admin now (shared w) in (r, with_shared m w)
  end.

(** *** Sweeps, shutdown and start *)

Definition fail_job_in_memory (msg : string) (now : Z) (b : BackgroundJob) : BackgroundJob :=
  if active (status (fields b)) then assign_bg [AStatus FAILED; ACompleted (Some now); AError (Some (VStr msg))] b else b.

Definition manager_fail_orphaned_jobs (cfg : Config) (ok : bool) (msg : string) (now : Z) (m : Shared) : nat * Shared :=
  let n := size (filter (λ jb, active (status (fields jb.2)) = true) (jobs m)) in
  let m1 := set_jobs (fmap (fail_job_in_memory msg now)) m in
  if postgres cfg || negb ok then (n, m1)
  else let '(k, rows') := fail_orphaned_jobs msg now (rows m) in ((n + k)%nat, set_rows rows' m1).

Definition old_in_memory (cutoff : Z) (b : BackgroundJob) : bool :=
  terminal (status (fields b)) && from_option (λ c, c <? cutoff) false (completed_at (fields b)).

Definition manager_cleanup_old_jobs (ok : bool) (max_age_hours now : Z) (m : Shared) : nat * Shared :=
  let cutoff := now - max_age_hours * hour in
  let n := size (filter (λ jb, old_in_memory cutoff jb.2 = true) (jobs m)) in
  let m1 := set_jobs (filter (λ jb, old_in_memory cutoff jb.2 = false)) m in
  if ok then let '(k, rows') := cleanup_old_jobs max_age_hours now (rows m) in (Nat.max n k, set_rows rows' m1)
  else (n, m1).

(** A job with a worker that is running is cancelled; every job's snapshot is then
    written outside the lock. *)
Definition shutdown_job (w : World) (now : Z) (j : string) (b : BackgroundJob) : BackgroundJob :=
  if bool_decide (Exists (λ t, t_job t = j ∧ is_Some (t_worker t)) (threads w)) && bool_decide (status (fields b) = RUNNING)
  then assign_bg [ACancelled true; AStatus CANCELLED; ACompleted (Some now)] b else b.

Definition shutdown (cfg : Config) (now : Z) (w : World) : World :=
  let m := set_jobs (map_imap (λ j b, Some (shutdown_job w now j b))) (shared w) in
  mkWorld m (pending_queue w ++ replicate (pool_size cfg) None)
    (temporal_queue w ++ replicate (temporal_lane_concurrency cfg) None) (pool w) (temporal_pool w)
    (threads w ++ ((λ jb, writer jb.1 [Write (fields jb.2)]) <$> map_to_list (jobs m))) (issued w).

Definition MAX_ACTIVE_JOBS_PER_STATUS : Z := 500.

Definition deserialize (r : Row) : BackgroundJob := mkBg (cols r) ordinary None.

(** The backend's sweep at start, for all nodes or for the given one. *)
Definition backend_sweep (cfg : Config) (node : option string) (now : Z) (t : gmap string Row) : gmap string Row :=
  if postgres cfg then (pg_cleanup_orphaned_jobs_on_startup node now t).2 else (cleanup_orphaned_jobs_on_startup now t).2.

(** [_load_jobs_sqlite]: sweep without a node, purge, then load what is still active; an
    exception leaves the dictionary empty. *)
Definition load_jobs (cfg : Config) (ok : bool) (retention_hours now : Z) (t : gmap string Row) :
    gmap string BackgroundJob * gmap string Row :=
  if negb ok then (∅, t)
  else let t1 := backend_sweep cfg None now t in
       let '(_, t2) := cleanup_old_jobs retention_hours now t1 in
       (foldl (λ d kr, <[kr.1 := deserialize kr.2]> d) ∅
          (list_jobs None (Some RUNNING) None MAX_ACTIVE_JOBS_PER_STATUS 0 t2
           ++ list_jobs None (Some PENDING) None MAX_ACTIVE_JOBS_PER_STATUS 0 t2), t2).

(** A new process over the same table: dictionaries, queues and threads are gone; the
    tracker sweeps with its node before the manager is made. *)
Definition start (cfg : Config) (ok : bool) (retention_hours now : Z) (iss : gset string) (t : gmap string Row) : World :=
  let t0 := if has_tracker cfg then backend_sweep cfg (node_id cfg) now t else t in
  let '(d, t') := load_jobs cfg ok retention_hours now t0 in
  mkWorld (mkShared d ∅ t' ∅) [] [] (pool_size cfg) (temporal_lane_concurrency cfg) [] iss.

(** *** Status *)

(** [get_job_status]: the dictionary first, then the row. *)
Definition get_job_status (ok : bool) (j user : string) (admin : bool) (m : Shared) : option Job :=
  match jobs m !! j with
  | Some b => if may_see admin user (username (fields b)) then Some (fields b) else None
  | None =>
      if ok then r ← get_job j (rows m); if may_see admin user (username (cols r)) then Some (cols r) else None
      else None
  end.

(** ** The system *)

Inductive step (cfg : Config) : World → World → Prop :=
| step_submit maint o t j s w w' : j ∉ issued w → submit_job cfg maint o t j s w = Ok w' → step cfg w w'
| step_worker l denied w w' : pool_worker cfg l denied w = Some w' → step cfg w w'
| step_thread o i w w' : run_thread cfg o i w = Some w' → step cfg w w'
| step_cancel ok j user admin t w : step cfg w (cancel_job cfg ok j user admin t w).2
| step_cancel_elsewhere j user admin t w :
    step cfg w (with_shared (set_rows (cancel_row true j user admin t (rows (shared w))).2 (shared w)) w)
| step_fail_orphans ok msg t w : step cfg w (with_shared (manager_fail_orphaned_jobs cfg ok msg t (shared w)).2 w)
| step_cleanup ok h t w : step cfg w (with_shared (manager_cleanup_old_jobs ok h t (shared w)).2 w)
| step_children X w : step cfg w (with_shared (mkShared (jobs (shared w)) (tracked (shared w)) (rows (shared w)) X) (w))
| step_shutdown t w : step cfg w (shutdown cfg t w)
| step_restart ok h t w : step cfg w (start cfg ok h t (issued w) (rows (shared w))).

(** Everything that a start over a table can reach; the rows of the table, this node's
    or others', were issued before. *)
Definition reachable (cfg : Config) (w : World) : Prop :=
  ∃ ok h t iss t0, dom t0 ⊆ iss ∧ unique_active t0 ∧ rtc (step cfg) (start cfg ok h t iss t0) w.

(** ** Evidence of completion *)

(** Nothing that the threads share says that job [j] completed. *)
Definition quiet (m : Shared) (j : string) : Prop :=
  (∀ b, jobs m !! j = Some b → completed (status (fields b)) = false)
  ∧ (∀ r, rows m !! j = Some r → completed (status (cols r)) = false)
  ∧ (∀ t, tracked m !! j = Some t → completed (t_status t) = false).

(** An instruction that will write a completed status. *)
Definition loud (i : instr) : bool :=
  match i with
  | Write s => completed (status s)
  | Upsert t => completed (t_status t)
  | Notify e | Finalize e => completed (ending_status e)
  | _ => false
  end.

Definition quiet_code (k : list instr) : Prop := Forall (λ i, loud i = false) k.

(** The instruction will settle the job, or lead to the one that does. *)
Definition settles (i : instr) : bool :=
  match i with Run | Finish _ | Interrupted _ | Crashed _ => true | _ => false end.

Definition live_code (k : list instr) : bool := existsb settles k.

(** The thread is about to record a completed run of its job. *)
Definition finishing (t : Thread) (m : Shared) : Prop :=
  ∃ r k b, code t = Finish r :: k ∧ jobs m !! t_job t = Some b ∧ cancelled (fields b) = false.

(** A change of the shared state that neither completes, revives, creates nor
    un-cancels job [j]. *)
Record gentle (j : string) (m m' : Shared) : Prop := {
  gentle_quiet : quiet m j → quiet m' j;
  gentle_settled b' : jobs m' !! j = Some b' → terminal (status (fields b')) = false →
    ∃ b, jobs m !! j = Some b ∧ terminal (status (fields b)) = false;
  gentle_cancelled b' : jobs m' !! j = Some b' →
    ∃ b, jobs m !! j = Some b ∧ (cancelled (fields b) = true → cancelled (fields b') = true) }.

#[export] Instance gentle_refl j : Reflexive (gentle j).
Proof. intros m. split; eauto. Qed.

#[export] Instance gentle_trans j : Transitive (gentle j).
Proof.
  intros m1 m2 m3 [A1 B1 C1] [A2 B2 C2]. split; [tauto| |].
  - intros b' H Ht. destruct (B2 _ H Ht) as (b & Hb & Hbt). eauto.
  - intros b' H. destruct (C2 _ H) as (b & Hb & Hc). destruct (C1 _ Hb) as (b0 & ? & ?). eauto.
Qed.

(** Updates of entries that keep the three facts. *)
Definition mild (f : BackgroundJob → BackgroundJob) : Prop := ∀ b,
  (completed (status (fields (f b))) = true → completed (status (fields b)) = true)
  ∧ (terminal (status (fields (f b))) = false → terminal (status (fields b)) = false)
  ∧ (cancelled (fields b) = true → cancelled (fields (f b)) = true).

Lemma gentle_jobs j m f :
  (∀ b', f (jobs m) !! j = Some b' → ∃ b, jobs m !! j = Some b ∧ ∃ g, mild g ∧ b' = g b) → gentle j m (set_jobs f m).
Proof.
  intros H. split.
  - intros (Q1 & Q2 & Q3). split_and!; [|done..]. intros b' Hb'. destruct (H b' Hb') as (b & Hb & g & Hg & ->).
    apply not_true_iff_false. intros Hc. apply (Hg b) in Hc. by rewrite Q1 in Hc.
  - intros b' Hb' Ht. destruct (H b' Hb') as (b & Hb & g & Hg & ->). exists b. split; [done|]. by apply (Hg b).
  - intros b' Hb'. destruct (H b' Hb') as (b & Hb & g & Hg & ->). exists b. split; [done|]. by apply (Hg b).
Qed.

Lemma mild_id : mild id.
Proof. done. Qed.

Lemma gentle_alter j i f m : mild f → gentle j m (set_jobs (alter f i) m).
Proof.
  intros Hf. apply gentle_jobs. intros b' Hb'. apply lookup_alter_Some in Hb' as [(<- & b & Hb & ->)|[_ Hb]]; eauto using mild_id.
Qed.

Lemma gentle_rows j m t' :
  (∀ r', t' !! j = Some r' → completed (status (cols r')) = true →
     ∃ r, rows m !! j = Some r ∧ completed (status (cols r)) = true) → gentle j m (set_rows t' m).
Proof.
  intros H. split; [|eauto|eauto]. intros (Q1 & Q2 & Q3). split_and!; [done| |done].
  intros r' Hr'. apply not_true_iff_false. intros Hc. destruct (H r' Hr' Hc) as (r & Hr & Hc'). by rewrite Q2 in Hc'.
Qed.

Lemma gentle_tracked j m x :
  (∀ t', x !! j = Some t' → completed (t_status t') = true →
     ∃ t, tracked m !! j = Some t ∧ completed (t_status t) = true) → gentle j m (set_tracked x m).
Proof.
  intros H. split; [|eauto|eauto]. intros (Q1 & Q2 & Q3). split_and!; [done..|].
  intros t' Ht'. apply not_true_iff_false. intros Hc. destruct (H t' Ht' Hc) as (t & Ht & Hc'). by rewrite Q3 in Hc'.
Qed.

(** *** Writes *)

#[local] Arguments update_job : simpl never.
#[local] Arguments upsert_job : simpl never.

Definition no_new_completed (j : string) (t t' : gmap string Row) : Prop :=
  ∀ r', t' !! j = Some r' → completed (status (cols r')) = true → ∃ r, t !! j = Some r ∧ completed (status (cols r)) = true.

Lemma update_no_new g kw i j t t' : one_status kw → update_job g kw i t = Ok t' →
  (i = j → from_option completed false (new_status kw) = false) → no_new_completed j t t'.
Proof.
  intros Hkw H Hq r' Hr' Hc. destruct (update_job_status _ _ _ _ _ _ _ Hkw H Hr') as (r & Hr & [->|(-> & _ & Hst)]); [eauto|].
  exists r. split; [done|]. rewrite Hst in Hc. specialize (Hq eq_refl). destruct (new_status kw); [|done]. cbn in *. congruence.
Qed.

Lemma save_no_new i j r t : (i = j → completed (status (cols r)) = false) → no_new_completed j t (save_job i r t).
Proof.
  intros Hq r' Hr' Hc. unfold save_job in Hr'. destruct (_ || _); [eauto|].
  apply lookup_insert_Some in Hr' as [[-> ->]|[_ ?]]; [|eauto]. specialize (Hq eq_refl). congruence.
Qed.

Lemma one_status_persist s : one_status (persist_columns s).
Proof.
  intros x Hx. unfold persist_columns in *. cbn. repeat (apply elem_of_cons in Hx as [?|Hx]; simplify_eq; try done).
  by apply not_elem_of_nil in Hx.
Qed.

Lemma persist_no_new ok i j s t : (i = j → completed (status s) = false) →
  no_new_completed j t (persist_job_to_sqlite ok i s t).2.
Proof.
  intros Hq. unfold persist_job_to_sqlite. destruct ok; cbn [negb]; [|intros r' ? ?; eauto].
  destruct (get_job i t); [|apply save_no_new; cbn; by rewrite ?status_set_attr].
  destruct (update_job true (persist_columns s) i t) eqn:E; cbn [snd]; [|intros r' ? ?; eauto].
  eapply update_no_new; [apply one_status_persist|done|done].
Qed.

Lemma upsert_no_new i j x t t' : upsert_job i x t = Ok t' → (i = j → completed (t_status x) = false) → no_new_completed j t t'.
Proof. intros H Hq. eapply update_no_new; [apply one_status_upsert|done|done]. Qed.

Lemma pop_tracked j i m : gentle j m (set_tracked (pop_active i (tracked m)).2 m).
Proof. apply gentle_tracked. intros t' Ht' Hc. cbn in Ht'. apply lookup_delete_Some in Ht' as [_ ?]. eauto. Qed.

(** *** One instruction *)

Ltac mild_tac := intros ?; unfold assign_bg, from_option; repeat case_match; job_simpl; tauto || (repeat split; congruence || tauto).

(** Apart from the two instructions that start and complete a run, executing an
    instruction is gentle. *)
Lemma exec_gentle cfg o t m j : (t_job t = j → quiet_code (code t)) →
  (t_job t = j → ∀ k, code t ≠ SetRunning :: k) → (t_job t = j → ¬ finishing t m) →
  gentle j m (exec cfg o t m).1.
Proof.
  intros Hq Hs Hf. unfold exec. destruct (code t) as [|i k] eqn:Ec; [done|].
  assert (t_job t = j → loud i = false) as Hi by (intros E; specialize (Hq E); by inversion Hq).
  destruct i; cbn [fst].
  - destruct (jobs m !! t_job t) as [b|]; [|done]. destruct (cancelled _); [|done]. apply gentle_alter. mild_tac.
  - destruct (decide (t_job t = j)) as [E|E]; [by destruct (Hs E k)|].
    apply gentle_jobs. intros b' Hb'. rewrite lookup_alter_ne in Hb' by done. eauto using mild_id.
  - by destruct (jobs m !! t_job t).
  - destruct (persist_job_to_sqlite _ _ _ _) as [ok rows'] eqn:E. cbn. apply gentle_rows.
    pose proof (persist_no_new (db_ok o) (t_job t) j s (rows m) Hi) as H. by rewrite E in H.
  - destruct (update_status _ _ _ _ _ _ _) as [snap act] eqn:E. cbn. apply gentle_tracked.
    intros t' Ht' Hc. unfold update_status in E. destruct (tracked m !! t_job t) as [x|] eqn:Hx; [|by simplify_eq; eauto].
    simplify_eq. apply lookup_insert_Some in Ht' as [[<- <-]|[_ ?]]; [done|eauto].
  - destruct (db_ok o); [|done]. destruct (upsert_job _ _ _) eqn:E; [|done]. apply gentle_rows. by eapply upsert_no_new.
  - destruct (jobs m !! t_job t) as [b|]; [|done]. destruct (cancelled _); [|done]. apply gentle_alter. mild_tac.
  - apply gentle_alter. mild_tac.
  - destruct (_ && _); [|done]. apply gentle_alter. mild_tac.
  - destruct (ev o); try done; try by destruct (takes_progress t).
    destruct (takes_progress t), (jobs m !! t_job t) as [b|]; try done. by destruct (cancelled _).
  - destruct (jobs m !! t_job t) as [b|] eqn:Eb; [|done].
    destruct (cancelled (fields b)) eqn:Eca; [apply gentle_alter; mild_tac|]. cbn [fst].
    destruct (decide (t_job t = j)) as [E|E].
    + destruct (Hf E). exists r, k, b. by rewrite Ec.
    + apply gentle_jobs. intros b' Hb'. rewrite lookup_alter_ne in Hb' by done. eauto using mild_id.
  - destruct (jobs m !! t_job t) as [b|]; [|done]. apply gentle_alter. mild_tac.
  - destruct (jobs m !! t_job t) as [b|]; [|done]. destruct (cancelled _); apply gentle_alter; mild_tac.
  - apply pop_tracked.
  - done.
  - destruct (persisted t); [|done]. apply gentle_jobs. intros b' Hb'. apply lookup_delete_Some in Hb' as [_ ?]. eauto using mild_id.
Qed.

Lemma exec_job cfg o t m : t_job (exec cfg o t m).2 = t_job t ∧ t_worker (exec cfg o t m).2 = t_worker t.
Proof.
  unfold exec. destruct (code t) as [|[] k]; cbn; repeat case_match; simplify_eq; cbn; try done.
Qed.

Lemma quiet_code_notify cfg e : completed (ending_status e) = false → quiet_code (notify cfg e).
Proof. unfold notify. destruct (has_tracker cfg); repeat constructor; done. Qed.

Lemma quiet_code_ending cfg e : completed (ending_status e) = false → quiet_code (ending_code cfg e).
Proof.
  intros H. constructor; [done|]. apply Forall_app. split; [by apply quiet_code_notify|by repeat constructor].
Qed.

Lemma quiet_code_tick p ph d win k : quiet_code k → quiet_code (progress_callback p ph d win ++ k).
Proof. intros H. destruct win; cbn; repeat (constructor; [done|]); done. Qed.

(** A thread whose instructions are quiet stays so until it completes a run. *)
Lemma exec_quiet_code cfg o t m : quiet_code (code t) → quiet m (t_job t) → ¬ finishing t m →
  quiet_code (code (exec cfg o t m).2).
Proof.
  intros Hq (Q1 & Q2 & Q3) Hf. unfold exec. destruct (code t) as [|i k] eqn:Ec; [cbn; by rewrite Ec|].
  apply Forall_cons in Hq as [Hi Hk]. destruct i; cbn [snd].
  - destruct (jobs m !! t_job t) as [b|]; [|by constructor]. destruct (cancelled _); [|done].
    constructor; [done|]. by apply quiet_code_notify.
  - done.
  - destruct (jobs m !! t_job t) as [b|] eqn:E; [|done]. constructor; [|done]. by apply Q1.
  - by destruct (persist_job_to_sqlite _ _ _ _).
  - unfold update_status. destruct (tracked m !! t_job t) as [x|]; cbn; [|done]. by constructor.
  - done.
  - destruct (jobs m !! t_job t) as [b|]; [|by constructor]. destruct (cancelled _); [|done].
    constructor; [done|]. by apply quiet_code_notify.
  - done.
  - done.
  - destruct (ev o); cbn; try (by repeat constructor).
    + destruct (takes_progress t); cbn; [|rewrite Ec; by constructor]. by destruct window_elapsed; repeat constructor.
    + destruct (takes_progress t); cbn; [rewrite Ec; by constructor|].
      destruct (jobs m !! t_job t) as [b|]; [|by repeat constructor]. destruct (cancelled _); cbn; [by repeat constructor|].
      rewrite Ec. by constructor.
  - destruct (jobs m !! t_job t) as [b|] eqn:Eb; [|by constructor].
    destruct (cancelled (fields b)) eqn:Eca; [by apply quiet_code_ending|]. destruct Hf. exists r, k, b. by rewrite Ec.
  - destruct (jobs m !! t_job t) as [b|]; [by apply quiet_code_ending|by constructor].
  - destruct (jobs m !! t_job t) as [b|]; [|by constructor]. destruct (cancelled _); by apply quiet_code_ending.
  - unfold pop_active. destruct (tracked m !! t_job t) as [x|]; by constructor.
  - destruct (if db_ok o then _ else _) as [x|] eqn:E; [|done]. constructor; [|done].
    destruct (db_ok o); [|done]. unfold finalize_absent_job in E. repeat case_match; simplify_eq. done.
  - done.
Qed.

(** *** Workers *)

Definition restarts (i : instr) : bool := match i with SetRunning => true | _ => false end.

(** A thread that will set the status to running goes on to settle the job. *)
Definition ordered (k : list instr) : Prop := existsb restarts k = true → live_code k = true.

Lemma live_code_app k k' : live_code (k ++ k') = live_code k || live_code k'.
Proof. apply existsb_app. Qed.

Lemma live_notify cfg e : live_code (notify cfg e) = false.
Proof. unfold notify. by destruct (has_tracker cfg). Qed.

Lemma live_ending cfg e : live_code (ending_code cfg e) = false.
Proof. unfold ending_code. cbn. by rewrite live_code_app, live_notify. Qed.

Lemma ordered_ending cfg e : ordered (ending_code cfg e).
Proof. unfold ending_code, notify. by destruct (has_tracker cfg). Qed.

(** A thread does not come back to life. *)
Lemma exec_live cfg o t m : live_code (code (exec cfg o t m).2) = true → live_code (code t) = true.
Proof.
  unfold exec. destruct (code t) as [|i k] eqn:Ec; [cbn; by rewrite Ec|]. intros H. change (settles i || live_code k = true).
  destruct i; try done; unfold pop_active in H; repeat case_match; simplify_eq; cbn in *;
    try done; unfold live_code in H; cbn in H; try done; by rewrite live_notify in H.
Qed.

Lemma ordered_tail i k : settles i = false → ordered (i :: k) → ordered k.
Proof.
  intros Hi H Hk. unfold ordered, live_code in H. cbn in H. rewrite Hi, Hk, orb_true_r in H. by apply H.
Qed.

Lemma ordered_cons i k : restarts i = false → ordered k → ordered (i :: k).
Proof.
  intros Hi H Hk. cbn in Hk. rewrite Hi in Hk. change (settles i || live_code k = true). by rewrite (H Hk), orb_true_r.
Qed.

Lemma ordered_none k : existsb restarts k = false → ordered k.
Proof. intros H Hk. congruence. Qed.

Lemma exec_ordered cfg o t m : ordered (code t) → ordered (code (exec cfg o t m).2).
Proof.
  unfold exec. destruct (code t) as [|i k] eqn:Ec; [cbn; by rewrite Ec|]. intros H.
  destruct (settles i) eqn:Hs.
  - destruct i; try done; cbn; repeat (case_match; cbn); rewrite ?Ec; try done; try apply ordered_ending;
      by apply ordered_none.
  - apply ordered_tail in H; [|done].
    destruct i; try done; unfold pop_active; repeat case_match; simplify_eq; cbn; try done; try (by apply ordered_cons);
      unfold notify; case_match; by apply ordered_none.
Qed.

Lemma result_status_terminal r : terminal (result_status r) = true.
Proof. unfold result_status. by repeat case_match. Qed.

(** When the thread of a job has settled it, the dictionary entry is terminal or gone. *)
Lemma exec_settles cfg o t m b' : live_code (code t) = true → live_code (code (exec cfg o t m).2) = false →
  jobs (exec cfg o t m).1 !! t_job t = Some b' → terminal (status (fields b')) = true.
Proof.
  unfold exec. destruct (code t) as [|i k] eqn:Ec; [done|]. intros Hl.
  change (settles i || live_code k = true) in Hl. destruct i; cbn in Hl; unfold pop_active;
    repeat case_match; simplify_eq; cbn; rewrite ?Ec; cbn; rewrite ?Hl; try done;
    unfold live_code in *; cbn in *; try congruence; intros Hd Hb'; try congruence; try (by destruct window_elapsed);
    apply lookup_alter_Some in Hb' as [(_ & b0 & Hb0 & ->)|[? _]]; try done; job_simpl; try done; apply result_status_terminal.
Qed.

(** ** The invariant *)

Definition queued (q : list (option (string * bool))) : list string := omap (fmap fst) q.

Definition live_threads (l : list Thread) : list string := t_job <$> filter (λ t, live_code (code t) = true) l.

(** The jobs that wait in a queue or have a worker that will settle them. *)
Definition live_jobs (w : World) : list string :=
  queued (pending_queue w) ++ queued (temporal_queue w) ++ live_threads (threads w).

(** Neither the shared state nor a thread knows of a completed run of [j]. *)
Definition silent (w : World) (j : string) : Prop :=
  quiet (shared w) j ∧ ∀ t, t ∈ threads w → t_job t = j → quiet_code (code t).

(** Identifiers come from [uuid4]. *)
Definition all_issued (w : World) : Prop :=
  (∀ j, j ∈ live_jobs w → j ∈ issued w) ∧ (∀ t, t ∈ threads w → t_job t ∈ issued w)
  ∧ (∀ j b, jobs (shared w) !! j = Some b → j ∈ issued w)
  ∧ (∀ j r, rows (shared w) !! j = Some r → j ∈ issued w)
  ∧ (∀ j t, tracked (shared w) !! j = Some t → j ∈ issued w).

#[local] Arguments execute_job : simpl never.
#[local] Arguments live_jobs : simpl never.
#[local] Arguments live_threads : simpl never.

Record Inv (w : World) : Prop := {
  inv_once : NoDup (live_jobs w);
  inv_issued : all_issued w;
  inv_ordered : ∀ t, t ∈ threads w → ordered (code t);
  inv_live : ∀ j, j ∈ live_jobs w → silent w j;
  inv_open : ∀ j b, jobs (shared w) !! j = Some b → terminal (status (fields b)) = false → silent w j }.

Lemma live_threads_app l k : live_threads (l ++ k) = live_threads l ++ live_threads k.
Proof. unfold live_threads. by rewrite filter_app, fmap_app. Qed.

Lemma live_threads_none l : (∀ t, t ∈ l → live_code (code t) = false) → live_threads l = [].
Proof.
  intros H. unfold live_threads. rewrite filter_none_nil; [done|]. intros t Ht Hl. rewrite (H t Ht) in Hl. done.
Qed.

Lemma live_threads_elem l j : j ∈ live_threads l ↔ ∃ t, t ∈ l ∧ t_job t = j ∧ live_code (code t) = true.
Proof.
  unfold live_threads. rewrite list_elem_of_fmap. split.
  - intros (t & -> & [? ?]%list_elem_of_filter). eauto.
  - intros (t & ? & <- & ?). exists t. split; [done|]. by apply list_elem_of_filter.
Qed.

Lemma silent_gentle w m new j : silent w j → gentle j (shared w) m → (∀ t, t ∈ new → t_job t = j → quiet_code (code t)) →
  silent (with_threads (threads w ++ new) (with_shared m w)) j.
Proof.
  intros [Hq Ht] Hg Hn. split; [by apply (gentle_quiet j _ _ Hg)|]. cbn. intros t [Hin|Hin]%elem_of_app Ej; [by apply Ht|by apply Hn].
Qed.

Lemma live_jobs_writers w m new : (∀ t, t ∈ new → live_code (code t) = false) →
  live_jobs (with_threads (threads w ++ new) (with_shared m w)) = live_jobs w.
Proof.
  intros H. unfold live_jobs. cbn [pending_queue temporal_queue threads with_threads with_shared].
  by rewrite live_threads_app, (live_threads_none new), app_nil_r.
Qed.

(** A request that touches the shared state gently and leaves threads behind that only
    write snapshots. *)
Lemma inv_gentle w m new : Inv w → (∀ j, gentle j (shared w) m) →
  (∀ j r, rows m !! j = Some r → j ∈ issued w) → (∀ j t, tracked m !! j = Some t → j ∈ issued w) →
  (∀ t, t ∈ new → t_job t ∈ issued w ∧ live_code (code t) = false ∧ ordered (code t)
                  ∧ (silent w (t_job t) → quiet_code (code t))) →
  Inv (with_threads (threads w ++ new) (with_shared m w)).
Proof.
  intros [Honce (I1 & I2 & I3 & I4 & I5) Hord Hlive Hopen] Hg Hrows Htr Hnew.
  assert (live_jobs (with_threads (threads w ++ new) (with_shared m w)) = live_jobs w) as El
    by (apply live_jobs_writers; intros t Ht; by apply Hnew).
  assert (∀ j, silent w j → silent (with_threads (threads w ++ new) (with_shared m w)) j) as Hsil.
  { intros j Hj. apply silent_gentle; [done..|]. intros t Ht Ej. apply Hnew; [done|]. by rewrite Ej. }
  split; rewrite ?El; [done| | | |].
  - split_and!; cbn; [by rewrite El| | |done..].
    + intros t [Hin|Hin]%elem_of_app; [by apply I2|by apply Hnew].
    + intros j b Hb. destruct (gentle_cancelled j _ _ (Hg j) b Hb) as (b0 & Hb0 & _). by eapply I3.
  - cbn. intros t [Hin|Hin]%elem_of_app; [by apply Hord|by apply Hnew].
  - intros j Hj. by apply Hsil, Hlive.
  - cbn. intros j b Hb Ht. apply Hsil. destruct (gentle_settled j _ _ (Hg j) b Hb Ht) as (b0 & Hb0 & Ht0). by eapply Hopen.
Qed.

Lemma inv_shared w m : Inv w → (∀ j, gentle j (shared w) m) →
  (∀ j r, rows m !! j = Some r → j ∈ issued w) → (∀ j t, tracked m !! j = Some t → j ∈ issued w) →
  Inv (with_shared m w).
Proof.
  intros Hi Hg Hr Ht. pose proof (inv_gentle w m [] Hi Hg Hr Ht) as H. rewrite app_nil_r in H.
  destruct w. apply H. intros t Hin. by apply not_elem_of_nil in Hin.
Qed.

(** Steps of the queues: the same jobs are live, the new threads are quiet. *)
Lemma inv_permute w w' : Inv w → shared w' = shared w → issued w' = issued w → live_jobs w' ≡ₚ live_jobs w →
  (∀ t, t ∈ threads w' → t ∈ threads w ∨ (t_job t ∈ issued w ∧ ordered (code t) ∧ quiet_code (code t))) → Inv w'.
Proof.
  intros [Honce (I1 & I2 & I3 & I4 & I5) Hord Hlive Hopen] Es Ei El Ht.
  assert (∀ j, silent w j → silent w' j) as Hsil.
  { intros j [Hq Hth]. split; [by rewrite Es|]. intros t Hin Ej. destruct (Ht t Hin) as [?|(_ & _ & ?)]; [|done]. by apply Hth. }
  split.
  - by rewrite El.
  - unfold all_issued. rewrite Es, Ei. split_and!; [|intros t Hin; destruct (Ht t Hin) as [?|[? _]]; eauto|done..].
    intros j. rewrite El. apply I1.
  - intros t Hin. destruct (Ht t Hin) as [?|(_ & ? & _)]; eauto.
  - intros j. rewrite El. eauto.
  - rewrite Es. eauto.
Qed.

(** *** Keys *)

Lemma update_job_dom g kw i t t' j : update_job g kw i t = Ok t' → is_Some (t' !! j) → is_Some (t !! j).
Proof.
  unfold update_job. intros H [r Hr]. repeat case_match; simplify_eq; eauto. apply lookup_insert_Some in Hr as [[<- _]|[_ ?]]; eauto.
Qed.

Lemma persist_dom ok i s t j : is_Some ((persist_job_to_sqlite ok i s t).2 !! j) → is_Some (t !! j) ∨ j = i.
Proof.
  unfold persist_job_to_sqlite. destruct ok; cbn [negb]; [|by left].
  destruct (get_job i t).
  - destruct (update_job true (persist_columns s) i t) eqn:E; cbn [snd]; [|by left]. left. by eapply update_job_dom.
  - cbn [snd]. unfold save_job. destruct (_ || _); [by left|]. intros [r Hr]. apply lookup_insert_Some in Hr as [[<- _]|[_ ?]]; eauto.
Qed.

Lemma exec_rows_dom cfg o t m j : is_Some (rows (exec cfg o t m).1 !! j) → is_Some (rows m !! j) ∨ j = t_job t.
Proof.
  unfold exec. destruct (code t) as [|[] k]; cbn [fst]; unfold pop_active;
    try (repeat case_match; simplify_eq; cbn; by left).
  - destruct (persist_job_to_sqlite _ _ _ _) as [ok rows'] eqn:E. cbn. intros H. eapply persist_dom. by rewrite E.
  - destruct (db_ok o); [|by left]. destruct (upsert_job _ _ _) eqn:E; [|by left]. cbn. left. by eapply update_job_dom.
Qed.

Lemma exec_tracked_dom cfg o t m j : is_Some (tracked (exec cfg o t m).1 !! j) → is_Some (tracked m !! j).
Proof.
  unfold exec. destruct (code t) as [|[] k]; cbn [fst]; unfold pop_active, update_status;
    try (repeat case_match; simplify_eq; cbn; done).
  - destruct (tracked m !! t_job t) eqn:E; cbn; [|done]. intros [x Hx]. apply lookup_insert_Some in Hx as [[<- _]|[_ ?]]; eauto.
  - cbn. intros [x Hx]. apply lookup_delete_Some in Hx as [_ ?]. eauto.
Qed.

Lemma exec_jobs_dom cfg o t m j : is_Some (jobs (exec cfg o t m).1 !! j) → is_Some (jobs m !! j).
Proof.
  unfold exec. destruct (code t) as [|[] k]; cbn [fst]; unfold pop_active;
    repeat case_match; simplify_eq; cbn; try done; rewrite ?lookup_alter_is_Some; try done.
  intros [x Hx]. apply lookup_delete_Some in Hx as [_ ?]. eauto.
Qed.

(** *** A thread's step *)

Lemma run_thread_split cfg o i w w' : run_thread cfg o i w = Some w' → ∃ l t l',
  threads w = l ++ t :: l' ∧
  w' = with_shared (exec cfg o t (shared w)).1
         (with_threads (l ++ (match code (exec cfg o t (shared w)).2 with [] => [] | _ => [(exec cfg o t (shared w)).2] end) ++ l') w).
Proof.
  unfold run_thread. destruct (threads w !! i) as [t|] eqn:E; [|done]. cbn. destruct (exec _ _ _ _) as [m t'] eqn:Ee.
  intros ?. simplify_eq. exists (take i (threads w)), t, (drop (S i) (threads w)).
  split; [by rewrite (take_drop_middle _ _ _ E)|]. by rewrite Ee.
Qed.

Lemma live_threads_single t t' : t_job t' = t_job t → (live_code (code t') = true → live_code (code t) = true) →
  live_threads (match code t' with [] => [] | _ => [t'] end) `sublist_of` live_threads [t].
Proof.
  intros Ej Hl. unfold live_threads. rewrite !filter_cons, !filter_nil.
  destruct (code t') as [|i k] eqn:Ec; [apply sublist_nil_l|]. rewrite filter_cons, filter_nil, Ec.
  repeat case_decide; cbn; try apply sublist_nil_l; [by rewrite Ej|]. exfalso. auto.
Qed.

Lemma exec_open cfg o t m j b' : ¬ (t_job t = j ∧ ∃ k, code t = SetRunning :: k) → jobs (exec cfg o t m).1 !! j = Some b' →
  terminal (status (fields b')) = false → ∃ b, jobs m !! j = Some b ∧ terminal (status (fields b)) = false.
Proof.
  intros Hs. unfold exec. destruct (code t) as [|i k] eqn:Ec; [by eauto|].
  destruct i; cbn [fst]; unfold pop_active, from_option; repeat case_match; simplify_eq; cbn; intros Hb Ht; try (by eauto);
    try (apply lookup_delete_Some in Hb as [_ ?]; by eauto);
    apply lookup_alter_Some in Hb as [(<- & b0 & Hb0 & ->)|[_ ?]]; try (by eauto); exists b0; split; try done;
    repeat case_match; job_simpl; try done; try congruence.
  - destruct Hs. eauto.
  - by rewrite result_status_terminal in Ht.
Qed.

#[local] Instance starting_dec t : Decision (∃ k, code t = SetRunning :: k).
Proof. destruct (code t) as [|[] k]; (left; by eexists) || (right; by intros [? ?]). Defined.

Section thread_step.
Context (cfg : Config) (o : oracle) (w : World) (l l' : list Thread) (t : Thread).
Context (Hw : threads w = l ++ t :: l') (HI : Inv w).

#[local] Abbreviation after := (exec cfg o t (shared w)).
#[local] Abbreviation kept := (match code after.2 with [] => [] | _ => [after.2] end).
#[local] Abbreviation w' := (with_shared after.1 (with_threads (l ++ kept ++ l') w)).

Lemma thread_live_sublist : live_jobs w' `sublist_of` live_jobs w.
Proof using Hw.
  unfold live_jobs. cbn. rewrite Hw. do 2 (apply sublist_app; [done|]).
  change (t :: l') with ([t] ++ l'). rewrite !live_threads_app. apply sublist_app; [done|]. apply sublist_app; [|done].
  apply live_threads_single; [apply exec_job|apply exec_live].
Qed.

Lemma thread_settled : live_code (code t) = true → live_code (code after.2) = false → t_job t ∉ live_jobs w'.
Proof using Hw HI.
  intros Ht Ht'. pose proof (inv_once _ HI) as Hnd. revert Hnd. unfold live_jobs. cbn. rewrite Hw.
  change (t :: l') with ([t] ++ l'). rewrite !live_threads_app.
  assert (live_threads [t] = [t_job t]) as -> by (unfold live_threads; by rewrite filter_cons_True).
  rewrite (live_threads_none kept).
  - intros Hnd. rewrite app_nil_l, !app_assoc. rewrite !app_assoc, <- (app_assoc _ [t_job t]) in Hnd. cbn in Hnd.
    rewrite <- Permutation_middle in Hnd. by apply NoDup_cons in Hnd as [? _].
  - intros x Hx. destruct (code after.2) eqn:E; [by apply not_elem_of_nil in Hx|].
    apply list_elem_of_singleton in Hx as ->. by rewrite E.
Qed.

(** The job of the thread is silent where the invariant needs it to be, unless the
    thread is recording a completed run. *)
Lemma thread_silent j : silent w j → ¬ (t_job t = j ∧ finishing t (shared w)) → silent w' j.
Proof using Hw HI.
  intros [Hq Hth] Hf. assert (t ∈ threads w) as Hin by (rewrite Hw; set_solver).
  split; cbn.
  - destruct (decide (t_job t = j ∧ ∃ k, code t = SetRunning :: k)) as [[Ej [k Hk]]|Hn].
    + unfold exec. rewrite Hk. cbn. destruct Hq as (Q1 & Q2 & Q3). split_and!; [|done..]. intros b. cbn.
      rewrite Ej, lookup_alter_Some. intros [(_ & b0 & _ & ->)|[? _]]; [|done]. by job_simpl.
    + apply exec_gentle; [auto..|done]. intros Ej k Hk. apply Hn. eauto.
  - intros x. rewrite Hw in Hth. rewrite !elem_of_app. intros [Hx|[Hx|Hx]] Ej; [apply Hth; set_solver| |apply Hth; set_solver].
    assert (x = after.2) as -> by (destruct (code after.2); set_solver).
    destruct (exec_job cfg o t (shared w)) as [E _]. rewrite E in Ej. subst j.
    apply exec_quiet_code; [|done|tauto]. apply Hth; [set_solver|done].
Qed.

Lemma inv_thread : Inv w'.
Proof using Hw HI.
  pose proof thread_live_sublist as Hsub. pose proof (inv_issued _ HI) as (I1 & I2 & I3 & I4 & I5).
  assert (t ∈ threads w) as Hin by (rewrite Hw; set_solver).
  assert (∀ x, x ∈ l ++ kept ++ l' → x ∈ threads w ∨ x = after.2) as Hth.
  { intros x. rewrite Hw, !elem_of_app, elem_of_cons. destruct (code after.2); set_solver. }
  destruct (exec_job cfg o t (shared w)) as [Ej _].
  assert (finishing t (shared w) → live_code (code t) = true ∧ live_code (code after.2) = false) as Hfin.
  { intros (r & k & b & Hk & Hb & Hc). unfold exec. rewrite Hk, Hb, Hc. cbn. split; [done|]. apply live_ending. }
  split.
  - eapply sublist_NoDup; [apply (inv_once _ HI)|exact Hsub].
  - split_and!; cbn.
    + intros j Hj. apply I1. by eapply sublist_elem_of.
    + intros x [Hx| ->]%Hth; [by apply I2|]. rewrite Ej. by apply I2.
    + intros j b Hb. destruct (exec_jobs_dom cfg o t (shared w) j) as [b0 Hb0]; [eauto|]. by eapply I3.
    + intros j r Hr. destruct (exec_rows_dom cfg o t (shared w) j) as [[r0 Hr0]| ->]; [eauto|by eapply I4|by apply I2].
    + intros j x Hx. destruct (exec_tracked_dom cfg o t (shared w) j) as [x0 Hx0]; [eauto|]. by eapply I5.
  - intros x [Hx| ->]%Hth; [by apply (inv_ordered _ HI)|]. apply exec_ordered. by apply (inv_ordered _ HI).
  - intros j Hj. apply thread_silent; [apply (inv_live _ HI); by eapply sublist_elem_of|].
    intros [<- Hf]. destruct (Hfin Hf) as [H1 H2]. by apply (thread_settled H1 H2).
  - intros j b Hb Ht. cbn in Hb.
    assert (¬ (t_job t = j ∧ finishing t (shared w))) as Hnf.
    { intros [<- Hf]. destruct (Hfin Hf) as [H1 H2]. by rewrite (exec_settles cfg o t (shared w) b H1 H2 Hb) in Ht. }
    apply thread_silent; [|done].
    destruct (decide (t_job t = j ∧ ∃ k, code t = SetRunning :: k)) as [[<- [k Hk]]|Hn].
    + apply (inv_live _ HI). unfold live_jobs. rewrite !elem_of_app. right. right. apply live_threads_elem.
      exists t. split_and!; [done..|]. apply (inv_ordered _ HI t Hin). by rewrite Hk.
    + destruct (exec_open cfg o t (shared w) j b Hn Hb Ht) as (b0 & Hb0 & Ht0). by eapply (inv_open _ HI).
Qed.

End thread_step.

(** *** Requests *)

Lemma one_status_cancel now : one_status [Attr (AStatus CANCELLED); Attr (ACancelled true); Attr (ACompleted (Some now))].
Proof. intros x Hx. cbn. repeat (apply elem_of_cons in Hx as [?|Hx]; simplify_eq; try done). by apply not_elem_of_nil in Hx. Qed.

Lemma cancel_row_no_new ok i user admin now t j : no_new_completed j t (cancel_row ok i user admin now t).2.
Proof.
  unfold cancel_row. destruct (negb ok); [by intros ?; eauto|]. destruct (get_job i t); [|by intros ?; eauto].
  do 2 (destruct (negb _); [by intros ?; eauto|]). destruct (update_job _ _ _ _) eqn:E; cbn [snd]; [|by intros ?; eauto].
  eapply update_no_new; [apply one_status_cancel|done|done].
Qed.

Lemma cancel_row_dom ok i user admin now t j : is_Some ((cancel_row ok i user admin now t).2 !! j) → is_Some (t !! j).
Proof.
  unfold cancel_row. destruct (negb ok); [done|]. destruct (get_job i t); [|done]. do 2 (destruct (negb _); [done|]).
  destruct (update_job _ _ _ _) eqn:E; cbn [snd]; [|done]. by eapply update_job_dom.
Qed.

Lemma end_job_rows i e now act t t' j : (end_job i e now act t).2 = Ok t' → completed (ending_status e) = false →
  no_new_completed j t t' ∧ (is_Some (t' !! j) → is_Some (t !! j)).
Proof.
  unfold end_job, pop_active. cbn. intros H He.
  assert (∀ x, upsert_job i (finish e now x) t = Ok t' → no_new_completed j t t' ∧ (is_Some (t' !! j) → is_Some (t !! j))) as Hu.
  { intros x Hx. split; [by eapply upsert_no_new|by eapply update_job_dom]. }
  unfold finalize_absent_job in H. repeat case_match; simplify_eq; eauto; by split; [intros ?; eauto|].
Qed.

Lemma cancel_absent_gentle cfg ok i user admin now m j : gentle j m (cancel_absent cfg ok i user admin now m).2.
Proof.
  unfold cancel_absent. destruct (local_xray_job cfg i m) as [x|].
  - destruct (negb _); [done|]. destruct (end_job _ _ _ _ _) as [act r] eqn:E. cbn [snd].
    transitivity (set_rows (match r with Ok t' => t' | Err _ => rows m end) m).
    + apply gentle_rows. destruct r as [t'|]; [|intros ? ? ?; eauto]. apply (end_job_rows i (Fail (VStr "cancelled")) now (tracked m)); [|done].
      by rewrite E.
    + change (gentle j (set_rows (match r with Ok t' => t' | Err _ => rows m end) m)
        (set_tracked act (set_rows (match r with Ok t' => t' | Err _ => rows m end) m))).
      apply gentle_tracked. cbn. unfold end_job, pop_active in E. simplify_eq. intros t' Ht' Hc.
      apply lookup_delete_Some in Ht' as [_ ?]. eauto.
  - destruct (cancel_row _ _ _ _ _ _) as [rep rows'] eqn:E. cbn. apply gentle_rows.
    pose proof (cancel_row_no_new ok i user admin now (rows m) j) as H. by rewrite E in H.
Qed.

Lemma cancel_absent_dom cfg ok i user admin now m j :
  (is_Some (rows (cancel_absent cfg ok i user admin now m).2 !! j) → is_Some (rows m !! j))
  ∧ (is_Some (tracked (cancel_absent cfg ok i user admin now m).2 !! j) → is_Some (tracked m !! j)).
Proof.
  unfold cancel_absent. destruct (local_xray_job cfg i m) as [x|].
  - destruct (negb _); [done|]. destruct (end_job _ _ _ _ _) as [act r] eqn:E. cbn [snd rows tracked]. split.
    + destruct r as [t'|]; [|done]. eapply end_job_rows; [by rewrite E|done].
    + unfold end_job, pop_active in E. simplify_eq. intros [y Hy]. apply lookup_delete_Some in Hy as [_ ?]. eauto.
  - destruct (cancel_row _ _ _ _ _ _) as [rep rows'] eqn:E. cbn. split; [|done]. intros H.
    eapply (cancel_row_dom ok i user admin now). by rewrite E.
Qed.

Lemma fail_active_no_new p msg now t j : no_new_completed j t (fail_active p msg now t).2.
Proof.
  intros r' Hr' Hc. rewrite fail_active_row in Hr'. apply fmap_Some in Hr' as (r & Hr & ->).
  destruct (_ && _); [by job_simpl|eauto].
Qed.

Lemma fail_active_dom p msg now t j : is_Some ((fail_active p msg now t).2 !! j) → is_Some (t !! j).
Proof. rewrite fail_active_row, fmap_is_Some. done. Qed.

Lemma fail_orphans_gentle cfg ok msg now m j : gentle j m (manager_fail_orphaned_jobs cfg ok msg now m).2.
Proof.
  assert (gentle j m (set_jobs (fmap (fail_job_in_memory msg now)) m)) as H1.
  { apply gentle_jobs. intros b' Hb'. rewrite lookup_fmap in Hb'. apply fmap_Some in Hb' as (b & Hb & ->).
    exists b. split; [done|]. exists (fail_job_in_memory msg now). split; [|done]. unfold fail_job_in_memory. mild_tac. }
  unfold manager_fail_orphaned_jobs. destruct (_ || _); [done|].
  destruct (fail_orphaned_jobs _ _ _) as [k rows'] eqn:E. cbn. etrans; [done|]. apply gentle_rows. cbn.
  pose proof (fail_active_no_new (λ _, true) msg now (rows m) j) as H. unfold fail_orphaned_jobs in E. by rewrite E in H.
Qed.

Lemma cleanup_gentle ok h now m j : gentle j m (manager_cleanup_old_jobs ok h now m).2.
Proof.
  assert (∀ P (HP : ∀ x, Decision (P x)), gentle j m (set_jobs (filter P) m)) as H1.
  { intros P HP. apply gentle_jobs. intros b' Hb'. apply map_lookup_filter_Some in Hb' as [? _]. eauto using mild_id. }
  unfold manager_cleanup_old_jobs. destruct ok; [|apply H1]. cbn.
  transitivity (set_jobs (filter (λ jb, old_in_memory (now - h * hour) jb.2 = false)) m); [apply H1|]. apply gentle_rows. cbn.
  intros r Hr Hc. apply map_lookup_filter_Some in Hr as [? _]. eauto.
Qed.

Lemma shutdown_gentle w now j : gentle j (shared w) (set_jobs (map_imap (λ i b, Some (shutdown_job w now i b))) (shared w)).
Proof.
  apply gentle_jobs. intros b' Hb'. rewrite map_lookup_imap in Hb'. apply bind_Some in Hb' as (b & Hb & [= <-]).
  exists b. split; [done|]. exists (shutdown_job w now j). split; [|done]. unfold shutdown_job. mild_tac.
Qed.

(** Only the new job's row and tracker entry change, and they are pending. *)
Record only_new (j : string) (m m' : Shared) : Prop := {
  new_jobs : jobs m' = jobs m;
  new_rows i : i ≠ j → rows m' !! i = rows m !! i;
  new_tracked_other i : i ≠ j → tracked m' !! i = tracked m !! i;
  new_row_pending r : rows m' !! j = Some r → status (cols r) = PENDING;
  new_tracked_pending t : tracked m' !! j = Some t → t_status t = PENDING }.

Lemma save_job_fresh j r t : t !! j = None → save_job j r t = t ∨ save_job j r t = <[j := r]> t.
Proof. intros H. unfold save_job. destruct (_ || _); eauto. Qed.

Lemma register_alone node j op user alias meta admin actor st now act rows act' rows' : rows !! j = None →
  register_job_if_no_conflict node [] j op user alias meta admin actor st now act rows = Ok (act', rows') →
  ∃ r, act' = <[j := new_tracked op user (Some alias) meta now]> act ∧ rows' = <[j := r]> rows
    ∧ status (cols r) = PENDING ∧ index_key r = Some (op, alias)
    ∧ find_active_job_by_type_and_alias op alias rows = None.
Proof.
  intros Hj. unfold register_job_if_no_conflict. do 4 (destruct (is_blank _); [done|]).
  intros (rw & Hins & [= <- <-])%result_bind_Ok. rewrite atomic_insert_alone in Hins by done.
  destruct (find_active_job_by_type_and_alias op alias rows) eqn:E; [done|]. simplify_eq. eauto 10.
Qed.

Lemma submit_claim_new cfg o now j alias s m m' : rows m !! j = None → submit_claim cfg o now j alias s m = Ok m' → only_new j m m'.
Proof.
  intros Hj. unfold submit_claim. destruct (negb (register_ok o)); [done|].
  destruct (register_job_if_no_conflict _ _ _ _ _ _ _ _ _ _ _ _ _) as [[act rw]|[]] eqn:E; [|done..]. intros [= <-].
  destruct (register_alone _ _ _ _ _ _ _ _ _ _ _ _ _ _ Hj E) as (r & -> & -> & Hst & _).
  split; cbn; [done|intros; by rewrite lookup_insert_ne..| |].
  - rewrite lookup_insert_eq. by intros r0 [= <-].
  - rewrite lookup_insert_eq. by intros r0 [= <-].
Qed.

Lemma persist_new ok j s t : t !! j = None →
  (persist_job_to_sqlite ok j s t).2 = t ∨ (persist_job_to_sqlite ok j s t).2 = <[j := new_row s None None None]> t.
Proof.
  intros Hj. unfold persist_job_to_sqlite, get_job. destruct ok; cbn [negb]; [|eauto]. rewrite Hj. by apply save_job_fresh.
Qed.

Lemma submit_local_new cfg o now j s b m m' : rows m !! j = None → tracked m !! j = None → status (fields b) = PENDING →
  submit_local cfg o now j s b m = Ok m' → only_new j m m'.
Proof.
  intros Hj Ht Hb. unfold submit_local. intros (c & _ & H)%result_bind_Ok. destruct c; [done|].
  destruct (persist_job_to_sqlite _ _ _ _) as [ok rows1] eqn:E.
  assert (∀ i, i ≠ j → rows1 !! i = rows m !! i) as H1.
  { intros i Hi. destruct (persist_new (persist_ok o) j (fields b) (rows m) Hj) as [Hp|Hp]; rewrite E in Hp; cbn in Hp; subst; [done|].
    by rewrite lookup_insert_ne. }
  assert (∀ r, rows1 !! j = Some r → status (cols r) = PENDING) as H2.
  { intros r Hr. destruct (persist_new (persist_ok o) j (fields b) (rows m) Hj) as [Hp|Hp]; rewrite E in Hp; cbn in Hp; subst; [congruence|].
    rewrite lookup_insert_eq in Hr. simplify_eq. cbn. by rewrite status_set_attr. }
  destruct (_ && _).
  - unfold register_job in H. simplify_eq. split; cbn; [done| |intros; by rewrite lookup_insert_ne| |].
    + intros i Hi. rewrite <- H1 by done. unfold insert_job, save_job. destruct (_ || _); [done|]. by rewrite lookup_insert_ne.
    + intros r. unfold insert_job, save_job. destruct (_ || _); [by apply H2|]. rewrite lookup_insert_eq. by intros [= <-].
    + intros t. rewrite lookup_insert_eq. by intros [= <-].
  - simplify_eq. split; cbn; try done. intros t Htt. congruence.
Qed.

(** What an accepted submission changes. *)
Lemma submit_job_new cfg maint o now j s w w' : rows (shared w) !! j = None → tracked (shared w) !! j = None →
  submit_job cfg maint o now j s w = Ok w' → ∃ l m, lane_of (s_lane s) = Some l ∧ only_new j (shared w) m ∧
  w' = (if is_pod_pull_eligible cfg s then with_shared (set_jobs (delete j) m)
        else λ x, with_queue l (queue_of l x ++ [Some (j, s_takes_progress s)]) (with_shared (set_jobs (insert j (new_job s l now)) m) x))
       (mkWorld m (pending_queue w) (temporal_queue w) (pool w) (temporal_pool w) (threads w) ({[j]} ∪ issued w)).
Proof.
  intros Hr Ht. unfold submit_job. destruct (lane_of (s_lane s)) as [l|]; [|done]. destruct maint; [done|].
  intros (m & Hm & H)%result_bind_Ok. exists l, m. split; [done|]. split.
  - destruct (given (s_alias s)), (has_tracker cfg);
      first [eapply submit_claim_new; [|exact Hm]; done|eapply submit_local_new; [| | |exact Hm]; done].
  - destruct (is_pod_pull_eligible cfg s); by simplify_eq.
Qed.

Lemma queued_snoc q x : queued (q ++ [Some x]) = queued q ++ [x.1].
Proof. unfold queued. by rewrite omap_app. Qed.

Lemma live_jobs_enqueue l x w : live_jobs (with_queue l (queue_of l w ++ [Some x]) w) ≡ₚ x.1 :: live_jobs w.
Proof.
  destruct l; unfold live_jobs; cbn; rewrite queued_snoc, <- !app_assoc; cbn.
  - by rewrite <- Permutation_middle.
  - rewrite !app_assoc. by rewrite <- Permutation_middle.
Qed.

(** The summary of an accepted submission that the invariants use. *)
Record submitted (j : string) (w w' : World) : Prop := {
  sub_issued : issued w' = {[j]} ∪ issued w;
  sub_threads : threads w' = threads w;
  sub_pools l : pool_of l w' = pool_of l w;
  sub_live i : i ∈ live_jobs w' → i = j ∨ i ∈ live_jobs w;
  sub_nodup : j ∉ live_jobs w → NoDup (live_jobs w) → NoDup (live_jobs w');
  sub_keep i : i ∈ live_jobs w → i ∈ live_jobs w';
  sub_jobs i : i ≠ j → jobs (shared w') !! i = jobs (shared w) !! i;
  sub_rows i : i ≠ j → rows (shared w') !! i = rows (shared w) !! i;
  sub_tracked i : i ≠ j → tracked (shared w') !! i = tracked (shared w) !! i;
  sub_job b : jobs (shared w') !! j = Some b → status (fields b) = PENDING ∧ j ∈ live_jobs w';
  sub_row r : rows (shared w') !! j = Some r → status (cols r) = PENDING;
  sub_entry t : tracked (shared w') !! j = Some t → t_status t = PENDING }.

Lemma submit_submitted cfg maint o now j s w w' : Inv w → j ∉ issued w → submit_job cfg maint o now j s w = Ok w' → submitted j w w'.
Proof.
  intros HI Hj Hsub. pose proof (inv_issued _ HI) as (I1 & I2 & I3 & I4 & I5).
  assert (rows (shared w) !! j = None) as Hr by (apply eq_None_not_Some; intros [r Hr]; by apply Hj, (I4 _ r)).
  assert (tracked (shared w) !! j = None) as Ht by (apply eq_None_not_Some; intros [r Hr']; by apply Hj, (I5 _ r)).
  destruct (submit_job_new _ _ _ _ _ _ _ _ Hr Ht Hsub) as (l & m & Hl & [N1 N2 N3 N4 N5] & Ew).
  destruct (is_pod_pull_eligible cfg s).
  - rewrite Ew. split; cbn; rewrite ?N1; try done; try (by right); [intros; by rewrite lookup_delete_ne|].
    intros b. by rewrite lookup_delete_eq.
  - pose proof (live_jobs_enqueue l (j, s_takes_progress s) (with_shared (set_jobs (insert j (new_job s l now)) m)
      (mkWorld m (pending_queue w) (temporal_queue w) (pool w) (temporal_pool w) (threads w) ({[j]} ∪ issued w)))) as Hq.
    assert (live_jobs w' ≡ₚ j :: live_jobs w) as El by (rewrite Ew; by destruct l).
    split; try (by rewrite Ew; destruct l).
    + intros i Hi. rewrite El in Hi. by apply elem_of_cons.
    + intros H1 H2. rewrite El. by apply NoDup_cons.
    + intros i Hi. rewrite El. by right.
    + intros i Hi. rewrite Ew. destruct l; cbn; rewrite N1; by rewrite lookup_insert_ne.
    + intros b Hb. split; [|rewrite El; by left]. rewrite Ew in Hb. destruct l; cbn in Hb; rewrite lookup_insert_eq in Hb; by simplify_eq.
Qed.

Lemma submitted_silent j w w' i : Inv w → submitted j w w' → j ∉ issued w → i = j ∨ silent w i → silent w' i.
Proof.
  intros HI [Si St Sp Sl Sn Sk Sj Sr Sk' Sb Srow Se] Hj Hi. pose proof (inv_issued _ HI) as (I1 & I2 & _).
  unfold silent. rewrite St. destruct (decide (i = j)) as [->|Hne].
  - split; [|intros t Hin Ej; destruct Hj; rewrite <- Ej; by apply I2].
    split_and!; [intros b Hb; by destruct (Sb b Hb) as [-> _]|intros r Hr; by rewrite (Srow r Hr)|intros t Ht; by rewrite (Se t Ht)].
  - destruct Hi as [?|[(Q1 & Q2 & Q3) Hth]]; [done|]. split; [|done].
    split_and!; rewrite ?Sj, ?Sr, ?Sk' by done; done.
Qed.

Lemma inv_submit cfg maint o now j s w w' : j ∉ issued w → submit_job cfg maint o now j s w = Ok w' → Inv w → Inv w'.
Proof.
  intros Hj Hsub HI. pose proof (submit_submitted _ _ _ _ _ _ _ _ HI Hj Hsub) as HS.
  pose proof (inv_issued _ HI) as (I1 & I2 & I3 & I4 & I5).
  assert (∀ {A} (f g : gmap string A), (∀ i, i ≠ j → f !! i = g !! i) → (∀ i x, g !! i = Some x → i ∈ issued w) →
    ∀ i x, f !! i = Some x → i ∈ issued w') as Hkeys.
  { intros A f g Hfg Hg i x Hx. rewrite (sub_issued _ _ _ HS). destruct (decide (i = j)) as [->|Hne]; [set_solver|].
    rewrite Hfg in Hx by done. apply Hg in Hx. set_solver. }
  split.
  - apply (sub_nodup _ _ _ HS); [|apply HI]. intros Hin. by apply Hj, I1.
  - split_and!.
    + intros i [->|Hi]%(sub_live _ _ _ HS); rewrite (sub_issued _ _ _ HS); [set_solver|]. apply I1 in Hi. set_solver.
    + rewrite (sub_threads _ _ _ HS), (sub_issued _ _ _ HS). intros t Hin%I2. set_solver.
    + eapply Hkeys; [apply (sub_jobs _ _ _ HS)|apply I3].
    + eapply Hkeys; [apply (sub_rows _ _ _ HS)|apply I4].
    + eapply Hkeys; [apply (sub_tracked _ _ _ HS)|apply I5].
  - rewrite (sub_threads _ _ _ HS). apply HI.
  - intros i Hi. eapply submitted_silent; [done..|]. apply (sub_live _ _ _ HS) in Hi as [->|Hi]; [by left|]. right. by apply (inv_live _ HI).
  - intros i b Hib Hterm. eapply submitted_silent; [done..|]. destruct (decide (i = j)) as [->|Hne]; [by left|]. right.
    rewrite (sub_jobs _ _ _ HS) in Hib by done. by eapply (inv_open _ HI).
Qed.

Lemma live_execute cfg takes : live_code (execute_job cfg takes) = true.
Proof. unfold execute_job. by destruct (has_tracker cfg), takes. Qed.

Lemma quiet_execute cfg takes : quiet_code (execute_job cfg takes).
Proof. unfold execute_job. destruct (has_tracker cfg), takes; repeat (constructor; [done|]); constructor. Qed.

Lemma live_threads_worker cfg j lane takes : live_threads [mkThread j lane takes false (execute_job cfg takes)] = [j].
Proof. unfold live_threads. by rewrite filter_cons_True by apply live_execute. Qed.

Lemma worker_effect cfg l denied w w' : pool_worker cfg l denied w = Some w' →
  shared w' = shared w ∧ issued w' = issued w ∧ live_jobs w' ≡ₚ live_jobs w ∧
  ∀ t, t ∈ threads w' → t ∈ threads w ∨ (t_job t ∈ live_jobs w ∧ ordered (code t) ∧ quiet_code (code t)).
Proof.
  unfold pool_worker. destruct (_ <? _)%nat; [|done]. destruct (queue_of l w) as [|[[j takes]|] q] eqn:Eq; [done| |].
  - destruct (admission_blocked _ _ _ _); intros ?; simplify_eq; (split_and!; [by destruct l..| |]).
    + destruct l; cbn in Eq; unfold live_jobs; cbn; rewrite Eq, queued_snoc; cbn; rewrite <- app_assoc; cbn;
        [by rewrite <- Permutation_middle|by rewrite <- !Permutation_middle].
    + destruct l; by left.
    + destruct l; cbn in Eq; unfold live_jobs; cbn; rewrite Eq, live_threads_app, live_threads_worker; cbn;
        rewrite !app_assoc, <- Permutation_cons_append; cbn; rewrite <- ?app_assoc; by rewrite <- ?Permutation_middle.
    + intros t [Hin|Hin]%elem_of_app; [left; by destruct l|]. right. apply list_elem_of_singleton in Hin as ->. cbn.
      split_and!; [|intros _; apply live_execute|apply quiet_execute].
      unfold live_jobs. rewrite !elem_of_app. destruct l; cbn in Eq; rewrite Eq; cbn; rewrite ?elem_of_cons; eauto.
  - intros ?. simplify_eq. split_and!; [by destruct l..| |by destruct l; left].
    destruct l; cbn in Eq; unfold live_jobs; cbn; by rewrite Eq.
Qed.

Lemma inv_worker cfg l denied w w' : pool_worker cfg l denied w = Some w' → Inv w → Inv w'.
Proof.
  intros (Es & Ei & El & Ht)%worker_effect HI. eapply inv_permute; [done..|]. intros t Hin.
  destruct (Ht t Hin) as [?|(? & ? & ?)]; [by left|]. right. split_and!; [|done..]. destruct (inv_issued _ HI) as [I1 _]. by apply I1.
Qed.

(** *** Start *)

#[local] Arguments list_jobs : simpl never.

Lemma load_lookup (l : list (string * Row)) (d : gmap string BackgroundJob) j b :
  foldl (λ d kr, <[kr.1 := deserialize kr.2]> d) d l !! j = Some b → d !! j = Some b ∨ ∃ r, (j, r) ∈ l ∧ b = deserialize r.
Proof.
  revert d. induction l as [|[i r] l IH]; intros d; cbn; [by left|]. intros [H|(r' & Hin & ->)]%IH.
  - apply lookup_insert_Some in H as [[-> <-]|[_ ?]]; [|by left]. right. exists r. split; [by left|done].
  - right. exists r'. split; [by right|done].
Qed.

Lemma list_jobs_elem user st op limit t j r : (j, r) ∈ list_jobs user (Some st) op limit 0 t →
  t !! j = Some r ∧ status (cols r) = st.
Proof.
  unfold list_jobs. rewrite drop_0. intros Hin.
  assert ((j, r) ∈ sort_desc (λ kr : string * Row, inject_Z (created_at (cols kr.2))) (filter (λ kr, cond user (username (cols kr.2))
     && cond op (operation_type (cols kr.2)) && from_option (λ s, bool_decide (status (cols kr.2) = s)) true (Some st)) (map_to_list t))) as Hs.
  { destruct (limit <? 0); [done|]. apply elem_of_take in Hin as (k & Hk & _). by eapply list_elem_of_lookup_2. }
  rewrite sort_desc_perm in Hs. apply list_elem_of_filter in Hs as [Hp Hin']. apply elem_of_map_to_list in Hin'. split; [done|].
  cbn in Hp. apply Is_true_true in Hp. apply andb_true_iff in Hp as [_ Hp]. by apply bool_decide_eq_true in Hp.
Qed.

Lemma load_jobs_active cfg ok h now t j b : (load_jobs cfg ok h now t).1 !! j = Some b →
  ∃ r, (load_jobs cfg ok h now t).2 !! j = Some r ∧ b = deserialize r ∧ active (status (cols r)) = true.
Proof.
  unfold load_jobs. destruct ok; [|done]. cbn. intros [H|(r & Hin & ->)]%load_lookup; [done|].
  apply elem_of_app in Hin as [Hin|Hin]; apply list_jobs_elem in Hin as [Hr Hst]; exists r; by rewrite Hst.
Qed.

Lemma backend_sweep_fail cfg node now t : backend_sweep cfg node now t = t ∨
  ∃ p, backend_sweep cfg node now t = (fail_active p restart_message now t).2.
Proof. unfold backend_sweep, pg_cleanup_orphaned_jobs_on_startup. destruct (postgres cfg), node; eauto. Qed.

(** The rows after a start are rows of before, or swept ones. *)
Lemma start_rows_dom cfg ok h now iss t j : is_Some (rows (shared (start cfg ok h now iss t)) !! j) → is_Some (t !! j).
Proof.
  assert (∀ node x, is_Some (backend_sweep cfg node now x !! j) → is_Some (x !! j)) as Hs.
  { intros node x. destruct (backend_sweep_fail cfg node now x) as [->|[p ->]]; [done|]. apply fail_active_dom. }
  assert (∀ x, is_Some ((load_jobs cfg ok h now x).2 !! j) → is_Some (x !! j)) as Hl.
  { intros x. unfold load_jobs. destruct ok; [|done]. cbn. intros [r Hr]. apply map_lookup_filter_Some in Hr as [Hr _]. eauto. }
  unfold start. destruct (load_jobs _ _ _ _ _) as [d t'] eqn:E. cbn. intros H.
  assert (is_Some ((load_jobs cfg ok h now (if has_tracker cfg then backend_sweep cfg (node_id cfg) now t else t)).2 !! j)) as H'
    by (by rewrite E).
  apply Hl in H'. destruct (has_tracker cfg); eauto.
Qed.

Lemma inv_start cfg ok h now iss t : dom t ⊆ iss → Inv (start cfg ok h now iss t).
Proof.
  intros Hd. pose proof (λ j, start_rows_dom cfg ok h now iss t j) as Hrows. revert Hrows.
  unfold start. destruct (load_jobs _ _ _ _ _) as [d t'] eqn:E. intros Hrows.
  assert (∀ j b, d !! j = Some b → ∃ r, t' !! j = Some r ∧ b = deserialize r ∧ active (status (cols r)) = true) as Hload.
  { intros j b Hb. pose proof (load_jobs_active cfg ok h now (if has_tracker cfg then backend_sweep cfg (node_id cfg) now t else t) j b) as H.
    rewrite E in H. by apply H. }
  assert (∀ j r, t' !! j = Some r → j ∈ iss) as Hiss.
  { intros j r Hr. apply Hd, elem_of_dom, Hrows. cbn. eauto. }
  split; cbn.
  - constructor.
  - split_and!; cbn; try done; [intros j Hj; by apply not_elem_of_nil in Hj|intros t0 Hin; by apply not_elem_of_nil in Hin|].
    intros j b Hb. destruct (Hload j b Hb) as (r & Hr & _). eauto.
  - intros t0 Hin. by apply not_elem_of_nil in Hin.
  - intros j Hj. by apply not_elem_of_nil in Hj.
  - intros j b Hb _. destruct (Hload j b Hb) as (r & Hr & -> & Ha). split; cbn; [|intros t0 Hin; by apply not_elem_of_nil in Hin].
    split_and!; cbn; [|intros r'|done].
    + intros b' Hb'. destruct (Hload j b' Hb') as (r' & Hr' & -> & Ha'). cbn. by destruct (status (cols r')).
    + rewrite Hr. intros [= <-]. by destruct (status (cols r)).
Qed.

Lemma queued_sentinels q n : queued (q ++ replicate n None) = queued q.
Proof. unfold queued. rewrite omap_app. replace (omap _ (replicate n None)) with (@nil string); [apply app_nil_r|]. by induction n. Qed.

Lemma inv_shutdown cfg now w : Inv w → Inv (shutdown cfg now w).
Proof.
  intros HI. pose proof (inv_issued _ HI) as (I1 & I2 & I3 & I4 & I5).
  set (m := set_jobs (map_imap (λ j b, Some (shutdown_job w now j b))) (shared w)).
  set (new := (λ jb, writer jb.1 [Write (fields jb.2)]) <$> map_to_list (jobs m)).
  assert (Inv (with_threads (threads w ++ new) (with_shared m w))) as H1.
  { apply inv_gentle; [done|intros; apply shutdown_gentle|done..|].
    intros t ([j b] & -> & Hin%elem_of_map_to_list)%list_elem_of_fmap. cbn.
    destruct (gentle_cancelled j _ _ (shutdown_gentle w now j) b Hin) as (b0 & Hb0 & _).
    split_and!; [by eapply I3|done|done|]. intros [Hq _]. apply (gentle_quiet j _ _ (shutdown_gentle w now j)) in Hq as [Q1 _].
    constructor; [|constructor]. by apply Q1. }
  eapply (inv_permute _ (shutdown cfg now w) H1); [done..| |intros t Ht; by left].
  unfold live_jobs. cbn. by rewrite !queued_sentinels.
Qed.

Lemma inv_step cfg w w' : step cfg w w' → Inv w → Inv w'.
Proof.
  intros Hs HI. pose proof (inv_issued _ HI) as (I1 & I2 & I3 & I4 & I5). destruct Hs.
  - by eapply inv_submit.
  - by eapply inv_worker.
  - apply run_thread_split in H as (l & x & l' & Hw & ->). by apply inv_thread.
  - unfold cancel_job. destruct (jobs (shared w) !! j) as [b|] eqn:Hb.
    + unfold cancel_local. do 2 (destruct (negb _); [done|]). cbn [snd]. apply inv_gentle; [done| |done..|].
      * intros i. apply gentle_alter. mild_tac.
      * intros x ->%list_elem_of_singleton. cbn. split_and!; [by eapply I3|done|done|]. intros _. by repeat constructor.
    + destruct (cancel_absent _ _ _ _ _ _ _) as [rep m] eqn:E. cbn [snd]. apply inv_shared; [done|..].
      * intros i. pose proof (cancel_absent_gentle cfg ok j user admin t (shared w) i) as H. by rewrite E in H.
      * intros i r Hr. destruct (cancel_absent_dom cfg ok j user admin t (shared w) i) as [H _]. rewrite E in H.
        destruct H as [r0 Hr0]; [eauto|]. by eapply I4.
      * intros i r Hr. destruct (cancel_absent_dom cfg ok j user admin t (shared w) i) as [_ H]. rewrite E in H.
        destruct H as [r0 Hr0]; [eauto|]. by eapply I5.
  - apply inv_shared; [done|..|done].
    + intros i. apply gentle_rows, cancel_row_no_new.
    + intros i r Hr. cbn in Hr. destruct (cancel_row_dom true j user admin t (rows (shared w)) i) as [r0 Hr0]; [eauto|]. by eapply I4.
  - apply inv_shared; [done|intros; apply fail_orphans_gentle|..].
    + intros i r. unfold manager_fail_orphaned_jobs. destruct (_ || _); [apply I4|].
      destruct (fail_orphaned_jobs _ _ _) as [k rows'] eqn:E. cbn. intros Hr. unfold fail_orphaned_jobs in E.
      destruct (fail_active_dom (λ _, true) msg t (rows (shared w)) i) as [r0 Hr0]; [rewrite E; eauto|]. by eapply I4.
    + intros i x. unfold manager_fail_orphaned_jobs. repeat case_match; apply I5.
  - apply inv_shared; [done|intros; apply cleanup_gentle|..].
    + intros i r. unfold manager_cleanup_old_jobs. destruct ok; [|apply I4]. cbn. intros [Hr _]%map_lookup_filter_Some. by eapply I4.
    + intros i x. unfold manager_cleanup_old_jobs. destruct ok; apply I5.
  - apply inv_shared; [done|intros i; by split; eauto|apply I4|apply I5].
  - by apply inv_shutdown.
  - apply inv_start. intros j. rewrite elem_of_dom. intros [r Hr]. by eapply I4.
Qed.

Lemma inv_reachable cfg w : reachable cfg w → Inv w.
Proof.
  intros (ok & h & t & iss & t0 & Hd & _ & Hr). eapply (rtc_ind_r (λ x, Inv x)); [by apply inv_start| |done].
  intros x y _ Hs Hx. by eapply inv_step.
Qed.

(** ** What one step can do to a job *)

Lemma exec_cancelled cfg o t m j b' : jobs (exec cfg o t m).1 !! j = Some b' →
  ∃ b, jobs m !! j = Some b ∧ (cancelled (fields b) = true → cancelled (fields b') = true).
Proof.
  unfold exec. destruct (code t) as [|i k] eqn:Ec; [by eauto|].
  destruct i; cbn [fst]; unfold pop_active, from_option; repeat case_match; simplify_eq; cbn; intros Hb; try (by eauto);
    try (apply lookup_delete_Some in Hb as [_ ?]; by eauto);
    apply lookup_alter_Some in Hb as [(<- & b0 & Hb0 & ->)|[_ ?]]; try (by eauto); exists b0; (split; [done|]); repeat case_match; by job_simpl.
Qed.

Lemma no_new_trans j t1 t2 t3 : no_new_completed j t1 t2 → no_new_completed j t2 t3 → no_new_completed j t1 t3.
Proof. intros H1 H2 r Hr Hc. destruct (H2 r Hr Hc) as (r' & Hr' & Hc'). by eapply H1. Qed.

Lemma start_no_new cfg ok h now iss t j : no_new_completed j t (rows (shared (start cfg ok h now iss t))).
Proof.
  assert (∀ node x, no_new_completed j x (backend_sweep cfg node now x)) as Hs.
  { intros node x. destruct (backend_sweep_fail cfg node now x) as [->|[p ->]]; [intros ?; eauto|apply fail_active_no_new]. }
  assert (∀ x, no_new_completed j x (load_jobs cfg ok h now x).2) as Hl.
  { intros x. unfold load_jobs. destruct ok; [|intros ?; eauto]. cbn. eapply no_new_trans; [apply (Hs None)|].
    intros r Hr Hc. apply map_lookup_filter_Some in Hr as [Hr _]. eauto. }
  unfold start. destruct (load_jobs _ _ _ _ _) as [d t'] eqn:E. cbn. eapply no_new_trans; [|].
  2: { specialize (Hl (if has_tracker cfg then backend_sweep cfg (node_id cfg) now t else t)). by rewrite E in Hl. }
  destruct (has_tracker cfg); [apply Hs|intros ?; eauto].
Qed.

Lemma silent_start cfg ok h now w j : silent w j → silent (start cfg ok h now (issued w) (rows (shared w))) j.
Proof.
  intros [(Q1 & Q2 & Q3) _]. pose proof (start_no_new cfg ok h now (issued w) (rows (shared w)) j) as Hn. revert Hn.
  unfold start. destruct (load_jobs _ _ _ _ _) as [d t'] eqn:E. cbn. intros Hn. split; cbn; [|intros t Hin; by apply not_elem_of_nil in Hin].
  split_and!; cbn; [|intros r Hr|done].
  - intros b Hb. pose proof (load_jobs_active cfg ok h now (if has_tracker cfg then backend_sweep cfg (node_id cfg) now (rows (shared w))
      else rows (shared w)) j b) as H. rewrite E in H. destruct (H Hb) as (r & _ & -> & Ha). cbn. by destruct (status (cols r)).
  - apply not_true_iff_false. intros Hc. destruct (Hn r Hr Hc) as (r0 & Hr0 & Hc0). by rewrite (Q2 r0 Hr0) in Hc0.
Qed.

(** A step completes a run of [j], or it is harmless to [j]: it stays silent, it does
    not become live, and a restart apart its cancellation is not withdrawn. *)
Record harmless (j : string) (w w' : World) : Prop := {
  harm_silent : silent w j → silent w' j;
  harm_live : j ∈ live_jobs w' → j ∈ live_jobs w;
  harm_cancelled : live_jobs w' = [] ∨ ∀ b', jobs (shared w') !! j = Some b' →
    ∃ b, jobs (shared w) !! j = Some b ∧ (cancelled (fields b) = true → cancelled (fields b') = true) }.

Lemma harmless_gentle j w m new : gentle j (shared w) m →
  (∀ t, t ∈ new → live_code (code t) = false ∧ (t_job t = j → silent w j → quiet_code (code t))) →
  harmless j w (with_threads (threads w ++ new) (with_shared m w)).
Proof.
  intros Hg Hn. split.
  - intros Hs. apply silent_gentle; [done..|]. intros t Hin Ej. by apply Hn.
  - rewrite live_jobs_writers; [done|]. intros t Hin. by apply Hn.
  - right. cbn. apply (gentle_cancelled j _ _ Hg).
Qed.

Lemma harmless_shared j w m : gentle j (shared w) m → harmless j w (with_shared m w).
Proof.
  intros Hg. pose proof (harmless_gentle j w m [] Hg) as H. rewrite app_nil_r in H. destruct w. apply H.
  intros t Hin. by apply not_elem_of_nil in Hin.
Qed.

Lemma harmless_permute j w w' : shared w' = shared w → live_jobs w' ≡ₚ live_jobs w →
  (∀ t, t ∈ threads w' → t ∈ threads w ∨ quiet_code (code t)) → harmless j w w'.
Proof.
  intros Es El Ht. split; [| by rewrite El|right; rewrite Es; eauto].
  intros [Hq Hth]. split; [by rewrite Es|]. intros t Hin Ej. destruct (Ht t Hin); eauto.
Qed.

Lemma shutdown_harmless cfg now w j : harmless j w (shutdown cfg now w).
Proof.
  set (m := set_jobs (map_imap (λ j b, Some (shutdown_job w now j b))) (shared w)).
  set (new := (λ jb, writer jb.1 [Write (fields jb.2)]) <$> map_to_list (jobs m)).
  assert (harmless j w (with_threads (threads w ++ new) (with_shared m w))) as [A B C].
  { apply harmless_gentle; [apply shutdown_gentle|]. intros t ([i b] & -> & Hin%elem_of_map_to_list)%list_elem_of_fmap. cbn.
    split; [done|]. intros -> [Hq _]. apply (gentle_quiet j _ _ (shutdown_gentle w now j)) in Hq as [Q1 _].
    constructor; [|constructor]. by apply Q1. }
  assert (live_jobs (shutdown cfg now w) = live_jobs (with_threads (threads w ++ new) (with_shared m w))) as El.
  { unfold live_jobs. cbn. by rewrite !queued_sentinels. }
  split; [exact A|by rewrite El|rewrite El; exact C].
Qed.

Lemma finishing_em t m : finishing t m ∨ ¬ finishing t m.
Proof.
  unfold finishing. destruct (code t) as [|i k]; [right; by intros (? & ? & ? & ? & _)|].
  destruct i; try (right; intros (? & ? & ? & ? & _); done).
  destruct (jobs m !! t_job t) as [b|] eqn:Hb; [|right; intros (? & ? & ? & _ & ? & _); done].
  destruct (cancelled (fields b)) eqn:Hc; [|left; eauto 10]. right. intros (? & ? & b' & _ & ? & ?). congruence.
Qed.

Lemma step_effects cfg w w' j : step cfg w w' → Inv w → j ∈ issued w → j ∈ issued w' ∧
  ((∃ t, t ∈ threads w ∧ t_job t = j ∧ finishing t (shared w)) ∨ harmless j w w').
Proof.
  intros Hs HI Hj. destruct Hs.
  - pose proof (submit_submitted _ _ _ _ _ _ _ _ HI H H0) as HS. assert (j ≠ j0) as Hne by congruence.
    split; [rewrite (sub_issued _ _ _ HS); set_solver|]. right. split.
    + intros Hsil. eapply submitted_silent; [done..|]. by right.
    + intros [?|?]%(sub_live _ _ _ HS); done.
    + right. rewrite (sub_jobs _ _ _ HS) by done. eauto.
  - apply worker_effect in H as (Es & Ei & El & Ht). split; [by rewrite Ei|]. right. apply harmless_permute; [done..|].
    intros t Hin. destruct (Ht t Hin) as [?|(_ & _ & ?)]; eauto.
  - apply run_thread_split in H as (l & x & l' & Hw & ->). split; [done|].
    destruct (finishing_em x (shared w)) as [Hf|Hf]; [destruct (decide (t_job x = j)) as [Ej|Ej]|].
    + left. exists x. split_and!; [rewrite Hw; set_solver|done..].
    + right. split; [intros Hsil; apply thread_silent; [done..|tauto]| |right; intros b'; apply exec_cancelled].
      intros Hin. eapply sublist_elem_of; [done|]. by apply thread_live_sublist.
    + right. split; [intros Hsil; apply thread_silent; [done..|tauto]| |right; intros b'; apply exec_cancelled].
      intros Hin. eapply sublist_elem_of; [done|]. by apply thread_live_sublist.
  - unfold cancel_job. destruct (jobs (shared w) !! j0) as [b|] eqn:Hb.
    + unfold cancel_local. do 2 (destruct (negb _); [split; [done|right; by apply harmless_permute; [..|left]]|]). cbn [snd].
      split; [done|]. right. apply harmless_gentle; [apply gentle_alter; mild_tac|].
      intros x ->%list_elem_of_singleton. cbn. split; [done|]. intros _ _. by repeat constructor.
    + destruct (cancel_absent _ _ _ _ _ _ _) as [rep m] eqn:E. cbn [snd]. split; [done|]. right. apply harmless_shared.
      pose proof (cancel_absent_gentle cfg ok j0 user admin t (shared w) j) as H. by rewrite E in H.
  - split; [done|]. right. apply harmless_shared, gentle_rows, cancel_row_no_new.
  - split; [done|]. right. apply harmless_shared, fail_orphans_gentle.
  - split; [done|]. right. apply harmless_shared, cleanup_gentle.
  - split; [done|]. right. apply harmless_shared. by split; eauto.
  - split; [done|]. right. apply shutdown_harmless.
  - split; [unfold start; by destruct (load_jobs _ _ _ _ _)|]. right.
    assert (live_jobs (start cfg ok h t (issued w) (rows (shared w))) = []) as El by (unfold start; by destruct (load_jobs _ _ _ _ _)).
    split; [apply silent_start|rewrite El; intros Hin; by apply not_elem_of_nil in Hin|by left].
Qed.

(** ** Cancellation *)

(** The job did not complete and cannot complete any more. *)
Definition given_up (j : string) (w : World) : Prop :=
  Inv w ∧ silent w j ∧ j ∈ issued w ∧ ((∀ b, jobs (shared w) !! j = Some b → cancelled (fields b) = true) ∨ j ∉ live_jobs w).

Lemma given_up_step cfg w w' j : step cfg w w' → given_up j w → given_up j w'.
Proof.
  intros Hs (HI & Hsil & Hj & Hc). destruct (step_effects cfg w w' j Hs HI Hj) as [Hj' Hcase].
  split; [by eapply inv_step|]. destruct Hcase as [(t & Hin & Ej & r & k & b & Hk & Hb & Hnc)|[A B C]].
  - exfalso. rewrite Ej in Hb. destruct Hc as [Hc|Hc]; [by rewrite (Hc b Hb) in Hnc|]. apply Hc.
    unfold live_jobs. rewrite !elem_of_app. right. right. apply live_threads_elem. exists t. by rewrite Hk.
  - split_and!; [by apply A|done|]. destruct C as [->|C]; [right; apply not_elem_of_nil|].
    destruct Hc as [Hc|Hc]; [left|right; tauto]. intros b' Hb'. destruct (C b' Hb') as (b & Hb & Hcc). eauto.
Qed.

Lemma cancel_given_up cfg ok j user admin now w w' b : Inv w → jobs (shared w) !! j = Some b →
  cancel_job cfg ok j user admin now w = (CancelOk, w') → given_up j w'.
Proof.
  intros HI Hb H. pose proof (inv_step cfg _ _ (step_cancel cfg ok j user admin now w) HI) as HI'. rewrite H in HI'. cbn in HI'.
  unfold cancel_job in H. rewrite Hb in H. unfold cancel_local in H. destruct (negb (may_see _ _ _)); [done|].
  destruct (active (status (fields b))) eqn:Ea; cbn in H; [|done]. injection H as <-.
  pose proof (inv_issued _ HI) as (_ & _ & I3 & _).
  assert (terminal (status (fields b)) = false) as Ht by (by destruct (status (fields b))).
  split_and!.
  - exact HI'.
  - apply silent_gentle; [by eapply (inv_open _ HI)|apply gentle_alter; mild_tac|].
    intros t ->%list_elem_of_singleton _. by repeat constructor.
  - by eapply I3.
  - left. cbn. intros b'. rewrite lookup_alter_eq, Hb. intros [= <-]. destruct (status (fields b)); by job_simpl.
Qed.


(** ** Settling *)

(** A job that is not settled waits in a queue or has a worker that will settle it. *)
Definition attended (w : World) : Prop :=
  ∀ j b, jobs (shared w) !! j = Some b → terminal (status (fields b)) = false → j ∈ live_jobs w.

Lemma thread_live cfg o w l t l' i : threads w = l ++ t :: l' → i ∈ live_jobs w →
  i ∈ live_jobs (with_shared (exec cfg o t (shared w)).1 (with_threads (l ++ (match code (exec cfg o t (shared w)).2 with
     [] => [] | _ => [(exec cfg o t (shared w)).2] end) ++ l') w))
  ∨ (t_job t = i ∧ live_code (code t) = true ∧ live_code (code (exec cfg o t (shared w)).2) = false).
Proof.
  intros Hw. unfold live_jobs. cbn. rewrite Hw. rewrite !elem_of_app, !live_threads_elem.
  intros [?|[?|(x & Hin & Ej & Hl)]]; [by left; left|by left; right; left|]. apply elem_of_app in Hin as [Hin|[->|Hin]%elem_of_cons].
  - left. right. right. exists x. set_solver.
  - destruct (live_code (code (exec cfg o t (shared w)).2)) eqn:El; [|by right]. left. right. right.
    exists (exec cfg o t (shared w)).2. destruct (exec_job cfg o t (shared w)) as [-> _]. split_and!; [|done..].
    destruct (code (exec cfg o t (shared w)).2); [done|]. set_solver.
  - left. right. right. exists x. set_solver.
Qed.

Lemma attended_thread cfg o i w w' : run_thread cfg o i w = Some w' → Inv w → attended w → attended w'.
Proof.
  intros (l & t & l' & Hw & ->)%run_thread_split HI Ha j b Hb Ht. cbn in Hb.
  assert (t ∈ threads w) as Hin by (rewrite Hw; set_solver).
  assert (j ∈ live_jobs w) as Hl.
  { destruct (decide (t_job t = j ∧ ∃ k, code t = SetRunning :: k)) as [[<- [k Hk]]|Hn].
    - unfold live_jobs. rewrite !elem_of_app. right. right. apply live_threads_elem. exists t. split_and!; [done..|].
      apply (inv_ordered _ HI t Hin). by rewrite Hk.
    - destruct (exec_open cfg o t (shared w) j b Hn Hb Ht) as (b0 & Hb0 & Ht0). by eapply Ha. }
  destruct (thread_live cfg o w l t l' j Hw Hl) as [?|(<- & H1 & H2)]; [done|].
  by rewrite (exec_settles cfg o t (shared w) b H1 H2 Hb) in Ht.
Qed.

Lemma attended_gentle w m new : attended w → (∀ j, gentle j (shared w) m) → (∀ t, t ∈ new → live_code (code t) = false) →
  attended (with_threads (threads w ++ new) (with_shared m w)).
Proof.
  intros Ha Hg Hn j b Hb Ht. rewrite live_jobs_writers by done. destruct (gentle_settled j _ _ (Hg j) b Hb Ht) as (b0 & Hb0 & Ht0).
  by eapply Ha.
Qed.

Lemma attended_shared w m : attended w → (∀ j, gentle j (shared w) m) → attended (with_shared m w).
Proof.
  intros Ha Hg. pose proof (attended_gentle w m [] Ha Hg) as H. rewrite app_nil_r in H. destruct w. apply H.
  intros t Hin. by apply not_elem_of_nil in Hin.
Qed.

(** Over SQLite nothing is active after the sweep, so nothing is loaded. *)
Lemma load_nothing cfg ok h now t : postgres cfg = false → (load_jobs cfg ok h now t).1 = ∅.
Proof.
  intros Hp. apply map_eq. intros j. rewrite lookup_empty. apply eq_None_not_Some. intros [b Hb].
  destruct (load_jobs_active cfg ok h now t j b Hb) as (r & Hr & _ & Ha). revert Hr. unfold load_jobs, backend_sweep. rewrite Hp.
  destruct ok; [|done]. cbn. intros [Hr _]%map_lookup_filter_Some.
  rewrite lookup_fmap in Hr. apply fmap_Some in Hr as (r0 & Hr0 & ->).
  destruct (active (status (cols r0)) && true) eqn:E; [by job_simpl|]. rewrite andb_true_r in E. congruence.
Qed.

Lemma attended_step cfg w w' : postgres cfg = false → step cfg w w' → Inv w → attended w → attended w'.
Proof.
  intros Hp Hs HI Ha. destruct Hs.
  - pose proof (submit_submitted _ _ _ _ _ _ _ _ HI H H0) as HS. intros i b Hb Ht.
    destruct (decide (i = j)) as [->|Hne]; [by eapply (sub_job _ _ _ HS)|]. rewrite (sub_jobs _ _ _ HS) in Hb by done.
    apply (sub_keep _ _ _ HS). by eapply Ha.
  - apply worker_effect in H as (Es & _ & El & _). intros i b. rewrite Es, El. apply Ha.
  - by eapply attended_thread.
  - unfold cancel_job. destruct (jobs (shared w) !! j) as [b|] eqn:Hb.
    + unfold cancel_local. do 2 (destruct (negb _); [done|]). cbn [snd]. apply attended_gentle; [done| |].
      * intros i. apply gentle_alter. mild_tac.
      * by intros x ->%list_elem_of_singleton.
    + destruct (cancel_absent _ _ _ _ _ _ _) as [rep m] eqn:E. cbn [snd]. apply attended_shared; [done|].
      intros i. pose proof (cancel_absent_gentle cfg ok j user admin t (shared w) i) as H. by rewrite E in H.
  - apply attended_shared; [done|]. intros i. apply gentle_rows, cancel_row_no_new.
  - apply attended_shared; [done|]. intros i. apply fail_orphans_gentle.
  - apply attended_shared; [done|]. intros i. apply cleanup_gentle.
  - apply attended_shared; [done|]. intros i. by split; eauto.
  - intros i b Hb Ht. destruct (gentle_settled i _ _ (shutdown_gentle w t i) b Hb Ht) as (b0 & Hb0 & Ht0).
    specialize (Ha i b0 Hb0 Ht0). revert Ha. unfold live_jobs. cbn. rewrite !queued_sentinels, live_threads_app, !elem_of_app. tauto.
  - intros i b. unfold start. destruct (load_jobs _ _ _ _ _) as [d t'] eqn:E. cbn.
    pose proof (load_nothing cfg ok h t (if has_tracker cfg then backend_sweep cfg (node_id cfg) t (rows (shared w)) else rows (shared w)) Hp) as Hn.
    rewrite E in Hn. cbn in Hn. by rewrite Hn.
Qed.

(** C30: With the SQLite backend no job is stranded: in every reachable state a job that
    the manager still shows as pending or running is waiting in one of the two queues or
    has a worker that will settle it. *)
Theorem no_stranded_job cfg w j b : postgres cfg = false → reachable cfg w → jobs (shared w) !! j = Some b →
  terminal (status (fields b)) = false → j ∈ live_jobs w.
Proof.
  intros Hp (ok & h & t & iss & t0 & Hd & _ & Hr). revert j b. change (attended w).
  eapply (rtc_ind_r (λ x, Inv x ∧ attended x)) in Hr as [_ ?]; [done| |].
  - split; [by apply inv_start|]. intros i b. unfold start. destruct (load_jobs _ _ _ _ _) as [d t'] eqn:E. cbn.
    pose proof (load_nothing cfg ok h t (if has_tracker cfg then backend_sweep cfg (node_id cfg) t t0 else t0) Hp) as Hn.
    rewrite E in Hn. cbn in Hn. by rewrite Hn.
  - intros x y _ Hs [HI Ha]. split; [by eapply inv_step|by eapply attended_step].
Qed.

(** ** The worker's end *)

(** The function has returned or raised. *)
Definition ends (e : event) : bool := match e with Returned _ | RaisedInterrupted _ | Raised _ => true | _ => false end.

(** A bound on the instructions that a thread still executes once the function ends. *)
Definition cost (i : instr) : nat :=
  match i with
  | SetRunning | Write _ | Upsert _ | Progress _ _ _ | CheckDb | Evict => 1
  | Snapshot | TrackRunning | Finalize _ => 2
  | Notify _ => 3
  | CheckQueued | CheckStart => 6
  | Finish _ | Interrupted _ | Crashed _ => 7
  | Run => 8
  end%nat.

Definition total (k : list instr) : nat := sum_list (cost <$> k).

Fixpoint run_alone (cfg : Config) (os : list oracle) (t : Thread) (m : Shared) : Shared * Thread :=
  match os with
  | [] => (m, t)
  | o :: os' => let '(m', t') := exec cfg o t m in run_alone cfg os' t' m'
  end.

Lemma total_notify cfg e : (total (notify cfg e) ≤ 3)%nat.
Proof. unfold notify, total. destruct (has_tracker cfg); cbn; lia. Qed.

Lemma total_ending cfg e : (total (ending_code cfg e) ≤ 6)%nat.
Proof. unfold ending_code, notify, total. destruct (has_tracker cfg); cbn; lia. Qed.

Lemma exec_total cfg o t m : ends (ev o) = true → code t ≠ [] → (total (code (exec cfg o t m).2) < total (code t))%nat.
Proof.
  intros He Hne. unfold exec. destruct (code t) as [|i k] eqn:Ec; [done|]. pose proof (total_notify cfg Cancel) as Hn.
  pose proof (λ e, total_ending cfg e) as Hend. unfold total in *.
  destruct i; unfold pop_active; try (destruct (ev o); try done); repeat case_match; simplify_eq; cbn in *;
    try lia; match goal with |- context [notify cfg ?e ++ [Evict]] => specialize (Hend e) end; lia.
Qed.

Lemma run_alone_ends cfg os t m : Forall (λ o, ends (ev o) = true) os → (total (code t) ≤ length os)%nat →
  code (run_alone cfg os t m).2 = [].
Proof.
  revert t m. induction os as [|o os IH]; intros t m Ho Hl; cbn in *.
  - unfold total in Hl. destruct (code t) as [|i k]; [done|]. exfalso. destruct i; cbn in Hl; lia.
  - apply Forall_cons in Ho as [Ho Hos]. destruct (exec cfg o t m) as [m' t'] eqn:E. apply IH; [done|].
    pose proof (exec_total cfg o t m Ho) as Ht. rewrite E in Ht. cbn in Ht.
    destruct (code t) as [|i k] eqn:Ec; [|specialize (Ht ltac:(done)); lia].
    unfold exec in E. rewrite Ec in E. simplify_eq. rewrite Ec. cbn. lia.
Qed.

(** A dead thread stays gentle towards a settled job. *)
Lemma run_alone_settled cfg os t m : ordered (code t) →
  (live_code (code t) = false → ∀ b, jobs m !! t_job t = Some b → terminal (status (fields b)) = true) →
  live_code (code (run_alone cfg os t m).2) = false →
  ∀ b, jobs (run_alone cfg os t m).1 !! t_job t = Some b → terminal (status (fields b)) = true.
Proof.
  revert t m. induction os as [|o os IH]; intros t m Hord Hset; cbn; [done|].
  destruct (exec cfg o t m) as [m' t'] eqn:E. destruct (exec_job cfg o t m) as [Ej _]. rewrite E in Ej. cbn in Ej.
  rewrite <- Ej. apply IH.
  - pose proof (exec_ordered cfg o t m Hord) as H. by rewrite E in H.
  - intros Hl b Hb. rewrite Ej in Hb. destruct (live_code (code t)) eqn:El.
    + apply (exec_settles cfg o t m b El); by rewrite E.
    + apply not_false_iff_true. intros Ht. destruct (exec_open cfg o t m (t_job t) b) as (b0 & Hb0 & Ht0); [|by rewrite E|done|].
      * intros [_ [k Hk]]. rewrite Hk in Hord, El. specialize (Hord eq_refl). congruence.
      * rewrite (Hset eq_refl b0 Hb0) in Ht0. done.
Qed.

(** C31: A worker whose job function has ended finishes within forty instructions whatever
    the database does, and leaves the job in a terminal status or out of the dictionary:
    no failed write, tracker error or missing entry keeps it running. *)
Theorem worker_finishes cfg os j l takes m : (40 ≤ length os)%nat → Forall (λ o, ends (ev o) = true) os →
  let '(m', t') := run_alone cfg os (mkThread j (Some l) takes false (execute_job cfg takes)) m in
  code t' = [] ∧ ∀ b, jobs m' !! j = Some b → terminal (status (fields b)) = true.
Proof.
  intros Hl Ho. set (t := mkThread j (Some l) takes false (execute_job cfg takes)).
  assert (code (run_alone cfg os t m).2 = []) as Hc.
  { apply run_alone_ends; [done|]. unfold t, execute_job, total. destruct (has_tracker cfg), takes; cbn; lia. }
  pose proof (run_alone_settled cfg os t m) as Hs. destruct (run_alone cfg os t m) as [m' t']. cbn in *. split; [done|].
  apply Hs; [intros _; apply live_execute| |by rewrite Hc]. rewrite live_execute. done.
Qed.

(** ** The table *)

(** One guarded statement, or none. *)
Definition at_most_one (t t' : gmap string Row) : Prop := t' = t ∨ statement t t'.

Lemma at_most_one_refl t : at_most_one t t.
Proof. by left. Qed.

#[local] Hint Resolve at_most_one_refl : core.

Lemma at_most_one_rtc t t' : at_most_one t t' → rtc statement t t'.
Proof. intros [->|?]; [done|by apply rtc_once]. Qed.

Lemma keeps_refl t : keeps_terminal t t.
Proof. intros j r r' ? ? ?. by simplify_eq. Qed.

Lemma at_most_one_keeps t t' : at_most_one t t' → keeps_terminal t t'.
Proof. intros [->|?]; [apply keeps_refl|by apply statement_keeps_terminal]. Qed.

Lemma persist_statements ok j s t : at_most_one t (persist_job_to_sqlite ok j s t).2.
Proof.
  unfold persist_job_to_sqlite. destruct ok; cbn [negb]; [|done]. destruct (get_job j t); [|right; apply st_save].
  destruct (update_job true (persist_columns s) j t) eqn:E; cbn [snd]; [|done].
  right; eapply st_update; [apply one_status_persist|by left|done].
Qed.

Lemma exec_statements cfg o t m : at_most_one (rows m) (rows (exec cfg o t m).1).
Proof.
  unfold exec. destruct (code t) as [|[] k]; cbn [fst]; unfold pop_active, update_status; try (repeat case_match; simplify_eq; done).
  - destruct (persist_job_to_sqlite _ _ _ _) as [ok rows'] eqn:E. cbn.
    pose proof (persist_statements (db_ok o) (t_job t) s (rows m)) as H. by rewrite E in H.
  - destruct (db_ok o); [|done]. destruct (upsert_job _ _ _) eqn:E; [|done]. cbn. right; by eapply upsert_statement.
Qed.

Lemma end_job_statements j e now act t t' : (end_job j e now act t).2 = Ok t' → at_most_one t t'.
Proof.
  unfold end_job, pop_active. cbn. case_match; intros He; simplify_eq; [|done]. right; by eapply upsert_statement.
Qed.

Lemma cancel_row_statements ok j user admin now t : at_most_one t (cancel_row ok j user admin now t).2.
Proof.
  unfold cancel_row. destruct (negb ok); [done|]. destruct (get_job j t); [|done]. do 2 (destruct (negb _); [done|]).
  destruct (update_job _ _ _ _) eqn:E; cbn [snd]; [|done]. right; eapply st_update; [apply one_status_cancel|by right|done].
Qed.

Lemma cancel_absent_statements cfg ok j user admin now m : at_most_one (rows m) (rows (cancel_absent cfg ok j user admin now m).2).
Proof.
  unfold cancel_absent. destruct (local_xray_job cfg j m) as [x|].
  - destruct (negb _); [done|]. destruct (end_job _ _ _ _ _) as [act [t'|]] eqn:E; cbn [snd rows]; [|done].
    eapply end_job_statements. by rewrite E.
  - destruct (cancel_row _ _ _ _ _ _) as [r t'] eqn:E. cbn.
    pose proof (cancel_row_statements ok j user admin now (rows m)) as H. by rewrite E in H.
Qed.

Lemma submit_statements cfg maint o now j s w w' : submit_job cfg maint o now j s w = Ok w' →
  rtc statement (rows (shared w)) (rows (shared w')).
Proof.
  unfold submit_job. destruct (lane_of (s_lane s)) as [l|]; [|done]. destruct maint; [done|].
  intros (m & Hm & H)%result_bind_Ok. assert (rows (shared w') = rows m) as ->.
  { destruct (is_pod_pull_eligible cfg s); simplify_eq; [done|by destruct l]. }
  assert (∀ alias, submit_claim cfg o now j alias s (shared w) = Ok m → rtc statement (rows (shared w)) (rows m)) as Hclaim.
  { intros alias. unfold submit_claim, register_job_if_no_conflict. destruct (negb (register_ok o)); [done|].
    do 4 (destruct (is_blank _); [done|]). destruct (atomic_insert_or_raise _ _ _ _ _ _) as [rw|[]] eqn:E; cbn; intros [= <-].
    eapply rtc_once, insert_attempts_statement, E. }
  assert (submit_local cfg o now j s (new_job s l now) (shared w) = Ok m → rtc statement (rows (shared w)) (rows m)) as Hlocal.
  { unfold submit_local. intros (c & _ & Hc)%result_bind_Ok. destruct c; [done|].
    pose proof (at_most_one_rtc _ _ (persist_statements (persist_ok o) j (fields (new_job s l now)) (rows (shared w)))) as Hp.
    destruct (persist_job_to_sqlite _ _ _ _) as [ok rows1]. destruct (_ && _); simplify_eq; [|done].
    unfold register_job in Hc. simplify_eq. cbn in *. etrans; [done|]. apply rtc_once, st_save. }
  destruct (given (s_alias s)), (has_tracker cfg); eauto.
Qed.

Lemma sweep_statements cfg node now t : rtc statement t (backend_sweep cfg node now t).
Proof. destruct (backend_sweep_fail cfg node now t) as [->|[p ->]]; [done|]. apply rtc_once, st_fail. Qed.

Lemma start_statements cfg ok h now iss t : rtc statement t (rows (shared (start cfg ok h now iss t))).
Proof.
  assert (∀ x, rtc statement x (load_jobs cfg ok h now x).2) as Hl.
  { intros x. unfold load_jobs. destruct ok; [|done]. cbn. etrans; [apply (sweep_statements cfg None now)|].
    apply rtc_once. apply (st_purge h now). }
  unfold start. destruct (load_jobs _ _ _ _ _) as [d t'] eqn:E. cbn.
  etrans; [|specialize (Hl (if has_tracker cfg then backend_sweep cfg (node_id cfg) now t else t)); rewrite E in Hl; exact Hl].
  destruct (has_tracker cfg); [apply sweep_statements|done].
Qed.

Lemma fail_orphans_statements cfg ok msg now m : at_most_one (rows m) (rows (manager_fail_orphaned_jobs cfg ok msg now m).2).
Proof. unfold manager_fail_orphaned_jobs. destruct (_ || _); [by left|]. right. apply (st_fail (λ _, true)). Qed.

Lemma cleanup_statements ok h now m : at_most_one (rows m) (rows (manager_cleanup_old_jobs ok h now m).2).
Proof. unfold manager_cleanup_old_jobs. destruct ok; [|by left]. cbn. right. apply (st_purge h now). Qed.

Lemma cancel_statements cfg ok j user admin now w :
  at_most_one (rows (shared w)) (rows (shared (cancel_job cfg ok j user admin now w).2)).
Proof.
  unfold cancel_job. destruct (jobs (shared w) !! j) as [b|].
  - unfold cancel_local. do 2 (destruct (negb _); [by left|]). by left.
  - pose proof (cancel_absent_statements cfg ok j user admin now (shared w)) as H. by destruct (cancel_absent _ _ _ _ _ _ _).
Qed.

(** A step is a submission, a restart, or one statement at most. *)
Lemma step_statement cfg w w' : step cfg w w' →
  (∃ maint o t j s, j ∉ issued w ∧ submit_job cfg maint o t j s w = Ok w') ∨
  (∃ ok h t, w' = start cfg ok h t (issued w) (rows (shared w))) ∨
  at_most_one (rows (shared w)) (rows (shared w')).
Proof.
  intros Hs. destruct Hs; [left; by eauto 10| | | | | | | | |right; left; by eauto]; right; right.
  - apply worker_effect in H as (-> & _). by left.
  - apply run_thread_split in H as (l & x & l' & Hw & ->). apply exec_statements.
  - apply cancel_statements.
  - apply cancel_row_statements.
  - apply fail_orphans_statements.
  - apply cleanup_statements.
  - by left.
  - by left.
Qed.

Lemma step_statements cfg w w' : step cfg w w' → rtc statement (rows (shared w)) (rows (shared w')).
Proof.
  intros [(maint & o & t & j & s & _ & H)|[(ok & h & t & ->)|H]]%step_statement.
  - by eapply submit_statements.
  - apply start_statements.
  - by apply at_most_one_rtc.
Qed.

(** A sweep or a purge of a table whose rows are otherwise untouched. *)
Lemma start_keeps cfg ok h now iss t : keeps_terminal t (rows (shared (start cfg ok h now iss t))).
Proof.
  set (R := λ x y : gmap string Row, ∀ j r', y !! j = Some r' → ∃ r, x !! j = Some r ∧
    (terminal (status (cols r)) = true → terminal (status (cols r')) = true)).
  assert (∀ x y z, R x y → R y z → R x z) as Htr.
  { intros x y z H1 H2 j r' Hr'. destruct (H2 j r' Hr') as (r & Hr & ?). destruct (H1 j r Hr) as (r0 & ? & ?). eauto. }
  assert (∀ node x, R x (backend_sweep cfg node now x)) as Hs.
  { intros node x. destruct (backend_sweep_fail cfg node now x) as [->|[p ->]]; [intros j r' Hr'; eauto|].
    intros j r' Hr'. rewrite fail_active_row in Hr'. apply fmap_Some in Hr' as (r & Hr & ->). exists r. split; [done|].
    intros Ht. by rewrite (terminal_active _ Ht). }
  assert (∀ x, R x (load_jobs cfg ok h now x).2) as Hl.
  { intros x. unfold load_jobs. destruct ok; [|intros j r' Hr'; eauto]. cbn. eapply Htr; [apply (Hs None)|].
    intros j r' Hr'. apply map_lookup_filter_Some in Hr' as [Hr' _]. eauto. }
  assert (R t (rows (shared (start cfg ok h now iss t)))) as H.
  { unfold start. destruct (load_jobs _ _ _ _ _) as [d t'] eqn:E. cbn.
    eapply (Htr _ (if has_tracker cfg then backend_sweep cfg (node_id cfg) now t else t)).
    - destruct (has_tracker cfg); [apply Hs|intros j r' Hr'; eauto].
    - specialize (Hl (if has_tracker cfg then backend_sweep cfg (node_id cfg) now t else t)). by rewrite E in Hl. }
  intros j r r' Hr Hr' Ht. destruct (H j r' Hr') as (r0 & Hr0 & Hk). simplify_eq. eauto.
Qed.

Lemma step_keeps cfg w w' : Inv w → step cfg w w' → keeps_terminal (rows (shared w)) (rows (shared w')).
Proof.
  intros HI [(maint & o & t & j & s & Hj & H)|[(ok & h & t & ->)|H]]%step_statement.
  - pose proof (submit_submitted _ _ _ _ _ _ _ _ HI Hj H) as HS. pose proof (inv_issued _ HI) as (_ & _ & _ & I4 & _).
    intros i r r' Hr Hr' Ht. rewrite (sub_rows _ _ _ HS) in Hr' by (intros ->; by apply Hj, (I4 _ r)). by simplify_eq.
  - apply start_keeps.
  - by apply at_most_one_keeps.
Qed.

(** Once the row of a job is terminal no step of any thread and no request, sweep or
    restart makes it pending or running again, in any interleaving, for as long as a
    clean-up has not deleted it: the stale snapshots that threads still hold cannot
    revive it. *)
Theorem terminal_row_stays cfg w w' j r : reachable cfg w → rows (shared w) !! j = Some r →
  terminal (status (cols r)) = true → rtc (λ x y, step cfg x y ∧ is_Some (rows (shared y) !! j)) w w' →
  ∃ r', rows (shared w') !! j = Some r' ∧ terminal (status (cols r')) = true.
Proof.
  intros Hr%inv_reachable Hj Ht Hs. revert r Hj Ht. induction Hs as [|x y z [Hxy [ry Hy]] _ IH]; intros r Hj Ht; [eauto|].
  eapply (IH (inv_step _ _ _ Hxy Hr) ry Hy). by eapply (step_keeps cfg x y).
Qed.

(** In every reachable state the table holds at most one pending or running row for
    an operation and a repository, over all nodes whose rows it contains. *)
Theorem one_active_row cfg w : reachable cfg w → unique_active (rows (shared w)).
Proof.
  intros (ok & h & t & iss & t0 & _ & Hu & Hr).
  assert (∀ x y, rtc statement x y → unique_active x → unique_active y) as Hrtc.
  { intros x y H. induction H; [done|]. intros Hx. by eapply IHrtc, statement_unique. }
  eapply (rtc_ind_r (λ x, unique_active (rows (shared x)))); [| |done].
  - eapply Hrtc; [apply start_statements|done].
  - intros x y _ Hs Hx. by eapply Hrtc; [apply (step_statements cfg)|].
Qed.

(** ** What is reported after the end *)

Definition row_terminal (j : string) (t : gmap string Row) : Prop := ∃ r, t !! j = Some r ∧ terminal (status (cols r)) = true.

Lemma persist_terminal j s t t' : terminal (status s) = true → persist_job_to_sqlite true j s t = (true, t') → row_terminal j t'.
Proof.
  intros Hs. unfold persist_job_to_sqlite, get_job. cbn [negb]. destruct (t !! j) as [r|] eqn:Hj.
  - destruct (update_job true (persist_columns s) j t) as [t1|] eqn:E; [|done]. intros [= <-].
    assert (is_Some (t1 !! j)) as [r' Hr'].
    { unfold update_job in E. cbn in E. rewrite Hj in E. repeat case_match; simplify_eq; [eauto|]. rewrite lookup_insert_eq. eauto. }
    destruct (update_job_status _ _ _ _ _ _ _ (one_status_persist s) E Hr') as (r0 & Hr0 & [->|(_ & _ & Hst)]).
    + simplify_eq. unfold update_job in E. cbn in E. rewrite Hj, Hs in E. cbn in E. destruct (violates _ _ _); simplify_eq.
      rewrite lookup_insert_eq in Hr'. simplify_eq. eexists. rewrite lookup_insert_eq. split; [done|]. rewrite <- Hr'. by job_simpl.
    + exists r'. split; [done|]. by rewrite Hst.
  - intros [= <-]. exists (new_row s None None None). split; [|cbn; by rewrite status_set_attr]. unfold save_job. rewrite Hj.
    rewrite bool_decide_eq_false_2 by (by intros [? ?]). cbn.
    assert (index_key (new_row s None None None) = None) as Hk.
    { unfold index_key. cbn. rewrite status_set_attr. by rewrite (terminal_active _ Hs). }
    unfold violates. rewrite Hk. cbn. by rewrite lookup_insert_eq.
Qed.

(** The instructions after the terminal write. *)
Definition closing (i : instr) : bool := match i with Notify _ | Finalize _ | Upsert _ | Evict => true | _ => false end.

(** The dictionary, or else the row, says that the job has ended; a job that will be
    evicted has such a row. *)
Definition closed (t : Thread) (m : Shared) : Prop :=
  match jobs m !! t_job t with
  | Some b => terminal (status (fields b)) = true ∧ (persisted t = true → row_terminal (t_job t) (rows m))
  | None => row_terminal (t_job t) (rows m)
  end.

Lemma row_terminal_upsert j i x t t' : upsert_job i x t = Ok t' → row_terminal j t → row_terminal j t'.
Proof.
  intros H (r & Hr & Ht). assert (is_Some (t' !! j)) as [r' Hr'].
  { unfold upsert_job, update_job in H. repeat case_match; simplify_eq; eauto. destruct (decide (i = j)) as [->|Hne].
    - rewrite lookup_insert_eq. eauto.
    - rewrite lookup_insert_ne by done. eauto. }
  exists r'. split; [done|]. by eapply (statement_keeps_terminal t t'); [eapply upsert_statement| | |].
Qed.

Lemma exec_closed cfg o t m : forallb closing (code t) = true → closed t m →
  forallb closing (code (exec cfg o t m).2) = true ∧ closed (exec cfg o t m).2 (exec cfg o t m).1.
Proof.
  intros Hc Hcl. unfold exec. destruct (code t) as [|i k] eqn:Ec; [cbn; by rewrite Ec|]. cbn in Hc.
  apply andb_true_iff in Hc as [Hi Hk]. destruct i; try done.
  - cbn. split; [done|]. destruct (db_ok o); [|done]. destruct (upsert_job _ _ _) eqn:E; [|done].
    unfold closed in *. cbn. destruct (jobs m !! t_job t) as [b|]; [destruct Hcl as [? Hp]; split; [done|intros Hps; specialize (Hp Hps)]|];
      by eapply row_terminal_upsert.
  - unfold pop_active. destruct (tracked m !! t_job t); by split.
  - cbn. split; [|done]. by repeat case_match.
  - cbn. split; [done|]. unfold closed in *. destruct (persisted t) eqn:Ep; cbn; [|by destruct (jobs m !! t_job t); rewrite ?Ep in *].
    rewrite lookup_delete_eq. destruct (jobs m !! t_job t); [|done]. destruct Hcl as [_ Hp]. by apply Hp.
Qed.

Lemma run_alone_closed cfg os t m : forallb closing (code t) = true → closed t m →
  closed (run_alone cfg os t m).2 (run_alone cfg os t m).1.
Proof.
  revert t m. induction os as [|o os IH]; intros t m Hc Hcl; cbn; [done|].
  destruct (exec_closed cfg o t m Hc Hcl) as [H1 H2]. destruct (exec cfg o t m) as [m' t']. by apply IH.
Qed.

Lemma run_alone_job cfg os t m : t_job (run_alone cfg os t m).2 = t_job t.
Proof.
  revert t m. induction os as [|o os IH]; intros t m; cbn; [done|]. destruct (exec_job cfg o t m) as [Ej _].
  destruct (exec cfg o t m) as [m' t']. by rewrite IH, <- Ej.
Qed.

Lemma closing_ending cfg e : forallb closing (notify cfg e ++ [Evict]) = true.
Proof. unfold notify. by destruct (has_tracker cfg). Qed.

(** However a run ends, and whichever of the writes that follow fail, a worker that
    is not disturbed leaves a job whose status request answers with a terminal status: it
    is evicted from the dictionary only after its terminal row was written, and kept
    there otherwise. *)
Theorem end_is_reported cfg o1 o2 o3 os t m i b : code t = [i] → settles i = true → i ≠ Run →
  jobs m !! t_job t = Some b →
  ∃ x, get_job_status true (t_job t) "" true (run_alone cfg (o1 :: o2 :: o3 :: os) t m).1 = Some x
       ∧ terminal (status x) = true.
Proof.
  intros Hc Hi Hne Hb.
  assert (∃ e b' m1, terminal (status (fields b')) = true ∧ jobs m1 !! t_job t = Some b' ∧ exec cfg o1 t m = (m1, goto (ending_code cfg e) t))
    as (e & b' & m1 & Hbt & Hb' & E1).
  { unfold exec. rewrite Hc. destruct i; try done; rewrite Hb; repeat case_match;
      (eexists _, _, _; split; [|split; [|reflexivity]]; [|by cbn; rewrite lookup_alter_eq, Hb]);
      job_simpl; try done; apply result_status_terminal. }
  cbn [run_alone]. rewrite E1. unfold exec at 1. cbn [code goto ending_code t_job]. rewrite Hb'. unfold exec at 1. cbn [code goto t_job].
  destruct (persist_job_to_sqlite (db_ok o3) (t_job t) (fields b') (rows m1)) as [ok rows'] eqn:Ep.
  set (t3 := set_persisted ok (notify cfg e ++ [Evict]) _). set (m3 := set_rows rows' m1).
  assert (closed t3 m3) as Hcl.
  { unfold closed. subst t3 m3. cbn. rewrite Hb'. split; [done|]. intros ->. destruct (db_ok o3); [|by cbn in Ep; simplify_eq].
    by eapply persist_terminal. }
  assert (forallb closing (code t3) = true) as Hk by (subst t3; cbn; apply closing_ending).
  pose proof (run_alone_closed cfg os t3 m3 Hk Hcl) as H. pose proof (run_alone_job cfg os t3 m3) as Ej.
  destruct (run_alone cfg os t3 m3) as [m4 t4]. cbn in *. unfold closed in H. rewrite Ej in H. change (t_job t3) with (t_job t) in H.
  unfold get_job_status, get_job. destruct (jobs m4 !! t_job t) as [b4|]; [destruct H; eauto|].
  destruct H as (r & -> & Hr). cbn. eauto.
Qed.

(** ** Submissions *)

(** A submission for a repository is decided by the table alone: it is refused with
    the identifier of the pending or running row that holds the operation and the
    repository when there is one; otherwise it is accepted, and the one row it adds is
    pending, holds that slot, and carries this node's name unless any node may take it,
    in which case the job is neither queued nor kept in the dictionary here. *)
Theorem submission_claims_slot cfg o now j s w l alias :
  has_tracker cfg = true → lane_of (s_lane s) = Some l → register_ok o = true → given (s_alias s) = Some alias →
  is_blank j = false → is_blank (s_op s) = false → is_blank (s_user s) = false → is_blank alias = false →
  rows (shared w) !! j = None →
  match find_active_job_by_type_and_alias (s_op s) alias (rows (shared w)) with
  | Some e => submit_job cfg false o now j s w = Err (Duplicate e)
              ∧ ∃ r, rows (shared w) !! e = Some r ∧ index_key r = Some (s_op s, alias)
  | None => ∃ w' r, submit_job cfg false o now j s w = Ok w' ∧ rows (shared w') = <[j := r]> (rows (shared w))
              ∧ status (cols r) = PENDING ∧ index_key r = Some (s_op s, alias)
              ∧ executing_node r = (if is_pod_pull_eligible cfg s then None else node_id cfg)
              ∧ (if is_pod_pull_eligible cfg s then jobs (shared w') !! j = None ∧ queue_of l w' = queue_of l w
                 else jobs (shared w') !! j = Some (new_job s l now)
                      ∧ queue_of l w' = queue_of l w ++ [Some (j, s_takes_progress s)])
  end.
Proof.
  intros Ht Hl Ho Ha B1 B2 B3 B4 Hj. unfold submit_job. rewrite Hl, Ha, Ht. unfold submit_claim. rewrite Ho. cbn [negb].
  unfold register_job_if_no_conflict. rewrite B1, B2, B3, B4. rewrite atomic_insert_alone by done.
  destruct (find_active_job_by_type_and_alias _ _ _) as [e|] eqn:E; [split; [done|by apply find_active_Some]|].
  cbn. destruct (is_pod_pull_eligible cfg s) eqn:Ee.
  - eexists _, _. split_and!; [done|by destruct l|done|done|done| |by destruct l]. cbn. by rewrite lookup_delete_eq.
  - eexists _, _. destruct l; split_and!; try done; cbn; by rewrite ?lookup_insert_eq.
Qed.

(** ** Lanes *)

Definition lane_size (cfg : Config) (l : Lane) : nat :=
  match l with ordinary => pool_size cfg | temporal => temporal_lane_concurrency cfg end.

Definition lane_ok (cfg : Config) (w : World) : Prop := ∀ l, (busy l w ≤ pool_of l w ≤ lane_size cfg l)%nat.

Definition workers (l : Lane) (ts : list Thread) : nat := length (filter (λ t, t_worker t = Some l) ts).

Lemma workers_app l a b : workers l (a ++ b) = (workers l a + workers l b)%nat.
Proof. unfold workers. by rewrite filter_app, length_app. Qed.

Lemma workers_none l ts : (∀ t, t ∈ ts → t_worker t = None) → workers l ts = 0%nat.
Proof. intros H. unfold workers. rewrite filter_none_nil; [done|]. intros t Hin Ht. by rewrite H in Ht. Qed.

Lemma busy_workers l w : busy l w = workers l (threads w).
Proof. done. Qed.

Lemma lane_ok_threads cfg w w' : lane_ok cfg w → (∀ l, pool_of l w' = pool_of l w) →
  (∀ l, (workers l (threads w') ≤ workers l (threads w))%nat) → lane_ok cfg w'.
Proof. intros H Hp Hw l. specialize (H l). specialize (Hw l). rewrite Hp. unfold busy, workers in *. lia. Qed.

Lemma worker_lane_ok cfg l denied w w' : pool_worker cfg l denied w = Some w' → lane_ok cfg w → lane_ok cfg w'.
Proof.
  unfold pool_worker. intros H Hok. destruct (busy l w <? pool_of l w)%nat eqn:Eb; [|done]. apply Nat.ltb_lt in Eb.
  destruct (queue_of l w) as [|[[j takes]|] q]; [done| |].
  - destruct (admission_blocked _ _ _ _); simplify_eq; [apply (lane_ok_threads _ w); [done|by destruct l|by destruct l]|].
    intros l'. specialize (Hok l'). rewrite !busy_workers in *. cbn [threads with_threads]. rewrite workers_app.
    assert (pool_of l' (with_threads (threads w ++ [mkThread j (Some l) takes false (execute_job cfg takes)]) (with_queue l q w)) = pool_of l' w) as ->
      by (by destruct l, l').
    unfold workers at 2. rewrite filter_cons, filter_nil. case_decide as Hl; cbn in Hl |- *; simplify_eq; lia.
  - simplify_eq. intros l'. specialize (Hok l'). destruct l, l'; cbn in *; unfold busy in *; cbn in *; lia.
Qed.

Lemma lane_ok_step cfg w w' : step cfg w w' → Inv w → lane_ok cfg w → lane_ok cfg w'.
Proof.
  intros Hs HI Hok. destruct Hs.
  - pose proof (submit_submitted _ _ _ _ _ _ _ _ HI H H0) as HS. apply (lane_ok_threads _ w); [done|apply (sub_pools _ _ _ HS)|].
    intros l. by rewrite (sub_threads _ _ _ HS).
  - by eapply worker_lane_ok.
  - apply run_thread_split in H as (l & x & l' & Hw & ->). apply (lane_ok_threads _ w); [done|done|]. intros ln.
    cbn [threads with_shared with_threads]. rewrite Hw. change (x :: l') with ([x] ++ l'). rewrite !workers_app.
    assert ((workers ln (match code (exec cfg o x (shared w)).2 with [] => [] | _ => [(exec cfg o x (shared w)).2] end) ≤ workers ln [x])%nat);
      [|lia]. destruct (exec_job cfg o x (shared w)) as [_ E]. unfold workers. rewrite !filter_cons, !filter_nil.
    destruct (code _); rewrite ?filter_cons, ?filter_nil, ?filter_cons, ?E; repeat case_decide; cbn; try lia; done.
  - unfold cancel_job. destruct (jobs (shared w) !! j) as [b|].
    + unfold cancel_local. do 2 (destruct (negb _); [done|]). apply (lane_ok_threads _ w); [done|done|]. intros l.
      cbn [threads snd with_threads]. rewrite workers_app, (workers_none l [_]); [lia|]. by intros x ->%list_elem_of_singleton.
    + by destruct (cancel_absent _ _ _ _ _ _ _).
  - done.
  - done.
  - done.
  - done.
  - apply (lane_ok_threads _ w); [done|done|]. intros l. cbn [threads shutdown]. rewrite workers_app, (workers_none l (_ <$> _)); [lia|].
    intros x (y & -> & _)%list_elem_of_fmap. done.
  - unfold start. destruct (load_jobs _ _ _ _ _). intros []; unfold busy; cbn; lia.
Qed.

(** In every reachable state each lane executes at most as many jobs at once as it has
    workers, which are at most as many as configured. *)
Theorem lane_concurrency cfg w l : reachable cfg w → (busy l w ≤ pool_of l w ≤ lane_size cfg l)%nat.
Proof.
  intros (ok & h & t & iss & t0 & Hd & _ & Hr). revert l. change (lane_ok cfg w).
  eapply (rtc_ind_r (λ x, Inv x ∧ lane_ok cfg x)) in Hr as [_ ?]; [done| |].
  - split; [by apply inv_start|]. unfold start. destruct (load_jobs _ _ _ _ _). intros []; unfold busy; cbn; lia.
  - intros x y _ Hs [HI Ha]. split; [by eapply inv_step|by eapply lane_ok_step].
Qed.

(** ** Concrete runs *)

Definition solo : Config :=
  {| node_id := Some "node-1"%string; cluster_mode := false; has_tracker := true; postgres := false;
     job_admission_memory_gate_enabled := false; pool_size := 2; temporal_lane_concurrency := 1 |}.

Definition cluster : Config :=
  {| node_id := Some "node-1"%string; cluster_mode := true; has_tracker := true; postgres := true;
     job_admission_memory_gate_enabled := false; pool_size := 2; temporal_lane_concurrency := 1 |}.

Definition refresh (alias : option string) : submission :=
  {| s_op := "refresh"; s_user := "alice"; s_admin := false; s_alias := alias; s_actor := None; s_lane := "ordinary";
     s_ctx := None; s_meta := None; s_takes_progress := false |}.

Definition all_ok : submit_oracle := {| query_ok := true; persist_ok := true; register_ok := true |}.
Definition at_ (t : Z) (e : event) : oracle := {| now := t; db_ok := true; ev := e |}.

Definition w0 : World := start solo true 720 0 ∅ ∅.
Definition submitted_world (cfg : Config) (alias : option string) (w : World) : World :=
  match submit_job cfg false all_ok 5 "j" (refresh alias) w with Ok w' => w' | Err _ => w end.
Definition w1 : World := submitted_world solo (Some "repo"%string) w0.
Definition w2 : World := default w1 (pool_worker solo ordinary None w1).

Definition worker_of_j : Thread := mkThread "j" (Some ordinary) false false (execute_job solo false).
Definition status_in_row (j : string) (m : Shared) : option JobStatus := (status ∘ cols) <$> rows m !! j.

Lemma w0_reachable : reachable solo w0.
Proof. exists true, 720, 0, ∅, ∅. split_and!; [set_solver|by intros ? ? ? ? ? ?%lookup_empty_Some|done]. Qed.

Lemma w1_step : step solo w0 w1.
Proof. apply (step_submit solo false all_ok 5 "j" (refresh (Some "repo"%string))); [set_solver|by vm_compute]. Qed.

Lemma w1_reachable : reachable solo w1.
Proof.
  destruct w0_reachable as (ok & h & t & iss & t0 & ? & ? & ?). exists ok, h, t, iss, t0. split_and!; [done..|].
  eapply rtc_r; [done|]. apply w1_step.
Qed.

Lemma w2_step : step solo w1 w2.
Proof. apply (step_worker solo ordinary None). by vm_compute. Qed.

Lemma w2_reachable : reachable solo w2.
Proof.
  destruct w1_reachable as (ok & h & t & iss & t0 & ? & ? & ?). exists ok, h, t, iss, t0. split_and!; [done..|].
  eapply rtc_r; [done|]. apply w2_step.
Qed.

(** The tracker's completion overwrites the status that the manager has just written: a
    partly successful job is reported as completed. *)
Lemma partial_becomes_completed :
  let m := (run_alone solo (replicate 40 (at_ 9 (Returned (Some (RDict [("partial"%string, VBool true)])))))
              worker_of_j (shared w1)).1 in
  status <$> get_job_status true "j" "alice" false m = Some COMPLETED.
Proof. by vm_compute. Qed.

(** The tracker's failure overwrites the result that the manager has just written. *)
Lemma failure_result_erased :
  let m := (run_alone solo (replicate 40 (at_ 9 (Returned (Some (RDict [("success"%string, VBool false); ("error"%string, VStr "disk full")])))))
              worker_of_j (shared w1)).1 in
  (λ x, (status x, result x, error x)) <$> get_job_status true "j" "alice" false m = Some (FAILED, None, Some (VStr "disk full")).
Proof. by vm_compute. Qed.

(** A job whose function takes no progress callback never looks at its row: a
    cancellation made on another node is overwritten when the function returns. *)
Lemma remote_cancellation_overwritten :
  let '(m, t) := run_alone solo (replicate 20 (at_ 9 Poll)) worker_of_j (shared w1) in
  let '(reply, t') := cancel_row true "j" "alice" false 10 (rows m) in
  let m' := (run_alone solo (replicate 20 (at_ 11 Poll) ++ replicate 20 (at_ 12 (Returned None))) t (set_rows t' m)).1 in
  reply = CancelOk ∧ status_in_row "j" (set_rows t' m) = Some CANCELLED ∧ status_in_row "j" m' = Some COMPLETED.
Proof. by vm_compute. Qed.

(** A row without a repository is written by the manager before the tracker could stamp
    it with the node: the node's own sweep after a restart does not find it. *)
Lemma unscoped_row_survives_sweep :
  let t := rows (shared (submitted_world cluster None (start cluster true 720 0 ∅ ∅))) in
  (λ r, (executing_node r, status (cols r))) <$> backend_sweep cluster (node_id cluster) 9 t !! "j"%string = Some (None, PENDING).
Proof. by vm_compute. Qed.

Definition other_nodes_job : gmap string Row :=
  {["x"%string := mkRow (mkJob "refresh" RUNNING 1 (Some 2) None None None 10 "bob" false false (Some "repo"%string) no_healing None None None)
      None None (Some "node-2"%string) None]}.

(** A node that starts over a shared table loads another node's running job and then
    reports it as failed, while the row says that it is running. *)
Lemma foreign_job_reported_failed :
  let m := (manager_fail_orphaned_jobs cluster true "Orphaned by server restart" 9
              (shared (start cluster true 720 8 {["x"%string]} other_nodes_job))).2 in
  status <$> get_job_status true "x" "bob" false m = Some FAILED ∧ status_in_row "x" m = Some RUNNING.
Proof. by vm_compute. Qed.

(** When the conflict queries fail and the entry in memory is stale, the submission
    waits for the lock that it holds. *)
Lemma stale_entry_deadlocks :
  check_operation_conflict false "refresh" "repo" (STALE_JOB_THRESHOLD + 10)
    (mkShared {["x"%string := deserialize (mkRow (mkJob "refresh" RUNNING 1 (Some 2) None None None 10 "bob" false false
                 (Some "repo"%string) no_healing None None None) None None None None)]} ∅ ∅ ∅) = Err Deadlock.
Proof. by vm_compute. Qed.

(** A job cancelled between the worker's first check and its start runs in the
    dictionary again, as cancelled, until the second check. *)
Lemma cancelled_job_runs_again :
  let '(m, t) := run_alone solo [at_ 6 Poll] worker_of_j (shared w1) in
  let m' := set_jobs (alter (assign_bg [ACancelled true; AStatus CANCELLED; ACompleted (Some 7)]) "j"%string) m in
  let m'' := (run_alone solo [at_ 8 Poll] t m').1 in
  (status ∘ fields) <$> jobs m' !! "j"%string = Some CANCELLED ∧ (status ∘ fields) <$> jobs m'' !! "j"%string = Some RUNNING.
Proof. by vm_compute. Qed.

(** The table's clean-up keeps partly completed jobs for ever. *)
Lemma partial_row_never_purged h now t j r : t !! j = Some r → status (cols r) = COMPLETED_PARTIAL →
  (cleanup_old_jobs h now t).2 !! j = Some r.
Proof.
  intros Hr Hs. unfold cleanup_old_jobs. cbn. apply map_lookup_filter_Some. split; [done|]. cbn. unfold expired. rewrite Hs. by intros [].
Qed.

(** *** Witnesses *)


Lemma no_stranded_job_witness : "j"%string ∈ live_jobs w2.
Proof.
  apply (no_stranded_job solo w2 "j" (new_job (refresh (Some "repo"%string)) ordinary 5)); [done|apply w2_reachable|by vm_compute|done].
Defined.

Lemma one_active_row_witness : unique_active (rows (shared w2)).
Proof. apply (one_active_row solo), w2_reachable. Defined.

Lemma lane_concurrency_witness : busy ordinary w2 = 1%nat ∧ (busy ordinary w2 ≤ pool_of ordinary w2 ≤ lane_size solo ordinary)%nat.
Proof. split; [by vm_compute|]. apply (lane_concurrency solo), w2_reachable. Defined.

Definition done_job : gmap string Row :=
  {["x"%string := mkRow (mkJob "refresh" COMPLETED 1 (Some 2) (Some 3) None None 100 "bob" false false (Some "repo"%string) no_healing
      None None None) None None None None]}.

Definition v0 : World := start solo false 720 8 {["x"%string]} done_job.

Lemma v0_reachable : reachable solo v0.
Proof.
  exists false, 720, 8, {["x"%string]}, done_job. split_and!; [unfold done_job; set_solver| |done].
  intros i j r r' k Hi Hj _ _. unfold done_job in *. by simplify_map_eq.
Qed.

Lemma terminal_row_stays_witness : ∃ r', rows (shared (submitted_world solo (Some "repo"%string) v0)) !! "x"%string = Some r'
  ∧ terminal (status (cols r')) = true.
Proof.
  eapply (terminal_row_stays solo v0); [apply v0_reachable|by vm_compute|done|]. apply rtc_once. split; [|by vm_compute; eexists].
  apply (step_submit solo false all_ok 5 "j" (refresh (Some "repo"%string))); [set_solver|by vm_compute].
Defined.

Lemma worker_finishes_witness :
  let '(m', t') := run_alone solo (replicate 40 {| now := 9; db_ok := false; ev := Raised "boom" |}) worker_of_j (shared w1) in
  code t' = [] ∧ ∀ b, jobs m' !! "j"%string = Some b → terminal (status (fields b)) = true.
Proof.
  apply (worker_finishes solo (replicate 40 {| now := 9; db_ok := false; ev := Raised "boom" |}) "j" ordinary false (shared w1));
    [by rewrite length_replicate|by apply Forall_replicate].
Defined.

Lemma end_is_reported_witness :
  let o ok := {| now := 9; db_ok := ok; ev := Poll |} in
  ∃ x, get_job_status true "j" "" true
         (run_alone solo [o true; o true; o false; o true; o true; o false; o true] (goto [Crashed "boom"] worker_of_j) (shared w1)).1 = Some x
       ∧ terminal (status x) = true.
Proof.
  intros o. refine (end_is_reported solo (o true) (o true) (o false) [o true; o true; o false; o true] (goto [Crashed "boom"] worker_of_j)
    (shared w1) (Crashed "boom") (new_job (refresh (Some "repo"%string)) ordinary 5) _ _ _ _); [done..|by vm_compute].
Defined.

Lemma submission_claims_slot_witness :
  submit_job solo false all_ok 6 "k" (refresh (Some "repo"%string)) w1 = Err (Duplicate "j")
  ∧ ∃ r, rows (shared w1) !! "j"%string = Some r ∧ index_key r = Some ("refresh"%string, "repo"%string).
Proof.
  exact (submission_claims_slot solo all_ok 6 "k" (refresh (Some "repo"%string)) w1 ordinary "repo" eq_refl eq_refl eq_refl eq_refl
    eq_refl eq_refl eq_refl eq_refl eq_refl).
Defined.

End BackgroundJobs.
