(* ===== verification/ClusterJobs.v ===== *)
(** * Jobs shared by the nodes of a cluster

    [DistributedJobClaimer] (src/src/code_indexer/server/services/distributed_job_claimer.py),
    the two workers that use it, [IndexJobClaimLoop] (index_job_claim_loop.py, one on
    every node) and [DistributedJobWorkerService] (distributed_job_worker.py, on the
    leader), [NodeHeartbeatService] (node_heartbeat_service.py) and
    [JobReconciliationService] (job_reconciliation_service.py), over the table of
    JobStore.v.

    A statement is one atomic function on the table; [NOW()] is an argument.  A node and
    its workers are interleaved at the grain of these statements: between claiming a
    job, entering it as in flight, ending it and leaving it, any other node, a sweep, a
    cancellation or the node's own [stop] may act.  The function that a worker runs is
    an oracle that returns or raises. *)

From S2P Require Import Prelude PyText JobStore BackgroundJobs.
From stdpp Require Import options.
Local Open Scope Z_scope.

Module ClusterJobs.
Import JobStore.

(** ** The claimer *)

(** [claim_next_job]'s filters: an absent, empty or blank argument is no filter. *)
Record claim_filter := { job_type : option string; job_types : option (list string); exclude_types : option (list string) }.

Definition passes (f : claim_filter) (op : string) : bool :=
  cond (job_type f) op
  && match job_types f with None | Some [] => true | Some l => bool_decide (op ∈ l) end
  && match exclude_types f with None | Some [] => true | Some l => negb (bool_decide (op ∈ l)) end.

Record Claimer := {
  node : string; max_concurrent_jobs : Z; memory_gate_enabled : bool }.

(** Memory pressure, as the governor reports it; no governor is [None]. *)
Definition memory_allows (c : Claimer) (denied : option bool) : bool :=
  negb (memory_gate_enabled c && default false denied).

Definition running_count (t : gmap string Row) : nat := size (filter (λ kr, status (cols kr.2) = RUNNING) t).

Definition below_limit (c : Claimer) (t : gmap string Row) : bool :=
  negb ((0 <? max_concurrent_jobs c) && (max_concurrent_jobs c <=? Z.of_nat (running_count t))).

Definition claimable (f : claim_filter) (r : Row) : bool :=
  bool_decide (status (cols r) = PENDING) && bool_decide (executing_node r = None) && passes f (operation_type (cols r)).

(** The sub-select: the oldest claimable row that no other claimer has locked. *)
Definition next_row (f : claim_filter) (locked : gset string) (t : gmap string Row) : option (string * Row) :=
  match filter (λ kr, claimable f kr.2 && negb (bool_decide (kr.1 ∈ locked))) (map_to_list t) with
  | [] => None
  | x :: l => Some (max_by (λ kr, inject_Z (- created_at (cols kr.2))) x l)
  end.

Definition claimed (n : string) (now : Z) (r : Row) : Row :=
  mkRow (assign [AStatus RUNNING; AStarted (Some now)] (cols r)) (progress_info r) (metadata r) (Some n) (Some now).

(** The [UPDATE ... RETURNING]. *)
Definition claim_statement (n : string) (f : claim_filter) (locked : gset string) (now : Z) (t : gmap string Row) :
    option (string * Row) * gmap string Row :=
  match next_row f locked t with
  | None => (None, t)
  | Some (j, r) => (Some (j, claimed n now r), <[j := claimed n now r]> t)
  end.

(** Without interference between the count and the claim. *)
Definition claim_next_job (c : Claimer) (denied : option bool) (f : claim_filter) (locked : gset string) (now : Z)
    (t : gmap string Row) : option (string * Row) * gmap string Row :=
  if negb (memory_allows c denied) then (None, t)
  else if negb (below_limit c t) then (None, t)
  else claim_statement (node c) f locked now t.

(** [UPDATE ... WHERE job_id = j AND executing_node = n]; the row count. *)
Definition update_owned (n j : string) (g : Row → Row) (t : gmap string Row) : bool * gmap string Row :=
  match t !! j with
  | Some r => if bool_decide (executing_node r = Some n) then (true, <[j := g r]> t) else (false, t)
  | None => (false, t)
  end.

Definition completed_row (now : Z) (res : option ret) (r : Row) : Row :=
  foldl set_column r [Attr (AStatus COMPLETED); Attr (ACompleted (Some now)); Attr (AResult res); Attr (AProgress 100)].

Definition complete_job (n j : string) (res : option ret) (now : Z) (t : gmap string Row) : bool * gmap string Row :=
  update_owned n j (completed_row now res) t.

Definition failed_row (now : Z) (msg : string) (r : Row) : Row :=
  foldl set_column r [Attr (AStatus FAILED); Attr (ACompleted (Some now)); Attr (AError (Some (VStr msg)))].

Definition fail_job (n j msg : string) (now : Z) (t : gmap string Row) : bool * gmap string Row :=
  update_owned n j (failed_row now msg) t.

Definition coalesce {A} (o d : option A) : option A := match o with Some _ => o | None => d end.

Definition update_progress (n j : string) (p : Z) (phase detail : option string) (t : gmap string Row) : bool * gmap string Row :=
  update_owned n j (λ r, foldl set_column r [Attr (AProgress p); Attr (APhase (coalesce phase (current_phase (cols r))));
                                             Attr (ADetail (coalesce detail (phase_detail (cols r))))]) t.

(** Back to the queue: pending, unowned, unstarted. *)
Definition requeued (r : Row) : Row :=
  mkRow (assign [AStatus PENDING; AStarted None] (cols r)) (progress_info r) (metadata r) None None.

(** [release_job]; the index may refuse the row. *)
Definition release_job (n j : string) (t : gmap string Row) : Prelude.result db_error (bool * gmap string Row) :=
  match t !! j with
  | Some r =>
      if bool_decide (executing_node r = Some n) then
        if violates j (requeued r) t then Err IntegrityError else Ok (true, <[j := requeued r]> t)
      else Ok (false, t)
  | None => Ok (false, t)
  end.

(** Oldest claim first; rows without a claim time, which a node's own manager writes, last. *)
Definition get_node_jobs (n : string) (t : gmap string Row) : list (string * Row) :=
  let l := filter (λ kr, executing_node kr.2 = Some n ∧ status (cols kr.2) = RUNNING) (map_to_list t) in
  sort_desc (λ kr, inject_Z (- default 0 (claimed_at kr.2))) (filter (λ kr, is_Some (claimed_at kr.2)) l)
  ++ filter (λ kr, claimed_at kr.2 = None) l.

(** ** Heartbeats *)

Record Beat := { online : bool; last_heartbeat : Z }.

Definition second : Z := 1000000.

Definition get_active_nodes (threshold now : Z) (ns : gmap string Beat) : list string :=
  fst <$> filter (λ nb, online nb.2 && (now - threshold * second <=? last_heartbeat nb.2)) (map_to_list ns).

Definition upsert_node (n : string) (on : bool) (now : Z) (ns : gmap string Beat) : gmap string Beat :=
  <[n := {| online := on; last_heartbeat := now |}]> ns.

(** An [UPDATE]: a node without a row stays without. *)
Definition update_heartbeat (n : string) (now : Z) (ns : gmap string Beat) : gmap string Beat :=
  alter (λ _, {| online := true; last_heartbeat := now |}) n ns.

(** ** Reconciliation *)

Definition dead_row (active_nodes : list string) (grace now : Z) (r : Row) : bool :=
  bool_decide (status (cols r) = RUNNING)
  && match executing_node r with Some n => negb (bool_decide (n ∈ active_nodes)) | None => false end
  && match claimed_at r with None => true | Some c => c <? now - grace * second end.

(** The identifiers reclaimed, and the table. *)
Definition reclaim_dead_node_jobs (active_nodes : list string) (sweep_interval now : Z) (t : gmap string Row) :
    list string * gmap string Row :=
  match active_nodes with
  | [] => ([], t)
  | _ =>
      let hit r := dead_row active_nodes (sweep_interval * 3) now r in
      (fst <$> filter (λ kr, hit kr.2) (map_to_list t), (λ r, if hit r then requeued r else r) <$> t)
  end.

Definition stuck_row (max_execution_time now : Z) (r : Row) : bool :=
  bool_decide (status (cols r) = RUNNING) && bool_decide (started_at (cols r) = None)
  && (default (created_at (cols r)) (claimed_at r) <=? now - max_execution_time * second).

Definition stuck_message : string :=
  "Reclaimed by JobReconciliationService: stuck in active state beyond max_execution_time (Bug #1141)".

Definition fail_stuck (r : Row) : Row :=
  foldl set_column r [Attr (AStatus FAILED); Attr (AError (coalesce (error (cols r)) (Some (VStr stuck_message))))].

Definition reclaim_stuck_index_blocking_jobs (max_execution_time now : Z) (reclaimed : list string) (t : gmap string Row) :
    nat * gmap string Row :=
  let hit j r := stuck_row max_execution_time now r && negb (bool_decide (j ∈ reclaimed)) in
  (length (filter (λ kr, hit kr.1 kr.2) (map_to_list t)),
   map_imap (λ j r, Some (if hit j r then fail_stuck r else r)) t).

Record sweep_config := { sweep_interval : Z; max_execution_time : Z; active_threshold : Z }.

Definition sweep (c : sweep_config) (now : Z) (ns : gmap string Beat) (t : gmap string Row) : nat * gmap string Row :=
  let '(ids, t1) := reclaim_dead_node_jobs (get_active_nodes (active_threshold c) now ns) (sweep_interval c) now t in
  let '(k, t2) := reclaim_stuck_index_blocking_jobs (max_execution_time c) now ids t1 in
  ((length ids + k)%nat, t2).

(** What an attempt of a sweep's statement meets. *)
Inductive attempt := Commits | Deadlocks | Raises.

Definition DEADLOCK_MAX_RETRIES : nat := 3.

(** The retry loop: whether some attempt commits, or the exception goes on. *)
Fixpoint retry (n : nat) (l : list attempt) : bool :=
  match n, l with
  | S _, Commits :: _ => true
  | S (S _ as n'), Deadlocks :: l' => retry n' l'
  | _, _ => false
  end.

(** ** Workers *)

(** Where a worker is: waiting; having claimed a job; running it, entered as in flight;
    having written its end. *)
Inductive pc := Idle | Held (j : string) | Executing (j : string) | Ended (j : string).

(** [is_loop]: the claim loop of a node, or the leader's worker. *)
Record Worker := mkWorker { w_node : string; is_loop : bool; w_pc : pc }.

Definition goto (p : pc) (w : Worker) : Worker := mkWorker (w_node w) (is_loop w) p.

Definition POD_PULL_OPS : list string :=
  ["add_golden_repo"; "change_branch"; "provider_index_add"; "provider_temporal_index_rebuild"; "sync_repository"]%string.

Definition RETRYABLE_JOB_TYPES : list string := ["global_repo_refresh"; "refresh_golden_repo"]%string.

(** The loop asks for the operations of its dispatch table, which start-up checks to be
    [POD_PULL_OPS]; the leader's worker excludes them. *)
Definition filter_of (loop : bool) : claim_filter :=
  if loop then {| job_type := None; job_types := Some POD_PULL_OPS; exclude_types := None |}
  else {| job_type := None; job_types := None; exclude_types := Some POD_PULL_OPS |}.

(** How a run ends: the function returns and its end is written; it raises; the write of
    a success raises and the failure is written instead; no write succeeds. *)
Inductive outcome := Success (r : option ret) | Failure (msg : string) | Unwritten.

Definition write_end (n j : string) (o : outcome) (now : Z) (t : gmap string Row) : gmap string Row :=
  match o with
  | Success r => (complete_job n j r now t).2
  | Failure msg => (fail_job n j msg now t).2
  | Unwritten => t
  end.

Definition non_retryable (op : string) : string := "Non-retryable operation_type: " +:+ op.

Definition alias_required (j op : string) : string := "Job " +:+ j +:+ ": repo_alias is required for " +:+ op.

(** [_in_flight] of a loop. *)
Definition in_flight (w : Worker) : option string :=
  match w_pc w with Executing j | Ended j => if is_loop w then Some j else None | _ => None end.

(** [DistributedJobWorkerService._process_one_job] without interference; [o] is what the
    refresh does.  A refresh leaves no result. *)
Definition leader_process_one (c : Claimer) (denied : option bool) (o : outcome) (now later : Z) (t : gmap string Row) :
    gmap string Row :=
  match claim_next_job c denied (filter_of false) ∅ now t with
  | (None, t') => t'
  | (Some (j, r), t') =>
      if bool_decide (operation_type (cols r) ∈ RETRYABLE_JOB_TYPES) then
        if bool_decide (is_Some (BackgroundJobs.given (repo_alias (cols r)))) then
          write_end (node c) j (match o with Success _ => Success None | _ => o end) later t'
        else (fail_job (node c) j (alias_required j (operation_type (cols r))) later t').2
      else (fail_job (node c) j (non_retryable (operation_type (cols r))) later t').2
  end.

(** [IndexJobClaimLoop._process_one_job] without interference; whether it ran one. *)
Definition loop_process_one (c : Claimer) (denied : option bool) (o : outcome) (now later : Z) (t : gmap string Row) :
    bool * gmap string Row :=
  match claim_next_job c denied (filter_of true) ∅ now t with
  | (None, t') => (false, t')
  | (Some (j, _), t') => (true, write_end (node c) j o later t')
  end.

(** ** The cluster *)

Record Cluster := mkCluster {
  table : gmap string Row; workers : list Worker;
  stopping : list (string * string) (** calls of [stop] that have read the job in flight *) }.

Section cluster.
Context (op_of : string → string).  (** an identifier belongs to one operation *)

Definition set_worker (i : nat) (w : Worker) (t : gmap string Row) (c : Cluster) : Cluster :=
  mkCluster t (<[i := w]> (workers c)) (stopping c).
Definition set_table (t : gmap string Row) (c : Cluster) : Cluster := mkCluster t (workers c) (stopping c).

(** Everything but a release at shutdown. *)
Inductive work : Cluster → Cluster → Prop :=
| work_claim i w locked now j r t' c : workers c !! i = Some w → w_pc w = Idle →
    claim_statement (w_node w) (filter_of (is_loop w)) locked now (table c) = (Some (j, r), t') →
    work c (set_worker i (goto (Held j) w) t' c)
| work_enter i w j c : workers c !! i = Some w → w_pc w = Held j → work c (set_worker i (goto (Executing j) w) (table c) c)
| work_reject i w j now msg c : workers c !! i = Some w → w_pc w = Held j →
    work c (set_worker i (goto (Ended j) w) (fail_job (w_node w) j msg now (table c)).2 c)
| work_progress i w j p ph d c : workers c !! i = Some w → w_pc w = Executing j →
    work c (set_table (update_progress (w_node w) j p ph d (table c)).2 c)
| work_end i w j o now c : workers c !! i = Some w → w_pc w = Executing j →
    work c (set_worker i (goto (Ended j) w) (write_end (w_node w) j o now (table c)) c)
| work_leave i w j c : workers c !! i = Some w → w_pc w = Ended j → work c (set_worker i (goto Idle w) (table c) c)
| work_stop i w j c : workers c !! i = Some w → in_flight w = Some j →
    work c (mkCluster (table c) (workers c) ((w_node w, j) :: stopping c))
| work_sweep_dead nodes iv now c : work c (set_table (reclaim_dead_node_jobs nodes iv now (table c)).2 c)
| work_sweep_stuck mx now ids c : work c (set_table (reclaim_stuck_index_blocking_jobs mx now ids (table c)).2 c)
| work_cancel ok j user admin now c : work c (set_table (BackgroundJobs.cancel_row ok j user admin now (table c)).2 c)
| work_other t' c : statement (table c) t' →
    (∀ j r', t' !! j = Some r' → operation_type (cols r') = op_of j ∧
       (table c !! j = None ∨ ∃ r, table c !! j = Some r ∧ executing_node r' = executing_node r)) →
    work c (set_table t' c).

(** A [stop] that has read the job in flight gives it back. *)
Inductive release : Cluster → Cluster → Prop :=
| release_in_flight n j b t' l l' c : stopping c = l ++ (n, j) :: l' → release_job n j (table c) = Ok (b, t') →
    release c (mkCluster t' (workers c) (l ++ l')).

Definition cstep (c c' : Cluster) : Prop := work c c' ∨ release c c'.

(** One loop per node and one worker per leader, all idle. *)
Definition initial (c : Cluster) : Prop :=
  NoDup ((λ w, (w_node w, is_loop w)) <$> workers c) ∧ (∀ w, w ∈ workers c → w_pc w = Idle) ∧ stopping c = []
  ∧ (∀ j r, table c !! j = Some r → operation_type (cols r) = op_of j) ∧ unique_active (table c).

Definition creachable (c : Cluster) : Prop := ∃ c0, initial c0 ∧ rtc cstep c0 c.

End cluster.

(** ** Claims are first come, first served *)

Lemma next_row_Some f locked t j r : next_row f locked t = Some (j, r) →
  t !! j = Some r ∧ claimable f r = true ∧ j ∉ locked
  ∧ ∀ i r', t !! i = Some r' → claimable f r' = true → i ∉ locked → created_at (cols r) <= created_at (cols r').
Proof.
  unfold next_row. destruct (filter _ _) as [|x l] eqn:E; [done|]. intros [= Hm].
  set (key := λ kr : string * Row, inject_Z (- created_at (cols kr.2))) in *.
  pose proof (max_by_in key x l) as Hin. pose proof (max_by_ge key x l) as Hge. rewrite Hm, <- E in Hin.
  apply list_elem_of_filter in Hin as [Hp Hin%elem_of_map_to_list]. cbn in Hp. apply Is_true_true, andb_true_iff in Hp as [Hc Hl].
  apply negb_true_iff, bool_decide_eq_false in Hl. split_and!; [done..|]. intros i r' Hi Hc' Hl'.
  assert ((i, r') ∈ x :: l) as Hin'.
  { rewrite <- E. apply list_elem_of_filter. split; [|by apply elem_of_map_to_list]. cbn. rewrite Hc', bool_decide_eq_false_2; done. }
  specialize (Hge _ Hin'). rewrite Hm in Hge. unfold key in Hge. cbn in Hge. rewrite <- Zle_Qle in Hge. lia.
Qed.

Lemma next_row_None f locked t j r : next_row f locked t = None → t !! j = Some r → claimable f r = true → j ∈ locked.
Proof.
  unfold next_row. destruct (filter _ _) as [|x l] eqn:E; [|done]. intros _ Hj Hc. destruct (decide (j ∈ locked)) as [|Hn]; [done|].
  assert ((j, r) ∈ @nil (string * Row)) as Hin; [|by apply not_elem_of_nil in Hin]. rewrite <- E. apply list_elem_of_filter.
  split; [|by apply elem_of_map_to_list]. cbn. rewrite Hc, bool_decide_eq_false_2; done.
Qed.

Lemma claim_statement_Some n f locked now t j r' t' : claim_statement n f locked now t = (Some (j, r'), t') →
  ∃ r, next_row f locked t = Some (j, r) ∧ r' = claimed n now r ∧ t' = <[j := r']> t.
Proof. unfold claim_statement. destruct (next_row f locked t) as [[i r]|]; [|done]. intros. simplify_eq. eauto. Qed.

(** The jobs that repeated claims take, in order. *)
Fixpoint claim_all (k : nat) (n : string) (f : claim_filter) (now : Z) (t : gmap string Row) : list (string * Z) * gmap string Row :=
  match k with
  | O => ([], t)
  | S k' => match claim_statement n f ∅ now t with
            | (Some (j, r), t') => let '(l, t'') := claim_all k' n f now t' in ((j, created_at (cols r)) :: l, t'')
            | (None, t') => ([], t')
            end
  end.

Definition waiting (f : claim_filter) (t : gmap string Row) : gmap string Row := filter (λ kr, claimable f kr.2 = true) t.

Lemma created_claimed n now r : created_at (cols (claimed n now r)) = created_at (cols r).
Proof. destruct r as [c pi md no cl]. by destruct c. Qed.

Lemma status_claimed n now r : status (cols (claimed n now r)) = RUNNING.
Proof. unfold claimed. by job_simpl. Qed.

#[local] Arguments claimed : simpl never.

Lemma waiting_claim f n now t j r : t !! j = Some r → waiting f (<[j := claimed n now r]> t) = delete j (waiting f t).
Proof.
  intros Hj. unfold waiting. apply map_eq. intros i. rewrite map_lookup_filter. destruct (decide (i = j)) as [->|Hne].
  - rewrite lookup_insert_eq, lookup_delete_eq. cbn. unfold claimable. rewrite status_claimed. done.
  - rewrite lookup_insert_ne, lookup_delete_ne, map_lookup_filter by done. done.
Qed.

Lemma claimed_not_claimable f n now r : claimable f (claimed n now r) = false.
Proof. unfold claimable. by rewrite status_claimed. Qed.

Lemma claim_all_elem k n f now t i c : (i, c) ∈ (claim_all k n f now t).1 →
  ∃ r, t !! i = Some r ∧ claimable f r = true ∧ c = created_at (cols r).
Proof.
  revert t. induction k as [|k IH]; intros t; cbn; [intros []%not_elem_of_nil|].
  destruct (claim_statement n f ∅ now t) as [[[j r']|] t'] eqn:Ec; [|intros []%not_elem_of_nil].
  apply claim_statement_Some in Ec as (r & (Hj & Hc & _)%next_row_Some & -> & ->).
  specialize (IH (<[j := claimed n now r]> t)). destruct (claim_all _ _ _ _ _) as [l t'']. cbn [fst] in *.
  intros [[= -> ->]|Hin]%elem_of_cons; [exists r; by autorewrite with jobs|].
  destruct (IH Hin) as (r0 & Hr0 & Hc0 & ->). apply lookup_insert_Some in Hr0 as [[-> <-]|[_ ?]]; [|eauto].
  by rewrite claimed_not_claimable in Hc0.
Qed.

Lemma claim_all_keep k n f now t i r : t !! i = Some r → claimable f r = false → (claim_all k n f now t).2 !! i = Some r.
Proof.
  revert t. induction k as [|k IH]; intros t Hi Hc; cbn; [done|].
  destruct (claim_statement n f ∅ now t) as [[[j r']|] t'] eqn:Ec.
  - apply claim_statement_Some in Ec as (r0 & (Hj & Hc0 & _)%next_row_Some & -> & ->).
    specialize (IH (<[j := claimed n now r0]> t)). destruct (claim_all _ _ _ _ _) as [l t'']. cbn [snd] in *. apply IH; [|done].
    rewrite lookup_insert_ne; [done|]. intros ->. congruence.
  - unfold claim_statement in Ec. destruct (next_row f ∅ t) as [[]|]; by simplify_eq.
Qed.

(** Repeated claims take every waiting row exactly once, oldest first, and leave each
    running under the node's name. *)
Theorem queue_drains_in_order n f now t :
  let '(l, t') := claim_all (size (waiting f t)) n f now t in
  l.*1 ≡ₚ (map_to_list (waiting f t)).*1 ∧ StronglySorted Z.le l.*2 ∧ waiting f t' = ∅
  ∧ ∀ j r, waiting f t !! j = Some r → t' !! j = Some (claimed n now r).
Proof.
  remember (size (waiting f t)) as k eqn:Hk. revert t Hk. induction k as [|k IH]; intros t Hk; cbn [claim_all].
  - symmetry in Hk. apply map_size_empty_inv in Hk. rewrite Hk. split_and!; [done|constructor|done|].
    intros j r. by rewrite lookup_empty.
  - destruct (claim_statement n f ∅ now t) as [[[j r']|] t'] eqn:Ec.
    + apply claim_statement_Some in Ec as (r & Hn & -> & ->). apply next_row_Some in Hn as (Hj & Hc & _ & Hold).
      assert (waiting f t !! j = Some r) as Hw by (apply map_lookup_filter_Some; done).
      specialize (IH (<[j := claimed n now r]> t)). rewrite (waiting_claim f n now t j r Hj) in IH.
      rewrite map_size_delete, Hw in IH. specialize (IH ltac:(lia)).
      destruct (claim_all k n f now (<[j := claimed n now r]> t)) as [l t''] eqn:El. destruct IH as (IH1 & IH2 & IH3 & IH4).
      pose proof (claim_all_elem k n f now (<[j := claimed n now r]> t)) as Hel.
      pose proof (claim_all_keep k n f now (<[j := claimed n now r]> t) j (claimed n now r)) as Hkeep.
      rewrite El in Hel, Hkeep. cbn [fst snd] in Hel, Hkeep.
      split_and!.
      * cbn [fmap list_fmap fst]. rewrite IH1. rewrite <- (insert_delete_id (waiting f t) j r Hw) at 2.
        rewrite map_to_list_insert by apply lookup_delete_eq. done.
      * cbn [fmap list_fmap snd]. constructor; [done|]. rewrite created_claimed. apply Forall_forall.
        intros c ([i c'] & -> & Hin)%list_elem_of_fmap. destruct (Hel i c' Hin) as (r0 & Hr0 & Hc0 & ->).
        apply lookup_insert_Some in Hr0 as [[_ <-]|[_ Hr0]]; [by rewrite claimed_not_claimable in Hc0|].
        eapply Hold; [exact Hr0|done|set_solver].
      * done.
      * intros i r0 Hi. destruct (decide (i = j)) as [->|Hne]; [|apply IH4; by rewrite lookup_delete_ne].
        simplify_eq. apply Hkeep; [apply lookup_insert_eq|apply claimed_not_claimable].
    + exfalso. unfold claim_statement in Ec. destruct (next_row f ∅ t) as [[]|] eqn:En; [done|].
      destruct (map_choose (waiting f t)) as (j & r & Hjr); [by intros H0; rewrite H0, map_size_empty in Hk|].
      apply map_lookup_filter_Some in Hjr as [Hj Hc]. by apply (next_row_None f ∅ t j r) in En; [set_solver|..].
Qed.

(** ** What the statements do to a row *)

(** Same operation and repository; a terminal row stays terminal; the row does not enter
    the index. *)
Definition tame (r r' : Row) : Prop :=
  operation_type (cols r') = operation_type (cols r)
  ∧ (terminal (status (cols r)) = true → terminal (status (cols r')) = true)
  ∧ (is_Some (index_key r') → index_key r = index_key r').

Definition rowwise (R : Row → Row → Prop) (t t' : gmap string Row) : Prop :=
  ∀ j r', t' !! j = Some r' → ∃ r, t !! j = Some r ∧ R r r'.

Lemma tame_refl r : tame r r.
Proof. done. Qed.

Lemma rowwise_refl R t : (∀ r, R r r) → rowwise R t t.
Proof. intros H j r Hr. eauto. Qed.

Lemma rowwise_insert R t j r r' : (∀ x, R x x) → t !! j = Some r → R r r' → rowwise R t (<[j := r']> t).
Proof. intros Hrefl Hj HR i x [[<- <-]|[_ Hx]]%lookup_insert_Some; eauto. Qed.

Ltac tame_tac := unfold tame, index_key; job_simpl; split_and!; try done; try (by intros [? ?]); repeat case_match; simplify_eq; try done; try (by intros [? ?]).

Lemma tame_claimed n now r : status (cols r) = PENDING → tame r (claimed n now r).
Proof. intros H. destruct r as [[] ? ? ? ?]. cbn in H. subst. done. Qed.

Lemma tame_requeued r : status (cols r) = RUNNING → tame r (requeued r).
Proof. intros H. destruct r as [[] ? ? ? ?]. cbn in H. subst. done. Qed.

Lemma tame_completed now res r : tame r (completed_row now res r).
Proof. unfold completed_row. tame_tac. Qed.

Lemma tame_failed now msg r : tame r (failed_row now msg r).
Proof. unfold failed_row. tame_tac. Qed.

Lemma tame_progress p ph d r : tame r (foldl set_column r [Attr (AProgress p); Attr (APhase ph); Attr (ADetail d)]).
Proof. tame_tac. Qed.

Lemma tame_stuck r : tame r (fail_stuck r).
Proof. unfold fail_stuck. tame_tac. Qed.

Lemma update_owned_tame n j g t : (∀ r, tame r (g r)) → rowwise tame t (update_owned n j g t).2.
Proof.
  intros Hg. unfold update_owned. destruct (t !! j) as [r|] eqn:Hj; [|by apply rowwise_refl].
  case_bool_decide; cbn; [|by apply rowwise_refl]. by eapply rowwise_insert.
Qed.

Lemma write_end_tame n j o now t : rowwise tame t (write_end n j o now t).
Proof.
  destruct o; cbn; [| |by apply rowwise_refl]; apply update_owned_tame; intros; [apply tame_completed|apply tame_failed].
Qed.

Lemma claim_tame n f locked now t x t' : claim_statement n f locked now t = (x, t') → rowwise tame t t'.
Proof.
  destruct x as [[j r']|]; intros Hc.
  - apply claim_statement_Some in Hc as (r & (Hj & Hcl & _)%next_row_Some & -> & ->). eapply rowwise_insert; [done..|].
    apply tame_claimed. unfold claimable in Hcl. rewrite !andb_true_iff, !bool_decide_eq_true in Hcl. tauto.
  - unfold claim_statement in Hc. destruct (next_row f locked t) as [[]|]; simplify_eq. by apply rowwise_refl.
Qed.

Lemma reclaim_tame nodes iv now t : rowwise tame t (reclaim_dead_node_jobs nodes iv now t).2.
Proof.
  unfold reclaim_dead_node_jobs. destruct nodes as [|n0 ns]; [by apply rowwise_refl|]. intros j r'. cbn [snd]. rewrite lookup_fmap.
  intros (r & Hr & ->)%fmap_Some. exists r. split; [done|]. destruct (dead_row _ _ _ r) eqn:E; [|done]. apply tame_requeued.
  unfold dead_row in E. rewrite !andb_true_iff, bool_decide_eq_true in E. tauto.
Qed.

Lemma stuck_tame mx now ids t : rowwise tame t (reclaim_stuck_index_blocking_jobs mx now ids t).2.
Proof.
  unfold reclaim_stuck_index_blocking_jobs. intros j r'. cbn [snd]. rewrite map_lookup_imap.
  intros (r & Hr & [= <-])%bind_Some. exists r. split; [done|]. destruct (_ && _); [apply tame_stuck|done].
Qed.

Lemma cancel_tame ok j user admin now t : rowwise tame t (BackgroundJobs.cancel_row ok j user admin now t).2.
Proof.
  unfold BackgroundJobs.cancel_row. destruct (negb ok); [by apply rowwise_refl|]. destruct (get_job j t); [|by apply rowwise_refl].
  do 2 (destruct (negb _); [by apply rowwise_refl|]). destruct (update_job _ _ _ _) as [t'|] eqn:E; cbn [snd]; [|by apply rowwise_refl].
  intros i r' Hr'. destruct (update_job_status _ _ _ _ _ _ _ (BackgroundJobs.one_status_cancel now) E Hr') as (r0 & Hr0 & [->|(_ & -> & _)]).
  - by exists r0.
  - exists r0. split; [done|]. tame_tac.
Qed.

Lemma tame_unique t t' : rowwise tame t t' → unique_active t → unique_active t'.
Proof. intros H. apply unique_active_sub. intros j r' Hr' Hk. destruct (H j r' Hr') as (r & Hr & _ & _ & Hi). eauto. Qed.

Lemma work_tame op_of c c' : work op_of c c' → rowwise tame (table c) (table c') ∨ statement (table c) (table c').
Proof.
  intros Hw. destruct Hw; cbn; try (left; by apply rowwise_refl).
  - left. by eapply claim_tame.
  - left. apply update_owned_tame. intros; apply tame_failed.
  - left. apply update_owned_tame. intros; apply tame_progress.
  - left. apply write_end_tame.
  - left. apply reclaim_tame.
  - left. apply stuck_tame.
  - left. apply cancel_tame.
  - by right.
Qed.

Lemma release_unique c c' : release c c' → unique_active (table c) → unique_active (table c').
Proof.
  intros Hr Hu. destruct Hr as [n j b t' l l' c Hs H]. cbn. unfold release_job in H. destruct (table c !! j) as [r|]; [|by simplify_eq].
  case_bool_decide; [|by simplify_eq]. destruct (violates j (requeued r) (table c)) eqn:E; simplify_eq. by apply unique_active_insert.
Qed.

(** However many nodes claim, end, give back, sweep and cancel jobs, and whatever
    their managers write, the table never holds two active rows for an operation and a
    repository. *)
Theorem cluster_one_active_row op_of c : creachable op_of c → unique_active (table c).
Proof.
  intros (c0 & (_ & _ & _ & _ & Hu) & Hr). eapply (rtc_ind_r (λ x, unique_active (table x))); [done| |done].
  intros x y _ [Hw|Hrel] Hx; [|by eapply release_unique].
  destruct (work_tame op_of x y Hw) as [H|H]; [by eapply tame_unique|by eapply statement_unique].
Qed.

(** No claim, progress tick, end, sweep, cancellation or manager write of any node
    makes a terminal row active again while it is there: a worker that lost its job, or
    ends after a cancellation, can only replace one terminal status by another. *)
Theorem cluster_terminal_row_stays op_of c c' j r : table c !! j = Some r → terminal (status (cols r)) = true →
  rtc (λ x y, work op_of x y ∧ is_Some (table y !! j)) c c' →
  ∃ r', table c' !! j = Some r' ∧ terminal (status (cols r')) = true.
Proof.
  intros Hj Ht Hs. revert r Hj Ht. induction Hs as [|x y z [Hxy [ry Hy]] _ IH]; intros r Hj Ht; [eauto|].
  apply (IH ry Hy). destruct (work_tame op_of x y Hxy) as [H|H].
  - destruct (H j ry Hy) as (r0 & Hr0 & _ & Hk & _). simplify_eq. auto.
  - by apply (statement_keeps_terminal _ _ H j r ry).
Qed.

(** ** Ownership *)

Definition job_of (p : pc) : option string := match p with Idle => None | Held j | Executing j | Ended j => Some j end.

(** The workers of a node differ in kind, and a worker only holds jobs of its kind. *)
Definition kinds_ok (op_of : string → string) (c : Cluster) : Prop :=
  NoDup ((λ w, (w_node w, is_loop w)) <$> workers c)
  ∧ (∀ w j, w ∈ workers c → job_of (w_pc w) = Some j → bool_decide (op_of j ∈ POD_PULL_OPS) = is_loop w)
  ∧ (∀ j r, table c !! j = Some r → operation_type (cols r) = op_of j).

Lemma passes_kind b op : passes (filter_of b) op = true → bool_decide (op ∈ POD_PULL_OPS) = b.
Proof. unfold passes. destruct b; cbn; destruct (bool_decide (op ∈ POD_PULL_OPS)); done. Qed.

Lemma kinds_ops op_of c t : kinds_ok op_of c → rowwise tame (table c) t → ∀ j r, t !! j = Some r → operation_type (cols r) = op_of j.
Proof. intros (_ & _ & H) Ht j r Hr. destruct (Ht j r Hr) as (r0 & Hr0 & E & _). rewrite E. eauto. Qed.

Lemma kinds_table op_of c t l : kinds_ok op_of c → rowwise tame (table c) t → kinds_ok op_of (mkCluster t (workers c) l).
Proof. intros Hk Ht. pose proof (kinds_ops _ _ _ Hk Ht). destruct Hk as (? & ? & _). done. Qed.

Lemma kinds_worker op_of c t i w p : kinds_ok op_of c → rowwise tame (table c) t → workers c !! i = Some w →
  (∀ j, job_of p = Some j → bool_decide (op_of j ∈ POD_PULL_OPS) = is_loop w) → kinds_ok op_of (set_worker i (goto p w) t c).
Proof.
  intros Hk Ht Hi Hp. pose proof (kinds_ops _ _ _ Hk Ht). destruct Hk as (Hn & Hw & _). split_and!; [| |done]; cbn.
  - rewrite list_fmap_insert. cbn. rewrite list_insert_id; [done|]. by rewrite list_lookup_fmap, Hi.
  - intros w' j Hin Hj. apply list_elem_of_lookup in Hin as [k Hk]. apply list_lookup_insert_Some in Hk as [(<- & <- & _)|[_ Hk]].
    + by apply Hp.
    + eapply Hw; [by eapply list_elem_of_lookup_2|done].
Qed.

Lemma kinds_work op_of c c' : work op_of c c' → kinds_ok op_of c → kinds_ok op_of c'.
Proof.
  intros Hw Hk. pose proof Hk as (_ & Hkw & Hko).
  assert (∀ i w, workers c !! i = Some w → w ∈ workers c) as Hel by (intros; by eapply list_elem_of_lookup_2).
  destruct Hw as [i w locked now j r t' c Hi _ Hc|i w j c Hi Hp|i w j now msg c Hi Hp|i w j p ph d c Hi Hp|i w j o now c Hi Hp
    |i w j c Hi Hp|i w j c Hi Hp|nodes iv now c|mx now ids c|ok j user admin now c|t' c Ht Hop].
  - apply kinds_worker; [done|by eapply claim_tame|done|]. intros j' [= <-].
    apply claim_statement_Some in Hc as (r0 & (Hj & Hcl & _)%next_row_Some & _ & _). rewrite <- (Hko j r0 Hj).
    apply passes_kind. unfold claimable in Hcl. by apply andb_true_iff in Hcl as [_ ?].
  - apply kinds_worker; [done|by apply rowwise_refl|done|]. intros j' [= <-]. eapply Hkw; [by eauto|]. by rewrite Hp.
  - apply kinds_worker; [done|by apply update_owned_tame; intros; apply tame_failed|done|]. intros j' [= <-]. eapply Hkw; [by eauto|]. by rewrite Hp.
  - apply kinds_table; [done|]. apply update_owned_tame. intros. apply tame_progress.
  - apply kinds_worker; [done|apply write_end_tame|done|]. intros j' [= <-]. eapply Hkw; [by eauto|]. by rewrite Hp.
  - apply kinds_worker; [done|by apply rowwise_refl|done|done].
  - apply (kinds_table op_of c (table c)); [done|by apply rowwise_refl].
  - apply kinds_table; [done|apply reclaim_tame].
  - apply kinds_table; [done|apply stuck_tame].
  - apply kinds_table; [done|apply cancel_tame].
  - destruct Hk as (? & ? & _). split_and!; [done|done|]. intros j r Hr. by destruct (Hop j r Hr).
Qed.

Lemma release_op n j b t t' i r' : release_job n j t = Ok (b, t') → t' !! i = Some r' →
  ∃ r, t !! i = Some r ∧ operation_type (cols r') = operation_type (cols r).
Proof.
  unfold release_job. destruct (t !! j) as [r|] eqn:Hj; [|intros; simplify_eq; eauto].
  case_bool_decide; [|intros; simplify_eq; eauto]. destruct (violates _ _ _); [done|]. intros [= <- <-] [[<- <-]|[_ Hi]]%lookup_insert_Some; [|eauto].
  exists r. split; [done|]. by destruct r as [[] ? ? ? ?].
Qed.

Lemma kinds_reachable op_of c : creachable op_of c → kinds_ok op_of c.
Proof.
  intros (c0 & (Hn & Hi & _ & Ho & _) & Hr). eapply (rtc_ind_r (kinds_ok op_of)); [| |done].
  - split_and!; [done| |done]. intros w j Hw. by rewrite (Hi w Hw).
  - intros x y _ [Hw|Hrel] Hx; [by eapply kinds_work|]. destruct Hrel as [n j b t' l l' x Hs H]. destruct Hx as (? & ? & Hx).
    split_and!; [done|done|]. cbn. intros i r' Hr'. destruct (release_op _ _ _ _ _ _ _ H Hr') as (r & Hr0 & ->). eauto.
Qed.

(** C33: A job can end up held by several workers, after a sweep or a shutdown gave it
    back while it was still running; at most one of them owns the row, and the ends and
    progress reports of all the others leave the table as it is. *)
Theorem single_effective_worker op_of c i k w v j : creachable op_of c → workers c !! i = Some w → workers c !! k = Some v → i ≠ k →
  job_of (w_pc w) = Some j → job_of (w_pc v) = Some j →
  (∃ r, table c !! j = Some r ∧ executing_node r = Some (w_node w)) →
  (∀ o now, write_end (w_node v) j o now (table c) = table c)
  ∧ ∀ p ph d, update_progress (w_node v) j p ph d (table c) = (false, table c).
Proof.
  intros Hr Hi Hk Hne Hw Hv (r & Hj & Hown). destruct (kinds_reachable _ _ Hr) as (Hn & Hkind & _).
  assert (w_node w ≠ w_node v) as Hnode.
  { intros E. apply Hne. eapply NoDup_lookup; [done|by rewrite list_lookup_fmap, Hi|]. rewrite list_lookup_fmap, Hk. cbn.
    rewrite E, <- (Hkind w j), <- (Hkind v j); [done|by eapply list_elem_of_lookup_2|done|by eapply list_elem_of_lookup_2|done]. }
  assert (∀ g, update_owned (w_node v) j g (table c) = (false, table c)) as H.
  { intros g. unfold update_owned. rewrite Hj, Hown, bool_decide_eq_false_2; [done|congruence]. }
  split; [|intros; apply H]. intros [] ?; cbn; unfold complete_job, fail_job; by rewrite ?H.
Qed.

(** ** Sweeps *)

(** A sweep as one pass over the rows. *)
Definition reconcile (c : sweep_config) (nodes : list string) (now : Z) (r : Row) : option Row :=
  if negb (bool_decide (nodes = [])) && dead_row nodes (sweep_interval c * 3) now r then Some (requeued r)
  else if stuck_row (max_execution_time c) now r then Some (fail_stuck r)
  else None.

Lemma requeued_not_stuck mx now r : stuck_row mx now (requeued r) = false.
Proof. by destruct r as [[] ? ? ? ?]. Qed.

Lemma length_filter_size (P : string * Row → Prop) `{!∀ x, Decision (P x)} (t : gmap string Row) :
  length (filter P (map_to_list t)) = size (filter P t).
Proof.
  rewrite <- length_map_to_list. apply Permutation_length. apply NoDup_Permutation.
  - apply NoDup_filter, NoDup_map_to_list.
  - apply NoDup_map_to_list.
  - intros [j r]. rewrite list_elem_of_filter, !elem_of_map_to_list, map_lookup_filter_Some. tauto.
Qed.

Lemma size_filter_split (P Q R : string * Row → Prop) `{!∀ x, Decision (P x), !∀ x, Decision (Q x), !∀ x, Decision (R x)} (t : gmap string Row) :
  (∀ j r, t !! j = Some r → R (j, r) ↔ P (j, r) ∨ Q (j, r)) → (∀ j r, t !! j = Some r → P (j, r) → Q (j, r) → False) →
  (size (filter P t) + size (filter Q t))%nat = size (filter R t).
Proof.
  intros HR Hd. rewrite <- map_size_disj_union.
  - f_equal. apply map_eq. intros j. apply option_eq. intros r.
    rewrite lookup_union_Some, !map_lookup_filter_Some; [|apply map_disjoint_spec; intros i x y (? & ?)%map_lookup_filter_Some (? & ?)%map_lookup_filter_Some; simplify_eq; eauto].
    specialize (HR j r). tauto.
  - apply map_disjoint_spec. intros i x y (? & ?)%map_lookup_filter_Some (? & ?)%map_lookup_filter_Some. simplify_eq. eauto.
Qed.

(** A sweep is one pass over the table: a running row of a node that is not among the
    live ones, claimed longer ago than the grace period, goes back to the queue unowned;
    any other running row that never started and is too old is failed; every other row is
    left alone, in particular one that has been put back is not failed by the second
    statement.  The number returned is the number of rows changed. *)
Theorem sweep_one_pass c now ns t :
  let nodes := get_active_nodes (active_threshold c) now ns in
  sweep c now ns t =
  (size (filter (λ kr, is_Some (reconcile c nodes now kr.2)) t), (λ r, default r (reconcile c nodes now r)) <$> t).
Proof.
  intros nodes. unfold sweep. fold nodes. unfold reclaim_dead_node_jobs.
  set (dead r := negb (bool_decide (nodes = [])) && dead_row nodes (sweep_interval c * 3) now r).
  assert (∀ r, reconcile c nodes now r =
    if dead r then Some (requeued r) else if stuck_row (max_execution_time c) now r then Some (fail_stuck r) else None) as Hrec by done.
  assert (∃ ids, (match nodes with [] => ([], t) | _ => (fst <$> filter (λ kr, dead_row nodes (sweep_interval c * 3) now kr.2) (map_to_list t),
     (λ r, if dead_row nodes (sweep_interval c * 3) now r then requeued r else r) <$> t) end) =
     (ids, (λ r, if dead r then requeued r else r) <$> t) ∧ length ids = size (filter (λ kr, dead kr.2) t)
     ∧ ∀ j r, t !! j = Some r → j ∈ ids ↔ dead r = true) as (ids & -> & Hlen & Hids).
  { destruct nodes as [|n0 nodes'] eqn:En.
    - exists []. subst dead. cbn. rewrite map_fmap_id. split_and!; [done| |by intros; rewrite elem_of_nil].
      symmetry. apply map_size_empty_iff, map_empty. intros j. apply map_lookup_filter_None. right. by intros r _ [].
    - eexists. split; [done|]. subst dead. cbn. split; [by rewrite length_fmap, length_filter_size|].
      intros j r Hj. rewrite list_elem_of_fmap. split.
      + intros ([i r'] & -> & [Hd Hi%elem_of_map_to_list]%list_elem_of_filter). cbn in *. simplify_eq. by apply Is_true_true.
      + intros Hd. exists (j, r). split; [done|]. apply list_elem_of_filter. split; [by apply Is_true_true|by apply elem_of_map_to_list]. }
  cbn. f_equal.
  - rewrite Hlen, length_filter_size, map_filter_fmap, map_size_fmap. apply size_filter_split; cbn.
    + intros j r Hj. specialize (Hids j r Hj). rewrite Hrec. destruct (dead r) eqn:Hd; cbn; [rewrite requeued_not_stuck; split; [by left|done]|].
      rewrite bool_decide_eq_false_2 by (rewrite Hids; done). rewrite andb_true_r.
      destruct (stuck_row _ _ r); cbn; [split; [by right|done]|split; [by intros []|by intros [[]|[]]]].
    + intros j r Hj Hd%Is_true_true. cbn in Hd. rewrite Hd, requeued_not_stuck. by intros [].
  - apply map_eq. intros j. rewrite map_lookup_imap, !lookup_fmap. destruct (t !! j) as [r|] eqn:Hj; [|done]. cbn. f_equal.
    specialize (Hids j r Hj). rewrite Hrec. destruct (dead r) eqn:Hd; cbn.
    + by rewrite requeued_not_stuck.
    + rewrite bool_decide_eq_false_2 by (rewrite Hids; done). rewrite andb_true_r. by destruct (stuck_row _ _ r).
Qed.

Lemma claimable_requeued f r : claimable f (requeued r) = passes f (operation_type (cols r)).
Proof. by destruct r as [[] ? ? ? ?]. Qed.

(** C34: The running job of a node whose heartbeat has stopped is taken over: after a
    sweep past the grace period, while some other node is alive, the claims of any worker
    whose operations include the job's reach it, after as many claims as rows then wait,
    and leave it running under that worker's node. *)
Theorem dead_node_job_reassigned c now ns t j r n f m later :
  t !! j = Some r → status (cols r) = RUNNING → executing_node r = Some n →
  n ∉ get_active_nodes (active_threshold c) now ns → get_active_nodes (active_threshold c) now ns ≠ [] →
  match claimed_at r with Some at_ => at_ < now - sweep_interval c * 3 * second | None => True end →
  passes f (operation_type (cols r)) = true →
  let t1 := (sweep c now ns t).2 in
  (claim_all (size (waiting f t1)) m f later t1).2 !! j = Some (claimed m later (requeued r)).
Proof.
  intros Hj Hs He Hn Hne Hc Hp t1.
  assert (t1 !! j = Some (requeued r)) as Hj1.
  { unfold t1, sweep, reclaim_dead_node_jobs. destruct (get_active_nodes _ _ _) as [|n0 ns0] eqn:En; [done|]. cbn.
    rewrite map_lookup_imap, lookup_fmap, Hj. cbn. assert (dead_row (n0 :: ns0) (sweep_interval c * 3) now r = true) as ->.
    { unfold dead_row. rewrite Hs, He, !bool_decide_eq_true_2, bool_decide_eq_false_2 by done.
      destruct (claimed_at r); [|done]. cbn. by apply Z.ltb_lt. }
    by rewrite requeued_not_stuck. }
  pose proof (queue_drains_in_order m f later t1) as H. destruct (claim_all _ _ _ _ t1) as [l t2]. destruct H as (_ & _ & _ & H).
  apply H. apply map_lookup_filter_Some. cbn. by rewrite claimable_requeued.
Qed.

(** ** From a submission on one node to its end on another *)

Lemma pod_pull_accepted cfg o now j s w w' : BackgroundJobs.submit_job cfg false o now j s w = Ok w' →
  BackgroundJobs.is_pod_pull_eligible cfg s = true → BackgroundJobs.rows (BackgroundJobs.shared w) !! j = None →
  ∃ r, BackgroundJobs.rows (BackgroundJobs.shared w') = <[j := r]> (BackgroundJobs.rows (BackgroundJobs.shared w))
    ∧ status (cols r) = PENDING ∧ executing_node r = None ∧ operation_type (cols r) = BackgroundJobs.s_op s
    ∧ username (cols r) = BackgroundJobs.s_user s ∧ BackgroundJobs.jobs (BackgroundJobs.shared w') !! j = None.
Proof.
  unfold BackgroundJobs.submit_job. intros H He Hj. rewrite He in H. pose proof He as He'. unfold BackgroundJobs.is_pod_pull_eligible in He.
  rewrite !andb_true_iff, !bool_decide_eq_true in He. destruct He as ((((_ & _) & [alias Ha]) & _) & Ht). rewrite Ha, Ht in H.
  destruct (BackgroundJobs.lane_of _) as [l|]; [|done]. unfold BackgroundJobs.submit_claim in H. destruct (BackgroundJobs.register_ok o); [|done].
  cbn [negb] in H. unfold register_job_if_no_conflict in H. destruct (is_blank j); [done|]. destruct (is_blank (BackgroundJobs.s_op s)); [done|].
  destruct (is_blank (BackgroundJobs.s_user s)); [done|]. destruct (is_blank alias); [done|].
  rewrite atomic_insert_alone in H by done.
  destruct (find_active_job_by_type_and_alias _ _ _); [done|]. cbn in H. rewrite He' in H. injection H as <-. eexists.
  split_and!; [done..|]. cbn. apply lookup_delete_eq.
Qed.

(** The only waiting row is the one that is claimed. *)
Lemma loop_runs_single c denied res now later t j r : waiting (filter_of true) t = {[j := r]} →
  memory_allows c denied = true → below_limit c t = true →
  loop_process_one c denied (Success res) now later t = (true, <[j := completed_row later res (claimed (node c) now r)]> t).
Proof.
  intros Hw Hm Hl. assert (next_row (filter_of true) ∅ t = Some (j, r)) as Hn.
  { destruct (next_row _ ∅ t) as [[i r']|] eqn:E.
    - apply next_row_Some in E as (Hi & Hc & _). assert (waiting (filter_of true) t !! i = Some r') as H by (by apply map_lookup_filter_Some).
      rewrite Hw in H. apply lookup_singleton_Some in H as [-> ->]. done.
    - assert (waiting (filter_of true) t !! j = Some r) as [Hj Hc]%map_lookup_filter_Some by (rewrite Hw; apply lookup_singleton_eq).
      by apply (next_row_None _ ∅ t j r E Hj) in Hc; apply not_elem_of_empty in Hc. }
  unfold loop_process_one, claim_next_job, claim_statement. rewrite Hm, Hl, Hn. cbn. f_equal. unfold complete_job, update_owned.
  rewrite lookup_insert_eq. cbn. rewrite bool_decide_eq_true_2 by done. cbn. by rewrite insert_insert_eq.
Qed.

(** An index job that a node accepts for any node to run is run by whichever node's
    claim loop comes next, though the accepting node keeps nothing of it: with no older
    index job waiting and room for one, that loop claims it, completes it with the result
    of the executor, and the accepting node answers its user's status request with this
    result. *)
Theorem pod_pull_round_trip cfg o now s j w w' c denied res t1 t2 :
  BackgroundJobs.submit_job cfg false o now j s w = Ok w' → BackgroundJobs.is_pod_pull_eligible cfg s = true →
  BackgroundJobs.rows (BackgroundJobs.shared w) !! j = None → waiting (filter_of true) (BackgroundJobs.rows (BackgroundJobs.shared w)) = ∅ →
  memory_allows c denied = true → below_limit c (BackgroundJobs.rows (BackgroundJobs.shared w')) = true →
  let '(ran, t) := loop_process_one c denied (Success res) t1 t2 (BackgroundJobs.rows (BackgroundJobs.shared w')) in
  ran = true ∧ ∃ x, BackgroundJobs.get_job_status true j (BackgroundJobs.s_user s) false (BackgroundJobs.set_rows t (BackgroundJobs.shared w')) = Some x
  ∧ status x = COMPLETED ∧ result x = res ∧ completed_at x = Some t2.
Proof.
  intros Hs He Hj Hw Hm Hl. destruct (pod_pull_accepted cfg o now j s w w' Hs He Hj) as (r & Hr & Hst & Hex & Hop & Hu & Hjobs).
  assert (waiting (filter_of true) (BackgroundJobs.rows (BackgroundJobs.shared w')) = {[j := r]}) as Hw'.
  { rewrite Hr. unfold waiting. rewrite map_filter_insert_True; [by fold (waiting (filter_of true) (BackgroundJobs.rows (BackgroundJobs.shared w))); rewrite Hw|].
    cbn. unfold claimable. rewrite Hst, Hex, Hop, !bool_decide_eq_true_2 by done. cbn.
    unfold BackgroundJobs.is_pod_pull_eligible in He. rewrite !andb_true_iff in He. destruct He as ((((_ & He) & _) & _) & _).
    unfold BackgroundJobs.memory_heavy in He. apply bool_decide_eq_true in He. unfold passes. cbn. rewrite andb_true_r. apply bool_decide_eq_true.
    unfold POD_PULL_OPS. set_solver. }
  rewrite (loop_runs_single c denied res t1 t2 _ j r Hw' Hm Hl). split; [done|].
  assert (username (cols (completed_row t2 res (claimed (node c) t1 r))) = BackgroundJobs.s_user s) as Hcu
    by (rewrite <- Hu; by destruct r as [[] ? ? ? ?]).
  assert (status (cols (completed_row t2 res (claimed (node c) t1 r))) = COMPLETED
    ∧ result (cols (completed_row t2 res (claimed (node c) t1 r))) = res
    ∧ completed_at (cols (completed_row t2 res (claimed (node c) t1 r))) = Some t2) as Hend by (by destruct r as [[] ? ? ? ?]).
  revert Hcu Hend. generalize (completed_row t2 res (claimed (node c) t1 r)). intros x Hcu Hend. exists (cols x). split; [|done].
  unfold BackgroundJobs.get_job_status. cbn. rewrite Hjobs. unfold get_job. rewrite lookup_insert_eq. cbn.
  unfold BackgroundJobs.may_see. by rewrite Hcu, bool_decide_eq_true_2.
Qed.

(** ** Concrete runs *)

Definition pending_row (op : string) (at_ : Z) : Row :=
  mkRow (mkJob op PENDING at_ None None None None 0 "alice" false false (Some "repo"%string) no_healing None None None)
    None (Some "{}"%string) None None.
Definition running_row (op : string) (n : string) (at_ : Z) : Row := claimed n at_ (pending_row op 1).
Definition queue : gmap string Row := {["j"%string := pending_row "sync_repository" 1]}.
Definition status_of (j : string) (t : gmap string Row) : option JobStatus := (status ∘ cols) <$> t !! j.

Definition loop (n : string) : Worker := mkWorker n true Idle.
Definition two_nodes : Cluster := mkCluster queue [loop "node-1"; loop "node-2"] [].
Definition syncs (j : string) : string := "sync_repository"%string.

Lemma two_nodes_initial : initial syncs two_nodes.
Proof.
  split_and!.
  - compute_done.
  - intros w [->|[->|[]%elem_of_nil]%elem_of_cons]%elem_of_cons; done.
  - done.
  - intros j r. cbn. unfold queue. by intros [<- <-]%lookup_singleton_Some.
  - intros i j r r' k Hi Hj _ _. cbn in *. unfold queue in *. by simplify_map_eq.
Qed.

(** Node 1 claims the job, runs it and is told to stop; the job goes back to the queue
    while the executor is still running, and node 2 takes it. *)
Definition row_1 : Row := claimed "node-1" 5 (pending_row "sync_repository" 1).
Definition row_2 : Row := claimed "node-2" 9 (requeued row_1).
Definition one_runs : Cluster := mkCluster {["j"%string := row_1]} [goto (Executing "j") (loop "node-1"); loop "node-2"] [].
Definition both_run : Cluster :=
  mkCluster {["j"%string := row_2]} [goto (Executing "j") (loop "node-1"); goto (Executing "j") (loop "node-2")] [].

Lemma one_runs_steps : rtc (cstep syncs) two_nodes one_runs.
Proof.
  eapply rtc_l; [left; apply (work_claim _ 0 (loop "node-1") ∅ 5 "j" row_1 {["j"%string := row_1]}); [done..|by vm_compute]|].
  eapply rtc_l; [left; by apply (work_enter _ 0 (goto (Held "j") (loop "node-1")) "j")|]. apply rtc_refl.
Qed.

Lemma both_run_steps : rtc (cstep syncs) one_runs both_run.
Proof.
  eapply rtc_l; [left; by apply (work_stop _ 0 (goto (Executing "j") (loop "node-1")) "j")|].
  eapply rtc_l; [right; apply (release_in_flight "node-1" "j" true {["j"%string := requeued row_1]} [] []); [done|by vm_compute]|].
  eapply rtc_l; [left; apply (work_claim _ 1 (loop "node-2") ∅ 9 "j" row_2 {["j"%string := row_2]}); [done..|by vm_compute]|].
  eapply rtc_l; [left; by apply (work_enter _ 1 (goto (Held "j") (loop "node-2")) "j")|]. apply rtc_refl.
Qed.

(** A shutdown makes two nodes run the same job at the same time. *)
Lemma shutdown_runs_twice : creachable syncs both_run
  ∧ in_flight <$> workers both_run = [Some "j"%string; Some "j"%string].
Proof. split; [|done]. exists two_nodes. split; [apply two_nodes_initial|]. etrans; [apply one_runs_steps|apply both_run_steps]. Qed.

(** A [stop] that read the job in flight before the job ended puts the completed row back
    into the queue. *)
Lemma release_revives_completed :
  let t := write_end "node-1" "j" (Success None) 7 (table one_runs) in
  status_of "j" t = Some COMPLETED ∧ match release_job "node-1" "j" t with Ok (b, t') => b = true ∧ status_of "j" t' = Some PENDING | Err _ => False end.
Proof. by vm_compute. Qed.

(** An accepted cancellation of a job that another node's loop is running is overwritten
    when the executor ends. *)
Lemma stolen_cancellation_overwritten :
  let '(reply, t) := BackgroundJobs.cancel_row true "j" "alice" false 6 (table one_runs) in
  reply = BackgroundJobs.CancelOk ∧ status_of "j" t = Some CANCELLED
  ∧ status_of "j" (write_end "node-1" "j" (Success None) 7 t) = Some COMPLETED.
Proof. by vm_compute. Qed.

Definition leader : Claimer := {| node := "leader"; max_concurrent_jobs := 0; memory_gate_enabled := true |}.

(** The leader takes a job without a repository that is waiting in its node's queue, and
    fails it. *)
Lemma leader_fails_queued_job :
  let w := BackgroundJobs.submitted_world BackgroundJobs.cluster None (BackgroundJobs.start BackgroundJobs.cluster true 720 0 ∅ ∅) in
  BackgroundJobs.pending_queue w = [Some ("j"%string, false)]
  ∧ status_of "j" (leader_process_one leader None (Success None) 6 7 (BackgroundJobs.rows (BackgroundJobs.shared w))) = Some FAILED.
Proof. by vm_compute. Qed.

(** Two nodes that count before either claims go over the limit. *)
Lemma limit_exceeded :
  let c n := {| node := n; max_concurrent_jobs := 1; memory_gate_enabled := false |} in
  let t := <["k"%string := mkRow (assign [] (cols (pending_row "change_branch" 2))) None None None None]> queue in
  let t1 := (claim_statement "node-1" (filter_of true) ∅ 5 t).2 in
  let t2 := (claim_statement "node-2" (filter_of true) ∅ 5 t1).2 in
  below_limit (c "node-1") t = true ∧ below_limit (c "node-2") t = true ∧ running_count t2 = 2%nat.
Proof. by vm_compute. Qed.

(** A stuck row that a sweep has failed has no completion time, so that no clean-up ever
    deletes it. *)
Lemma stuck_row_never_purged h now t j r : t !! j = Some (fail_stuck r) → completed_at (cols r) = None →
  (cleanup_old_jobs h now t).2 !! j = Some (fail_stuck r).
Proof.
  intros Hr Hc. assert (completed_at (cols (fail_stuck r)) = None) as Hf by (by destruct r as [[] ? ? ? ?]).
  revert Hr Hf. generalize (fail_stuck r). intros x Hx Hf. unfold cleanup_old_jobs. cbn. apply map_lookup_filter_Some. split; [done|].
  cbn. unfold expired. rewrite Hf, andb_false_r. by intros [].
Qed.

(** A job whose end could not be written stays running for as long as its node lives. *)
Lemma unwritten_end_never_reclaimed c nodes n now r : executing_node r = Some n → n ∈ nodes → is_Some (started_at (cols r)) →
  reconcile c nodes now r = None.
Proof.
  intros He Hn [at_ Hs]. unfold reconcile, dead_row, stuck_row. rewrite He, Hs, bool_decide_eq_true_2 with (P := n ∈ nodes) by done.
  cbn. by rewrite !andb_false_r.
Qed.

(** *** Witnesses *)

Lemma cluster_one_active_row_witness : unique_active (table both_run).
Proof. apply (cluster_one_active_row syncs both_run). apply shutdown_runs_twice. Defined.

Lemma cluster_terminal_row_stays_witness :
  ∃ r', fail_job "node-1" "j" "late" 9 {["j"%string := completed_row 7 None row_1]} = (true, {["j"%string := r']})
  ∧ terminal (status (cols r')) = true.
Proof.
  set (w := goto (Executing "j") (loop "node-1")). set (t := {["j"%string := completed_row 7 None row_1]} : gmap string Row).
  set (c := mkCluster t [w] []).
  destruct (cluster_terminal_row_stays syncs c (set_worker 0 (goto (Ended "j") w) (write_end "node-1" "j" (Failure "late") 9 t) c) "j"
    (completed_row 7 None row_1)) as (r' & Hr' & Ht); [done|done| |].
  - apply rtc_once. split; [by apply (work_end syncs 0 w "j" (Failure "late") 9 c)|by vm_compute; eexists].
  - exists r'. split; [|done]. vm_compute in Hr'. simplify_eq. by vm_compute.
Defined.

Lemma single_effective_worker_witness :
  update_progress "node-1" "j" 50 None None (table both_run) = (false, table both_run).
Proof.
  apply (single_effective_worker syncs both_run 1 0 (goto (Executing "j") (loop "node-2")) (goto (Executing "j") (loop "node-1")) "j");
    [apply shutdown_runs_twice|done..|by exists row_2].
Defined.

Lemma dead_node_job_reassigned_witness :
  let c := {| sweep_interval := 5; max_execution_time := 1800; active_threshold := 30 |} in
  let ns := {["node-1"%string := {| online := true; last_heartbeat := 0 |}; "node-2"%string := {| online := true; last_heartbeat := 100 * second |}]} in
  let t1 := (sweep c (101 * second) ns (table one_runs)).2 in
  (claim_all (size (waiting (filter_of true) t1)) "node-2" (filter_of true) (102 * second) t1).2 !! "j"%string
  = Some (claimed "node-2" (102 * second) (requeued row_1)).
Proof.
  intros c ns. apply (dead_node_job_reassigned c (101 * second) ns (table one_runs) "j" row_1 "node-1" (filter_of true) "node-2" (102 * second));
    [done|done|done|compute_done|compute_done|by vm_compute|by vm_compute].
Defined.

Definition pull_sync : BackgroundJobs.submission :=
  {| BackgroundJobs.s_op := "sync_repository"; BackgroundJobs.s_user := "alice"; BackgroundJobs.s_admin := false;
     BackgroundJobs.s_alias := Some "repo"%string; BackgroundJobs.s_actor := None; BackgroundJobs.s_lane := "ordinary";
     BackgroundJobs.s_ctx := None; BackgroundJobs.s_meta := Some "{}"%string; BackgroundJobs.s_takes_progress := true |}.

Definition node_1 : BackgroundJobs.World := BackgroundJobs.start BackgroundJobs.cluster true 720 0 ∅ ∅.
Definition after_pull : BackgroundJobs.World :=
  match BackgroundJobs.submit_job BackgroundJobs.cluster false BackgroundJobs.all_ok 5 "j" pull_sync node_1 with Ok w => w | Err _ => node_1 end.

Lemma pod_pull_round_trip_witness :
  let c := {| node := "node-2"; max_concurrent_jobs := 4; memory_gate_enabled := true |} in
  let '(ran, t) := loop_process_one c (Some false) (Success (Some (RDict []))) 6 7 (BackgroundJobs.rows (BackgroundJobs.shared after_pull)) in
  ran = true ∧ ∃ x, BackgroundJobs.get_job_status true "j" "alice" false (BackgroundJobs.set_rows t (BackgroundJobs.shared after_pull)) = Some x
  ∧ status x = COMPLETED ∧ result x = Some (RDict []) ∧ completed_at x = Some 7.
Proof.
  intros c. apply (pod_pull_round_trip BackgroundJobs.cluster BackgroundJobs.all_ok 5 pull_sync "j" node_1 after_pull c (Some false)
    (Some (RDict [])) 6 7); by vm_compute.
Defined.

End ClusterJobs.
