(* ===== verification/GroupAccess.v ===== *)
(** * Groups, grants and what a user may see

    [GroupAccessManager] (src/src/code_indexer/server/services/group_access_manager.py)
    with its PostgreSQL store (server/storage/postgres/groups_backend.py), and
    [AccessFilteringService] (server/services/access_filtering_service.py), which hides
    from query results, repository listings and the cidx-meta directory what the group
    of a user was not granted.

    The three tables are one state; a method is one function on it, with the exceptions
    it raises.  SQLite and PostgreSQL run the same statements; they differ in the
    callback of [revoke_repo_access].  The database's [LOWER] and its collation are
    parameters, and so is the frontmatter of memory files. *)

From S2P Require Import Prelude.
From stdpp Require Import options.
Local Open Scope Z_scope.

Module GroupAccess.

Definition DEFAULT_GROUP_ADMINS : string := "admins".
Definition DEFAULT_GROUP_POWERUSERS : string := "powerusers".
Definition DEFAULT_GROUP_USERS : string := "users".
Definition CIDX_META_REPO : string := "cidx-meta".

Definition DEFAULT_GROUPS : list (string * string) :=
  [(DEFAULT_GROUP_ADMINS, "Full administrative access"); (DEFAULT_GROUP_POWERUSERS, "Access to all golden repositories");
   (DEFAULT_GROUP_USERS, "Basic access to cidx-meta only")]%string.

(** ** The tables *)

Record Group := mkGroup { name : string; description : string; is_default : bool; created_at : Z }.
Record Membership := mkMember { group_id : Z; assigned_at : Z; assigned_by : string }.
Record Grant := mkGrant { granted_at : Z; granted_by : string }.

Record DB := mkDB {
  groups : gmap Z Group; members : gmap string Membership; grants : gmap (string * Z) Grant; next_id : Z }.

Definition empty_db : DB := mkDB ∅ ∅ ∅ 1.

(** What a [ValueError] says. *)
Inductive value_error := NameTaken (n : string) | DefaultGroup | NoSuchGroup (i : Z).

Inductive access_error :=
| ValueError (why : value_error) | DefaultGroupCannotBeDeletedError (n : string) | GroupHasUsersError (count : nat)
| CidxMetaCannotBeRevokedError | IntegrityError.

Definition with_groups (f : gmap Z Group → gmap Z Group) (s : DB) : DB := mkDB (f (groups s)) (members s) (grants s) (next_id s).
Definition with_members (f : gmap string Membership → gmap string Membership) (s : DB) : DB :=
  mkDB (groups s) (f (members s)) (grants s) (next_id s).
Definition with_grants (f : gmap (string * Z) Grant → gmap (string * Z) Grant) (s : DB) : DB :=
  mkDB (groups s) (members s) (f (grants s)) (next_id s).

(** An insertion into [groups]; the identifier comes from a counter that never repeats. *)
Definition insert_group (g : Group) (s : DB) : DB :=
  mkDB (<[next_id s := g]> (groups s)) (members s) (grants s) (next_id s + 1).

Definition get_group (i : Z) (s : DB) : option Group := groups s !! i.

Section database.
Context (lower : string → string).          (** [LOWER] *)
Context (collate : string → string → bool). (** the order of text, [<=] *)

Definition named (n : string) (s : DB) : list (Z * Group) := filter (λ ig, lower (name ig.2) = lower n) (map_to_list (groups s)).

(** [INSERT ... ON CONFLICT (name) DO NOTHING]: an equal name, case included. *)
Definition insert_default (now : Z) (d : string * string) (s : DB) : DB :=
  if decide (filter (λ ig, name ig.2 = d.1) (map_to_list (groups s)) = []) then insert_group (mkGroup d.1 d.2 true now) s else s.

Definition bootstrap_default_groups (now : Z) (s : DB) : DB := foldl (λ s d, insert_default now d s) s DEFAULT_GROUPS.

(** Default groups first, then by name. *)
Definition get_all_groups (s : DB) : list (Z * Group) :=
  merge_sort (λ x y, is_default x.2 && negb (is_default y.2) || Bool.eqb (is_default x.2) (is_default y.2) && collate (name x.2) (name y.2))
    (map_to_list (groups s)).

Definition get_group_by_name (n : string) (s : DB) : option (Z * Group) := head (named n s).

Definition create_group (n d : string) (now : Z) (s : DB) : Prelude.result access_error (Z * DB) :=
  match named n s with
  | [] => Ok (next_id s, insert_group (mkGroup n d false now) s)
  | _ => Err (ValueError (NameTaken n))
  end.

Definition update_group (i : Z) (n d : option string) (s : DB) : Prelude.result access_error (option Group * DB) :=
  match get_group i s with
  | None => Ok (None, s)
  | Some g =>
      if is_default g then Err (ValueError DefaultGroup)
      else match n, d with
           | None, None => Ok (Some g, s)
           | _, _ =>
               let clash := match n with Some n' => filter (λ ig, ig.1 ≠ i) (named n' s) | None => [] end in
               match clash with
               | [] => let g' := mkGroup (default (name g) n) (default (description g) d) (is_default g) (created_at g) in
                       Ok (Some g', with_groups (insert i g') s)
               | _ => Err (ValueError (NameTaken (default "" n)))
               end
           end
  end.

Definition get_users_in_group (i : Z) (s : DB) : list string :=
  fst <$> filter (λ um, group_id um.2 = i) (map_to_list (members s)).
Definition get_user_count_in_group (i : Z) (s : DB) : nat := length (get_users_in_group i s).

Definition delete_group (i : Z) (s : DB) : Prelude.result access_error (bool * DB) :=
  match get_group i s with
  | None => Ok (false, s)
  | Some g =>
      if is_default g then Err (DefaultGroupCannotBeDeletedError (name g))
      else match get_user_count_in_group i s with
           | O => Ok (true, mkDB (delete i (groups s)) (filter (λ um, group_id um.2 ≠ i) (members s))
                              (filter (λ rg, rg.1.2 ≠ i) (grants s)) (next_id s))
           | S k => Err (GroupHasUsersError (S k))
           end
  end.

(** The foreign key refuses a group that does not exist. *)
Definition assign_user_to_group (u : string) (i : Z) (by_ : string) (now : Z) (s : DB) : Prelude.result access_error DB :=
  match get_group i s with
  | None => Err IntegrityError
  | Some _ => Ok (with_members (insert u (mkMember i now by_)) s)
  end.

Definition remove_user_from_group (u : string) (i : Z) (s : DB) : bool * DB :=
  match members s !! u with
  | Some m => if decide (group_id m = i) then (true, with_members (delete u) s) else (true, s)
  | None => (true, s)
  end.

Definition get_user_membership (u : string) (s : DB) : option Membership := members s !! u.
Definition user_exists (u : string) (s : DB) : bool := bool_decide (is_Some (members s !! u)).

(** The join with [groups]. *)
Definition get_user_group (u : string) (s : DB) : option (Z * Group) :=
  m ← members s !! u; g ← groups s !! group_id m; Some (group_id m, g).

(** Users by name; a limit of [None] ignores the offset. *)
Definition get_all_users_with_groups (limit : option Z) (offset : Z) (s : DB) : list (string * (Z * string)) * nat :=
  let rows := omap (λ um, g ← groups s !! group_id um.2; Some (um.1, (group_id um.2, name g)))
                (merge_sort (λ x y, collate x.1 y.1) (map_to_list (members s))) in
  (match limit with Some k => upto k (drop (Z.to_nat offset) rows) | None => rows end, size (members s)).

(** ** Grants *)

Definition granted (r : string) (i : Z) (s : DB) : bool := bool_decide (is_Some (grants s !! (r, i))).

Definition grant_repo_access (r : string) (i : Z) (by_ : string) (now : Z) (s : DB) : Prelude.result access_error (bool * DB) :=
  match get_group i s with
  | None => Err (ValueError (NoSuchGroup i))
  | Some _ => if granted r i s then Ok (false, s) else Ok (true, with_grants (insert (r, i) (mkGrant now by_)) s)
  end.

Definition revoke_repo_access (r : string) (i : Z) (s : DB) : Prelude.result access_error (bool * DB) :=
  if decide (r = CIDX_META_REPO) then Err CidxMetaCannotBeRevokedError
  else if granted r i s then Ok (true, with_grants (delete (r, i)) s) else Ok (false, s).

Definition get_group_repos (i : Z) (s : DB) : list string :=
  CIDX_META_REPO :: merge_sort (λ x y, collate (lower x) (lower y))
    ((λ rg, rg.1.1) <$> filter (λ rg, rg.1.2 = i) (map_to_list (grants s))).

Definition get_repo_groups (r : string) (s : DB) : list (Z * Group) :=
  if decide (r = CIDX_META_REPO) then get_all_groups s
  else merge_sort (λ x y, collate (lower (name x.2)) (lower (name y.2)))
         (filter (λ ig, granted r ig.1 s) (map_to_list (groups s))).

Definition get_repo_access (r : string) (i : Z) (s : DB) : option Grant := grants s !! (r, i).

(** [if admins: ...] *)
Definition auto_grant (r n : string) (now : Z) (s : DB) : bool * DB :=
  match get_group_by_name n s with
  | None => (false, s)
  | Some (i, _) => match grant_repo_access r i "system:auto-assignment" now s with Ok x => x | Err _ => (false, s) end
  end.

(** Whether some grant is new, and the tables. *)
Definition auto_assign_golden_repo (r : string) (now : Z) (s : DB) : bool * DB :=
  let '(a, s1) := auto_grant r DEFAULT_GROUP_ADMINS now s in
  let '(b, s2) := auto_grant r DEFAULT_GROUP_POWERUSERS now s1 in
  (a || b, s2).

(** *** Seeding at start-up *)

(** A user with the role [admin], or any other; [assign_ok]: the statement succeeds. *)
Record seed_user := { username : string; role_admin : bool; assign_ok : bool }.

Definition seed_one (admins users : Z) (now : Z) (acc : (nat * nat) * DB) (u : seed_user) : (nat * nat) * DB :=
  let '((a, r), s) := acc in
  match get_user_group (username u) s with
  | Some _ => acc
  | None =>
      let by_ := if role_admin u then "system:admin-migration" else "system:user-migration" in
      if assign_ok u then
        match assign_user_to_group (username u) (if role_admin u then admins else users) by_ now s with
        | Ok s' => (if role_admin u then (S a, r) else (a, S r), s')
        | Err _ => acc
        end
      else acc
  end.

Definition seed_users_to_groups (us : list seed_user) (now : Z) (s : DB) : (nat * nat) * DB :=
  match get_group_by_name DEFAULT_GROUP_ADMINS s, get_group_by_name DEFAULT_GROUP_USERS s with
  | Some (a, _), Some (u, _) => foldl (seed_one a u now) ((0%nat, 0%nat), s) us
  | _, _ => ((0%nat, 0%nat), s)
  end.

(** A repository without alias and name is skipped. *)
Definition seed_existing_golden_repos (rs : list (option string)) (now : Z) (s : DB) : nat * (bool * DB) :=
  foldl (λ acc r, match r with
                  | None | Some "" => acc
                  | Some r => let '(n, (b, s)) := acc in let '(b', s') := auto_assign_golden_repo r now s in (S n, (b || b', s'))
                  end) (0%nat, (false, s)) rs.

End database.

(** ** Access filtering *)

(** The value of a key or attribute. *)
Inductive field := Absent | PyNone | PyStr (s : string).

(** A result is a dictionary or an object; [metadata] is the attribute of that name with
    its [referenced_repo]. *)
Record QueryResult := mkResult {
  is_dict : bool; repository_alias : field; source_repo : field; metadata : option (option string); body : string }.

Definition _get_repo_alias (r : QueryResult) : string :=
  let alias := match repository_alias r with
               | PyStr (String c a) => String c a
               | _ => match source_repo r with Absent => "" | PyNone => "None" | PyStr a => a end
               end%string in
  default alias (strip_suffix "-global" alias).

Definition DEFAULT_OVER_FETCH_FACTOR : Z := 2.
Definition calculate_over_fetch_limit (requested_limit : Z) : Z := requested_limit * DEFAULT_OVER_FETCH_FACTOR.

Definition is_admin_user (u : string) (s : DB) : bool :=
  match get_user_group u s with Some (_, g) => bool_decide (name g = DEFAULT_GROUP_ADMINS) | None => false end.

(** A frontmatter: [scope] and [referenced_repo]. *)
Record Memory := { scope : option string; referenced_repo : option string }.

Definition is_hex (c : Ascii.ascii) : bool :=
  let n := Ascii.N_of_ascii c in ((48 <=? n) && (n <=? 57) || (97 <=? n) && (n <=? 102))%N.

(** [_MEMORY_FILE_RE] on a name that ends with [.md], given by its stem. *)
Definition memory_stem (stem : string) : bool :=
  Nat.eqb (String.length stem) 32 && forallb is_hex (String.list_ascii_of_string stem).

Section filtering.
Context (lower : string → string) (collate : string → string → bool).
Context (lookup_memory : string → option Memory).  (** [_lookup_memory_metadata] *)

Definition get_all_repo_names (s : DB) : gset string :=
  ⋃ ((λ ig, list_to_set (get_group_repos lower collate ig.1 s)) <$> get_all_groups collate s).

Definition get_accessible_repos (u : string) (s : DB) : gset string :=
  match get_user_group u s with
  | None => {[CIDX_META_REPO]}
  | Some (i, g) =>
      if decide (name g = DEFAULT_GROUP_ADMINS) then get_all_repo_names s ∪ {[CIDX_META_REPO]}
      else list_to_set (get_group_repos lower collate i s) ∪ {[CIDX_META_REPO]}
  end.

Definition filter_query_results (rs : list QueryResult) (u : string) (s : DB) : list QueryResult :=
  match rs with
  | [] => []
  | _ => if is_admin_user u s then rs else let accessible := get_accessible_repos u s in filter (λ r, _get_repo_alias r ∈ accessible) rs
  end.

Definition filter_repo_listing (repos : list string) (u : string) (s : DB) : list string :=
  match repos with
  | [] => []
  | _ => if is_admin_user u s then repos else let accessible := get_accessible_repos u s in filter (λ r, r ∈ accessible) repos
  end.

(** [getattr] finds no attribute [metadata] on a dictionary. *)
Definition meta_visible (accessible : gset string) (r : QueryResult) : bool :=
  match is_dict r, metadata r with
  | false, Some (Some repo) => bool_decide (repo ∈ accessible)
  | _, _ => true
  end.

Definition filter_cidx_meta_results (rs : list QueryResult) (u : string) (s : DB) : list QueryResult :=
  match rs with
  | [] => []
  | _ => if is_admin_user u s then rs else let accessible := get_accessible_repos u s in filter (λ r, meta_visible accessible r) rs
  end.

Definition _is_memory_file_accessible (stem : string) (accessible : gset string) : bool :=
  match lookup_memory stem with
  | None => false
  | Some m =>
      match scope m with
      | Some "global" => true
      | Some "repo" | Some "file" =>
          match referenced_repo m with
          | None | Some "" => false
          | Some r => bool_decide (default r (strip_suffix "-global" r) ∈ accessible)
          end
      | _ => false
      end
  end%string.

Definition file_visible (accessible aliases : gset string) (filename : string) : bool :=
  match strip_suffix ".md" filename with
  | None => true
  | Some stem =>
      if memory_stem stem then _is_memory_file_accessible stem accessible
      else negb (bool_decide (stem ∈ aliases)) || bool_decide (stem ∈ accessible)
  end.

(** *** The service of a process *)

(** The tables, which other processes share, and the cache of the aliases in use with
    the time it was filled. *)
Record Service := mkService { db : DB; repo_aliases_cache : option (gset string * Z) }.

Definition REPO_ALIASES_CACHE_TTL : Z := 60 * 1000000.

Definition _get_all_repo_aliases (now : Z) (v : Service) : gset string * Service :=
  let fresh := get_all_repo_names (db v) in
  match repo_aliases_cache v with
  | Some (a, t) => if now - t <? REPO_ALIASES_CACHE_TTL then (a, v) else (fresh, mkService (db v) (Some (fresh, now)))
  | None => (fresh, mkService (db v) (Some (fresh, now)))
  end.

Definition invalidate_repo_aliases_cache (v : Service) : Service := mkService (db v) None.

Definition filter_cidx_meta_files (files : list string) (u : string) (now : Z) (v : Service) : list string * Service :=
  match files with
  | [] => ([], v)
  | _ =>
      if is_admin_user u (db v) then (files, v)
      else let accessible := get_accessible_repos u (db v) in
           let '(aliases, v') := _get_all_repo_aliases now v in
           (filter (λ f, file_visible accessible aliases f) files, v')
  end.

(** The requests that change the tables, as the process's manager handles them. *)
Inductive op :=
| OCreate (n d : string) (now : Z) | OUpdate (i : Z) (n d : option string) | ODelete (i : Z)
| OAssign (u : string) (i : Z) (by_ : string) (now : Z) | ORemove (u : string) (i : Z)
| OGrant (r : string) (i : Z) (by_ : string) (now : Z) | ORevoke (r : string) (i : Z)
| OAutoAssign (r : string) (now : Z) | OSeedUsers (us : list seed_user) (now : Z) | OSeedRepos (rs : list (option string)) (now : Z)
| OBootstrap (now : Z).

(** The tables after a request, and whether the callbacks run; an exception changes
    nothing.  [postgres]: revocation returns without them. *)
Definition exec (postgres : bool) (o : op) (s : DB) : DB * bool :=
  match o with
  | OCreate n d now => match create_group lower n d now s with Ok (_, s') => (s', false) | Err _ => (s, false) end
  | OUpdate i n d => match update_group lower i n d s with Ok (_, s') => (s', false) | Err _ => (s, false) end
  | ODelete i => match delete_group i s with Ok (_, s') => (s', false) | Err _ => (s, false) end
  | OAssign u i by_ now => match assign_user_to_group u i by_ now s with Ok s' => (s', false) | Err _ => (s, false) end
  | ORemove u i => ((remove_user_from_group u i s).2, false)
  | OGrant r i by_ now => match grant_repo_access r i by_ now s with Ok (b, s') => (s', b) | Err _ => (s, false) end
  | ORevoke r i => match revoke_repo_access r i s with Ok (b, s') => (s', b && negb postgres) | Err _ => (s, false) end
  | OAutoAssign r now => let '(b, s') := auto_assign_golden_repo lower r now s in (s', b)
  | OSeedUsers us now => ((seed_users_to_groups lower us now s).2, false)
  | OSeedRepos rs now => let '(_, (b, s')) := seed_existing_golden_repos lower rs now s in (s', b)
  | OBootstrap now => (bootstrap_default_groups now s, false)
  end.

Definition run (postgres : bool) (os : list op) (s : DB) : DB := foldl (λ s o, (exec postgres o s).1) s os.

Definition perform (postgres : bool) (o : op) (v : Service) : Service :=
  let '(s', changed) := exec postgres o (db v) in
  let v' := mkService s' (repo_aliases_cache v) in
  if changed then invalidate_repo_aliases_cache v' else v'.

(** One process that alone changes the tables: requests and listings of cidx-meta. *)
Inductive sstep (postgres : bool) : Service → Service → Prop :=
| sstep_request o v : sstep postgres v (perform postgres o v)
| sstep_listing files u now v : sstep postgres v (filter_cidx_meta_files files u now v).2.

Definition started (now : Z) : Service := mkService (bootstrap_default_groups now empty_db) None.

End filtering.

(** ** Requests as elementary changes *)

Section changes.
Context (lower : string → string).

(** The elementary changes, with the assignments and grants that may be among them. *)
Inductive change (A G : string → Z → Prop) (s : DB) : DB → Prop :=
| change_create g : is_default g = false → (∀ j h, groups s !! j = Some h → lower (name h) ≠ lower (name g)) →
    change A G s (insert_group g s)
| change_update i g g' : groups s !! i = Some g → is_default g = false →
    (∀ j h, groups s !! j = Some h → j ≠ i → lower (name h) ≠ lower (name g')) → change A G s (with_groups (insert i g') s)
| change_delete i g : groups s !! i = Some g → is_default g = false → (∀ u m, members s !! u = Some m → group_id m ≠ i) →
    change A G s (mkDB (delete i (groups s)) (filter (λ um, group_id um.2 ≠ i) (members s)) (filter (λ rg, rg.1.2 ≠ i) (grants s)) (next_id s))
| change_assign u m : is_Some (groups s !! group_id m) → A u (group_id m) → change A G s (with_members (insert u m) s)
| change_remove u : change A G s (with_members (delete u) s)
| change_grant r i g : is_Some (groups s !! i) → G r i → change A G s (with_grants (insert (r, i) g) s)
| change_revoke r i : change A G s (with_grants (delete (r, i)) s).

(** The three default groups have the first identifiers; names differ in more than case;
    memberships and grants refer to groups. *)
Record Inv (s : DB) : Prop := {
  inv_default : ∀ k n, DEFAULT_GROUPS.*1 !! k = Some n → ∃ g, groups s !! (Z.of_nat k + 1) = Some g ∧ name g = n ∧ is_default g = true;
  inv_fresh : ∀ i g, groups s !! i = Some g → i < next_id s;
  inv_unique : ∀ i j g h, groups s !! i = Some g → groups s !! j = Some h → lower (name g) = lower (name h) → i = j;
  inv_member : ∀ u m, members s !! u = Some m → is_Some (groups s !! group_id m);
  inv_grant : ∀ r i, is_Some (grants s !! (r, i)) → is_Some (groups s !! i) }.

Lemma inv_change A G s s' : change A G s s' → Inv s → Inv s'.
Proof.
  intros Hc [Hd Hf Hu Hm Hg].
  destruct Hc as [g Hdef Hn|i g g' Hi Hdef Hn|i g Hi Hdef Hno|u m Hi _|u|r i g Hi _|r i].
  - assert (groups s !! next_id s = None) as Hnew by (apply eq_None_not_Some; intros [h Hh]; pose proof (Hf _ _ Hh); lia).
    assert (∀ i, is_Some (groups s !! i) → is_Some (groups (insert_group g s) !! i)) as Hk.
    { intros i [h Hh]. cbn. rewrite lookup_insert_ne; [eauto|congruence]. }
    split; cbn.
    + intros k n Hk'. destruct (Hd k n Hk') as (h & Hh & ?). exists h. rewrite lookup_insert_ne; [done|congruence].
    + intros i h [[<- _]|[_ Hh]]%lookup_insert_Some; [lia|]. pose proof (Hf _ _ Hh). lia.
    + intros i j h h' [[<- <-]|[_ Hi]]%lookup_insert_Some [[<- <-]|[_ Hj]]%lookup_insert_Some E; [done| | |by eapply Hu].
      * by destruct (Hn j h' Hj).
      * by destruct (Hn i h Hi).
    + intros u m Hu'. apply Hk. by eapply Hm.
    + intros r i Hr. apply Hk. by eapply Hg.
  - assert (∀ j, is_Some (groups s !! j) → is_Some (<[i := g']> (groups s) !! j)) as Hk.
    { intros j Hj. destruct (decide (i = j)) as [->|]; [rewrite lookup_insert_eq; eauto|by rewrite lookup_insert_ne]. }
    split; cbn.
    + intros k n Hk'. destruct (Hd k n Hk') as (h & Hh & ? & ?). exists h. rewrite lookup_insert_ne; [done|]. intros ->. simplify_eq. congruence.
    + intros j h [[<- _]|[_ Hh]]%lookup_insert_Some; eauto.
    + intros j k h h' [[<- <-]|[Hj Hjh]]%lookup_insert_Some [[<- <-]|[Hk' Hkh]]%lookup_insert_Some E; [done| | |by eapply Hu].
      * by destruct (Hn k h' Hkh).
      * by destruct (Hn j h Hjh).
    + intros u m Hu'. apply Hk. by eapply Hm.
    + intros r j Hr. apply Hk. by eapply Hg.
  - split; cbn.
    + intros k n Hk'. destruct (Hd k n Hk') as (h & Hh & ? & ?). exists h. rewrite lookup_delete_ne; [done|]. intros ->. simplify_eq. congruence.
    + intros j h [_ Hh]%lookup_delete_Some. eauto.
    + intros j k h h' [_ Hj]%lookup_delete_Some [_ Hk]%lookup_delete_Some. by eapply Hu.
    + intros u m [Hu' ?]%map_lookup_filter_Some. cbn in *. rewrite lookup_delete_ne by done. by eapply Hm.
    + intros r j [x [Hx ?]%map_lookup_filter_Some]. cbn in *. rewrite lookup_delete_ne by done. eapply Hg. eauto.
  - split; cbn; [done|done|done| |done]. intros u' m' [[<- <-]|[_ H]]%lookup_insert_Some; eauto.
  - split; cbn; [done|done|done| |done]. intros u' m' [_ H]%lookup_delete_Some. eauto.
  - split; cbn; [done|done|done|done|]. intros r' j [x [[[= <- <-] _]|[_ H]]%lookup_insert_Some]; eauto.
  - split; cbn; [done|done|done|done|]. intros r' j [x [_ H]%lookup_delete_Some]. eauto.
Qed.

Lemma change_default A G s s' i g : change A G s s' → groups s !! i = Some g → is_default g = true → Inv s → groups s' !! i = Some g.
Proof.
  intros Hc Hi Hdef HI. destruct Hc as [h _ _|j h h' Hj Hjd _|j h Hj Hjd _|u m _ _|u|r j h _ _|r j]; cbn; try done.
  - rewrite lookup_insert_ne; [done|]. pose proof (inv_fresh s HI i g Hi). lia.
  - rewrite lookup_insert_ne; [done|]. intros <-. congruence.
  - rewrite lookup_delete_ne; [done|]. intros <-. congruence.
Qed.

Lemma change_members A G s s' u m : change A G s s' → members s' !! u = Some m → members s !! u = Some m ∨ A u (group_id m).
Proof.
  intros Hc H. destruct Hc as [| |i g _ _ _|v m' _ HA|v| |]; cbn in H; try (by left).
  - apply map_lookup_filter_Some in H as [? _]. by left.
  - apply lookup_insert_Some in H as [[<- <-]|[_ ?]]; [by right|by left].
  - apply lookup_delete_Some in H as [_ ?]. by left.
Qed.

Lemma change_grants A G s s' r i : change A G s s' → is_Some (grants s' !! (r, i)) → is_Some (grants s !! (r, i)) ∨ G r i.
Proof.
  intros Hc [x H]. destruct Hc as [| |j g _ _ _| | |r' j g _ HG|r' j]; cbn in H; try (left; by eexists).
  - apply map_lookup_filter_Some in H as [? _]. left. by eexists.
  - apply lookup_insert_Some in H as [[[= <- <-] <-]|[_ ?]]; [by right|left; by eexists].
  - apply lookup_delete_Some in H as [_ ?]. left. by eexists.
Qed.

Definition changes (A G : string → Z → Prop) : DB → DB → Prop := rtc (change A G).

Lemma changes_mono (A A' G G' : string → Z → Prop) s s' :
  (∀ u i, A u i → A' u i) → (∀ r i, G r i → G' r i) → changes A G s s' → changes A' G' s s'.
Proof.
  intros HA HG. induction 1 as [|x y z Hxy _ IH]; [apply rtc_refl|]. eapply rtc_l; [|exact IH].
  destruct Hxy; [eapply change_create|eapply change_update|eapply change_delete|eapply change_assign|eapply change_remove|eapply change_grant|eapply change_revoke]; eauto.
Qed.

Lemma inv_changes A G s s' : changes A G s s' → Inv s → Inv s'.
Proof. induction 1; [done|]. intros. eauto using inv_change. Qed.

Lemma changes_members A G s s' u m : changes A G s s' → members s' !! u = Some m → members s !! u = Some m ∨ A u (group_id m).
Proof. induction 1 as [|x y z Hxy _ IH]; [by left|]. intros [H|H]%IH; [by eapply change_members|by right]. Qed.

Lemma changes_grants A G s s' r i : changes A G s s' → is_Some (grants s' !! (r, i)) → is_Some (grants s !! (r, i)) ∨ G r i.
Proof. induction 1 as [|x y z Hxy _ IH]; [by left|]. intros [H|H]%IH; [by eapply change_grants|by right]. Qed.

(** *** The changes of each request *)

Lemma named_spec n s i g : (i, g) ∈ named lower n s ↔ groups s !! i = Some g ∧ lower (name g) = lower n.
Proof. unfold named. rewrite list_elem_of_filter, elem_of_map_to_list. cbn. tauto. Qed.

Lemma by_name_default s k n : Inv s → DEFAULT_GROUPS.*1 !! k = Some n →
  ∃ g, get_group_by_name lower n s = Some (Z.of_nat k + 1, g) ∧ groups s !! (Z.of_nat k + 1) = Some g ∧ is_default g = true.
Proof.
  intros HI Hk. destruct (inv_default s HI k n Hk) as (g & Hg & <- & Hd). exists g. split_and!; [|done..].
  unfold get_group_by_name. destruct (named lower (name g) s) as [|[i h] l] eqn:E.
  - assert ((Z.of_nat k + 1, g) ∈ @nil (Z * Group)) as H; [|by apply elem_of_nil in H]. rewrite <- E. by apply named_spec.
  - assert ((i, h) ∈ named lower (name g) s) as [Hi Hl]%named_spec by (rewrite E; left). cbn.
    pose proof (inv_unique s HI _ _ _ _ Hi Hg Hl) as ->. simplify_eq. done.
Qed.

(** The assignments and the grants of a request. *)
Definition assigns (o : op) (u : string) (i : Z) : Prop :=
  match o with
  | OAssign u' j _ _ => u' = u ∧ j = i
  | OSeedUsers us _ => ∃ x, x ∈ us ∧ username x = u ∧ (i = 1 → role_admin x = true)
  | _ => False
  end.

Definition grants_of (o : op) (r : string) (i : Z) : Prop :=
  match o with
  | OGrant r' j _ _ => r' = r ∧ j = i
  | OAutoAssign r' _ => r' = r ∧ i ∈ [1; 2]
  | OSeedRepos rs _ => Some r ∈ rs ∧ i ∈ [1; 2]
  | _ => False
  end.

Lemma grant_changes A (G : string → Z → Prop) r i by_ now s b s' : grant_repo_access r i by_ now s = Ok (b, s') → (b = true → G r i) →
  changes A G s s'.
Proof.
  unfold grant_repo_access, get_group. destruct (groups s !! i) as [g|] eqn:Hi; [|done]. destruct (granted r i s); intros [= <- <-] HG.
  - apply rtc_refl.
  - apply rtc_once, change_grant; eauto.
Qed.

Lemma auto_grant_changes A (G : string → Z → Prop) k n r now s b s' : Inv s → DEFAULT_GROUPS.*1 !! k = Some n →
  auto_grant lower r n now s = (b, s') → (b = true → G r (Z.of_nat k + 1)) → changes A G s s'.
Proof.
  intros HI Hk. unfold auto_grant. destruct (by_name_default s k n HI Hk) as (g & -> & Hg & _).
  unfold grant_repo_access, get_group. rewrite Hg. destruct (granted _ _ s); intros [= <- <-] HG; [apply rtc_refl|].
  apply rtc_once, change_grant; eauto.
Qed.

Lemma auto_assign_changes A (G : string → Z → Prop) r now s b s' : Inv s → auto_assign_golden_repo lower r now s = (b, s') →
  (b = true → ∀ i, i ∈ [1; 2] → G r i) → changes A G s s'.
Proof.
  intros HI. unfold auto_assign_golden_repo. destruct (auto_grant lower r DEFAULT_GROUP_ADMINS now s) as [a s1] eqn:E1.
  destruct (auto_grant lower r DEFAULT_GROUP_POWERUSERS now s1) as [c s2] eqn:E2. intros [= <- <-] HG.
  assert (changes A G s s1) as H1.
  { eapply (auto_grant_changes A G 0); [done|done|exact E1|]. intros ->. apply HG; [done|set_solver]. }
  etrans; [exact H1|]. eapply (auto_grant_changes A G 1); [by eapply inv_changes|done|exact E2|]. intros ->.
  apply HG; [apply orb_true_r|set_solver].
Qed.

Lemma seed_users_changes us now s n s' : Inv s → seed_users_to_groups lower us now s = (n, s') →
  changes (assigns (OSeedUsers us now)) (λ _ _, False) s s'.
Proof.
  intros HI. unfold seed_users_to_groups.
  destruct (by_name_default s 0 DEFAULT_GROUP_ADMINS HI eq_refl) as (ga & -> & _).
  destruct (by_name_default s 2 DEFAULT_GROUP_USERS HI eq_refl) as (gu & -> & _). cbn [Z.of_nat Z.add Pos.of_succ_nat Pos.succ Pos.add].
  assert (∀ l, (∀ x, x ∈ l → x ∈ us) → ∀ c s0, foldl (seed_one 1 3 now) (c, s0) l = (n, s') →
    changes (assigns (OSeedUsers us now)) (λ _ _, False) s0 s') as H; [|by apply H].
  induction l as [|x l IH]; intros Hl c s0; cbn [foldl]; [intros [= -> ->]; apply rtc_refl|]. unfold seed_one at 2. destruct c as [a r].
  destruct (get_user_group (username x) s0); [apply IH; set_solver|]. destruct (assign_ok x); [|apply IH; set_solver].
  unfold assign_user_to_group, get_group. destruct (groups s0 !! _) as [g|] eqn:Hg; [|apply IH; set_solver].
  intros Hf. eapply rtc_l; [|eapply IH; [set_solver|exact Hf]]. apply change_assign; cbn; [rewrite Hg; eauto|].
  exists x. split_and!; [set_solver|done|]. by destruct (role_admin x).
Qed.

Lemma seed_repos_changes A rs now s n b s' : Inv s → seed_existing_golden_repos lower rs now s = (n, (b, s')) →
  changes A (λ r i, b = true ∧ grants_of (OSeedRepos rs now) r i) s s'.
Proof.
  intros HI. unfold seed_existing_golden_repos.
  assert (∀ l, (∀ x, x ∈ l → x ∈ rs) → ∀ c b0 s0, Inv s0 →
    foldl (λ acc r, match r with None | Some "" => acc | Some r => let '(n, (b, s)) := acc in
                      let '(b', s') := auto_assign_golden_repo lower r now s in (S n, (b || b', s')) end) (c, (b0, s0)) l = (n, (b, s')) →
    (b0 = true → b = true) ∧ changes A (λ r i, b = true ∧ grants_of (OSeedRepos rs now) r i) s0 s') as H; [|intros Hf; by eapply H].
  induction l as [|x l IH]; intros Hl c b0 s0 HI0; cbn [foldl]; [intros [= -> -> ->]; split; [done|apply rtc_refl]|].
  destruct x as [[|ch r]|]; [apply IH; set_solver| |apply IH; set_solver].
  destruct (auto_assign_golden_repo lower (String ch r) now s0) as [b1 s1] eqn:E. intros Hf.
  assert (changes A (λ r' i, b1 = true ∧ r' = String ch r ∧ i ∈ [1; 2]) s0 s1) as H1 by (eapply auto_assign_changes; [done|exact E|done]).
  destruct (IH ltac:(set_solver) _ _ _ ltac:(by eapply inv_changes) Hf) as [Hb H2]. split; [intros ->; by apply Hb|].
  etrans; [|exact H2]. eapply changes_mono; [done| |exact H1]. intros r' i (-> & -> & Hi). rewrite orb_true_r in Hb.
  split; [by apply Hb|]. split; [|done]. apply Hl. left.
Qed.

Lemma bootstrap_id now s : Inv s → bootstrap_default_groups now s = s.
Proof.
  intros HI. unfold bootstrap_default_groups. assert (∀ d, d ∈ DEFAULT_GROUPS → insert_default now d s = s) as H.
  { intros d [k Hk]%list_elem_of_lookup. unfold insert_default.
    destruct (inv_default s HI k d.1) as (g & Hg & Hn & _); [by rewrite list_lookup_fmap, Hk|].
    rewrite decide_False; [done|]. intros E. assert ((Z.of_nat k + 1, g) ∈ @nil (Z * Group)) as Hin; [|by apply elem_of_nil in Hin].
    rewrite <- E. apply list_elem_of_filter. split; [done|by apply elem_of_map_to_list]. }
  cbn [foldl DEFAULT_GROUPS]. rewrite !H by set_solver. done.
Qed.

#[local] Arguments bootstrap_default_groups : simpl never.

Lemma exec_changes pg o s s' b : Inv s → exec lower pg o s = (s', b) → changes (assigns o) (λ r i, b = true ∧ grants_of o r i) s s'.
Proof.
  intros HI. destruct o as [n d now|i n d|i|u i by_ now|u i|r i by_ now|r i|r now|us now|rs now|now]; cbn.
  - unfold create_group. destruct (named lower n s) as [|x l] eqn:E; intros [= <- <-]; [|apply rtc_refl].
    apply rtc_once, change_create; [done|]. cbn. intros j h Hj Hl. assert ((j, h) ∈ @nil (Z * Group)) as H; [|by apply elem_of_nil in H].
    rewrite <- E. by apply named_spec.
  - unfold update_group, get_group. destruct (groups s !! i) as [g|] eqn:Hi; [|intros [= <- <-]; apply rtc_refl].
    destruct (is_default g) eqn:Hd; [intros [= <- <-]; apply rtc_refl|].
    assert (∀ n', (∀ m, n' = Some m → filter (λ ig, ig.1 ≠ i) (named lower m s) = []) →
      ∀ j h, groups s !! j = Some h → j ≠ i → lower (name h) ≠ lower (default (name g) n')) as Hfree.
    { intros [m|] Hm j h Hj Hne Hl; cbn in Hl.
      - assert ((j, h) ∈ @nil (Z * Group)) as H; [|by apply elem_of_nil in H]. rewrite <- (Hm m eq_refl).
        apply list_elem_of_filter. split; [done|]. by apply named_spec.
      - apply Hne. by eapply (inv_unique s HI). }
    destruct n as [n|], d as [d|]; try (destruct (filter _ _) eqn:Ef); intros [= <- <-]; try apply rtc_refl;
      (apply rtc_once; eapply change_update; [done|done|cbn]).
    + by apply (Hfree (Some n)); intros ? [= <-].
    + by apply (Hfree (Some n)); intros ? [= <-].
    + by apply (Hfree None).
  - unfold delete_group, get_group. destruct (groups s !! i) as [g|] eqn:Hi; [|intros [= <- <-]; apply rtc_refl].
    destruct (is_default g) eqn:Hd; [intros [= <- <-]; apply rtc_refl|].
    destruct (get_user_count_in_group i s) eqn:Ec; intros [= <- <-]; [|apply rtc_refl].
    apply rtc_once. eapply change_delete; [done|done|]. intros u m Hu Hm. unfold get_user_count_in_group, get_users_in_group in Ec.
    rewrite length_fmap in Ec. apply nil_length_inv in Ec. assert ((u, m) ∈ @nil (string * Membership)) as H; [|by apply elem_of_nil in H].
    rewrite <- Ec. apply list_elem_of_filter. split; [done|by apply elem_of_map_to_list].
  - unfold assign_user_to_group, get_group. destruct (groups s !! i) as [g|] eqn:Hi; intros [= <- <-]; [|apply rtc_refl].
    apply rtc_once, change_assign; cbn; [rewrite Hi; eauto|done].
  - unfold remove_user_from_group. destruct (members s !! u); [destruct (decide _)|]; intros [= <- <-]; try apply rtc_refl. apply rtc_once, change_remove.
  - destruct (grant_repo_access r i by_ now s) as [[c s1]|] eqn:E; intros [= <- <-]; [|apply rtc_refl]. by eapply grant_changes.
  - unfold revoke_repo_access. destruct (decide _); [intros [= <- <-]; apply rtc_refl|]. destruct (granted r i s); intros [= <- <-]; [|apply rtc_refl].
    apply rtc_once, change_revoke.
  - destruct (auto_assign_golden_repo lower r now s) as [c s1] eqn:E. intros [= <- <-]. by eapply auto_assign_changes.
  - destruct (seed_users_to_groups lower us now s) as [c s1] eqn:E. intros [= <- <-].
    eapply changes_mono; [done| |by eapply seed_users_changes]. done.
  - destruct (seed_existing_golden_repos lower rs now s) as [c [b1 s1]] eqn:E. intros [= <- <-]. by eapply seed_repos_changes.
  - intros [= <- <-]. rewrite bootstrap_id by done. apply rtc_refl.
Qed.

End changes.

(** ** What a user may read *)

(** By the tables alone: cidx-meta, everything for the administrators, else what was
    granted to the user's group. *)
Definition can_read (u r : string) (s : DB) : bool :=
  bool_decide (r = CIDX_META_REPO)
  || match members s !! u with Some m => bool_decide (group_id m = 1) || granted r (group_id m) s | None => false end.

Lemma list_filter_ext {A} (P Q : A → Prop) `{!∀ x, Decision (P x), !∀ x, Decision (Q x)} (l : list A) :
  (∀ x, x ∈ l → P x ↔ Q x) → filter P l = filter Q l.
Proof.
  induction l as [|x l IH]; intros HPQ; [done|]. rewrite !filter_cons, IH by (intros; apply HPQ; by right).
  specialize (HPQ x ltac:(by left)). repeat case_decide; tauto.
Qed.

Section visibility.
Context (lower : string → string).

Lemma user_group_spec s u m : Inv lower s → members s !! u = Some m → ∃ g, get_user_group u s = Some (group_id m, g) ∧ groups s !! group_id m = Some g.
Proof.
  intros HI Hm. destruct (inv_member lower s HI u m Hm) as [g Hg]. exists g. split; [|done]. unfold get_user_group. by rewrite Hm; cbn; rewrite Hg.
Qed.

Lemma admins_name s i g : Inv lower s → groups s !! i = Some g → name g = DEFAULT_GROUP_ADMINS ↔ i = 1.
Proof.
  intros HI Hg. destruct (inv_default lower s HI 0 DEFAULT_GROUP_ADMINS eq_refl) as (a & Ha & Hn & _). split.
  - intros E. eapply (inv_unique lower s HI); [exact Hg|exact Ha|congruence].
  - intros ->. change (Z.of_nat 0 + 1) with 1 in Ha. congruence.
Qed.

Lemma is_admin_spec s u : Inv lower s → is_admin_user u s = true ↔ ∃ m, members s !! u = Some m ∧ group_id m = 1.
Proof.
  intros HI. unfold is_admin_user. destruct (members s !! u) as [m|] eqn:Hm.
  - destruct (user_group_spec s u m HI Hm) as (g & -> & Hg). rewrite bool_decide_eq_true, (admins_name s (group_id m) g) by done. naive_solver.
  - unfold get_user_group. rewrite Hm. cbn. naive_solver.
Qed.

Lemma admin_reads s u r : Inv lower s → is_admin_user u s = true → can_read u r s = true.
Proof. intros HI (m & Hm & E)%is_admin_spec; [|done]. unfold can_read. by rewrite Hm, E, bool_decide_eq_true_2 with (P := 1 = 1), orb_true_r. Qed.

Context (collate : string → string → bool).

Lemma group_repos_spec i s r : r ∈ get_group_repos lower collate i s ↔ r = CIDX_META_REPO ∨ is_Some (grants s !! (r, i)).
Proof.
  unfold get_group_repos. rewrite elem_of_cons, merge_sort_Permutation, list_elem_of_fmap. f_equiv. split.
  - intros ([[r' j] x] & -> & [Hj Hx%elem_of_map_to_list]%list_elem_of_filter). cbn in *. subst. eauto.
  - intros [x Hx]. exists ((r, i), x). split; [done|]. apply list_elem_of_filter. by rewrite elem_of_map_to_list.
Qed.

Lemma all_repos_spec s r : Inv lower s → r ∈ get_all_repo_names lower collate s ↔ r = CIDX_META_REPO ∨ ∃ i, is_Some (grants s !! (r, i)).
Proof.
  intros HI. unfold get_all_repo_names, get_all_groups. rewrite elem_of_union_list. setoid_rewrite list_elem_of_fmap. setoid_rewrite merge_sort_Permutation.
  split.
  - intros (X & ([i g] & -> & Hg) & Hr). apply elem_of_list_to_set, group_repos_spec in Hr. naive_solver.
  - intros H. assert (∃ i, is_Some (groups s !! i) ∧ (r = CIDX_META_REPO ∨ is_Some (grants s !! (r, i)))) as (i & [g Hg] & Hr).
    { destruct H as [->|[i Hi]].
      - destruct (inv_default lower s HI 0 DEFAULT_GROUP_ADMINS eq_refl) as (a & Ha & _). eauto.
      - exists i. split; [by eapply inv_grant|by right]. }
    eexists. split; [exists (i, g); split; [done|by apply elem_of_map_to_list]|]. by apply elem_of_list_to_set, group_repos_spec.
Qed.

Lemma accessible_spec s u r : Inv lower s → is_admin_user u s = false → r ∈ get_accessible_repos lower collate u s ↔ can_read u r s = true.
Proof.
  intros HI Hna. unfold get_accessible_repos, can_read. rewrite orb_true_iff, bool_decide_eq_true. destruct (members s !! u) as [m|] eqn:Hm.
  - destruct (user_group_spec s u m HI Hm) as (g & -> & Hg). assert (group_id m ≠ 1) as H1.
    { intros E. apply not_true_iff_false in Hna. apply Hna, is_admin_spec; eauto. }
    rewrite decide_False by (by rewrite (admins_name s (group_id m) g)). rewrite bool_decide_eq_false_2 by done. cbn [orb].
    unfold granted. rewrite bool_decide_eq_true, elem_of_union, elem_of_list_to_set, elem_of_singleton, group_repos_spec. tauto.
  - assert (get_user_group u s = None) as -> by (unfold get_user_group; by rewrite Hm). rewrite elem_of_singleton. naive_solver.
Qed.

Lemma query_results_spec rs u s : Inv lower s → filter_query_results lower collate rs u s = filter (λ r, can_read u (_get_repo_alias r) s) rs.
Proof.
  intros HI. unfold filter_query_results. destruct rs as [|r0 rs0]; [done|]. destruct (is_admin_user u s) eqn:Ha.
  - symmetry. apply list_filter_all. intros r _. by rewrite admin_reads.
  - apply list_filter_ext. intros r _. rewrite accessible_spec by done. by rewrite Is_true_true.
Qed.

Lemma repo_listing_spec rs u s : Inv lower s → filter_repo_listing lower collate rs u s = filter (λ r, can_read u r s) rs.
Proof.
  intros HI. unfold filter_repo_listing. destruct rs as [|r0 rs0]; [done|]. destruct (is_admin_user u s) eqn:Ha.
  - symmetry. apply list_filter_all. intros r _. by rewrite admin_reads.
  - apply list_filter_ext. intros r _. rewrite accessible_spec by done. by rewrite Is_true_true.
Qed.

End visibility.

(** ** Properties *)

Section properties.
Context (lower : string → string).
(** [LOWER] leaves the names of the default groups alone. *)
Context (lower_default : ∀ n, n ∈ DEFAULT_GROUPS.*1 → lower n = n).

Lemma tables_inv_start now : Inv lower (bootstrap_default_groups now empty_db).
Proof using lower_default.
  assert (lower "admins" = "admins" ∧ lower "powerusers" = "powerusers" ∧ lower "users" = "users")%string as (L1 & L2 & L3)
    by (split_and!; apply lower_default; vm_compute; set_solver).
  pose (default_group k := mkGroup (DEFAULT_GROUPS !!! k).1 (DEFAULT_GROUPS !!! k).2 true now).
  set (ga := default_group 0%nat). set (gp := default_group 1%nat). set (gu := default_group 2%nat).
  assert (bootstrap_default_groups now empty_db = mkDB (<[3 := gu]> (<[2 := gp]> (<[1 := ga]> ∅))) ∅ ∅ 4) as -> by (by vm_compute).
  split; cbn.
  - intros k n. destruct k as [|[|[|k]]]; intros [= <-]; [exists ga|exists gp|exists gu]; by split_and!.
  - intros i g [[<- _]|[_ [[<- _]|[_ [[<- _]|[_ H]]%lookup_insert_Some]]%lookup_insert_Some]]%lookup_insert_Some; [lia..|done].
  - intros i j g h [[<- <-]|[_ [[<- <-]|[_ [[<- <-]|[_ H]]%lookup_insert_Some]]%lookup_insert_Some]]%lookup_insert_Some; [..|done];
      (intros [[<- <-]|[_ [[<- <-]|[_ [[<- <-]|[_ H]]%lookup_insert_Some]]%lookup_insert_Some]]%lookup_insert_Some; [..|done]); cbn;
      unfold DEFAULT_GROUP_ADMINS, DEFAULT_GROUP_POWERUSERS, DEFAULT_GROUP_USERS; rewrite ?L1, ?L2, ?L3; done.
  - intros u m H. done.
  - intros r i [x H]. done.
Qed.

Lemma inv_exec pg o s : Inv lower s → Inv lower (exec lower pg o s).1.
Proof. intros HI. destruct (exec lower pg o s) as [s' b] eqn:E. eapply inv_changes; [by eapply exec_changes|done]. Qed.

Lemma inv_run_from pg os s : Inv lower s → Inv lower (run lower pg os s).
Proof. revert s. induction os as [|o os IH]; intros s HI; [done|]. apply (IH _), inv_exec, HI. Qed.

Lemma tables_inv_run pg os now : Inv lower (run lower pg os (bootstrap_default_groups now empty_db)).
Proof using lower_default. apply inv_run_from, tables_inv_start. Qed.

Lemma run_tables_snoc pg os o s : run lower pg (os ++ [o]) s = (exec lower pg o (run lower pg os s)).1.
Proof. unfold run. by rewrite foldl_app. Qed.

(** Only an assignment makes an administrator: when a user is one after any sequence
    of requests, then one of them assigned him to the administrators by their
    identifier, or seeded him from the user store with the role of an administrator.
    Creating, renaming or deleting groups and granting repositories never does. *)
Theorem admin_by_assignment pg os now u :
  is_admin_user u (run lower pg os (bootstrap_default_groups now empty_db)) = true →
  ∃ o, o ∈ os ∧ match o with
                | OAssign u' i _ _ => u' = u ∧ i = 1
                | OSeedUsers us _ => ∃ x, x ∈ us ∧ username x = u ∧ role_admin x = true
                | _ => False
                end.
Proof using lower_default.
  intros (m & Hm & Hg)%(is_admin_spec lower); [|apply tables_inv_run]. revert m Hm Hg. induction os as [|o os IH] using rev_ind; intros m Hm Hg.
  - exfalso. revert Hm. by vm_compute.
  - rewrite run_tables_snoc in Hm. destruct (exec lower pg o _) as [s' b] eqn:E. cbn in Hm.
    destruct (changes_members _ _ _ _ _ u m (exec_changes lower pg o _ s' b (tables_inv_run pg os now) E) Hm) as [H|H].
    + destruct (IH m H Hg) as (o' & Ho & H'). exists o'. split; [set_solver|done].
    + exists o. split; [set_solver|]. destruct o; try done; cbn in H; [naive_solver|].
      destruct H as (x & ? & ? & Hx). exists x. split_and!; auto.
Qed.

Context (collate : string → string → bool).

(** Whatever the requests, a search shows a user exactly the results of the
    repositories he may read, in order: all of them to a member of the administrators,
    else those of cidx-meta and of the repositories granted to his group; and a
    repository listing likewise.  The tables are consulted anew by every call. *)
Theorem results_are_readable pg os now u rs repos :
  let s := run lower pg os (bootstrap_default_groups now empty_db) in
  filter_query_results lower collate rs u s = filter (λ r, can_read u (_get_repo_alias r) s) rs
  ∧ filter_repo_listing lower collate repos u s = filter (λ r, can_read u r s) repos.
Proof using lower_default. intros s. split; [apply query_results_spec, tables_inv_run|apply repo_listing_spec, tables_inv_run]. Qed.


Context (lookup_memory : string → option Memory).

(** The cache of aliases misses none that is granted. *)
Definition cache_covers (v : Service) : Prop :=
  Inv lower (db v) ∧ ∀ a t, repo_aliases_cache v = Some (a, t) → ∀ r i, is_Some (grants (db v) !! (r, i)) → r ∈ a.

Lemma covers_step pg v v' : sstep lower collate lookup_memory pg v v' → cache_covers v → cache_covers v'.
Proof.
  intros Hs Hv. pose proof Hv as [HI Hc]. destruct Hs as [o v|files u now v].
  - unfold perform. destruct (exec lower pg o (db v)) as [s' b] eqn:E. assert (Inv lower s') as HI' by (by eapply inv_changes; [eapply exec_changes|]).
    destruct b; split; cbn; try done. intros a t Ha r i Hr.
    destruct (changes_grants _ _ _ _ _ r i (exec_changes lower pg o _ s' _ HI E) Hr) as [H|[? _]]; [by eapply Hc|done].
  - unfold filter_cidx_meta_files. destruct files; [done|]. destruct (is_admin_user u (db v)); [done|].
    assert (cache_covers (mkService (db v) (Some (get_all_repo_names lower collate (db v), now)))) as Hfill.
    { split; [done|]. intros a t [= <- <-] r i Hr. apply all_repos_spec; eauto. }
    clear Hc. unfold _get_all_repo_aliases. by destruct (repo_aliases_cache v) as [[a t]|]; [destruct (_ <? _)|].
Qed.

(** In a process that alone changes the tables, the description file of a repository
    that some group may read is never listed to a user who may not, however old the
    cache of aliases is. *)
Theorem description_confined pg now v u r i files t :
  rtc (sstep lower collate lookup_memory pg) (started now) v → is_Some (grants (db v) !! (r, i)) → can_read u r (db v) = false →
  memory_stem r = false → (r +:+ ".md")%string ∉ (filter_cidx_meta_files lower collate lookup_memory files u t v).1.
Proof using lower_default.
  intros Hr Hg Hc Hm. assert (cache_covers v) as [HI Hcov].
  { apply (rtc_ind_r cache_covers (started now)) in Hr; [done|split; [apply tables_inv_start|done]|]. intros. by eapply covers_step. }
  unfold filter_cidx_meta_files. destruct files as [|f fs]; [apply not_elem_of_nil|]. destruct (is_admin_user u (db v)) eqn:Ha.
  { exfalso. pose proof (admin_reads lower (db v) u r HI Ha). congruence. }
  assert (r ∈ (_get_all_repo_aliases lower collate t v).1) as Hin.
  { unfold _get_all_repo_aliases. destruct (repo_aliases_cache v) as [[a t']|] eqn:E; [destruct (_ <? _); [by eapply Hcov|]|];
      apply all_repos_spec; eauto. }
  destruct (_get_all_repo_aliases lower collate t v) as [al v']. cbn [fst] in *. intros [Hv _]%list_elem_of_filter. unfold file_visible in Hv.
  assert (strip_suffix ".md" (r +:+ ".md")%string = Some r) as Hs by apply strip_suffix_app.
  rewrite Hs, Hm in Hv. rewrite bool_decide_eq_true_2 in Hv by done. cbn in Hv. apply bool_decide_unpack in Hv.
  rewrite accessible_spec in Hv by done. congruence.
Qed.

End properties.

(** ** Concrete runs *)

Definition lower_ascii (c : Ascii.ascii) : Ascii.ascii :=
  let n := Ascii.N_of_ascii c in if ((65 <=? n) && (n <=? 90))%N then Ascii.ascii_of_N (n + 32) else c.
Fixpoint to_lower (s : string) : string := match s with EmptyString => EmptyString | String c s' => String (lower_ascii c) (to_lower s') end.

Lemma to_lower_default n : n ∈ DEFAULT_GROUPS.*1 → to_lower n = n.
Proof. cbn. set_solver. Qed.

Definition no_memory (_ : string) : option Memory := None.

(** A custom group is created as 4; a repository is granted to it and to powerusers. *)
Definition setup : list op :=
  [OCreate "Team" "" 1; OAssign "bob" 4 "root" 2; OAssign "eve" 3 "root" 2; OGrant "secret" 4 "root" 3; OGrant "site" 4 "root" 3]%string.
Definition tables : DB := run to_lower false setup (bootstrap_default_groups 0 empty_db).
Definition hit (alias : string) : QueryResult := mkResult true (PyStr alias) Absent None "text".
Definition summary_of (repo : string) (dict : bool) : QueryResult :=
  mkResult dict (PyStr "cidx-meta-global") Absent (Some (Some repo)) "text".

(** Taking the last grant of a repository away makes its description file one of the
    general files, which everybody may list. *)
Lemma last_revocation_publishes :
  let listing v := (filter_cidx_meta_files to_lower String.leb no_memory ["secret.md"%string] "eve" 10 v).1 in
  let v := mkService tables None in
  listing v = [] ∧ listing (perform to_lower false (ORevoke "secret" 4) v) = ["secret.md"%string].
Proof. by vm_compute. Qed.

(** A grant made by another process leaves the cache of this one; until it expires the
    new repository's description is listed to everybody. *)
Lemma foreign_grant_publishes :
  let v := (filter_cidx_meta_files to_lower String.leb no_memory ["x"%string] "eve" 10 (mkService tables None)).2 in
  let v' := mkService (run to_lower false [OGrant "plan" 4 "root" 20] (db v)) (repo_aliases_cache v) in
  can_read "eve" "plan" (db v') = false
  ∧ (filter_cidx_meta_files to_lower String.leb no_memory ["plan.md"%string] "eve" 30 v').1 = ["plan.md"%string].
Proof. by vm_compute. Qed.

(** Summaries are filtered when they are objects; the search handlers pass dictionaries. *)
Lemma dict_summary_not_filtered :
  filter_cidx_meta_results to_lower String.leb [summary_of "secret" false] "eve" tables = []
  ∧ filter_cidx_meta_results to_lower String.leb [summary_of "secret" true] "eve" tables = [summary_of "secret" true].
Proof. by vm_compute. Qed.

(** A result under the global alias of a repository is recognised, its listing under
    that alias is not. *)
Lemma global_alias_not_listed :
  filter_query_results to_lower String.leb [hit "site-global"] "bob" tables = [hit "site-global"]
  ∧ filter_repo_listing to_lower String.leb ["site-global"%string] "bob" tables = [].
Proof. by vm_compute. Qed.

(** *** Witnesses *)

Lemma results_are_readable_witness :
  filter_query_results to_lower String.leb [hit "secret-global"; hit "other"; hit "cidx-meta-global"] "bob" tables
  = [hit "secret-global"; hit "cidx-meta-global"].
Proof.
  unfold tables. rewrite (proj1 (results_are_readable to_lower to_lower_default String.leb false setup 0 "bob" _ [])). by vm_compute.
Defined.

Lemma admin_by_assignment_witness :
  ∃ o, o ∈ setup ++ [OAssign "bob" 1 "root" 9] ∧ match o with
    | OAssign u' i _ _ => u' = "bob"%string ∧ i = 1
    | OSeedUsers us _ => ∃ x, x ∈ us ∧ username x = "bob"%string ∧ role_admin x = true
    | _ => False
    end.
Proof. apply (admin_by_assignment to_lower to_lower_default false _ 0). by vm_compute. Defined.


Lemma description_confined_witness :
  let v := foldl (λ v o, perform to_lower true o v) (started 0) setup in
  "secret.md"%string ∉ (filter_cidx_meta_files to_lower String.leb no_memory ["secret.md"; "README.md"]%string "eve" 10 v).1.
Proof.
  intros v. apply (description_confined to_lower to_lower_default String.leb no_memory true 0 v "eve" "secret" 4); [|by vm_compute; eexists|by vm_compute|done].
  unfold v, setup. cbn [foldl]. do 5 (eapply rtc_r; [|apply sstep_request]). apply rtc_refl.
Defined.

End GroupAccess.
