(* ===== verification/MemoryGovernor.v ===== *)
(** * Memory pressure and admission

    [MemoryGovernor] (src/src/code_indexer/server/services/memory_governor.py): one
    sampler computes the share of the memory limit in use and moves a band GREEN,
    YELLOW, RED with hysteresis and a minimum stay in RED; queries evict by it, and
    memory-heavy jobs are admitted by it, in the manager of BackgroundJobs.v and in the
    claimer of ClusterJobs.v.

    What the files of the kernel say, the configuration and the clock are arguments of a
    tick.  Percentages and seconds are rationals. *)

From S2P Require Import Prelude PyText IndexCache JobStore BackgroundJobs ClusterJobs.
From stdpp Require Import options.
Local Open Scope Q_scope.

Module MemoryGovernor.

Inductive MemoryBand := GREEN | YELLOW | RED.

#[export] Instance MemoryBand_eq_dec : EqDecision MemoryBand.
Proof. solve_decision. Defined.

Inductive basis := cgroup_v2 | cgroup_v1 | host.

Record MemorySample := {
  sample_basis : basis; used_pct : Q; effective_limit : Z; effective_used : Z; pswpin_rate : Z }.

(** The watermarks, from the constructor or from the configuration. *)
Record Limits := {
  enabled : bool; yellow_pct : Q; red_pct : Q; hysteresis_pct : Q; swap_forces_red : bool;
  swap_pswpin_red_threshold : Z; red_min_dwell_seconds : Q; sample_interval_seconds : Q }.

(** No configuration service, one that raises, or its answer. *)
Inductive live_config := NoService | Unreadable | Live (l : Limits).

Record GovernorCounters := {
  green_to_yellow : nat; yellow_to_red : nat; red_to_yellow : nat; yellow_to_green : nat;
  shards_evicted_after_use : nat; lru_evictions : nat; trim_calls : nat }.

Definition no_counters : GovernorCounters :=
  {| green_to_yellow := 0; yellow_to_red := 0; red_to_yellow := 0; yellow_to_green := 0;
     shards_evicted_after_use := 0; lru_evictions := 0; trim_calls := 0 |}.

Record Governor := mkGovernor {
  limits : Limits; band : MemoryBand; red_entry_time : Q; counters : GovernorCounters;
  prev_pswpin : option Z; first_tick : bool; last_sample : option MemorySample }.

Definition new_governor (l : Limits) (now : Q) : Governor := mkGovernor l RED now no_counters None true None.

Definition last_used_pct (g : Governor) : Q := from_option used_pct 0 (last_sample g).

(** ** Samples *)

(** A reader returns, raises one of the expected errors, or raises anything else. *)
Inductive reading (A : Type) := Value (a : A) | Unavailable | Broken.
Arguments Value {A} a.
Arguments Unavailable {A}.
Arguments Broken {A}.

(** [v2_max]: [None] is the word max; [host_memory]: total and used. *)
Record Readers := {
  host_memory : option (Z * Z); v2_max : reading (option Z); v2_current : reading Z; v1_limit : reading Z; v1_usage : reading Z;
  pswpin : option Z }.

Definition CGROUP_V1_UNLIMITED_THRESHOLD : Z := 2 ^ 62.

(** Limit and use; the outer [None] is an exception that goes on. *)
Definition read_v2 (r : Readers) : option (option (Z * Z)) :=
  match v2_max r with
  | Broken => None
  | Unavailable | Value None => Some None
  | Value (Some l) => match v2_current r with Value u => Some (Some (l, u)) | Unavailable => Some None | Broken => None end
  end.

Definition read_v1 (r : Readers) : option (option (Z * Z)) :=
  match v1_limit r with
  | Broken => None
  | Unavailable => Some None
  | Value l => if (l <? CGROUP_V1_UNLIMITED_THRESHOLD)%Z then
                 match v1_usage r with Value u => Some (Some (l, u)) | Unavailable => Some None | Broken => None end
               else Some None
  end.

Definition read_cgroup (r : Readers) : option (option (basis * (Z * Z))) :=
  match read_v2 r with
  | None => None
  | Some (Some y) => Some (Some (cgroup_v2, y))
  | Some None => match read_v1 r with None => None | Some z => Some ((λ y, (cgroup_v1, y)) <$> z) end
  end.

(** [_compute_sample]: the sample and the new baseline of the swap counter. *)
Definition _compute_sample (prev : option Z) (r : Readers) : option (MemorySample * Z) :=
  '(host_total, host_used) ← host_memory r;
  cg ← read_cgroup r;
  pswpin_now ← pswpin r;
  let '(b, (limit, used)) :=
    match cg with Some (b, (l, u)) => (b, (Z.min host_total l, u)) | None => (host, (host_total, host_used)) end in
  Some ({| sample_basis := b;
           used_pct := if (0 <? limit)%Z then 100 * inject_Z used / inject_Z limit else 0;
           effective_limit := limit; effective_used := used;
           pswpin_rate := match prev with None => 0 | Some p => Z.max 0 (pswpin_now - p) end |}, pswpin_now).

(** ** The band *)

(** Swap-in activity that forces RED. *)
Definition swap_storm (l : Limits) (s : MemorySample) : bool :=
  swap_forces_red l && (swap_pswpin_red_threshold l <=? pswpin_rate s)%Z && Qle_bool (yellow_pct l) (used_pct s).

Definition yellow_exit (l : Limits) : Q := yellow_pct l - hysteresis_pct l.
Definition red_exit (l : Limits) : Q := red_pct l - hysteresis_pct l.

Definition dwell_ok (l : Limits) (now : Q) (g : Governor) : bool :=
  Qle_bool (red_min_dwell_seconds l) 0 || Qle_bool (red_min_dwell_seconds l) (now - red_entry_time g).

Inductive transition := GreenYellow | YellowRed | RedYellow | YellowGreen.

Definition count_transition (first : bool) (t : transition) (c : GovernorCounters) : GovernorCounters :=
  if first then c
  else {| green_to_yellow := (match t with GreenYellow => S | _ => id end) (green_to_yellow c);
          yellow_to_red := (match t with YellowRed => S | _ => id end) (yellow_to_red c);
          red_to_yellow := (match t with RedYellow => S | _ => id end) (red_to_yellow c);
          yellow_to_green := (match t with YellowGreen => S | _ => id end) (yellow_to_green c);
          shards_evicted_after_use := shards_evicted_after_use c; lru_evictions := lru_evictions c; trim_calls := trim_calls c |}.

Definition with_band (b : MemoryBand) (entry : Q) (ts : list transition) (g : Governor) : Governor :=
  mkGovernor (limits g) b entry (foldl (λ c t, count_transition (first_tick g) t c) (counters g) ts)
    (prev_pswpin g) (first_tick g) (last_sample g).

Definition _advance_band (l : Limits) (s : MemorySample) (now : Q) (g : Governor) : Governor :=
  let forced := swap_storm l s in
  let to_red := Qle_bool (red_pct l) (used_pct s) || forced in
  match band g with
  | RED =>
      if Qltb (used_pct s) (red_exit l) && negb forced && dwell_ok l now g then
        if Qltb (used_pct s) (yellow_exit l) then with_band GREEN (red_entry_time g) [RedYellow; YellowGreen] g
        else with_band YELLOW (red_entry_time g) [RedYellow] g
      else g
  | YELLOW =>
      if to_red then with_band RED now [YellowRed] g
      else if Qltb (used_pct s) (yellow_exit l) then with_band GREEN (red_entry_time g) [YellowGreen] g
      else g
  | GREEN =>
      if to_red then with_band RED now [GreenYellow; YellowRed] g
      else if Qle_bool (yellow_pct l) (used_pct s) then with_band YELLOW (red_entry_time g) [GreenYellow] g
      else g
  end.

Definition _apply_fail_safe_red (now : Q) (g : Governor) : Governor :=
  mkGovernor (limits g) RED now (counters g) (prev_pswpin g) (first_tick g) (last_sample g).

(** ** Eviction *)

Definition YELLOW_LRU_FLOOR : nat := 1.

Definition maybe_trim (g : Governor) : Governor :=
  let c := counters g in
  mkGovernor (limits g) (band g) (red_entry_time g)
    {| green_to_yellow := green_to_yellow c; yellow_to_red := yellow_to_red c; red_to_yellow := red_to_yellow c;
       yellow_to_green := yellow_to_green c; shards_evicted_after_use := shards_evicted_after_use c; lru_evictions := lru_evictions c; trim_calls := S (trim_calls c) |}
    (prev_pswpin g) (first_tick g) (last_sample g).

Definition count_evicted (n : nat) (g : Governor) : Governor :=
  let c := counters g in
  mkGovernor (limits g) (band g) (red_entry_time g)
    {| green_to_yellow := green_to_yellow c; yellow_to_red := yellow_to_red c; red_to_yellow := red_to_yellow c;
       yellow_to_green := yellow_to_green c; shards_evicted_after_use := shards_evicted_after_use c; lru_evictions := lru_evictions c + n; trim_calls := trim_calls c |}
    (prev_pswpin g) (first_tick g) (last_sample g).

Definition evict_lru_to_floor {V} (floor_entries : nat) (c : IndexCache.cache V) (g : Governor) : Governor * IndexCache.cache V :=
  let to_evict := (Z.of_nat (length (IndexCache.entries c)) - Z.of_nat floor_entries)%Z in
  let '(n, c') := if (0 <? to_evict)%Z then IndexCache.evict_lru_entries to_evict c else (0%nat, c) in
  (maybe_trim (count_evicted n g), c').

(** ** A tick *)

Definition effective (live : live_config) (g : Governor) : option Limits :=
  match live with NoService => Some (limits g) | Unreadable => None | Live l => Some l end.

Definition sampled (s : MemorySample) (p : Z) (g : Governor) : Governor :=
  mkGovernor (limits g) (band g) (red_entry_time g) (counters g) (Some p) (first_tick g) (Some s).

Definition ticked (g : Governor) : Governor :=
  mkGovernor (limits g) (band g) (red_entry_time g) (counters g) (prev_pswpin g) false (last_sample g).

(** Without the eviction: the limits and the sample a tick works with, and its band. *)
Definition sample_of (live : live_config) (r : Readers) (g : Governor) : option (Limits * (MemorySample * Z)) :=
  l ← effective live g; x ← _compute_sample (prev_pswpin g) r; Some (l, x).

Definition _tick {V} (live : live_config) (r : Readers) (now : Q) (cache : option (IndexCache.cache V)) (g : Governor) :
    Governor * option (IndexCache.cache V) :=
  match sample_of live r g with
  | None => (_apply_fail_safe_red now g, cache)
  | Some (l, (s, p)) =>
      let g1 := _advance_band l s now (sampled s p g) in
      let '(g2, cache') :=
        match band g1, cache with
        | YELLOW, Some c => let '(g2, c') := evict_lru_to_floor YELLOW_LRU_FLOOR c g1 in (g2, Some c')
        | _, _ => (g1, cache)
        end in
      (ticked g2, cache')
  end.

(** ** Decisions *)

Definition admission_allowed (max_used_pct : Q) (g : Governor) : bool :=
  negb (first_tick g) && negb (bool_decide (band g = RED)) && Qltb (last_used_pct g) max_used_pct.

Definition should_evict_after_shard (live : live_config) (g : Governor) : bool :=
  match live with
  | Unreadable => true
  | Live l => negb (enabled l) || bool_decide (band g = RED)
  | NoService => negb (enabled (limits g)) || bool_decide (band g = RED)
  end.

Definition _resolve_sample_interval_seconds (live : live_config) (g : Governor) : Q :=
  match live with Live l => sample_interval_seconds l | _ => sample_interval_seconds (limits g) end.

(** ** What a tick does to the band *)

Section ticks.
Context {V : Type}.

Record Tick := { t_live : live_config; t_readers : Readers; t_now : Q; t_cache : option (IndexCache.cache V) }.

Definition tick (t : Tick) (g : Governor) : Governor := (_tick (t_live t) (t_readers t) (t_now t) (t_cache t) g).1.

Definition run (l : Limits) (now : Q) (ts : list Tick) : Governor := foldl (λ g t, tick t g) (new_governor l now) ts.

Lemma run_snoc l now ts t : run l now (ts ++ [t]) = tick t (run l now ts).
Proof. unfold run. by rewrite foldl_app. Qed.

(** The eviction leaves everything but the counters. *)
Lemma evict_keeps n (c : IndexCache.cache V) g : let g' := (evict_lru_to_floor n c g).1 in
  band g' = band g ∧ red_entry_time g' = red_entry_time g ∧ last_sample g' = last_sample g.
Proof. unfold evict_lru_to_floor. destruct (0 <? _)%Z; [destruct (IndexCache.evict_lru_entries _ c)|]; done. Qed.

Lemma tick_sampled t g l s p : sample_of (t_live t) (t_readers t) g = Some (l, (s, p)) →
  let g1 := _advance_band l s (t_now t) (sampled s p g) in
  band (tick t g) = band g1 ∧ red_entry_time (tick t g) = red_entry_time g1 ∧ first_tick (tick t g) = false ∧ last_sample (tick t g) = Some s.
Proof.
  intros H g1. assert (last_sample g1 = Some s) as Hl.
  { unfold g1, _advance_band. repeat case_match; done. }
  unfold tick, _tick. rewrite H. fold g1. destruct (band g1) eqn:Eb, (t_cache t) as [c|]; try (cbn; by rewrite Eb, Hl).
  pose proof (evict_keeps YELLOW_LRU_FLOOR c g1) as (E1 & E2 & E3). destruct (evict_lru_to_floor _ _ g1) as [g2 c'].
  cbn in *. by rewrite E1, E2, E3, Eb, Hl.
Qed.

Lemma tick_failed t g : sample_of (t_live t) (t_readers t) g = None → tick t g = _apply_fail_safe_red (t_now t) g.
Proof. intros H. unfold tick, _tick. by rewrite H. Qed.

Lemma advance_red l s now g : 0 <= hysteresis_pct l →
  band (_advance_band l s now g) = RED ↔
  red_pct l <= used_pct s ∨ swap_storm l s = true ∨ band g = RED ∧ (red_exit l <= used_pct s ∨ dwell_ok l now g = false).
Proof.
  intros Hh. unfold _advance_band. destruct (Qle_bool_spec (red_pct l) (used_pct s)) as [Hr|Hr], (swap_storm l s) eqn:Hs, (band g) eqn:Hb; cbn [orb];
    try (split; [by auto|done]).
  - assert (Qltb (used_pct s) (red_exit l) = false) as -> by (apply Qltb_false; unfold red_exit; lra). cbn. rewrite Hb. tauto.
  - assert (Qltb (used_pct s) (red_exit l) = false) as -> by (apply Qltb_false; unfold red_exit; lra). cbn. rewrite Hb. tauto.
  - rewrite andb_false_r. cbn. rewrite Hb. tauto.
  - destruct (Qle_bool _ _); cbn; rewrite ?Hb; split; try done; intros [?|[?|[? _]]]; try done; lra.
  - destruct (Qltb _ _); cbn; rewrite ?Hb; split; try done; intros [?|[?|[? _]]]; try done; lra.
  - destruct (Qltb_spec (used_pct s) (red_exit l)) as [Hx|Hx]; cbn; [|rewrite Hb; tauto].
    destruct (dwell_ok l now g) eqn:Hd; [|cbn; rewrite Hb; tauto].
    split; [by destruct (Qltb _ _)|]. intros [?|[?|[_ [?|?]]]]; try done; lra.
Qed.

Lemma advance_green l s now g : 0 <= hysteresis_pct l → band (_advance_band l s now g) = GREEN → used_pct s < yellow_pct l.
Proof.
  intros Hh. unfold _advance_band. destruct (band g) eqn:Hb.
  - destruct (_ || _); [done|]. destruct (Qle_bool_spec (yellow_pct l) (used_pct s)); done.
  - destruct (_ || _); [done|]. destruct (Qltb_spec (used_pct s) (yellow_exit l)) as [H|H]; [|by rewrite Hb].
    intros _. unfold yellow_exit in H. lra.
  - destruct (_ && _); [|by rewrite Hb]. destruct (Qltb_spec (used_pct s) (yellow_exit l)) as [H|H]; [|done].
    intros _. unfold yellow_exit in H. lra.
Qed.

Lemma advance_yellow l s now g : 0 <= hysteresis_pct l → band (_advance_band l s now g) = YELLOW → yellow_exit l <= used_pct s.
Proof.
  intros Hh. unfold _advance_band. destruct (band g) eqn:Hb.
  - destruct (_ || _); [done|]. destruct (Qle_bool_spec (yellow_pct l) (used_pct s)); [|by rewrite Hb]. intros _. unfold yellow_exit. lra.
  - destruct (_ || _); [done|]. by destruct (Qltb_spec (used_pct s) (yellow_exit l)).
  - destruct (_ && _); [|by rewrite Hb]. by destruct (Qltb_spec (used_pct s) (yellow_exit l)).
Qed.

(** ** Properties *)

(** A tick that could read memory and configuration sets the band by the sample: it
    is RED exactly when the use is at the red mark, when pages are swapped in at the
    configured rate above the yellow mark, or when it was RED and the use has not fallen
    by the hysteresis below the red mark or the minimum stay is not over; GREEN only
    below the yellow mark; YELLOW only above that mark less the hysteresis. *)
Theorem band_follows_pressure (t : Tick) g l s p :
  sample_of (t_live t) (t_readers t) g = Some (l, (s, p)) → 0 <= hysteresis_pct l →
  (band (tick t g) = RED ↔
     red_pct l <= used_pct s ∨ swap_storm l s = true ∨ band g = RED ∧ (red_exit l <= used_pct s ∨ dwell_ok l (t_now t) g = false))
  ∧ (band (tick t g) = GREEN → used_pct s < yellow_pct l) ∧ (band (tick t g) = YELLOW → yellow_exit l <= used_pct s).
Proof.
  intros Hs Hh. destruct (tick_sampled t g l s p Hs) as (-> & _). split_and!.
  - exact (advance_red l s (t_now t) (sampled s p g) Hh).
  - by apply advance_green.
  - by apply advance_yellow.
Qed.

(** A memory-heavy job is only admitted on the strength of the latest tick, which
    must have read memory and configuration: its use is below the admission mark and
    below the red mark, and no swap storm is on.  Before the first sample, and after a
    reading that failed, nothing is admitted. *)
Theorem admission_is_current l0 now0 (ts : list Tick) max : admission_allowed max (run l0 now0 ts) = true →
  ∃ ts' t l s p, ts = ts' ++ [t] ∧ sample_of (t_live t) (t_readers t) (run l0 now0 ts') = Some (l, (s, p)) ∧ used_pct s < max
  ∧ (0 <= hysteresis_pct l → used_pct s < red_pct l ∧ swap_storm l s = false).
Proof.
  unfold admission_allowed. rewrite !andb_true_iff, !negb_true_iff, bool_decide_eq_false, Qltb_true. intros ((Hf & Hb) & Hu).
  destruct ts as [|t ts' _] using rev_ind; [done|]. rewrite run_snoc in *. set (g := run l0 now0 ts') in *.
  destruct (sample_of (t_live t) (t_readers t) g) as [[l [s p]]|] eqn:Hs; [|by rewrite tick_failed in Hb].
  exists ts', t, l, s, p. destruct (tick_sampled t g l s p Hs) as (Eb & _ & _ & El). split_and!; [done|done| |].
  - revert Hu. unfold last_used_pct. by rewrite El.
  - intros Hh. rewrite Eb, advance_red in Hb by done. split.
    + apply Qnot_le_lt. auto.
    + destruct (swap_storm l s); [exfalso; auto|done].
Qed.

(** The times of ticks and the bands they leave. *)
Fixpoint history (g : Governor) (ts : list Tick) : list (Q * MemoryBand) :=
  match ts with [] => [] | t :: ts' => (t_now t, band (tick t g)) :: history (tick t g) ts' end.

Lemma history_snoc l now ts (t : Tick) :
  history (new_governor l now) (ts ++ [t]) = history (new_governor l now) ts ++ [(t_now t, band (run l now (ts ++ [t])))].
Proof.
  unfold run. generalize (new_governor l now). induction ts as [|x ts IH]; intros g; [done|]. cbn. f_equal. apply IH.
Qed.

Lemma history_times l now ts τ b : (τ, b) ∈ history (new_governor l now) ts → τ ∈ t_now <$> ts.
Proof.
  generalize (new_governor l now). induction ts as [|x ts IH]; intros g; cbn; [intros []%elem_of_nil|].
  intros [[= -> ->]|H]%elem_of_cons; [left|right; by eapply IH].
Qed.

(** While the band is RED it has been so since its entry time. *)
Definition red_since (now0 : Q) (h : list (Q * MemoryBand)) (g : Governor) : Prop :=
  band g = RED → now0 <= red_entry_time g ∧ ∀ τ b, (τ, b) ∈ h → red_entry_time g < τ → b = RED.

Lemma red_since_run l0 now0 ts : StronglySorted Qle (now0 :: (t_now <$> ts)) →
  red_since now0 (history (new_governor l0 now0) ts) (run l0 now0 ts).
Proof.
  induction ts as [|t ts IH] using rev_ind.
  { intros _ _. split; [cbn; lra|]. by intros ? ? ?%elem_of_nil. }
  intros Hs. rewrite fmap_app in Hs. change (now0 :: (t_now <$> ts) ++ (t_now <$> [t])) with ((now0 :: (t_now <$> ts)) ++ [t_now t]) in Hs.
  apply StronglySorted_app in Hs as (Hlast & Hs & _). specialize (IH Hs).
  assert (∀ x, x ∈ now0 :: (t_now <$> ts) → x <= t_now t) as Hle by (intros x Hx; apply Hlast; [done|left]).
  rewrite history_snoc, run_snoc. set (g := run l0 now0 ts) in *. intros Hred.
  assert (red_entry_time (tick t g) = t_now t ∨ band g = RED ∧ red_entry_time (tick t g) = red_entry_time g) as [E|[Hb E]].
  { destruct (sample_of (t_live t) (t_readers t) g) as [[l [s p]]|] eqn:H; [|rewrite tick_failed by done; by left].
    destruct (tick_sampled t g l s p H) as (Eb & -> & _). rewrite Eb in Hred. clear -Hred. unfold _advance_band in *. cbn in *.
    destruct (band g) eqn:Hb; repeat case_match; cbn in *; auto; congruence. }
  - rewrite E. split; [apply Hle; left|]. intros τ b [Hin|Hin]%elem_of_app Hlt.
    + apply history_times in Hin. specialize (Hle τ ltac:(by right)). lra.
    + apply list_elem_of_singleton in Hin. simplify_eq. lra.
  - destruct (IH Hb) as [H0 H1]. rewrite E. split; [done|]. intros τ b [Hin|Hin]%elem_of_app Hlt; [by eapply H1|].
    apply list_elem_of_singleton in Hin. by simplify_eq.
Qed.

(** RED is held for its minimum stay: with a clock that does not run backwards, a
    tick that leaves RED comes at least that long after the governor was created, and
    every tick of that length of time before it left the band RED. *)
Theorem red_dwells l0 now0 (ts : list Tick) (t : Tick) l :
  StronglySorted Qle (now0 :: (t_now <$> ts)) → band (run l0 now0 ts) = RED → band (run l0 now0 (ts ++ [t])) ≠ RED →
  effective (t_live t) (run l0 now0 ts) = Some l → 0 < red_min_dwell_seconds l →
  red_min_dwell_seconds l <= t_now t - now0
  ∧ ∀ τ b, (τ, b) ∈ history (new_governor l0 now0) ts → t_now t - red_min_dwell_seconds l < τ → b = RED.
Proof.
  intros Hs Hred Hnot Heff Hd. destruct (red_since_run l0 now0 ts Hs Hred) as [H0 H1]. rewrite run_snoc in Hnot.
  set (g := run l0 now0 ts) in *. destruct (sample_of (t_live t) (t_readers t) g) as [[l' [s p]]|] eqn:H; [|by rewrite tick_failed in Hnot].
  destruct (tick_sampled t g l' s p H) as (Eb & _). rewrite Eb in Hnot.
  assert (l' = l) as ->. { unfold sample_of in H. rewrite Heff in H. cbn in H. by destruct (_compute_sample _ _); simplify_eq/=. }
  assert (dwell_ok l (t_now t) (sampled s p g) = true) as Hok.
  { unfold _advance_band in Hnot. cbn in Hnot. rewrite Hred in Hnot. destruct (dwell_ok _ _ _); [done|]. by rewrite andb_false_r in Hnot. }
  unfold dwell_ok in Hok. cbn in Hok. rewrite orb_true_iff, !Qle_bool_iff in Hok. destruct Hok as [Hok|Hok]; [lra|].
  split; [lra|]. intros τ b Hin Hlt. apply (H1 τ b Hin). lra.
Qed.

(** Pressure that is over is forgotten: when memory can be read, the use is below
    both marks by the hysteresis, no swap storm is on and the stay in RED is over, one
    tick makes the band GREEN and lets jobs in that ask for less than is free, from
    whatever state. *)
Theorem pressure_relieved (t : Tick) g l s p max :
  sample_of (t_live t) (t_readers t) g = Some (l, (s, p)) → 0 <= hysteresis_pct l → used_pct s < yellow_exit l → used_pct s < red_exit l →
  swap_storm l s = false → dwell_ok l (t_now t) g = true → used_pct s < max →
  band (tick t g) = GREEN ∧ admission_allowed max (tick t g) = true ∧ should_evict_after_shard (t_live t) (tick t g) = negb (enabled l).
Proof.
  intros Hs Hh Hy Hr Hst Hd Hm. destruct (tick_sampled t g l s p Hs) as (Eb & _ & Ef & El).
  assert (band (tick t g) = GREEN) as Hg.
  { rewrite Eb. destruct (band (_advance_band l s (t_now t) (sampled s p g))) eqn:E; [done|exfalso|exfalso].
    - apply advance_yellow in E; [lra|done].
    - apply advance_red in E; [|done]. change (dwell_ok l (t_now t) (sampled s p g)) with (dwell_ok l (t_now t) g) in E.
      rewrite Hst, Hd in E. unfold red_exit in *. destruct E as [?|[?|[_ [?|?]]]]; try done; lra. }
  split; [done|]. unfold admission_allowed, last_used_pct. rewrite Ef, El, Hg. split; [by apply Qltb_true|].
  unfold sample_of in Hs. unfold should_evict_after_shard. rewrite Hg. destruct (t_live t) as [| |l1]; cbn in Hs.
  - assert (limits (tick t g) = limits g) as ->.
    { unfold tick, _tick. repeat case_match; cbn; try done; unfold _advance_band, evict_lru_to_floor in *; repeat case_match; by simplify_eq. }
    destruct (_compute_sample _ _); simplify_eq/=. by rewrite orb_false_r.
  - done.
  - destruct (_compute_sample _ _); simplify_eq/=. by rewrite orb_false_r.
Qed.

End ticks.

(** ** Eviction under YELLOW *)

Lemma evict_n_length {V} n (l : list (text * IndexCache.entry V)) : NoDup l.*1 → length (IndexCache.evict_n n l) = (length l - n)%nat.
Proof.
  revert l. induction n as [|n IH]; intros l Hnd; cbn; [lia|]. destruct l as [|p l]; [done|].
  pose proof (IndexCache.evict_lru_length (p :: l) Hnd ltac:(done)) as Hl. rewrite IH; [cbn in *; lia|].
  eapply sublist_NoDup; [exact Hnd|]. apply fmap_sublist, IndexCache.evict_lru_sublist.
Qed.

(** A tick that leaves the band YELLOW leaves at most one entry in the cache. *)
Lemma yellow_tick_trims {V} live r now (c : IndexCache.cache V) g g' c' : NoDup (IndexCache.entries c).*1 →
  is_Some (sample_of live r g) → _tick live r now (Some c) g = (g', Some c') → band g' = YELLOW →
  (length (IndexCache.entries c') ≤ YELLOW_LRU_FLOOR)%nat ∧ IndexCache.entries c' `sublist_of` IndexCache.entries c.
Proof.
  intros Hnd [[l [s p]] Hs]. unfold _tick. rewrite Hs. set (g1 := _advance_band l s now (sampled s p g)).
  destruct (band g1) eqn:Eb; [intros [= <- <-] Hy; cbn in Hy; congruence| |intros [= <- <-] Hy; cbn in Hy; congruence].
  unfold evict_lru_to_floor, IndexCache.evict_lru_entries, YELLOW_LRU_FLOOR. set (k := (Z.of_nat (length _) - Z.of_nat 1)%Z).
  destruct (Z.ltb_spec 0 k) as [Hk|Hk].
  - rewrite (proj2 (Z.leb_gt k 0)) by done. intros [= <- <-] _. cbn. split; [rewrite evict_n_length by done; lia|].
    apply IndexCache.evict_n_sublist.
  - intros [= <- <-] _. split; [|done]. lia.
Qed.

(** ** Admission of jobs *)

(** What the manager and the claimer are told. *)
Definition denied (max_used_pct : Q) (g : Governor) : option bool := Some (negb (admission_allowed max_used_pct g)).

(** While the band is RED, and before the first tick, no memory-heavy job starts:
    a worker of either lane puts it back into its queue, and no worker of the cluster on
    this node claims anything; other jobs of the manager go on. *)
Theorem no_heavy_job_in_red {V} l0 now0 (ts : list (Tick (V := V))) max cfg lane w w' :
  ts = [] ∨ band (run l0 now0 ts) = RED → BackgroundJobs.job_admission_memory_gate_enabled cfg = true →
  BackgroundJobs.pool_worker cfg lane (denied max (run l0 now0 ts)) w = Some w' →
  (BackgroundJobs.threads w' = BackgroundJobs.threads w
   ∨ ∃ j b q takes, BackgroundJobs.queue_of lane w = Some (j, takes) :: q
       ∧ from_option (λ x, BackgroundJobs.memory_heavy (JobStore.operation_type (BackgroundJobs.fields x))) false
           (BackgroundJobs.jobs (BackgroundJobs.shared w) !! j) = false
       ∧ BackgroundJobs.threads w' = BackgroundJobs.threads w ++ [b])
  ∧ ∀ c f locked now t, ClusterJobs.memory_gate_enabled c = true →
      ClusterJobs.claim_next_job c (denied max (run l0 now0 ts)) f locked now t = (None, t).
Proof.
  intros Hg Hgate Hp. assert (denied max (run l0 now0 ts) = Some true) as Hd.
  { unfold denied, admission_allowed. destruct Hg as [->|Hb]; [done|]. rewrite Hb, bool_decide_eq_true_2 by done.
    by rewrite andb_false_r. }
  rewrite Hd in *. split.
  - unfold BackgroundJobs.pool_worker in Hp. destruct (_ <? _)%nat; [|done].
    destruct (BackgroundJobs.queue_of lane w) as [|[[j takes]|] q] eqn:Eq; [done| |].
    + unfold BackgroundJobs.admission_blocked in Hp. rewrite Hgate in Hp. cbn [andb default] in Hp. rewrite andb_true_r in Hp.
      destruct (from_option _ false _) eqn:Eh; injection Hp as <-.
      * left. by destruct lane.
      * right. eexists j, _, q, takes. split_and!; [done|done|]. by destruct lane.
    + injection Hp as <-. left. by destruct lane.
  - intros c f locked now t Hc. unfold ClusterJobs.claim_next_job, ClusterJobs.memory_allows. by rewrite Hc.
Qed.

(** ** Concrete runs *)

Definition default_limits : Limits :=
  {| enabled := true; yellow_pct := 70; red_pct := 85; hysteresis_pct := 10; swap_forces_red := true;
     swap_pswpin_red_threshold := 100; red_min_dwell_seconds := 30; sample_interval_seconds := 2 |}.

(** A container with a limit of 1000, of which [used] is in use. *)
Definition container (used swapped : Z) : Readers :=
  {| host_memory := Some (4000, 2000)%Z; v2_max := Value (Some 1000%Z); v2_current := Value used; v1_limit := Unavailable; v1_usage := Unavailable;
     pswpin := Some swapped |}.
Definition at_ (now : Q) (r : Readers) : Tick (V := unit) := {| t_live := NoService; t_readers := r; t_now := now; t_cache := None |}.
Definition broken_at (now : Q) : Tick (V := unit) :=
  {| t_live := Unreadable; t_readers := container 100 0; t_now := now; t_cache := None |}.

Definition calm : list (Tick (V := unit)) := [at_ 0 (container 200 0); at_ 31 (container 200 0)].

(** With a minimum stay in RED the first tick does not bring the band to where the sample
    puts it, and the transitions that follow are counted. *)
Lemma first_tick_stays_red :
  let g1 := run default_limits 0 (take 1 calm) in let g2 := run default_limits 0 calm in
  band g1 = RED ∧ first_tick g1 = false ∧ band g2 = GREEN ∧ red_to_yellow (counters g2) = 1%nat.
Proof. by vm_compute. Qed.

(** *** Witnesses *)

Definition calm_sample : MemorySample :=
  {| sample_basis := cgroup_v2; used_pct := 100 * inject_Z 200 / inject_Z 1000; effective_limit := 1000; effective_used := 200; pswpin_rate := 0 |}.

Lemma band_follows_pressure_witness :
  band (tick (at_ 40 (container 900 0)) (run default_limits 0 calm)) = RED.
Proof.
  eapply (band_follows_pressure (at_ 40 (container 900 0)) (run default_limits 0 calm) default_limits); [by vm_compute|by vm_compute|].
  left. by vm_compute.
Defined.

Lemma admission_is_current_witness : admission_allowed 80 (run default_limits 0 calm) = true
  ∧ ∃ ts' t l s p, calm = ts' ++ [t] ∧ sample_of (t_live t) (t_readers t) (run default_limits 0 ts') = Some (l, (s, p)) ∧ used_pct s < 80
    ∧ (0 <= hysteresis_pct l → used_pct s < red_pct l ∧ swap_storm l s = false).
Proof. split; [by vm_compute|]. apply (admission_is_current default_limits 0 calm 80). by vm_compute. Defined.

Lemma red_dwells_witness :
  let ts := calm ++ [broken_at 40; at_ 50 (container 200 0)] in
  30 <= 71 - 0 ∧ ∀ τ b, (τ, b) ∈ history (new_governor default_limits 0) ts → 71 - 30 < τ → b = RED.
Proof.
  intros ts. apply (red_dwells default_limits 0 ts (at_ 71 (container 200 0)) default_limits); [|by vm_compute..].
  cbn. repeat constructor; cbn; lra.
Defined.

Lemma pressure_relieved_witness :
  let t := at_ 71 (container 200 0) in let g := run default_limits 0 (calm ++ [broken_at 40]) in
  band (tick t g) = GREEN ∧ admission_allowed 80 (tick t g) = true ∧ should_evict_after_shard NoService (tick t g) = false.
Proof.
  intros t g. apply (pressure_relieved t g default_limits calm_sample 0 80); by vm_compute.
Defined.

Definition gated : BackgroundJobs.Config :=
  {| BackgroundJobs.node_id := Some "node-1"%string; BackgroundJobs.cluster_mode := true; BackgroundJobs.has_tracker := true;
     BackgroundJobs.postgres := true; BackgroundJobs.job_admission_memory_gate_enabled := true; BackgroundJobs.pool_size := 2;
     BackgroundJobs.temporal_lane_concurrency := 1 |}.

(** An index job without reconstruction parameters is queued on its own node. *)
Definition heavy : BackgroundJobs.submission :=
  {| BackgroundJobs.s_op := "sync_repository"; BackgroundJobs.s_user := "alice"; BackgroundJobs.s_admin := false;
     BackgroundJobs.s_alias := Some "repo"%string; BackgroundJobs.s_actor := None; BackgroundJobs.s_lane := "ordinary";
     BackgroundJobs.s_ctx := None; BackgroundJobs.s_meta := None; BackgroundJobs.s_takes_progress := true |}.
Definition queued : BackgroundJobs.World :=
  let w := BackgroundJobs.start gated true 720 0 ∅ ∅ in
  match BackgroundJobs.submit_job gated false BackgroundJobs.all_ok 5 "j" heavy w with Ok w' => w' | Err _ => w end.

Lemma no_heavy_job_in_red_witness :
  let d := denied 80 (run default_limits 0 (take 1 calm)) in
  BackgroundJobs.pending_queue queued = [Some ("j"%string, true)]
  ∧ (∃ w', BackgroundJobs.pool_worker gated BackgroundJobs.ordinary d queued = Some w' ∧ BackgroundJobs.threads w' = [])
  ∧ ClusterJobs.claim_next_job ClusterJobs.leader d (ClusterJobs.filter_of true) ∅ 9 ClusterJobs.queue = (None, ClusterJobs.queue).
Proof.
  intros d. split; [by vm_compute|]. destruct (BackgroundJobs.pool_worker gated BackgroundJobs.ordinary d queued) as [w'|] eqn:E; [|by vm_compute in E].
  destruct (no_heavy_job_in_red default_limits 0 (take 1 calm) 80 gated BackgroundJobs.ordinary queued w') as [[Ht|(j & b & q & takes & Hq & Hh & _)] Hc];
    [by right|done|exact E| |].
  - split; [|by apply Hc]. exists w'. split; [done|]. rewrite Ht. by vm_compute.
  - exfalso. revert Hq Hh. vm_compute. intros [= <- _ _]. by vm_compute.
Defined.

End MemoryGovernor.
