(* ===== verification/AliasRegistry.v ===== *)
(** * Alias pointers and the registry of global repositories

    src/src/code_indexer/global_repos/alias_manager.py, global_registry.py with
    GlobalReposSqliteBackend of server/storage/sqlite_backends.py, and
    global_activation.py.

    An alias is a small JSON file that names the index directory answering queries.
    The registry is a dictionary in memory saved to one JSON file, or a table; both
    keep their entries in insertion order. *)

From S2P Require Import Prelude.
From stdpp Require Import options.
Local Open Scope Z_scope.

(** ** Alias pointers *)

Module AliasManager.

Definition GLOBAL : string := "-global".

Record AliasData := mkAlias {
  target_path : option string; created_at : Q; last_refresh : Q; repo_name : string;
  previous_path : option string; swapped_at : option Q }.

(** What the manager wrote, a text that is not JSON, or a file that cannot be opened. *)
Inductive alias_file := Json (d : AliasData) | Corrupt | Unreadable.

(** A marker of write mode: its [source_path] and [entered_at] (a time, or a string
    that is none). *)
Inductive time_field := Timestamp (t : Q) | BadTimestamp.
Inductive marker := Marker (source_path : option string) (entered_at : option time_field) | CorruptMarker.

(** What [get_marker] of a wired backend does. *)
Inductive pg_reply := PgNone | PgMarker (source_path : option string) | PgRaises.

Record Aliases := mkAliases {
  files : gmap string alias_file;
  markers : gmap string marker;
  write_mode_backend : option (string → pg_reply) }.

Definition with_files (f : gmap string alias_file → gmap string alias_file) (a : Aliases) : Aliases :=
  mkAliases (f (files a)) (markers a) (write_mode_backend a).
Definition with_markers (f : gmap string marker → gmap string marker) (a : Aliases) : Aliases :=
  mkAliases (files a) (f (markers a)) (write_mode_backend a).

Definition set_write_mode_backend (b : string → pg_reply) (a : Aliases) : Aliases :=
  mkAliases (files a) (markers a) (Some b).

Definition _read_write_mode_source_path (alias_without_global : string) (a : Aliases) : option string :=
  match write_mode_backend a with
  | Some get_marker => match get_marker alias_without_global with PgMarker s => truthy s | PgNone | PgRaises => None end
  | None => match markers a !! alias_without_global with Some (Marker s _) => truthy s | Some CorruptMarker | None => None end
  end.

Definition read_alias_file (alias : string) (a : Aliases) : option string :=
  match files a !! alias with Some (Json d) => target_path d | _ => None end.

Definition read_alias (alias : string) (a : Aliases) : option string :=
  match strip_suffix GLOBAL alias with
  | Some bare => match _read_write_mode_source_path bare a with
                 | Some s => Some s
                 | None => read_alias_file alias a
                 end
  | None => read_alias_file alias a
  end.

Inductive alias_error := RuntimeError | ValueError.

(** [write_ok]: the temporary file could be written and renamed. *)
Definition create_alias (write_ok : bool) (now : Q) (alias target : string) (name : option string) (a : Aliases) :
    result alias_error Aliases :=
  if write_ok then
    Ok (with_files (insert alias (Json (mkAlias (Some target) now now (default (removesuffix GLOBAL alias) (truthy name)) None None))) a)
  else Err RuntimeError.

Definition delete_alias (unlink_ok : bool) (alias : string) (a : Aliases) : Aliases :=
  if unlink_ok then with_files (delete alias) a else a.

Definition alias_exists (alias : string) (a : Aliases) : bool := bool_decide (is_Some (files a !! alias)).

Definition update_refresh_timestamp (write_ok : bool) (now : Q) (alias : string) (a : Aliases) : result alias_error Aliases :=
  match files a !! alias with
  | Some (Json d) =>
      if write_ok then
        Ok (with_files (insert alias (Json (mkAlias (target_path d) (created_at d) now (repo_name d) (previous_path d) (swapped_at d)))) a)
      else Err RuntimeError
  | _ => Err RuntimeError
  end.

Definition swapped (now : Q) (new_target : string) (old_target : option string) (d : AliasData) : AliasData :=
  mkAlias (Some new_target) (created_at d) now (repo_name d) old_target (Some now).

(** The read with its validation; the write is [write_swapped].  A parse error of the
    JSON library is a [ValueError] too. *)
Definition check_swap (alias : string) (old_target : option string) (a : Aliases) : result alias_error AliasData :=
  match files a !! alias with
  | Some (Json d) => if bool_decide (target_path d = old_target) then Ok d else Err ValueError
  | Some Corrupt => Err ValueError
  | Some Unreadable | None => Err RuntimeError
  end.

Definition write_swapped (write_ok : bool) (now : Q) (alias new_target : string) (old_target : option string) (d : AliasData)
    (a : Aliases) : result alias_error Aliases :=
  if write_ok then Ok (with_files (insert alias (Json (swapped now new_target old_target d))) a) else Err RuntimeError.

Definition swap_alias (write_ok : bool) (now : Q) (alias new_target : string) (old_target : option string) (a : Aliases) :
    result alias_error Aliases :=
  d ← check_swap alias old_target a; write_swapped write_ok now alias new_target old_target d a.

Definition get_previous_path (alias : string) (a : Aliases) : option string :=
  match files a !! alias with Some (Json d) => previous_path d | _ => None end.

(** [index_path]: of the registry's row, if there is one. *)
Definition resolve_alias_or_index_path (path_exists : string → bool) (alias : string) (index_path : option string) (a : Aliases) :
    option string :=
  match truthy (read_alias alias a) with
  | Some t => Some t
  | None => match truthy index_path with Some p => if path_exists p then Some p else None | None => None end
  end.

(** ** Lemmas *)

Lemma read_alias_global bare a :
  read_alias (bare +:+ GLOBAL) a = match _read_write_mode_source_path bare a with Some s => Some s | None => read_alias_file (bare +:+ GLOBAL) a end.
Proof. unfold read_alias. by rewrite strip_suffix_app. Qed.

Lemma swap_alias_Ok write_ok now alias new old a a' :
  swap_alias write_ok now alias new old a = Ok a' ↔
  write_ok = true ∧ ∃ d, files a !! alias = Some (Json d) ∧ target_path d = old ∧
    a' = with_files (insert alias (Json (swapped now new old d))) a.
Proof.
  unfold swap_alias, check_swap, write_swapped. rewrite result_bind_Ok.
  destruct (files a !! alias) as [[d| |]|]; [|naive_solver..]. case_bool_decide as E; [|naive_solver].
  destruct write_ok; naive_solver.
Qed.

End AliasManager.

(** ** The registry *)

Module GlobalRegistry.

Inductive opt_value := OInt (z : Z) | OStr (s : string).

Record Repo := mkRepo {
  repo_name : string; repo_url : option string; index_path : string; created_at : Q; last_refresh : Q;
  enable_temporal : bool; temporal_options : option (list (string * opt_value)); enable_scip : bool;
  (** a time; it is stored as its decimal representation *)
  next_refresh : option Q }.

Abbreviation table := (list (string * Repo)).

(** What [register_global_repo] is given. *)
Record Registration := {
  g_name : string; g_url : option string; g_path : string; g_temporal : bool;
  g_options : option (list (string * opt_value)); g_scip : bool }.

(** [RESERVED_GLOBAL_NAMES] is empty. *)
Definition RESERVED_GLOBAL_NAMES : gset string := ∅.

(** [StorageError]: an exception of the database. *)
Inductive registry_error := ReservedNameError | ValueError | RuntimeError | StorageError.

Definition check_alias (allow_reserved : bool) (alias : string) : option registry_error :=
  if negb allow_reserved && bool_decide (alias ∈ RESERVED_GLOBAL_NAMES) then Some ReservedNameError
  else if negb (endswith AliasManager.GLOBAL (string_lower alias)) then Some ValueError
  else None.

Definition set_last_refresh (now : Q) (r : Repo) : Repo :=
  mkRepo (repo_name r) (repo_url r) (index_path r) (created_at r) now (enable_temporal r) (temporal_options r) (enable_scip r) (next_refresh r).
Definition set_enable_temporal (b : bool) (r : Repo) : Repo :=
  mkRepo (repo_name r) (repo_url r) (index_path r) (created_at r) (last_refresh r) b (temporal_options r) (enable_scip r) (next_refresh r).
Definition set_enable_scip (b : bool) (r : Repo) : Repo :=
  mkRepo (repo_name r) (repo_url r) (index_path r) (created_at r) (last_refresh r) (enable_temporal r) (temporal_options r) b (next_refresh r).
Definition set_next_refresh (t : option Q) (r : Repo) : Repo :=
  mkRepo (repo_name r) (repo_url r) (index_path r) (created_at r) (last_refresh r) (enable_temporal r) (temporal_options r) (enable_scip r) t.

(** The assignments to one field of an existing entry. *)
Definition alter (f : Repo → Repo) (alias : string) (t : table) : table :=
  (λ kr, if bool_decide (kr.1 = alias) then (kr.1, f kr.2) else kr) <$> t.

(** *** The table *)

Definition sqlite_row (now : Q) (g : Registration) (old : option Repo) : Repo :=
  mkRepo (g_name g) (g_url g) (g_path g) (from_option created_at now old) now (g_temporal g)
    (match g_options g with Some [] => None | o => o end) (g_scip g) (old ≫= next_refresh).

Definition register_repo (now : Q) (alias : string) (g : Registration) (t : table) : table :=
  dset alias (sqlite_row now g (dget alias t)) t.

Definition delete_repo (alias : string) (t : table) : bool * table := (bool_decide (is_Some (dget alias t)), ddel alias t).

(** The four updates; whether a row was there. *)
Definition update_repo (f : Repo → Repo) (alias : string) (t : table) : bool * table :=
  (bool_decide (is_Some (dget alias t)), alter f alias t).

(** *** Due repositories *)

Definition is_due (now : Q) (kr : string * Repo) : bool :=
  match next_refresh kr.2 with Some t => Qle_bool t now | None => false end.

Definition due_at (kr : string * Repo) : Q := default 0%Q (next_refresh kr.2).

(** Ascending and stable; [due.sort(key=...)]. *)
Definition sort_due (l : table) : table := sort_desc (λ kr, - due_at kr)%Q l.

Definition json_list_due_repos (limit : Z) (now : Q) (t : table) : table :=
  if limit <=? 0 then [] else take (Z.to_nat limit) (sort_due (filter (λ kr, is_due now kr = true) t)).

(** [ORDER BY] sorts in some order of its own among equal times. *)
Definition sqlite_list_due_repos (order_by : table → table) (limit : Z) (now : Q) (t : table) : table :=
  if limit <=? 0 then [] else take (Z.to_nat limit) (order_by (filter (λ kr, is_due now kr = true) t)).

(** *** The JSON file *)

Inductive registry_file := Absent | Garbled | Saved (t : table).

(** One process: its dictionary and the file. *)
Record JsonRegistry := mkJson { _registry_data : table; file : registry_file }.

(** An atomic replacement of the file, or an error that leaves it alone. *)
Definition _save_registry (save_ok : bool) (r : JsonRegistry) : option registry_error * JsonRegistry :=
  if save_ok then (None, mkJson (_registry_data r) (Saved (_registry_data r))) else (Some RuntimeError, r).

Definition _load_registry (save_ok : bool) (f : registry_file) : option registry_error * JsonRegistry :=
  match f with
  | Saved t => (None, mkJson t f)
  | Garbled | Absent => _save_registry save_ok (mkJson [] f)
  end.

Definition json_row (now : Q) (g : Registration) : Repo :=
  mkRepo (g_name g) (g_url g) (g_path g) now now (g_temporal g) (g_options g) (g_scip g) None.

(** ** One registry *)

Inductive Registry := Json (r : JsonRegistry) | Sqlite (t : table).

Definition rows (r : Registry) : table := match r with Json j => _registry_data j | Sqlite t => t end.

(** The JSON form changes its dictionary and saves; a statement fails as a whole. *)
Definition commit (ok : bool) (t : table) (r : Registry) : option registry_error * Registry :=
  match r with
  | Json j => let '(e, j') := _save_registry ok (mkJson t (file j)) in (e, Json j')
  | Sqlite _ => if ok then (None, Sqlite t) else (Some StorageError, r)
  end.

Definition register_global_repo (ok allow_reserved : bool) (now : Q) (alias : string) (g : Registration) (r : Registry) :
    option registry_error * Registry :=
  match check_alias allow_reserved alias with
  | Some e => (Some e, r)
  | None => commit ok (match r with
                       | Json j => dset alias (json_row now g) (_registry_data j)
                       | Sqlite t => register_repo now alias g t
                       end) r
  end.

(** The JSON form saves only when the entry is there. *)
Definition on_entry (ok : bool) (alias : string) (t : table) (r : Registry) : option registry_error * Registry :=
  match r with
  | Json j => if bool_decide (is_Some (dget alias (_registry_data j))) then commit ok t r else (None, r)
  | Sqlite _ => commit ok t r
  end.

Definition unregister_global_repo (ok : bool) (alias : string) (r : Registry) : option registry_error * Registry :=
  on_entry ok alias (delete_repo alias (rows r)).2 r.

Definition get_global_repo (alias : string) (r : Registry) : option Repo := dget alias (rows r).
Definition list_global_repos (r : Registry) : table := rows r.

Definition update_field (f : Repo → Repo) (ok : bool) (alias : string) (r : Registry) : option registry_error * Registry :=
  on_entry ok alias (update_repo f alias (rows r)).2 r.

Definition update_refresh_timestamp (now : Q) := update_field (set_last_refresh now).
Definition update_enable_temporal (b : bool) := update_field (set_enable_temporal b).
Definition update_enable_scip (b : bool) := update_field (set_enable_scip b).
Definition update_next_refresh (t : option Q) := update_field (set_next_refresh t).

Definition list_due_repos (order_by : table → table) (limit : Z) (now : Q) (r : Registry) : table :=
  match r with Json j => json_list_due_repos limit now (_registry_data j) | Sqlite t => sqlite_list_due_repos order_by limit now t end.

(** ** Lemmas *)

Lemma dget_alter f alias k t : dget k (alter f alias t) = if bool_decide (k = alias) then f <$> dget k t else dget k t.
Proof.
  induction t as [|[k' r] t IH]; cbn; [by case_bool_decide|]. repeat (case_bool_decide; cbn); repeat case_decide; subst; try done;
    rewrite IH; by case_bool_decide.
Qed.

Lemma alter_keys f alias t : (alter f alias t).*1 = t.*1.
Proof. unfold alter. rewrite <-list_fmap_compose. apply list_fmap_ext. intros i [k r] _. cbn. by case_bool_decide. Qed.

(** What a list of due rows must be: the [limit] oldest, oldest first. *)
Definition due_spec (limit : Z) (now : Q) (t out : table) : Prop :=
  top_n (λ kr, - due_at kr)%Q (0 `max` limit) (filter (λ kr, is_due now kr = true) t) out.

Definition sorts (order_by : table → table) : Prop :=
  ∀ l, order_by l ≡ₚ l ∧ StronglySorted (desc (λ kr, - due_at kr)%Q) (order_by l).

Lemma sort_due_sorts : sorts sort_due.
Proof. intros l. split; [apply sort_desc_perm|apply sort_desc_sorted]. Qed.

Lemma take_sorted_spec order_by limit now t : sorts order_by →
  due_spec limit now t (if limit <=? 0 then [] else take (Z.to_nat limit) (order_by (filter (λ kr, is_due now kr = true) t))).
Proof.
  intros Hs. set (l := filter _ t). destruct (Hs l) as [Hp Hd]. unfold due_spec, top_n. destruct (Z.leb_spec limit 0) as [Hl|Hl].
  - exists l. split_and!; [done|constructor|set_solver|]. intros _. rewrite Z.max_l by lia. done.
  - exists (drop (Z.to_nat limit) (order_by l)). fold l. split_and!.
    + by rewrite take_drop.
    + eapply desc_sublist; [apply sublist_take|done].
    + intros x y Hx Hy. rewrite <-(take_drop (Z.to_nat limit) (order_by l)) in Hd. by eapply StronglySorted_app_1_elem_of.
    + intros _. rewrite length_take, Hp, Z.max_r by lia. done.
Qed.

(** Both forms of the registry give the oldest due rows, oldest first. *)
Lemma list_due_repos_spec order_by limit now r : sorts order_by → due_spec limit now (rows r) (list_due_repos order_by limit now r).
Proof.
  intros Hs. destruct r; [apply (take_sorted_spec sort_due), sort_due_sorts|by apply take_sorted_spec].
Qed.

(** *** What survives a restart *)

Definition synced (r : Registry) : Prop := match r with Json j => file j = Saved (_registry_data j) | Sqlite _ => True end.

Definition reload (r : Registry) : Registry := match r with Json j => Json (_load_registry true (file j)).2 | Sqlite t => Sqlite t end.

Lemma reload_synced r : synced r → reload r = r.
Proof. destruct r as [[d f]|t]; [|done]. cbn. by intros ->. Qed.

Lemma commit_synced ok t r : (commit ok t r).1 = None → synced (commit ok t r).2 ∧ rows (commit ok t r).2 = t.
Proof. destruct r as [[d f]|u], ok; cbn; done. Qed.

Lemma on_entry_synced ok alias t r : synced r → (on_entry ok alias t r).1 = None → synced (on_entry ok alias t r).2.
Proof. intros Hs. destruct r as [[d f]|u]; cbn -[commit]; [case_bool_decide; [|done]|]; intros He; by apply commit_synced. Qed.

End GlobalRegistry.

(** ** Activation *)

Module GlobalActivator.
Import AliasManager GlobalRegistry.

Definition global_alias (repo : string) : string := repo +:+ GLOBAL.

Record State := mkState { aliases : Aliases; registry : Registry }.

(** Outcomes of the writes: the alias file, the registry, and the two of the clean-up. *)
Record outcomes := { write_ok : bool; register_ok : bool; unlink_ok : bool; unregister_ok : bool }.

Definition clean_up (o : outcomes) (alias : string) (s : State) : State :=
  let a := if alias_exists alias (aliases s) then delete_alias (unlink_ok o) alias (aliases s) else aliases s in
  mkState a (match get_global_repo alias (registry s) with
             | Some _ => (unregister_global_repo (unregister_ok o) alias (registry s)).2
             | None => registry s
             end).

Definition activation (repo : string) (url : option string) (clone_path : string) (temporal : bool)
    (options : option (list (string * opt_value))) : Registration :=
  {| g_name := repo; g_url := url; g_path := clone_path; g_temporal := temporal; g_options := options; g_scip := false |}.

(** [true]: no [GlobalActivationError]. *)
Definition activate_golden_repo (o : outcomes) (now : Q) (repo : string) (url : option string) (clone_path : string)
    (temporal : bool) (options : option (list (string * opt_value))) (s : State) : bool * State :=
  let alias := global_alias repo in
  match create_alias (write_ok o) now alias clone_path (Some repo) (aliases s) with
  | Err _ => (false, clean_up o alias s)
  | Ok a =>
      let '(e, r) := register_global_repo (register_ok o) false now alias (activation repo url clone_path temporal options) (registry s) in
      match e with
      | None => (true, mkState a r)
      | Some _ => (false, clean_up o alias (mkState a r))
      end
  end.

Definition deactivate_golden_repo (o : outcomes) (repo : string) (s : State) : bool * State :=
  let alias := global_alias repo in
  let '(e, r) := unregister_global_repo (unregister_ok o) alias (registry s) in
  match e with
  | Some _ => (false, mkState (aliases s) r)
  | None => (true, mkState (delete_alias (unlink_ok o) alias (aliases s)) r)
  end.

Definition is_globally_active (repo : string) (s : State) : bool := bool_decide (is_Some (get_global_repo (global_alias repo) (registry s))).

Lemma string_lower_app a b : string_lower (a +:+ b) = (string_lower a +:+ string_lower b)%string.
Proof. induction a as [|c a IH]; [done|]. exact (f_equal (String _) IH). Qed.

Lemma global_alias_accepted repo : check_alias false (global_alias repo) = None.
Proof. unfold check_alias, global_alias. by rewrite string_lower_app, endswith_app. Qed.

Lemma registered_row now alias g r r' : register_global_repo true false now alias g r = (None, r') →
  ∃ x, get_global_repo alias r' = Some x ∧ index_path x = g_path g ∧ GlobalRegistry.repo_name x = g_name g ∧ GlobalRegistry.last_refresh x = now.
Proof.
  unfold register_global_repo, get_global_repo. destruct (check_alias false alias); [done|]. intros H.
  destruct r as [[d f]|t]; cbn in H; injection H as <-; cbn; unfold register_repo; rewrite dget_dset_eq; by eexists.
Qed.

Lemma unregistered alias r : (unregister_global_repo true alias r).1 = None ∧ get_global_repo alias (unregister_global_repo true alias r).2 = None.
Proof.
  assert (∀ t : table, dget alias (ddel alias t) = None) as Hd by (intros t; rewrite dget_ddel; by case_decide).
  unfold unregister_global_repo, on_entry, get_global_repo, delete_repo. destruct r as [[d f]|t]; cbn -[ddel dget]; [|by rewrite Hd].
  case_bool_decide as E; cbn -[ddel dget]; [by rewrite Hd|]. split; [done|by apply eq_None_not_Some].
Qed.

Lemma clean_up_done o alias s : unlink_ok o = true → unregister_ok o = true →
  files (aliases (clean_up o alias s)) !! alias = None ∧ get_global_repo alias (registry (clean_up o alias s)) = None.
Proof.
  intros Hu Hr. unfold clean_up. rewrite Hu, Hr. cbn [aliases registry]. split.
  - unfold alias_exists, delete_alias. case_bool_decide as E; [by apply lookup_delete_eq|by apply eq_None_not_Some].
  - destruct (get_global_repo alias (registry s)) eqn:E; [apply unregistered|done].
Qed.


Definition activate_flask (o : outcomes) (now : Q) : State → bool * State :=
  activate_golden_repo o now "flask" (Some "https://example.org/flask.git") "/data/golden-repos/flask" false None.
Definition no_aliases : Aliases := mkAliases ∅ ∅ None.
Definition all_ok : outcomes := {| write_ok := true; register_ok := true; unlink_ok := true; unregister_ok := true |}.


(** A failed attempt to activate an active repository deactivates it. *)
Lemma failed_reactivation_deactivates :
  let s := (activate_flask all_ok 5 (mkState no_aliases (Sqlite []))).2 in
  let o := {| write_ok := false; register_ok := true; unlink_ok := true; unregister_ok := true |} in
  is_globally_active "flask" s = true ∧
  let '(ok, s') := activate_flask o 9 s in
  ok = false ∧ read_alias "flask-global" (aliases s') = None ∧ is_globally_active "flask" s' = false.
Proof. by vm_compute. Qed.

End GlobalActivator.
