(* ===== verification/SnapshotRotation.v ===== *)
(** * Index versions of a global repository: snapshots, alias swaps, retention

    src/src/code_indexer/server/storage/shared/snapshot_paths.py, snapshot_manager.py,
    the naming of clone_backend.py, and the publication of a new version as in
    global_repos/refresh_scheduler.py, with its three siblings: adding an index and
    changing the branch (server/repositories/golden_repo_manager.py) and indexing for a
    provider (server/mcp/handlers/repos.py).

    A version is a directory named after the second it was made in.  Publication points
    the alias at it, schedules the version it replaces for deletion and trims old ones;
    the cleanup manager deletes what is scheduled. *)

From stdpp Require Import pretty.
From S2P Require Import Prelude PyText QueryTracker CleanupManager AliasRegistry.
From stdpp Require Import options.
Local Open Scope Z_scope.

Module SnapshotRotation.
Import AliasManager CleanupManager.

(** ** Which paths are versions *)

Definition _VERSIONED_SEGMENT : text := txt ".versioned".
Definition _ACTIVATED_REPOS_SEGMENT : text := txt "activated-repos".

Section predicate.
(** The characters that match [\d]. *)
Context (decimal : N → bool).

(** [^v_\d+$]; the dollar also matches before a newline at the end. *)
Definition _is_v_timestamp (component : text) : bool :=
  match component with
  | 118%N :: 95%N :: ds =>
      let ds := match last ds with Some 10%N => take (length ds - 1) ds | _ => ds end in
      bool_decide (ds ≠ []) && forallb decimal ds
  | _ => false
  end.

(** The last three components, innermost first. *)
Definition canonical (parts : list text) : bool :=
  match reverse parts with
  | leaf :: namespace :: marker :: _ =>
      _is_v_timestamp leaf && bool_decide (marker = _VERSIONED_SEGMENT)
      && bool_decide (namespace ∉ [_VERSIONED_SEGMENT; _ACTIVATED_REPOS_SEGMENT])
  | _ => false
  end.

(** A version of an earlier layout, relative to the mount point. *)
Definition transitional (parts : list text) : bool :=
  match parts with
  | [leaf] => _is_v_timestamp leaf
  | [namespace; leaf] => _is_v_timestamp leaf && bool_decide (namespace ≠ _ACTIVATED_REPOS_SEGMENT)
  | _ => false
  end.

Definition snapshot_path_test (path : string) (mount_point : option string) : bool :=
  let pure := path_of (txt path) in
  if bool_decide (path = "") || bool_decide (path_parts pure = []) then false
  else canonical (path_parts pure)
       || match truthy mount_point with
          | Some m => match relative_to pure (path_of (rstrip_by (N.eqb slash) (txt m))) with
                      | Some rel => transitional (path_parts rel)
                      | None => false
                      end
          | None => false
          end.

End predicate.

(** ** Where a backend puts versions *)

(** A directory (with or without [LocalCloneBackend]), the storage daemon, ONTAP through
    its clone backend, and ONTAP through [OntapFlexCloneClient] alone; the argument is
    the base directory, or the mount point without a final slash. *)
Inductive Backend := Local (versioned_base : string) | CowDaemon (mount : string) | Ontap (mount : string) | FlexClone (mount : string).

Definition daemon_char (c : Ascii.ascii) : bool :=
  let n := Ascii.N_of_ascii c in
  ((65 <=? n) && (n <=? 90) || (97 <=? n) && (n <=? 122) || (48 <=? n) && (n <=? 57) || (n =? 95) || (n =? 45))%N.

Fixpoint _sanitize_identifier (s : string) : string :=
  match s with
  | EmptyString => EmptyString
  | String c s' => String (if daemon_char c then c else Ascii.ascii_of_N 95) (_sanitize_identifier s')
  end.

Definition _backend_mount_point (b : Backend) : option string :=
  match b with Local _ => None | CowDaemon m | Ontap m => truthy (Some m) | FlexClone m => Some m end.

(** The namespace of an alias, and the directory of a version in it. *)
Definition namespace (b : Backend) (alias : string) : string :=
  let ns := removesuffix GLOBAL alias in match b with CowDaemon _ => _sanitize_identifier ns | _ => ns end.

Definition version_dir (root ns : string) (ts : Z) : string := root +:+ "/.versioned/" +:+ ns +:+ "/v_" +:+ pretty ts.

Definition snapshot_path (b : Backend) (ns : string) (ts : Z) : string :=
  match b with
  | Local root | CowDaemon root => version_dir root ns ts
  | Ontap m => m +:+ "/v_" +:+ pretty ts
  | FlexClone m => m +:+ "/cidx_clone_" +:+ ns +:+ "_" +:+ pretty ts
  end.

(** The versions that exist, as namespace and time. *)
Abbreviation disk := (gset (string * Z)).

Definition versions (ns : string) (d : disk) : list Z :=
  merge_sort Z.le (elements (set_map (D := gset Z) snd (filter (λ v : string * Z, v.1 = ns) d))).

(** [listing_ok]: the daemon answers. *)
Definition list_snapshots (b : Backend) (listing_ok : bool) (alias : string) (d : disk) : list (string * Z) :=
  let found := (λ ts, (snapshot_path b (namespace b alias) ts, ts)) <$> versions (namespace b alias) d in
  match b with
  | Local root => if bool_decide (root = "") then [] else found
  | CowDaemon _ => if listing_ok then found else []
  | Ontap _ | FlexClone _ => []
  end.

Definition latest_snapshot (b : Backend) (listing_ok : bool) (alias : string) (d : disk) : option string :=
  fst <$> last (list_snapshots b listing_ok alias d).

Definition _latest_versioned_timestamp (b : Backend) (listing_ok : bool) (alias : string) (d : disk) : option Z :=
  snd <$> last (list_snapshots b listing_ok alias d).

(** ** Retention and publication *)

Definition _DEFAULT_SNAPSHOT_RETENTION_KEEP_LAST : Z := 3.

(** [configured]: [None] when it cannot be read as an integer. *)
Definition _retention_keep_last (configured : option Z) : nat :=
  Z.to_nat (match configured with
            | Some k => if k <? 1 then _DEFAULT_SNAPSHOT_RETENTION_KEEP_LAST else k
            | None => _DEFAULT_SNAPSHOT_RETENTION_KEEP_LAST
            end).

Record Storage := mkStorage { aliases : Aliases; snapshots : disk; cleaner : manager }.

Definition with_aliases (a : Aliases) (w : Storage) : Storage := mkStorage a (snapshots w) (cleaner w).
Definition with_snapshots (d : disk) (w : Storage) : Storage := mkStorage (aliases w) d (cleaner w).
Definition with_cleaner (m : manager) (w : Storage) : Storage := mkStorage (aliases w) (snapshots w) m.

Record Settings := {
  backend : Backend;
  golden_repos_dir : string;
  keep_last : option Z;
  decimal : N → bool }.

Definition is_snapshot (c : Settings) (p : string) : bool := snapshot_path_test (decimal c) p (_backend_mount_point (backend c)).

(** [golden_repos_dir / repo_name]. *)
Definition master_path (c : Settings) (alias : string) : string := golden_repos_dir c +:+ "/" +:+ removesuffix GLOBAL alias.

(** What retention spares. *)
Definition protected (keep : nat) (current : string) (previous : option string) (snaps : list (string * Z)) : list string :=
  (if bool_decide (current = "") then [] else [current]) ++ option_list (truthy previous) ++ (drop (length snaps - keep) snaps).*1.

Definition surplus (keep : nat) (current : string) (previous : option string) (snaps : list (string * Z)) : list string :=
  if bool_decide (length snaps ≤ keep)%nat then []
  else filter (λ p, p ∉ protected keep current previous snaps) snaps.*1.

Definition _enforce_retention (c : Settings) (listing_ok : bool) (alias current : string) (w : Storage) : Storage :=
  with_cleaner
    (foldl (λ m p, schedule_cleanup p m) (cleaner w)
       (surplus (_retention_keep_last (keep_last c)) current (get_previous_path alias (aliases w))
          (list_snapshots (backend c) listing_ok alias (snapshots w)))) w.

(** The master-guard: only a version that is not the master clone is scheduled. *)
Definition schedule_superseded (c : Settings) (alias : string) (old : option string) (w : Storage) : Storage :=
  match truthy old with
  | Some p => if is_snapshot c p && negb (bool_decide (p = master_path c alias)) then with_cleaner (schedule_cleanup p (cleaner w)) w else w
  | None => w
  end.

(** Refresh and the addition of an index: a validated swap. *)
Definition publish (c : Settings) (write_ok listing_ok : bool) (now : Q) (alias new : string) (old : option string) (w : Storage) :
    result alias_error Storage :=
  a ← swap_alias write_ok now alias new old (aliases w);
  Ok (_enforce_retention c listing_ok alias new (schedule_superseded c alias old (with_aliases a w))).

(** A change of branch overwrites the alias. *)
Definition _cb_swap_alias (c : Settings) (write_ok listing_ok : bool) (now : Q) (alias new : string) (w : Storage) :
    result alias_error Storage :=
  let old := read_alias alias (aliases w) in
  a ← create_alias write_ok now alias new (Some (removesuffix GLOBAL alias)) (aliases w);
  Ok (_enforce_retention c listing_ok alias new (schedule_superseded c alias old (with_aliases a w))).

(** Indexing for a provider: no guard and no retention; a mismatch removes the new
    version again. *)
Definition _post_provider_index_snapshot (c : Settings) (write_ok : bool) (now : Q) (alias : string) (ts : Z) (old : string) (w : Storage) :
    Storage :=
  match swap_alias write_ok now alias (snapshot_path (backend c) (namespace (backend c) alias) ts) (Some old) (aliases w) with
  | Ok a => with_cleaner (schedule_cleanup old (cleaner w)) (with_aliases a w)
  | Err ValueError => with_snapshots (snapshots w ∖ {[(namespace (backend c) alias, ts)]}) w
  | Err RuntimeError => w
  end.

(** ** Lemmas: strings *)

Definition no_slash (s : string) : Prop := slash ∉ txt s.

Lemma app_inj_prefix (a b c : string) : (a +:+ b = a +:+ c)%string → b = c.
Proof. induction a as [|x a IH]; [done|]. intros [= H]. by apply IH. Qed.

Lemma txt_cons c s : txt (String c s) = Ascii.N_of_ascii c :: txt s.
Proof. done. Qed.

Lemma split_at_slash a b x y : no_slash a → no_slash b →
  (a +:+ "/" +:+ x = b +:+ "/" +:+ y)%string → a = b ∧ x = y.
Proof.
  revert b. induction a as [|c a IH]; intros [|d b] Ha Hb E.
  - split; [done|]. exact (app_inj_prefix "/" x y E).
  - exfalso. apply Hb. assert (d = Ascii.ascii_of_N 47) as -> by (by injection E). left.
  - exfalso. apply Ha. assert (c = Ascii.ascii_of_N 47) as -> by (by injection E). left.
  - assert (c = d) as -> by (by injection E). unfold no_slash in *. rewrite txt_cons in Ha, Hb.
    destruct (IH b) as [-> ->]; [set_solver..|exact (app_inj_prefix (String d "") _ _ E)|done].
Qed.

Lemma version_dir_inj root ns ns' ts ts' : no_slash ns → no_slash ns' →
  version_dir root ns ts = version_dir root ns' ts' → ns = ns' ∧ ts = ts'.
Proof.
  unfold version_dir. intros Hn Hn' H%app_inj_prefix%(app_inj_prefix "/.versioned/").
  destruct (split_at_slash ns ns' ("v_" +:+ pretty ts) ("v_" +:+ pretty ts') Hn Hn' H) as [-> E%(app_inj_prefix "v_")].
  split; [done|by apply (inj pretty)].
Qed.

Lemma sanitized_no_slash s : no_slash (_sanitize_identifier s).
Proof.
  unfold no_slash. induction s as [|c s IH]; [by apply not_elem_of_nil|]. cbn [_sanitize_identifier]. rewrite txt_cons, not_elem_of_cons. split; [|done].
  unfold slash. destruct (daemon_char c) eqn:E; [|by vm_compute]. intros Hc. unfold daemon_char in E. rewrite <-Hc in E. by vm_compute in E.
Qed.

(** ** Lemmas: listing and retention *)

Lemma elem_of_versions ns d ts : ts ∈ versions ns d ↔ (ns, ts) ∈ d.
Proof.
  unfold versions. rewrite merge_sort_Permutation, elem_of_elements, elem_of_map. split.
  - intros ([n t] & -> & [Hn Hd]%elem_of_filter). cbn in *. by subst.
  - intros H. exists (ns, ts). split; [done|]. by apply elem_of_filter.
Qed.

Lemma versions_sorted ns d : StronglySorted Z.lt (versions ns d).
Proof.
  assert (StronglySorted Z.le (versions ns d)) as Hs by (apply (StronglySorted_merge_sort Z.le)).
  assert (NoDup (versions ns d)) as Hn by (unfold versions; rewrite merge_sort_Permutation; apply NoDup_elements).
  induction Hs as [|x l Hs IH Hall]; constructor.
  - apply IH. by apply NoDup_cons in Hn as [_ ?].
  - apply NoDup_cons in Hn as [Hx _]. rewrite Forall_forall in *. intros y Hy. pose proof (Hall y Hy). assert (x ≠ y) by (by intros ->). lia.
Qed.

Lemma list_snapshots_elem b ok alias d p ts : (p, ts) ∈ list_snapshots b ok alias d →
  p = snapshot_path b (namespace b alias) ts ∧ (namespace b alias, ts) ∈ d.
Proof.
  assert (∀ l, l = (λ ts, (snapshot_path b (namespace b alias) ts, ts)) <$> versions (namespace b alias) d → (p, ts) ∈ l →
               p = snapshot_path b (namespace b alias) ts ∧ (namespace b alias, ts) ∈ d) as Hl.
  { intros l -> (t & [= -> ->] & Ht)%list_elem_of_fmap. by rewrite <-elem_of_versions. }
  unfold list_snapshots. destruct b; try case_match; try (by apply Hl); by intros ?%not_elem_of_nil.
Qed.

Lemma queue_foldl l m : cleanup_queue (foldl (λ m p, schedule_cleanup p m) m l) = list_to_set l ∪ cleanup_queue m.
Proof. revert m. induction l as [|p l IH]; intros m; cbn -[list_to_set union]; [set_solver|]. rewrite IH. cbn. set_solver. Qed.

Lemma elem_of_surplus keep cur prev snaps p : p ∈ surplus keep cur prev snaps →
  p ∉ protected keep cur prev snaps ∧ ∃ ts, (p, ts) ∈ snaps.
Proof.
  unfold surplus. case_bool_decide; [by intros ?%not_elem_of_nil|]. intros [Hp (x & -> & Hx)%list_elem_of_fmap]%list_elem_of_filter.
  split; [done|]. exists x.2. by destruct x.
Qed.

Lemma current_protected keep cur prev snaps : cur ≠ ""%string → cur ∈ protected keep cur prev snaps.
Proof. intros H. unfold protected. rewrite bool_decide_eq_false_2 by done. set_solver. Qed.

(** What an operation adds to the queue. *)
Lemma retention_queue c ok alias cur w p : cur ≠ ""%string → p ∈ cleanup_queue (cleaner (_enforce_retention c ok alias cur w)) →
  p ∈ cleanup_queue (cleaner w) ∨
  p ≠ cur ∧ ∃ ts, p = snapshot_path (backend c) (namespace (backend c) alias) ts ∧ (namespace (backend c) alias, ts) ∈ snapshots w.
Proof.
  intros Hc. unfold _enforce_retention. cbn [cleaner with_cleaner]. rewrite queue_foldl, elem_of_union, elem_of_list_to_set. intros [Hp|Hp]; [right|by left].
  apply elem_of_surplus in Hp as [Hn [ts Hts]]. apply list_snapshots_elem in Hts as [-> Hd]. split; [|by eauto].
  intros E. apply Hn. rewrite E. by apply current_protected.
Qed.

Lemma superseded_queue c alias old w p : p ∈ cleanup_queue (cleaner (schedule_superseded c alias old w)) →
  p ∈ cleanup_queue (cleaner w) ∨ old = Some p ∧ p ≠ master_path c alias ∧ is_snapshot c p = true.
Proof.
  unfold schedule_superseded. destruct (truthy old) as [q|] eqn:E; [|by left].
  destruct (is_snapshot c q) eqn:Es; [|by left]. case_bool_decide as Em; cbn; [by left|]. rewrite elem_of_union, elem_of_singleton.
  intros [->|?]; [right|by left]. split_and!; [|done|done]. by destruct old as [[|]|]; simplify_eq/=.
Qed.

(** ** The backend of the cleanup manager

    Deletion through the snapshot manager removes the version and nothing else, or
    fails; so does the removal of any other directory. *)

Definition path_in (c : Settings) (d : disk) (p : string) : bool :=
  existsb (λ v, bool_decide (snapshot_path (backend c) v.1 v.2 = p)) (elements d).
Definition remove (c : Settings) (p : string) (d : disk) : disk := filter (λ v : string * Z, snapshot_path (backend c) v.1 v.2 ≠ p) d.

Definition disk_env (c : Settings) (broken : string → bool) : environment disk := {|
  snapshot_manager := Some {| is_versioned_snapshot := is_snapshot c;
                              delete_snapshot := λ p d, if broken p then (Err OtherErrno, d) else (Ok (), remove c p d) |};
  path_exists := λ p d, path_in c d p;
  path_is_dir := λ _ _, true;
  rmtree := λ p d, if broken p then (Err OtherErrno, d) else (Ok (), remove c p d);
  os_walk := λ _ _, [];
  os_unlink := λ _ d, (Ok (), d);
  os_rmdir := λ _ d, (Err OtherErrno, d);
  register_job := λ d, (None, d);
  complete_job := λ _ d, d;
  fail_job := λ _ d, d |}.

Lemma delete_index_removes c broken p d v : v ∈ d → v ∉ (_delete_index (disk_env c broken) p d).2 →
  snapshot_path (backend c) v.1 v.2 = p.
Proof.
  intros Hv Hn. destruct (decide (snapshot_path (backend c) v.1 v.2 = p)) as [|Hp]; [done|]. exfalso. apply Hn. clear Hn.
  assert (v ∈ remove c p d) as Hr by (by apply elem_of_filter).
  unfold _delete_index, _robust_delete. cbn. destruct (is_snapshot c p), (broken p); cbn; try done; by destruct (path_in c d p).
Qed.

Lemma delete_index_subset c broken p d : (_delete_index (disk_env c broken) p d).2 ⊆ d.
Proof.
  assert (remove c p d ⊆ d) by (unfold remove; set_solver).
  unfold _delete_index, _robust_delete. cbn. destruct (is_snapshot c p), (broken p); cbn; try done; by destruct (path_in c d p).
Qed.

Section cleaning.
Context {T : Type} `{RefCounter T}.

Lemma process_path_disk c broken ct ft (t : T) p m d o m' d' : process_path (disk_env c broken) ct ft t p m d = (o, m', d') →
  d' ⊆ d ∧ (∀ v, v ∈ d → v ∉ d' → snapshot_path (backend c) v.1 v.2 = p) ∧ (∀ q, q ∈ cleanup_queue m' → q ∈ cleanup_queue m).
Proof.
  pose proof (delete_index_subset c broken p d) as Hs. pose proof (delete_index_removes c broken p d) as Hr.
  unfold process_path. destruct (_ <=? _); [intros [= <- <- <-]; split_and!; [done|done|set_solver]|].
  destruct (negb _); [intros [= <- <- <-]; split_and!; [done|done|done]|].
  destruct (negb _); [intros [= <- <- <-]; split_and!; [done|done|done]|]. cbn [register_job disk_env].
  destruct (_delete_index _ _ _) as [[[]|e] d2]; intros [= <- <- <-]; split_and!; try done; set_solver.
Qed.

Lemma process_paths_disk c broken ct ft (t : T) ps m d tr m' d' : process_paths (disk_env c broken) ct ft t ps m d = (tr, m', d') →
  d' ⊆ d ∧ (∀ v, v ∈ d → v ∉ d' → snapshot_path (backend c) v.1 v.2 ∈ ps) ∧ (∀ q, q ∈ cleanup_queue m' → q ∈ cleanup_queue m).
Proof.
  revert m d tr m' d'. induction ps as [|p ps IH]; intros m d tr m' d'; cbn [process_paths]; [by intros [= <- <- <-]|].
  destruct (process_path _ _ _ _ _ _ _) as [[o m1] d1] eqn:E1. destruct (process_paths _ _ _ _ _ _ _) as [[tr2 m2] d2] eqn:E2. intros [= <- <- <-].
  destruct (process_path_disk _ _ _ _ _ _ _ _ _ _ _ E1) as (H1 & H2 & H3). destruct (IH _ _ _ _ _ E2) as (H4 & H5 & H6). split_and!.
  - by trans d1.
  - intros v Hv Hn. destruct (decide (v ∈ d1)) as [Hd|Hd]; [right; by apply H5|]. rewrite (H2 v Hv Hd). left.
  - auto.
Qed.

(** A cycle deletes only what is scheduled, and schedules nothing. *)
Lemma cycle_disk c broken order pr ct ft (t : T) m d tr m' d' : (∀ X, order X ≡ₚ elements X) →
  _process_cleanup_queue (disk_env c broken) order pr ct ft t m d = (tr, m', d') →
  d' ⊆ d ∧ (∀ v, v ∈ d → v ∉ d' → snapshot_path (backend c) v.1 v.2 ∈ cleanup_queue m) ∧ (∀ q, q ∈ cleanup_queue m' → q ∈ cleanup_queue m).
Proof.
  intros Ho. unfold _process_cleanup_queue. destruct (_is_fd_usage_high pr); [by intros [= <- <- <-]|].
  intros (H1 & H2 & H3)%process_paths_disk. split_and!; [done| |done]. intros v Hv Hn. pose proof (H2 v Hv Hn) as Hp.
  by rewrite (Ho _), elem_of_elements in Hp.
Qed.

End cleaning.

(** ** The system

    Repositories are refreshed, indexed and switched by several threads at once.  An
    operation with a validated swap reads the alias, later makes its version, and
    publishes it later still; other operations may run in between.  A publication, from
    its swap to its retention, is one step, and so is a change of branch from its
    version on (see [late_branch_change] for what happens otherwise). *)

(** An operation in flight: the target it read, the version it made, and whether it is
    provider indexing. *)
Record flight := { f_alias : string; f_old : option string; f_new : option Z; f_provider : bool }.

(** [used]: every version ever made. *)
Record System := mkSystem { storage : Storage; used : disk; flights : gmap nat flight }.

Definition target (a : string) (s : System) : option string := read_alias_file a (aliases (storage s)).
Definition idle (a : string) (s : System) : Prop := ∀ i f, flights s !! i = Some f → f_alias f ≠ a.

Definition no_order (order : gset string → list string) : Prop := ∀ X, order X ≡ₚ elements X.

Section system.
Context (c : Settings) (names : gset string).

Definition ns (a : string) : string := namespace (backend c) a.
Definition path (a : string) (ts : Z) : string := snapshot_path (backend c) (ns a) ts.

(** What becomes of the storage when the operation publishes. *)
Definition published (write_ok listing_ok : bool) (now : Q) (f : flight) (ts : Z) (w : Storage) : Storage :=
  if f_provider f then _post_provider_index_snapshot c write_ok now (f_alias f) ts (default "" (f_old f)) w
  else match publish c write_ok listing_ok now (f_alias f) (path (f_alias f) ts) (f_old f) w with Ok w' => w' | Err _ => w end.

Inductive step : System → System → Prop :=
| s_begin i a b s : flights s !! i = None → a ∈ names →
    (b = true → ∃ ts, read_alias a (aliases (storage s)) = Some (path a ts)) →
    step s (mkSystem (storage s) (used s) (<[i := {| f_alias := a; f_old := read_alias a (aliases (storage s)); f_new := None; f_provider := b |}]> (flights s)))
| s_make i f ts s : flights s !! i = Some f → f_new f = None → (ns (f_alias f), ts) ∉ used s →
    step s (mkSystem (with_snapshots ({[(ns (f_alias f), ts)]} ∪ snapshots (storage s)) (storage s)) ({[(ns (f_alias f), ts)]} ∪ used s)
              (<[i := {| f_alias := f_alias f; f_old := f_old f; f_new := Some ts; f_provider := f_provider f |}]> (flights s)))
| s_publish i f ts write_ok listing_ok now s : flights s !! i = Some f → f_new f = Some ts →
    step s (mkSystem (published write_ok listing_ok now f ts (storage s)) (used s) (delete i (flights s)))
| s_abandon i f (removed : bool) s : flights s !! i = Some f →
    step s (mkSystem (match f_new f with
                      | Some ts => if removed then with_snapshots (snapshots (storage s) ∖ {[(ns (f_alias f), ts)]}) (storage s) else storage s
                      | None => storage s
                      end) (used s) (delete i (flights s)))
| s_change_branch a ts write_ok listing_ok now s : a ∈ names → (ns a, ts) ∉ used s →
    step s (mkSystem (let w := with_snapshots ({[(ns a, ts)]} ∪ snapshots (storage s)) (storage s) in
                      match _cb_swap_alias c write_ok listing_ok now a (path a ts) w with Ok w' => w' | Err _ => w end)
              ({[(ns a, ts)]} ∪ used s) (flights s))
| s_activate a now name al s : a ∈ names → idle a s → create_alias true now a (master_path c a) name (aliases (storage s)) = Ok al →
    step s (mkSystem (with_aliases al (storage s)) (used s) (flights s))
| s_deactivate a ok s : step s (mkSystem (with_aliases (delete_alias ok a (aliases (storage s))) (storage s)) (used s) (flights s))
| s_stamp a now al s : update_refresh_timestamp true now a (aliases (storage s)) = Ok al →
    step s (mkSystem (with_aliases al (storage s)) (used s) (flights s))
| s_enter_write_mode a bare t s : a ∈ names → strip_suffix GLOBAL a = Some bare →
    step s (mkSystem (with_aliases (with_markers (insert bare (Marker (Some (master_path c a)) (Some t))) (aliases (storage s))) (storage s)) (used s) (flights s))
| s_exit_write_mode bare s :
    step s (mkSystem (with_aliases (with_markers (delete bare) (aliases (storage s))) (storage s)) (used s) (flights s))
| s_clean (T : Type) (H : RefCounter T) broken order pr ct ft (t : T) tr m' d' s : no_order order →
    _process_cleanup_queue (disk_env c broken) order pr ct ft t (cleaner (storage s)) (snapshots (storage s)) = (tr, m', d') →
    step s (mkSystem (mkStorage (aliases (storage s)) d' m') (used s) (flights s)).

(** No alias, no version, nothing scheduled. *)
Definition start : System := mkSystem (mkStorage (mkAliases ∅ ∅ None) ∅ init) ∅ ∅.
Definition reachable (s : System) : Prop := rtc step start s.

(** Names whose versions and masters cannot be confused. *)
Record apart : Prop := {
  ns_apart : ∀ a b, a ∈ names → b ∈ names → ns a = ns b → a = b;
  path_apart : ∀ a b ts ts', a ∈ names → b ∈ names → path a ts = path b ts' → ns a = ns b ∧ ts = ts';
  master_apart : ∀ a b ts, a ∈ names → b ∈ names → master_path c a ≠ path b ts;
  path_nonempty : ∀ a ts, path a ts ≠ ""%string }.

(** *** The invariant *)

Context (Hapart : apart).

Definition version_of (a : string) (d : disk) (p : string) : Prop := ∃ ts, p = path a ts ∧ (ns a, ts) ∈ d.
Definition queue (s : System) : gset string := cleanup_queue (cleaner (storage s)).

Record Inv (s : System) : Prop := {
  i_files : ∀ a d, files (aliases (storage s)) !! a = Some (Json d) → a ∈ names ∧
    ∃ t, target_path d = Some t ∧ (t = master_path c a ∨ version_of a (snapshots (storage s)) t) ∧ t ∉ queue s;
  i_markers : write_mode_backend (aliases (storage s)) = None ∧
    ∀ bare x e, markers (aliases (storage s)) !! bare = Some (Marker (Some x) e) →
      ∃ a, a ∈ names ∧ strip_suffix GLOBAL a = Some bare ∧ x = master_path c a;
  i_queue : ∀ p, p ∈ queue s → ∃ a, a ∈ names ∧ version_of a (used s) p;
  i_disk : snapshots (storage s) ⊆ used s;
  i_flight : ∀ i f, flights s !! i = Some f → f_alias f ∈ names ∧
    (∀ o, f_old f = Some o → o = master_path c (f_alias f) ∨ version_of (f_alias f) (used s) o) ∧
    (f_provider f = true → ∃ ts, f_old f = Some (path (f_alias f) ts));
  i_new : ∀ i f ts, flights s !! i = Some f → f_new f = Some ts →
    (ns (f_alias f), ts) ∈ used s ∧ target (f_alias f) s ≠ Some (path (f_alias f) ts) ∧
    (∀ o, f_old f = Some o → target (f_alias f) s = Some o → path (f_alias f) ts ∉ queue s ∧ (ns (f_alias f), ts) ∈ snapshots (storage s)) ∧
    (∀ j g, flights s !! j = Some g → f_alias g = f_alias f → f_old g ≠ Some (path (f_alias f) ts) ∧ (f_new g = Some ts → j = i)) }.

Lemma path_inj a b ts ts' : a ∈ names → b ∈ names → path a ts = path b ts' → a = b ∧ ts = ts'.
Proof using Hapart. intros Ha Hb E. destruct (path_apart Hapart a b ts ts' Ha Hb E) as [E' ->]. split; [by apply (ns_apart Hapart)|done]. Qed.

Lemma path_not_used a ts s : Inv s → a ∈ names → (ns a, ts) ∉ used s → ∀ b, b ∈ names → ¬ version_of b (used s) (path a ts).
Proof using Hapart. intros _ Ha Hn b Hb (t & E & Ht). by destruct (path_inj a b ts t Ha Hb E) as [-> ->]. Qed.

Lemma target_spec s a t : Inv s → target a s = Some t → a ∈ names ∧ (t = master_path c a ∨ version_of a (snapshots (storage s)) t) ∧ t ∉ queue s.
Proof using Hapart.
  unfold target, read_alias_file. intros HI. destruct (files _ !! a) as [[d| |]|] eqn:E; [|done..].
  destruct (i_files s HI a d E) as (Ha & t' & -> & H). by intros [= <-].
Qed.

Lemma version_mono (a : string) (d d' : disk) p : d ⊆ d' → version_of a d p → version_of a d' p.
Proof. intros Hs (ts & -> & H). exists ts. split; [done|by apply Hs]. Qed.

Lemma read_alias_source s a o : Inv s → read_alias a (aliases (storage s)) = Some o → o = master_path c a ∨ target a s = Some o.
Proof using Hapart.
  intros HI. unfold read_alias. destruct (strip_suffix GLOBAL a) as [bare|] eqn:Eb; [|by right]. destruct (i_markers s HI) as [Hn Hm].
  unfold _read_write_mode_source_path. rewrite Hn. destruct (markers _ !! bare) as [[[x|] e|]|] eqn:Em; [|by right..].
  destruct x as [|ch x]; [by right|]. cbn. intros [= <-]. left. destruct (Hm _ _ _ Em) as (b & _ & Eb' & ->).
  apply strip_suffix_Some in Eb, Eb'. congruence.
Qed.

Lemma read_alias_spec s a o : Inv s → read_alias a (aliases (storage s)) = Some o →
  o = master_path c a ∨ version_of a (used s) o.
Proof using Hapart.
  intros HI [?|(_ & [?|H] & _)%(target_spec s a o HI)]%(read_alias_source s a o HI); [by left..|right].
  eapply version_mono; [apply (i_disk s HI)|done].
Qed.

Lemma rotation_start : Inv start.
Proof using Hapart.
  split; cbn.
  - intros a d H. by rewrite lookup_empty in H.
  - split; [done|]. intros bare x e H. by rewrite lookup_empty in H.
  - intros p H. unfold queue in H. cbn in H. set_solver.
  - done.
  - intros i f H. by rewrite lookup_empty in H.
  - intros i f ts H. by rewrite lookup_empty in H.
Qed.

(** Fewer flights. *)
Lemma inv_flights s fl : Inv s → fl ⊆ flights s → Inv (mkSystem (storage s) (used s) fl).
Proof using Hapart.
  intros [I1 I2 I3 I4 I5 I6] Hfl. assert (∀ i f, fl !! i = Some f → flights s !! i = Some f) as Hl by (intros i f Hi; eapply lookup_weaken; [exact Hi|exact Hfl]).
  split; cbn; try done.
  - intros i f H. by apply I5 with i, Hl.
  - intros i f ts H Hn. destruct (I6 i f ts (Hl _ _ H) Hn) as (? & ? & ? & Hj). split_and!; try done. intros j g Hg. by apply Hj, Hl.
Qed.

(** A version more, or one less that nobody waits for. *)
Lemma inv_make s a ts : Inv s → a ∈ names → (ns a, ts) ∉ used s →
  Inv (mkSystem (with_snapshots ({[(ns a, ts)]} ∪ snapshots (storage s)) (storage s)) ({[(ns a, ts)]} ∪ used s) (flights s)).
Proof using Hapart.
  intros [I1 I2 I3 I4 I5 I6] Ha Hn. split; cbn; unfold queue, target in *; cbn in *.
  - intros b d H. destruct (I1 b d H) as (Hb & t & Ht & Hv & Hq). split; [done|]. exists t. split_and!; [done| |done].
    destruct Hv as [?|Hv]; [by left|right]. eapply version_mono; [|done]. set_solver.
  - done.
  - intros p H. destruct (I3 p H) as (b & Hb & Hv). exists b. split; [done|]. eapply version_mono; [|done]. set_solver.
  - set_solver.
  - intros i f H. destruct (I5 i f H) as (Hb & Ho & Hp). split_and!; [done| |done]. intros o Hf. destruct (Ho o Hf) as [?|Hv]; [by left|right].
    eapply version_mono; [|done]. set_solver.
  - intros i f t H Ht. destruct (I6 i f t H Ht) as (Hu & Htar & Hw & Hj). split_and!; [set_solver|done| |done].
    intros o Ho Hto. destruct (Hw o Ho Hto). split; [done|set_solver].
Qed.

Lemma inv_unmake s a ts : Inv s → a ∈ names → target a s ≠ Some (path a ts) →
  (∀ i f, flights s !! i = Some f → f_alias f = a → f_new f ≠ Some ts) →
  Inv (mkSystem (with_snapshots (snapshots (storage s) ∖ {[(ns a, ts)]}) (storage s)) (used s) (flights s)).
Proof using Hapart.
  intros HI Ha Ht Hf. pose proof HI as [I1 I2 I3 I4 I5 I6]. split; cbn; unfold queue in *; cbn in *; try done.
  - intros b d H. destruct (I1 b d H) as (Hb & t & Htp & Hv & Hq). split; [done|]. exists t. split_and!; [done| |done].
    destruct Hv as [?|(t' & -> & Hd)]; [by left|right]. exists t'. split; [done|]. apply elem_of_difference. split; [done|].
    intros [= En ->]%elem_of_singleton. apply (ns_apart Hapart) in En as ->; [|done..]. apply Ht. unfold target, read_alias_file. by rewrite H.
  - set_solver.
  - intros i f t H Hn. destruct (I6 i f t H Hn) as (Hu & Htar & Hw & Hj). split_and!; [done|done| |done].
    intros o Ho Hto. destruct (Hw o Ho Hto) as [Hq Hd]. split; [done|]. apply elem_of_difference. split; [done|].
    intros [= En ->]%elem_of_singleton. apply (ns_apart Hapart) in En; [|by apply (I5 i f)|done]. by apply (Hf i f).
Qed.

(** An alias is pointed at a version that nobody else waits for and that is not scheduled. *)
Lemma inv_point s a n d m : Inv s → a ∈ names → (ns a, n) ∈ snapshots (storage s) → target_path d = Some (path a n) →
  path a n ∉ cleanup_queue m →
  (∀ p, p ∈ cleanup_queue m → p ∈ queue s ∨ version_of a (used s) p) →
  (∀ i f, flights s !! i = Some f → f_alias f = a → f_old f ≠ Some (path a n) ∧ f_new f ≠ Some n) →
  Inv (mkSystem (mkStorage (with_files (insert a (Json d)) (aliases (storage s))) (snapshots (storage s)) m) (used s) (flights s)).
Proof using Hapart.
  intros HI Ha Hn Hd Hq Hm Hf. pose proof HI as [I1 I2 I3 I4 I5 I6].
  assert (∀ b, target b (mkSystem (mkStorage (with_files (insert a (Json d)) (aliases (storage s))) (snapshots (storage s)) m) (used s) (flights s))
               = if decide (a = b) then Some (path a n) else target b s) as Htar.
  { intros b. unfold target, read_alias_file. cbn. rewrite lookup_insert. case_decide; [by rewrite Hd|done]. }
  split; cbn.
  - intros b d' H. unfold queue. cbn. rewrite lookup_insert in H. case_decide; [simplify_eq|].
    + split; [done|]. exists (path b n). split_and!; [done| |done]. right. by exists n.
    + destruct (I1 b d' H) as (Hb & t & Ht & Hv & Hnq). split; [done|]. exists t. split_and!; [done..|]. intros [?|Hp]%Hm; [done|].
      destruct Hp as (t' & -> & Hu). destruct Hv as [E|(t2 & E & _)]; [by apply eq_sym, (master_apart Hapart) in E|].
      by apply path_inj in E as [-> _].
  - done.
  - intros p [Hp|Hp]%Hm; [by apply I3|eauto].
  - done.
  - done.
  - intros i f t H Ht. destruct (I6 i f t H Ht) as (Hu & Hta & Hw & Hj). destruct (I5 i f H) as (Hb & _). split_and!; [done| | |done].
    + rewrite Htar. case_decide as E; [|done]. intros [= Ep]. rewrite E in Ep. apply path_inj in Ep as [_ ->]; [|by rewrite <-?E..].
      by destruct (Hf i f H (eq_sym E)).
    + intros o Ho. rewrite Htar. unfold queue. cbn. case_decide as E.
      * intros [= <-]. by destruct (Hf i f H (eq_sym E)).
      * intros Hto. destruct (Hw o Ho Hto) as [Hnq Hdk]. split; [|done]. intros [?|(t' & Ep & _)]%Hm; [done|].
        apply path_inj in Ep as [Ea _]; [congruence|done..].
Qed.

(** *** The steps keep it *)

(** Both kinds of publication leave the queue with versions of the alias other than the
    new one. *)
Lemma retained_queue ok a n old w d (q : gset string) : a ∈ names → snapshots w ⊆ d →
  (∀ o, old = Some o → o = master_path c a ∨ version_of a d o) → old ≠ Some (path a n) →
  (∀ p, p ∈ cleanup_queue (cleaner w) → p ∈ q) → path a n ∉ q →
  let w' := _enforce_retention c ok a (path a n) (schedule_superseded c a old w) in
  path a n ∉ cleanup_queue (cleaner w') ∧ ∀ p, p ∈ cleanup_queue (cleaner w') → p ∈ q ∨ version_of a d p.
Proof using Hapart.
  intros Ha Hd Ho Hne Hq Hnq w'.
  assert (∀ p, p ∈ cleanup_queue (cleaner w') → p ∈ q ∨ p ≠ path a n ∧ version_of a d p) as Hp.
  { intros p [Hp|(Hc & t & -> & Ht)]%retention_queue; [|right; split; [done|]|apply (path_nonempty Hapart)].
    - apply superseded_queue in Hp as [Hp|(Eo & Hm & _)]; [left; by apply Hq|right]. split; [congruence|]. by destruct (Ho p Eo).
    - exists t. split; [done|]. apply Hd. by destruct w; unfold schedule_superseded in Ht; repeat case_match. }
  split.
  - by intros [?|[? _]]%Hp.
  - intros p [?|[_ ?]]%Hp; auto.
Qed.

Lemma with_cleaner_eq m w : with_cleaner m w = mkStorage (aliases w) (snapshots w) m.
Proof. done. Qed.

Lemma retained_storage ok a n old w :
  let w' := _enforce_retention c ok a (path a n) (schedule_superseded c a old w) in
  w' = mkStorage (aliases w) (snapshots w) (cleaner w').
Proof. unfold _enforce_retention, schedule_superseded. by repeat case_match. Qed.

Lemma inv_publish s i f n write_ok listing_ok now : Inv s → flights s !! i = Some f → f_new f = Some n →
  Inv (mkSystem (published write_ok listing_ok now f n (storage s)) (used s) (delete i (flights s))).
Proof using Hapart.
  intros HI Hf Hn. pose proof HI as [I1 I2 I3 I4 I5 I6]. destruct (I5 i f Hf) as (Ha & Ho & Hpr). destruct (I6 i f n Hf Hn) as (Hu & Ht & Hw & Hj).
  assert (∀ j g, delete i (flights s) !! j = Some g → f_alias g = f_alias f → f_old g ≠ Some (path (f_alias f) n) ∧ f_new g ≠ Some n) as Hj'.
  { intros j g [Hji Hg]%lookup_delete_Some Eg. destruct (Hj j g Hg Eg) as [H1 H2]. split; [done|]. intros E. by apply Hji, eq_sym, H2. }
  assert (Inv (mkSystem (storage s) (used s) (delete i (flights s)))) as HI' by (apply inv_flights; [done|apply delete_subseteq]).
  assert (f_old f ≠ Some (path (f_alias f) n)) as Hne by (by apply (Hj i f Hf)).
  unfold published. destruct (f_provider f) eqn:Ep.
  - destruct (Hpr eq_refl) as [t Eo]. rewrite Eo. cbn [default]. unfold _post_provider_index_snapshot. fold (ns (f_alias f)). fold (path (f_alias f) n).
    destruct (swap_alias _ _ _ _ _ _) as [al|[|]] eqn:Es; [|done|].
    + apply swap_alias_Ok in Es as (_ & d & Hd & Etd & ->).
      assert (target (f_alias f) s = Some (path (f_alias f) t)) as Htar by (unfold target, read_alias_file; by rewrite Hd).
      destruct (Hw _ Eo Htar) as [Hq Hk]. eapply (inv_point _ (f_alias f) n _ _ HI' Ha Hk); [done| | |done]; cbn.
      * rewrite not_elem_of_union, not_elem_of_singleton. split; [congruence|exact Hq].
      * intros p. rewrite elem_of_union, elem_of_singleton. intros [->|?]; [right|by left]. destruct (Ho _ Eo) as [E|?]; [|done].
        by apply eq_sym, (master_apart Hapart) in E.
    + apply (inv_unmake _ (f_alias f) n HI' Ha Ht). intros j g Hg Eg. by apply (Hj' j g).
  - unfold publish. destruct (swap_alias _ _ _ _ _ _) as [al|e] eqn:Es; [|done]. cbn [mbind result_bind].
    apply swap_alias_Ok in Es as (_ & d & Hd & Etd & ->). destruct (I1 _ d Hd) as (_ & t & Et & _). rewrite Et in Etd.
    assert (target (f_alias f) s = Some t) as Htar by (unfold target, read_alias_file; by rewrite Hd).
    destruct (Hw t (eq_sym Etd) Htar) as [Hq Hk].
    rewrite retained_storage. set (w1 := with_aliases _ (storage s)).
    destruct (retained_queue listing_ok (f_alias f) n (f_old f) w1 (used s) (queue s) Ha I4 Ho Hne (λ _ H, H) Hq) as [Q1 Q2].
    by eapply (inv_point _ (f_alias f) n _ _ HI' Ha Hk).
Qed.

Lemma inv_change_branch s a n write_ok listing_ok now : Inv s → a ∈ names → (ns a, n) ∉ used s →
  Inv (mkSystem (let w := with_snapshots ({[(ns a, n)]} ∪ snapshots (storage s)) (storage s) in
                 match _cb_swap_alias c write_ok listing_ok now a (path a n) w with Ok w' => w' | Err _ => w end)
         ({[(ns a, n)]} ∪ used s) (flights s)).
Proof using Hapart.
  intros HI Ha Hn. pose proof (inv_make s a n HI Ha Hn) as HI'. cbn zeta. set (w := with_snapshots _ (storage s)) in *.
  set (s' := mkSystem w _ _) in *. pose proof (path_not_used a n s HI Ha Hn) as Hfresh.
  unfold _cb_swap_alias, create_alias. destruct write_ok; [|done]. cbn [mbind result_bind]. set (w1 := with_aliases _ w).
  assert (path a n ∉ queue s) as Hq by (intros (b & Hb & Hv)%(i_queue s HI); by apply (Hfresh b)).
  assert (∀ o, read_alias a (aliases w) = Some o → o = master_path c a ∨ version_of a (used s) o) as Ho.
  { intros o Eo. by apply (read_alias_spec s a o HI). }
  assert (read_alias a (aliases w) ≠ Some (path a n)) as Hne.
  { intros [E|Hv]%Ho; [by apply eq_sym, (master_apart Hapart) in E|by apply (Hfresh a)]. }
  rewrite retained_storage.
  destruct (retained_queue listing_ok a n (read_alias a (aliases w)) w1 (used s') (queue s) Ha (i_disk s' HI')) as [Q1 Q2]; [|done|done|done|].
  { intros o [?|Hv]%Ho; [by left|right]. eapply version_mono; [|done]. cbn. apply union_subseteq_r. }
  eapply (inv_point s' a n _ _ HI' Ha); [apply elem_of_union; left; by apply elem_of_singleton|done|done|done|].
  intros i f Hf <-. split.
  - intros E. destruct (i_flight s HI i f Hf) as (Hb & Hold & _). destruct (Hold _ E) as [Em|Hv]; [by apply eq_sym, (master_apart Hapart) in Em|].
    by apply (Hfresh (f_alias f)).
  - intros E. by destruct (i_new s HI i f n Hf E) as [? _].
Qed.

(** A file that keeps or loses its target; markers of write mode. *)
Lemma inv_aliases s al : Inv s →
  (∀ a d, files al !! a = Some (Json d) → ∃ d0, files (aliases (storage s)) !! a = Some (Json d0) ∧ target_path d = target_path d0) →
  write_mode_backend al = None →
  (∀ bare x e, markers al !! bare = Some (Marker (Some x) e) → ∃ a, a ∈ names ∧ strip_suffix GLOBAL a = Some bare ∧ x = master_path c a) →
  Inv (mkSystem (with_aliases al (storage s)) (used s) (flights s)).
Proof using Hapart.
  intros HI Hfile Hn Hm. pose proof HI as [I1 I2 I3 I4 I5 I6].
  assert (∀ b t, target b (mkSystem (with_aliases al (storage s)) (used s) (flights s)) = Some t → target b s = Some t) as Htar.
  { intros b t. unfold target, read_alias_file. cbn. destruct (files al !! b) as [[d| |]|] eqn:E; [|done..].
    destruct (Hfile b d E) as (d0 & -> & ->). done. }
  split; cbn; unfold queue; cbn; try done.
  - intros a d H. destruct (Hfile a d H) as (d0 & H0 & ->). by apply I1.
  - intros i f ts H Ht. destruct (I6 i f ts H Ht) as (Hu & Hta & Hw & Hj). split_and!; [done| | |done].
    + by intros E%Htar.
    + intros o Ho E%Htar. by apply Hw with o.
Qed.

(** Activation points at the master clone, which is never scheduled. *)
Lemma inv_activate s a al name now : Inv s → a ∈ names → idle a s → create_alias true now a (master_path c a) name (aliases (storage s)) = Ok al →
  Inv (mkSystem (with_aliases al (storage s)) (used s) (flights s)).
Proof using Hapart.
  intros HI Ha Hidle [= <-]. pose proof HI as [I1 I2 I3 I4 I5 I6]. split; cbn; unfold queue; cbn; try done.
  - intros b d H. rewrite lookup_insert in H. case_decide; [simplify_eq/=|by apply I1]. split; [done|]. exists (master_path c b). split_and!; [done|by left|].
    intros (a' & Ha' & t & E & _)%I3. by apply (master_apart Hapart) in E.
  - intros i f ts H Ht. destruct (I6 i f ts H Ht) as (Hu & Hta & Hw & Hj). pose proof (Hidle i f H) as Hne.
    unfold target, read_alias_file. cbn. rewrite lookup_insert_ne by done. split_and!; done.
Qed.

Lemma inv_begin s i a b : Inv s → flights s !! i = None → a ∈ names →
  (b = true → ∃ ts, read_alias a (aliases (storage s)) = Some (path a ts)) →
  Inv (mkSystem (storage s) (used s) (<[i := {| f_alias := a; f_old := read_alias a (aliases (storage s)); f_new := None; f_provider := b |}]> (flights s))).
Proof using Hapart.
  intros HI Hi Ha Hb. pose proof HI as [I1 I2 I3 I4 I5 I6]. split; cbn; try done.
  - intros j f. rewrite lookup_insert. case_decide; [intros [= <-]; cbn|by apply I5]. split_and!; [done| |done].
    intros o Ho. by apply (read_alias_spec s a o HI).
  - intros j f ts. rewrite lookup_insert. case_decide; [by intros [= <-]|]. intros Hf Ht. destruct (I6 j f ts Hf Ht) as (Hu & Hta & Hw & Hj). split_and!; [done..|].
    intros k g. rewrite lookup_insert. case_decide; [|apply Hj]. intros [= <-]; cbn. intros ->. split; [|done]. intros E.
    apply (read_alias_source s _ _ HI) in E as [E|E]; [by apply eq_sym, (master_apart Hapart) in E|done].
Qed.

(** The flight that made a version. *)
Lemma inv_made s i f ts : Inv s → flights s !! i = Some f → f_new f = None → (ns (f_alias f), ts) ∉ used s →
  Inv (mkSystem (with_snapshots ({[(ns (f_alias f), ts)]} ∪ snapshots (storage s)) (storage s)) ({[(ns (f_alias f), ts)]} ∪ used s)
         (<[i := {| f_alias := f_alias f; f_old := f_old f; f_new := Some ts; f_provider := f_provider f |}]> (flights s))).
Proof using Hapart.
  intros HI Hf Hn Hu. destruct (i_flight s HI i f Hf) as (Ha & _). pose proof (inv_make s (f_alias f) ts HI Ha Hu) as HI'.
  pose proof (path_not_used _ ts s HI Ha Hu) as Hfresh. pose proof HI' as [I1 I2 I3 I4 I5 I6]. split; cbn; try done.
  - intros j g. rewrite lookup_insert. case_decide; [intros [= <-]; cbn|by apply I5]. subst j. by apply (I5 i f).
  - intros j g t. rewrite lookup_insert. case_decide as Ej.
    + subst j. intros [= <-]. cbn. intros [= <-]. split_and!.
      * apply elem_of_union_l. by apply elem_of_singleton.
      * intros E. apply (target_spec s _ _ HI) in E as (_ & [E|E] & _); [by apply eq_sym, (master_apart Hapart) in E|].
        apply (Hfresh _ Ha). eapply version_mono; [apply (i_disk s HI)|done].
      * intros o Ho Ht. split; [|apply elem_of_union_l; by apply elem_of_singleton].
        intros (b & Hb & Hv)%(i_queue s HI). by apply (Hfresh b).
      * intros k g. rewrite lookup_insert. case_decide as Ek; [intros [= <-]; cbn; intros _; split; [|by subst]|].
        -- intros E. destruct (i_flight s HI i f Hf) as (_ & Ho & _). destruct (Ho _ E) as [Em|Hv]; [by apply eq_sym, (master_apart Hapart) in Em|].
           by apply (Hfresh (f_alias f)).
        -- intros Hg Eg. split.
           ++ intros E. destruct (i_flight s HI k g Hg) as (Hga & Ho & _). destruct (Ho _ E) as [Em|Hv]; [by apply eq_sym, (master_apart Hapart) in Em|].
              by apply (Hfresh (f_alias g)).
           ++ intros E. destruct (i_new s HI k g ts Hg E) as (Hin & _). rewrite Eg in Hin. done.
    + intros Hg Ht. destruct (I6 j g t Hg Ht) as (H1 & H2 & H3 & H4). split_and!; [done..|]. intros k h. rewrite lookup_insert.
      case_decide as Ek; [|apply H4]. intros [= <-]; cbn. intros Ea. subst k. destruct (H4 i f Hf Ea) as [H5 _]. split; [done|]. intros [= ->].
      exfalso. destruct (i_new s HI j g t Hg Ht) as (Hin & _). rewrite <-Ea in Hin. done.
Qed.

Lemma inv_abandon s i f (removed : bool) : Inv s → flights s !! i = Some f →
  Inv (mkSystem (match f_new f with
                 | Some ts => if removed then with_snapshots (snapshots (storage s) ∖ {[(ns (f_alias f), ts)]}) (storage s) else storage s
                 | None => storage s
                 end) (used s) (delete i (flights s))).
Proof using Hapart.
  intros HI Hf. assert (Inv (mkSystem (storage s) (used s) (delete i (flights s)))) as HI' by (apply inv_flights; [done|apply delete_subseteq]).
  destruct (f_new f) as [ts|] eqn:En; [|done]. destruct removed; [|done]. destruct (i_new s HI i f ts Hf En) as (_ & Ht & _ & Hj).
  apply (inv_unmake _ (f_alias f) ts HI'); [by apply (i_flight s HI i f)|done|].
  cbn. intros j g [Hji Hg]%lookup_delete_Some Eg E. apply Hji. symmetry. by apply (Hj j g).
Qed.

Lemma inv_clean (T : Type) (H : RefCounter T) broken order pr ct ft (t : T) tr m' d' s : no_order order → Inv s →
  _process_cleanup_queue (disk_env c broken) order pr ct ft t (cleaner (storage s)) (snapshots (storage s)) = (tr, m', d') →
  Inv (mkSystem (mkStorage (aliases (storage s)) d' m') (used s) (flights s)).
Proof using Hapart.
  intros Ho HI Hc. pose proof HI as [I1 I2 I3 I4 I5 I6]. destruct (cycle_disk _ _ _ _ _ _ _ _ _ _ _ _ Ho Hc) as (Hd & Hr & Hm).
  assert (∀ a ts, (ns a, ts) ∈ snapshots (storage s) → path a ts ∉ queue s → (ns a, ts) ∈ d') as Hkeep.
  { intros a ts Hin Hq. destruct (decide ((ns a, ts) ∈ d')) as [|Hn]; [done|]. exfalso. apply Hq. exact (Hr _ Hin Hn). }
  split; cbn; unfold queue; cbn; try done.
  - intros a d Hf. destruct (I1 a d Hf) as (Ha & x & Hx & Hv & Hq). split; [done|]. exists x. split_and!; [done| |by intros ?%Hm].
    destruct Hv as [?|(ts & -> & Hin)]; [by left|right]. exists ts. split; [done|]. by apply Hkeep.
  - intros p ?%Hm. by apply I3.
  - by trans (snapshots (storage s)).
  - intros i f ts Hf Hn. destruct (I6 i f ts Hf Hn) as (Hu & Hta & Hw & Hj). split_and!; [done..| |done].
    intros o Hfo Hto. destruct (Hw o Hfo Hto) as [Hq Hin]. split; [by intros ?%Hm|by apply Hkeep].
Qed.

Lemma rotation_step s s' : step s s' → Inv s → Inv s'.
Proof using Hapart.
  intros Hs HI. destruct Hs as [i a b s Hi Ha Hb|i f ts s Hf Hn Hu|i f ts wo lo now s Hf Hn|i f removed s Hf|a ts wo lo now s Ha Hu
    |a now name al s Ha Hidle Hal|a ok s|a now al s Hal|a bare t s Ha Hb|bare s|T H broken order pr ct ft t tr m' d' s Ho Hc].
  - by apply inv_begin.
  - by apply inv_made.
  - by apply inv_publish.
  - by apply inv_abandon.
  - by apply inv_change_branch.
  - by eapply inv_activate.
  - destruct (i_markers s HI) as [Hb Hm]. apply inv_aliases; [done| |by destruct ok|by destruct ok].
    destruct ok; cbn; [|eauto]. intros b d [_ Hd]%lookup_delete_Some. eauto.
  - destruct (i_markers s HI) as [Hb Hm]. unfold update_refresh_timestamp in Hal. destruct (files _ !! a) as [[d| |]|] eqn:E; [|done..].
    injection Hal as <-. apply inv_aliases; [done| |done|done]. intros b d' H. cbn in H. rewrite lookup_insert in H.
    case_decide; [simplify_eq|]; eauto.
  - destruct (i_markers s HI) as [Hbk Hm]. apply inv_aliases; [done|by eauto|done|]. intros b x e H. cbn in H. rewrite lookup_insert in H.
    case_decide; [simplify_eq; eauto|by eapply Hm].
  - destruct (i_markers s HI) as [Hbk Hm]. apply inv_aliases; [done|by eauto|done|]. cbn. intros b x e [_ H]%lookup_delete_Some. by eapply Hm.
  - by eapply inv_clean.
Qed.


End system.

(** With the local backend below the directory of the clones, any names that end in
    [-global] and hold no slash are apart. *)
Lemma local_apart c names : backend c = Local (golden_repos_dir c) →
  (∀ a, a ∈ names → no_slash a ∧ endswith GLOBAL a = true) → apart c names.
Proof.
  intros Hb Hn.
  assert (∀ x y, x ∈ names → y ∈ names → ns c x = ns c y → x = y) as Hns.
  { unfold ns, namespace. rewrite Hb. intros x y Hx Hy E.
    rewrite <-(endswith_removesuffix GLOBAL x), <-(endswith_removesuffix GLOBAL y) by (by apply Hn). by rewrite E. }
  assert (∀ x, x ∈ names → no_slash (removesuffix GLOBAL x)) as Hs.
  { intros x Hx. destruct (Hn x Hx) as [Hsl He]. rewrite <-(endswith_removesuffix GLOBAL x He) in Hsl. unfold no_slash in *. intros H. apply Hsl.
    revert H. generalize (removesuffix GLOBAL x). clear. intros s. induction s as [|ch s IH]; [by intros ?%not_elem_of_nil|].
    change ((String ch s +:+ GLOBAL)%string) with (String ch (s +:+ GLOBAL)). rewrite !txt_cons, !elem_of_cons. naive_solver. }
  split; unfold path, snapshot_path, ns, namespace; rewrite Hb.
  - intros x y Hx Hy E. apply Hns; [done..|]. unfold ns, namespace. by rewrite Hb.
  - intros x y ts ts' Hx Hy E. by apply version_dir_inj in E; [|apply Hs..].
  - intros x y ts Hx Hy E. unfold master_path, version_dir in E. apply app_inj_prefix, (app_inj_prefix "/") in E.
    apply (Hs x Hx). rewrite E. change (".versioned/" +:+ _) with (".versioned/" +:+ (removesuffix GLOBAL y +:+ "/v_" +:+ pretty ts)).
    unfold no_slash, txt. cbn. set_solver.
  - intros x ts. unfold version_dir. by destruct (golden_repos_dir c).
Qed.

(** ** Retention in closed form *)

Lemma sorted_split (l1 l2 : list Z) x : StronglySorted Z.lt (l1 ++ x :: l2) → filter (λ y, x < y) (l1 ++ x :: l2) = l2.
Proof.
  intros Hs. rewrite filter_app, filter_cons_False by lia. rewrite filter_none_nil.
  - apply list_filter_all. intros y Hy. apply StronglySorted_app_1_r, StronglySorted_inv in Hs as [_ Hall].
    rewrite Forall_forall in Hall. by apply Hall.
  - intros y Hy. assert (y < x); [|lia]. eapply StronglySorted_app_1_elem_of; [exact Hs|done|left].
Qed.

(** The newest [k] elements of an ascending list. *)
Lemma newest_iff (l : list Z) (k : nat) (x : Z) : StronglySorted Z.lt l → x ∈ l →
  x ∈ drop (length l - k) l ↔ (length (filter (λ y, (x < y)%Z) l) < k)%nat.
Proof.
  intros Hs (l1 & l2 & ->)%list_elem_of_split. rewrite (sorted_split l1 l2 x Hs), length_app. cbn [length]. split.
  - intros Hx. destruct (decide (length l2 < k)%nat) as [|Hk]; [done|]. exfalso.
    rewrite drop_app_ge in Hx by lia. assert (length l1 + S (length l2) - k - length l1 = S (length l2 - k))%nat as E by lia. rewrite E in Hx. cbn in Hx.
    apply StronglySorted_app_1_r, StronglySorted_inv in Hs as [_ Hall]. rewrite Forall_forall in Hall.
    pose proof (Hall x (sublist_elem_of _ _ _ Hx (sublist_drop _ _))). lia.
  - intros Hk. rewrite drop_app_le by lia. apply elem_of_app. right. left.
Qed.

(** Retention schedules exactly the versions of the alias that are neither its target
    nor the one before and that have at least as many newer ones as are to be kept. *)
Theorem retention_spec c names alias current w p :
  apart c names → alias ∈ names → current ≠ ""%string → backend c = Local (golden_repos_dir c) → golden_repos_dir c ≠ ""%string →
  let keep := _retention_keep_last (keep_last c) in
  let vs := versions (ns c alias) (snapshots w) in
  p ∈ cleanup_queue (cleaner (_enforce_retention c true alias current w)) ↔
  p ∈ cleanup_queue (cleaner w) ∨
  ∃ ts, ts ∈ vs ∧ p = path c alias ts ∧ p ≠ current ∧ get_previous_path alias (aliases w) ≠ Some p
        ∧ (keep ≤ length (filter (λ y, (ts < y)%Z) vs))%nat.
Proof.
  intros Hap Ha Hc Hb Hg keep vs. unfold _enforce_retention. cbn [cleaner with_cleaner]. rewrite queue_foldl, elem_of_union, elem_of_list_to_set.
  etrans; [apply Logic.or_comm|]. apply or_iff_compat_l.
  assert (list_snapshots (backend c) true alias (snapshots w) = (λ ts, (path c alias ts, ts)) <$> vs) as ->.
  { unfold list_snapshots. rewrite Hb, bool_decide_eq_false_2 by done. unfold vs, path, ns. by rewrite Hb. }
  assert (∀ l : list Z, ((λ ts, (path c alias ts, ts)) <$> l).*1 = path c alias <$> l) as Hf by (intros l; induction l as [|t l IH]; [done|]; cbn; by rewrite IH).
  pose proof (versions_sorted (ns c alias) (snapshots w) : StronglySorted Z.lt vs) as Hs.
  assert (∀ ts, path c alias ts ≠ ""%string) as Hne by apply (path_nonempty c names Hap).
  assert (∀ ts (l : list Z), path c alias ts ∈ path c alias <$> l ↔ ts ∈ l) as Hin.
  { intros ts l. rewrite list_elem_of_fmap. split; [|eauto]. intros (t & E & Ht). by apply (path_apart c names Hap) in E as [_ ->]. }
  unfold surplus. rewrite length_fmap, Hf. case_bool_decide as Hk.
  - split; [by intros ?%not_elem_of_nil|]. intros (ts & Hts & _ & _ & _ & Hn). exfalso.
    apply list_elem_of_split in Hts as (l1 & l2 & E). rewrite E in Hs, Hn, Hk. rewrite (sorted_split _ _ _ Hs) in Hn. rewrite length_app in Hk. cbn in Hk. lia.
  - rewrite list_elem_of_filter, list_elem_of_fmap. unfold protected. rewrite bool_decide_eq_false_2 by done.
    rewrite length_fmap, <-fmap_drop, Hf, !not_elem_of_app, not_elem_of_cons.
    assert (∀ ts, path c alias ts ∉ option_list (truthy (get_previous_path alias (aliases w))) ↔ get_previous_path alias (aliases w) ≠ Some (path c alias ts)) as Hprev.
    { intros ts. pose proof (Hne ts) as Hp. destruct (get_previous_path alias (aliases w)) as [[|ch q]|]; cbn.
      - split; intros _; [congruence|apply not_elem_of_nil].
      - rewrite list_elem_of_singleton. split; congruence.
      - split; intros _; [congruence|apply not_elem_of_nil]. }
    split.
    + intros (((Hcur & _) & Hp & Hd) & ts & -> & Hts). exists ts. split_and!; [done|done|done|by apply Hprev|].
      rewrite Hin, newest_iff in Hd by done. fold keep in Hd. lia.
    + intros (ts & Hts & -> & Hcur & Hp & Hn). split; [|eauto]. split_and!; [done|apply not_elem_of_nil|by apply Hprev|].
      rewrite Hin, newest_iff by done. fold keep. lia.
Qed.

(** ** Instances *)

Definition ascii_digit (ch : N) : bool := ((48 <=? ch) && (ch <=? 57))%N.
Definition demo (b : Backend) (keep : Z) : Settings :=
  {| backend := b; golden_repos_dir := "/g"; keep_last := Some keep; decimal := ascii_digit |}.
Definition local : Settings := demo (Local "/g") 3.
Definition flask : gset string := {["flask-global"%string]}.
Definition pointed_at (a t : string) : AliasData := mkAlias (Some t) 0 0 a None None.

Lemma flask_apart keep : apart (demo (Local "/g") keep) flask.
Proof.
  apply local_apart; [done|]. intros a ->%elem_of_singleton. split; [|by vm_compute].
  unfold no_slash. apply (bool_decide_unpack _). by vm_compute.
Qed.

Definition activated : System :=
  mkSystem (with_aliases (match create_alias true 0 "flask-global" (master_path local "flask-global") None (aliases (storage start)) with
                          | Ok al => al | Err _ => aliases (storage start) end) (storage start)) (used start) (flights start).

(** One refresh: it reads the alias, makes the version [ts] and publishes it. *)
Definition begun (s : System) : flight :=
  {| f_alias := "flask-global"; f_old := read_alias "flask-global" (aliases (storage s)); f_new := None; f_provider := false |}.
Definition made (ts : Z) (s : System) : flight :=
  {| f_alias := "flask-global"; f_old := f_old (begun s); f_new := Some ts; f_provider := false |}.
Definition with_version (ts : Z) (s : System) : Storage :=
  with_snapshots ({[(ns local "flask-global", ts)]} ∪ snapshots (storage s)) (storage s).
Definition refreshed (ts : Z) (s : System) : System :=
  mkSystem (published local true true 1 (made ts s) ts (with_version ts s)) ({[(ns local "flask-global", ts)]} ∪ used s)
    (delete 0%nat (<[0%nat := made ts s]> (<[0%nat := begun s]> (flights s)))).

Lemma refreshed_reachable ts s : reachable local flask s → flights s !! 0%nat = None → (ns local "flask-global", ts) ∉ used s →
  reachable local flask (refreshed ts s) ∧ flights (refreshed ts s) !! 0%nat = None.
Proof.
  intros Hr Hf Hu. split; [|apply lookup_delete_eq].
  eapply rtc_r; [eapply rtc_r; [eapply rtc_r; [exact Hr|]|]|].
  - apply (s_begin local flask 0 "flask-global" false s Hf); [by apply elem_of_singleton|done].
  - apply (s_make local flask 0 (begun s) ts); [apply lookup_insert_eq|done|done].
  - exact (s_publish local flask 0 (made ts s) ts true true 1 _ (lookup_insert_eq _ _ _) eq_refl).
Qed.

Lemma activated_reachable : reachable local flask activated.
Proof.
  apply rtc_once. apply (s_activate local flask "flask-global" 0 None); [by apply elem_of_singleton|by intros i f|done].
Qed.

Lemma demo_reachable : reachable local flask (refreshed 20 (refreshed 10 activated)).
Proof.
  destruct (refreshed_reachable 10 activated activated_reachable) as [H1 H2]; [done|apply (bool_decide_unpack _); by vm_compute|].
  apply refreshed_reachable; [done|done|]. apply (bool_decide_unpack _). by vm_compute.
Qed.


Definition three_versions : Storage :=
  mkStorage (mkAliases {["flask-global"%string := Json (mkAlias (Some "/g/.versioned/flask/v_30"%string) 0 0 "flask" (Some "/g/.versioned/flask/v_20"%string) None)]} ∅ None)
    {[("flask"%string, 10); ("flask"%string, 20); ("flask"%string, 30)]} init.

Lemma retention_spec_witness :
  let w' := _enforce_retention (demo (Local "/g") 1) true "flask-global" "/g/.versioned/flask/v_30" three_versions in
  "/g/.versioned/flask/v_10"%string ∈ cleanup_queue (cleaner w').
Proof.
  apply (retention_spec (demo (Local "/g") 1) flask "flask-global" "/g/.versioned/flask/v_30" three_versions); [apply flask_apart|by apply elem_of_singleton|done..|].
  right. exists 10. split_and!; [|done|done|done|by vm_compute; lia]. apply elem_of_versions. apply (bool_decide_unpack _). by vm_compute.
Defined.

(** ** What the model shows *)

(** Publication schedules the version it keeps as the previous one, so the way back that
    retention spares is deleted as soon as no query uses it. *)
Lemma rollback_version_is_scheduled : let w := storage (refreshed 20 (refreshed 10 activated)) in
  get_previous_path "flask-global" (aliases w) = Some "/g/.versioned/flask/v_10"%string
  ∧ bool_decide ("/g/.versioned/flask/v_10"%string ∈ cleanup_queue (cleaner w)) = true.
Proof. by vm_compute. Qed.

(** Two repositories whose names the daemon cannot tell apart: retention for one of them
    schedules the version the other one is serving. *)
Lemma shared_namespace_schedules_live :
  let c := demo (CowDaemon "/mnt") 1 in
  let serving v := Json (pointed_at "" ("/mnt/.versioned/a_b/v_" +:+ v)) in
  let w := mkStorage (mkAliases {["a.b-global" := serving "30"; "a_b-global" := serving "10"]}%string ∅ None)
             {[("a_b"%string, 10); ("a_b"%string, 30)]} init in
  let w' := _enforce_retention c true "a.b-global" "/mnt/.versioned/a_b/v_30" w in
  read_alias "a_b-global" (aliases w') = Some "/mnt/.versioned/a_b/v_10"%string
  ∧ bool_decide ("/mnt/.versioned/a_b/v_10"%string ∈ cleanup_queue (cleaner w')) = true.
Proof. by vm_compute. Qed.

(** A change of branch whose version is older than the one a refresh publishes meanwhile:
    retention of the refresh schedules it, and then the alias is pointed at it. *)
Lemma late_branch_change :
  let c := demo (Local "/g") 1 in
  let w0 := mkStorage (mkAliases {["flask-global"%string := Json (pointed_at "flask" "/g/flask")]} ∅ None)
              {[("flask"%string, 10); ("flask"%string, 11)]} init in
  match publish c true true 1 "flask-global" "/g/.versioned/flask/v_11" (Some "/g/flask"%string) w0 with
  | Ok w1 => match _cb_swap_alias c true true 2 "flask-global" "/g/.versioned/flask/v_10" w1 with
             | Ok w2 => read_alias "flask-global" (aliases w2) = Some "/g/.versioned/flask/v_10"%string
                        ∧ bool_decide ("/g/.versioned/flask/v_10"%string ∈ cleanup_queue (cleaner w2)) = true
             | Err _ => False
             end
  | Err _ => False
  end.
Proof. by vm_compute. Qed.

(** Two versions made in the same second have one name: the second publication schedules
    the version it has just published. *)
Lemma same_second_schedules_live :
  let w := storage (refreshed 10 (refreshed 10 activated)) in
  read_alias "flask-global" (aliases w) = Some "/g/.versioned/flask/v_10"%string
  ∧ bool_decide ("/g/.versioned/flask/v_10"%string ∈ cleanup_queue (cleaner w)) = true.
Proof. by vm_compute. Qed.

(** The validation of a swap and its write are separate: both of two overlapping swaps
    succeed, and the first one is lost. *)
Lemma overlapping_swaps :
  let al := mkAliases {["flask-global"%string := Json (pointed_at "flask" "/g/flask")]} ∅ None in
  let old := Some "/g/flask"%string in
  match check_swap "flask-global" old al with
  | Ok d => match swap_alias true 1 "flask-global" "/g/.versioned/flask/v_10" old al with
            | Ok al1 => match write_swapped true 2 "flask-global" "/g/.versioned/flask/v_11" old d al1 with
                        | Ok al2 => read_alias "flask-global" al2 = Some "/g/.versioned/flask/v_11"%string
                                    ∧ get_previous_path "flask-global" al2 = Some "/g/flask"%string
                        | Err _ => False
                        end
            | Err _ => False
            end
  | Err _ => False
  end.
Proof. by vm_compute. Qed.

(** Volumes made through [OntapFlexCloneClient] alone are not recognised as versions. *)
Lemma flexclone_is_no_version : is_snapshot (demo (FlexClone "/mnt/fsx") 3) (snapshot_path (FlexClone "/mnt/fsx") "flask" 10) = false.
Proof. by vm_compute. Qed.

(** Names of ONTAP clones do not mention the repository. *)
Lemma ontap_paths_coincide m ns ns' ts : snapshot_path (Ontap m) ns ts = snapshot_path (Ontap m) ns' ts.
Proof. done. Qed.

(** A query resolves its alias first and counts itself afterwards: in between a refresh
    may publish and a cleanup cycle delete the version the query is about to read. *)
Lemma resolve_then_track :
  let s1 := refreshed 10 activated in
  let resolved := resolve_alias_or_index_path (λ _, true) "flask-global" None (aliases (storage s1)) in
  let w := storage (refreshed 20 s1) in
  let '(_, _, d) := _process_cleanup_queue (disk_env local (λ _, false)) elements quiet_probe (λ _, 0%Q) (λ _, 0%Q)
                      QueryTracker.init (cleaner w) (snapshots w) in
  resolved = Some "/g/.versioned/flask/v_10"%string ∧ path_in local d "/g/.versioned/flask/v_10" = false.
Proof. by vm_compute. Qed.

End SnapshotRotation.
