(* ===== verification/RefreshScheduler.v ===== *)
(** * Scheduling of refreshes

    src/src/code_indexer/global_repos/git_error_classifier.py, the scheduling half of
    global_repos/refresh_scheduler.py (failed fetches, re-cloning, due repositories and
    the loop) and server/services/db_outage_throttle.py.

    The loop polls the registry: repositories without a time get one, and the oldest due
    ones, as many as there are free slots, are submitted and moved one interval ahead. *)

From S2P Require Import Prelude PyText AliasRegistry JobStore BackgroundJobs.
From stdpp Require Import options.
Local Open Scope Z_scope.

(** ** Failed fetches *)

Module FetchFailures.
Import GlobalRegistry.

Inductive category := permanent | transient | corruption | unknown.
#[global] Instance category_eq_dec : EqDecision category.
Proof. solve_decision. Defined.

Definition PERMANENT_PATTERNS : list text := txt <$>
  ["The project you were looking for could not be found"; "you don't have permission"; "Repository not found"; "remote: Not Found"]%string.
Definition CORRUPTION_PATTERNS : list text := txt <$>
  ["Could not read"; "pack has"; "unresolved deltas"; "invalid index-pack output"; "is corrupt"; "is empty"; "packfile"; "bad object"]%string.
Definition TRANSIENT_PATTERNS : list text := txt <$>
  ["Could not read from remote"; "Could not resolve host"; "Connection refused"; "Connection timed out"; "Network is unreachable"; "SSL";
   "unable to access"; "Authentication failed"]%string.

Definition matches (patterns : list text) (stderr : text) : bool := existsb (λ p, contains p stderr) patterns.

Definition classify_fetch_error (stderr : text) : category :=
  if matches PERMANENT_PATTERNS stderr then permanent
  else if matches TRANSIENT_PATTERNS stderr then transient
  else if matches CORRUPTION_PATTERNS stderr then corruption
  else unknown.

Definition MAX_TRANSIENT_FAILURES : Z := 3.
Definition RECLONE_COOLDOWN_SECONDS : Q := 3600.
Definition TRANSIENT_BACKOFF_BASE_SECONDS : Z := 60.
Definition TRANSIENT_BACKOFF_CAP_SECONDS : Z := 3600.
Definition PERMANENT_BACKOFF_BASE_SECONDS : Z := 300.
Definition PERMANENT_BACKOFF_CAP_SECONDS : Z := 21600.

(** The counters of consecutive failures and the ends of the cooldowns. *)
Record Failures := mkFailures { _fetch_failure_counts : gmap string Z; _reclone_cooldowns : gmap string Q }.

Definition _reset_fetch_failures (alias : string) (s : Failures) : Failures :=
  mkFailures (<[alias := 0]> (_fetch_failure_counts s)) (_reclone_cooldowns s).

Definition _is_backoff_log_milestone (count : Z) : bool := (0 <? count) && (Z.land count (count - 1) =? 0).

Definition _compute_backoff_seconds (c : category) (consecutive_failures : Z) : option Z :=
  match c with
  | permanent => Some ((PERMANENT_BACKOFF_BASE_SECONDS * 2 ^ (0 `max` (consecutive_failures - 1))) `min` PERMANENT_BACKOFF_CAP_SECONDS)
  | transient => if MAX_TRANSIENT_FAILURES <=? consecutive_failures
                 then Some ((TRANSIENT_BACKOFF_BASE_SECONDS * 2 ^ (consecutive_failures - MAX_TRANSIENT_FAILURES)) `min` TRANSIENT_BACKOFF_CAP_SECONDS)
                 else None
  | corruption | unknown => None
  end.

Inductive log := ERROR | WARNING | DEBUG.
#[global] Instance log_eq_dec : EqDecision log.
Proof. solve_decision. Defined.

Definition milestone_log (count : Z) : log := if _is_backoff_log_milestone count then ERROR else DEBUG.

Definition _log_permanent_fetch_failure (count : Z) : log := milestone_log count.

Definition _decide_non_permanent_reclone (c : category) (count : Z) (in_cooldown : bool) : log * bool :=
  if in_cooldown then (WARNING, false)
  else if bool_decide (c = corruption) then (ERROR, true)
  else if MAX_TRANSIENT_FAILURES <=? count then (milestone_log (count - MAX_TRANSIENT_FAILURES + 1), true)
  else (WARNING, false).

(** *** Re-cloning *)

(** A directory is what a clone wrote, identified by a number, or damaged. *)
Inductive tree := Clone (id : Z) | Damaged.

Record Dirs := mkDirs { master : option tree; temp_clone : option tree }.

Inductive clone_result := Succeeds (id : Z) | Exits (leaves : option tree) | Raises (leaves : option tree).

(** What the system calls do: a removal that fails leaves a damaged directory. *)
Record reclone_env := {
  leftover_removed : bool; git_clone : clone_result; temp_removed : bool;
  master_removed : bool; renamed : bool }.

Inductive exception := RuntimeError | OSError.

Definition rmtree (ok : bool) (d : option tree) : bool * option tree :=
  match d with None => (true, None) | Some _ => if ok then (true, None) else (false, Some Damaged) end.

Definition drop_temp (e : reclone_env) (d : Dirs) : result exception bool * Dirs :=
  let '(ok, t) := rmtree (temp_removed e) (temp_clone d) in (if ok then Ok false else Err OSError, mkDirs (master d) t).

Definition _attempt_reclone (e : reclone_env) (d : Dirs) : result exception bool * Dirs :=
  let '(ok, t) := rmtree (leftover_removed e) (temp_clone d) in
  if negb ok then (Err OSError, mkDirs (master d) t)
  else match git_clone e with
       | Raises leaves | Exits leaves => drop_temp e (mkDirs (master d) leaves)
       | Succeeds id =>
           let '(ok, m) := rmtree (master_removed e) (master d) in
           if ok && renamed e then (Ok true, mkDirs (Some (Clone id)) None)
           else drop_temp e (mkDirs m (Some (Clone id)))
       end.

(** *** One failure *)

(** The clocks, whether the registry can be written, and the system calls. *)
Record moment := { monotonic : Q; time : Q; persisted : bool; calls : reclone_env }.

Definition _handle_non_permanent_fetch_error (at_ : moment) (alias : string) (c : category) (count : Z) (s : Failures) (d : Dirs) :
    log * option (result exception bool) * Failures * Dirs :=
  let in_cooldown := Qltb (monotonic at_) (default 0%Q (_reclone_cooldowns s !! alias)) in
  let '(l, should_reclone) := _decide_non_permanent_reclone c count in_cooldown in
  if should_reclone then
    let '(o, d') := _attempt_reclone (calls at_) d in
    (l, Some o, mkFailures (_fetch_failure_counts s) (<[alias := (monotonic at_ + RECLONE_COOLDOWN_SECONDS)%Q]> (_reclone_cooldowns s)), d')
  else (l, None, s, d).

Definition _apply_fetch_backoff (at_ : moment) (alias : string) (c : category) (count : Z) (r : Registry) : Registry :=
  match _compute_backoff_seconds c count with
  | Some b => (update_next_refresh (Some (time at_ + inject_Z b)%Q) (persisted at_) alias r).2
  | None => r
  end.

(** What is logged, whether a re-clone was attempted, and the exception that ends every
    failure; an [OSError] of the re-clone comes before the back-off. *)
Record report := { logged : log; recloned : bool; raised : exception }.

Definition _handle_fetch_error (at_ : moment) (alias : string) (c : category) (s : Failures) (d : Dirs) (r : Registry) :
    report * Failures * Dirs * Registry :=
  let count := default 0 (_fetch_failure_counts s !! alias) + 1 in
  let s := mkFailures (<[alias := count]> (_fetch_failure_counts s)) (_reclone_cooldowns s) in
  let '(l, o, s, d) := if bool_decide (c = permanent) then (_log_permanent_fetch_failure count, None, s, d)
                       else _handle_non_permanent_fetch_error at_ alias c count s d in
  match o with
  | Some (Err e) => ({| logged := l; recloned := true; raised := e |}, s, d, r)
  | _ => ({| logged := l; recloned := bool_decide (is_Some o); raised := RuntimeError |}, s, d, _apply_fetch_backoff at_ alias c count r)
  end.

(** *** The history of the scheduler *)

Record Recovery := mkRecovery { failures : Failures; dirs : gmap string Dirs; registry : Registry }.

Definition dirs_of (alias : string) (s : Recovery) : Dirs := default (mkDirs None None) (dirs s !! alias).

Definition fail (alias : string) (at_ : moment) (c : category) (s : Recovery) : report * Recovery :=
  let '(rep, f, d, r) := _handle_fetch_error at_ alias c (failures s) (dirs_of alias s) (registry s) in
  (rep, mkRecovery f (<[alias := d]> (dirs s)) r).

Definition fetched (alias : string) (s : Recovery) : Recovery :=
  mkRecovery (_reset_fetch_failures alias (failures s)) (dirs s) (registry s).

(** A fetch that succeeds or fails, in the order the failures are handled. *)
Inductive event := Fetched (alias : string) | Failed (alias : string) (at_ : moment) (c : category).

Fixpoint run (evs : list event) (s : Recovery) : list (string * moment * category * report) * Recovery :=
  match evs with
  | [] => ([], s)
  | Fetched a :: evs => run evs (fetched a s)
  | Failed a m c :: evs =>
      let '(rep, s) := fail a m c s in
      let '(reps, s) := run evs s in ((a, m, c, rep) :: reps, s)
  end.

Definition fresh (d : gmap string Dirs) (r : Registry) : Recovery := mkRecovery (mkFailures ∅ ∅) d r.

(** ** Lemmas *)

(** *** Milestones *)

Lemma milestone_pow2 n : _is_backoff_log_milestone n = true ↔ ∃ k, 0 <= k ∧ n = 2 ^ k.
Proof.
  unfold _is_backoff_log_milestone. rewrite andb_true_iff, Z.ltb_lt, Z.eqb_eq. split.
  - intros [Hp Hl]. exists (Z.log2 n). split; [apply Z.log2_nonneg|]. destruct (Z.log2_spec n Hp) as [Hlo Hhi].
    destruct (decide (n = 2 ^ Z.log2 n)) as [|Hn]; [done|]. exfalso.
    assert (Z.log2 (n - 1) = Z.log2 n) as Hl1 by (apply Z.log2_unique; [apply Z.log2_nonneg|lia]).
    assert (Z.testbit (Z.land n (n - 1)) (Z.log2 n) = true) as Hb; [|rewrite Hl, Z.bits_0 in Hb; done].
    rewrite Z.land_spec, (Z.bit_log2 n) by done. rewrite <-Hl1. apply Z.bit_log2. pose proof (Z.pow_pos_nonneg 2 (Z.log2 n)). pose proof (Z.log2_nonneg n). lia.
  - intros (k & Hk & ->). pose proof (Z.pow_pos_nonneg 2 k). split; [lia|].
    replace (2 ^ k - 1) with (Z.ones k) by (rewrite Z.ones_equiv; lia).
    rewrite Z.land_ones, Z.mod_same; lia.
Qed.

(** The milestones up to a number. *)
Definition milestones (n : Z) : Z := if 0 <? n then Z.log2 n + 1 else 0.

Lemma milestones_succ n : milestones (n + 1) = milestones n + (if _is_backoff_log_milestone (n + 1) then 1 else 0).
Proof.
  unfold milestones. destruct (Z.ltb_spec 0 n) as [Hn|Hn].
  - destruct (Z.ltb_spec 0 (n + 1)) as [_|]; [|lia]. destruct (_is_backoff_log_milestone (n + 1)) eqn:E.
    + assert (Z.log2 (Z.succ n) = Z.succ (Z.log2 n)) as H; [|unfold Z.succ in H; lia].
      apply Z.log2_eq_succ_iff_pow2; [lia|]. apply milestone_pow2 in E as (k & Hk & E). exists k. unfold Z.succ. lia.
    + assert (Z.log2 (Z.succ n) ≠ Z.succ (Z.log2 n)) as H.
      { rewrite Z.log2_eq_succ_iff_pow2 by lia. intros (k & E'). apply not_true_iff_false in E. apply E, milestone_pow2. exists k.
        split; [|unfold Z.succ in E'; lia]. destruct (Z.neg_nonneg_cases k) as [Hk|]; [|done]. rewrite Z.pow_neg_r in E' by done. lia. }
      destruct (Z.log2_succ_or n); unfold Z.succ in *; lia.
  - destruct (Z.ltb_spec 0 (n + 1)).
    + assert (n = 0) as -> by lia. done.
    + unfold _is_backoff_log_milestone. by rewrite (proj2 (Z.ltb_ge 0 (n + 1))) by lia.
Qed.

Lemma milestones_bounds n : 1 <= n → milestones n = Z.log2 n + 1.
Proof. intros Hn. unfold milestones. by rewrite (proj2 (Z.ltb_lt 0 n)) by lia. Qed.

Lemma milestones_mono n m : n <= m → milestones n <= milestones m.
Proof.
  intros H. unfold milestones. pose proof (Z.log2_le_mono n m H). pose proof (Z.log2_nonneg m). destruct (Z.ltb_spec 0 n), (Z.ltb_spec 0 m); lia.
Qed.

(** *** One failure *)

Definition count (a : string) (s : Recovery) : Z := default 0 (_fetch_failure_counts (failures s) !! a).
Definition cooldown (a : string) (s : Recovery) : Q := default 0%Q (_reclone_cooldowns (failures s) !! a).

Lemma count_fail a b m c s : count a (fail b m c s).2 = if bool_decide (a = b) then count a s + 1 else count a s.
Proof.
  unfold fail, _handle_fetch_error, _handle_non_permanent_fetch_error, count, dirs_of.
  repeat case_match; simplify_eq/=; rewrite ?lookup_insert; repeat case_decide; repeat case_bool_decide; simplify_eq/=; try done.
Qed.

Lemma count_fetched a b s : count a (fetched b s) = if bool_decide (b = a) then 0 else count a s.
Proof.
  unfold count, fetched, _reset_fetch_failures. cbn [failures _fetch_failure_counts].
  destruct (decide (b = a)) as [->|Hb]; [by rewrite lookup_insert_eq, bool_decide_eq_true_2|by rewrite lookup_insert_ne, bool_decide_eq_false_2].
Qed.

(** When a re-clone is attempted, and what becomes of the cooldowns. *)
Definition reclones (m : moment) (c : category) (n : Z) (until : Q) : bool :=
  negb (bool_decide (c = permanent)) && negb (Qltb (monotonic m) until) && (bool_decide (c = corruption) || (MAX_TRANSIENT_FAILURES <=? n)).

Lemma recloned_fail a m c s : recloned (fail a m c s).1 = reclones m c (count a s + 1) (cooldown a s).
Proof.
  unfold fail, _handle_fetch_error, _handle_non_permanent_fetch_error, _decide_non_permanent_reclone, reclones, count, cooldown, dirs_of.
  destruct c; cbn; destruct (Qltb _ _); cbn; try done; repeat case_match; simplify_eq/=; done.
Qed.

Lemma cooldown_fail a b m c s : cooldown a (fail b m c s).2 =
  if bool_decide (a = b) && reclones m c (count b s + 1) (cooldown b s) then (monotonic m + RECLONE_COOLDOWN_SECONDS)%Q else cooldown a s.
Proof.
  unfold fail, _handle_fetch_error, _handle_non_permanent_fetch_error, _decide_non_permanent_reclone, reclones, count, cooldown, dirs_of.
  destruct c; cbn; destruct (Qltb _ _); cbn; rewrite ?andb_false_r, ?andb_true_r; try done; repeat case_match; simplify_eq/=;
    rewrite ?lookup_insert; repeat case_decide; repeat case_bool_decide; simplify_eq/=; done.
Qed.

Lemma logged_fail a m c s : logged (fail a m c s).1 =
  if bool_decide (c = permanent) then _log_permanent_fetch_failure (count a s + 1)
  else (_decide_non_permanent_reclone c (count a s + 1) (Qltb (monotonic m) (cooldown a s))).1.
Proof.
  unfold fail, _handle_fetch_error, _handle_non_permanent_fetch_error, count, cooldown, dirs_of. case_bool_decide; cbn; [done|].
  repeat case_match; simplify_eq/=; done.
Qed.

(** An ERROR line is due to corruption or to a milestone of one of the two counts. *)
Lemma error_fail a m c s : logged (fail a m c s).1 = ERROR → c ≠ corruption →
  (c = permanent ∧ _is_backoff_log_milestone (count a s + 1) = true) ∨ (c ≠ permanent ∧ _is_backoff_log_milestone (count a s + 1 - 2) = true).
Proof.
  rewrite logged_fail. unfold _decide_non_permanent_reclone, _log_permanent_fetch_failure, milestone_log, MAX_TRANSIENT_FAILURES.
  replace (count a s + 1 - 3 + 1) with (count a s + 1 - 2) by lia. repeat case_bool_decide; try done; [left|right]; repeat case_match; simplify_eq/=; done.
Qed.

(** ** Theorems *)

Definition errors (a : string) (reps : list (string * moment * category * report)) : Z :=
  Z.of_nat (length (filter (λ x : string * moment * category * report, x.1.1.1 = a ∧ logged x.2 = ERROR) reps)).

(** The failures of an alias, and whether it never succeeds. *)
Definition failure_of (a : string) (e : event) : bool := match e with Failed b _ _ => bool_decide (b = a) | Fetched _ => false end.
Definition failures_of (a : string) (evs : list event) : Z :=
  Z.of_nat (length (filter (λ e, failure_of a e = true) evs)).

Definition sustained (a : string) (P : category → Prop) (e : event) : Prop :=
  match e with Fetched b => b ≠ a | Failed b _ c => b = a → P c end.

Lemma run_failed a m c evs s : run (Failed a m c :: evs) s =
  ((a, m, c, (fail a m c s).1) :: (run evs (fail a m c s).2).1, (run evs (fail a m c s).2).2).
Proof. cbn. destruct (fail a m c s) as [rep s'], (run evs s') eqn:E. cbn. by rewrite E. Qed.

Lemma errors_run a P evs s : Forall (sustained a P) evs → (∀ c, P c → c ≠ corruption) →
  errors a (run evs s).1 ≤ milestones (count a s + failures_of a evs) - milestones (count a s)
    + (milestones (count a s + failures_of a evs - 2) - milestones (count a s - 2)).
Proof.
  intros Hev HP. revert s. induction Hev as [|[b|b m c] evs He _ IH]; intros s.
  - unfold errors, failures_of. cbn. rewrite Z.add_0_r. lia.
  - specialize (IH (fetched b s)).
    rewrite count_fetched, bool_decide_eq_false_2 in IH by done. exact IH.
  - rewrite run_failed. cbn [fst]. specialize (IH (fail b m c s).2). rewrite count_fail in IH.
    assert (∀ reps x, errors a (x :: reps) = errors a reps + (if decide (x.1.1.1 = a ∧ logged x.2 = ERROR) then 1 else 0)) as ->.
    { intros reps x. unfold errors. rewrite filter_cons. repeat case_decide; cbn [length]; try lia; tauto. }
    assert (failures_of a (Failed b m c :: evs) = failures_of a evs + (if bool_decide (b = a) then 1 else 0)) as ->.
    { unfold failures_of. rewrite filter_cons. cbn [failure_of]. destruct (bool_decide (b = a)); [rewrite decide_True by done|rewrite decide_False by done]; cbn [length]; lia. }
    destruct (decide (b = a)) as [->|Hb].
    + specialize (He eq_refl). rewrite bool_decide_eq_true_2 in * by done. cbn [fst snd].
      pose proof (milestones_succ (count a s)) as M1. pose proof (milestones_succ (count a s - 2)) as M2.
      replace (count a s - 2 + 1) with (count a s + 1 - 2) in M2 by lia.
      replace (count a s + (failures_of a evs + 1)) with (count a s + 1 + failures_of a evs) by lia.
      case_decide as Hd; [|repeat case_match; lia].
      destruct (error_fail a m c s (proj2 Hd) (HP c He)) as [[_ E]|[_ E]]; rewrite E in *; repeat case_match; lia.
    + rewrite bool_decide_eq_false_2 in IH by congruence. rewrite bool_decide_eq_false_2 by done. rewrite decide_False by (intros [? _]; done).
      by rewrite !Z.add_0_r.
Qed.

Lemma count_fresh a d r : count a (fresh d r) = 0.
Proof. unfold count. cbn. by rewrite lookup_empty. Qed.

(** However many fetches of a repository fail in a row, and whatever happens to others,
    the ERROR lines about it are at most logarithmic in their number, as long as none of
    the failures is a corruption. *)
Theorem error_lines_bounded a evs d r : Forall (sustained a (λ c, c ≠ corruption)) evs → 1 ≤ failures_of a evs →
  errors a (run evs (fresh d r)).1 ≤ 2 * (Z.log2 (failures_of a evs) + 1).
Proof.
  intros Hev Hn. pose proof (errors_run a _ evs (fresh d r) Hev (λ c H, H)) as H. rewrite count_fresh in H.
  change (milestones 0) with 0 in H. change (milestones (0 - 2)) with 0 in H.
  pose proof (milestones_mono (0 + failures_of a evs - 2) (0 + failures_of a evs)) as Hm. rewrite <-(milestones_bounds (failures_of a evs) Hn).
  rewrite Z.add_0_l in *. lia.
Qed.

(** *** Re-cloning *)

Definition attempts (a : string) (reps : list (string * moment * category * report)) : list moment :=
  (λ x : string * moment * category * report, x.1.1.2) <$> filter (λ x : string * moment * category * report, x.1.1.1 = a ∧ recloned x.2 = true) reps.

Definition far_apart (m m' : moment) : Prop := (monotonic m + RECLONE_COOLDOWN_SECONDS <= monotonic m')%Q.

Lemma reclones_spec m c n until : reclones m c n until = true ↔
  c ≠ permanent ∧ (until <= monotonic m)%Q ∧ (c = corruption ∨ MAX_TRANSIENT_FAILURES <= n).
Proof.
  unfold reclones. rewrite !andb_true_iff, orb_true_iff, !negb_true_iff, bool_decide_eq_false, bool_decide_eq_true, Qltb_false, Z.leb_le. tauto.
Qed.

Lemma cooldown_grows a b m c s : (cooldown a s <= cooldown a (fail b m c s).2)%Q.
Proof.
  rewrite cooldown_fail. case_bool_decide as Hab; cbn; [subst b|apply Qle_refl]. destruct (reclones _ _ _ _) eqn:E; [|apply Qle_refl].
  apply reclones_spec in E as (_ & H & _). unfold RECLONE_COOLDOWN_SECONDS. lra.
Qed.

Lemma attempts_cons a b m c rep reps s : attempts a ((b, m, c, rep) :: reps, s : Recovery).1 =
  if decide (b = a ∧ recloned rep = true) then m :: attempts a reps else attempts a reps.
Proof. unfold attempts. cbn [fst]. rewrite filter_cons. repeat case_decide; try done; cbn [fst snd] in *; tauto. Qed.

Lemma attempts_after a evs s : Forall (λ m, cooldown a s <= monotonic m)%Q (attempts a (run evs s).1).
Proof.
  revert s. induction evs as [|[b|b m c] evs IH]; intros s; [exact (Forall_nil_2 _)|exact (IH (fetched b s))|].
  rewrite run_failed, attempts_cons. specialize (IH (fail b m c s).2).
  assert (∀ ms, Forall (λ m', cooldown a (fail b m c s).2 <= monotonic m')%Q ms → Forall (λ m', cooldown a s <= monotonic m')%Q ms) as Hw.
  { intros ms H. eapply Forall_impl; [exact H|]. intros m' H'. eapply Qle_trans; [apply cooldown_grows|exact H']. }
  case_decide as Hd; [|by apply Hw]. constructor; [|by apply Hw]. destruct Hd as [-> Hr].
  rewrite recloned_fail in Hr. by apply reclones_spec in Hr as (_ & ? & _).
Qed.

(** The failures of an alias since its last success. *)
Fixpoint streak (a : string) (evs : list event) (n : Z) : Z :=
  match evs with
  | [] => n
  | Fetched b :: evs => streak a evs (if bool_decide (b = a) then 0 else n)
  | Failed b _ _ :: evs => streak a evs (if bool_decide (b = a) then n + 1 else n)
  end.

Lemma count_run a evs s : count a (run evs s).2 = streak a evs (count a s).
Proof.
  revert s. induction evs as [|[b|b m c] evs IH]; intros s; [done|..].
  - cbn [run streak]. by rewrite IH, count_fetched.
  - rewrite run_failed. cbn [snd streak]. rewrite IH, count_fail. f_equal. repeat case_bool_decide; congruence.
Qed.

(** Attempts to clone a repository again are at least the cooldown apart, whatever the
    clock does, and each follows a fetch that failed for a reason that is not permanent:
    damaged objects, or at least the third failure in a row. *)
Theorem reclone_discipline a evs d r :
  StronglySorted far_apart (attempts a (run evs (fresh d r)).1) ∧
  ∀ pre m c post, evs = pre ++ Failed a m c :: post →
    recloned (fail a m c (run pre (fresh d r)).2).1 = true →
    c ≠ permanent ∧ (c = corruption ∨ MAX_TRANSIENT_FAILURES <= streak a pre 0 + 1).
Proof.
  split.
  - generalize (fresh d r). induction evs as [|[b|b m c] evs IH]; intros s; [apply SSorted_nil|exact (IH (fetched b s))|].
    rewrite run_failed, attempts_cons. pose proof (attempts_after a evs (fail b m c s).2) as Ha.
    case_decide as Hd; [|apply IH]. constructor; [apply IH|]. destruct Hd as [-> Hr].
    eapply Forall_impl; [exact Ha|]. intros m' H. cbn in H. rewrite cooldown_fail, bool_decide_eq_true_2 in H by done.
    rewrite <-recloned_fail, Hr in H. exact H.
  - intros pre m c post -> Hr. rewrite recloned_fail, reclones_spec, count_run in Hr. by destruct Hr as (? & _ & ?).
Qed.

(** *** Back-off *)

(** The delay stays between base and cap and never shrinks; a transient failure is not
    delayed before the third in a row, and the others never. *)
Lemma backoff_bounds c n b : 1 <= n → _compute_backoff_seconds c n = Some b →
  (c = permanent ∧ 300 <= b <= 21600) ∨ (c = transient ∧ MAX_TRANSIENT_FAILURES <= n ∧ 60 <= b <= 3600).
Proof.
  intros Hn. unfold _compute_backoff_seconds, PERMANENT_BACKOFF_BASE_SECONDS, PERMANENT_BACKOFF_CAP_SECONDS, TRANSIENT_BACKOFF_BASE_SECONDS,
    TRANSIENT_BACKOFF_CAP_SECONDS, MAX_TRANSIENT_FAILURES. destruct c; [|destruct (Z.leb_spec 3 n)|..]; intros E; simplify_eq/=; [left|right].
  - pose proof (Z.pow_pos_nonneg 2 (0 `max` (n - 1))). split; [done|lia].
  - pose proof (Z.pow_pos_nonneg 2 (n - 3)). split_and!; [done|done|lia|lia].
Qed.

Lemma backoff_mono c n m b : n <= m → _compute_backoff_seconds c n = Some b → ∃ b', _compute_backoff_seconds c m = Some b' ∧ b <= b'.
Proof.
  intros Hn. unfold _compute_backoff_seconds, MAX_TRANSIENT_FAILURES. destruct c; [|destruct (Z.leb_spec 3 n); [rewrite (proj2 (Z.leb_le 3 m)) by lia|]|..];
    intros E; simplify_eq/=; eexists; (split; [done|]).
  - assert (2 ^ (0 `max` (n - 1)) <= 2 ^ (0 `max` (m - 1))) by (apply Z.pow_le_mono_r; lia). unfold PERMANENT_BACKOFF_BASE_SECONDS. lia.
  - assert (2 ^ (n - 3) <= 2 ^ (m - 3)) by (apply Z.pow_le_mono_r; lia). unfold TRANSIENT_BACKOFF_BASE_SECONDS. lia.
Qed.

Lemma update_next_cases t ok a r k : dget k (rows (update_next_refresh t ok a r).2) = dget k (rows r) ∨
  k = a ∧ dget k (rows (update_next_refresh t ok a r).2) = set_next_refresh t <$> dget k (rows r).
Proof.
  assert (∀ d, dget k (alter (set_next_refresh t) a d) = dget k d ∨ k = a ∧ dget k (alter (set_next_refresh t) a d) = set_next_refresh t <$> dget k d) as H.
  { intros d. rewrite dget_alter. case_bool_decide; eauto. }
  unfold update_next_refresh, update_field, on_entry, update_repo. destruct r as [[d f]|d], ok; cbn; try case_bool_decide; cbn; eauto.
Qed.

(** A failure never removes a repository from the registry, nor its time. *)
Lemma failure_keeps_scheduled a m c s k row : dget k (rows (registry s)) = Some row →
  ∃ row', dget k (rows (registry (fail a m c s).2)) = Some row' ∧
    (next_refresh row' = next_refresh row ∨ k = a ∧ ∃ b, next_refresh row' = Some (time m + inject_Z b)%Q).
Proof.
  intros Hk. assert (∀ n, ∃ row', dget k (rows (_apply_fetch_backoff m a c n (registry s))) = Some row' ∧
    (next_refresh row' = next_refresh row ∨ k = a ∧ ∃ b, next_refresh row' = Some (time m + inject_Z b)%Q)) as H.
  { intros n. unfold _apply_fetch_backoff. destruct (_compute_backoff_seconds c n) as [b|]; [|by eauto].
    destruct (update_next_cases (Some (time m + inject_Z b)%Q) (persisted m) a (registry s) k) as [E|[-> E]]; rewrite E, Hk; cbn; eauto 10. }
  unfold fail, _handle_fetch_error, _handle_non_permanent_fetch_error. repeat case_match; simplify_eq/=; eauto.
Qed.

(** *** Re-cloning and the files *)

(** When the clone fails, the master stays as it was. *)
Lemma failed_clone_keeps_master e d : (∀ id, git_clone e ≠ Succeeds id) → master (_attempt_reclone e d).2 = master d.
Proof.
  intros H. unfold _attempt_reclone, drop_temp. destruct (rmtree (leftover_removed e) (temp_clone d)) as [[|] t]; cbn; [|done].
  destruct (git_clone e) as [id| |] eqn:E; [by destruct (H id)|..]; by destruct (rmtree _ _).
Qed.

Lemma successful_reclone e d : (_attempt_reclone e d).1 = Ok true → ∃ id, git_clone e = Succeeds id ∧ (_attempt_reclone e d).2 = mkDirs (Some (Clone id)) None.
Proof.
  unfold _attempt_reclone, drop_temp. repeat case_match; simplify_eq/=; try done; eauto.
Qed.

(** The master is removed before the new clone is renamed: when that fails, both are
    gone. *)
Lemma reclone_loses_master :
  _attempt_reclone {| leftover_removed := true; git_clone := Succeeds 2; temp_removed := true; master_removed := true; renamed := false |}
    (mkDirs (Some (Clone 1)) None) = (Ok false, mkDirs None None).
Proof. done. Qed.

(** A leftover that cannot be removed makes the attempt raise, and the back-off is not
    applied. *)
Lemma reclone_raises :
  let e := {| leftover_removed := false; git_clone := Succeeds 2; temp_removed := true; master_removed := true; renamed := true |} in
  let m := {| monotonic := 0; time := 0; persisted := true; calls := e |} in
  let s := mkRecovery (mkFailures {["a"%string := 8]} ∅) {["a"%string := mkDirs (Some (Clone 1)) (Some Damaged)]}
             (Sqlite [("a", mkRepo "a" (Some "https://h/a") "" 0 0 false None false None)]%string) in
  raised (fail "a" m transient s).1 = OSError ∧ next_refresh <$> dget "a"%string (rows (registry (fail "a" m transient s).2)) = Some None.
Proof. done. Qed.

(** *** Instances *)

Definition git_works : reclone_env :=
  {| leftover_removed := true; git_clone := Succeeds 2; temp_removed := true; master_removed := true; renamed := true |}.
Definition at_time (t : Q) : moment := {| monotonic := t; time := t; persisted := true; calls := git_works |}.

Lemma error_lines_bounded_witness :
  let evs := [Failed "a" (at_time 0) permanent; Failed "b" (at_time 1) corruption; Fetched "b"; Failed "a" (at_time 2) transient; Failed "a" (at_time 3) unknown;
              Failed "a" (at_time 4) transient]%string in
  errors "a" (run evs (fresh ∅ (Sqlite []))).1 = 2 ∧ errors "a" (run evs (fresh ∅ (Sqlite []))).1 <= 2 * (Z.log2 (failures_of "a" evs) + 1).
Proof.
  split; [by vm_compute|]. apply (error_lines_bounded "a" _ ∅ (Sqlite [])); [|by vm_compute].
  repeat (apply Forall_cons; split; [intros E; try discriminate E; try done|]). apply Forall_nil_2.
Defined.

End FetchFailures.

(** ** Outages of the database *)

Module DbOutage.
Import FetchFailures.

(** An exception: whether it is an [OperationalError], and its message. *)
Record error := { operational : bool; message : text }.

Definition _CONNECTIVITY_MESSAGE_MARKERS : list text := txt <$>
  ["server closed the connection"; "consuming input failed"; "terminated abnormally"; "couldn't get a connection"; "PoolTimeout"]%string.

Definition is_db_connectivity_error (e : error) : bool := operational e || matches _CONNECTIVITY_MESSAGE_MARKERS (message e).

(** The consecutive failures; the start of the outage is only used for a message. *)
Definition on_db_error (e : error) (n : Z) : bool * option log * Z :=
  if negb (is_db_connectivity_error e) then (false, None, n) else (true, Some (if n + 1 =? 1 then ERROR else DEBUG), n + 1).

Definition on_db_success (n : Z) : option log * Z := (if n =? 0 then None else Some WARNING, 0).

Definition next_wait_seconds (max_backoff normal_interval : Q) (n : Z) : Q :=
  if n <=? 0 then normal_interval else pymin (normal_interval * inject_Z (2 ^ ((n - 1) `min` 30))) max_backoff.

Lemma next_wait_bounds cap i n : (0 <= i)%Q → (i <= cap)%Q → (i <= next_wait_seconds cap i n <= cap)%Q.
Proof.
  intros Hi Hc. unfold next_wait_seconds. destruct (Z.leb_spec n 0) as [|Hn]; [split; [apply Qle_refl|done]|].
  destruct (pymin_spec (i * inject_Z (2 ^ ((n - 1) `min` 30))) cap) as (_ & H & [E|E]); rewrite E in *; [|split; [done|apply Qle_refl]]. split; [|done].
  assert (1 <= inject_Z (2 ^ ((n - 1) `min` 30)))%Q as Hp; [|nra].
  change 1%Q with (inject_Z 1). rewrite <-Zle_Qle. pose proof (Z.pow_pos_nonneg 2 ((n - 1) `min` 30)). lia.
Qed.

End DbOutage.

(** ** The loop *)

Module RefreshLoop.
Import GlobalRegistry FetchFailures DbOutage.

Definition _GIT_URL_PREFIXES : list string := ["https://"; "http://"; "git@"; "ssh://"; "git://"]%string.

Definition _is_git_repo_url (url : option string) : bool :=
  match truthy url with Some u => existsb (λ p, String.prefix p u) _GIT_URL_PREFIXES | None => false end.

Definition is_git (kr : string * Repo) : bool := _is_git_repo_url (repo_url kr.2).

Definition DEFAULT_REFRESH_INTERVAL : Z := 3600.
Definition JITTER_PERCENTAGE : Q := 1 # 10.
Definition MIN_POLL_SECONDS : Q := 10.
Definition MAX_POLL_SECONDS : Q := 30.
Definition POLL_INTERVAL_DIVISOR : Q := 20.
Definition MAX_BACKOFF_SECONDS : Z := 3600.

(** [random.uniform]; the draw is between 0 and 1. *)
Definition uniform (a b draw : Q) : Q := (a + (b - a) * draw)%Q.

Definition _calculate_jitter (draw : Q) (interval : Z) : Q :=
  let max_jitter := (inject_Z interval * JITTER_PERCENTAGE)%Q in uniform (- max_jitter) max_jitter draw.

Definition _calculate_poll_interval (interval : Z) : Q :=
  pymax MIN_POLL_SECONDS (pymin MAX_POLL_SECONDS (inject_Z interval / POLL_INTERVAL_DIVISOR)).

(** The refresh jobs of this node that have not ended. *)
Definition active_refresh (b : BackgroundJobs.BackgroundJob) : bool :=
  bool_decide (JobStore.operation_type (BackgroundJobs.fields b) = "global_repo_refresh"%string)
  && JobStore.active (JobStore.status (BackgroundJobs.fields b)).

Definition count_active_refresh_jobs (js : gmap string BackgroundJobs.BackgroundJob) : Z :=
  Z.of_nat (size (filter (λ kb : string * BackgroundJobs.BackgroundJob, active_refresh kb.2 = true) js)).

(** Without a job manager (command line) refreshes run in the loop itself. *)
Definition _get_refresh_budget (manager : option (Z * gmap string BackgroundJobs.BackgroundJob)) : Z :=
  match manager with None => 10000 | Some (limit, js) => 0 `max` (limit - count_active_refresh_jobs js) end.

(** One slot each, from the first; an update that fails ends the pass. *)
Fixpoint spread (saved : string → bool) (spacing now : Q) (i : nat) (repos : table) (r : Registry) : option registry_error * Registry :=
  match repos with
  | [] => (None, r)
  | (a, _) :: repos =>
      if bool_decide (a = ""%string) then spread saved spacing now (S i) repos r
      else match update_next_refresh (Some (now + spacing * inject_Z (Z.of_nat (S i)))%Q) (saved a) a r with
           | (Some e, r) => (Some e, r)
           | (None, r) => spread saved spacing now (S i) repos r
           end
  end.

Definition _assign_initial_spread (saved : string → bool) (now : Q) (repos : table) (interval : Z) (r : Registry) :
    option registry_error * Registry :=
  if bool_decide (repos = []) then (None, r) else spread saved (inject_Z interval / inject_Z (Z.of_nat (length repos))) now 0 repos r.

(** The answer of the job manager, or of the refresh itself. *)
Inductive submission := Submitted | DuplicateJobError | Failed (e : error).

(** What one iteration meets: two readings of the clock, answers of the registry, of the
    configuration and of the job manager, and whether the scheduler still runs. *)
Record Poll := {
  listed : bool; interval : Z; spread_time : Q; spread_saved : string → bool;
  manager : option (Z * gmap string BackgroundJobs.BackgroundJob); now : Q; due_listed : bool; order_by : table → table;
  running : string → bool; submit : string → submission; draw : string → Q; saved : string → bool }.

Record Loop := mkLoop { registry : Registry; db_failures : Z; consecutive_failures : Z }.

Definition advance (p : Poll) (a : string) (r : Registry) : Registry :=
  (update_next_refresh (Some (now p + inject_Z (interval p) + _calculate_jitter (draw p a) (interval p))%Q) (saved p a) a r).2.

Definition accepted (o : submission) : bool := match o with Failed _ => false | _ => true end.

Definition handle_due (p : Poll) (kr : string * Repo) (s : Registry * Z) : Registry * Z :=
  let '(r, n) := s in
  if negb (is_git kr) then (r, n)
  else match submit p kr.1 with
       | Submitted => (advance p kr.1 r, (on_db_success n).2)
       | DuplicateJobError => (advance p kr.1 r, n)
       | Failed e => (r, (on_db_error e n).2)
       end.

(** Those handed to the job manager, in order. *)
Fixpoint submit_due (p : Poll) (due : table) (s : Registry * Z) : list string * (Registry * Z) :=
  match due with
  | [] => ([], s)
  | kr :: due =>
      if negb (running p kr.1) then ([], s)
      else let '(l, s) := submit_due p due (handle_due p kr s) in (if is_git kr then kr.1 :: l else l, s)
  end.

Definition unscheduled (t : table) : table :=
  filter (λ kr : string * Repo, kr.1 ≠ ""%string ∧ is_git kr = true ∧ next_refresh kr.2 = None) t.

(** The pass before the due repositories are looked up. *)
Definition prepare (p : Poll) (r : Registry) : option registry_error * Registry :=
  if negb (listed p) then (Some StorageError, r)
  else match unscheduled (list_global_repos r) with
       | [] => (None, r)
       | repos => _assign_initial_spread (spread_saved p) (spread_time p) repos (interval p) r
       end.

Definition failed_iteration (s : Loop) (r : Registry) : Q * list string * Loop :=
  (inject_Z ((30 * 2 ^ consecutive_failures s) `min` MAX_BACKOFF_SECONDS), [], mkLoop r (db_failures s) (consecutive_failures s + 1)).

(** One iteration: the wait that follows it, what was submitted, and the new state. *)
Definition iteration (p : Poll) (s : Loop) : Q * list string * Loop :=
  match prepare p (registry s) with
  | (Some _, r) => failed_iteration s r
  | (None, r) =>
      if negb (due_listed p) then failed_iteration s r
      else let '(l, (r, n)) := submit_due p (list_due_repos (order_by p) (_get_refresh_budget (manager p)) (now p) r) (r, db_failures s) in
           (next_wait_seconds 60 (_calculate_poll_interval (interval p)) n, l, mkLoop r n 0)
  end.

(** ** Lemmas *)

Lemma update_next_spec t a r : update_next_refresh t true a r = (None, (update_next_refresh t true a r).2) ∧
  ∀ k, dget k (rows (update_next_refresh t true a r).2) = if bool_decide (k = a) then set_next_refresh t <$> dget k (rows r) else dget k (rows r).
Proof.
  unfold update_next_refresh, update_field, on_entry, update_repo. destruct r as [[d f]|d]; cbn.
  - case_bool_decide as He; cbn; (split; [done|]); intros k; [apply dget_alter|]. case_bool_decide; [subst|done].
    apply eq_None_not_Some in He. by rewrite He.
  - split; [done|]. intros k. apply dget_alter.
Qed.

Lemma update_next_keys t ok a r : (rows (update_next_refresh t ok a r).2).*1 = (rows r).*1.
Proof.
  unfold update_next_refresh, update_field, on_entry, update_repo. destruct r as [[d f]|d], ok; cbn; try case_bool_decide; cbn; try done; apply alter_keys.
Qed.

Definition slot (spacing now : Q) (i : nat) : Q := (now + spacing * inject_Z (Z.of_nat (S i)))%Q.

(** All writes succeed: each listed row gets its slot, the others stay. *)
Lemma spread_spec spacing now i repos r : NoDup repos.*1 → "" ∉ repos.*1%string →
  let '(e, r') := spread (λ _, true) spacing now i repos r in
  e = None ∧ (rows r').*1 = (rows r).*1 ∧
  (∀ k, k ∉ repos.*1 → dget k (rows r') = dget k (rows r)) ∧
  (∀ j k, repos.*1 !! j = Some k → dget k (rows r') = set_next_refresh (Some (slot spacing now (i + j))) <$> dget k (rows r)).
Proof.
  revert i r. induction repos as [|[a x] repos IH]; intros i r Hnd Hne; [done|].
  apply NoDup_cons in Hnd as [Ha Hnd]. apply not_elem_of_cons in Hne as [Hae Hne]. cbn [spread]. rewrite bool_decide_eq_false_2 by done.
  destruct (update_next_spec (Some (slot spacing now i)) a r) as [E Hr]. fold (slot spacing now i). rewrite E.
  specialize (IH (S i) (update_next_refresh (Some (slot spacing now i)) true a r).2 Hnd Hne).
  destruct (spread _ _ _ _ _ _) as [e r']. destruct IH as (-> & Hk & Ho & Hs). rewrite update_next_keys in Hk. split_and!; [done|done|..].
  - intros k [Hka Hkr]%not_elem_of_cons. rewrite Ho, Hr, bool_decide_eq_false_2; done.
  - intros [|j] k Hj; cbn in Hj.
    + simplify_eq. rewrite Ho, Hr, bool_decide_eq_true_2, Nat.add_0_r; done.
    + rewrite (Hs j k Hj), Hr, bool_decide_eq_false_2, Nat.add_succ_r; [done|]. intros ->. apply Ha. eapply list_elem_of_lookup_2, Hj.
Qed.

(** What the due pass makes of a row. *)
Definition moved (p : Poll) (kr : string * Repo) : bool := is_git kr && accepted (submit p kr.1).
Definition next_time (p : Poll) (a : string) : Q := (now p + inject_Z (interval p) + _calculate_jitter (draw p a) (interval p))%Q.

Lemma handle_due_rows p kr r n : saved p = (λ _, true) →
  let r' := (handle_due p kr (r, n)).1 in
  (rows r').*1 = (rows r).*1 ∧
  ∀ k, dget k (rows r') = if bool_decide (k = kr.1) && moved p kr then set_next_refresh (Some (next_time p k)) <$> dget k (rows r) else dget k (rows r).
Proof.
  intros Hs. unfold handle_due, moved. destruct (is_git kr) eqn:Hg; cbn [negb andb]; [|split; [done|]; intros k; by rewrite andb_false_r].
  assert (∀ k, dget k (rows (advance p kr.1 r)) = if bool_decide (k = kr.1) then set_next_refresh (Some (next_time p k)) <$> dget k (rows r) else dget k (rows r)) as Hadv.
  { intros k. unfold advance. rewrite Hs. rewrite (proj2 (update_next_spec _ _ _)). case_bool_decide; [by subst|done]. }
  assert ((rows (advance p kr.1 r)).*1 = (rows r).*1) as Hk by apply update_next_keys.
  destruct (submit p kr.1); cbn [accepted fst]; (split; [done|]); intros k; rewrite ?Hadv, ?andb_true_r, ?andb_false_r; done.
Qed.

Lemma submit_due_spec p due s : saved p = (λ _, true) → running p = (λ _, true) → NoDup due.*1 →
  let '(l, s') := submit_due p due s in
  l = (filter (λ kr, is_git kr = true) due).*1 ∧ (rows s'.1).*1 = (rows s.1).*1 ∧
  (∀ k, k ∉ due.*1 → dget k (rows s'.1) = dget k (rows s.1)) ∧
  (∀ kr, kr ∈ due → dget kr.1 (rows s'.1) = if moved p kr then set_next_refresh (Some (next_time p kr.1)) <$> dget kr.1 (rows s.1) else dget kr.1 (rows s.1)).
Proof.
  intros Hs Hr. revert s. induction due as [|kr due IH]; intros [r n] Hnd; [by split_and!; [..|intros ? ?%not_elem_of_nil]|].
  apply NoDup_cons in Hnd as [Ha Hnd]. cbn [submit_due]. rewrite Hr. cbn [negb]. specialize (IH (handle_due p kr (r, n)) Hnd).
  pose proof (handle_due_rows p kr r n Hs) as [Hk Hd]. destruct (submit_due p due (handle_due p kr (r, n))) as [l s'].
  destruct IH as (-> & Hkeys & Hout & Hin). split_and!.
  - rewrite filter_cons. destruct (is_git kr); [by rewrite decide_True|by rewrite decide_False].
  - by rewrite Hkeys, Hk.
  - intros k [Hkk Hkd]%not_elem_of_cons. rewrite Hout, Hd, bool_decide_eq_false_2; done.
  - intros kr' [->|Hin']%elem_of_cons.
    + rewrite Hout, Hd, bool_decide_eq_true_2; done.
    + rewrite (Hin kr' Hin'), !Hd, bool_decide_eq_false_2; [by destruct (moved p kr')|]. intros E. apply Ha. rewrite <-E. by apply list_elem_of_fmap_2.
Qed.

Lemma table_ext (t t' : table) : NoDup t.*1 → t.*1 = t'.*1 → (∀ k, dget k t = dget k t') → t = t'.
Proof.
  revert t'. induction t as [|[k r] t IH]; intros [|[k' r'] t'] Hnd Hk Hg; try done. cbn in Hk. injection Hk as -> Hk.
  apply NoDup_cons in Hnd as [Hn Hnd]. pose proof (Hg k') as E. cbn in E. rewrite !decide_True in E by done. injection E as ->. f_equal.
  apply IH; [done|done|]. intros k. specialize (Hg k). cbn in Hg. destruct (decide (k = k')) as [->|Hkk]; [|done].
  by rewrite !(proj2 (dget_None k' _)) by (rewrite <-?Hk; done).
Qed.

Lemma keys_filter (P : string * Repo → Prop) `{∀ x, Decision (P x)} (t : table) : NoDup t.*1 → NoDup (filter P t).*1.
Proof.
  induction t as [|kr t IH]; [done|]. cbn. intros [Hn Hnd]%NoDup_cons. specialize (IH Hnd). case_decide; [|done]. cbn.
  apply NoDup_cons. split; [|done]. intros (x & E & [_ Hx]%list_elem_of_filter)%list_elem_of_fmap. apply Hn. rewrite E. by apply list_elem_of_fmap_2.
Qed.

Lemma dget_map (f : string * Repo → Repo) (t : table) k : dget k ((λ kr, (kr.1, f kr)) <$> t) = (λ r, f (k, r)) <$> dget k t.
Proof. induction t as [|[k' r] t IH]; [done|]. cbn. case_decide; [by subst|done]. Qed.

Lemma map_keys (f : string * Repo → Repo) (t : table) : ((λ kr, (kr.1, f kr)) <$> t).*1 = t.*1.
Proof. rewrite <-list_fmap_compose. by apply list_fmap_ext. Qed.

(** Everything answers, and the scheduler is not stopped. *)
Record undisturbed (p : Poll) : Prop := {
  u_listed : listed p = true; u_due : due_listed p = true; u_spread : spread_saved p = (λ _, true);
  u_saved : saved p = (λ _, true); u_running : running p = (λ _, true); u_order : sorts (order_by p) }.

(** The rows after each pass. *)
Definition position (a : string) (t : table) : option nat := fst <$> list_find (λ k, k = a) t.*1.

Definition prepared_row (p : Poll) (news : table) (kr : string * Repo) : Repo :=
  match position kr.1 news with
  | Some i => set_next_refresh (Some (slot (inject_Z (interval p) / inject_Z (Z.of_nat (length news))) (spread_time p) i)) kr.2
  | None => kr.2
  end.
Definition prepared (p : Poll) (t : table) : table := (λ kr, (kr.1, prepared_row p (unscheduled t) kr)) <$> t.

Definition polled (p : Poll) (due t : table) : table :=
  (λ kr, (kr.1, if bool_decide (kr.1 ∈ due.*1) && moved p kr then set_next_refresh (Some (next_time p kr.1)) kr.2 else kr.2)) <$> t.

Lemma prepare_spec p r : undisturbed p → NoDup (rows r).*1 → (prepare p r).1 = None ∧ rows (prepare p r).2 = prepared p (rows r).
Proof.
  intros Hu Hnd. unfold prepared.
  assert (prepare p r = _assign_initial_spread (spread_saved p) (spread_time p) (unscheduled (rows r)) (interval p) r) as ->.
  { unfold prepare, list_global_repos. rewrite (u_listed p Hu). by destruct (unscheduled (rows r)). }
  assert (NoDup (unscheduled (rows r)).*1) as Hnd' by by apply keys_filter.
  assert ("" ∉ (unscheduled (rows r)).*1)%string as Hne by (intros ([k x] & E & ((Hk & _) & _)%list_elem_of_filter)%list_elem_of_fmap; cbn in *; congruence).
  unfold _assign_initial_spread. case_bool_decide as En.
  - rewrite En. split; [done|]. cbn. symmetry. etrans; [|apply list_fmap_id]. apply list_fmap_ext. by intros ? [k x] _.
  - rewrite (u_spread p Hu).
    pose proof (spread_spec (inject_Z (interval p) / inject_Z (Z.of_nat (length (unscheduled (rows r))))) (spread_time p) 0 _ r Hnd' Hne) as H.
    destruct (spread _ _ _ _ _ r) as [e r']. destruct H as (-> & Hk & Ho & Hs). split; [done|]. cbn [snd].
    apply table_ext; [by rewrite Hk|by rewrite map_keys|]. intros k. rewrite dget_map. unfold prepared_row, position. cbn [fst].
    destruct (list_find _ _) as [[i k']|] eqn:Ef; cbn.
    + apply list_find_Some in Ef as (Hi & -> & _). rewrite (Hs i k Hi). done.
    + apply list_find_None in Ef. rewrite Forall_forall in Ef. rewrite Ho by (intros Hin; by apply (Ef k)). by destruct (dget k (rows r)).
Qed.

Lemma due_in_table order_by limit now r : sorts order_by → list_due_repos order_by limit now r ⊆ filter (λ kr, is_due now kr = true) (rows r).
Proof.
  intros Hs kr Hin. by eapply top_elem in Hin; [|apply (list_due_repos_spec order_by limit now r Hs)].
Qed.

(** ** Theorems *)

Lemma poll_interval_bounds i : (10 <= _calculate_poll_interval i <= 30)%Q.
Proof.
  unfold _calculate_poll_interval, MIN_POLL_SECONDS, MAX_POLL_SECONDS. destruct (pymin_spec 30 (inject_Z i / POLL_INTERVAL_DIVISOR)) as (H & _).
  destruct (pymax_spec 10 (pymin 30 (inject_Z i / POLL_INTERVAL_DIVISOR))) as (? & _ & [E|E]); rewrite E in *; split; lra.
Qed.

(** C26: One iteration that nothing disturbs: each git repository without a time gets its
    slot of the interval, in order; then the oldest due rows, no more than the free slots
    and no fewer while there are any, are looked up, those of git repositories are
    submitted, oldest first, and exactly the submissions that do not fail are moved one
    interval, give or take the jitter, ahead; nothing else changes, and the loop sleeps
    between 10 and 60 seconds. *)
Theorem poll_spec p s : undisturbed p → NoDup (rows (registry s)).*1 →
  let '(wait, submitted, s') := iteration p s in
  let t := prepared p (rows (registry s)) in
  ∃ due, due_spec (_get_refresh_budget (manager p)) (now p) t due ∧
    submitted = (filter (λ kr, is_git kr = true) due).*1 ∧ rows (registry s') = polled p due t ∧
    consecutive_failures s' = 0 ∧ (10 <= wait <= 60)%Q.
Proof.
  intros Hu Hnd. unfold iteration. destruct (prepare_spec p (registry s) Hu Hnd) as [Ee Er]. destruct (prepare p (registry s)) as [e r]. cbn in Ee, Er. subst e.
  rewrite (u_due p Hu). cbn [negb]. pose proof (list_due_repos_spec (order_by p) (_get_refresh_budget (manager p)) (now p) r (u_order p Hu)) as Hd.
  set (due := list_due_repos _ _ _ r) in *. rewrite <-Er.
  assert (NoDup (rows r).*1) as Hnr by (rewrite Er; unfold prepared; by rewrite map_keys).
  assert (∀ kr, kr ∈ due → kr ∈ rows r) as Hsub by (intros kr H; eapply top_elem in H; [|exact Hd]; by apply list_elem_of_filter in H as [_ ?]).
  assert (NoDup due.*1) as Hnk.
  { destruct Hd as (rest & Hp & _). apply (keys_filter (λ kr, is_due (now p) kr = true)) in Hnr. rewrite Hp, fmap_app in Hnr. by apply NoDup_app in Hnr as [? _]. }
  pose proof (submit_due_spec p due (r, db_failures s) (u_saved p Hu) (u_running p Hu) Hnk) as H.
  destruct (submit_due p due (r, db_failures s)) as [l [r' n]]. cbn [fst snd] in H. destruct H as (-> & Hk & Ho & Hi).
  exists due. split_and!; [done|done| |done|..].
  - cbn [registry]. apply table_ext; [by rewrite Hk|unfold polled; by rewrite map_keys|]. intros k. unfold polled. rewrite dget_map. cbn [fst snd].
    destruct (decide (k ∈ due.*1)) as [Hin|Hin].
    + rewrite bool_decide_eq_true_2 by done. apply list_elem_of_fmap in Hin as ([k' x] & -> & Hin). pose proof (Hi _ Hin) as H. cbn [fst] in H |- *. rewrite H.
      rewrite (elem_of_dget k' x (rows r) Hnr (Hsub _ Hin)). cbn. by destruct (moved p (k', x)).
    + rewrite bool_decide_eq_false_2, Ho by done. by destruct (dget k (rows r)).
  - eapply Qle_trans; [apply (poll_interval_bounds (interval p))|]. pose proof (poll_interval_bounds (interval p)). apply next_wait_bounds; lra.
  - pose proof (poll_interval_bounds (interval p)). apply next_wait_bounds; lra.
Qed.

(** *** Every due repository is submitted *)

Definition early (t : Q) (tb : table) : table := filter (λ kr, is_due t kr = true) tb.

(** What other threads may do to the table between two polls: anything that leaves the
    repository in question due and makes no other one due before it. *)
Record harmless (a : string) (t : Q) (change : Registry → Registry) : Prop := {
  h_keys : ∀ r, NoDup (rows r).*1 → NoDup (rows (change r)).*1;
  h_early : ∀ r k row, dget k (rows (change r)) = Some row → is_due t (k, row) = true →
    ∃ row', dget k (rows r) = Some row' ∧ next_refresh row' = next_refresh row ∧ repo_url row' = repo_url row;
  h_due : ∀ r row, dget a (rows r) = Some row →
    ∃ row', dget a (rows (change r)) = Some row' ∧ next_refresh row' = next_refresh row ∧ repo_url row' = repo_url row }.

(** A poll with a free slot, after [t], whose submissions are accepted. *)
Record productive (t : Q) (p : Poll) : Prop := {
  p_undisturbed : undisturbed p;
  p_budget : 1 <= _get_refresh_budget (manager p);
  p_interval : 0 < interval p;
  p_clock : (t <= spread_time p <= now p)%Q;
  p_draw : ∀ a, (0 <= draw p a <= 1)%Q;
  p_accepted : ∀ a, accepted (submit p a) = true }.

Fixpoint polls (ps : list ((Registry → Registry) * Poll)) (s : Loop) : list (list string) :=
  match ps with
  | [] => []
  | (change, p) :: ps =>
      let '(_, l, s) := iteration p (mkLoop (change (registry s)) (db_failures s) (consecutive_failures s)) in l :: polls ps s
  end.

Lemma is_due_next t k row : is_due t (k, row) = true ↔ ∃ q, next_refresh row = Some q ∧ (q <= t)%Q.
Proof.
  unfold is_due. cbn. destruct (next_refresh row) as [q|]; [rewrite Qle_bool_iff|]; split; naive_solver.
Qed.

Lemma next_time_later p a : (0 <= draw p a <= 1)%Q → 0 < interval p → (now p < next_time p a)%Q.
Proof.
  intros Hd Hi. unfold next_time, _calculate_jitter, uniform, JITTER_PERCENTAGE. assert (0 < inject_Z (interval p))%Q by (change 0%Q with (inject_Z 0); by rewrite <-Zlt_Qlt). nra.
Qed.

Lemma slot_later p (news : table) i : 0 < interval p → news ≠ [] →
  (spread_time p < slot (inject_Z (interval p) / inject_Z (Z.of_nat (length news))) (spread_time p) i)%Q.
Proof.
  intros Hi Hn. unfold slot. assert (0 < inject_Z (interval p))%Q by (change 0%Q with (inject_Z 0); by rewrite <-Zlt_Qlt).
  assert (0 < inject_Z (Z.of_nat (length news)))%Q as Hl by (change 0%Q with (inject_Z 0); rewrite <-Zlt_Qlt; destruct news; cbn; [done|lia]).
  assert (0 < inject_Z (Z.of_nat (S i)))%Q by (change 0%Q with (inject_Z 0); rewrite <-Zlt_Qlt; lia).
  assert (0 < inject_Z (interval p) / inject_Z (Z.of_nat (length news)))%Q by (apply Qlt_shift_div_l; [done|lra]). nra.
Qed.

(** Rows due at [t] are not among those that get a slot, and slots lie later. *)
Lemma prepared_early t p tb k row : productive t p → NoDup tb.*1 → dget k (prepared p tb) = Some row → is_due t (k, row) = true → dget k tb = Some row.
Proof.
  intros Hp Hnd. unfold prepared. rewrite dget_map. destruct (dget k tb) as [row0|] eqn:Hk; [|done]. cbn. intros [= <-] Hd.
  unfold prepared_row, position in Hd |- *. cbn in *. destruct (list_find _ _) as [[i k']|] eqn:Ef; cbn in *; [|done]. exfalso.
  apply Qle_bool_iff in Hd as Hq. assert (unscheduled tb ≠ []) as Hne by (intros E; by rewrite E in Ef).
  pose proof (slot_later p (unscheduled tb) i (p_interval t p Hp) Hne). destruct (p_clock t p Hp). lra.
Qed.

Lemma prepared_due t p tb k row : NoDup tb.*1 → dget k tb = Some row → is_due t (k, row) = true → dget k (prepared p tb) = Some row.
Proof.
  intros Hnd Hk Hd. unfold prepared. rewrite dget_map, Hk. cbn. f_equal. unfold prepared_row, position. cbn.
  destruct (list_find _ _) as [[i k']|] eqn:Ef; cbn; [|done]. exfalso. apply list_find_Some in Ef as (Hi & -> & _).
  apply list_elem_of_lookup_2, list_elem_of_fmap in Hi as ([k2 x] & E & ((_ & _ & Hx) & Hin)%list_elem_of_filter). cbn in E, Hx. subst k2.
  rewrite (elem_of_dget k x tb Hnd Hin) in Hk. apply is_due_next in Hd as (q & Hq & _). congruence.
Qed.

(** When a due row is not looked up, an older one is. *)
Lemma oldest_before t p (t1 due : table) a row : productive t p → NoDup t1.*1 →
  due_spec (_get_refresh_budget (manager p)) (now p) t1 due → dget a t1 = Some row → is_due t (a, row) = true → a ∉ due.*1 →
  ∃ k x, k ∈ due.*1 ∧ dget k t1 = Some x ∧ is_due t (k, x) = true.
Proof.
  intros Hp Hn (rest & Hperm & _ & Hdesc & Hlen) Ha Hd Hnin. pose proof (p_budget t p Hp) as Hb.
  assert (is_due (now p) (a, row) = true) as Hdn.
  { apply is_due_next in Hd as (q & Hq & Hqt). apply is_due_next. exists q. split; [done|]. destruct (p_clock t p Hp). lra. }
  assert ((a, row) ∈ rest) as Hr.
  { assert ((a, row) ∈ due ++ rest) as [Hin|]%elem_of_app; [rewrite <-Hperm; apply list_elem_of_filter|destruct Hnin|done].
    - split; [done|by apply dget_elem_of].
    - by apply (list_elem_of_fmap_2 fst due (a, row)). }
  assert (length (filter (λ kr, is_due (now p) kr = true) t1) = (length due + length rest)%nat) as Hl by (by rewrite Hperm, length_app).
  destruct due as [|[k x] due]; [exfalso; cbn in *; destruct rest; [by apply not_elem_of_nil in Hr|]; cbn in *; lia|].
  exists k, x. assert ((k, x) ∈ t1 ∧ is_due (now p) (k, x) = true) as [Hin Hdx].
  { assert ((k, x) ∈ filter (λ kr, is_due (now p) kr = true) t1) as H by (rewrite Hperm; left). by apply list_elem_of_filter in H as [? ?]. }
  split_and!; [left|by apply elem_of_dget|]. specialize (Hdesc (k, x) (a, row) (list_elem_of_here _ _) Hr). unfold desc, due_at in Hdesc. cbn in Hdesc.
  apply is_due_next in Hd as (q & Hq & Hqt). apply is_due_next in Hdx as (q' & Hq' & _). rewrite Hq, Hq' in Hdesc. cbn in Hdesc.
  apply is_due_next. exists q'. split; [done|lra].
Qed.

(** The repository is due, and every row due at [t] is one of a git repository. *)
Record waiting (a : string) (t : Q) (r : Registry) : Prop := {
  w_keys : NoDup (rows r).*1;
  w_due : ∃ row, dget a (rows r) = Some row ∧ is_due t (a, row) = true;
  w_git : ∀ k row, dget k (rows r) = Some row → is_due t (k, row) = true → is_git (k, row) = true }.

Lemma early_elem t tb k : NoDup tb.*1 → k ∈ (early t tb).*1 ↔ ∃ row, dget k tb = Some row ∧ is_due t (k, row) = true.
Proof.
  intros Hnd. split.
  - intros ([k' row] & -> & [Hd Hin]%list_elem_of_filter)%list_elem_of_fmap. exists row. split; [by apply elem_of_dget|done].
  - intros (row & Hk & Hd). apply list_elem_of_fmap. exists (k, row). split; [done|]. apply list_elem_of_filter. split; [done|by apply dget_elem_of].
Qed.

Lemma is_due_same t k row row' : next_refresh row' = next_refresh row → is_due t (k, row') = is_due t (k, row).
Proof. unfold is_due. cbn. by intros ->. Qed.

Lemma harmless_waiting a t change r : harmless a t change → waiting a t r →
  waiting a t (change r) ∧ (length (early t (rows (change r))) ≤ length (early t (rows r)))%nat.
Proof.
  intros [Hk He Hd] [Wk (row & Ha & Hdue) Wg]. destruct (Hd r row Ha) as (row' & Ha' & Hn & _). split; [split|].
  - by apply Hk.
  - exists row'. split; [done|]. by rewrite (is_due_same t a row).
  - intros k x Hx Hdx. destruct (He r k x Hx Hdx) as (x' & Hx' & Hn' & Hu'). unfold is_git. cbn. rewrite <-Hu'. apply (Wg k x' Hx').
    by rewrite (is_due_same t k x).
  - rewrite <-!(length_fmap fst). apply submseteq_length, NoDup_submseteq; [by apply keys_filter, Hk|]. intros k. rewrite !early_elem by auto.
    intros (x & Hx & Hdx). destruct (He r k x Hx Hdx) as (x' & Hx' & Hn' & _). exists x'. by rewrite (is_due_same t k x).
Qed.

(** One productive poll submits the repository, or a row that was due before it. *)
Lemma poll_progress a t p s : productive t p → waiting a t (registry s) →
  a ∈ (iteration p s).1.2 ∨
  waiting a t (registry (iteration p s).2) ∧ (length (early t (rows (registry (iteration p s).2))) < length (early t (rows (registry s))))%nat.
Proof.
  intros Hp [Wk (row & Ha & Hdue) Wg]. pose proof (poll_spec p s (p_undisturbed t p Hp) Wk) as H. destruct (iteration p s) as [[w l] s']. cbn [fst snd].
  destruct H as (due & Hspec & -> & Hrows & _). set (tb := rows (registry s)) in *. set (t1 := prepared p tb) in *.
  assert (NoDup t1.*1) as Hn1 by (unfold t1, prepared; by rewrite map_keys).
  pose proof (prepared_due t p tb a row Wk Ha Hdue) as Ha1. fold t1 in Ha1.
  assert (∀ k x, dget k t1 = Some x → is_due t (k, x) = true → dget k tb = Some x) as Hback by (intros; by eapply prepared_early).
  assert (∀ kr, kr ∈ due → kr ∈ t1 ∧ is_due (now p) kr = true) as Hsub by (intros kr Hin; eapply top_elem in Hin; [|exact Hspec]; apply list_elem_of_filter in Hin; tauto).
  destruct (decide (a ∈ due.*1)) as [Hin|Hnin].
  { left. apply list_elem_of_fmap in Hin as ([a' x] & E & Hin). cbn in E. subst a'. pose proof (elem_of_dget a x t1 Hn1 (proj1 (Hsub _ Hin))) as Hx.
    rewrite Ha1 in Hx. injection Hx as <-. apply list_elem_of_fmap. exists (a, row). split; [done|]. apply list_elem_of_filter. split; [by eapply Wg|done]. }
  right. destruct (oldest_before t p t1 due a row Hp Hn1 Hspec Ha1 Hdue Hnin) as (k & x & Hkd & Hk1 & Hkx).
  pose proof (Wg k x (Hback k x Hk1 Hkx) Hkx) as Hkg.
  assert (∀ k' x', dget k' (rows (registry s')) = Some x' → is_due t (k', x') = true → k' ≠ k ∧ dget k' tb = Some x') as Hafter.
  { intros k' x'. rewrite Hrows. unfold polled. rewrite dget_map. destruct (dget k' t1) as [x0|] eqn:Hx0; [|done]. cbn [fmap option_fmap option_map fst snd].
    case_bool_decide as Hd; cbn [andb]; [destruct (moved p (k', x0)) eqn:Hm|]; intros [= <-] He.
    - apply is_due_next in He as (q & [= <-] & Hq). pose proof (next_time_later p k' (p_draw t p Hp k') (p_interval t p Hp)). destruct (p_clock t p Hp). lra.
    - split; [intros ->|by apply Hback]. rewrite Hk1 in Hx0. injection Hx0 as <-. unfold moved in Hm. by rewrite Hkg, (p_accepted t p Hp) in Hm.
    - split; [intros ->; by apply Hd|by apply Hback]. }
  assert (NoDup (rows (registry s')).*1) as Hn' by (rewrite Hrows; unfold polled; by rewrite map_keys).
  split; [split|].
  - done.
  - exists row. split; [|done]. rewrite Hrows. unfold polled. rewrite dget_map, Ha1. cbn [fmap option_fmap option_map fst snd]. by rewrite bool_decide_eq_false_2.
  - intros k' x' Hx' Hd'. eapply Wg; [|done]. by apply (Hafter k' x').
  - rewrite <-!(length_fmap fst). apply (submseteq_length (k :: (early t (rows (registry s'))).*1)), NoDup_submseteq.
    + apply NoDup_cons. split; [|by apply keys_filter]. intros (x' & Hx' & Hd')%early_elem; [|done]. by apply (Hafter k x').
    + intros k' [->|(x' & Hx' & Hd')%early_elem]%elem_of_cons; [|apply early_elem; [done|]; exists x'; split; [by apply (Hafter k' x')|done]|done].
      apply early_elem; [done|]. exists x. split; [by apply Hback|done].
Qed.


(** ** Instances *)

Definition repo (name url : string) (next : option Q) : string * Repo :=
  ((name +:+ "-global")%string, mkRepo name (Some url) "" 0 0 false None false next).

Definition quiet (budget : Z) (at_ : Q) : Poll :=
  {| listed := true; interval := 3600; spread_time := at_; spread_saved := λ _, true; manager := Some (budget, ∅); now := at_; due_listed := true;
     order_by := sort_due; running := λ _, true; submit := λ _, Submitted; draw := λ _, (1 # 2)%Q; saved := λ _, true |}.

Lemma quiet_undisturbed budget at_ : undisturbed (quiet budget at_).
Proof. split; try done. apply sort_due_sorts. Qed.

Definition demo_table : table := [repo "new" "https://h/new" None; repo "notes" "local://notes" None; repo "b" "git@h:b" (Some 7%Q); repo "a" "https://h/a" (Some 5%Q)]%string.

Lemma poll_spec_witness :
  let s := mkLoop (Sqlite demo_table) 2 4 in
  next_refresh <$> demo_table.*2 = [None; None; Some 7%Q; Some 5%Q] ∧
  let '(wait, submitted, s') := iteration (quiet 1 10) s in
  let t := prepared (quiet 1 10) (rows (registry s)) in
  ∃ due, due_spec (_get_refresh_budget (manager (quiet 1 10))) (now (quiet 1 10)) t due ∧
    submitted = (filter (λ kr, is_git kr = true) due).*1 ∧ rows (registry s') = polled (quiet 1 10) due t ∧
    consecutive_failures s' = 0 ∧ (10 <= wait <= 60)%Q.
Proof.
  split; [done|]. apply (poll_spec (quiet 1 10) (mkLoop (Sqlite demo_table) 2 4)); [apply quiet_undisturbed|].
  apply (bool_decide_unpack _). by vm_compute.
Defined.

Lemma quiet_productive (t at_ : Q) : (t <= at_)%Q → productive t (quiet 1 at_).
Proof.
  intros Ht. split; try done; [apply quiet_undisturbed|split; [done|apply Qle_refl]].
Qed.

Lemma same_harmless a t : harmless a t (λ r, r).
Proof. split; eauto. Qed.


(** ** What the model shows *)

(** The back-off is said to push the next attempt further into the future; after the
    third transient failure it replaces the hour the loop has just set by a minute. *)
Lemma backoff_shortens :
  let '(_, _, s) := iteration (quiet 1 10) (mkLoop (Sqlite [repo "a" "https://h/a" (Some 5%Q)]) 0 0)%string in
  let r := _apply_fetch_backoff (at_time 12) "a-global" transient 3 (registry s) in
  (Qeq_bool 3610 <$> (dget "a-global"%string (rows (registry s)) ≫= next_refresh),
   Qeq_bool 72 <$> (dget "a-global"%string (rows r) ≫= next_refresh)) = (Some true, Some true).
Proof. by vm_compute. Qed.

(** A due row of a repository without a git URL is looked up and passed over, so it keeps
    its slot for ever: nothing is submitted and nothing changes. *)
Lemma local_row_starves at_ : (5 <= at_)%Q →
  let s := mkLoop (Sqlite [repo "notes" "local://notes" (Some 4%Q); repo "a" "https://h/a" (Some 5%Q)]) 0 0%string in
  (iteration (quiet 1 at_) s).1.2 = [] ∧ (iteration (quiet 1 at_) s).2 = s.
Proof.
  intros H. set (tb := [repo "notes" "local://notes" (Some 4%Q); repo "a" "https://h/a" (Some 5%Q)]%string). cbn zeta.
  assert (list_due_repos sort_due 1 at_ (Sqlite tb) = [repo "notes" "local://notes" (Some 4%Q)]) as Hd.
  { unfold list_due_repos, sqlite_list_due_repos. rewrite list_filter_all; [by vm_compute|].
    intros kr [->|[->|?%not_elem_of_nil]%elem_of_cons]%elem_of_cons; try done; apply Qle_bool_iff; cbn; lra. }
  unfold iteration. replace (prepare (quiet 1 at_) (registry (mkLoop (Sqlite tb) 0 0))) with (@None registry_error, Sqlite tb) by reflexivity.
  change (list_due_repos (order_by (quiet 1 at_)) (_get_refresh_budget (manager (quiet 1 at_))) (now (quiet 1 at_)) (Sqlite tb)) with (list_due_repos sort_due 1 at_ (Sqlite tb)).
  rewrite Hd. done.
Qed.

(** So does a repository whose submission keeps failing. *)
Lemma failing_submission_starves :
  let p := {| listed := true; interval := 3600; spread_time := 10; spread_saved := λ _, true; manager := Some (1, ∅); now := 10; due_listed := true;
     order_by := sort_due; running := λ _, true; draw := λ _, (1 # 2)%Q; saved := λ _, true;
     submit := λ a, if bool_decide (a = "b-global"%string) then Failed {| operational := false; message := [] |} else Submitted |} in
  let s := mkLoop (Sqlite [repo "b" "https://h/b" (Some 4%Q); repo "a" "https://h/a" (Some 5%Q)]) 0 0%string in
  (iteration p s).1.2 = ["b-global"%string] ∧ (iteration p s).2 = s.
Proof. by vm_compute. Qed.

End RefreshLoop.
