(* ===== verification/RefreshCycle.v ===== *)
(** * One refresh of a repository

    src/src/code_indexer/global_repos/refresh_scheduler.py: [_execute_refresh] with the
    reconciliation of registry flags and the making of a version.

    A refresh reads the alias, brings the clone up to date, indexes it, makes a version
    of it and publishes that version.  What git, the indexer and the file system answer
    is an argument; the alias, the versions, the registry, the failure counters, the
    lock files, the index cache and the job table are the state. *)

From stdpp Require Import pretty.
From S2P Require Import Prelude QueryTracker CleanupManager WriteLock IndexCache JobStore AliasRegistry SnapshotRotation RefreshScheduler.
From stdpp Require Import options.
Local Open Scope Z_scope.

Module RefreshCycle.
Import SnapshotRotation FetchFailures.

Section refresh.
Context {V : Type} (c : Settings).

(** ** State *)

Record World := mkWorld {
  storage : Storage; recovery : Recovery; golden_meta : gmap string bool;
  locks : WriteLock.locks; cache : IndexCache.cache V }.

Definition set_storage (x : Storage) (w : World) : World := mkWorld x (recovery w) (golden_meta w) (locks w) (cache w).
Definition set_recovery (x : Recovery) (w : World) : World := mkWorld (storage w) x (golden_meta w) (locks w) (cache w).
Definition set_meta (x : gmap string bool) (w : World) : World := mkWorld (storage w) (recovery w) x (locks w) (cache w).
Definition set_locks (x : WriteLock.locks) (w : World) : World := mkWorld (storage w) (recovery w) (golden_meta w) x (cache w).
Definition set_cache (x : IndexCache.cache V) (w : World) : World := mkWorld (storage w) (recovery w) (golden_meta w) (locks w) x.
Definition set_registry (x : GlobalRegistry.Registry) (w : World) : World :=
  set_recovery (mkRecovery (failures (recovery w)) (dirs (recovery w)) x) w.

(** The dictionary a refresh returns. *)
Record answer := mkAnswer { success : bool; message : string }.

(** A statement goes on, returns from the refresh, or raises. *)
Inductive flow (A : Type) := Next (a : A) | Return (r : answer) | Raise.
Arguments Next {_} a. Arguments Return {_} r. Arguments Raise {_}.

Definition M (A : Type) : Type := World → flow A * World.
Definition next {A} (a : A) : M A := λ w, (Next a, w).
Definition return_ {A} (success : bool) (message : string) : M A := λ w, (Return (mkAnswer success message), w).
Definition raise {A} : M A := λ w, (Raise, w).
Definition bind {A B} (m : M A) (f : A → M B) : M B := λ w,
  match m w with (Next a, w) => f a w | (Return r, w) => (Return r, w) | (Raise, w) => (Raise, w) end.
Definition gets {A} (f : World → A) : M A := λ w, (Next (f w), w).
Definition modify (f : World → World) : M () := λ w, (Next (), f w).
Definition unless {A} (b : bool) (m : M A) (k : M A) : M A := if b then k else m.
Local Notation "x ⇐ m ; k" := (bind m (λ x, k)) (at level 20, m at level 100, k at level 200, right associativity).
Local Notation "m ;;; k" := (bind m (λ _, k)) (at level 100, k at level 200, right associativity).

(** ** Flags *)

(** Which writes succeed, and whether the second table can be read. *)
Record Writes := { temporal_saved : bool; scip_saved : bool; meta_read : bool; meta_saved : bool }.

Definition registry_call (f : GlobalRegistry.Registry → option GlobalRegistry.registry_error * GlobalRegistry.Registry) : M () := λ w,
  let '(e, r) := f (registry (recovery w)) in (match e with Some _ => Raise | None => Next () end, set_registry r w).

Definition _reconcile_global_repos_temporal (o : Writes) (global : string) (repo : GlobalRegistry.Repo) (on_disk : bool) : M () :=
  if GlobalRegistry.enable_temporal repo && negb on_disk
  then registry_call (GlobalRegistry.update_enable_temporal false (temporal_saved o) global) else next ().

(** Its exceptions are caught. *)
Definition _reconcile_golden_metadata_temporal (o : Writes) (bare : string) (on_disk : bool) : M () := modify (λ w,
  if meta_read o && bool_decide (golden_meta w !! bare = Some true) && negb on_disk && meta_saved o
  then set_meta (<[bare := false]> (golden_meta w)) w else w).

Definition _reconcile_scip_flag (o : Writes) (global : string) (repo : GlobalRegistry.Repo) (on_disk : bool) : M () :=
  if bool_decide (GlobalRegistry.enable_scip repo = on_disk) then next ()
  else registry_call (GlobalRegistry.update_enable_scip on_disk (scip_saved o) global).

(** [detected]: whether there is a temporal and a SCIP index. *)
Definition _reconcile_registry_with_filesystem (o : Writes) (alias : string) (detected : bool * bool) : M () :=
  let bare := removesuffix AliasManager.GLOBAL alias in
  let global := (bare +:+ AliasManager.GLOBAL)%string in
  r ⇐ gets (λ w, GlobalRegistry.get_global_repo global (registry (recovery w)));
  match r with
  | None => next ()
  | Some repo =>
      _reconcile_global_repos_temporal o global repo detected.1;;;
      _reconcile_golden_metadata_temporal o bare detected.1;;;
      _reconcile_scip_flag o global repo detected.2
  end.

(** ** What a refresh meets *)

(** The backup of the meta directory: skipped or not, with the text of a failure. *)
Record sync_result := { skipped : bool; sync_failure : option string }.
Inductive backup := Disabled | Enabled (sync : option sync_result).

(** [has_changes], and [update] when there are. *)
Inductive raised_by_git := GitFetchError (k : category) | OtherError.
Inductive checked := CheckRaises (e : raised_by_git) | NoChanges | HasChanges (update : option raised_by_git).
Inductive clone_state := OrphanedRepo | Opened.

(** A version is made; made and then found wanting, and removed or not; or not made. *)
Inductive snapshot_outcome := Made (ts : Z) | Wanting (ts : Z) (removed : bool) | NotMade.

Record Run := {
  force_reset : bool; at_ : moment; on_host : WriteLock.host; found_before : bool * bool; found_after : bool * bool;
  writes_before : Writes; writes_after : Writes;
  initialized : bool; config_valid : bool; repaired : bool; cidx_meta : backup; local_changes : bool;
  clone : clone_state; reset : bool; git : checked; drift : nat → bool; indexed : bool → bool;
  snapshot : snapshot_outcome; alias_written : bool; listing_ok : bool; stamp_saved : bool }.

(** ** The refresh *)

Definition is_write_locked (r : Run) (repo_name : string) : M bool := λ w,
  let '(b, l) := WriteLock.is_locked (on_host r) repo_name (locks w) in (Next b, set_locks l w).

Definition handle_fetch_error {A} (r : Run) (alias : string) (k : category) : M A := λ w, (Raise, set_recovery (fail alias (at_ r) k (recovery w)).2 w).

Definition raise_git {A} (r : Run) (alias : string) (e : raised_by_git) : M A :=
  match e with GitFetchError k => handle_fetch_error r alias k | OtherError => raise end.

Definition reset_fetch_failures (alias : string) : M () := modify (λ w, set_recovery (fetched alias (recovery w)) w).

(** The backup of the meta directory, which replaces the look for changes. *)
Definition sync_meta (r : Run) (s : option sync_result) : M (option string) :=
  match s with
  | None => raise
  | Some res => if skipped res && negb (force_reset r) then return_ true "No changes detected" else next (sync_failure res)
  end.

(** [force_reconcile], and the failure of the backup. *)
Definition refresh_local (r : Run) (alias repo_name : string) : M (bool * option string) :=
  unless (initialized r) (return_ true "Not yet initialized, skipped") (
  unless (config_valid r || repaired r) (return_ false "Local repo config invalid and repair via cidx init failed") (
  locked ⇐ is_write_locked r repo_name;
  if locked then return_ true "Skipped, write lock held"
  else match (if bool_decide (alias = "cidx-meta-global"%string) then cidx_meta r else Disabled) with
       | Enabled s => failure ⇐ sync_meta r s; next (false, failure)
       | Disabled =>
           if local_changes r then next (false, None)
           else if drift r 0%nat then next (true, None) else return_ true "No changes detected"
       end)).

Definition refresh_git (r : Run) (alias repo_name : string) (is_meta_repo : bool) : M (bool * option string) :=
  locked ⇐ is_write_locked r repo_name;
  if locked then return_ true "Skipped, write lock held"
  else match (if is_meta_repo && bool_decide (alias = "cidx-meta-global"%string) then cidx_meta r else Disabled) with
       | Enabled s => failure ⇐ sync_meta r s; next (false, failure)
       | Disabled =>
           match (if is_meta_repo then Opened else clone r) with
           | OrphanedRepo => return_ true "Orphaned golden repo (clone missing), skipped"
           | Opened =>
               if force_reset r then (if reset r then next (false, None) else raise)
               else match git r with
                    | CheckRaises e => raise_git r alias e
                    | NoChanges =>
                        reset_fetch_failures alias;;;
                        (if drift r 0%nat then next (true, None) else return_ true "No changes detected")
                    | HasChanges u =>
                        reset_fetch_failures alias;;;
                        match u with Some e => raise_git r alias e | None => next (false, None) end
                    end
           end
       end.

(** The name of a version; whatever goes wrong after it was made, it is removed again
    if that can be done. *)
Definition _create_snapshot (r : Run) (alias : string) : M Z := λ w,
  let add ts := with_snapshots ({[(ns c alias, ts)]} ∪ snapshots (storage w)) (storage w) in
  match snapshot r with
  | Made ts => (Next ts, set_storage (add ts) w)
  | Wanting ts removed =>
      (Raise, set_storage (if removed then with_snapshots (snapshots (add ts) ∖ {[(ns c alias, ts)]}) (add ts) else add ts) w)
  | NotMade => (Raise, w)
  end.

(** The entries of the version that is replaced leave the cache. *)
Definition evicted (old : string) (k : IndexCache.cache V) : IndexCache.cache V :=
  match IndexCache.invalidate_prefix (txt old) k with Ok (_, k') => k' | Err _ => k end.

(** The swap with what follows it. *)
Definition publish_version (r : Run) (alias current_target : string) (ts : Z) : M () := λ w,
  match publish c (alias_written r) (listing_ok r) (time (at_ r)) alias (path c alias ts) (Some current_target) (storage w) with
  | Err _ => (Raise, w)
  | Ok s => (Next (), set_storage s (set_cache (evicted current_target (cache w)) w))
  end.

(** Up to the index: the target of the alias, whether to reconcile, and the failure of
    the backup. *)
Definition bring_up_to_date (r : Run) (alias : string) : M (string * (bool * option string)) :=
  target ⇐ gets (λ w, truthy (AliasManager.read_alias alias (aliases (storage w))));
  match target with
  | None => return_ true "Alias not found, skipped"
  | Some current_target =>
      info ⇐ gets (λ w, GlobalRegistry.get_global_repo alias (registry (recovery w)));
      match info with
      | None => return_ true "Repo not in registry, skipped"
      | Some repo =>
          let url := GlobalRegistry.repo_url repo in
          let is_meta_repo := bool_decide (url = None) in
          let is_local_repo := match truthy url with Some u => String.prefix "local://" u | None => false end in
          let repo_name := removesuffix AliasManager.GLOBAL alias in
          _reconcile_registry_with_filesystem (writes_before r) alias (found_before r);;;
          todo ⇐ (if is_local_repo then refresh_local r alias repo_name else refresh_git r alias repo_name is_meta_repo);
          next (current_target, todo)
      end
  end.

Definition index_and_publish (r : Run) (alias : string) (x : string * (bool * option string)) : M answer :=
  let '(current_target, (reconcile, failure)) := x in
  unless (indexed r (reconcile || drift r 1%nat)) raise (
  ts ⇐ _create_snapshot r alias;
  publish_version r alias current_target ts;;;
  registry_call (GlobalRegistry.update_refresh_timestamp (time (at_ r)) (stamp_saved r) alias);;;
  _reconcile_registry_with_filesystem (writes_after r) alias (found_after r);;;
  match failure with
  | Some _ => raise
  | None => next (mkAnswer true "Refresh complete")
  end).

Definition refresh_body (r : Run) (alias : string) : M answer :=
  x ⇐ bring_up_to_date r alias; index_and_publish r alias x.

(** Every exception becomes a [RuntimeError], here [None]. *)
Definition refresh (r : Run) (alias : string) (w : World) : option answer * World :=
  match refresh_body r alias w with
  | (Next a, w) | (Return a, w) => (Some a, w)
  | (Raise, w) => (None, w)
  end.

(** *** The job of a refresh *)

(** The tracker's dictionary and table; [None] when there is no tracker or the caller
    has registered the job. *)
Record Tracker := { node : option string; created : Z; started : Z; ended : Z }.
Abbreviation Jobs := (gmap string JobStore.TrackedJob * gmap string JobStore.Row)%type.

Definition job_of (alias : string) : string := ("refresh-" +:+ alias)%string.

(** The registration: whether the refresh goes ahead. *)
Definition open_job (t : Tracker) (alias : string) (jobs : Jobs) : bool * Jobs :=
  let '(act, rows) := JobStore.register_job (node t) (job_of alias) "global_repo_refresh" "system" (Some alias) None (created t) jobs.1 jobs.2 in
  let '(snap, act) := JobStore.update_status (job_of alias) (Some JobStore.RUNNING) None None None (started t) act in
  match snap with
  | None => (true, (act, rows))
  | Some j => match JobStore.upsert_job (job_of alias) j rows with Ok rows => (true, (act, rows)) | Err _ => (false, (act, rows)) end
  end.

Definition close_job (t : Tracker) (alias : string) (failed : bool) (jobs : Jobs) : Jobs :=
  let e := if failed then JobStore.Fail (JobStore.VStr ("refresh failed for " +:+ alias)) else JobStore.Complete None in
  let '(act, rows) := JobStore.end_job (job_of alias) e (ended t) jobs.1 jobs.2 in
  (act, match rows with Ok rows => rows | Err _ => jobs.2 end).

Definition _execute_refresh (tracker : option Tracker) (r : Run) (alias : string) (jobs : Jobs) (w : World) : option answer * Jobs * World :=
  match tracker with
  | None => let '(o, w) := refresh r alias w in (o, jobs, w)
  | Some t =>
      let '(go, jobs) := open_job t alias jobs in
      if negb go then (None, jobs, w)
      else let '(o, w) := refresh r alias w in (o, close_job t alias (bool_decide (o = None)) jobs, w)
  end.

(** ** Lemmas *)

(** *** Computations that leave a part of the state alone *)

Definition keeps {A T} (part : World → T) (m : M A) : Prop := ∀ w, part (m w).2 = part w.

(** Parts that only the version and its publication change. *)
Class Steady {T} (part : World → T) : Prop := {
  st_recovery : ∀ x w, part (set_recovery x w) = part w;
  st_meta : ∀ x w, part (set_meta x w) = part w;
  st_locks : ∀ x w, part (set_locks x w) = part w }.

#[local] Instance storage_steady : Steady storage. Proof. done. Qed.
#[local] Instance cache_steady : Steady cache. Proof. done. Qed.

Section keeps.
Context {T : Type} (part : World → T) `{!Steady part}.

Lemma keeps_bind {A B} (m : M A) (f : A → M B) : keeps part m → (∀ a, keeps part (f a)) → keeps part (bind m f).
Proof using. intros Hm Hf w. unfold bind. specialize (Hm w). destruct (m w) as [[a| |] w']; cbn in *; [rewrite Hf|..]; done. Qed.

Lemma keeps_next {A} (a : A) : keeps part (next a). Proof using. done. Qed.
Lemma keeps_return {A} b msg : keeps part (return_ (A := A) b msg). Proof using. done. Qed.
Lemma keeps_raise {A} : keeps part (raise (A := A)). Proof using. done. Qed.
Lemma keeps_gets {A} (f : World → A) : keeps part (gets f). Proof using. done. Qed.
Lemma keeps_modify f : (∀ w, part (f w) = part w) → keeps part (modify f). Proof using. intros H w. apply H. Qed.
Lemma keeps_call f : keeps part (registry_call f).
Proof using Type*. intros w. unfold registry_call. destruct (f _). apply st_recovery. Qed.
Lemma keeps_locked r n : keeps part (is_write_locked r n).
Proof using Type*. intros w. unfold is_write_locked. destruct (WriteLock.is_locked _ _ _). apply st_locks. Qed.
Lemma keeps_fetch_error {A} r alias k : keeps part (handle_fetch_error (A := A) r alias k).
Proof using Type*. intros w. apply st_recovery. Qed.
Lemma keeps_reset alias : keeps part (reset_fetch_failures alias).
Proof using Type*. apply keeps_modify. intros w. apply st_recovery. Qed.
Lemma keeps_golden o bare b : keeps part (_reconcile_golden_metadata_temporal o bare b).
Proof using Type*. apply keeps_modify. intros w. case_match; [apply st_meta|done]. Qed.

Create HintDb refresh.
#[local] Hint Resolve keeps_next keeps_return keeps_raise keeps_gets keeps_call keeps_locked keeps_fetch_error keeps_reset keeps_golden : refresh.

Ltac keeps := repeat first
  [ solve [auto with refresh] | apply keeps_bind | match goal with |- forall _, _ => intros ? end
  | match goal with |- context [match ?x with _ => _ end] => destruct x end ].

Lemma keeps_reconcile o alias d : keeps part (_reconcile_registry_with_filesystem o alias d).
Proof using Type*.
  unfold _reconcile_registry_with_filesystem, _reconcile_global_repos_temporal, _reconcile_scip_flag. cbn zeta. keeps.
Qed.

Lemma keeps_bring r alias : keeps part (bring_up_to_date r alias).
Proof using Type*.
  pose proof keeps_reconcile. unfold bring_up_to_date, refresh_local, refresh_git, sync_meta, raise_git, unless. cbn zeta. keeps.
Qed.

End keeps.

(** *** Reading a run backwards *)

Lemma bind_Next {A B} (m : M A) (f : A → M B) w b w2 : bind m f w = (Next b, w2) ↔ ∃ a w1, m w = (Next a, w1) ∧ f a w1 = (Next b, w2).
Proof. unfold bind. destruct (m w) as [[a| |] w1]; split; intros H; [by eauto|by destruct H as (? & ? & [= <- <-] & ?)|done|naive_solver|done|naive_solver]. Qed.

Lemma bind_Return {A B} (m : M A) (f : A → M B) w r w2 : bind m f w = (Return r, w2) ↔
  m w = (Return r, w2) ∨ ∃ a w1, m w = (Next a, w1) ∧ f a w1 = (Return r, w2).
Proof. unfold bind. destruct (m w) as [[a| |] w1]; split; intros H; naive_solver. Qed.

Lemma bring_target r alias w x w1 : bring_up_to_date r alias w = (Next x, w1) → AliasManager.read_alias alias (aliases (storage w)) = Some x.1.
Proof.
  unfold bring_up_to_date. intros (target & w' & [= <- <-] & H)%bind_Next. destruct (truthy _) as [t|] eqn:Ht; [|done].
  apply bind_Next in H as (info & w' & [= <- <-] & H). destruct (GlobalRegistry.get_global_repo _ _); [|done].
  apply bind_Next in H as (? & w' & _ & H). apply bind_Next in H as (todo & w2 & _ & [= <- <-]).
  cbn. destruct (AliasManager.read_alias alias (aliases (storage w))) as [[|ch p]|]; cbn in Ht; congruence.
Qed.

(** What a refresh does to the storage once it has read [old]. *)
Definition after_snapshot (r : Run) (alias old : string) (s : Storage) : Storage :=
  let add ts := with_snapshots ({[(ns c alias, ts)]} ∪ snapshots s) s in
  match snapshot r with
  | Made ts => match publish c (alias_written r) (listing_ok r) (time (at_ r)) alias (path c alias ts) (Some old) (add ts) with Ok s' => s' | Err _ => add ts end
  | Wanting ts removed => if removed then with_snapshots (snapshots (add ts) ∖ {[(ns c alias, ts)]}) (add ts) else add ts
  | NotMade => s
  end.

Lemma refresh_storage r alias w : storage (refresh r alias w).2 = storage w ∨
  ∃ old, AliasManager.read_alias alias (aliases (storage w)) = Some old ∧ storage (refresh r alias w).2 = after_snapshot r alias old (storage w).
Proof.
  assert (storage (refresh r alias w).2 = storage (refresh_body r alias w).2) as -> by (unfold refresh; by destruct (refresh_body r alias w) as [[| |] ?]).
  unfold refresh_body, bind. pose proof (keeps_bring storage r alias w) as Hk. destruct (bring_up_to_date r alias w) as [[x| |] w1] eqn:E; cbn in Hk; [|by left..].
  apply bring_target in E. destruct x as [old [reconcile failure]]. unfold index_and_publish, unless. destruct (indexed r _); [|by left].
  right. exists old. split; [done|]. unfold after_snapshot, _create_snapshot, bind at 1. rewrite <-Hk. cbn zeta.
  destruct (snapshot r) as [ts|ts removed|]; [|done..]. unfold publish_version, bind at 1. cbn [storage set_storage].
  destruct (publish _ _ _ _ _ _ _ _) as [s'|]; [|done].
  match goal with |- storage ((bind _ _) ?w).2 = _ => change s' with (storage w) end.
  apply keeps_bind; [apply keeps_call, _|]. intros _. apply keeps_bind; [apply keeps_reconcile, _|]. intros _. by destruct failure.
Qed.

(** *** What completes a refresh *)

Lemma call_Next f w u w' : registry_call f w = (Next u, w') → (f (registry (recovery w))).1 = None ∧ w' = set_registry (f (registry (recovery w))).2 w.
Proof. unfold registry_call. destruct (f _) as [[e|] x]; intros [= <- <-]; done. Qed.

(** An update that reports no error has changed the row, if there is one. *)
Lemma update_field_row f ok a r k : (GlobalRegistry.update_field f ok a r).1 = None →
  dget k (GlobalRegistry.rows (GlobalRegistry.update_field f ok a r).2) = if bool_decide (k = a) then f <$> dget k (GlobalRegistry.rows r) else dget k (GlobalRegistry.rows r).
Proof.
  unfold GlobalRegistry.update_field, GlobalRegistry.on_entry, GlobalRegistry.update_repo. intros H.
  destruct r as [[d x]|d]; cbn in *.
  - destruct (bool_decide (is_Some (dget a d))) eqn:Hs; [destruct ok; [apply GlobalRegistry.dget_alter|discriminate]|].
    apply bool_decide_eq_false, eq_None_not_Some in Hs. cbn.
    destruct (decide (k = a)) as [->|Hk]; [by rewrite Hs, bool_decide_eq_true_2|by rewrite bool_decide_eq_false_2].
  - destruct ok; [apply GlobalRegistry.dget_alter|discriminate].
Qed.

Definition row (alias : string) (w : World) : option GlobalRegistry.Repo := GlobalRegistry.get_global_repo alias (registry (recovery w)).

(** The flags after a reconciliation: a temporal flag can only be cleared. *)
Definition flags (d : bool * bool) (x : GlobalRegistry.Repo) : GlobalRegistry.Repo :=
  GlobalRegistry.set_enable_scip d.2 (GlobalRegistry.set_enable_temporal (GlobalRegistry.enable_temporal x && d.1) x).

Lemma reconcile_row o bare d w u w' : let alias := (bare +:+ AliasManager.GLOBAL)%string in
  _reconcile_registry_with_filesystem o alias d w = (Next u, w') → row alias w' = flags d <$> row alias w ∧ locks w' = locks w.
Proof.
  cbn zeta. unfold _reconcile_registry_with_filesystem. rewrite removesuffix_app. set (alias := (bare +:+ AliasManager.GLOBAL)%string).
  intros (info & w0 & [= <- <-] & H)%bind_Next. fold (row alias w) in H. destruct (row alias w) as [x|] eqn:Hx; [|by injection H as _ <-].
  apply bind_Next in H as (? & w1 & H1 & H). apply bind_Next in H as (? & w2 & H2 & H3).
  assert (row alias w1 = Some (GlobalRegistry.set_enable_temporal (GlobalRegistry.enable_temporal x && d.1) x) ∧ locks w1 = locks w) as [R1 L1].
  { unfold _reconcile_global_repos_temporal in H1. destruct (GlobalRegistry.enable_temporal x && negb d.1) eqn:E.
    - apply call_Next in H1 as [He ->]. split; [|done]. unfold row, GlobalRegistry.get_global_repo. cbn [recovery set_registry set_recovery registry].
      unfold GlobalRegistry.update_enable_temporal in *. rewrite update_field_row, bool_decide_eq_true_2 by done.
      unfold row, GlobalRegistry.get_global_repo in Hx. rewrite Hx. apply andb_true_iff in E as [-> ->%negb_true_iff]. done.
    - injection H1 as _ <-. split; [|done]. rewrite Hx. destruct x as [? ? ? ? ? t ? ? ?], t, d as [[|] ?]; cbn in *; done. }
  assert (row alias w2 = row alias w1 ∧ locks w2 = locks w1) as [R2 L2] by (injection H2 as _ <-; by case_match).
  unfold _reconcile_scip_flag in H3. case_bool_decide as E.
  - injection H3 as _ <-. rewrite R2, R1, L2, L1. split; [|done]. cbn. f_equal. unfold flags. rewrite <-E. by destruct x.
  - apply call_Next in H3 as [He ->]. rewrite <-L1, <-L2. split; [|done]. unfold row, GlobalRegistry.get_global_repo. cbn [recovery set_registry set_recovery registry].
    unfold GlobalRegistry.update_enable_scip in *. rewrite update_field_row, bool_decide_eq_true_2 by done.
    rewrite R1 in R2. unfold row, GlobalRegistry.get_global_repo in R2. by rewrite R2.
Qed.

(** What goes on to the index leaves the registry alone and has found no lock. *)
Lemma locked_Next r n w b w' : is_write_locked r n w = (Next b, w') → b = (WriteLock.is_locked (on_host r) n (locks w)).1 ∧ recovery w' = recovery w.
Proof. unfold is_write_locked. destruct (WriteLock.is_locked _ _ _). by intros [= <- <-]. Qed.

Lemma sync_Next r x w o w' : sync_meta r x w = (Next o, w') → w' = w.
Proof. unfold sync_meta. destruct x as [res|]; [case_match; [done|]|done]. by intros [= _ <-]. Qed.

Lemma local_Next r alias n w x w' : refresh_local r alias n w = (Next x, w') →
  registry (recovery w') = registry (recovery w) ∧ (WriteLock.is_locked (on_host r) n (locks w)).1 = false.
Proof.
  unfold refresh_local, unless. destruct (initialized r); [|done]. destruct (config_valid r || repaired r); [|done].
  intros (b & w1 & [-> Hr]%locked_Next & H)%bind_Next. destruct (WriteLock.is_locked _ _ _).1; [done|]. split; [|done]. rewrite <-Hr.
  destruct (if bool_decide _ then _ else _) as [|sr].
  - destruct (local_changes r); [by injection H as _ <-|]. destruct (drift r 0); [by injection H as _ <-|done].
  - apply bind_Next in H as (o & w2 & ->%sync_Next & H). by injection H as _ <-.
Qed.

Lemma remote_Next r alias n m w x w' : refresh_git r alias n m w = (Next x, w') →
  registry (recovery w') = registry (recovery w) ∧ (WriteLock.is_locked (on_host r) n (locks w)).1 = false.
Proof.
  unfold refresh_git. intros (b & w1 & [-> Hr]%locked_Next & H)%bind_Next. destruct (WriteLock.is_locked _ _ _).1; [done|]. split; [|done]. rewrite <-Hr.
  destruct (if m && bool_decide _ then _ else _) as [|sr].
  - destruct (if m then _ else _); [done|]. destruct (force_reset r); [destruct (reset r); [by injection H as _ <-|done]|].
    destruct (git r) as [e| |u]; [by destruct e|..]; apply bind_Next in H as (? & w2 & H2 & H); injection H2 as _ <-.
    + destruct (drift r 0); [by injection H as _ <-|done].
    + destruct u as [[e|]|]; [done..|by injection H as _ <-].
  - apply bind_Next in H as (o & w2 & ->%sync_Next & H). by injection H as _ <-.
Qed.

(** *** How a refresh returns *)

Lemma call_never_returns f w a w' : registry_call f w ≠ (Return a, w').
Proof. unfold registry_call. by destruct (f _) as [[e|] ?]. Qed.

Lemma reconcile_never_returns o alias d w a w' : _reconcile_registry_with_filesystem o alias d w ≠ (Return a, w').
Proof.
  unfold _reconcile_registry_with_filesystem, _reconcile_global_repos_temporal, _reconcile_scip_flag. cbn zeta.
  intros [H|(info & w0 & _ & H)]%bind_Return; [done|]. destruct info as [x|]; [|done].
  apply bind_Return in H as [H|(? & w1 & _ & H)]; [case_match; [by apply call_never_returns in H|done]|].
  apply bind_Return in H as [H|(? & w2 & _ & H)]; [done|]. case_bool_decide; [done|by apply call_never_returns in H].
Qed.

Lemma index_never_returns r alias x w a w' : index_and_publish r alias x w ≠ (Return a, w').
Proof.
  destruct x as [target [reconcile failure]]. unfold index_and_publish, unless. destruct (indexed r _); [|done].
  intros [H|(ts & w1 & _ & H)]%bind_Return; [unfold _create_snapshot in H; by destruct (snapshot r)|].
  apply bind_Return in H as [H|(? & w2 & _ & H)]; [unfold publish_version in H; by destruct (publish _ _ _ _ _ _ _ _)|].
  apply bind_Return in H as [H|(? & w3 & _ & H)]; [unfold registry_call in H; destruct (GlobalRegistry.update_refresh_timestamp _ _ _ _) as [[e|] ?]; done|].
  apply bind_Return in H as [H|(? & w4 & _ & H)]; [by apply reconcile_never_returns in H|]. by destruct failure.
Qed.

(** The messages of the early returns. *)
Definition early_message (m : string) : Prop := m ∈ ["Alias not found, skipped"; "Repo not in registry, skipped"; "Not yet initialized, skipped";
  "Local repo config invalid and repair via cidx init failed"; "Skipped, write lock held"; "No changes detected"; "Orphaned golden repo (clone missing), skipped"]%string.

Definition early {A} (m : M A) : Prop := ∀ w a w', m w = (Return a, w') → early_message (message a).

Lemma early_bind {A B} (m : M A) (f : A → M B) : early m → (∀ a, early (f a)) → early (bind m f).
Proof. intros Hm Hf w a w' [H|(x & w1 & _ & H)]%bind_Return; [by eapply Hm|by eapply Hf]. Qed.

Lemma early_return {A} b msg : early_message msg → early (return_ (A := A) b msg).
Proof. by intros H w a w' [= <- <-]. Qed.

Lemma early_never {A} (m : M A) : (∀ w a w', m w ≠ (Return a, w')) → early m.
Proof. intros H w a w' E. by apply H in E. Qed.

Lemma early_bring r alias : early (bring_up_to_date r alias).
Proof.
  assert (∀ A b msg, early_message msg → early (return_ (A := A) b msg)) as Hr by (intros; by apply early_return).
  assert (∀ A (x : A), early (next x)) as Hn by (intros; by apply early_never).
  assert (∀ A (f : World → A), early (gets f)) as Hg by (intros; by apply early_never).
  assert (∀ A, early (raise (A := A))) as He by (intros; by apply early_never).
  assert (∀ A k, early (handle_fetch_error (A := A) r alias k)) as Hf by (intros; by apply early_never).
  assert (early (reset_fetch_failures alias)) as Hs by (by apply early_never).
  assert (∀ n, early (is_write_locked r n)) as Hl by (intros n; apply early_never; intros w a w'; unfold is_write_locked; by destruct (WriteLock.is_locked _ _ _)).
  assert (∀ o d, early (_reconcile_registry_with_filesystem o alias d)) as Hc by (intros; apply early_never; intros; apply reconcile_never_returns).
  assert (∀ m, m ∈ ["Alias not found, skipped"; "Repo not in registry, skipped"; "Not yet initialized, skipped";
    "Local repo config invalid and repair via cidx init failed"; "Skipped, write lock held"; "No changes detected"; "Orphaned golden repo (clone missing), skipped"]%string → early_message m) as Hm by done.
  unfold bring_up_to_date, refresh_local, refresh_git, sync_meta, raise_git, unless. cbn zeta.
  repeat first [ solve [auto] | apply Hr, (bool_decide_unpack _); reflexivity | apply early_bind | match goal with |- forall _, _ => intros ? end
    | match goal with |- context [match ?x with _ => _ end] => destruct x end ].
Qed.

Lemma bring_message r alias w a w' : bring_up_to_date r alias w = (Return a, w') → message a ≠ "Refresh complete"%string.
Proof. intros H%early_bring. unfold early_message in H. intros E. rewrite E in H. by apply (bool_decide_pack _) in H. Qed.

(** *** A refresh that completes *)

Lemma brought r bare w x w1 : let alias := (bare +:+ AliasManager.GLOBAL)%string in
  bring_up_to_date r alias w = (Next x, w1) →
  AliasManager.read_alias alias (aliases (storage w)) = Some x.1 ∧ (WriteLock.is_locked (on_host r) bare (locks w)).1 = false ∧
  ∃ x0, row alias w = Some x0 ∧ row alias w1 = Some (flags (found_before r) x0).
Proof.
  cbn zeta. set (alias := (bare +:+ AliasManager.GLOBAL)%string). intros H. split; [by eapply bring_target|].
  unfold bring_up_to_date in H. apply bind_Next in H as (target & w0 & [= <- <-] & H). destruct (truthy _); [|done].
  apply bind_Next in H as (info & w0 & [= <- <-] & H). fold (row alias w) in H. destruct (row alias w) as [x0|] eqn:Hx; [|done].
  apply bind_Next in H as (? & w2 & [R L]%reconcile_row & H). fold alias in R. apply bind_Next in H as (todo & w3 & H3 & H). injection H as _ <-.
  assert (registry (recovery w3) = registry (recovery w2) ∧ (WriteLock.is_locked (on_host r) bare (locks w2)).1 = false) as [E1 E2].
  { unfold alias in H3. rewrite removesuffix_app in H3. destruct (match truthy _ with Some _ => _ | None => _ end); [by eapply local_Next|by eapply remote_Next]. }
  rewrite L in E2. split; [done|]. exists x0. split; [done|]. rewrite Hx in R. unfold row in R |- *. by rewrite E1, R.
Qed.

(** What publication leaves in the files and among the versions. *)
Lemma published_files write_ok ok now alias new old s s' : publish c write_ok ok now alias new (Some old) s = Ok s' →
  AliasManager.read_alias_file alias (aliases s') = Some new ∧ AliasManager.get_previous_path alias (aliases s') = Some old ∧
  (∀ b, b ≠ alias → AliasManager.files (aliases s') !! b = AliasManager.files (aliases s) !! b) ∧ snapshots s' = snapshots s.
Proof.
  unfold publish. intros (al & (_ & d & _ & _ & ->)%AliasManager.swap_alias_Ok & [= <-])%result_bind_Ok.
  assert (∀ x, aliases (_enforce_retention c ok alias new x) = aliases x ∧ snapshots (_enforce_retention c ok alias new x) = snapshots x) as Hr by done.
  assert (∀ x, aliases (schedule_superseded c alias (Some old) x) = aliases x ∧ snapshots (schedule_superseded c alias (Some old) x) = snapshots x) as Hs.
  { intros x. unfold schedule_superseded. by repeat case_match. }
  destruct (Hr (schedule_superseded c alias (Some old) (with_aliases (AliasManager.with_files (insert alias (AliasManager.Json (AliasManager.swapped now new (Some old) d))) (aliases s)) s))) as [-> ->].
  destruct (Hs (with_aliases (AliasManager.with_files (insert alias (AliasManager.Json (AliasManager.swapped now new (Some old) d))) (aliases s)) s)) as [-> ->]. cbn.
  unfold AliasManager.read_alias_file, AliasManager.get_previous_path. cbn. rewrite lookup_insert_eq. split_and!; [done..| |done].
  intros b Hb. by rewrite lookup_insert_ne.
Qed.

Lemma completed_refresh r bare w a w' : let alias := (bare +:+ AliasManager.GLOBAL)%string in
  refresh_body r alias w = (Next a, w') → message a = "Refresh complete"%string ∧
  (WriteLock.is_locked (on_host r) bare (locks w)).1 = false ∧
  ∃ ts old x, snapshot r = Made ts ∧ AliasManager.read_alias alias (aliases (storage w)) = Some old ∧ row alias w = Some x ∧
    AliasManager.read_alias_file alias (aliases (storage w')) = Some (path c alias ts) ∧
    AliasManager.get_previous_path alias (aliases (storage w')) = Some old ∧
    (∀ b, b ≠ alias → AliasManager.files (aliases (storage w')) !! b = AliasManager.files (aliases (storage w)) !! b) ∧
    (ns c alias, ts) ∈ snapshots (storage w') ∧ cache w' = evicted old (cache w) ∧
    row alias w' = Some (flags (found_after r) (GlobalRegistry.set_last_refresh (time (at_ r)) (flags (found_before r) x))).
Proof.
  cbn zeta. set (alias := (bare +:+ AliasManager.GLOBAL)%string). intros (x & w1 & H1 & H)%bind_Next.
  pose proof (keeps_bring storage r alias w) as Ks. pose proof (keeps_bring cache r alias w) as Kc. rewrite H1 in Ks, Kc. cbn in Ks, Kc.
  destruct (brought r bare w x w1 H1) as (Hold & Hlock & x0 & Hx & Hx1). fold alias in Hold, Hx, Hx1. destruct x as [old [reconcile failure]].
  unfold index_and_publish, unless in H. destruct (indexed r _); [|done].
  apply bind_Next in H as (ts & w2 & H2 & H). apply bind_Next in H as (? & w3 & H3 & H). apply bind_Next in H as (? & w4 & H4 & H). apply bind_Next in H as (? & w5 & H5 & H).
  destruct failure; [done|]. injection H as <- <-. split; [done|]. split; [done|].
  unfold _create_snapshot in H2. destruct (snapshot r) as [ts'|? ?|]; [|done..]. injection H2 as <- <-. unfold publish_version in H3. cbn [storage set_storage cache] in H3.
  rewrite Ks in H3. destruct (publish _ _ _ _ _ _ _ _) as [s'|] eqn:Hp; [|done]. injection H3 as _ <-.
  match type of H4 with registry_call _ ?x = _ => set (w3 := x) in * end.
  assert (storage w5 = s' ∧ cache w5 = evicted old (cache w)) as [S5 C5].
  { pose proof (keeps_call storage (GlobalRegistry.update_refresh_timestamp (time (at_ r)) (stamp_saved r) alias) w3) as A1.
    pose proof (keeps_call cache (GlobalRegistry.update_refresh_timestamp (time (at_ r)) (stamp_saved r) alias) w3) as A2.
    pose proof (keeps_reconcile storage (writes_after r) alias (found_after r) w4) as B1. pose proof (keeps_reconcile cache (writes_after r) alias (found_after r) w4) as B2.
    rewrite H4 in A1, A2. rewrite H5 in B1, B2. cbn in A1, A2, B1, B2. rewrite B1, A1, B2, A2. by rewrite <-Kc. }
  destruct (published_files _ _ _ _ _ _ _ _ Hp) as (P1 & P2 & P3 & P4). exists ts', old, x0. rewrite S5. cbn in P3, P4. split_and!; try done.
  - rewrite P4. set_solver.
  - apply reconcile_row in H5 as [R5 _]. fold alias in R5. rewrite R5. apply call_Next in H4 as [He ->]. unfold row, GlobalRegistry.get_global_repo in Hx1 |- *. cbn [recovery set_registry set_recovery registry].
    unfold GlobalRegistry.update_refresh_timestamp in *. rewrite update_field_row, bool_decide_eq_true_2 by done. cbn. by rewrite Hx1.
Qed.

(** ** Theorems *)

(** The version a run makes, if any. *)
Definition version_made (r : Run) : option Z := match snapshot r with Made ts | Wanting ts _ => Some ts | NotMade => None end.

(** C24: To the aliases, the versions and the cleanup queue a refresh is, however it ends, a
    sequence of steps of the system of overlapping publications: it reads the alias,
    makes a version, and publishes or abandons it, or does nothing. *)
Theorem refresh_refines_rotation names r alias w s i : alias ∈ names → flights s !! i = None → SnapshotRotation.storage s = storage w →
  (∀ ts, version_made r = Some ts → (ns c alias, ts) ∉ used s) →
  ∃ s', rtc (step c names) s s' ∧ SnapshotRotation.storage s' = storage (refresh r alias w).2.
Proof.
  intros Ha Hi Hs Hfresh. destruct (refresh_storage r alias w) as [->|(old & Hold & ->)]; [by exists s|]. rewrite <-Hs in Hold |- *.
  pose proof (s_begin c names i alias false s Hi Ha ltac:(done)) as B. set (s1 := mkSystem _ _ _) in B.
  assert (flights s1 !! i = Some {| f_alias := alias; f_old := Some old; f_new := None; f_provider := false |}) as F1 by (unfold s1; cbn; by rewrite lookup_insert_eq, Hold).
  assert (∀ ts, version_made r = Some ts → ∃ s2, rtc (step c names) s s2 ∧ flights s2 !! i = Some {| f_alias := alias; f_old := Some old; f_new := Some ts; f_provider := false |}
    ∧ SnapshotRotation.storage s2 = with_snapshots ({[(ns c alias, ts)]} ∪ snapshots (SnapshotRotation.storage s)) (SnapshotRotation.storage s)) as Hmake.
  { intros ts Hts. eexists. split; [eapply rtc_l; [exact B|]; apply rtc_once, (s_make c names i _ ts s1 F1 eq_refl (Hfresh ts Hts))|].
    split; [cbn; apply lookup_insert_eq|done]. }
  unfold after_snapshot, version_made in *. destruct (snapshot r) as [ts|ts removed|]; [destruct (Hmake ts eq_refl) as (s2 & R & F2 & S2)..|by exists s].
  - eexists. split; [eapply rtc_r; [exact R|]; exact (s_publish c names i _ ts (alias_written r) (listing_ok r) (time (at_ r)) s2 F2 eq_refl)|].
    cbn. unfold published. cbn. rewrite S2. done.
  - eexists. split; [eapply rtc_r; [exact R|]; exact (s_abandon c names i _ removed s2 F2)|]. cbn. rewrite S2. by destruct removed.
Qed.


(** *** The job *)

(** Whatever happens, the job leaves the tracker's dictionary. *)
Lemma job_is_closed t r alias jobs w : (open_job t alias jobs).1 = true →
  (_execute_refresh (Some t) r alias jobs w).1.2.1 !! job_of alias = None.
Proof.
  unfold _execute_refresh. destruct (open_job t alias jobs) as [go jobs']. cbn. intros ->. cbn. destruct (refresh r alias w) as [o w']. cbn.
  unfold close_job, JobStore.end_job, JobStore.pop_active. cbn. apply lookup_delete_eq.
Qed.

End refresh.

(** ** Instances *)

Definition no_entries : IndexCache.cache () := IndexCache.empty_cache.
Definition all_saved : Writes := {| temporal_saved := true; scip_saved := true; meta_read := true; meta_saved := true |}.
Definition this_host : WriteLock.host := {| WriteLock.now := 0; WriteLock.local_hostname := "h"; WriteLock.getpid := 1; WriteLock.kill0 := λ _, WriteLock.Signalled; WriteLock.can_unlink := true |}.

(** A pull, with or without a failure to write the alias or the registry. *)
Definition pulled (t : Q) (s : snapshot_outcome) (written stamped : bool) : Run := {|
  force_reset := false; at_ := at_time t; on_host := this_host; found_before := (false, false); found_after := (true, true);
  writes_before := all_saved; writes_after := all_saved; initialized := true; config_valid := true; repaired := true; cidx_meta := Disabled;
  local_changes := true; clone := Opened; reset := true; git := HasChanges None; drift := λ _, false; indexed := λ _, true; snapshot := s;
  alias_written := written; listing_ok := true; stamp_saved := stamped |}.

Definition flask_row : GlobalRegistry.Repo := GlobalRegistry.mkRepo "flask" (Some "https://h/flask"%string) "" 0 0 true None false (Some 5%Q).

Definition served (s : Storage) : World := mkWorld s (fresh ∅ (GlobalRegistry.Sqlite [("flask-global"%string, flask_row)])) {["flask"%string := true]} ∅ no_entries.

Lemma refresh_refines_rotation_witness : let w := served (SnapshotRotation.storage activated) in
  AliasManager.read_alias_file "flask-global" (aliases (storage (refresh local (pulled 9 (Made 10) true true) "flask-global" w).2)) = Some "/g/.versioned/flask/v_10"%string ∧
  ∃ s', rtc (step local flask) activated s' ∧ SnapshotRotation.storage s' = storage (refresh local (pulled 9 (Made 10) true true) "flask-global" w).2.
Proof.
  cbn zeta. split; [by vm_compute|].
  apply (refresh_refines_rotation local flask (pulled 9 (Made 10) true true) "flask-global" (served (SnapshotRotation.storage activated)) activated 0%nat);
    [by apply elem_of_singleton|done|done|by intros ts _].
Defined.


(** ** What the model shows *)

(** When the swap fails the new version stays behind; indexing for a provider removes it. *)
Lemma failed_swap_leaves_version :
  let '(o, w) := refresh local (pulled 9 (Made 10) false true) "flask-global" (served (SnapshotRotation.storage activated)) in
  o = None ∧ bool_decide (("flask"%string, 10) ∈ snapshots (storage w)) = true ∧ bool_decide (CleanupManager.cleanup_queue (cleaner (storage w)) = ∅) = true.
Proof. by vm_compute. Qed.

(** A refresh that fails after the swap reports failure although it has been published. *)
Lemma published_but_failed :
  let '(o, w) := refresh local (pulled 9 (Made 10) true false) "flask-global" (served (SnapshotRotation.storage activated)) in
  o = None ∧ AliasManager.read_alias_file "flask-global" (aliases (storage w)) = Some "/g/.versioned/flask/v_10"%string.
Proof. by vm_compute. Qed.

(** The job of a refresh has one name per repository: once a first one has ended, the
    registration of the next one does not reach the table. *)
Lemma second_registration_lost t alias act (rows : gmap string JobStore.Row) x : rows !! job_of alias = Some x →
  JobStore.terminal (JobStore.status (JobStore.cols x)) = true → (open_job t alias (act, rows)).2.2 = rows.
Proof.
  intros Hx Ht. unfold open_job, JobStore.register_job, JobStore.insert_job, JobStore.save_job. cbn [fst snd].
  rewrite bool_decide_eq_true_2 by (rewrite Hx; eauto). cbn [orb]. unfold JobStore.update_status. rewrite lookup_insert_eq. cbn -[JobStore.terminal].
  unfold JobStore.upsert_job, JobStore.update_job. cbn -[JobStore.terminal]. rewrite Hx. cbn -[JobStore.terminal]. by rewrite Ht.
Qed.

End RefreshCycle.
