(* ===== verification/EmbeddingCache.v ===== *)
(** * The query embedding cache

    - [CacheKeys]: [build_key] of src/src/code_indexer/server/services/query_embedding_cache.py
    - [Table]: QueryEmbeddingCacheSqliteBackend of src/src/code_indexer/server/storage/sqlite_backends.py
    - [QueryCache]: QueryEmbeddingCache of query_embedding_cache.py
    - [QueryEmbedding]: src/src/code_indexer/server/services/governed_call.py and
      embed_event_decision_table.py

    A failing backend call is a [bool] argument, the live configuration an optional
    record read at each use.  The conversion of a float to four bytes and back is a
    section parameter. *)

From S2P Require Import Prelude.
From S2P Require Import PyText.
From stdpp Require Import options.
Local Open Scope Z_scope.

Module CacheKeys.

Definition _DEFAULT_ANCHOR_TOKENS : Z := 2.
Definition _NORMALIZED_QUERY_CAP : nat := 256.

Definition blank_char : N := 32.
Definition colon : N := 58.

(** The tokens of the normalised query: an anchor in its own order, the rest sorted. *)
Definition normal_tokens (anchor_tokens : Z) (tokens : list text) : list text :=
  let n := Z.to_nat (Z.max 0 anchor_tokens) in
  if (length tokens <=? n)%nat then tokens
  else take n tokens ++ sort_texts (drop n tokens).

Definition build_key (s : text) (anchor_tokens : Z) (config_digest : text) : option text :=
  let normalised := join blank_char (normal_tokens anchor_tokens (words s)) in
  if (_NORMALIZED_QUERY_CAP <? length normalised)%nat then None
  else Some (txt "s:" ++ config_digest ++ [colon] ++ normalised).

Lemma normal_tokens_split a ws :
  let n := Z.to_nat (Z.max 0 a) in normal_tokens a ws = take n ws ++ sort_texts (drop n ws).
Proof.
  unfold normal_tokens. cbv zeta. destruct (Nat.leb_spec (length ws) (Z.to_nat (Z.max 0 a))); [|done].
  rewrite take_ge, drop_ge by done. by rewrite app_nil_r.
Qed.

Lemma normal_tokens_perm a ws : normal_tokens a ws ≡ₚ ws.
Proof. rewrite normal_tokens_split, sort_texts_perm. by rewrite take_drop. Qed.

Lemma normal_tokens_words a s : words (join blank_char (normal_tokens a (words s))) = normal_tokens a (words s).
Proof. apply words_join; [done|]. rewrite normal_tokens_perm. apply words_are_words. Qed.

(** Which query and which configuration a key stands for. *)
Lemma build_key_parts s a d k : build_key s a d = Some k → k = txt "s:" ++ d ++ [colon] ++ join blank_char (normal_tokens a (words s)).
Proof. unfold build_key. case_match; [done|]. by intros [= <-]. Qed.

Lemma split_at_colon (d d' x x' : text) : colon ∉ d → colon ∉ d' → d ++ [colon] ++ x = d' ++ [colon] ++ x' → d = d' ∧ x = x'.
Proof.
  revert d'. induction d as [|c d IH]; intros [|c' d'] H1 H2; cbn; intros E; injection E; try done.
  - intros _ Hc. subst. set_solver.
  - intros _ Hc. subst. set_solver.
  - intros E' ->. destruct (IH d') as [-> ->]; [set_solver..|done|done].
Qed.

(** Keys built with different anchors: the same words, and the same first words up to
    the shorter anchor. *)
Lemma build_key_same s t a b d d' k :
  colon ∉ d → colon ∉ d' → build_key s a d = Some k → build_key t b d' = Some k →
  d = d' ∧ normal_tokens a (words s) = normal_tokens b (words t).
Proof.
  intros Hd Hd' Hs%build_key_parts Ht%build_key_parts. rewrite Hs in Ht. apply app_inv_head in Ht.
  apply split_at_colon in Ht as [-> Ht]; [|done..]. split; [done|].
  by rewrite <-(normal_tokens_words a s), Ht, normal_tokens_words.
Qed.

(** What two texts share when one of their keys agrees. *)
Definition alike (anchor : Z) (s t : text) : Prop :=
  words s ≡ₚ words t ∧ take (Z.to_nat anchor) (words s) = take (Z.to_nat anchor) (words t).

#[global] Instance alike_equiv n : Equivalence (alike n).
Proof.
  split.
  - by intros s.
  - intros s t [? ?]. by split.
  - intros s t u [? ?] [? ?]. split; congruence || by etrans.
Qed.

Lemma normal_tokens_take n a ws : n ≤ a → take (Z.to_nat n) (normal_tokens a ws) = take (Z.to_nat n) ws.
Proof.
  intros Hn. rewrite normal_tokens_split. destruct (decide (Z.to_nat (Z.max 0 a) ≤ length ws)%nat).
  - rewrite take_app_le by (rewrite length_take; lia). rewrite take_take. f_equal. lia.
  - rewrite (take_ge ws), (drop_ge ws) by lia. by rewrite app_nil_r.
Qed.

Lemma build_key_alike n s t a b d d' k :
  n ≤ a → n ≤ b → colon ∉ d → colon ∉ d' → build_key s a d = Some k → build_key t b d' = Some k → alike n s t.
Proof.
  intros Ha Hb Hd Hd' Hs Ht. destruct (build_key_same s t a b d d' k) as [_ E]; [done..|]. split.
  - by rewrite <-(normal_tokens_perm a (words s)), E, normal_tokens_perm.
  - by rewrite <-(normal_tokens_take n a (words s)), E, normal_tokens_take.
Qed.

(** C17: two queries share a cache key exactly when they are asked of the same provider
    configuration, agree on the anchor words in order and have the same remaining words
    up to order; case and repetitions count, the amount of whitespace does not. *)
Theorem build_key_spec s t a d d' k :
  colon ∉ d → colon ∉ d' → build_key s a d = Some k →
  build_key t a d' = Some k ↔
    d = d' ∧ take (Z.to_nat a) (words s) = take (Z.to_nat a) (words t) ∧
    drop (Z.to_nat a) (words s) ≡ₚ drop (Z.to_nat a) (words t).
Proof.
  intros Hd Hd' Hs. assert (Z.to_nat (Z.max 0 a) = Z.to_nat a) as Ha by lia. split.
  - intros Ht. destruct (build_key_same s t a a d d' k) as [-> E]; [done..|]. split; [done|].
    assert (take (Z.to_nat a) (words s) = take (Z.to_nat a) (words t)) as E1.
    { rewrite <-(normal_tokens_take a a (words s)), E by lia. by rewrite normal_tokens_take. }
    split; [done|]. rewrite !normal_tokens_split, !Ha, E1 in E. by apply app_inv_head, sort_texts_eq in E.
  - intros (->&E1&E2). rewrite <-Hs. unfold build_key. rewrite !normal_tokens_split, !Ha, E1.
    apply sort_texts_eq in E2. by rewrite E2.
Qed.

Lemma build_key_spec_witness :
  let d := txt "digest" in
  build_key (txt "find the  slow query log") 2 d = Some (txt "s:digest:find the log query slow") ∧
  build_key (txt "find the query slow log") 2 d = Some (txt "s:digest:find the log query slow").
Proof.
  split; [vm_compute; reflexivity|].
  apply (build_key_spec (txt "find the  slow query log") _ 2 (txt "digest") (txt "digest")).
  - apply (bool_decide_unpack _). vm_compute. exact I.
  - apply (bool_decide_unpack _). vm_compute. exact I.
  - vm_compute. reflexivity.
  - split; [done|]. split; [vm_compute; reflexivity|]. apply sort_texts_eq. vm_compute. reflexivity.
Defined.
End CacheKeys.

Module Table.

(** Primary key: cache key, provider, model, dimension. *)
Abbreviation RowKey := (text * text * text * Z)%type.

Record Row := { embedding : list N; created_at : Q; last_used : Q }.

Abbreviation table := (gmap RowKey Row).

Definition lookup (k : RowKey) (t : table) : option (list N) := embedding <$> t !! k.

(** INSERT ... ON CONFLICT DO UPDATE of the embedding and the last use. *)
Definition upsert (k : RowKey) (blob : list N) (created used : Q) (t : table) : table :=
  <[k := match t !! k with
         | Some r => {| embedding := blob; created_at := created_at r; last_used := used |}
         | None => {| embedding := blob; created_at := created; last_used := used |}
         end]> t.

Definition used_at (now : Q) (r : Row) : Row :=
  {| embedding := embedding r; created_at := created_at r; last_used := now |}.

Definition touch_last_used (k : RowKey) (now : Q) (t : table) : table := alter (used_at now) k t.

(** The items of a batch have different keys. *)
Definition touch_last_used_batch (items : gmap RowKey Q) (t : table) : table :=
  map_imap (λ k r, Some (match items !! k with Some now => used_at now r | None => r end)) t.

(** Comparisons by several columns in turn. *)
Definition lex {A} (first second : A → A → bool) (x y : A) : bool :=
  if first x y then (if first y x then second x y else true) else false.

Definition total_leb {A} (leb : A → A → bool) : Prop :=
  (∀ x y, leb x y = false → leb y x = true) ∧
  (∀ x y z, leb x y = true → leb y z = true → leb x z = true).

Lemma lex_total {A} (f g : A → A → bool) : total_leb f → total_leb g → total_leb (lex f g).
Proof.
  intros [Ft Ftr] [Gt Gtr]. unfold lex. split.
  - intros x y. destruct (f x y) eqn:E1, (f y x) eqn:E2; try done; [apply Gt|]. by rewrite Ft in E2.
  - intros x y z. destruct (f x y) eqn:E1; [|done]. destruct (f y z) eqn:E2; [|by destruct (f y x)]. rewrite (Ftr x y z) by done.
    destruct (f z x) eqn:E3; [|done]. rewrite (Ftr y z x), (Ftr z x y) by done. apply Gtr.
Qed.

Lemma on_total {A B} (p : A → B) (leb : B → B → bool) : total_leb leb → total_leb (λ x y, leb (p x) (p y)).
Proof. intros [Ht Htr]. split; intros *; [apply Ht|apply Htr]. Qed.

Lemma Qle_total : total_leb Qle_bool.
Proof.
  split.
  - intros x y. destruct (Qle_bool_spec x y), (Qle_bool_spec y x); try done. lra.
  - intros x y z. rewrite !Qle_bool_iff. lra.
Qed.

Lemma Zle_total : total_leb Z.leb.
Proof. split; intros *; rewrite ?Z.leb_gt, ?Z.leb_le; lia. Qed.

Lemma text_total : total_leb text_leb.
Proof. split; intros *; [apply text_leb_total|apply text_leb_trans]. Qed.

(** ORDER BY last_used, created_at, cache_key, provider, model, dimension. *)
Definition row_leb : RowKey * Row → RowKey * Row → bool :=
  lex (λ a b, Qle_bool (last_used a.2) (last_used b.2))
  (lex (λ a b, Qle_bool (created_at a.2) (created_at b.2))
  (lex (λ a b, text_leb a.1.1.1.1 b.1.1.1.1)
  (lex (λ a b, text_leb a.1.1.1.2 b.1.1.1.2)
  (lex (λ a b, text_leb a.1.1.2 b.1.1.2) (λ a b, a.1.2 <=? b.1.2))))).

Lemma row_leb_total : total_leb row_leb.
Proof.
  repeat apply lex_total.
  - apply (on_total (λ a : RowKey * Row, last_used a.2) _ Qle_total).
  - apply (on_total (λ a : RowKey * Row, created_at a.2) _ Qle_total).
  - apply (on_total (λ a : RowKey * Row, a.1.1.1.1) _ text_total).
  - apply (on_total (λ a : RowKey * Row, a.1.1.1.2) _ text_total).
  - apply (on_total (λ a : RowKey * Row, a.1.1.2) _ text_total).
  - apply (on_total (λ a : RowKey * Row, a.1.2) _ Zle_total).
Qed.

Definition row_le (a b : RowKey * Row) : Prop := row_leb a b = true.

#[export] Instance row_le_dec : RelDecision row_le := λ a b, decide (row_leb a b = true).
#[export] Instance row_le_tot : Total row_le.
Proof. intros a b. unfold row_le. destruct (row_leb a b) eqn:E; [by left|right]. by apply row_leb_total. Qed.
#[export] Instance row_le_trans : Transitive row_le.
Proof. intros a b c. apply row_leb_total. Qed.

(** The rows in excess of the cap, oldest use first. *)
Definition victims (max_entries : Z) (t : table) : list (RowKey * Row) :=
  take (Z.to_nat (Z.of_nat (size t) - max_entries)) (merge_sort row_le (map_to_list t)).

Definition prune_to_max (max_entries : Z) (t : table) : Z * table :=
  let excess := Z.of_nat (size t) - max_entries in
  if excess <=? 0 then (0, t)
  else let vs := victims max_entries t in (Z.of_nat (length vs), t ∖ list_to_map vs).

Definition total_entries (t : table) : Z := Z.of_nat (size t).

Definition clear (t : table) : table := ∅.
Definition clear_all : table → table := clear.

(** Order of [select_recent], which leaves the order of equal times open. *)
Definition more_recent (a b : RowKey * Row) : Prop := Qle_bool (last_used b.2) (last_used a.2) = true.

#[export] Instance more_recent_dec : RelDecision more_recent :=
  λ a b, decide (Qle_bool (last_used b.2) (last_used a.2) = true).

Definition select_recent (limit : nat) (t : table) : list (RowKey * nat) :=
  (λ r, (r.1, length r.1.1.1.1)) <$> take limit (merge_sort more_recent (map_to_list t)).

Lemma sorted_rows (t : table) :
  let l := merge_sort row_le (map_to_list t) in
  NoDup l.*1 ∧ list_to_map l = t ∧ StronglySorted row_le l ∧ length l = size t.
Proof.
  intros l. assert (l ≡ₚ map_to_list t) as Hp by apply merge_sort_Permutation.
  assert (NoDup l.*1) as Hnd by (rewrite Hp; apply NoDup_fst_map_to_list).
  split_and!; [done| |apply StronglySorted_merge_sort; apply _|by rewrite Hp, length_map_to_list].
  rewrite (list_to_map_proper l _ Hnd Hp). apply list_to_map_to_list.
Qed.

Lemma list_to_map_drop (n : nat) (l : list (RowKey * Row)) (t : table) :
  NoDup l.*1 → list_to_map l = t → t ∖ list_to_map (take n l) = list_to_map (drop n l).
Proof.
  intros Hnd <-. rewrite <-(take_drop n l) at 1. rewrite list_to_map_app. apply map_eq. intros k. apply option_eq. intros r.
  rewrite <-(take_drop n l) in Hnd. rewrite fmap_app in Hnd. apply NoDup_app in Hnd as (H1&H2&H3).
  rewrite lookup_difference_Some. split.
  - intros [[?|[_ ?]]%lookup_union_Some_raw ?]; [congruence|done].
  - intros Hr. assert ((list_to_map (take n l) : table) !! k = None) as Hn; [|by rewrite lookup_union_r].
    apply not_elem_of_list_to_map_1. intros Hin. apply (H2 k Hin).
    apply elem_of_list_to_map_2 in Hr. apply list_elem_of_fmap. by exists (k, r).
Qed.

(** Pruning leaves the cap's worth of rows as they were; whatever it removes was used no
    later than anything it keeps. *)
Lemma prune_to_max_spec (m : Z) (t : table) :
  0 ≤ m →
  let '(n, t') := prune_to_max m t in
  t' ⊆ t ∧ total_entries t' = Z.min (total_entries t) m ∧ n = total_entries t - total_entries t' ∧
  ∀ k r k' r', t !! k = Some r → t' !! k = None → t' !! k' = Some r' → row_le (k, r) (k', r').
Proof.
  intros Hm. unfold prune_to_max, total_entries. destruct (Z.leb_spec (Z.of_nat (size t) - m) 0) as [Hle|Hgt].
  { split_and!; [done|lia|lia|]. intros k r k' r' Hk Hk'. congruence. }
  unfold victims. pose proof (sorted_rows t) as Hs. set (l := merge_sort row_le (map_to_list t)) in *. cbv zeta in Hs.
  destruct Hs as (Hnd&Hl&Hs&Hlen). set (e := Z.to_nat (Z.of_nat (size t) - m)).
  rewrite (list_to_map_drop e l t Hnd Hl). rewrite <-(take_drop e l) in Hnd, Hs, Hl.
  rewrite fmap_app in Hnd. apply NoDup_app in Hnd as (Hn1&Hn2&Hn3). rewrite map_size_list_to_map, length_take, length_drop by done.
  split_and!; [|lia|lia|].
  - rewrite <-Hl, list_to_map_app. apply map_union_subseteq_r. apply map_disjoint_spec. intros k r r' Hk Hk'.
    apply elem_of_list_to_map_2 in Hk, Hk'. apply (Hn2 k); apply list_elem_of_fmap; [by exists (k, r)|by exists (k, r')].
  - intros k r k' r' Hk Hk0 Hk'. apply elem_of_list_to_map_2 in Hk'. eapply StronglySorted_app_1_elem_of; [exact Hs| |done].
    rewrite <-Hl, list_to_map_app in Hk. apply lookup_union_Some_raw in Hk as [Hk|[_ Hk]]; [by apply elem_of_list_to_map_2|congruence].
Qed.

Lemma victims_excess (m : Z) (t : table) : 0 ≤ m → total_entries (prune_to_max m t).2 ≤ m.
Proof. intros Hm. pose proof (prune_to_max_spec m t Hm) as H. destruct (prune_to_max m t) as [n t']. cbn. lia. Qed.
End Table.

Module QueryCache.
Import Table.

Definition _MODE_OFF : text := txt "off".
Definition _MODE_SHADOW : text := txt "shadow".
Definition _MODE_ON : text := txt "on".
Definition _VALID_MODES : list text := [_MODE_OFF; _MODE_SHADOW; _MODE_ON].
Definition valid_mode (raw : text) : text := if decide (raw ∈ _VALID_MODES) then raw else _MODE_SHADOW.

Definition voyage : text := txt "voyage-ai".
Definition cohere : text := txt "cohere".

Record CacheQualifier := { q_provider : text; q_model : text; q_dimension : Z }.
Definition row_key (key : text) (q : CacheQualifier) : RowKey := (key, q_provider q, q_model q, q_dimension q).

(** The live settings, [None] when they cannot be read. *)
Record Config := {
  qec_enabled : bool;
  qec_max_entries : Z;
  qec_voyage_mode : text;
  qec_cohere_mode : text;
  qec_voyage_anchor : option Z;
  qec_cohere_anchor : option Z }.

(** The values given at construction. *)
Record Service := { s_enabled : bool; s_voyage_mode : text; s_cohere_mode : text; s_max_entries : Z }.

Definition new_service (enabled : bool) (voyage_mode cohere_mode : text) (max_entries : Z) : Service :=
  {| s_enabled := enabled; s_voyage_mode := valid_mode voyage_mode; s_cohere_mode := valid_mode cohere_mode;
     s_max_entries := max_entries |}.

(** [self._modes.get(provider_name, "shadow")] *)
Definition own_mode (s : Service) (name : text) : text :=
  if decide (name = voyage) then s_voyage_mode s
  else if decide (name = cohere) then s_cohere_mode s else _MODE_SHADOW.

Definition _live_mode_for (s : Service) (name : text) (live : option Config) : text :=
  match live with
  | None => own_mode s name
  | Some cfg =>
      valid_mode (if decide (name = voyage) then qec_voyage_mode cfg
                  else if decide (name = cohere) then qec_cohere_mode cfg else own_mode s name)
  end.

Definition mode_for (s : Service) (name : text) (live : option Config) : text := _live_mode_for s name live.

Definition enabled_for (s : Service) (name : text) (live : option Config) : bool :=
  match live with Some cfg => qec_enabled cfg | None => s_enabled s end &&
  bool_decide (_live_mode_for s name live ≠ _MODE_OFF).

(** The effective anchor, whether the change is logged, the memo of last values. *)
Definition anchor_tokens_for (name : text) (live : option Config) (last : gmap text Z) : Z * bool * gmap text Z :=
  let per_provider :=
    live ≫= λ cfg, if decide (name = voyage) then qec_voyage_anchor cfg
                   else if decide (name = cohere) then qec_cohere_anchor cfg else None in
  let effective := Z.max 0 (default CacheKeys._DEFAULT_ANCHOR_TOKENS per_provider) in
  let changed := match last !! name with Some l => negb (l =? effective) | None => false end in
  (effective, changed, <[name := effective]> last).

Definition _resolve_max_entries (s : Service) (live : option Config) : Z :=
  Z.max (match live with Some cfg => qec_max_entries cfg | None => s_max_entries s end) 100.

Definition _TOUCH_BUFFER_MAX_SIZE : nat := 2048.

Record Cache := {
  rows : table;
  _cached_total : Z;
  _touch_buffer : gmap RowKey Q;
  _last_anchor_tokens : gmap text Z }.

Definition set_rows (t : table) (c : Cache) : Cache :=
  {| rows := t; _cached_total := _cached_total c; _touch_buffer := _touch_buffer c;
     _last_anchor_tokens := _last_anchor_tokens c |}.
Definition set_memo (n : Z) (c : Cache) : Cache :=
  {| rows := rows c; _cached_total := n; _touch_buffer := _touch_buffer c;
     _last_anchor_tokens := _last_anchor_tokens c |}.
Definition set_touches (b : gmap RowKey Q) (c : Cache) : Cache :=
  {| rows := rows c; _cached_total := _cached_total c; _touch_buffer := b;
     _last_anchor_tokens := _last_anchor_tokens c |}.
Definition set_anchors (a : gmap text Z) (c : Cache) : Cache :=
  {| rows := rows c; _cached_total := _cached_total c; _touch_buffer := _touch_buffer c;
     _last_anchor_tokens := a |}.

Definition build_key_for_provider (s name digest : text) (live : option Config) (c : Cache) : option text * Cache :=
  let '(anchor, _, last) := anchor_tokens_for name live (_last_anchor_tokens c) in
  (CacheKeys.build_key s anchor digest, set_anchors last c).

(** The backend and the environment as one call sees them. *)
Record Env := {
  lookup_ok : bool;
  upsert_ok : bool;
  prune_ok : bool;
  flush_ok : bool;
  memo_cfg : option Config;
  prune_cfg : option Config;
  now : Q }.

Definition lookup (env : Env) (key : text) (q : CacheQualifier) (c : Cache) : option (list N) :=
  if lookup_ok env then Table.lookup (row_key key q) (rows c) else None.

(** [_flush_touches]; holding the lock over the write, as [record_hit] does, changes
    nothing here. *)
Definition _drain_buffer_locked (c : Cache) : gmap RowKey Q * Cache := (_touch_buffer c, set_touches ∅ c).
Definition _flush_touches (ok : bool) (c : Cache) : Cache :=
  let '(items, c1) := _drain_buffer_locked c in
  if decide (items = ∅) then c1
  else if ok then set_rows (touch_last_used_batch items (rows c1)) c1 else c1.

Definition record_hit (env : Env) (key : text) (q : CacheQualifier) (c : Cache) : Cache :=
  let c1 := set_touches (<[row_key key q := now env]> (_touch_buffer c)) c in
  if (_TOUCH_BUFFER_MAX_SIZE <=? size (_touch_buffer c1))%nat then _flush_touches (flush_ok env) c1 else c1.

Definition total_entries (ok : bool) (c : Cache) : Z := if ok then Table.total_entries (rows c) else 0.
Definition cached_total_entries (c : Cache) : Z := _cached_total c.
Definition clear_all (ok : bool) (c : Cache) : Cache := set_memo 0 (if ok then set_rows (Table.clear_all (rows c)) c else c).

Section vectors.
(** Numbers, their conversion to a 32-bit float and back. *)
Context {F : Type} (to_f4 : F → N) (of_f4 : N → F).

Definition le4 (w : N) : list N := [w mod 256; w / 256 mod 256; w / 65536 mod 256; w / 16777216 mod 256]%N.

(** [np.asarray(embedding, dtype="<f4").tobytes()] and [struct.unpack("<nf", blob)]. *)
Definition to_blob (v : list F) : list N := v ≫= λ x, le4 (to_f4 x).

Fixpoint _bytes_to_floats (blob : list N) : list F :=
  match blob with
  | a :: b :: c :: d :: rest => of_f4 (a + 256 * b + 65536 * c + 16777216 * d)%N :: _bytes_to_floats rest
  | _ => []
  end.

(** The vector a stored embedding stands for, if its length fits the dimension. *)
Definition decode (q : CacheQualifier) (blob : list N) : option (list F) :=
  if Z.of_nat (length blob) =? q_dimension q * 4 then Some (_bytes_to_floats blob) else None.

Definition record_miss_or_shadow (s : Service) (env : Env) (key : text) (q : CacheQualifier) (v : list F) (c : Cache) : Cache :=
  if negb (upsert_ok env) then c
  else
    let c1 := set_rows (upsert (row_key key q) (to_blob v) (now env) (now env) (rows c)) c in
    let c2 := set_memo (Z.min (_cached_total c1 + 1) (_resolve_max_entries s (memo_cfg env))) c1 in
    if prune_ok env then set_rows (prune_to_max (_resolve_max_entries s (prune_cfg env)) (rows c2)).2 c2 else c2.

(** Rounding to 32 bits, what is left of a vector once it has been stored. *)
Definition rounded (v : list F) : list F := of_f4 ∘ to_f4 <$> v.

Lemma length_to_blob v : length (to_blob v) = (4 * length v)%nat.
Proof. induction v as [|x v IH]; [done|]. unfold to_blob in *. rewrite bind_cons, length_app, IH. cbn. lia. Qed.

Context (f4_width : ∀ x, (to_f4 x < 4294967296)%N).

Lemma unle4 (w : N) : (w < 4294967296)%N →
  (w mod 256 + 256 * (w / 256 mod 256) + 65536 * (w / 65536 mod 256) + 16777216 * (w / 16777216 mod 256))%N = w.
Proof.
  intros H. pose proof (N.div_mod w 256 ltac:(done)) as H1. pose proof (N.div_mod (w / 256) 256 ltac:(done)) as H2.
  pose proof (N.div_mod (w / 65536) 256 ltac:(done)) as H3. rewrite (N.mod_small (w / 16777216)).
  - change 16777216%N with (65536 * 256)%N in *. change 65536%N with (256 * 256)%N in *. rewrite <-!N.Div0.div_div in *. lia.
  - apply N.Div0.div_lt_upper_bound. lia.
Qed.

(** A hit changes no stored vector. *)
Lemma record_hit_lookup env key q c k : Table.lookup k (rows (record_hit env key q c)) = Table.lookup k (rows c).
Proof.
  unfold record_hit, _flush_touches, _drain_buffer_locked. destruct (_ <=? _)%nat; [|done]. case_decide; [done|].
  destruct (flush_ok env); [|done]. unfold Table.lookup, touch_last_used_batch. cbn [rows set_rows set_touches].
  rewrite map_lookup_imap. destruct (rows c !! k) as [r|]; [|done]. cbn. by case_match.
Qed.

(** What is stored is read back, rounded. *)
Lemma blob_round_trip v : _bytes_to_floats (to_blob v) = rounded v.
Proof using f4_width.
  induction v as [|x v IH]; [done|]. change (to_blob (x :: v)) with (le4 (to_f4 x) ++ to_blob v). unfold le4.
  cbn [app _bytes_to_floats]. by rewrite unle4, IH.
Qed.

Lemma decode_to_blob q v : Z.of_nat (length v) = q_dimension q → decode q (to_blob v) = Some (rounded v).
Proof using f4_width. intros H. unfold decode. rewrite length_to_blob, blob_round_trip, (proj2 (Z.eqb_eq _ _)) by lia. done. Qed.

(** Rows of other keys are kept as they are or go; the row of the key is the new one, the
    old one or gone. *)
Lemma record_rows s env key q v c k r :
  rows (record_miss_or_shadow s env key q v c) !! k = Some r →
  (rows c !! k = Some r) ∨ (k = row_key key q ∧ embedding r = to_blob v ∧ last_used r = now env).
Proof.
  unfold record_miss_or_shadow. destruct (upsert_ok env); cbn [negb]; [|by left].
  assert (upsert (row_key key q) (to_blob v) (now env) (now env) (rows c) !! k = Some r →
    rows c !! k = Some r ∨ k = row_key key q ∧ embedding r = to_blob v ∧ last_used r = now env) as Hu.
  { unfold upsert. intros [[<- <-]|[_ ?]]%lookup_insert_Some; [right|by left]. by case_match. }
  destruct (prune_ok env); cbn [rows set_rows set_memo]; [|done]. intros Hk. set (t := upsert _ _ _ _ _) in *. apply Hu.
  pose proof (prune_to_max_spec (_resolve_max_entries s (prune_cfg env)) t) as Hp.
  destruct (prune_to_max _ t) as [n t']. cbn in Hk. destruct Hp as (Hsub&_); [unfold _resolve_max_entries; lia|].
  exact (lookup_weaken _ _ _ _ Hk Hsub).
Qed.

(** The row just written survives the pruning when every other use lies in the past. *)
Lemma record_survives s env key q v c :
  upsert_ok env = true → (∀ k r, rows c !! k = Some r → (last_used r < now env)%Q) →
  ∃ r, rows (record_miss_or_shadow s env key q v c) !! row_key key q = Some r ∧ embedding r = to_blob v.
Proof.
  intros Hok Hpast. unfold record_miss_or_shadow. rewrite Hok. cbn [negb].
  set (t := upsert (row_key key q) (to_blob v) (now env) (now env) (rows c)).
  assert (∃ r, t !! row_key key q = Some r ∧ embedding r = to_blob v ∧ last_used r = now env) as (r&Hr&He&Hu).
  { unfold t, upsert. eexists. rewrite lookup_insert_eq. split; [done|]. by case_match. }
  destruct (prune_ok env); cbn [rows set_rows set_memo]; fold t; [|by exists r].
  pose proof (prune_to_max_spec (_resolve_max_entries s (prune_cfg env)) t) as Hp.
  destruct (prune_to_max _ t) as [n t']. destruct Hp as (Hsub&Hsize&_&Hord); [unfold _resolve_max_entries; lia|].
  cbn. destruct (t' !! row_key key q) as [r'|] eqn:Er.
  { exists r'. split; [done|]. apply (lookup_weaken _ t) in Er; [|done]. congruence. }
  exfalso. assert (size t ≠ 0%nat) as Hne by (intros Hz%map_size_empty_inv; by rewrite Hz, lookup_empty in Hr).
  destruct (decide (t' = ∅)) as [->|Hne']; [unfold Table.total_entries, _resolve_max_entries in Hsize; rewrite map_size_empty in Hsize; lia|].
  apply map_choose in Hne' as (k'&r'&Hk'). pose proof (Hord _ _ _ _ Hr Er Hk') as Hle.
  assert (rows c !! k' = Some r') as Hold.
  { apply (lookup_weaken _ t) in Hk' as Ht; [|done]. unfold t, upsert in Ht. rewrite lookup_insert_ne in Ht; [done|]. congruence. }
  apply Hpast in Hold. unfold row_le, row_leb, lex in Hle. cbn in Hle. rewrite Hu in Hle.
  destruct (Qle_bool_spec (now env) (last_used r')); [lra|done].
Qed.

(** A write keeps the cache within its cap, which is at least 100: afterwards the table
    and the counter shown to operators are within the configured number of rows, no row
    is changed but the one written, the rows evicted were the least recently used ones, and
    the row written is there whenever every use before it lies in the past. *)
Theorem cache_bounded s env key q v c :
  upsert_ok env = true → prune_ok env = true → (∀ k r, rows c !! k = Some r → (last_used r < now env)%Q) →
  let c' := record_miss_or_shadow s env key q v c in
  Table.total_entries (rows c') ≤ _resolve_max_entries s (prune_cfg env) ∧
  cached_total_entries c' ≤ _resolve_max_entries s (memo_cfg env) ∧
  (∃ r, rows c' !! row_key key q = Some r ∧ embedding r = to_blob v) ∧
  (∀ k r, k ≠ row_key key q → rows c' !! k = Some r → rows c !! k = Some r) ∧
  (∀ k r k' r', k ≠ row_key key q → rows c !! k = Some r → rows c' !! k = None → rows c' !! k' = Some r' →
     (last_used r <= last_used r')%Q).
Proof.
  intros Hu Hp Hpast c'. split_and!.
  - unfold c', record_miss_or_shadow. rewrite Hu, Hp. cbn [negb rows set_rows set_memo]. apply victims_excess. unfold _resolve_max_entries. lia.
  - unfold c', record_miss_or_shadow, cached_total_entries. rewrite Hu, Hp. cbn. lia.
  - by apply record_survives.
  - intros k r Hk [?|[-> _]]%record_rows; done.
  - intros k r k' r' Hk Hold. unfold c', record_miss_or_shadow. rewrite Hu, Hp. cbn [negb rows set_rows set_memo]. set (t := upsert _ _ _ _ _).
    assert (t !! k = Some r) as Ht by (unfold t, upsert; by rewrite lookup_insert_ne).
    pose proof (prune_to_max_spec (_resolve_max_entries s (prune_cfg env)) t) as Hsp.
    destruct (prune_to_max _ t) as [n t']. destruct Hsp as (_&_&_&Hord); [unfold _resolve_max_entries; lia|].
    intros Hgone Hk'. pose proof (Hord _ _ _ _ Ht Hgone Hk') as Hle. unfold row_le, row_leb, lex in Hle. cbn in Hle.
    by destruct (Qle_bool_spec (last_used r) (last_used r')).
Qed.
End vectors.

(** Numbers of 32 bits standing for floats. *)
Definition word32 (x : N) : N := (x mod 4294967296)%N.

Definition good_env (t : Q) : Env :=
  {| lookup_ok := true; upsert_ok := true; prune_ok := true; flush_ok := true; memo_cfg := None; prune_cfg := None; now := t |}.

Definition empty_cache : Cache := {| rows := ∅; _cached_total := 0; _touch_buffer := ∅; _last_anchor_tokens := ∅ |}.

Lemma cache_bounded_witness :
  let s := new_service true _MODE_ON _MODE_ON 10 in
  let q := {| q_provider := voyage; q_model := txt "m"; q_dimension := 1 |} in
  let c := record_miss_or_shadow word32 s (good_env 1) (txt "a") q [7%N] empty_cache in
  let c' := record_miss_or_shadow word32 s (good_env 2) (txt "b") q [8%N] c in
  Table.total_entries (rows c') = 2 ∧
  Table.total_entries (rows c') ≤ 100 ∧ cached_total_entries c' ≤ 100.
Proof.
  intros s q c c'. split; [vm_compute; reflexivity|].
  destruct (cache_bounded word32 s (good_env 2) (txt "b") q [8%N] c) as (H1&H2&_); [reflexivity..| |by split].
  intros k r [Hr|(_&_&Hr)]%record_rows; [change ((∅ : table) !! k = Some r) in Hr; by rewrite lookup_empty in Hr|]. rewrite Hr. cbn. lra.
Defined.
End QueryCache.

Module QueryEmbedding.
Import QueryCache.

(** (outcome, role, kind of live_batch_id) per path and outcome. *)
Definition DECISION_TABLE : gmap string (string * string * option string) :=
  list_to_map [
    ("coalescer_owner_cold", ("miss", "owner", Some "new"));
    ("coalescer_joiner", ("hit", "joiner", Some "owner"));
    ("warm_hit", ("hit", "warm_hit", None));
    ("direct_live", ("miss", "direct", None));
    ("direct_hit", ("hit", "warm_hit", None));
    ("coalesced_shadow_live", ("shadow_miss", "owner", Some "new"));
    ("direct_shadow_live", ("shadow_miss", "direct", None));
    ("shadow_hit", ("shadow_hit", "warm_hit", None));
    ("bypass", ("bypass", "direct", None));
    ("failover_primary_fail", ("error", "direct", None));
    ("failover_secondary_ok", ("miss", "direct", None))]%string.

Definition decide_role_and_outcome (cache_hit : option bool) (cache_mode : option text) (bypass error : bool) :
    option (string * string) :=
  let row name := (λ r, r.1) <$> DECISION_TABLE !! name in
  if error then row "failover_primary_fail"%string
  else if bypass then row "bypass"%string
  else
    let is_shadow := bool_decide (cache_mode = Some _MODE_SHADOW) in
    row (if bool_decide (cache_hit = Some true) then (if is_shadow then "shadow_hit" else "direct_hit")%string
         else if is_shadow then "direct_shadow_live" else "direct_live")%string.

(** What comes back with a vector; latencies are left out. *)
Record Meta := {
  key_found : option bool;
  cache_mode : option text;
  provider : option text;
  digest : option text;
  outcome : option string;
  role : option string;
  live_batch_id : option nat;
  embed_key : option text }.

Definition direct_meta (found : option bool) (mode provider digest key : option text) (row : option (string * string)) : Meta :=
  {| key_found := found; cache_mode := mode; provider := provider; digest := digest;
     outcome := fst <$> row; role := snd <$> row; live_batch_id := None; embed_key := key |}.

Section calls.
Context {F : Type} (to_f4 : F → N) (of_f4 : N → F) {E : Type}.

(** What a sampled hit leaves for the audit: the mode, the stored bytes and, in shadow
    mode, the live vector. *)
Record Audit := { a_mode : text; a_blob : list N; a_live : option (list F) }.

(** [rate > 0.0 and random.random() < rate]; [draw] is [None] when no audit is asked
    for, [rate] what the configuration says. *)
Definition _audit_sample_rate_for (rate : option Q) : Q :=
  match rate with Some r => pymax 0 (pymin 1 r) | None => 0%Q end.
Definition sampled (rate : option Q) (draw : option Q) : bool :=
  match draw with
  | Some u => let r := _audit_sample_rate_for rate in Qltb 0 r && Qltb u r
  | None => false
  end.

(** Result, cache, audit record, and whether the provider was called. *)
Definition answer : Type := result E (list F * Meta) * Cache * option Audit * bool.

(** [mode] is the mode read on entry, [live] what a call of the provider gives. *)
Definition _serve_with_cache (s : Service) (env : Env) (mode provider key : text) (q : CacheQualifier)
    (live : result E (list F)) (rate draw : option Q) (c : Cache) : answer :=
  let pick blob v := if sampled rate draw then Some {| a_mode := mode; a_blob := blob; a_live := v |} else None in
  let meta found := direct_meta (Some found) (Some mode) (Some provider) None (Some key)
                      (decide_role_and_outcome (Some found) (Some mode) false false) in
  if decide (mode = _MODE_ON) then
    match (lookup env key q c ≫= λ blob, (blob,.) <$> decode of_f4 q blob) with
    | Some (blob, v) => (Ok (v, meta true), record_hit env key q c, pick blob None, false)
    | None =>
        match live with
        | Err e => (Err e, c, None, true)
        | Ok v => (Ok (v, meta false), record_miss_or_shadow to_f4 s env key q v c, None, true)
        end
    end
  else
    match live with
    | Err e => (Err e, c, None, true)
    | Ok v =>
        match lookup env key q c with
        | Some blob => (Ok (v, meta true), record_hit env key q c, pick blob (Some v), true)
        | None => (Ok (v, meta false), record_miss_or_shadow to_f4 s env key q v c, None, true)
        end
    end.

(** The live settings at the four places where the configuration is read. *)
Record Readings := { at_enabled : option Config; at_mode : option Config; at_key : option Config; at_serve : option Config }.

(** The cache and the key to use, if any; [None]: no cache is installed. *)
Definition gate (svc : option Service) (rd : Readings) (name digest s : text) (c : Cache) : option (Service * text) * Cache :=
  match svc with
  | None => (None, c)
  | Some sv =>
      if negb (enabled_for sv name (at_enabled rd)) then (None, c)
      else if decide (mode_for sv name (at_mode rd) = _MODE_OFF) then (None, c)
      else let '(k, c1) := build_key_for_provider s name digest (at_key rd) c in ((sv,.) <$> k, c1)
  end.

(** [submit] is the coalescer to use, if there is one. *)
Definition coalesced_query_embedding (svc : option Service) (rd : Readings) (env : Env) (q : CacheQualifier) (digest s : text)
    (submit : option (Cache → answer)) (live : result E (list F)) (no_embedding_cache_shortcut : bool)
    (rate draw : option Q) (c : Cache) : answer :=
  let name := q_provider q in
  let '(gated, c1) := gate svc rd name digest s c in
  match submit with
  | Some f => f c1
  | None =>
      match gated with
      | None =>
          ((λ v, (v, direct_meta None None (Some name) (Some digest) None (decide_role_and_outcome None None false false))) <$> live,
           c1, None, true)
      | Some (sv, key) =>
          if no_embedding_cache_shortcut then
            match live with
            | Err e => (Err e, c1, None, true)
            | Ok v =>
                (Ok (v, direct_meta (Some false) None (Some name) None (Some key) (decide_role_and_outcome None None true false)),
                 record_miss_or_shadow to_f4 sv env key q v c1, None, true)
            end
          else _serve_with_cache sv env (mode_for sv name (at_serve rd)) name key q live rate draw c1
      end
  end.

Lemma decision_total h m b e : is_Some (decide_role_and_outcome h m b e).
Proof.
  unfold decide_role_and_outcome. destruct e, b; try (vm_compute; by eexists).
  repeat case_bool_decide; vm_compute; by eexists.
Qed.

(** The answer of Path B: the gate first, then the provider or the cache. *)
Definition result_of (a : answer) : result E (list F * Meta) := a.1.1.1.
Definition cache_of (a : answer) : Cache := a.1.1.2.
Definition called (a : answer) : bool := a.2.

(** C21: without a coalescer a query never fails because of its cache: whatever the cache
    holds, the configuration says and the backend does, if the provider answers the query
    is answered; the provider is left alone only for a stored vector of the right
    dimension under the query's own key, which is then the answer; otherwise the answer is
    the provider's, an exception included, and after an exception no row has changed. *)
Theorem cache_fails_open svc rd env q digest s live shortcut rate draw c :
  let a := coalesced_query_embedding svc rd env q digest s None live shortcut rate draw c in
  if called a then
    fst <$> result_of a = live ∧ (∀ e, live = Err e → rows (cache_of a) = rows c)
  else
    ∃ key anchor blob v m, CacheKeys.build_key s anchor digest = Some key ∧
      Table.lookup (row_key key q) (rows c) = Some blob ∧ decode of_f4 q blob = Some v ∧ result_of a = Ok (v, m).
Proof.
  unfold coalesced_query_embedding, gate, build_key_for_provider. destruct svc as [sv|]; [|by destruct live].
  destruct (negb _); [by destruct live|]. case_decide; [by destruct live|].
  destruct (anchor_tokens_for _ _ _) as [[anchor w] last]. destruct (CacheKeys.build_key s anchor digest) as [key|] eqn:Ek; cbn; [|by destruct live].
  destruct shortcut; [by destruct live|]. unfold _serve_with_cache. case_decide; cbn.
  - destruct (lookup env key q _) as [blob|] eqn:El; cbn; [|by destruct live].
    destruct (decode of_f4 q blob) as [v|] eqn:Ed; cbn; [|by destruct live].
    unfold lookup in El. destruct (lookup_ok env); [|done]. eauto 10.
  - destruct live; cbn; [|done]. by destruct (lookup env key q _).
Qed.

(** The mode, the anchor and the master switch a set of readings comes to. *)
Definition serving (sv : Service) (rd : Readings) (name : text) (anchor : Z) : Prop :=
  enabled_for sv name (at_enabled rd) = true ∧ mode_for sv name (at_mode rd) = _MODE_ON ∧
  (∀ last, (anchor_tokens_for name (at_key rd) last).1.1 = anchor) ∧ mode_for sv name (at_serve rd) = _MODE_ON.

Lemma gate_serving sv rd name anchor digest s c :
  serving sv rd name anchor →
  ∃ c', rows c' = rows c ∧ gate (Some sv) rd name digest s c = ((sv,.) <$> CacheKeys.build_key s anchor digest, c').
Proof.
  intros (He&Hm&Ha&_). unfold gate, build_key_for_provider. rewrite He, Hm. cbn [negb].
  rewrite decide_False by (vm_compute; done). specialize (Ha (_last_anchor_tokens c)).
  destruct (anchor_tokens_for _ _ _) as [[a w] last]. cbn in Ha. subst a. by exists (set_anchors last c).
Qed.

Context (f4_width : ∀ x, (to_f4 x < 4294967296)%N).

End calls.

End QueryEmbedding.
