(* ===== verification/EmbeddingCoalescer.v ===== *)
(** * Coalescing of query embeddings

    src/src/code_indexer/server/services/embedding_coalescer.py, the registry of
    coalescers in coalescer_registry.py, and the splitting loops of
    services/voyage_ai.py and services/cohere_embedding.py.

    - [Registry]: one coalescer per lane and configuration, within a cap.
    - [Requests]: the two limits of a batch and the providers' own splitting.
    - [Coalescer]: one coalescer shared by any number of callers.  A critical section, a
      read of the cache, a call of the provider and the completion of one future are one
      step each; what callers and the world do in between is any interleaving.  The
      identity of a future is the caller that created it; the audit sample, latencies and
      log lines are left out. *)

From S2P Require Import Prelude.
From S2P Require Import PyText.
From S2P Require Import ProviderControl.
From S2P Require Import EmbeddingCache.
From stdpp Require Import options.
Local Open Scope Z_scope.

Module Registry.

Section registry.
(** [build lane digest] is the coalescer made for the provider of a request. *)
Context {C : Type} (max_per_lane : Z) (build : string → text → C).

Abbreviation registry := (gmap string (gmap text C)).

Definition cap : Z := Z.max 0 max_per_lane.

Definition get_or_create (lane : string) (digest : text) (r : registry) : option C * registry :=
  let lane_map := default ∅ (r !! lane) in
  match lane_map !! digest with
  | Some c => (Some c, <[lane := lane_map]> r)
  | None =>
      if cap <=? Z.of_nat (size lane_map) then (None, <[lane := lane_map]> r)
      else let c := build lane digest in (Some c, <[lane := <[digest := c]> lane_map]> r)
  end.

Definition within (r : registry) : Prop := ∀ lane m, r !! lane = Some m → Z.of_nat (size m) ≤ cap.

Lemma get_or_create_within lane digest r : within r → within (get_or_create lane digest r).2.
Proof.
  intros Hr. assert (Z.of_nat (size (default ∅ (r !! lane) : gmap text C)) ≤ cap) as Hm.
  { destruct (r !! lane) as [m|] eqn:E; cbn; [by eapply Hr|]. rewrite map_size_empty. unfold cap. lia. }
  unfold get_or_create. destruct (default ∅ (r !! lane) !! digest) as [c|] eqn:Ed; [|case_match eqn:Ec]; cbn;
    intros l m' [[<- <-]|[_ ?]]%lookup_insert_Some; eauto.
  rewrite map_size_insert_None by done. lia.
Qed.

(** A coalescer once handed out for a configuration is handed out for it ever after. *)
Lemma get_or_create_stable lane digest lane' digest' c r :
  (get_or_create lane digest r).1 = Some c →
  (get_or_create lane digest (get_or_create lane' digest' (get_or_create lane digest r).2).2).1 = Some c.
Proof.
  intros H1. assert (∃ m, (get_or_create lane digest r).2 !! lane = Some m ∧ m !! digest = Some c) as (m&Hm&Hd).
  { revert H1. unfold get_or_create. destruct (default ∅ (r !! lane) !! digest) as [c'|] eqn:E; cbn.
    - intros [= <-]. eexists. by rewrite lookup_insert_eq.
    - case_match; cbn; [done|]. intros [= <-]. eexists. rewrite lookup_insert_eq. split; [done|]. by rewrite lookup_insert_eq. }
  clear H1. set (r1 := (get_or_create lane digest r).2) in *. clearbody r1.
  assert (∃ m', (get_or_create lane' digest' r1).2 !! lane = Some m' ∧ m' !! digest = Some c) as (m'&Hm'&Hd').
  { unfold get_or_create. destruct (decide (lane' = lane)) as [->|Hne].
    - rewrite Hm. cbn. destruct (m !! digest') eqn:E'; [|case_match]; cbn; eexists; rewrite lookup_insert_eq; (split; [done|]); [done..|].
      rewrite lookup_insert_ne; congruence.
    - destruct (default ∅ (r1 !! lane') !! digest'); [|case_match]; cbn; rewrite lookup_insert_ne by done; eauto. }
  unfold get_or_create at 1. rewrite Hm'. cbn. by rewrite Hd'.
Qed.
End registry.
End Registry.

Module Requests.

(** [None] for the percentage when the model specification has none; a provider without a
    limit on the number of texts per request has [None] there. *)
Record Provider := {
  model_token_limit : Z;
  safety_margin_percentage : option Z;
  texts_per_request : option Z;
  count_tokens : text → Z }.

Definition _resolve_token_limit (p : Provider) : Z :=
  match safety_margin_percentage p with
  | Some pct => if 0 <? pct then model_token_limit p * pct / 100 else model_token_limit p * 9 / 10
  | None => model_token_limit p * 9 / 10
  end.

Definition _resolve_texts_cap (p : Provider) (ceiling : Z) : Z :=
  match texts_per_request p with Some n => Z.min ceiling n | None => ceiling end.

Definition _resolve_provider_texts_cap (p : Provider) : option Z := texts_per_request p.

(** [static] is the ceiling given at construction, [live] the one a ceiling provider
    reports now. *)
Definition effective_texts_cap (p : Provider) (static : Z) (live : option Z) : Z :=
  match live with
  | None => _resolve_texts_cap p static
  | Some ceiling =>
      match _resolve_provider_texts_cap p with Some raw => Z.min ceiling raw | None => ceiling end
  end.

(** The requests [get_embeddings_batch] makes for [texts]: Cohere's loop; Voyage's has no
    limit on the number of texts, and its contextual models, which take one request per
    call, are left out. *)
Fixpoint split_requests (p : Provider) (safety_limit : Z) (texts current : list text) (current_tokens : Z) : list (list text) :=
  match texts with
  | [] => match current with [] => [] | _ => [current] end
  | t :: rest =>
      let chunk_tokens := count_tokens p t in
      let full := (safety_limit <? current_tokens + chunk_tokens) ||
                  match texts_per_request p with Some n => n <=? Z.of_nat (length current) | None => false end in
      if bool_decide (current ≠ []) && full
      then current :: split_requests p safety_limit rest [t] chunk_tokens
      else split_requests p safety_limit rest (current ++ [t]) (current_tokens + chunk_tokens)
  end.

Definition cohere_safety_limit (p : Provider) : Z := model_token_limit p * default 90 (safety_margin_percentage p) / 100.
Definition voyage_safety_limit (p : Provider) : Z := model_token_limit p * 9 / 10.

Definition safety_limit (p : Provider) : Z :=
  match texts_per_request p with Some _ => cohere_safety_limit p | None => voyage_safety_limit p end.

Definition get_embeddings_batch (p : Provider) (texts : list text) : list (list text) :=
  split_requests p (safety_limit p) texts [] 0.

Definition tokens (p : Provider) (texts : list text) : Z := foldr (λ t n, count_tokens p t + n) 0 texts.

(** A provider as the model specifications describe it: counts are not negative and the
    coalescer's margin is no wider than the provider's. *)
Record sane (p : Provider) : Prop := {
  sane_count : ∀ t, 0 ≤ count_tokens p t;
  sane_limit : _resolve_token_limit p ≤ safety_limit p }.

(** What a batch may hold. *)
Definition fits (p : Provider) (texts : list text) : Prop :=
  (length texts ≤ 1)%nat ∨
  tokens p texts ≤ _resolve_token_limit p ∧
  match texts_per_request p with Some n => Z.of_nat (length texts) ≤ n | None => True end.

Lemma tokens_app p l k : tokens p (l ++ k) = tokens p l + tokens p k.
Proof. unfold tokens. induction l as [|t l IH]; cbn; lia. Qed.

Lemma tokens_sub p l k : sane p → l `sublist_of` k → tokens p l ≤ tokens p k.
Proof. intros Hp. pose proof (sane_count p Hp) as Hc. unfold tokens. induction 1 as [|t l k _ IH|t l k _ IH]; cbn; [done|lia|]. specialize (Hc t). lia. Qed.

Lemma fits_sublist p l k : sane p → l `sublist_of` k → fits p k → fits p l.
Proof.
  intros Hp Hs [H1|[H2 H3]]; [left|right]; pose proof (sublist_length _ _ Hs) as Hl; [lia|].
  split; [pose proof (tokens_sub p l k Hp Hs); lia|]. destruct (texts_per_request p); [lia|done].
Qed.

Lemma split_one p limit rest : ∀ current n,
  n = tokens p current → current ++ rest ≠ [] → (∀ t, 0 ≤ count_tokens p t) →
  (length (current ++ rest) ≤ 1)%nat ∨
    tokens p (current ++ rest) ≤ limit ∧
    match texts_per_request p with Some m => Z.of_nat (length (current ++ rest)) ≤ m | None => True end →
  split_requests p limit rest current n = [current ++ rest].
Proof.
  induction rest as [|t rest IH]; intros current n Hn Hne Hc Hfit; cbn.
  { rewrite app_nil_r in *. by destruct current. }
  assert (bool_decide (current ≠ []) && ((limit <? n + count_tokens p t) ||
    match texts_per_request p with Some m => m <=? Z.of_nat (length current) | None => false end) = false) as ->.
  { destruct current as [|x current]; [done|]. rewrite bool_decide_true by done. cbn [andb].
    rewrite length_app in Hfit. cbn [length] in *. destruct Hfit as [?|[Ht Hm]]; [lia|]. rewrite tokens_app in Ht. cbn [tokens foldr] in Ht.
    assert (0 ≤ tokens p rest) as H0 by (unfold tokens; clear -Hc; induction rest as [|y rest IH]; cbn; [done|]; specialize (Hc y); lia).
    change (foldr (λ t n, count_tokens p t + n) 0 rest) with (tokens p rest) in Ht.
    apply orb_false_iff. split; [apply Z.ltb_ge; subst n; unfold tokens in *; cbn in *; lia|].
    destruct (texts_per_request p); [apply Z.leb_gt; lia|done]. }
  rewrite (IH (current ++ [t]) (n + count_tokens p t)); rewrite <-?app_assoc; try done.
  rewrite tokens_app, Hn. unfold tokens. cbn. lia.
Qed.

(** A batch that fits is one request. *)
Lemma fits_one_request p texts : sane p → texts ≠ [] → fits p texts → get_embeddings_batch p texts = [texts].
Proof.
  intros Hp Hne Hf. unfold get_embeddings_batch. apply split_one; [done|done|apply Hp|]. cbn [app].
  destruct Hf as [?|[? ?]]; [by left|right]. split; [|done]. pose proof (sane_limit p Hp). lia.
Qed.
End Requests.

Module Coalescer.
Import QueryCache QueryEmbedding Requests.

Definition _NONE_KEY_PREFIX : text := 0%N :: txt "text:".

(** Calls of the provider after the first, when it answers 429. *)
Definition retries : nat := Z.to_nat Backoff._DEFAULT_MAX_RETRIES.

Record Request := { rq_text : text; rq_purpose : string; no_embedding_cache_shortcut : bool }.

(** An entry of a batch: the caller whose future it holds, and its request. *)
Abbreviation entry := (nat * Request)%type.
Definition texts (es : list entry) : list text := (λ e, rq_text e.2) <$> es.

(** What the dispatcher computes from its batch when it seals it. *)
Record Snapshot := {
  unique_texts : list text;
  key_to_first_idx : list (text * nat);
  entry_keys : list text;
  purpose : string }.

Section coalescer.
Context {F : Type} (to_f4 : F → N) (of_f4 : N → F) {E : Type}.
(** The provider and its configuration, the ceiling given at construction. *)
Context (svc : Service) (q : CacheQualifier) (config_digest : text) (pv : Provider) (static : Z).
(** [embeds p t v]: for purpose [p] the provider may answer text [t] with [v]. *)
Context (embeds : string → text → list F → Prop).
(** A lower bound of the anchors in use while the system runs. *)
Context (min_anchor : Z).

Inductive failure := Raised (e : E) | JoinTimeout | ValueError | InvalidStateError.
Abbreviation reply := (result failure (list F * Meta)).

(** ** Metadata *)

Definition hit_meta (mode : option text) (what who : string) (live : option nat) (key : option text) : Meta :=
  {| key_found := Some true; cache_mode := mode; provider := Some (q_provider q); digest := None;
     outcome := Some what; role := Some who; live_batch_id := live; embed_key := key |}.

Definition _make_hit_meta (mode key : option text) : Meta := hit_meta mode "hit" "warm_hit" None key.

Definition _make_miss_meta (mode : option text) (what : string) (live : option nat) (key : option text) : Meta :=
  {| key_found := Some false; cache_mode := mode; provider := Some (q_provider q); digest := None;
     outcome := Some what; role := Some "owner"%string; live_batch_id := live; embed_key := key |}.

Definition _make_joiner_meta (live : option nat) (key : text) : Meta :=
  match DECISION_TABLE !! "coalescer_joiner"%string with
  | Some (what, who, _) => hit_meta None what who live (Some key)
  | None => hit_meta None "" "" live (Some key)
  end.

(** ** Deduplication *)

Definition dedup_key (anchor : Z) (t : text) : text := default (_NONE_KEY_PREFIX ++ t) (CacheKeys.build_key t anchor config_digest).

Definition add_text (anchor : Z) (acc : list text * list (text * nat) * list text) (t : text) :
    list text * list (text * nat) * list text :=
  let '(unique, key_to_idx, ekeys) := acc in
  let k := dedup_key anchor t in
  match dget k key_to_idx with
  | Some _ => (unique, key_to_idx, ekeys ++ [k])
  | None => (unique ++ [t], key_to_idx ++ [(k, length unique)], ekeys ++ [k])
  end.

Definition snapshot (anchor : Z) (es : list entry) : Snapshot :=
  let '(unique, key_to_idx, ekeys) := foldl (add_text anchor) ([], [], []) (texts es) in
  {| unique_texts := unique; key_to_first_idx := key_to_idx; entry_keys := ekeys;
     purpose := match es with e :: _ => rq_purpose e.2 | [] => "query"%string end |}.

Definition over_cap (k : text) : bool := is_prefix _NONE_KEY_PREFIX k.

Definition vector_of (sn : Snapshot) (vs : list (list F)) (k : text) : list F :=
  default [] (dget k (key_to_first_idx sn) ≫= λ j, vs !! j).

(** The result of an entry with key [k] of batch [b]; [hits]: the keys found in shadow mode. *)
Definition entry_result (mode : option text) (b : nat) (sn : Snapshot) (vs : list (list F)) (hits : gset text) (k : text) : reply :=
  let key := if over_cap k then None else Some k in
  Ok (vector_of sn vs k,
      if decide (mode = Some _MODE_SHADOW) then
        if bool_decide (k ∈ hits) && negb (over_cap k) then _make_hit_meta (Some _MODE_SHADOW) key
        else _make_miss_meta mode "shadow_miss" (Some b) key
      else _make_miss_meta mode "miss" (Some b) key).

(** ** The shared state *)

Record Call := { c_batch : nat; c_texts : list text; c_purpose : string; c_vectors : list (list F) }.

Record Shared := {
  cache : Cache;
  open_batch : option nat;
  open_tokens : Z;
  next_batch : nat;
  batches : gmap nat (list entry);
  (** the owner of each key being resolved, the results of the owners' futures, the
      batch id each owner leaves for its joiners *)
  inflight : gmap text nat;
  owned : gmap nat reply;
  live_ids : gmap nat (option nat);
  (** the results of the entries' futures, and the calls that were answered *)
  futs : gmap nat reply;
  calls : list Call }.

Definition with_cache (c : Cache) (s : Shared) : Shared :=
  {| cache := c; open_batch := open_batch s; open_tokens := open_tokens s; next_batch := next_batch s; batches := batches s;
     inflight := inflight s; owned := owned s; live_ids := live_ids s; futs := futs s; calls := calls s |}.
Definition with_batches (o : option nat) (n : Z) (next : nat) (bs : gmap nat (list entry)) (s : Shared) : Shared :=
  {| cache := cache s; open_batch := o; open_tokens := n; next_batch := next; batches := bs;
     inflight := inflight s; owned := owned s; live_ids := live_ids s; futs := futs s; calls := calls s |}.
Definition with_inflight (m : gmap text nat) (s : Shared) : Shared :=
  {| cache := cache s; open_batch := open_batch s; open_tokens := open_tokens s; next_batch := next_batch s; batches := batches s;
     inflight := m; owned := owned s; live_ids := live_ids s; futs := futs s; calls := calls s |}.
Definition with_owned (m : gmap nat reply) (s : Shared) : Shared :=
  {| cache := cache s; open_batch := open_batch s; open_tokens := open_tokens s; next_batch := next_batch s; batches := batches s;
     inflight := inflight s; owned := m; live_ids := live_ids s; futs := futs s; calls := calls s |}.
Definition with_live_ids (m : gmap nat (option nat)) (s : Shared) : Shared :=
  {| cache := cache s; open_batch := open_batch s; open_tokens := open_tokens s; next_batch := next_batch s; batches := batches s;
     inflight := inflight s; owned := owned s; live_ids := m; futs := futs s; calls := calls s |}.
Definition with_futs (m : gmap nat reply) (s : Shared) : Shared :=
  {| cache := cache s; open_batch := open_batch s; open_tokens := open_tokens s; next_batch := next_batch s; batches := batches s;
     inflight := inflight s; owned := owned s; live_ids := live_ids s; futs := m; calls := calls s |}.
Definition with_calls (l : list Call) (s : Shared) : Shared :=
  {| cache := cache s; open_batch := open_batch s; open_tokens := open_tokens s; next_batch := next_batch s; batches := batches s;
     inflight := inflight s; owned := owned s; live_ids := live_ids s; futs := futs s; calls := l |}.

(** ** Accretion *)

Definition _seal_if_full (cap : Z) (s : Shared) : Shared :=
  match open_batch s with
  | None => s
  | Some b =>
      if (cap <=? Z.of_nat (length (default [] (batches s !! b)))) || (_resolve_token_limit pv <=? open_tokens s)
      then with_batches None 0 (next_batch s) (batches s) s else s
  end.

Definition new_batch (e : entry) (n : Z) (s : Shared) : Shared :=
  with_batches (Some (next_batch s)) n (S (next_batch s)) (<[next_batch s := [e]]> (batches s)) s.

Definition join_batch (b : nat) (e : entry) (n : Z) (s : Shared) : Shared :=
  with_batches (Some b) (open_tokens s + n) (next_batch s) (<[b := default [] (batches s !! b) ++ [e]]> (batches s)) s.

(** The state, the batch the entry is in, whether its caller dispatches it. *)
Definition _enqueue (cap : Z) (e : entry) (n : Z) (s : Shared) : Shared * nat * bool :=
  match open_batch s with
  | Some b =>
      if (Z.of_nat (length (default [] (batches s !! b))) <? cap) && (open_tokens s + n <=? _resolve_token_limit pv)
      then (_seal_if_full cap (join_batch b e n s), b, false)
      else (_seal_if_full cap (new_batch e n s), next_batch s, true)
  | None => (_seal_if_full cap (new_batch e n s), next_batch s, true)
  end.

(** Sealing by the dispatcher, a no-op when the batch is closed already. *)
Definition close (b : nat) (s : Shared) : Shared :=
  if decide (open_batch s = Some b) then with_batches None 0 (next_batch s) (batches s) s else s.

(** ** The phases of a call of [submit] *)

Inductive pc :=
| Begin
| Registering (mode key : text)
| Joining (key : text) (owner : nat)
| Looking (mode key : text)
| Counting (mode own : option text)
| Queueing (mode own : option text)
| Dispatching (mode own : option text) (b : nat)
| Calling (mode own : option text) (b : nat) (sn : Snapshot) (attempts : nat)
| Shadowing (mode own : option text) (b : nat) (sn : Snapshot) (vs : list (list F)) (hits : gset text) (todo : list text)
| Delivering (mode own : option text) (b : nat) (sn : Snapshot) (vs : list (list F)) (hits : gset text) (todo : list (nat * text))
| Storing (mode own : option text) (b : nat) (sn : Snapshot) (vs : list (list F)) (hits : gset text) (todo : list (text * nat))
| Failing (own : option text) (b : nat) (e : failure)
| Fanning (own : option text) (b : nat) (e : failure) (todo : list nat)
| Waiting (own : option text)
| Filling (key : text) (v : list F) (m : Meta)
| Completing (key : text) (r : reply)
| Popping (key : text) (r : reply)
| Done (r : reply).

(** The cache mode of a call, from three readings of the configuration; [None]: there is
    no cache, or it is disabled. *)
Definition entry_mode (installed : bool) (l1 l2 l3 : option Config) : option text :=
  if installed && enabled_for svc (q_provider q) l1 && bool_decide (mode_for svc (q_provider q) l2 ≠ _MODE_OFF)
  then Some (mode_for svc (q_provider q) l3) else None.

Definition first_phase (mode : option text) (rq : Request) (anchor : Z) : pc :=
  match mode with
  | Some m =>
      if bool_decide (m = _MODE_ON ∨ m = _MODE_SHADOW) && negb (no_embedding_cache_shortcut rq)
      then match CacheKeys.build_key (rq_text rq) anchor config_digest with Some k => Registering m k | None => Counting mode None end
      else Counting mode None
  | None => Counting mode None
  end.

(** Registering as the owner of the key, or joining its owner. *)
Definition register (i : nat) (mode key : text) (s : Shared) : Shared * pc :=
  match inflight s !! key with
  | Some o => (s, Joining key o)
  | None => (with_inflight (<[key := i]> (inflight s)) s, Looking mode key)
  end.

Definition joined (key : text) (live : option nat) (r : reply) : reply :=
  match r with Ok (v, _) => Ok (v, _make_joiner_meta live key) | Err e => Err e end.

(** The owner's look at the cache. *)
Definition look (env : Env) (mode key : text) (s : Shared) : Shared * pc :=
  if decide (mode = _MODE_ON) then
    match lookup env key q (cache s) ≫= decode of_f4 q with
    | Some v => (with_cache (record_hit env key q (cache s)) s, Completing key (Ok (v, _make_hit_meta (Some mode) (Some key))))
    | None => (s, Counting (Some mode) (Some key))
    end
  else (s, Counting (Some mode) (Some key)).

(** What follows once the caller's own future is complete. *)
Definition settle (own : option text) (r : reply) : pc :=
  match own, r with
  | None, _ => Done r
  | Some k, Ok (v, m) => Filling k v m
  | Some k, Err e => Completing k r
  end.

Definition caching (mode : option text) : bool := bool_decide (mode = Some _MODE_ON ∨ mode = Some _MODE_SHADOW).

(** Writing one key after the dispatch; [env] and [env'] for the second look and the write. *)
Definition store (env env' : Env) (mode : option text) (sn : Snapshot) (vs : list (list F)) (hits : gset text) (k : text) (c : Cache) : Cache :=
  if over_cap k then c
  else
    let write := record_miss_or_shadow to_f4 svc env' k q (vector_of sn vs k) c in
    if decide (mode = Some _MODE_ON) then write
    else if decide (k ∈ hits) then record_hit env' k q c
    else match lookup env k q c with Some _ => record_hit env' k q c | None => write end.

(** ** Moves of a caller *)

Inductive moves (i : nat) (rq : Request) : Shared → pc → Shared → pc → Prop :=
| mv_begin s installed l1 l2 l3 a : min_anchor ≤ a → moves i rq s Begin s (first_phase (entry_mode installed l1 l2 l3) rq a)
| mv_begin_raises s e : moves i rq s Begin s (Done (Err (Raised e)))
| mv_register s m k : moves i rq s (Registering m k) (register i m k s).1 (register i m k s).2
| mv_join s k o r : owned s !! o = Some r → moves i rq s (Joining k o) s (Done (joined k (default None (live_ids s !! o)) r))
| mv_look s m k env : moves i rq s (Looking m k) (look env m k s).1 (look env m k s).2
| mv_count s m own : moves i rq s (Counting m own) s (Queueing m own)
| mv_count_raises s m own e : moves i rq s (Counting m own) s (Done (Err (Raised e)))
| mv_queue s m own live s' b mine :
    _enqueue (effective_texts_cap pv static live) (i, rq) (count_tokens pv (rq_text rq)) s = (s', b, mine) →
    moves i rq s (Queueing m own) s' (if mine then Dispatching m own b else Waiting own)
| mv_queue_raises s m own e : moves i rq s (Queueing m own) s (Done (Err (Raised e)))
| mv_wait s own r : futs s !! i = Some r → moves i rq s (Waiting own) s (settle own r)
(** the dispatcher: no slot, an exception while sealing, or the batch is sealed *)
| mv_refused s m own b e : moves i rq s (Dispatching m own b) s (Failing own b (Raised e))
| mv_seal_raises s m own b e : moves i rq s (Dispatching m own b) (close b s) (Failing own b (Raised e))
| mv_seal s m own b es a : min_anchor ≤ a → batches s !! b = Some es →
    moves i rq s (Dispatching m own b) (close b s) (Calling m own b (snapshot a es) retries)
(** the provider: a 429 with attempts left, an exception, an answer *)
| mv_retry s m own b sn n : moves i rq s (Calling m own b sn (S n)) s (Calling m own b sn n)
| mv_call_raises s m own b sn n e : moves i rq s (Calling m own b sn n) s (Failing own b (Raised e))
| mv_wrong_count s m own b sn n : moves i rq s (Calling m own b sn n) s (Failing own b ValueError)
| mv_answer s m own b sn n vs :
    Forall2 (embeds (purpose sn)) (unique_texts sn) vs →
    moves i rq s (Calling m own b sn n)
      (with_calls ({| c_batch := b; c_texts := unique_texts sn; c_purpose := purpose sn; c_vectors := vs |} :: calls s) s)
      (Shadowing m own b sn vs ∅ (if decide (m = Some _MODE_SHADOW) then (key_to_first_idx sn).*1 else []))
| mv_shadow s m own b sn vs hits k todo env :
    moves i rq s (Shadowing m own b sn vs hits (k :: todo)) s
      (Shadowing m own b sn vs (if negb (over_cap k) && bool_decide (is_Some (lookup env k q (cache s))) then {[k]} ∪ hits else hits) todo)
| mv_shadow_done s m own b sn vs hits es : batches s !! b = Some es →
    moves i rq s (Shadowing m own b sn vs hits []) s (Delivering m own b sn vs hits (zip es.*1 (entry_keys sn)))
| mv_deliver s m own b sn vs hits j k todo : futs s !! j = None →
    moves i rq s (Delivering m own b sn vs hits ((j, k) :: todo))
      (with_futs (<[j := entry_result m b sn vs hits k]> (futs s)) s) (Delivering m own b sn vs hits todo)
| mv_deliver_twice s m own b sn vs hits j k todo r : futs s !! j = Some r →
    moves i rq s (Delivering m own b sn vs hits ((j, k) :: todo)) s (Failing own b InvalidStateError)
| mv_deliver_done s m own b sn vs hits :
    moves i rq s (Delivering m own b sn vs hits []) s (Storing m own b sn vs hits (if caching m then key_to_first_idx sn else []))
| mv_store s m own b sn vs hits k j todo env env' :
    moves i rq s (Storing m own b sn vs hits ((k, j) :: todo)) (with_cache (store env env' m sn vs hits k (cache s)) s) (Storing m own b sn vs hits todo)
| mv_store_done s m own b sn vs hits : moves i rq s (Storing m own b sn vs hits []) s (Waiting own)
| mv_fail s own b e es : batches s !! b = Some es → moves i rq s (Failing own b e) (close b s) (Fanning own b e es.*1)
| mv_fan s own b e j todo :
    moves i rq s (Fanning own b e (j :: todo))
      (with_futs (match futs s !! j with Some _ => futs s | None => <[j := Err e]> (futs s) end) s) (Fanning own b e todo)
| mv_fan_done s own b e : moves i rq s (Fanning own b e []) s (Waiting own)
(** the owner: the batch id for its joiners, its future, its key *)
| mv_fill s k v m : moves i rq s (Filling k v m) (with_live_ids (<[i := live_batch_id m]> (live_ids s)) s) (Completing k (Ok (v, m)))
| mv_complete s k r : moves i rq s (Completing k r) (with_owned (<[i := r]> (owned s)) s) (Popping k r)
| mv_pop s k r : moves i rq s (Popping k r) (with_inflight (delete k (inflight s)) s) (Done r).

(** ** The system *)

Record System := { shared : Shared; callers : gmap nat (Request * pc) }.

Definition put (i : nat) (rq : Request) (p : pc) (s : Shared) (sys : System) : System :=
  {| shared := s; callers := <[i := (rq, p)]> (callers sys) |}.

(** What a stored vector under a key must be: the rounding of an answer for a text with that key. *)
Definition justified (key : text) (blob : list N) : Prop :=
  ∀ v, decode of_f4 q blob = Some v →
    ∃ t a p v0, min_anchor ≤ a ∧ CacheKeys.build_key t a config_digest = Some key ∧ embeds p t v0 ∧ v = rounded to_f4 of_f4 v0.

Definition rows_justified (c : Cache) : Prop :=
  ∀ key blob, Table.lookup (row_key key q) (rows c) = Some blob → justified key blob.

(** A move of one caller; a joiner's time-out; a new caller; other users of the cache. *)
Inductive prompt : System → System → Prop :=
| p_move sys i rq p s' p' : callers sys !! i = Some (rq, p) → moves i rq (shared sys) p s' p' → prompt sys (put i rq p' s' sys).

Inductive step : System → System → Prop :=
| st_move sys sys' : prompt sys sys' → step sys sys'
| st_timeout sys i rq k o : callers sys !! i = Some (rq, Joining k o) → step sys (put i rq (Done (Err JoinTimeout)) (shared sys) sys)
| st_submit sys i rq : callers sys !! i = None → step sys (put i rq Begin (shared sys) sys)
| st_cache sys c : rows_justified c → step sys {| shared := with_cache c (shared sys); callers := callers sys |}.

Definition init (c : Cache) : System :=
  {| shared := {| cache := c; open_batch := None; open_tokens := 0; next_batch := 0; batches := ∅; inflight := ∅; owned := ∅;
                  live_ids := ∅; futs := ∅; calls := [] |};
     callers := ∅ |}.

Definition reachable (sys : System) : Prop := ∃ c, rows_justified c ∧ rtc step (init c) sys.

(** ** Deduplication loses no text and mixes none *)

Record snapshot_ok (anchor : Z) (ts unique : list text) (d : list (text * nat)) (ks : list text) : Prop := {
  so_keys : ks = dedup_key anchor <$> ts;
  so_sub : unique `sublist_of` ts;
  so_len : length d = length unique;
  so_nodup : NoDup d.*1;
  so_idx : ∀ k j, (k, j) ∈ d → ∃ t, unique !! j = Some t ∧ dedup_key anchor t = k;
  so_all : ∀ t, t ∈ ts → dedup_key anchor t ∈ d.*1 }.

Lemma add_text_ok anchor ts unique d ks t :
  snapshot_ok anchor ts unique d ks →
  let '(u', d', ks') := add_text anchor (unique, d, ks) t in snapshot_ok anchor (ts ++ [t]) u' d' ks'.
Proof.
  intros [H1 H2 H3 H4 H5 H6]. unfold add_text. set (k := dedup_key anchor t).
  destruct (dget k d) as [j|] eqn:Ek; split; rewrite ?fmap_app; cbn [fmap list_fmap].
  - by rewrite H1.
  - by apply sublist_inserts_r.
  - done.
  - done.
  - done.
  - intros x [Hx|Hx]%elem_of_app; [auto|]. apply list_elem_of_singleton in Hx as ->. apply dget_elem_of in Ek.
    apply list_elem_of_fmap. by exists (k, j).
  - by rewrite H1.
  - by apply sublist_app.
  - rewrite !length_app, H3. done.
  - apply dget_None in Ek. apply NoDup_app. split_and!; [done| |apply NoDup_singleton].
    intros x Hx Hx'. apply list_elem_of_singleton in Hx' as ->. done.
  - intros x j [Hx|Hx]%elem_of_app.
    + destruct (H5 x j Hx) as (t'&Ht'&Hk). exists t'. split; [|done]. by apply lookup_app_l_Some.
    + apply list_elem_of_singleton in Hx as [= -> ->]. exists t. split; [|done]. by apply list_lookup_middle.
  - intros x [Hx|Hx]%elem_of_app; [set_solver|]. apply list_elem_of_singleton in Hx as ->. set_solver.
Qed.

Lemma snapshot_spec anchor es :
  let sn := snapshot anchor es in
  snapshot_ok anchor (texts es) (unique_texts sn) (key_to_first_idx sn) (entry_keys sn).
Proof.
  assert (∀ ts ts0 u d ks, snapshot_ok anchor ts0 u d ks →
    let '(u', d', ks') := foldl (add_text anchor) (u, d, ks) ts in snapshot_ok anchor (ts0 ++ ts) u' d' ks') as Hgen.
  { induction ts as [|t ts IH]; intros ts0 u d ks Hok; cbn [foldl]; [by rewrite app_nil_r|].
    pose proof (add_text_ok anchor ts0 u d ks t Hok) as Hok'. destruct (add_text anchor (u, d, ks) t) as [[u' d'] ks'].
    specialize (IH _ _ _ _ Hok'). by rewrite <-app_assoc in IH. }
  specialize (Hgen (texts es) [] [] [] []). unfold snapshot. cbv zeta.
  destruct (foldl _ _ _) as [[u d] ks]. apply Hgen. split; try done; [constructor|..]; by intros * ?%elem_of_nil.
Qed.

(** The text embedded for an entry has the entry's key, and its vector is the one at its index. *)
Lemma vector_of_spec anchor es (vs : list (list F)) t :
  let sn := snapshot anchor es in
  length vs = length (unique_texts sn) → t ∈ texts es →
  ∃ j t', unique_texts sn !! j = Some t' ∧ vs !! j = Some (vector_of sn vs (dedup_key anchor t)) ∧ dedup_key anchor t' = dedup_key anchor t.
Proof.
  intros sn Hlen Ht. destruct (snapshot_spec anchor es) as [_ _ _ Hnd Hidx Hall]. fold sn in Hnd, Hidx, Hall.
  apply Hall, list_elem_of_fmap in Ht as ([k j]&Hk&Hin). cbn in Hk. destruct (Hidx _ _ Hin) as (t'&Ht'&Hk').
  exists j, t'. split; [done|]. split; [|congruence]. unfold vector_of. rewrite Hk, (elem_of_dget _ _ _ Hnd Hin). cbn.
  destruct (vs !! j) as [v|] eqn:Ev; [done|]. apply lookup_ge_None in Ev. apply lookup_lt_Some in Ht'. lia.
Qed.

Lemma snapshot_nonempty anchor es : es ≠ [] → unique_texts (snapshot anchor es) ≠ [].
Proof.
  intros Hne Hu. destruct es as [|e es]; [done|]. destruct (snapshot_spec anchor (e :: es)) as [_ _ Hlen _ _ Hall].
  rewrite Hu in Hlen. apply nil_length_inv in Hlen. specialize (Hall (rq_text e.2)). rewrite Hlen in Hall. set_solver.
Qed.

Context (digest_ok : CacheKeys.colon ∉ config_digest).

Lemma over_cap_real t a k : CacheKeys.build_key t a config_digest = Some k → over_cap k = false.
Proof. intros ->%CacheKeys.build_key_parts. done. Qed.

Lemma dedup_key_real t a k : dedup_key a t = k → over_cap k = false → CacheKeys.build_key t a config_digest = Some k.
Proof.
  assert (over_cap (_NONE_KEY_PREFIX ++ t) = true) as Ho by (apply is_prefix_spec; by eexists).
  unfold dedup_key. destruct (CacheKeys.build_key t a config_digest); cbn [from_option id]; intros <-; [done|]. by rewrite Ho.
Qed.

Abbreviation alike := (CacheKeys.alike min_anchor).

Lemma dedup_key_alike a t t' : min_anchor ≤ a → dedup_key a t = dedup_key a t' → alike t t'.
Proof using digest_ok.
  intros Ha He. destruct (over_cap (dedup_key a t)) eqn:Ho.
  - unfold dedup_key in *. destruct (CacheKeys.build_key t a config_digest) as [k|] eqn:Et.
    + cbn [from_option id] in Ho. by rewrite (over_cap_real _ _ _ Et) in Ho.
    + destruct (CacheKeys.build_key t' a config_digest) as [k|] eqn:Et'; cbn [from_option id] in *.
      * rewrite He in Ho. by rewrite (over_cap_real _ _ _ Et') in Ho.
      * apply app_inv_head in He as ->. done.
  - apply (CacheKeys.build_key_alike _ t t' a a config_digest config_digest (dedup_key a t)); try done.
    + by apply dedup_key_real.
    + apply dedup_key_real; [done|]. done.
Qed.

(** ** Keys: who resolves them and who waits for them *)

(** The key a caller has registered and not yet removed. *)
Definition holds (p : pc) : option text :=
  match p with
  | Looking _ k | Filling k _ _ | Completing k _ | Popping k _ => Some k
  | Counting _ own | Queueing _ own | Dispatching _ own _ | Calling _ own _ _ _ | Shadowing _ own _ _ _ _ _
  | Delivering _ own _ _ _ _ _ | Storing _ own _ _ _ _ _ | Failing own _ _ | Fanning own _ _ _ | Waiting own => own
  | Begin | Registering _ _ | Joining _ _ | Done _ => None
  end.

Definition keyed (rq : Request) (k : text) : Prop := ∃ a, min_anchor ≤ a ∧ CacheKeys.build_key (rq_text rq) a config_digest = Some k.

Lemma keyed_alike rq rq' k : keyed rq k → keyed rq' k → alike (rq_text rq) (rq_text rq').
Proof using digest_ok. intros (a&Ha&Hk) (a'&Ha'&Hk'). by apply (CacheKeys.build_key_alike _ _ _ a a' config_digest config_digest k). Qed.

Abbreviation callers_map := (gmap nat (Request * pc)).

Record keys_inv (inf : gmap text nat) (own : gmap nat reply) (cs : callers_map) : Prop := {
  ki_holds : ∀ i rq p k, cs !! i = Some (rq, p) → holds p = Some k → inf !! k = Some i ∧ keyed rq k;
  ki_flight : ∀ k o, inf !! k = Some o → ∃ rq p, cs !! o = Some (rq, p) ∧ keyed rq k ∧ (holds p = Some k ∨ ∃ r, p = Done r);
  ki_reg : ∀ i rq m k, cs !! i = Some (rq, Registering m k) → keyed rq k;
  ki_join : ∀ i rq k o, cs !! i = Some (rq, Joining k o) →
    keyed rq k ∧ ∃ rq' p', cs !! o = Some (rq', p') ∧ keyed rq' k ∧ (is_Some (own !! o) ∨ inf !! k = Some o) }.

Ltac inserted :=
  repeat match goal with
  | H : <[_ := _]> _ !! _ = Some _ |- _ => apply lookup_insert_Some in H as [[<- ?]|[? ?]]; simplify_eq
  end.

(** A caller found before a move of caller [i] is still found after it. *)
Lemma still_there (cs : callers_map) i rq p p' j rq' p0 :
  cs !! i = Some (rq, p) → cs !! j = Some (rq', p0) →
  ∃ p1, <[i := (rq, p')]> cs !! j = Some (rq', p1) ∧ (j ≠ i ∧ p1 = p0 ∨ j = i ∧ p0 = p ∧ p1 = p').
Proof.
  intros Hi Hj. destruct (decide (j = i)) as [->|Hne].
  - exists p'. rewrite lookup_insert_eq. rewrite Hi in Hj. simplify_eq. auto.
  - exists p0. rewrite lookup_insert_ne by done. auto.
Qed.

(** Moves that leave the registry alone, or end the call. *)
Lemma keys_quiet inf own own' cs i rq p p' :
  keys_inv inf own cs → cs !! i = Some (rq, p) → (∀ r, p ≠ Done r) →
  (∀ o, is_Some (own !! o) → is_Some (own' !! o)) →
  (holds p' = holds p ∨ ∃ r, p' = Done r) → (∀ m k, p' = Registering m k → keyed rq k) → (∀ k o, p' ≠ Joining k o) →
  keys_inv inf own' (<[i := (rq, p')]> cs).
Proof.
  intros [H1 H2 H3 H4] Hi Hnd Hown Hp Hreg Hj. split.
  - intros j rq' p0 k Hl Hk. inserted; [|eauto]. apply (H1 i rq' p k Hi). destruct Hp as [<-|[r ->]]; done.
  - intros k o Hk. destruct (H2 k o Hk) as (rq'&p0&Ho&Hkey&Hh). destruct (still_there cs i rq p p' o rq' p0 Hi Ho) as (p1&Hp1&Hcase).
    exists rq', p1. split; [done|]. split; [done|]. destruct Hcase as [[_ ->]|(->&->&->)]; [done|].
    destruct Hh as [Hh|[r Hh]]; [|by edestruct Hnd]. destruct Hp as [->|[r ->]]; eauto.
  - intros j rq' m k Hl. inserted; eauto.
  - intros j rq' k o Hl. inserted; [by edestruct Hj|]. edestruct H4 as (Hkey&rq2&p2&Ho&Hk2&Hor); [done|]. split; [done|].
    destruct (still_there cs i rq p p' o rq2 p2 Hi Ho) as (p1&Hp1&_). exists rq2, p1. split_and!; [done|done|].
    destruct Hor; auto.
Qed.

(** Registering a key. *)
Lemma keys_register inf own cs i rq m k :
  keys_inv inf own cs → cs !! i = Some (rq, Registering m k) → inf !! k = None →
  keys_inv (<[k := i]> inf) own (<[i := (rq, Looking m k)]> cs).
Proof.
  intros [H1 H2 H3 H4] Hi Hk. assert (keyed rq k) as Hkey by eauto. split.
  - intros j rq' p0 k' Hl Hh. inserted; [injection Hh as <-; by rewrite lookup_insert_eq|]. destruct (H1 _ _ _ _ ltac:(eassumption) Hh) as [Hinf ?].
    split; [|done]. rewrite lookup_insert_ne; [done|]. congruence.
  - intros k' o [[<- <-]|[Hne Hk']]%lookup_insert_Some; [exists rq, (Looking m k); rewrite lookup_insert_eq; auto|].
    destruct (H2 k' o Hk') as (rq'&p0&Ho&Hkey'&Hh). destruct (still_there cs i rq _ (Looking m k) o rq' p0 Hi Ho) as (p1&Hp1&Hcase).
    exists rq', p1. split_and!; [done..|]. destruct Hcase as [[_ ->]|(->&->&->)]; [done|]. by destruct Hh as [|[r ?]].
  - intros j rq' m' k' Hl. inserted; eauto.
  - intros j rq' k' o Hl. inserted. edestruct H4 as (Hkey'&rq2&p2&Ho&Hk2&Hor); [done|]. split; [done|].
    destruct (still_there cs i rq _ (Looking m k) o rq2 p2 Hi Ho) as (p1&Hp1&_). exists rq2, p1. split_and!; [done|done|].
    destruct Hor as [?|Hinf]; [by left|right]. rewrite lookup_insert_ne; [done|]. congruence.
Qed.

Lemma keys_join inf own cs i rq m k o :
  keys_inv inf own cs → cs !! i = Some (rq, Registering m k) → inf !! k = Some o →
  keys_inv inf own (<[i := (rq, Joining k o)]> cs).
Proof.
  intros [H1 H2 H3 H4] Hi Hk. assert (keyed rq k) as Hkey by eauto. split.
  - intros j rq' p0 k' Hl Hh. inserted. eauto.
  - intros k' o' Hk'. destruct (H2 k' o' Hk') as (rq'&p0&Ho&Hkey'&Hh). destruct (still_there cs i rq _ (Joining k o) o' rq' p0 Hi Ho) as (p1&Hp1&Hcase).
    exists rq', p1. split_and!; [done..|]. destruct Hcase as [[_ ->]|(->&->&->)]; [done|]. by destruct Hh as [|[r ?]].
  - intros j rq' m' k' Hl. inserted; eauto.
  - intros j rq' k' o' Hl. inserted.
    + split; [done|]. destruct (H2 k' o' Hk) as (rq2&p2&Ho&Hkey2&_). destruct (still_there cs i rq' _ (Joining k' o') o' rq2 p2 Hi Ho) as (p1&Hp1&_). eauto 8.
    + edestruct H4 as (Hkey'&rq2&p2&Ho&Hk2&Hor); [done|]. split; [done|].
      destruct (still_there cs i rq _ (Joining k o) o' rq2 p2 Hi Ho) as (p1&Hp1&_). eauto 8.
Qed.

(** Removing the key, once its future is complete. *)
Lemma keys_pop inf own cs i rq k r :
  keys_inv inf own cs → cs !! i = Some (rq, Popping k r) → is_Some (own !! i) →
  keys_inv (delete k inf) own (<[i := (rq, Done r)]> cs).
Proof.
  intros [H1 H2 H3 H4] Hi Hown. destruct (H1 _ _ _ k Hi eq_refl) as [Hinf Hkey]. split.
  - intros j rq' p0 k' Hl Hh. inserted. destruct (H1 _ _ _ _ ltac:(eassumption) Hh) as [Hinf' ?]. split; [|done].
    rewrite lookup_delete_ne; [done|]. congruence.
  - intros k' o [Hne Hk']%lookup_delete_Some. destruct (H2 k' o Hk') as (rq'&p0&Ho&Hkey'&Hh).
    destruct (still_there cs i rq _ (Done r) o rq' p0 Hi Ho) as (p1&Hp1&Hcase). exists rq', p1. split_and!; [done..|].
    destruct Hcase as [[_ ->]|(->&->&->)]; [done|]. right. by eexists.
  - intros j rq' m' k' Hl. inserted; eauto.
  - intros j rq' k' o Hl. inserted. edestruct H4 as (Hkey'&rq2&p2&Ho&Hk2&Hor); [done|]. split; [done|].
    destruct (still_there cs i rq _ (Done r) o rq2 p2 Hi Ho) as (p1&Hp1&_). exists rq2, p1. split_and!; [done|done|].
    destruct Hor as [?|Hinf']; [by left|]. destruct (decide (k' = k)) as [->|Hne]; [left; congruence|right]. by rewrite lookup_delete_ne.
Qed.

Lemma keys_submit inf own cs i rq :
  keys_inv inf own cs → cs !! i = None → keys_inv inf own (<[i := (rq, Begin)]> cs).
Proof.
  intros [H1 H2 H3 H4] Hi.
  assert (∀ j x, cs !! j = Some x → <[i := (rq, Begin)]> cs !! j = Some x) as Hkeep by (intros j x Hj; rewrite lookup_insert_ne; [done|congruence]).
  split.
  - intros j rq' p0 k Hl Hh. inserted. eauto.
  - intros k o Hk. destruct (H2 k o Hk) as (rq'&p0&Ho&?). eauto.
  - intros j rq' m k Hl. inserted. eauto.
  - intros j rq' k o Hl. inserted. edestruct H4 as (Hkey&rq2&p2&Ho&?&?); [done|]. eauto 8.
Qed.

(** ** Batches: who is in them, who dispatches them, what was called *)

Definition queued (p : pc) : bool :=
  match p with Begin | Registering _ _ | Joining _ _ | Looking _ _ | Counting _ _ | Queueing _ _ => false | _ => true end.

(** Between the queue and the caller's own result. *)
Definition awaits (p : pc) : bool :=
  match p with
  | Dispatching _ _ _ | Calling _ _ _ _ _ | Shadowing _ _ _ _ _ _ _ | Delivering _ _ _ _ _ _ _ | Storing _ _ _ _ _ _ _
  | Failing _ _ _ | Fanning _ _ _ _ | Waiting _ => true
  | _ => false
  end.

(** The batch a dispatcher may still call the provider for. *)
Definition calling (p : pc) : option nat :=
  match p with Dispatching _ _ b | Calling _ _ b _ _ => Some b | _ => None end.

(** A dispatcher that has yet to close its batch. *)
Definition anchors (p : pc) (b : nat) : Prop :=
  match p with Dispatching _ _ b' | Failing _ b' _ => b' = b | _ => False end.

(** The dispatcher in phase [p] will complete the future of caller [i]. *)
Definition pends (bs : gmap nat (list entry)) (p : pc) (i : nat) : Prop :=
  match p with
  | Dispatching _ _ b | Calling _ _ b _ _ | Shadowing _ _ b _ _ _ _ | Failing _ b _ => ∃ es, bs !! b = Some es ∧ i ∈ es.*1
  | Delivering _ _ _ _ _ _ todo => i ∈ todo.*1
  | Fanning _ _ _ todo => i ∈ todo
  | _ => False
  end.

Definition sealed (s : Shared) (b : nat) (es : list entry) : Prop := batches s !! b = Some es ∧ open_batch s ≠ Some b.

Definition answered (s : Shared) (b : nat) (sn : Snapshot) (vs : list (list F)) (es : list entry) (a : Z) : Prop :=
  sealed s b es ∧ sn = snapshot a es ∧ min_anchor ≤ a ∧
  {| c_batch := b; c_texts := unique_texts sn; c_purpose := purpose sn; c_vectors := vs |} ∈ calls s.

(** What a dispatcher knows. *)
Definition dispatch_ok (s : Shared) (p : pc) : Prop :=
  match p with
  | Dispatching _ _ b | Failing _ b _ => is_Some (batches s !! b)
  | Calling _ _ b sn n => (n ≤ retries)%nat ∧ ∃ es a, sealed s b es ∧ sn = snapshot a es ∧ min_anchor ≤ a
  | Shadowing _ _ b sn vs _ todo => ∃ es a, answered s b sn vs es a ∧ (length todo ≤ length es)%nat
  | Delivering _ _ b sn vs _ todo =>
      ∃ es a, answered s b sn vs es a ∧ todo ⊆ zip es.*1 (entry_keys sn) ∧ (length todo ≤ length es)%nat
  | Storing _ _ b sn vs _ todo =>
      ∃ es a, answered s b sn vs es a ∧ todo ⊆ key_to_first_idx sn ∧ (length todo ≤ length es)%nat
  | Fanning _ b _ todo => ∃ es, batches s !! b = Some es ∧ (length todo ≤ length es)%nat
  | _ => True
  end.

Definition call_ok (next : nat) (c : Call) : Prop :=
  (c_batch c < next)%nat ∧ c_texts c ≠ [] ∧ fits pv (c_texts c) ∧ Forall2 (embeds (c_purpose c)) (c_texts c) (c_vectors c).

Record batch_inv (s : Shared) (cs : callers_map) : Prop := {
  bi_entries : ∀ b es, batches s !! b = Some es →
    (b < next_batch s)%nat ∧ es ≠ [] ∧ NoDup es.*1 ∧ fits pv (texts es) ∧
    (∀ j rq, (j, rq) ∈ es → ∃ p, cs !! j = Some (rq, p) ∧ queued p = true);
  bi_open : ∀ b, open_batch s = Some b →
    (∃ es, batches s !! b = Some es ∧ open_tokens s = tokens pv (texts es)) ∧ ∃ d rq p, cs !! d = Some (rq, p) ∧ anchors p b;
  bi_pend : ∀ i rq p, cs !! i = Some (rq, p) → awaits p = true → futs s !! i = None →
    ∃ d rq' p', cs !! d = Some (rq', p') ∧ pends (batches s) p' i;
  bi_local : ∀ i rq p, cs !! i = Some (rq, p) → dispatch_ok s p;
  bi_unique : ∀ i j rq rq' p p' b, cs !! i = Some (rq, p) → cs !! j = Some (rq', p') →
    calling p = Some b → calling p' = Some b → i = j;
  bi_calling : ∀ i rq p b, cs !! i = Some (rq, p) → calling p = Some b → (b < next_batch s)%nat ∧ b ∉ c_batch <$> calls s;
  bi_nodup : NoDup (c_batch <$> calls s);
  bi_calls : ∀ c, c ∈ calls s → call_ok (next_batch s) c }.

(** What a dispatcher knows stays true while sealed batches stay and batches only grow. *)
Lemma dispatch_ok_mono s s' p :
  (∀ b es, sealed s b es → sealed s' b es) →
  (∀ b es, batches s !! b = Some es → ∃ es', batches s' !! b = Some es' ∧ (length es ≤ length es')%nat) →
  calls s ⊆ calls s' → dispatch_ok s p → dispatch_ok s' p.
Proof.
  intros Hs Hb Hc. assert (∀ b sn vs es a, answered s b sn vs es a → answered s' b sn vs es a) as Ha.
  { intros b sn vs es a (H1&H2&H3&H4). split_and!; auto. }
  destruct p; cbn; try done.
  - intros [es (es'&?&_)%Hb]. by eexists.
  - intros (Hl&es&a&H1&H2). eauto 6.
  - intros (es&a&H1&H2). eauto.
  - intros (es&a&H1&H2). eauto.
  - intros (es&a&H1&H2). eauto.
  - intros [es (es'&?&_)%Hb]. by eexists.
  - intros (es&(es'&?&?)%Hb&?). exists es'. split; [done|lia].
Qed.

(** Any move of a caller but queueing. *)
Lemma batch_move s s' cs i rq p p' :
  batch_inv s cs → cs !! i = Some (rq, p) →
  batches s' = batches s → next_batch s' = next_batch s →
  (open_batch s' = open_batch s ∧ open_tokens s' = open_tokens s ∨ open_batch s' = None) →
  (∀ j, is_Some (futs s !! j) → is_Some (futs s' !! j)) →
  (calls s' = calls s ∧ (calling p' = calling p ∨ calling p' = None) ∨
   ∃ c, calls s' = c :: calls s ∧ calling p = Some (c_batch c) ∧ calling p' = None ∧ call_ok (next_batch s) c) →
  (queued p = true → queued p' = true) → (awaits p' = true → awaits p = true) →
  (∀ j, pends (batches s) p j → futs s' !! j = None → pends (batches s) p' j) →
  (∀ b, open_batch s' = Some b → anchors p b → anchors p' b) →
  dispatch_ok s' p' → batch_inv s' (<[i := (rq, p')]> cs).
Proof.
  intros [H1 H2 H3 H4 H5 H6 H7 H8] Hi Hb Hn Ho Hf Hc Hq Haw Hpend Hanch Hok.
  assert (calling p' = calling p ∨ calling p' = None) as Hcall by (destruct Hc as [[_ ?]|(?&?&?&?&?)]; auto).
  assert (calls s ⊆ calls s') as Hsub by (destruct Hc as [[-> _]|(c&->&_)]; intros x Hx; [done|by right]).
  assert (∀ j rqj pj b, <[i := (rq, p')]> cs !! j = Some (rqj, pj) → calling pj = Some b →
    ∃ rq0 p0, cs !! j = Some (rq0, p0) ∧ calling p0 = Some b) as Hback.
  { intros j rqj pj b [[<- [= <- <-]]|[_ Hj]]%lookup_insert_Some Hcj; [|eauto]. destruct Hcall as [Hcp|Hcp]; rewrite Hcp in Hcj; [eauto|done]. }
  split.
  - intros b es Hes. rewrite Hb in Hes. destruct (H1 b es Hes) as (?&?&?&?&Hent). rewrite Hn. split_and!; try done.
    intros j rq' Hin. destruct (Hent j rq' Hin) as (p0&Hj&Hq0). destruct (still_there cs i rq p p' j rq' p0 Hi Hj) as (p1&?&Hcase).
    exists p1. split; [done|]. destruct Hcase as [[_ ->]|(->&->&->)]; auto.
  - intros b Hopen. assert (open_batch s = Some b ∧ open_tokens s' = open_tokens s) as [Hob Htok] by (destruct Ho as [[? ?]|?]; [split|]; congruence).
    destruct (H2 b Hob) as ((es&Hes&Ht)&d&rqd&pd&Hd&Hanc). split; [exists es; rewrite Hb, Htok; done|].
    destruct (still_there cs i rq p p' d rqd pd Hi Hd) as (p1&?&Hcase). exists d, rqd, p1. split; [done|].
    destruct Hcase as [[_ ->]|(->&->&->)]; auto.
  - intros j rqj pj Hj Hw Hnone.
    assert (futs s !! j = None) as Hnone' by (destruct (futs s !! j) eqn:Ej; [|done]; destruct (Hf j) as [x Hx]; [by eexists|congruence]).
    assert (∃ pj0, cs !! j = Some (rqj, pj0) ∧ awaits pj0 = true) as (pj0&Hj0&Hw0) by (inserted; eauto).
    destruct (H3 j rqj pj0 Hj0 Hw0 Hnone') as (d&rqd&pd&Hd&Hpd). rewrite Hb.
    destruct (still_there cs i rq p p' d rqd pd Hi Hd) as (p1&?&Hcase). exists d, rqd, p1. split; [done|].
    destruct Hcase as [[_ ->]|(->&->&->)]; auto.
  - intros j rqj pj Hj. inserted; [done|]. apply (dispatch_ok_mono s); [|rewrite Hb; eauto|done|by eapply H4].
    intros b es [Hbs Hne]. split; [by rewrite Hb|]. destruct Ho as [[-> _]| ->]; done.
  - intros j j' rq1 rq2 p1 p2 b Hj1 Hj2 Hc1 Hc2. destruct (Hback _ _ _ _ Hj1 Hc1) as (?&?&?&?), (Hback _ _ _ _ Hj2 Hc2) as (?&?&?&?).
    by eapply H5.
  - intros j rqj pj b Hj Hcj. rewrite Hn. destruct (Hback _ _ _ _ Hj Hcj) as (rq0&p0&Hj0&Hc0). destruct (H6 _ _ _ _ Hj0 Hc0) as [? Hni].
    split; [done|]. destruct Hc as [[-> _]|(c&->&Hcp&Hcp'&_)]; [done|]. cbn. apply not_elem_of_cons. split; [|done].
    intros ->. assert (i = j) as <- by (eapply H5; eauto). rewrite lookup_insert_eq in Hj. congruence.
  - destruct Hc as [[-> _]|(c&->&Hcp&_&_)]; [done|]. cbn. constructor; [|done]. by eapply H6.
  - intros c Hin. rewrite Hn. destruct Hc as [[Hcs _]|(c'&Hcs&_&_&Hok')]; rewrite Hcs in Hin; [auto|].
    apply elem_of_cons in Hin as [->|Hin]; auto.
Qed.

(** What queueing does: the entry starts a batch of its own or joins the open one, which
    then may be sealed. *)
Lemma seal_if_full_spec cap o n next bs s :
  ∃ o' n', _seal_if_full cap (with_batches (Some o) n next bs s) = with_batches o' n' next bs s ∧ (o' = None ∨ o' = Some o ∧ n' = n).
Proof. unfold _seal_if_full. cbn. destruct (_ || _); [exists None, 0|exists (Some o), n]; split; auto. Qed.

Lemma enqueue_spec live e s cs s' b mine :
  batch_inv s cs →
  _enqueue (effective_texts_cap pv static live) e (count_tokens pv (rq_text e.2)) s = (s', b, mine) →
  ∃ es o n next,
    s' = with_batches o n next (<[b := es ++ [e]]> (batches s)) s ∧
    (mine = true ∧ b = next_batch s ∧ es = [] ∧ next = S (next_batch s) ∨
     mine = false ∧ open_batch s = Some b ∧ batches s !! b = Some es ∧ next = next_batch s) ∧
    (o = None ∨ o = Some b ∧ n = tokens pv (texts (es ++ [e]))) ∧ fits pv (texts (es ++ [e])).
Proof.
  intros Hinv. set (n0 := count_tokens pv (rq_text e.2)). set (cap := effective_texts_cap pv static live).
  assert (∀ s1 b1 m1, (_seal_if_full cap (new_batch e n0 s), next_batch s, true) = (s1, b1, m1) → ∃ es o n next,
    s1 = with_batches o n next (<[b1 := es ++ [e]]> (batches s)) s ∧
    (m1 = true ∧ b1 = next_batch s ∧ es = [] ∧ next = S (next_batch s) ∨
     m1 = false ∧ open_batch s = Some b1 ∧ batches s !! b1 = Some es ∧ next = next_batch s) ∧
    (o = None ∨ o = Some b1 ∧ n = tokens pv (texts (es ++ [e]))) ∧ fits pv (texts (es ++ [e]))) as Hnew.
  { intros s1 b1 m1 [= <- <- <-]. unfold new_batch. destruct (seal_if_full_spec cap (next_batch s) n0 (S (next_batch s)) (<[next_batch s := [e]]> (batches s)) s) as (o&n&->&Ho).
    exists [], o, n, (S (next_batch s)). split_and!; [done|by left| |by left]. destruct Ho as [?|[? ->]]; [by left|right]. split; [done|].
    unfold tokens, texts, n0. cbn. lia. }
  unfold _enqueue. destruct (open_batch s) as [b0|] eqn:Eo; [|by apply Hnew]. destruct (_ && _) eqn:Ec; [|by apply Hnew].
  apply andb_true_iff in Ec as [Hlen%Z.ltb_lt Htok%Z.leb_le]. destruct (bi_open _ _ Hinv b0 Eo) as ((es&Hes&Ht)&_).
  unfold join_batch. rewrite Hes in *. cbn [from_option id] in *. intros [= <- <- <-].
  destruct (seal_if_full_spec cap b0 (open_tokens s + n0) (next_batch s) (<[b0 := es ++ [e]]> (batches s)) s) as (o&n&->&Ho).
  assert (tokens pv (texts (es ++ [e])) = open_tokens s + n0) as Etok.
  { unfold texts. rewrite fmap_app, tokens_app. fold (texts es). rewrite Ht. unfold tokens, n0. cbn. lia. }
  exists es, o, n, (next_batch s). split_and!; [done|by right| |].
  - rewrite Etok. destruct Ho as [?|[? ->]]; auto.
  - right. split; [lia|]. unfold texts. rewrite length_fmap, length_app. cbn.
    unfold cap, effective_texts_cap, _resolve_texts_cap, _resolve_provider_texts_cap in Hlen.
    destruct (texts_per_request pv); [|done]. destruct live; lia.
Qed.

(** *** Queueing *)
Section queueing.
Context (s : Shared) (cs : callers_map) (i : nat) (rq : Request) (b : nat) (es : list entry) (o : option nat) (n : Z) (next : nat) (p0 p' : pc).

Definition queued_shared : Shared := with_batches o n next (<[b := es ++ [(i, rq)]]> (batches s)) s.

Record enqueued : Prop := {
  eq_inv : batch_inv s cs;
  eq_here : cs !! i = Some (rq, p0);
  eq_before : queued p0 = false;
  eq_batch : b = next_batch s ∧ es = [] ∧ next = S (next_batch s) ∧ (∃ m own, p' = Dispatching m own b) ∨
             open_batch s = Some b ∧ batches s !! b = Some es ∧ next = next_batch s ∧ (∃ own, p' = Waiting own);
  eq_open : o = None ∨ o = Some b ∧ n = tokens pv (texts (es ++ [(i, rq)]));
  eq_fits : fits pv (texts (es ++ [(i, rq)])) }.

Context (Hq : enqueued).

Lemma enqueued_next : (next_batch s ≤ next)%nat ∧ (b < next)%nat.
Proof using Hq.
  destruct (eq_batch Hq) as [(->&_&->&_)|(_&Hb&->&_)]; [lia|]. split; [done|]. by destruct (bi_entries _ _ (eq_inv Hq) _ _ Hb).
Qed.

(** A batch of before is as it was, or it is the open one that has grown. *)
Lemma enqueued_old b0 es0 : batches s !! b0 = Some es0 →
  b0 ≠ b ∧ batches queued_shared !! b0 = Some es0 ∨ b0 = b ∧ es0 = es ∧ open_batch s = Some b.
Proof using Hq.
  intros Hb0. destruct (decide (b0 = b)) as [->|Hne]; [right|left; cbn; by rewrite lookup_insert_ne].
  destruct (eq_batch Hq) as [(->&_)|(?&?&_)]; [destruct (bi_entries _ _ (eq_inv Hq) _ _ Hb0); lia|]. split_and!; congruence.
Qed.

Lemma enqueued_grow b0 es0 : batches s !! b0 = Some es0 → ∃ tail, batches queued_shared !! b0 = Some (es0 ++ tail).
Proof using Hq.
  intros [[_ ?]|(->&->&_)]%enqueued_old; [exists []; by rewrite app_nil_r|]. exists [(i, rq)]. cbn. by rewrite lookup_insert_eq.
Qed.

Lemma enqueued_sealed b0 es0 : sealed s b0 es0 → sealed queued_shared b0 es0.
Proof using Hq.
  intros [Hb0 Hop]. destruct (enqueued_old b0 es0 Hb0) as [[Hne ?]|(->&_&?)]; [|done]. split; [done|]. cbn.
  destruct (eq_open Hq) as [->|[-> _]]; congruence.
Qed.

Lemma enqueued_still j rqj pj : cs !! j = Some (rqj, pj) →
  ∃ p1, <[i := (rq, p')]> cs !! j = Some (rqj, p1) ∧ (p1 = pj ∨ pj = p0 ∧ p1 = p').
Proof using Hq.
  intros Hj. destruct (still_there cs i rq p0 p' j rqj pj (eq_here Hq) Hj) as (p1&?&Hc). exists p1. split; [done|].
  destruct Hc as [[_ ->]|(_&->&->)]; auto.
Qed.

Lemma before_queue p : queued p = false → calling p = None ∧ (∀ b0, ¬ anchors p b0) ∧ (∀ bs j, ¬ pends bs p j).
Proof. destruct p; try done; intros _; (split_and!; [done|by intros ? []|by intros ?? []]). Qed.

(** In the new state somebody will complete the future of the caller who queued. *)
Lemma enqueued_pending : ∃ d rqd pd, <[i := (rq, p')]> cs !! d = Some (rqd, pd) ∧ pends (batches queued_shared) pd i ∧ (∀ b0, o = Some b0 → anchors pd b0).
Proof using Hq.
  assert (∃ es0, batches queued_shared !! b = Some es0 ∧ i ∈ es0.*1) as Hin.
  { cbn. rewrite lookup_insert_eq. eexists. split; [done|]. rewrite fmap_app. apply elem_of_app. right. by apply list_elem_of_singleton. }
  assert (∀ b0, o = Some b0 → b0 = b) as Ho by (intros b0 ->; destruct (eq_open Hq) as [?|[? _]]; congruence).
  destruct (eq_batch Hq) as [(_&_&_&m&own&->)|(Hob&_&_&_)].
  - eexists i, rq, _. rewrite lookup_insert_eq. split_and!; [done|done|]. intros b0 ->%Ho. done.
  - destruct (bi_open _ _ (eq_inv Hq) b Hob) as (_&d&rqd&pd&Hd&Hanc). destruct (enqueued_still d rqd pd Hd) as (p1&?&Hx). exists d, rqd, p1.
    destruct (before_queue p0 (eq_before Hq)) as (_&Hna&_).
    destruct Hx as [->|[-> _]]; [|by destruct (Hna b)]. split_and!; [done| |by intros b0 ->%Ho].
    destruct pd; try done; cbn [pends anchors] in *; by subst.
Qed.

Lemma enqueued_calling j rqj pj b0 : <[i := (rq, p')]> cs !! j = Some (rqj, pj) → calling pj = Some b0 →
  j = i ∧ b0 = b ∧ b = next_batch s ∨ cs !! j = Some (rqj, pj).
Proof using Hq.
  intros [[<- [= <- <-]]|[_ Hj]]%lookup_insert_Some Hc; [left|by right].
  destruct (eq_batch Hq) as [(->&_&_&m&own&->)|(_&_&_&own&->)]; [|done]. by injection Hc as <-.
Qed.

Lemma enqueued_entries b0 es0 : batches queued_shared !! b0 = Some es0 →
  (b0 < next)%nat ∧ es0 ≠ [] ∧ NoDup es0.*1 ∧ fits pv (texts es0) ∧
  (∀ j rqj, (j, rqj) ∈ es0 → ∃ p, <[i := (rq, p')]> cs !! j = Some (rqj, p) ∧ queued p = true).
Proof using Hq.
  pose proof (eq_inv Hq) as Hinv. destruct enqueued_next as [Hn1 Hn2].
  assert (∀ (l : list entry) j rqj, (∀ j rqj, (j, rqj) ∈ l → ∃ p, cs !! j = Some (rqj, p) ∧ queued p = true) → (j, rqj) ∈ l →
    j ≠ i ∧ ∃ p, <[i := (rq, p')]> cs !! j = Some (rqj, p) ∧ queued p = true) as Hkeep.
  { intros l j rqj Hl Hin. destruct (Hl j rqj Hin) as (p&Hp&Hqp). assert (j ≠ i) as Hne.
    { intros ->. rewrite (eq_here Hq) in Hp. injection Hp as <- <-. by rewrite (eq_before Hq) in Hqp. }
    split; [done|]. exists p. by rewrite lookup_insert_ne. }
  cbn. intros [[<- <-]|[Hne Hb0]]%lookup_insert_Some.
  - assert (NoDup es.*1 ∧ ∀ j rqj, (j, rqj) ∈ es → ∃ p, cs !! j = Some (rqj, p) ∧ queued p = true) as [Hnd Hent].
    { destruct (eq_batch Hq) as [(_&->&_)|(_&Hes&_)]; [split; [constructor|by intros ?? ?%elem_of_nil]|].
      by destruct (bi_entries _ _ Hinv b es Hes) as (_&_&?&_&?). }
    split_and!; [done|by destruct es| |apply (eq_fits Hq)|].
    + rewrite fmap_app. apply NoDup_app. split_and!; [done| |apply NoDup_singleton].
      intros x ([j rqj]&->&Hin)%list_elem_of_fmap Hx'. apply list_elem_of_singleton in Hx'. by destruct (Hkeep es j rqj Hent Hin).
    + intros j rqj [Hin|Hin]%elem_of_app; [by eapply Hkeep|]. apply list_elem_of_singleton in Hin as [= -> ->]. exists p'. rewrite lookup_insert_eq.
      split; [done|]. by destruct (eq_batch Hq) as [(_&_&_&m&own&->)|(_&_&_&own&->)].
  - destruct (bi_entries _ _ Hinv b0 es0 Hb0) as (?&?&?&?&Hent). split_and!; [lia|done..|]. intros j rqj Hin. by eapply Hkeep.
Qed.

Lemma batch_enqueued : batch_inv queued_shared (<[i := (rq, p')]> cs).
Proof using Hq.
  pose proof (eq_inv Hq) as [H1 H2 H3 H4 H5 H6 H7 H8]. destruct enqueued_next as [Hn1 Hn2]. split.
  - apply enqueued_entries.
  - intros b0 Hb0. destruct enqueued_pending as (d&rqd&pd&Hd&_&Hanc). split; [|exists d, rqd, pd; auto].
    cbn in Hb0. destruct (eq_open Hq) as [?|[? Htok]]; [congruence|]. assert (b0 = b) as -> by congruence. cbn. rewrite lookup_insert_eq. by eexists.
  - intros j rqj pj Hj Hw Hnone. destruct (decide (j = i)) as [->|Hne]; [destruct enqueued_pending as (d&rqd&pd&?&?&_); eauto|].
    rewrite lookup_insert_ne in Hj by done. destruct (H3 j rqj pj Hj Hw Hnone) as (d&rqd&pd&Hd&Hpd).
    destruct (enqueued_still d rqd pd Hd) as (p1&?&Hx). exists d, rqd, p1. split; [done|].
    destruct Hx as [->|[-> _]]; [|by edestruct (before_queue p0 (eq_before Hq)) as (_&_&[])].
    assert (∀ b0, (∃ es0, batches s !! b0 = Some es0 ∧ j ∈ es0.*1) → ∃ es0, batches queued_shared !! b0 = Some es0 ∧ j ∈ es0.*1) as Hex.
    { intros b0 (es0&(tail&?)%enqueued_grow&Hin). exists (es0 ++ tail). split; [done|]. rewrite fmap_app. apply elem_of_app. by left. }
    destruct pd; cbn [pends] in *; auto.
  - intros j rqj pj [[<- [= <- <-]]|[_ Hj]]%lookup_insert_Some.
    + destruct (eq_batch Hq) as [(_&_&_&m&own&->)|(_&_&_&own&->)]; [|done]. cbn. rewrite lookup_insert_eq. by eexists.
    + apply (dispatch_ok_mono s); [apply enqueued_sealed| |done|by eapply H4].
      intros b0 es0 (tail&?)%enqueued_grow. exists (es0 ++ tail). split; [done|]. rewrite length_app. lia.
  - intros j j' rq1 rq2 p1 p2 b0 Hj1 Hj2 Hc1 Hc2.
    destruct (enqueued_calling _ _ _ _ Hj1 Hc1) as [(->&->&Hb)|Hj1'], (enqueued_calling _ _ _ _ Hj2 Hc2) as [(->&Hb0&Hb')|Hj2']; [done|..].
    + destruct (H6 _ _ _ _ Hj2' Hc2). lia.
    + destruct (H6 _ _ _ _ Hj1' Hc1). lia.
    + by eapply H5.
  - intros j rqj pj b0 Hj Hc. cbn. destruct (enqueued_calling _ _ _ _ Hj Hc) as [(->&->&Hb)|Hj'].
    + split; [done|]. intros (c&Hcb&Hin)%list_elem_of_fmap. destruct (H8 c Hin) as [? _]. lia.
    + destruct (H6 _ _ _ _ Hj' Hc). split; [lia|done].
  - done.
  - cbn. intros c Hin. destruct (H8 c Hin) as (?&?). split; [lia|done].
Qed.
End queueing.

Lemma batch_enqueue s cs i rq m own live s' b mine :
  batch_inv s cs → cs !! i = Some (rq, Queueing m own) →
  _enqueue (effective_texts_cap pv static live) (i, rq) (count_tokens pv (rq_text rq)) s = (s', b, mine) →
  batch_inv s' (<[i := (rq, if mine then Dispatching m own b else Waiting own)]> cs).
Proof.
  intros Hinv Hi He. destruct (enqueue_spec live (i, rq) s cs s' b mine Hinv He) as (es&o&n&next&->&Hcase&Ho&Hfit).
  apply (batch_enqueued s cs i rq b es o n next (Queueing m own)). split; try done.
  destruct Hcase as [(->&->&->&->)|(->&?&?&->)]; [left|right]; eauto 8.
Qed.

(** *** The other moves *)

Lemma close_frame b s :
  batches (close b s) = batches s ∧ next_batch (close b s) = next_batch s ∧ futs (close b s) = futs s ∧ calls (close b s) = calls s ∧
  (open_batch (close b s) = open_batch s ∧ open_tokens (close b s) = open_tokens s ∨ open_batch (close b s) = None) ∧
  open_batch (close b s) ≠ Some b.
Proof. unfold close. case_decide; cbn; split_and!; auto. Qed.

Lemma close_sealed b s es : batches s !! b = Some es → sealed (close b s) b es.
Proof. intros Hb. destruct (close_frame b s) as (Heq&_&_&_&_&Hne). split; [by rewrite Heq|done]. Qed.

(** Every entry of the batch has a key. *)
Lemma zip_entries anchor es : (zip es.*1 (entry_keys (snapshot anchor es))).*1 = es.*1.
Proof.
  apply fst_zip. destruct (snapshot_spec anchor es) as [-> _ _ _ _ _]. unfold texts. by rewrite !length_fmap.
Qed.

Lemma length_keys anchor es : (length (key_to_first_idx (snapshot anchor es)) ≤ length es)%nat.
Proof.
  destruct (snapshot_spec anchor es) as [_ Hsub Hlen _ _ _]. rewrite Hlen. apply sublist_length in Hsub. unfold texts in Hsub. by rewrite length_fmap in Hsub.
Qed.

(** The phases before the queue and after the result. *)
Lemma batch_outside s s' cs i rq p p' :
  batch_inv s cs → cs !! i = Some (rq, p) →
  batches s' = batches s → next_batch s' = next_batch s → open_batch s' = open_batch s → open_tokens s' = open_tokens s →
  futs s' = futs s → calls s' = calls s →
  calling p' = None → (queued p = true → queued p' = true) → awaits p' = false →
  (∀ bs j, ¬ pends bs p j) → (∀ b, ¬ anchors p b) → batch_inv s' (<[i := (rq, p')]> cs).
Proof.
  intros Hinv Hi Hb Hn Ho Ht Hf Hc Hcall Hq Haw Hp Ha.
  apply (batch_move s s' cs i rq p p'); try done; auto.
  - by rewrite Hf.
  - intros Hw. by rewrite Haw in Hw.
  - intros j Hj. by destruct (Hp _ _ Hj).
  - intros b _ Hb'. by destruct (Ha _ Hb').
  - destruct p'; try done; cbn in *; try done.
Qed.

Context (pv_sane : sane pv).

(** Sealing keeps [close b s] within what [batch_move] allows. *)
Lemma batch_close s cs i rq p p' b :
  batch_inv s cs → cs !! i = Some (rq, p) → (calling p' = calling p ∨ calling p' = None) → (queued p = true → queued p' = true) →
  (awaits p' = true → awaits p = true) → (∀ j, pends (batches s) p j → pends (batches s) p' j) →
  (∀ b', open_batch (close b s) = Some b' → anchors p b' → anchors p' b') → dispatch_ok (close b s) p' →
  batch_inv (close b s) (<[i := (rq, p')]> cs).
Proof.
  intros Hinv Hi Hc Hq Ha Hp Hanc Hok. destruct (close_frame b s) as (H1&H2&H3&H4&H5&_).
  apply (batch_move s _ cs i rq p p' Hinv Hi); rewrite ?H1, ?H2, ?H3, ?H4; auto.
Qed.

Lemma batch_stay s cs i rq p p' :
  batch_inv s cs → cs !! i = Some (rq, p) → (calling p' = calling p ∨ calling p' = None) → (queued p = true → queued p' = true) →
  (awaits p' = true → awaits p = true) → (∀ j, pends (batches s) p j → pends (batches s) p' j) →
  (∀ b, anchors p b → anchors p' b) → dispatch_ok s p' → batch_inv s (<[i := (rq, p')]> cs).
Proof. intros Hinv Hi Hc Hq Ha Hp Hanc Hok. apply (batch_move s s cs i rq p p' Hinv Hi); auto. Qed.

Lemma batch_answer s cs i rq m own b sn n vs :
  batch_inv s cs → cs !! i = Some (rq, Calling m own b sn n) → Forall2 (embeds (purpose sn)) (unique_texts sn) vs →
  batch_inv (with_calls ({| c_batch := b; c_texts := unique_texts sn; c_purpose := purpose sn; c_vectors := vs |} :: calls s) s)
    (<[i := (rq, Shadowing m own b sn vs ∅ (if decide (m = Some _MODE_SHADOW) then (key_to_first_idx sn).*1 else []))]> cs).
Proof using pv_sane.
  intros Hinv Hi Hvs. destruct (bi_local _ _ Hinv i _ _ Hi) as (_&es&a&Hseal&->&Ha). destruct (bi_entries _ _ Hinv b es (proj1 Hseal)) as (Hb&Hne&_&Hfit&_).
  eapply (batch_move s _ cs i rq _ _ Hinv Hi); cbn [batches next_batch open_batch open_tokens futs calls with_calls]; try done; auto.
  - right. eexists. split; [done|]. split_and!; [done..|]. split_and!; cbn; [done|by apply snapshot_nonempty| |done].
    eapply fits_sublist; [done|apply (so_sub _ _ _ _ _ (snapshot_spec a es))|done].
  - exists es, a. split; [split_and!; [done..|by left]|]. case_decide; [|cbn; lia]. rewrite length_fmap. apply length_keys.
Qed.

(** Between queueing and the caller's own result. *)
Definition dispatching (p : pc) : bool := awaits p && match p with Waiting _ => false | _ => true end.

Lemma batch_dispatch s cs i rq p s' p' :
  batch_inv s cs → cs !! i = Some (rq, p) → moves i rq s p s' p' → dispatching p = true → batch_inv s' (<[i := (rq, p')]> cs).
Proof using pv_sane.
  intros Hinv Hi Hm Hd. pose proof (bi_local _ _ Hinv i rq p Hi) as Hloc. destruct Hm; try done.
  - eapply (batch_stay s cs i rq); eauto.
  - eapply (batch_close s cs i rq); eauto. cbn. destruct (close_frame b s) as (->&_). done.
  - eapply (batch_close s cs i rq); eauto.
    + cbn. intros b' Hb' ->. destruct (close_frame b' s) as (_&_&_&_&_&?). done.
    + split; [done|]. exists es, a. split; [by apply close_sealed|done].
  - eapply (batch_stay s cs i rq); eauto. destruct Hloc as [Hl ?]. split; [lia|done].
  - destruct Hloc as (_&es&a&[Hb _]&_). eapply (batch_stay s cs i rq); eauto; [by intros ? []|by eexists].
  - destruct Hloc as (_&es&a&[Hb _]&_). eapply (batch_stay s cs i rq); eauto; [by intros ? []|by eexists].
  - by eapply batch_answer.
  - eapply (batch_stay s cs i rq); eauto. destruct Hloc as (es&a&Hans&Hl). exists es, a. split; [done|]. cbn in Hl. lia.
  - destruct Hloc as (es'&a&Hans&Hl). pose proof Hans as ([Hb _]&->&_). assert (es' = es) as -> by congruence.
    eapply (batch_stay s cs i rq); eauto.
    + cbn. intros j (es0&Hes0&Hj). rewrite zip_entries. congruence.
    + exists es, a. split_and!; [done..|]. rewrite length_zip_with. rewrite length_fmap. lia.
  - destruct Hloc as (es&a&Hans&Hsub&Hl). eapply (batch_move s _ cs i rq _ _ Hinv Hi); cbn; try done; auto.
    + intros x Hx. rewrite lookup_insert_is_Some'. by right.
    + intros x [->|Hx]%elem_of_cons Hn; [by rewrite lookup_insert_eq in Hn|done].
    + exists es, a. cbn in Hl. split_and!; [done| |lia]. intros x Hx. apply Hsub. by right.
  - destruct Hloc as (es&a&Hans&Hsub&Hl). pose proof Hans as ([Hb _]&->&_). eapply (batch_stay s cs i rq); eauto.
    + intros x Hx. exists es. split; [done|]. rewrite <-(zip_entries a es). cbn in Hx.
      change (j :: todo.*1) with (((j, k) :: todo).*1) in Hx. apply list_elem_of_fmap in Hx as (y&->&Hy). apply list_elem_of_fmap. eauto.
    + by intros ? [].
    + by eexists.
  - destruct Hloc as (es&a&Hans&_). pose proof Hans as (_&->&_). eapply (batch_stay s cs i rq); eauto; [by intros ? ?%elem_of_nil|].
    exists es, a. split; [done|]. case_match; [|split; [by intros ? ?%elem_of_nil|cbn; lia]]. split; [done|apply length_keys].
  - destruct Hloc as (es&a&Hans&Hsub&Hl). eapply (batch_move s _ cs i rq _ _ Hinv Hi); cbn; try done; auto.
    exists es, a. cbn in Hl. split_and!; [done| |lia]. intros x Hx. apply Hsub. by right.
  - eapply (batch_stay s cs i rq); eauto; try done; by intros ? [].
  - eapply (batch_close s cs i rq); eauto.
    + intros j (es0&Hes0&Hj). cbn. congruence.
    + intros b' Hb' ->. destruct (close_frame b' s) as (_&_&_&_&_&?). done.
    + exists es. split; [by apply close_sealed|]. by rewrite length_fmap.
  - destruct Hloc as (es&Hb&Hl). eapply (batch_move s _ cs i rq _ _ Hinv Hi); cbn; try done; auto.
    + intros x Hx. destruct (futs s !! j); [done|]. rewrite lookup_insert_is_Some'. by right.
    + intros x [->|Hx]%elem_of_cons Hn; [|done]. destruct (futs s !! j) eqn:Ej; [congruence|by rewrite lookup_insert_eq in Hn].
    + exists es. split; [done|]. cbn in Hl. lia.
  - eapply (batch_stay s cs i rq); eauto; try done; by intros ? ?%elem_of_nil.
Qed.

Lemma batch_moves s cs i rq p s' p' :
  batch_inv s cs → cs !! i = Some (rq, p) → moves i rq s p s' p' → batch_inv s' (<[i := (rq, p')]> cs).
Proof using pv_sane.
  intros Hinv Hi Hm.
  assert (∀ q', (∀ bs j, ¬ pends bs p j) → (∀ b, ¬ anchors p b) → calling q' = None → (queued p = true → queued q' = true) → awaits q' = false →
    batch_inv s (<[i := (rq, q')]> cs)) as Hout by (intros q' ?????; by apply (batch_outside s s cs i rq p q')).
  destruct (dispatching p) eqn:Hd; [by eapply batch_dispatch|].
  destruct Hm; try done; try (apply Hout; [by intros ?? []|by intros ? []|done..]).
  - apply Hout; [by intros ?? []|by intros ? []|..]; unfold first_phase; repeat case_match; done.
  - unfold register. destruct (inflight s !! k); [apply Hout; [by intros ?? []|by intros ? []|done..]|].
    eapply (batch_outside s _ cs i rq); [done..|by intros ?? []|by intros ? []].
  - unfold look. case_decide; [|apply Hout; [by intros ?? []|by intros ? []|done..]].
    destruct (_ ≫= _); [|apply Hout; [by intros ?? []|by intros ? []|done..]]. eapply (batch_outside s _ cs i rq); [done..|by intros ?? []|by intros ? []].
  - by eapply batch_enqueue.
  - apply Hout; [by intros ?? []|by intros ? []|..]; by destruct own, r as [[? ?]|].
  - eapply (batch_outside s _ cs i rq); [done..|by intros ?? []|by intros ? []].
  - eapply (batch_outside s _ cs i rq); [done..|by intros ?? []|by intros ? []].
  - eapply (batch_outside s _ cs i rq); [done..|by intros ?? []|by intros ? []].
Qed.

(** ** Values: where every answer comes from *)

(** An answer with a batch id is the vector the provider gave, in the call of that batch,
    for a text like the caller's; one without was stored for such a text, or given for
    one in shadow mode. *)
Definition sourced (cs : list Call) (t : text) (v : list F) (m : Meta) : Prop :=
  match live_batch_id m with
  | Some b => ∃ c j t', c ∈ cs ∧ c_batch c = b ∧ c_texts c !! j = Some t' ∧ c_vectors c !! j = Some v ∧ alike t t'
  | None => ∃ t' p v0, alike t t' ∧ embeds p t' v0 ∧ (v = v0 ∨ v = rounded to_f4 of_f4 v0)
  end.

Lemma sourced_mono cs cs' t v m : cs ⊆ cs' → sourced cs t v m → sourced cs' t v m.
Proof.
  intros Hsub. unfold sourced. destruct (live_batch_id m); [|done]. intros (c&j&t'&Hc&?). exists c, j, t'. split; [by apply Hsub|done].
Qed.

Lemma sourced_alike cs t t0 v m m' : live_batch_id m' = live_batch_id m → alike t0 t → sourced cs t v m → sourced cs t0 v m'.
Proof.
  intros Hm Ha. unfold sourced. rewrite Hm. destruct (live_batch_id m).
  - intros (c&j&t'&?&?&?&?&?). exists c, j, t'. split_and!; try done. by etrans.
  - intros (t'&p&v0&?&?&?). exists t', p, v0. split_and!; try done. by etrans.
Qed.

(** The answer a caller has in hand. *)
Definition carries (p : pc) : option (list F * Meta) :=
  match p with
  | Filling _ v m => Some (v, m)
  | Completing _ r | Popping _ r | Done r => match r with Ok a => Some a | Err _ => None end
  | _ => None
  end.

(** After filling in the batch id; after completing the owner's future. *)
Definition past (p : pc) : bool := match p with Completing _ _ | Popping _ _ | Done _ => true | _ => false end.
Definition post (p : pc) : bool := match p with Popping _ _ | Done _ => true | _ => false end.

Definition slot (s : Shared) (i : nat) : option nat := default None (live_ids s !! i).

Record value_inv (s : Shared) (cs : callers_map) : Prop := {
  vi_rows : rows_justified (cache s);
  vi_hand : ∀ i rq p v m, cs !! i = Some (rq, p) → carries p = Some (v, m) → sourced (calls s) (rq_text rq) v m;
  vi_futs : ∀ i v m, futs s !! i = Some (Ok (v, m)) → ∃ rq p, cs !! i = Some (rq, p) ∧ sourced (calls s) (rq_text rq) v m;
  vi_owned : ∀ i v m, owned s !! i = Some (Ok (v, m)) →
    ∃ rq p, cs !! i = Some (rq, p) ∧ sourced (calls s) (rq_text rq) v m ∧ post p = true ∧ slot s i = live_batch_id m;
  vi_filled : ∀ i, is_Some (live_ids s !! i) → ∃ rq p, cs !! i = Some (rq, p) ∧ past p = true;
  vi_complete : ∀ i rq k v m, cs !! i = Some (rq, Completing k (Ok (v, m))) → slot s i = live_batch_id m;
  vi_popping : ∀ i rq k r, cs !! i = Some (rq, Popping k r) → owned s !! i = Some r }.

Lemma value_move s s' cs i rq p p' :
  value_inv s cs → cs !! i = Some (rq, p) → rows_justified (cache s') → calls s ⊆ calls s' →
  (∀ v m, carries p' = Some (v, m) → sourced (calls s') (rq_text rq) v m) →
  (∀ j v m, futs s' !! j = Some (Ok (v, m)) → futs s !! j = Some (Ok (v, m)) ∨
     ∃ rqj pj, cs !! j = Some (rqj, pj) ∧ sourced (calls s') (rq_text rqj) v m) →
  (∀ j, j ≠ i → owned s' !! j = owned s !! j ∧ live_ids s' !! j = live_ids s !! j) →
  (∀ v m, owned s' !! i = Some (Ok (v, m)) → sourced (calls s') (rq_text rq) v m ∧ post p' = true ∧ slot s' i = live_batch_id m) →
  (is_Some (live_ids s' !! i) → past p' = true) →
  (∀ k v m, p' = Completing k (Ok (v, m)) → slot s' i = live_batch_id m) →
  (∀ k r, p' = Popping k r → owned s' !! i = Some r) →
  value_inv s' (<[i := (rq, p')]> cs).
Proof.
  intros [H1 H2 H3 H4 H5 H6 H7] Hi Hrows Hsub Hhand Hfut Hoff Hown Hlive Hcom Hpop.
  assert (∀ j, j ≠ i → slot s' j = slot s j) as Hslot by (intros j Hj; unfold slot; by destruct (Hoff j Hj) as [_ ->]).
  split.
  - done.
  - intros j rqj pj v m Hj Hc. inserted; [by apply Hhand|]. eapply sourced_mono; [done|by eapply H2].
  - intros j v m Hj. assert (∃ rqj pj, cs !! j = Some (rqj, pj) ∧ sourced (calls s') (rq_text rqj) v m) as (rqj&pj&Hcj&Hs).
    { destruct (Hfut j v m Hj) as [Hold|?]; [|done]. destruct (H3 j v m Hold) as (rqj&pj&?&?). exists rqj, pj. split; [done|by eapply sourced_mono]. }
    destruct (still_there cs i rq p p' j rqj pj Hi Hcj) as (p1&?&_). eauto.
  - intros j v m Hj. destruct (decide (j = i)) as [->|Hne].
    + destruct (Hown v m Hj) as (?&?&?). exists rq, p'. by rewrite lookup_insert_eq.
    + destruct (Hoff j Hne) as [Ho _]. rewrite Ho in Hj. destruct (H4 j v m Hj) as (rqj&pj&?&?&?&?). exists rqj, pj.
      rewrite lookup_insert_ne, Hslot by done. split_and!; [done|by eapply sourced_mono|done..].
  - intros j Hj. destruct (decide (j = i)) as [->|Hne]; [exists rq, p'; rewrite lookup_insert_eq; auto|].
    destruct (Hoff j Hne) as [_ Hl]. rewrite Hl in Hj. rewrite lookup_insert_ne by done. auto.
  - intros j rqj k v m Hj. inserted; [by eapply Hcom|]. rewrite Hslot by done. by eapply H6.
  - intros j rqj k r Hj. inserted; [by eapply Hpop|]. destruct (Hoff j) as [-> _]; [done|]. by eapply H7.
Qed.

(** Moves that touch neither the owners' futures nor their batch ids. *)
Lemma value_quiet s s' cs i rq p p' :
  value_inv s cs → cs !! i = Some (rq, p) → past p = false → rows_justified (cache s') → calls s ⊆ calls s' →
  owned s' = owned s → live_ids s' = live_ids s →
  (∀ v m, carries p' = Some (v, m) → sourced (calls s') (rq_text rq) v m) →
  (∀ j v m, futs s' !! j = Some (Ok (v, m)) → futs s !! j = Some (Ok (v, m)) ∨
     ∃ rqj pj, cs !! j = Some (rqj, pj) ∧ sourced (calls s') (rq_text rqj) v m) →
  (∀ k v m, p' = Completing k (Ok (v, m)) → live_batch_id m = None) → (∀ k r, p' ≠ Popping k r) →
  value_inv s' (<[i := (rq, p')]> cs).
Proof.
  intros Hinv Hi Hp Hrows Hsub Ho Hl Hhand Hfut Hcom Hpop. pose proof Hinv as [_ _ _ H4 H5 _ _].
  assert (live_ids s !! i = None) as Hnl.
  { destruct (live_ids s !! i) eqn:El; [|done]. destruct (H5 i) as (rq'&p1&Hi'&Hpast); [by eexists|]. congruence. }
  eapply (value_move s s' cs i rq p p'); try done; rewrite ?Ho, ?Hl; auto.
  - intros v m Hv. destruct (H4 i v m Hv) as (rq'&p1&Hi'&_&Hpost&_). rewrite Hi in Hi'. injection Hi' as <- <-. by destruct p.
  - intros [x Hx]. congruence.
  - intros k v m Hk. unfold slot. rewrite Hl, Hnl. cbn. symmetry. by eapply Hcom.
  - intros k r Hk. by destruct (Hpop k r).
Qed.

Context (f4_width : ∀ x, (to_f4 x < 4294967296)%N).

Lemma store_justified s cs b sn vs es a k j m env env' hits c :
  batch_inv s cs → answered s b sn vs es a → (k, j) ∈ key_to_first_idx sn → rows_justified c →
  rows_justified (store env env' m sn vs hits k c).
Proof using f4_width.
  intros Hinv (Hseal&->&Ha&Hcall) Hin Hc. unfold store. destruct (over_cap k) eqn:Hov; [done|].
  assert (rows_justified (record_hit env' k q c)) as Hhit.
  { intros key blob. rewrite record_hit_lookup. apply Hc. }
  assert (rows_justified (record_miss_or_shadow to_f4 svc env' k q (vector_of (snapshot a es) vs k) c)) as Hmiss.
  { intros key blob. unfold Table.lookup. intros (r&Hr&->)%fmap_Some.
    destruct (record_rows to_f4 svc env' k q _ c _ _ Hr) as [Hold|(Hk&Hb&_)]; [apply Hc; unfold Table.lookup; by rewrite Hold|].
    unfold row_key in Hk. injection Hk as ->. intros v Hv. rewrite Hb in Hv. unfold decode in Hv. case_match; [|done].
    rewrite (blob_round_trip to_f4 of_f4 f4_width) in Hv. injection Hv as <-.
    destruct (snapshot_spec a es) as [_ _ _ Hnd Hidx _]. destruct (Hidx _ _ Hin) as (t&Ht&Hkey).
    destruct (bi_calls _ _ Hinv _ Hcall) as (_&_&_&Hvs). cbn in Hvs. destruct (Forall2_lookup_l _ _ _ _ _ Hvs Ht) as (v&Hv&He).
    exists t, a, (purpose (snapshot a es)), v. split_and!; [done|by apply dedup_key_real|done|].
    unfold vector_of. rewrite (elem_of_dget _ _ _ Hnd Hin). cbn. by rewrite Hv. }
  case_decide; [done|]. case_decide; [done|]. by destruct (lookup env k q c).
Qed.

(** The result of an entry is an answer to the caller that queued it. *)
Lemma entry_sourced s cs b sn vs es a j k m hits :
  batch_inv s cs → answered s b sn vs es a → (j, k) ∈ zip es.*1 (entry_keys sn) →
  ∃ rqj pj v meta, cs !! j = Some (rqj, pj) ∧ entry_result m b sn vs hits k = Ok (v, meta) ∧ sourced (calls s) (rq_text rqj) v meta.
Proof using digest_ok.
  intros Hinv (Hseal&->&Ha&Hcall) Hin. destruct (bi_calls _ _ Hinv _ Hcall) as (_&_&_&Hvs). cbn in Hvs.
  pose proof (Forall2_length _ _ _ Hvs) as Hlen. destruct (snapshot_spec a es) as [Hkeys _ _ _ _ _].
  apply list_elem_of_lookup in Hin as (x&Hx). apply lookup_zip_with_Some in Hx as (j'&k'&[= <- <-]&Hj&Hk).
  rewrite Hkeys in Hk. unfold texts in Hk. rewrite !list_lookup_fmap in Hk. rewrite list_lookup_fmap in Hj.
  destruct (es !! x) as [[j0 rqj]|] eqn:Ex; [|done]. injection Hj as ->. injection Hk as <-. cbn [snd].
  assert ((j, rqj) ∈ es) as Hent by (by eapply list_elem_of_lookup_2).
  destruct (bi_entries _ _ Hinv b es (proj1 Hseal)) as (_&_&_&_&Hin). destruct (Hin _ _ Hent) as (pj&Hpj&_).
  assert (rq_text rqj ∈ texts es) as Ht by (apply list_elem_of_fmap; by exists (j, rqj)).
  destruct (vector_of_spec a es vs (rq_text rqj)) as (idx&t'&Ht'&Hv&Hk'); [done|done|].
  assert (alike (rq_text rqj) t') as Hal by (apply (dedup_key_alike a); [done|done]).
  eexists rqj, pj, _, _. split; [done|]. split; [reflexivity|].
  assert (embeds (purpose (snapshot a es)) t' (vector_of (snapshot a es) vs (dedup_key a (rq_text rqj)))) as He.
  { apply (Forall2_lookup_lr _ _ _ _ _ _ Hvs Ht' Hv). }
  set (v := vector_of _ _ _) in *. clearbody v.
  assert (∀ m', live_batch_id m' = Some b ∨ live_batch_id m' = None → sourced (calls s) (rq_text rqj) v m') as Hany.
  { intros m' [E'|E']; unfold sourced; rewrite E'; [|by eexists t', _, v; eauto]. eexists _, idx, t'. split; [exact Hcall|done]. }
  apply Hany. case_decide; [case_match|]; cbn; auto.
Qed.

Lemma look_cases env m k s :
  (look env m k s = (s, Counting (Some m) (Some k))) ∨
  ∃ blob v, Table.lookup (row_key k q) (rows (cache s)) = Some blob ∧ decode of_f4 q blob = Some v ∧
    look env m k s = (with_cache (record_hit env k q (cache s)) s, Completing k (Ok (v, _make_hit_meta (Some m) (Some k)))).
Proof.
  unfold look. case_decide; [|by left]. unfold lookup. destruct (lookup_ok env); [|by left].
  destruct (Table.lookup _ _) as [blob|] eqn:El; cbn; [|by left].
  destruct (decode of_f4 q blob) as [v|] eqn:Ed; [right|by left]. by exists blob, v.
Qed.

(** ** The invariant *)

Record inv (sys : System) : Prop := {
  in_keys : keys_inv (inflight (shared sys)) (owned (shared sys)) (callers sys);
  in_batches : batch_inv (shared sys) (callers sys);
  in_values : value_inv (shared sys) (callers sys) }.

Lemma close_keys b s : inflight (close b s) = inflight s ∧ owned (close b s) = owned s.
Proof. unfold close. by case_decide. Qed.

Lemma enqueue_keys cap e n s s' b mine : _enqueue cap e n s = (s', b, mine) → inflight s' = inflight s ∧ owned s' = owned s.
Proof.
  assert (∀ s0, inflight (_seal_if_full cap s0) = inflight s0 ∧ owned (_seal_if_full cap s0) = owned s0) as Hs.
  { intros s0. unfold _seal_if_full. destruct (open_batch s0); [|done]. by destruct (_ || _). }
  unfold _enqueue. destruct (open_batch s); [destruct (_ && _)|]; intros [= <- _ _]; by rewrite (proj1 (Hs _)), (proj2 (Hs _)).
Qed.

Lemma first_phase_keyed mode rq a m k : min_anchor ≤ a → first_phase mode rq a = Registering m k → keyed rq k.
Proof. intros Ha. unfold first_phase. repeat case_match; try done. intros [= <- <-]. by eexists. Qed.

Lemma first_phase_plain mode rq a : holds (first_phase mode rq a) = None ∧ carries (first_phase mode rq a) = None ∧
  past (first_phase mode rq a) = false ∧ ∀ k o, first_phase mode rq a ≠ Joining k o.
Proof. unfold first_phase. repeat case_match; done. Qed.

Lemma keys_moves s cs i rq p s' p' :
  keys_inv (inflight s) (owned s) cs → value_inv s cs → cs !! i = Some (rq, p) → moves i rq s p s' p' →
  keys_inv (inflight s') (owned s') (<[i := (rq, p')]> cs).
Proof.
  intros Hk Hv Hi Hm.
  assert (∀ q', (holds q' = holds p ∨ ∃ r, q' = Done r) → (∀ r, p ≠ Done r) → (∀ m k, q' ≠ Registering m k) → (∀ k o, q' ≠ Joining k o) →
    keys_inv (inflight s) (owned s) (<[i := (rq, q')]> cs)) as Hq.
  { intros q' H1 H2 H3 H4. eapply keys_quiet; [done..|by auto|done| |done]. intros m k ->. by destruct (H3 m k). }
  destruct Hm; cbn [inflight owned with_cache with_calls with_futs with_live_ids with_inflight];
    try (apply Hq; first [done|by left|right; by eexists]).
  - destruct (first_phase_plain (entry_mode installed l1 l2 l3) rq a) as (Hh&_&_&Hj). eapply keys_quiet; [done..|by auto|left; by rewrite Hh| |done].
    intros m k. by apply first_phase_keyed.
  - unfold register. destruct (inflight s !! k) eqn:Ek; cbn; [by eapply keys_join|by eapply keys_register].
  - destruct (look_cases env m k s) as [->|(blob&v&_&_&->)]; cbn; apply Hq; try done; by left.
  - destruct (enqueue_keys _ _ _ _ _ _ _ H) as [-> ->]. apply Hq; [left|..]; by destruct mine.
  - apply Hq; [|done|..]; destruct own, r as [[? ?]|]; cbn; eauto; done.
  - destruct (close_keys b s) as [-> ->]. apply Hq; try done. by left.
  - destruct (close_keys b s) as [-> ->]. apply Hq; try done. by left.
  - destruct (close_keys b s) as [-> ->]. apply Hq; try done. by left.
  - eapply keys_quiet; [done..| |by left|done|done]. intros o Ho. cbn. rewrite lookup_insert_is_Some'. by right.
  - eapply keys_pop; [done..|]. eexists. by eapply vi_popping.
Qed.

Lemma value_join s cs i rq k o r :
  keys_inv (inflight s) (owned s) cs → value_inv s cs → cs !! i = Some (rq, Joining k o) → owned s !! o = Some r →
  value_inv s (<[i := (rq, Done (joined k (slot s o) r))]> cs).
Proof using digest_ok.
  intros Hk Hv Hi Ho. eapply (value_quiet s s cs i rq); try done; auto; [apply Hv|].
  intros v m Hc. destruct r as [[v0 m0]|e]; [|done]. cbn in Hc. injection Hc as <- <-.
  destruct (vi_owned _ _ Hv o v0 m0 Ho) as (rqo&po&Hcs&Hsrc&_&Hslot). destruct (ki_join _ _ _ Hk i rq k o Hi) as (Hkey&rq2&p2&Hcs2&Hkey2&_).
  rewrite Hcs in Hcs2. injection Hcs2 as <- <-. apply (sourced_alike _ (rq_text rqo) _ v0 m0); [by rewrite <-Hslot|by apply (keyed_alike _ _ k)|done].
Qed.

Lemma value_look s cs i rq m k env :
  keys_inv (inflight s) (owned s) cs → value_inv s cs → cs !! i = Some (rq, Looking m k) →
  value_inv (look env m k s).1 (<[i := (rq, (look env m k s).2)]> cs).
Proof using digest_ok.
  intros Hk Hv Hi. destruct (look_cases env m k s) as [->|(blob&v&Hl&Hd&->)]; cbn [fst snd].
  - eapply (value_quiet s s cs i rq); try done; auto. apply Hv.
  - eapply (value_quiet s _ cs i rq); try done; auto; cbn.
    + intros key blob'. rewrite record_hit_lookup. apply Hv.
    + intros v0 m0 [= <- <-]. cbn. destruct (vi_rows _ _ Hv _ _ Hl v Hd) as (t&a&pu&v0&Ha&Hkey&He&->).
      destruct (ki_holds _ _ _ Hk i rq _ k Hi eq_refl) as (_&a'&Ha'&Hkey'). exists t, pu, v0. split_and!; [|done|by right].
      by apply (CacheKeys.build_key_alike _ _ _ a' a config_digest config_digest k).
    + intros k0 v0 m0 [= <- <- <-]. done.
Qed.

Lemma value_deliver s cs i rq m own b sn vs hits j k todo :
  batch_inv s cs → value_inv s cs → cs !! i = Some (rq, Delivering m own b sn vs hits ((j, k) :: todo)) →
  value_inv (with_futs (<[j := entry_result m b sn vs hits k]> (futs s)) s) (<[i := (rq, Delivering m own b sn vs hits todo)]> cs).
Proof using digest_ok.
  intros Hb Hv Hi. destruct (bi_local _ _ Hb i _ _ Hi) as (es&a&Hans&Hsub&_).
  eapply (value_quiet s _ cs i rq); try done; auto; [apply Hv|]. cbn. intros x v meta [[<- Hr]|[_ ?]]%lookup_insert_Some; [right|by left].
  destruct (entry_sourced s cs b sn vs es a j k m hits) as (rqj&pj&v0&m0&Hj&He&Hs); [done|done|apply Hsub; by left|].
  rewrite He in Hr. injection Hr as <- <-. eauto.
Qed.

Lemma value_owner s cs i rq k p p' s' :
  value_inv s cs → cs !! i = Some (rq, p) →
  (∃ v m, p = Filling k v m ∧ p' = Completing k (Ok (v, m)) ∧ s' = with_live_ids (<[i := live_batch_id m]> (live_ids s)) s) ∨
  (∃ r, p = Completing k r ∧ p' = Popping k r ∧ s' = with_owned (<[i := r]> (owned s)) s) ∨
  (∃ r, p = Popping k r ∧ p' = Done r ∧ s' = with_inflight (delete k (inflight s)) s) →
  value_inv s' (<[i := (rq, p')]> cs).
Proof.
  intros Hv Hi Hcase. pose proof Hv as [H1 H2 H3 H4 H5 H6 H7].
  assert (∀ v m, owned s !! i = Some (Ok (v, m)) → post p = true ∧ sourced (calls s) (rq_text rq) v m ∧ slot s i = live_batch_id m) as Hown.
  { intros v m Ho. destruct (H4 i v m Ho) as (rq'&p0&Hi'&?&?&?). rewrite Hi in Hi'. by injection Hi' as <- <-. }
  destruct Hcase as [(v&m&->&->&->)|[(r&->&->&->)|(r&->&->&->)]]; eapply (value_move s _ cs i rq); try done; auto; cbn.
  - intros v0 m0 [= <- <-]. by eapply H2.
  - intros j Hj. split; [done|]. by rewrite lookup_insert_ne.
  - intros v0 m0 Ho. by destruct (Hown v0 m0 Ho).
  - intros k0 v0 m0 [= <- <- <-]. unfold slot. cbn. by rewrite lookup_insert_eq.
  - intros v m Hr. by eapply H2.
  - intros j Hj. split; [|done]. by rewrite lookup_insert_ne.
  - rewrite lookup_insert_eq. intros v m [= ->]. split; [by eapply H2|]. split; [done|]. by eapply H6.
  - intros k0 r0 [= <- <-]. by rewrite lookup_insert_eq.
  - intros v m Hr. by eapply H2.
  - intros v m Ho. destruct (Hown v m Ho) as (_&?&?). done.
Qed.

Lemma value_moves s cs i rq p s' p' :
  keys_inv (inflight s) (owned s) cs → batch_inv s cs → value_inv s cs → cs !! i = Some (rq, p) → moves i rq s p s' p' →
  value_inv s' (<[i := (rq, p')]> cs).
Proof using digest_ok f4_width.
  intros Hk Hb Hv Hi Hm. pose proof (vi_rows _ _ Hv) as Hrows.
  assert (∀ s1 q', cache s1 = cache s → calls s1 = calls s → owned s1 = owned s → live_ids s1 = live_ids s → futs s1 = futs s →
    past p = false → carries q' = None → (∀ k r, q' ≠ Popping k r) → value_inv s1 (<[i := (rq, q')]> cs)) as Hq.
  { intros s1 q' E1 E2 E3 E4 E5 Hp Hc Hpop. eapply (value_quiet s s1 cs i rq p); try done; rewrite ?E1, ?E2, ?E5; auto.
    - intros v m Hv'. by rewrite Hc in Hv'.
    - intros k v m ->. done. }
  assert (∀ b, cache (close b s) = cache s ∧ calls (close b s) = calls s ∧ owned (close b s) = owned s ∧ live_ids (close b s) = live_ids s ∧ futs (close b s) = futs s)
    as Hclose by (intros b; unfold close; by case_decide).
  destruct Hm; try (by apply Hq); try (by destruct (Hclose b) as (?&?&?&?&?); apply Hq).
  - destruct (first_phase_plain (entry_mode installed l1 l2 l3) rq a) as (_&Hc&Hp&_). apply Hq; try done. intros k r E'. by rewrite E' in Hp.
  - unfold register. destruct (inflight s !! k); by apply Hq.
  - by apply value_join.
  - by apply value_look.
  - destruct (enqueue_spec live (i, rq) s cs s' b mine Hb H) as (es&o&n&next&->&_). apply Hq; try done; by destruct mine.
  - eapply (value_quiet s s cs i rq); try done; auto.
    + intros v m Hc. destruct (vi_futs _ _ Hv i v m) as (rq'&p0&Hi'&?).
      { rewrite H. destruct own, r as [[? ?]|]; cbn in Hc; congruence. }
      rewrite Hi in Hi'. by injection Hi' as <- <-.
    + intros k v m Hc. destruct own, r as [[? ?]|]; done.
    + intros k r' Hc. destruct own, r as [[? ?]|]; done.
  - eapply (value_quiet s _ cs i rq); try done; auto. intros x Hx. by right.
  - by apply value_deliver.
  - destruct (bi_local _ _ Hb i _ _ Hi) as (es&a&Hans&Hsub&_). eapply (value_quiet s _ cs i rq); try done; auto; cbn.
    eapply store_justified; [done|done|apply Hsub; by left|done].
  - eapply (value_quiet s _ cs i rq); try done; auto; cbn. intros x v m. destruct (futs s !! j) eqn:Ej; [by left|].
    intros [[_ ?]|[_ ?]]%lookup_insert_Some; [done|by left].
  - eapply value_owner; [done..|]. left. eauto 8.
  - eapply value_owner; [done..|]. right. left. eauto.
  - eapply value_owner; [done..|]. right. right. eauto.
Qed.

Lemma system_init c : rows_justified c → inv (init c).
Proof. intros Hc. split; split; cbn; intros *; rewrite ?lookup_empty; try done; first [by intros ?%elem_of_nil|by intros [? ?]|apply NoDup_nil_2]. Qed.

Lemma system_timeout sys i rq k o : inv sys → callers sys !! i = Some (rq, Joining k o) → inv (put i rq (Done (Err JoinTimeout)) (shared sys) sys).
Proof.
  intros [Hk Hb Hv] Hi. split; cbn.
  - eapply keys_quiet; [done..|by auto|right; by eexists|done|done].
  - eapply (batch_outside _ _ _ i rq); [done..|by intros ?? []|by intros ? []].
  - eapply (value_quiet _ _ _ i rq); try done; auto. apply Hv.
Qed.

Lemma system_submit sys i rq : inv sys → callers sys !! i = None → inv (put i rq Begin (shared sys) sys).
Proof.
  intros [Hk [B1 B2 B3 B4 B5 B6 B7 B8] [V1 V2 V3 V4 V5 V6 V7]] Hi.
  assert (∀ j x, callers sys !! j = Some x → <[i := (rq, Begin)]> (callers sys) !! j = Some x) as Hkeep by (intros j x Hj; rewrite lookup_insert_ne; [done|congruence]).
  assert (∀ j rqj pj, <[i := (rq, Begin)]> (callers sys) !! j = Some (rqj, pj) → pj = Begin ∨ callers sys !! j = Some (rqj, pj)) as Hback.
  { intros j rqj pj [[_ [= <- <-]]|[_ ?]]%lookup_insert_Some; auto. }
  split; cbn.
  - by apply keys_submit.
  - split.
    + intros b es Hes. destruct (B1 b es Hes) as (?&?&?&?&Hent). split_and!; try done. intros j rqj Hin. destruct (Hent j rqj Hin) as (p&?&?). eauto.
    + intros b Hb. destruct (B2 b Hb) as (?&d&rqd&pd&?&?). split; [done|]. exists d, rqd, pd. auto.
    + intros j rqj pj [->|Hj]%Hback Hw Hn; [done|]. destruct (B3 j rqj pj Hj Hw Hn) as (d&rqd&pd&?&?). exists d, rqd, pd. auto.
    + intros j rqj pj [->|Hj]%Hback; [done|by eapply B4].
    + intros j j' r1 r2 p1 p2 b [->|H1]%Hback [->|H2]%Hback; try done. by eapply B5.
    + intros j rqj pj b [->|Hj]%Hback; [done|by eapply B6].
    + done.
    + done.
  - split.
    + done.
    + intros j rqj pj v m [->|Hj]%Hback; [done|by eapply V2].
    + intros j v m Hj. destruct (V3 j v m Hj) as (rqj&pj&?&?). eauto.
    + intros j v m Hj. destruct (V4 j v m Hj) as (rqj&pj&?&?&?&?). eauto 8.
    + intros j Hj. destruct (V5 j Hj) as (rqj&pj&?&?). eauto.
    + intros j rqj k v m [?|Hj]%Hback; [done|by eapply V6].
    + intros j rqj k r [?|Hj]%Hback; [done|by eapply V7].
Qed.

Lemma system_cache sys c : inv sys → rows_justified c → inv {| shared := with_cache c (shared sys); callers := callers sys |}.
Proof. intros [Hk [B1 B2 B3 B4 B5 B6 B7 B8] [V1 V2 V3 V4 V5 V6 V7]] Hc. split; [done|split; assumption|split; assumption]. Qed.

Lemma system_prompt sys sys' : inv sys → prompt sys sys' → inv sys'.
Proof using digest_ok f4_width pv_sane.
  intros [Hk Hb Hv] Hp. destruct Hp as [sys i rq p s' p' Hi Hm]. split; [by eapply keys_moves|by eapply batch_moves|by eapply value_moves].
Qed.

Lemma system_step sys sys' : inv sys → step sys sys' → inv sys'.
Proof using digest_ok f4_width pv_sane.
  intros Hinv Hs. destruct Hs; [by eapply system_prompt|by eapply system_timeout|by apply system_submit|by apply system_cache].
Qed.

Lemma system_reachable sys : reachable sys → inv sys.
Proof using digest_ok f4_width pv_sane.
  intros (c&Hc&Hr). apply (rtc_ind_r (λ s, inv s) (init c)) with sys in Hr; [done|by apply system_init|].
  intros x y _ Hs Hi. by eapply system_step.
Qed.

(** C1: every answer is an answer to the caller's own query.  A text with the same words,
    the anchor words in the same order, was embedded for it: by the one call of the batch
    the answer names, at the place of that text; or, when it names none, earlier, through
    the cache, up to rounding to 32 bits. *)
Theorem answer_justified sys i rq v m :
  reachable sys → callers sys !! i = Some (rq, Done (Ok (v, m))) →
  ∃ t, alike (rq_text rq) t ∧
    match live_batch_id m with
    | Some b =>
        ∃ c j, c ∈ calls (shared sys) ∧ (∀ c', c' ∈ calls (shared sys) → c_batch c' = b ↔ c' = c) ∧
          c_texts c !! j = Some t ∧ c_vectors c !! j = Some v ∧ embeds (c_purpose c) t v
    | None => ∃ p v0, embeds p t v0 ∧ (v = v0 ∨ v = rounded to_f4 of_f4 v0)
    end.
Proof using digest_ok f4_width pv_sane.
  intros [_ Hb Hv]%system_reachable Hi. pose proof (vi_hand _ _ Hv i rq _ v m Hi eq_refl) as Hs. unfold sourced in Hs.
  destruct (live_batch_id m) as [b|]; [|naive_solver]. destruct Hs as (c&j&t&Hc&Hcb&Ht&Hvec&Ha). exists t. split; [done|]. exists c, j.
  destruct (bi_calls _ _ Hb c Hc) as (_&_&_&Hall). split_and!; try done; [|by apply (Forall2_lookup_lr _ _ _ _ _ _ Hall Ht Hvec)].
  intros c' Hc'. split; [|by intros ->]. intros Hcb'. pose proof (bi_nodup _ _ Hb) as Hnd.
  apply list_elem_of_lookup in Hc as (x&Hx), Hc' as (y&Hy). assert (y = x) as ->; [|congruence].
  apply (NoDup_lookup _ y x b Hnd); rewrite list_lookup_fmap, ?Hx, ?Hy; cbn; congruence.
Qed.

(** The provider is called once per batch and what it is given is one request to its
    API: neither the token limit nor the limit on texts makes it split the batch, whatever
    ceilings are configured while callers join. *)
Theorem one_request_per_batch sys :
  reachable sys →
  NoDup (c_batch <$> calls (shared sys)) ∧
  ∀ c, c ∈ calls (shared sys) → get_embeddings_batch pv (c_texts c) = [c_texts c].
Proof using digest_ok f4_width pv_sane.
  intros [_ Hb _]%system_reachable. split; [by apply (bi_nodup _ _ Hb)|]. intros c Hc.
  destruct (bi_calls _ _ Hb c Hc) as (_&Hne&Hfit&_). by apply fits_one_request.
Qed.

(** ** Termination *)

(** How many moves a caller has left, at most, among [M] callers. *)
Definition rank (M : nat) (p : pc) : nat :=
  match p with
  | Begin => 15 + 3 * M + retries
  | Registering _ _ => 14 + 3 * M + retries
  | Looking _ _ => 13 + 3 * M + retries
  | Counting _ _ => 12 + 3 * M + retries
  | Queueing _ _ => 11 + 3 * M + retries
  | Dispatching _ _ _ => 10 + 3 * M + retries
  | Calling _ _ _ _ n => 9 + 3 * M + n
  | Shadowing _ _ _ _ _ _ todo => 8 + 2 * M + length todo
  | Delivering _ _ _ _ _ _ todo => 7 + M + length todo
  | Failing _ _ _ => 6 + M
  | Storing _ _ _ _ _ _ todo => 5 + length todo
  | Fanning _ _ _ todo => 5 + length todo
  | Waiting _ => 4
  | Filling _ _ _ => 3
  | Completing _ _ => 2
  | Popping _ _ | Joining _ _ => 1
  | Done _ => 0
  end%nat.

Lemma batch_size s cs b es : batch_inv s cs → batches s !! b = Some es → (length es ≤ size cs)%nat.
Proof.
  intros Hb Hes. destruct (bi_entries _ _ Hb b es Hes) as (_&_&Hnd&_&Hent).
  rewrite <-(length_fmap fst), <-(size_list_to_set (C := gset nat) es.*1 Hnd), <-(size_dom cs). apply subseteq_size.
  intros i ([j rq]&->&Hin)%elem_of_list_to_set%list_elem_of_fmap. destruct (Hent _ _ Hin) as (p&Hp&_). by eapply elem_of_dom_2.
Qed.

Lemma rank_decreases M s cs i rq p s' p' :
  batch_inv s cs → cs !! i = Some (rq, p) → moves i rq s p s' p' → (size cs ≤ M)%nat → (rank M p' < rank M p)%nat.
Proof.
  intros Hb Hi Hm HM. pose proof (bi_local _ _ Hb i _ _ Hi) as Hloc.
  assert (∀ b es, batches s !! b = Some es → (length es ≤ M)%nat) as Hes.
  { intros b es Hbs. pose proof (batch_size s cs b es Hb Hbs). lia. }
  destruct Hm; try (cbn; lia).
  - unfold first_phase. repeat case_match; cbn; lia.
  - unfold register. case_match; cbn; lia.
  - destruct (look_cases env m k s) as [->|(blob&v&_&_&->)]; cbn; lia.
  - destruct mine; cbn; lia.
  - destruct own, r as [[? ?]|]; cbn; lia.
  - destruct Hloc as (_&es&a&[Hbs _]&->&_). apply Hes in Hbs. pose proof (length_keys a es). case_decide; cbn; rewrite ?length_fmap; lia.
  - destruct Hloc as (es'&a&([Hbs _]&->&_)&_). assert (es' = es) as -> by congruence. apply Hes in H. cbn.
    rewrite length_zip_with, length_fmap. lia.
  - destruct Hloc as (es&a&([Hbs _]&->&_)&_). apply Hes in Hbs. pose proof (length_keys a es). case_match; cbn; lia.
  - apply Hes in H. cbn. rewrite length_fmap. lia.
Qed.

Definition total (M : nat) (sys : System) : nat := sum_list_with (λ x, rank M x.2.2) (map_to_list (callers sys)).

Lemma total_put M sys i rq p s' p' :
  callers sys !! i = Some (rq, p) → (total M (put i rq p' s' sys) + rank M p = total M sys + rank M p')%nat.
Proof.
  intros Hi. unfold total. cbn. assert (∀ x, sum_list_with (λ x, rank M x.2.2) (map_to_list (<[i := x]> (callers sys))) =
    (rank M x.2 + sum_list_with (λ x, rank M x.2.2) (map_to_list (delete i (callers sys))))%nat) as Hins.
  { intros x. rewrite <-insert_delete_eq. rewrite map_to_list_insert by apply lookup_delete_eq. done. }
  rewrite Hins. rewrite <-(insert_id (callers sys) i (rq, p) Hi) at 2. rewrite Hins. cbn. lia.
Qed.

Lemma rank_bound M s cs i rq p : batch_inv s cs → cs !! i = Some (rq, p) → (size cs ≤ M)%nat → (rank M p ≤ rank M Begin)%nat.
Proof.
  intros Hb Hi HM. pose proof (bi_local _ _ Hb i _ _ Hi) as Hloc.
  assert (∀ b es, batches s !! b = Some es → (length es ≤ M)%nat) as Hes.
  { intros b es Hbs. pose proof (batch_size s cs b es Hb Hbs). lia. }
  destruct p; cbn in *; try lia.
  - destruct Hloc as (es&a&([Hbs _]&_)&?). apply Hes in Hbs. lia.
  - destruct Hloc as (es&a&([Hbs _]&_)&_&?). apply Hes in Hbs. lia.
  - destruct Hloc as (es&a&([Hbs _]&_)&_&?). apply Hes in Hbs. lia.
  - destruct Hloc as (es&Hbs&?). apply Hes in Hbs. lia.
Qed.

Lemma total_bound M sys : inv sys → (size (callers sys) ≤ M)%nat → (total M sys ≤ size (callers sys) * rank M Begin)%nat.
Proof.
  intros [_ Hb _] HM. assert (∀ x, x ∈ map_to_list (callers sys) → (rank M x.2.2 ≤ rank M Begin)%nat) as Hall.
  { intros [i [rq p]] Hin%elem_of_map_to_list. by eapply rank_bound. }
  unfold total. rewrite <-length_map_to_list. revert Hall. generalize (map_to_list (callers sys)) as l.
  induction l as [|x l IH]; intros Hall; [done|]. cbn [sum_list_with length].
  pose proof (Hall x ltac:(by left)). specialize (IH (λ y Hy, Hall y (list_elem_of_further _ _ _ Hy))). lia.
Qed.

(** Every move of a caller spends some of what is left, so moves come to an end. *)
Lemma moves_bounded n sys sys' : inv sys → nsteps prompt n sys sys' →
  inv sys' ∧ size (callers sys') = size (callers sys) ∧ (n + total (size (callers sys)) sys' ≤ total (size (callers sys)) sys)%nat.
Proof using digest_ok f4_width pv_sane.
  intros Hinv Hn. induction Hn as [sys|n sys sys1 sys' Hp _ IH]; [done|].
  destruct IH as (IH1&IH2&IH3); [by eapply system_prompt|]. destruct Hp as [sys i rq p s1 p1 Hi Hm].
  assert (size (callers (put i rq p1 s1 sys)) = size (callers sys)) as Hsize by (cbn; by rewrite map_size_insert_Some by (by eexists)).
  rewrite Hsize in *. split_and!; [done|done|]. pose proof (total_put (size (callers sys)) sys i rq p s1 p1 Hi).
  pose proof (rank_decreases (size (callers sys)) _ _ i rq p s1 p1 (in_batches _ Hinv) Hi Hm). lia.
Qed.

(** ** Progress *)

Definition idle (p : pc) : bool := match p with Joining _ _ | Waiting _ | Done _ => true | _ => false end.

Definition some_env : Env :=
  {| lookup_ok := true; upsert_ok := true; prune_ok := true; flush_ok := true; memo_cfg := None; prune_cfg := None; now := 0 |}.

(** Whoever waits for nobody can move. *)
Lemma busy_moves s cs i rq p : batch_inv s cs → cs !! i = Some (rq, p) → idle p = false → ∃ s' p', moves i rq s p s' p'.
Proof.
  intros Hb Hi Hidle. pose proof (bi_local _ _ Hb i _ _ Hi) as Hloc. destruct p as [| | | | | |m own b|m own b sn n|m own b sn vs hits [|k todo]|m own b sn vs hits [|[j k] todo]|m own b sn vs hits [|[k j] todo]|own b e|own b e [|j todo]| | | | |]; try done.
  - eexists _, _. by apply (mv_begin i rq s true None None None min_anchor).
  - eexists _, _. apply mv_register.
  - eexists _, _. apply (mv_look i rq s _ _ some_env).
  - eexists _, _. apply mv_count.
  - destruct (_enqueue (effective_texts_cap pv static None) (i, rq) (count_tokens pv (rq_text rq)) s) as [[s' b] mine] eqn:He.
    eexists _, _. by eapply mv_queue.
  - destruct Hloc as [es Hes]. eexists _, _. by eapply (mv_seal i rq s m own b es min_anchor).
  - eexists _, _. apply mv_wrong_count.
  - destruct Hloc as (es&a&([Hes _]&_)&_). eexists _, _. by eapply mv_shadow_done.
  - eexists _, _. apply (mv_shadow i rq s m own b sn vs hits k todo some_env).
  - eexists _, _. apply mv_deliver_done.
  - destruct (futs s !! j) as [r|] eqn:Ej; eexists _, _; [by eapply mv_deliver_twice|by apply mv_deliver].
  - eexists _, _. apply mv_store_done.
  - eexists _, _. apply (mv_store i rq s m own b sn vs hits k j todo some_env some_env).
  - destruct Hloc as [es Hes]. eexists _, _. by eapply mv_fail.
  - eexists _, _. apply mv_fan_done.
  - eexists _, _. apply mv_fan.
  - eexists _, _. apply mv_fill.
  - eexists _, _. apply mv_complete.
  - eexists _, _. apply mv_pop.
Qed.

Definition can_move (sys : System) : Prop := ∃ sys', prompt sys sys'.

Lemma moving sys i rq p s' p' : callers sys !! i = Some (rq, p) → moves i rq (shared sys) p s' p' → can_move sys.
Proof. intros Hi Hm. eexists. by econstructor. Qed.

Lemma all_done_stuck sys : (∀ i rq p, callers sys !! i = Some (rq, p) → ∃ r, p = Done r) → ¬ can_move sys.
Proof. intros Hd [sys' Hp]. destruct Hp as [sys i rq p s' p' Hi Hm]. destruct (Hd _ _ _ Hi) as [r ->]. inversion Hm. Qed.

Lemma waiting_progress sys i rq own : inv sys → callers sys !! i = Some (rq, Waiting own) → can_move sys.
Proof.
  intros [_ Hb _] Hi. destruct (futs (shared sys) !! i) as [r|] eqn:Ef; [by eapply moving, mv_wait|].
  destruct (bi_pend _ _ Hb i rq _ Hi eq_refl Ef) as (d&rqd&pd&Hd&Hpd).
  destruct (busy_moves _ _ d rqd pd Hb Hd) as (s'&p'&Hm); [by destruct pd|]. by eapply moving.
Qed.

(** A key whose owner is gone while it is still registered. *)
Definition leaked (sys : System) (k : text) (o : nat) : Prop :=
  inflight (shared sys) !! k = Some o ∧ ∃ rq r, callers sys !! o = Some (rq, Done r).

Lemma progress sys i rq p :
  inv sys → (∀ k o, ¬ leaked sys k o) → callers sys !! i = Some (rq, p) → (∀ r, p ≠ Done r) → can_move sys.
Proof.
  intros Hinv Hleak Hi Hnd. pose proof Hinv as [Hk Hb Hv].
  destruct (idle p) eqn:Hid; [|destruct (busy_moves _ _ i rq p Hb Hi Hid) as (s'&p'&Hm); by eapply moving].
  destruct p; try done; [|by eapply waiting_progress|by edestruct Hnd].
  destruct (ki_join _ _ _ Hk i rq key owner Hi) as (_&rqo&po&Ho&_&[[r Hr]|Hinf]); [by eapply moving, mv_join|].
  destruct (ki_flight _ _ _ Hk key owner Hinf) as (rqo'&po'&Ho'&_&Hh). rewrite Ho in Ho'. injection Ho' as <- <-.
  destruct Hh as [Hh|[r ->]]; [|by destruct (Hleak key owner); split; eauto].
  destruct (idle po) eqn:Hid'; [|destruct (busy_moves _ _ owner rqo po Hb Ho Hid') as (s'&p'&Hm); by eapply moving].
  destruct po; try done. by eapply waiting_progress.
Qed.


(** ** Keys left behind *)

(** The moves that end a call. *)
Lemma last_moves i rq s p s' r :
  moves i rq s p s' (Done r) →
  holds p = None ∧ inflight s' = inflight s ∨
  (∃ k, holds p = Some k ∧ inflight s' = delete k (inflight s)) ∨
  (∃ m own e, (p = Counting m own ∨ p = Queueing m own) ∧ r = Err (Raised e) ∧ s' = s).
Proof.
  remember (Done r) as p' eqn:Ep. intros Hm. destruct Hm; try done; try (by left); try (by revert Ep; unfold register, look; repeat case_match).
  - right. right. exists m, own, e. injection Ep as ->. auto.
  - right. right. exists m, own, e. injection Ep as ->. auto.
  - destruct own as [k|]; [by destruct r0 as [[? ?]|]|by left].
  - right. left. by exists k.
Qed.

(** Who registers a key has not ended his call. *)
Lemma inflight_moves i rq s p s' p' k o : moves i rq s p s' p' → o ≠ i → inflight s' !! k = Some o → inflight s !! k = Some o.
Proof.
  intros Hm Hne. destruct Hm; try done; cbn.
  - unfold register. destruct (inflight s !! k0); [done|]. cbn. by intros [[_ ?]|[_ ?]]%lookup_insert_Some.
  - by destruct (look_cases env m k0 s) as [->|(blob&v&_&_&->)].
  - by destruct (enqueue_keys _ _ _ _ _ _ _ H) as [-> _].
  - by destruct (close_keys b s) as [-> _].
  - by destruct (close_keys b s) as [-> _].
  - by destruct (close_keys b s) as [-> _].
  - by intros [_ ?]%lookup_delete_Some.
Qed.

(** A key is left behind only by an owner whose token count or queueing raises. *)
Lemma leak_origin sys sys' k o :
  inv sys → (∀ k o, ¬ leaked sys k o) → prompt sys sys' → leaked sys' k o →
  ∃ rq m e, (callers sys !! o = Some (rq, Counting m (Some k)) ∨ callers sys !! o = Some (rq, Queueing m (Some k))) ∧
    callers sys' !! o = Some (rq, Done (Err (Raised e))).
Proof.
  intros [Hk _ _] Hno Hp [Hinf (rq&r&Ho)]. destruct Hp as [sys i rqi p s' p' Hi Hm]. cbn in *.
  destruct (decide (o = i)) as [->|Hne].
  - rewrite lookup_insert_eq in Ho |- *. injection Ho as -> ->.
    assert (∀ k', inflight (shared sys) !! k' = Some i → holds p = Some k') as Hfl.
    { intros k' Hk'. destruct (ki_flight _ _ _ Hk k' i Hk') as (rq1&p1&Hi1&_&Hh). rewrite Hi in Hi1. injection Hi1 as <- <-.
      destruct Hh as [?|[r' ->]]; [done|]. inversion Hm. }
    destruct (last_moves _ _ _ _ _ _ Hm) as [[Hh Hs]|[(k'&Hh&Hs)|(m&own&e&Hp&->&->)]].
    + rewrite Hs in Hinf. apply Hfl in Hinf. congruence.
    + rewrite Hs in Hinf. apply lookup_delete_Some in Hinf as [? Hinf]. apply Hfl in Hinf. congruence.
    + apply Hfl in Hinf. exists rq, m, e. split; [|done]. destruct Hp as [-> | ->]; cbn in Hinf; subst own; auto.
  - rewrite lookup_insert_ne in Ho by done. destruct (Hno k o). split; [by eapply inflight_moves|by eauto].
Qed.

(** A move of one caller leaves the others' keys and futures alone. *)
Lemma others_keys s cs i rq p s' p' k o :
  keys_inv (inflight s) (owned s) cs → cs !! i = Some (rq, p) → moves i rq s p s' p' → o ≠ i →
  owned s' !! o = owned s !! o ∧ (inflight s !! k = Some o → inflight s' !! k = Some o).
Proof.
  intros Hk Hi Hm Hne. destruct Hm; try done; cbn.
  - unfold register. destruct (inflight s !! k0) eqn:E0; [done|]. cbn. split; [done|]. intros Hinf. rewrite lookup_insert_ne; [done|congruence].
  - by destruct (look_cases env m k0 s) as [->|(blob&v&_&_&->)].
  - by destruct (enqueue_keys _ _ _ _ _ _ _ H) as [-> ->].
  - by destruct (close_keys b s) as [-> ->].
  - by destruct (close_keys b s) as [-> ->].
  - by destruct (close_keys b s) as [-> ->].
  - by rewrite lookup_insert_ne.
  - split; [done|]. intros Hinf. destruct (ki_holds _ _ _ Hk i rq _ k0 Hi eq_refl) as [Hk0 _]. rewrite lookup_delete_ne; [done|congruence].
Qed.

(** A key left behind stays: whoever asks for it from then on joins a future nobody will
    complete, and can only time out. *)
Lemma leak_lasts sys sys' k o :
  inv sys → leaked sys k o → owned (shared sys) !! o = None → rtc step sys sys' →
  leaked sys' k o ∧ ∀ i rq, callers sys' !! i = Some (rq, Joining k o) → ∀ s' p', ¬ moves i rq (shared sys') (Joining k o) s' p'.
Proof using digest_ok f4_width pv_sane.
  intros Hinv Hl Ho Hr.
  assert (inv sys' ∧ leaked sys' k o ∧ owned (shared sys') !! o = None) as (_&Hl'&Ho').
  { apply (rtc_ind_r (λ s, inv s ∧ leaked s k o ∧ owned (shared s) !! o = None) sys) with sys' in Hr; [done|done|].
    intros x y _ Hs (Hx&[Hinf (rqo&r&Hd)]&Hn). split; [by eapply system_step|].
    assert (∀ i rq p s, o ≠ i → inflight s !! k = Some o → owned s !! o = None → leaked (put i rq p s x) k o ∧ owned (shared (put i rq p s x)) !! o = None) as Hput.
    { intros i rq p s Hne H1 H2. split; [split; [done|]|done]. exists rqo, r. unfold put. cbn. by rewrite lookup_insert_ne. }
    destruct Hs as [x y Hp|x i rq k' o' Hi|x i rq Hi|x c Hc].
    - destruct Hp as [x i rq p s' p' Hi Hm]. assert (o ≠ i) as Hne by (intros ->; rewrite Hd in Hi; injection Hi as <- <-; inversion Hm).
      destruct (others_keys _ _ i rq p s' p' k o (in_keys _ Hx) Hi Hm Hne) as [E1 E2]. apply Hput; [done|auto|congruence].
    - apply Hput; [|done..]. intros ->. congruence.
    - apply Hput; [|done..]. intros ->. congruence.
    - split; [split; [done|by exists rqo, r]|done]. }
  split; [done|]. intros i rq _ s' p' Hm. inversion Hm. congruence.
Qed.

(** ** A scheduler, to run the system on concrete callers *)

Context (anchor : Z) (reply_of : list text → option (list (list F))).

(** The move a caller makes when nothing fails: fixed readings of the configuration and the
    backend, the provider's answer if there is one. *)
Definition next_move (i : nat) (rq : Request) (s : Shared) (p : pc) : option (Shared * pc) :=
  match p with
  | Begin => Some (s, first_phase (entry_mode true None None None) rq anchor)
  | Registering m k => Some (register i m k s)
  | Joining k o => (λ r, (s, Done (joined k (default None (live_ids s !! o)) r))) <$> owned s !! o
  | Looking m k => Some (look some_env m k s)
  | Counting m own => Some (s, Queueing m own)
  | Queueing m own =>
      let '(s', b, mine) := _enqueue (effective_texts_cap pv static None) (i, rq) (count_tokens pv (rq_text rq)) s in
      Some (s', if mine then Dispatching m own b else Waiting own)
  | Dispatching m own b => (λ es, (close b s, Calling m own b (snapshot anchor es) retries)) <$> batches s !! b
  | Calling m own b sn n =>
      match reply_of (unique_texts sn) with
      | Some vs =>
          Some (with_calls ({| c_batch := b; c_texts := unique_texts sn; c_purpose := purpose sn; c_vectors := vs |} :: calls s) s,
                Shadowing m own b sn vs ∅ (if decide (m = Some _MODE_SHADOW) then (key_to_first_idx sn).*1 else []))
      | None => Some (s, Failing own b ValueError)
      end
  | Shadowing m own b sn vs hits (k :: todo) =>
      Some (s, Shadowing m own b sn vs (if negb (over_cap k) && bool_decide (is_Some (lookup some_env k q (cache s))) then {[k]} ∪ hits else hits) todo)
  | Shadowing m own b sn vs hits [] => (λ es, (s, Delivering m own b sn vs hits (zip es.*1 (entry_keys sn)))) <$> batches s !! b
  | Delivering m own b sn vs hits ((j, k) :: todo) =>
      match futs s !! j with
      | None => Some (with_futs (<[j := entry_result m b sn vs hits k]> (futs s)) s, Delivering m own b sn vs hits todo)
      | Some _ => Some (s, Failing own b InvalidStateError)
      end
  | Delivering m own b sn vs hits [] => Some (s, Storing m own b sn vs hits (if caching m then key_to_first_idx sn else []))
  | Storing m own b sn vs hits ((k, j) :: todo) =>
      Some (with_cache (store some_env some_env m sn vs hits k (cache s)) s, Storing m own b sn vs hits todo)
  | Storing m own b sn vs hits [] => Some (s, Waiting own)
  | Failing own b e => (λ es : list entry, (close b s, Fanning own b e es.*1)) <$> batches s !! b
  | Fanning own b e (j :: todo) =>
      Some (with_futs (match futs s !! j with Some _ => futs s | None => <[j := Err e]> (futs s) end) s, Fanning own b e todo)
  | Fanning own b e [] => Some (s, Waiting own)
  | Waiting own => (λ r, (s, settle own r)) <$> futs s !! i
  | Filling k v m => Some (with_live_ids (<[i := live_batch_id m]> (live_ids s)) s, Completing k (Ok (v, m)))
  | Completing k r => Some (with_owned (<[i := r]> (owned s)) s, Popping k r)
  | Popping k r => Some (with_inflight (delete k (inflight s)) s, Done r)
  | Done _ => None
  end.

Fixpoint run (schedule : list nat) (sys : System) : option System :=
  match schedule with
  | [] => Some sys
  | i :: rest =>
      match callers sys !! i with
      | Some (rq, p) =>
          match next_move i rq (shared sys) p with
          | Some (s', p') => run rest (put i rq p' s' sys)
          | None => None
          end
      | None => None
      end
  end.

Context (anchor_ok : min_anchor ≤ anchor) (reply_ok : ∀ p ts vs, reply_of ts = Some vs → Forall2 (embeds p) ts vs).

Lemma next_move_sound i rq s p s' p' : next_move i rq s p = Some (s', p') → moves i rq s p s' p'.
Proof using anchor_ok reply_ok.
  destruct p as [| | | | | |m own b|m own b sn n|m own b sn vs hits [|k todo]|m own b sn vs hits [|[j k] todo]|m own b sn vs hits [|[k j] todo]|own b e|own b e [|j todo]| | | | |];
    cbn [next_move]; try (intros [= <- <-]; by econstructor); try done.
  - intros [= E']. pose proof (mv_register i rq s mode key) as Hm. by rewrite E' in Hm.
  - intros (r&Hr&[= -> ->])%fmap_Some. by constructor.
  - intros [= E']. pose proof (mv_look i rq s mode key some_env) as Hm. by rewrite E' in Hm.
  - destruct (_enqueue _ _ _ _) as [[s1 b] mine] eqn:He. intros [= <- <-]. by eapply mv_queue.
  - intros (es&Hes&[= -> ->])%fmap_Some. by apply mv_seal.
  - destruct (reply_of _) as [vs|] eqn:Er; intros [= <- <-]; [|by constructor]. apply mv_answer. by apply reply_ok.
  - intros (es&Hes&[= -> ->])%fmap_Some. by apply mv_shadow_done.
  - destruct (futs s !! j) eqn:Ej; intros [= <- <-]; by econstructor.
  - intros (es&Hes&[= -> ->])%fmap_Some. by apply mv_fail.
  - intros (r&Hr&[= -> ->])%fmap_Some. by apply mv_wait.
Qed.

Lemma run_sound schedule : ∀ sys sys', run schedule sys = Some sys' → nsteps prompt (length schedule) sys sys'.
Proof using anchor_ok reply_ok.
  induction schedule as [|i rest IH]; intros sys sys' Hr; cbn [run] in Hr; [injection Hr as ->; constructor|].
  destruct (callers sys !! i) as [[rq p]|] eqn:Hi; [|done]. destruct (next_move i rq (shared sys) p) as [[s1 p1]|] eqn:Hm; [|done].
  econstructor; [|by apply IH]. econstructor; [exact Hi|by apply next_move_sound].
Qed.

Fixpoint submit_all (rqs : list Request) (i : nat) (sys : System) : System :=
  match rqs with [] => sys | rq :: rest => submit_all rest (S i) (put i rq Begin (shared sys) sys) end.

Lemma submit_all_reachable rqs : ∀ i sys, reachable sys → (∀ j, (i ≤ j)%nat → callers sys !! j = None) → reachable (submit_all rqs i sys).
Proof.
  induction rqs as [|rq rqs IH]; intros i sys Hr Hfree; [done|]. cbn. apply IH.
  - destruct Hr as (c&Hc&Hs). exists c. split; [done|]. eapply rtc_r; [done|]. apply st_submit. by apply Hfree.
  - intros j Hj. cbn. rewrite lookup_insert_ne by lia. apply Hfree. lia.
Qed.

Lemma reachable_run schedule sys sys' : reachable sys → run schedule sys = Some sys' → reachable sys'.
Proof using anchor_ok reply_ok.
  intros (c&Hc&Hs) Hr%run_sound. exists c. split; [done|]. etrans; [done|]. apply rtc_nsteps_2 in Hr.
  eapply rtc_subrel; [|exact Hr]. intros x y Hp. by apply st_move.
Qed.

Lemma init_reachable : reachable (init empty_cache).
Proof. exists empty_cache. split; [|done]. intros key blob Hl. unfold Table.lookup in Hl. cbn in Hl. by rewrite lookup_empty in Hl. Qed.
End coalescer.

(** ** Three queries, two of them the same *)

Definition demo_service : Service := new_service true _MODE_ON _MODE_ON 10000.
Definition demo_qualifier : CacheQualifier := {| q_provider := voyage; q_model := txt "m"; q_dimension := 1 |}.
Definition demo_digest : text := txt "d".
Definition demo_provider : Provider :=
  {| model_token_limit := 100; safety_margin_percentage := Some 90; texts_per_request := Some 96; count_tokens := λ t, Z.of_nat (length t) |}.
Definition demo_embeds (_ : string) (t : text) (v : list N) : Prop := v = [N.of_nat (length t)].
Definition demo_reply (ts : list text) : option (list (list N)) := Some ((λ t, [N.of_nat (length t)]) <$> ts).
Definition query (s : string) : Request := {| rq_text := txt s; rq_purpose := "query"; no_embedding_cache_shortcut := false |}.
Definition demo_queries : list Request := [query "find slow log query"; query "find slow query log"; query "retry"].

Definition demo_submitted : System (F := N) (E := unit) := submit_all (E := unit) demo_queries 0 (init empty_cache).

(** The first query opens a batch, the second joins the first, the third is added to the
    batch; then the first dispatches it. *)
Definition demo_schedule : list nat :=
  replicate 5 0%nat ++ replicate 2 1%nat ++ replicate 5 2%nat ++ replicate 13 0%nat ++ replicate 4 2%nat ++ [1%nat].

Definition demo_end : System (F := N) (E := unit) :=
  default demo_submitted (run word32 id demo_service demo_qualifier demo_digest demo_provider 96 2 demo_reply demo_schedule demo_submitted).

Lemma demo_sane : sane demo_provider.
Proof. split; cbn; [intros; lia|done]. Qed.

Lemma demo_reply_ok p ts vs : demo_reply ts = Some vs → Forall2 (demo_embeds p) ts vs.
Proof. intros [= <-]. induction ts; constructor; [done|]. exact IHts. Qed.

Lemma demo_digest_ok : CacheKeys.colon ∉ demo_digest.
Proof. apply (bool_decide_unpack _). vm_compute. exact I. Qed.

Abbreviation demo_reachable_from := (reachable (E := unit) word32 id demo_service demo_qualifier demo_digest demo_provider 96 demo_embeds 2).

Lemma demo_submitted_reachable : demo_reachable_from demo_submitted.
Proof. apply submit_all_reachable; [apply init_reachable|]. intros j _. apply lookup_empty. Qed.

Lemma demo_run : run word32 id demo_service demo_qualifier demo_digest demo_provider 96 2 demo_reply demo_schedule demo_submitted = Some demo_end.
Proof. unfold demo_end. assert (is_Some (run word32 id demo_service demo_qualifier demo_digest demo_provider 96 2 demo_reply demo_schedule demo_submitted)) as [x Hx]; [|by rewrite Hx].
  apply (bool_decide_unpack _). vm_compute. exact I. Qed.

Lemma demo_end_reachable : demo_reachable_from demo_end.
Proof. apply (reachable_run _ _ _ _ _ _ _ _ _ 2 demo_reply ltac:(done) demo_reply_ok demo_schedule demo_submitted); [apply demo_submitted_reachable|apply demo_run]. Qed.

Lemma answer_justified_witness :
  ∃ rq v m t, callers demo_end !! 1%nat = Some (rq, Done (Ok (v, m))) ∧ CacheKeys.alike 2 (rq_text rq) t ∧
    match live_batch_id m with
    | Some b =>
        ∃ c j, c ∈ calls (shared demo_end) ∧ (∀ c', c' ∈ calls (shared demo_end) → c_batch c' = b ↔ c' = c) ∧
          c_texts c !! j = Some t ∧ c_vectors c !! j = Some v ∧ demo_embeds (c_purpose c) t v
    | None => ∃ p v0, demo_embeds p t v0 ∧ (v = v0 ∨ v = rounded word32 id v0)
    end.
Proof.
  destruct (callers demo_end !! 1%nat) as [[rq p]|] eqn:Hi; [|by vm_compute in Hi].
  assert (∃ v m, p = Done (Ok (v, m))) as (v&m&->) by (vm_compute in Hi; injection Hi as _ <-; eauto).
  destruct (answer_justified (E := unit) word32 id demo_service demo_qualifier demo_digest demo_provider 96 demo_embeds 2
    demo_digest_ok demo_sane (λ x, N.mod_lt x 4294967296 ltac:(done)) demo_end 1 rq v m demo_end_reachable Hi) as (t&Ha&Ht).
  exists rq, v, m, t. exact (conj eq_refl (conj Ha Ht)).
Defined.

Lemma one_request_per_batch_witness :
  calls (shared demo_end) ≠ [] ∧ NoDup (c_batch <$> calls (shared demo_end)) ∧
  ∀ c, c ∈ calls (shared demo_end) → get_embeddings_batch demo_provider (c_texts c) = [c_texts c].
Proof.
  split; [by vm_compute|].
  exact (one_request_per_batch (E := unit) word32 id demo_service demo_qualifier demo_digest demo_provider 96 demo_embeds 2
    demo_digest_ok demo_sane (λ x, N.mod_lt x 4294967296 ltac:(done)) demo_end demo_end_reachable).
Defined.

Lemma demo_all_done : ∀ i rq p, callers demo_end !! i = Some (rq, p) → ∃ r, p = Done r.
Proof.
  assert (map_Forall (λ (_ : nat) (x : Request * pc), match x.2 with Done _ => true | _ => false end = true) (callers demo_end)) as H.
  { apply (bool_decide_unpack _). vm_compute. exact I. }
  intros i rq p Hi. specialize (H i (rq, p) Hi). clear Hi. cbn in H. destruct p; first [eexists; reflexivity|discriminate H].
Qed.


(** A token counter that raises leaves the key of its query behind for good. *)
Lemma token_count_failure_leaks :
  ∃ sys k, demo_reachable_from sys ∧ leaked sys k 0 ∧ owned (shared sys) !! 0%nat = None ∧ callers sys !! 0%nat = Some (query "find slow log query", Done (Err (Raised ()))).
Proof.
  destruct (run word32 id demo_service demo_qualifier demo_digest demo_provider 96 2 demo_reply [0; 0; 0]%nat demo_submitted) as [sys|] eqn:Hr; [|by vm_compute in Hr].
  assert (demo_reachable_from sys) as Hsys by (by apply (reachable_run _ _ _ _ _ _ _ _ _ 2 demo_reply ltac:(done) demo_reply_ok [0; 0; 0]%nat demo_submitted); [apply demo_submitted_reachable|]).
  exists (put 0 (query "find slow log query") (Done (Err (Raised ()))) (shared sys) sys), (txt "s:d:find slow log query").
  assert (callers sys !! 0%nat = Some (query "find slow log query", Counting (Some _MODE_ON) (Some (txt "s:d:find slow log query"))) ∧
    inflight (shared sys) !! txt "s:d:find slow log query" = Some 0%nat ∧ owned (shared sys) !! 0%nat = None) as (H1&H2&H3).
  { vm_compute in Hr. injection Hr as <-. vm_compute. done. }
  split_and!; [|split; [done|eexists _, _; cbn; by rewrite lookup_insert_eq]|done|cbn; by rewrite lookup_insert_eq].
  destruct Hsys as (c&Hc&Hsys). exists c. split; [done|]. eapply rtc_r; [exact Hsys|]. apply st_move. econstructor; [exact H1|apply mv_count_raises].
Qed.

(** The purpose plays no part in keys, and a batch is embedded for the purpose of its first
    entry: here a text queued as a document is answered with the embedding of a query. *)
Lemma purposes_mixed :
  let doc s := {| rq_text := txt s; rq_purpose := "document"; no_embedding_cache_shortcut := false |} in
  let sn := snapshot demo_digest 2 [(0%nat, query "retry"); (1%nat, doc "retry"); (2%nat, doc "budget")] in
  purpose sn = "query"%string ∧ unique_texts sn = [txt "retry"; txt "budget"].
Proof. vm_compute. done. Qed.
End Coalescer.
