(* ===== verification/VectorStore.v ===== *)
(** * The vector store on files

    src/src/code_indexer/storage/filesystem_vector_store.py with the parts of
    hnsw_index_manager.py that decide which points a search can find.

    - [Json], [Filter]: payloads and the filters on them ([_parse_filter]).
    - [PathIndex]: which points belong to a source file.
    - [Collection]: one collection that is not temporal: its vector files, the index from
      identifiers to files, the path index, the changes of an indexing session and the
      labels of the search index, with the operations that read and write them.

    The directory of a vector, a computation of NumPy with the collection's projection
    matrix, is a parameter.  Operations run one after the other; the cache of file paths,
    progress reports and the update of the index in watch mode are left out. *)

From S2P Require Import Prelude.
From S2P Require Import PyText.
From S2P Require Import Filters.
From stdpp Require Import options.

Module Json.

Inductive Json :=
| JNull
| JBool (b : bool)
| JNum (q : Q)
| JStr (s : text)
| JList (l : list Json)
| JDict (d : list (text * Json)).

Abbreviation Dict := (list (text * Json)).

(** Booleans are numbers. *)
Definition num (j : Json) : option Q :=
  match j with JBool b => Some (if b then 1%Q else 0%Q) | JNum q => Some q | _ => None end.

(** [a == b]; dictionaries are equal whatever their order. *)
Fixpoint json_eqb (a b : Json) : bool :=
  match a, b with
  | JNull, JNull => true
  | JStr s, JStr t => bool_decide (s = t)
  | JList l, JList k =>
      (fix go l k := match l, k with
                     | [], [] => true
                     | x :: l', y :: k' => json_eqb x y && go l' k'
                     | _, _ => false
                     end) l k
  | JDict d, JDict e =>
      bool_decide (length d = length e) &&
      forallb (λ kv, match kv with (key, v) => match dget key e with Some w => json_eqb v w | None => false end end) d
  | _, _ => match num a, num b with Some x, Some y => Qeq_bool x y | _, _ => false end
  end.

Definition truthy (j : Json) : bool :=
  match j with
  | JNull => false
  | JBool b => b
  | JNum q => negb (Qeq_bool q 0)
  | JStr s => bool_decide (s ≠ [])
  | JList l => match l with [] => false | _ => true end
  | JDict d => match d with [] => false | _ => true end
  end.

Lemma json_eqb_str s j : json_eqb j (JStr s) = true ↔ j = JStr s.
Proof.
  destruct j; cbn; try done. rewrite bool_decide_eq_true. split; [by intros ->|by intros [= ->]].
Qed.
End Json.
Export Json.

Module Filter.

Record Range := { gte : option Q; gt : option Q; lte : option Q; lt : option Q }.
Record Match := { m_any : option (list Json); m_contains : option text; m_value : option Json; m_text : option text }.

(** A nested clause has one of its lists at least. *)
Inductive Cond :=
| Simple (key : text) (range : Range) (spec : Match)
| Nested (must should must_not : option (list Cond)).

Inductive Conditions :=
| NoFilter
| Flat (expected : list (text * Json))
| Clauses (must should must_not : option (list Cond)).

Definition no_range : Range := {| gte := None; gt := None; lte := None; lt := None |}.
Definition value_is (v : Json) : Match := {| m_any := None; m_contains := None; m_value := Some v; m_text := None |}.
Definition any_of_values (l : list Json) : Match := {| m_any := Some l; m_contains := None; m_value := None; m_text := None |}.

(** [{"key": key, "match": {"value": v}}] *)
Definition equals (key : text) (v : text) : Cond := Simple key no_range (value_is (JStr v)).

Section filter.
Context {Spec : Type} (compile : text → option Spec) (match_file : Spec → text → option bool) (lower : text → text).
Abbreviation answer := (result PathPattern.error bool).

(** [current.get(part)] for each part of a dotted key; [None]: a part of something that is
    not a dictionary. *)
Fixpoint descend (parts : list text) (current : Json) : option Json :=
  match parts with
  | [] => Some current
  | k :: rest => match current with JDict d => descend rest (default JNull (dget k d)) | _ => None end
  end.

Definition within (r : Range) (x : Q) : bool :=
  match gte r with Some b => negb (Qltb x b) | None => true end &&
  match gt r with Some b => negb (Qle_bool x b) | None => true end &&
  match lte r with Some b => negb (Qltb b x) | None => true end &&
  match lt r with Some b => negb (Qle_bool b x) | None => true end.

Definition has_range (r : Range) : bool :=
  match r with {| gte := None; gt := None; lte := None; lt := None |} => false | _ => true end.

Definition check_match (m : Match) (current : Json) : answer :=
  match m_any m, m_contains m, m_value m, m_text m with
  | Some allowed, _, _, _ => Ok (existsb (json_eqb current) allowed)
  | None, Some sub, _, _ => Ok (match current with JStr s => contains (lower sub) (lower s) | _ => false end)
  | None, None, Some expected, _ => Ok (json_eqb current expected)
  | None, None, None, Some pattern =>
      match current with JStr s => PatternMatcher.direct compile match_file s (Some pattern) | _ => Ok false end
  | None, None, None, None => Ok false
  end.

Definition evaluate_simple (key : text) (r : Range) (m : Match) (payload : Dict) : answer :=
  if decide (key = []) then Ok false
  else
    match descend (split_on dot key) (JDict payload) with
    | None => Ok false
    | Some found =>
        let current := match found, dget (txt "file_path") payload with
                       | JNull, Some p => if decide (key = txt "path") then p else found
                       | _, _ => found
                       end in
        if has_range r then Ok (match num current with Some x => within r x | None => false end)
        else check_match m current
    end.

Section loops.
Context {A : Type} (f : A → answer).

(** The loop over "must": false at the first clause that fails. *)
Fixpoint all_hold (l : list A) : answer :=
  match l with
  | [] => Ok true
  | x :: l' => b ← f x; if (b : bool) then all_hold l' else Ok false
  end.

(** [any(...)], and the loop over "must_not" up to negation. *)
Fixpoint any_holds (l : list A) : answer :=
  match l with
  | [] => Ok false
  | x :: l' => b ← f x; if (b : bool) then Ok true else any_holds l'
  end.
End loops.

Fixpoint evaluate_condition (payload : Dict) (c : Cond) : answer :=
  match c with
  | Simple key r m => evaluate_simple key r m payload
  | Nested must should must_not =>
      ok ← match must with Some l => all_hold (evaluate_condition payload) l | None => Ok true end;
      if negb ok then Ok false else
      ok ← match should with Some l => any_holds (evaluate_condition payload) l | None => Ok true end;
      if negb ok then Ok false else
      match must_not with Some l => negb <$> any_holds (evaluate_condition payload) l | None => Ok true end
  end.

Definition flat_holds (payload : Dict) (kv : text * Json) : answer :=
  Ok (match descend (split_on dot kv.1) (JDict payload) with Some current => json_eqb current kv.2 | None => false end).

Definition _parse_filter (fc : Conditions) (payload : Dict) : answer :=
  match fc with
  | NoFilter => Ok true
  | Flat expected => all_hold (flat_holds payload) expected
  | Clauses must should must_not => evaluate_condition payload (Nested must should must_not)
  end.

(** ** The filters in use *)

Lemma evaluate_plain key r m payload :
  key ≠ [] → dot ∉ key → key ≠ txt "path" →
  evaluate_simple key r m payload =
  let current := default JNull (dget key payload) in
  if has_range r then Ok (match num current with Some x => within r x | None => false end) else check_match m current.
Proof.
  intros Hne Hd Hp. unfold evaluate_simple. rewrite decide_False, split_on_no_sep by done. cbn [descend].
  destruct (default JNull (dget key payload)), (dget (txt "file_path") payload); try done. by rewrite decide_False.
Qed.

Lemma equals_spec key v payload :
  key ≠ [] → dot ∉ key → key ≠ txt "path" →
  evaluate_condition payload (equals key v) = Ok (match dget key payload with Some j => json_eqb j (JStr v) | None => false end).
Proof. intros. cbn [equals evaluate_condition]. rewrite evaluate_plain by done. by destruct (dget key payload). Qed.

Lemma path_equals_spec v payload :
  evaluate_condition payload (equals (txt "path") v) =
  Ok (match dget (txt "path") payload with
      | Some JNull | None => match dget (txt "file_path") payload with Some j => json_eqb j (JStr v) | None => false end
      | Some j => json_eqb j (JStr v)
      end).
Proof.
  cbn [equals evaluate_condition]. unfold evaluate_simple. rewrite decide_False by done. change (split_on dot (txt "path")) with [txt "path"].
  cbn [descend]. destruct (dget (txt "path") payload) as [[]|], (dget (txt "file_path") payload); cbn [default]; by rewrite ?decide_True.
Qed.

(** A list of values is never one of the allowed values unless a list is allowed: the
    filter on [hidden_branches] with "any" matches no payload. *)
Lemma any_of_list_never key r l allowed payload :
  key ≠ [] → dot ∉ key → key ≠ txt "path" → has_range r = false → dget key payload = Some (JList l) →
  Forall (λ v, match v with JList _ => False | _ => True end) allowed →
  evaluate_condition payload (Simple key r (any_of_values allowed)) = Ok false.
Proof.
  intros Hne Hd Hp Hr Hk Hall. cbn [evaluate_condition]. rewrite evaluate_plain by done. cbv zeta. rewrite Hk, Hr. cbn.
  f_equal. induction Hall as [|v allowed Hv Hall IH]; [done|]. cbn [existsb]. rewrite IH. by destruct v.
Qed.
End filter.
End Filter.

Module PathIndex.

Abbreviation PathIndex := (gmap text (gset text)).

Definition get_point_ids (file_path : text) (px : PathIndex) : gset text := default ∅ (px !! file_path).

Definition add_point (file_path point_id : text) (px : PathIndex) : PathIndex :=
  <[file_path := {[point_id]} ∪ get_point_ids file_path px]> px.

Definition remove_point (file_path point_id : text) (px : PathIndex) : PathIndex :=
  match px !! file_path with
  | Some s => let s' := s ∖ {[point_id]} in if decide (s' = ∅) then delete file_path px else <[file_path := s']> px
  | None => px
  end.

Definition has_other_owner (point_id : text) (px : PathIndex) : bool := negb (bool_decide (map_Forall (λ _ s, point_id ∉ s) px)).

Definition merge_from (px other : PathIndex) : PathIndex :=
  map_fold (λ file_path point_ids acc, set_fold (add_point file_path) acc point_ids) px other.

Lemma get_add p q i px : get_point_ids q (add_point p i px) = if decide (q = p) then {[i]} ∪ get_point_ids p px else get_point_ids q px.
Proof. unfold add_point, get_point_ids. case_decide; [subst; by rewrite lookup_insert_eq|by rewrite lookup_insert_ne]. Qed.

Lemma get_remove p q i px : get_point_ids q (remove_point p i px) = if decide (q = p) then get_point_ids p px ∖ {[i]} else get_point_ids q px.
Proof.
  unfold remove_point, get_point_ids. destruct (px !! p) as [s|] eqn:E.
  - case_decide as Hs; case_decide; subst; rewrite ?lookup_delete_eq, ?lookup_delete_ne, ?lookup_insert_eq, ?lookup_insert_ne, ?E by done; cbn; try done.
  - case_decide; [subst; rewrite E; cbn; set_solver|done].
Qed.

Lemma has_other_owner_spec i px : has_other_owner i px = true ↔ ∃ q, i ∈ get_point_ids q px.
Proof.
  unfold has_other_owner, get_point_ids. rewrite negb_true_iff, bool_decide_eq_false, map_not_Forall by (intros; apply _). split.
  - intros (q&s&Hq&Hi). exists q. rewrite Hq. cbn. destruct (decide (i ∈ s)); [done|by destruct Hi].
  - intros (q&Hi). destruct (px !! q) as [s|] eqn:E; cbn in Hi; [|set_solver]. exists q, s. split; [done|]. intros Hn. by apply Hn.
Qed.

Lemma get_remove_all (p q : text) (X : gset text) (px : PathIndex) :
  get_point_ids q (set_fold (remove_point p) px X) = if decide (q = p) then get_point_ids p px ∖ X else get_point_ids q px.
Proof.
  apply (set_fold_ind_L (λ r X, get_point_ids q r = if decide (q = p) then get_point_ids p px ∖ X else get_point_ids q px)).
  - case_decide; [subst; set_solver|done].
  - intros i Y r Hi IH. rewrite get_remove. case_decide as Hq; [|done]. subst q. rewrite IH. set_solver.
Qed.

Lemma get_add_all (p q : text) (X : gset text) (px : PathIndex) :
  get_point_ids q (set_fold (add_point p) px X) = if decide (q = p) then X ∪ get_point_ids p px else get_point_ids q px.
Proof.
  apply (set_fold_ind_L (λ r X, get_point_ids q r = if decide (q = p) then X ∪ get_point_ids p px else get_point_ids q px)).
  - case_decide; [subst; set_solver|done].
  - intros i Y r Hi IH. rewrite get_add. case_decide as Hq; [|done]. subst q. rewrite IH. set_solver.
Qed.

(** Merging adds what the other index knows and forgets nothing. *)
Lemma get_merge (q : text) (px other : PathIndex) : get_point_ids q (merge_from px other) = get_point_ids q other ∪ get_point_ids q px.
Proof.
  apply (map_fold_weak_ind (λ r other, get_point_ids q r = get_point_ids q other ∪ get_point_ids q px)).
  - unfold get_point_ids at 2. rewrite lookup_empty. cbn. set_solver.
  - intros p X r acc Hp IH. rewrite get_add_all. unfold get_point_ids at 3. case_decide as Hq.
    + subst. rewrite lookup_insert_eq. cbn. rewrite IH. unfold get_point_ids at 1. rewrite Hp. cbn. set_solver.
    + rewrite lookup_insert_ne by done. apply IH.
Qed.
End PathIndex.

Module Collection.
Import Filter PathIndex.

(** A vector file by its parts below the collection's directory. *)
Abbreviation vpath := (list text).

(** Paths are compared part by part. *)
Fixpoint parts_leb (a b : vpath) : bool :=
  match a, b with
  | [], _ => true
  | _ :: _, [] => false
  | x :: a', y :: b' => if decide (x = y) then parts_leb a' b' else text_leb x y
  end.

Definition file_le (a b : vpath) : Prop := parts_leb a b = true.
#[export] Instance file_le_dec : RelDecision file_le.
Proof. intros a b. unfold file_le. apply _. Defined.

Definition underscore : N := 95.
Definition vector_name (point_id : text) : text := txt "vector_" ++ replace_char slash underscore point_id ++ txt ".json".
Definition file_name (f : vpath) : text := default [] (last f).

(** The set of identifiers a file name stands for: [filename[7:-5]]. *)
Definition id_of_name (n : text) : option text :=
  if is_prefix (txt "vector_") n && bool_decide (drop (length n - 5) n = txt ".json")
  then Some (drop 7 (take (length n - 5) n)) else None.

Inductive error := CollectionMissing | InvalidVector | MissingChunkText | FilterError (e : PathPattern.error).

(** What git says about the files of a batch: blobs at HEAD and files with changes. *)
Record Git := { blob_hashes : gmap text text; uncommitted : gset text }.

Record Changes := { added : gset text; updated : gset text; deleted : gset text }.
Definition no_changes : Changes := {| added := ∅; updated := ∅; deleted := ∅ |}.
Definition any_change (ch : Changes) : bool := bool_decide (added ch ∪ updated ch ∪ deleted ch ≠ ∅).

(** "hnsw_index" in the metadata of the collection. *)
Record Meta := { id_mapping : gmap nat text; is_stale : bool; filtered : bool; current_branch : option text }.

Section collection.
Context {V : Type} (vdir : V → list text) (valid : V → bool).
Record Point := { p_id : text; p_vector : V; p_payload : Dict; p_chunk_text : option text }.

(** A vector file. *)
Record Doc := {
  d_id : text; d_vector : V; d_payload : Dict;
  d_chunk_text : option text; d_blob : option text; d_uncommitted : option bool }.

(** [files]: the JSON files but for the metadata, [None] one that cannot be parsed.  [saved_ids] is what the identifier
    index on disk gives, [Err] when it is corrupt.  [labels] are the live labels of the
    search index, [None] when there is no such file; [did_filtered_rebuild] is the flag
    [_branch_isolation_did_filtered_rebuild]. *)
Record Coll := {
  present : bool;
  files : gmap vpath (option Doc);
  ids : option (gmap text vpath);
  saved_ids : result () (gmap text vpath);
  paths : option PathIndex;
  saved_paths : PathIndex;
  changes : option Changes;
  labels : option (gset nat);
  meta : option Meta;
  did_filtered_rebuild : bool }.

Definition with_files x c := {| present := present c; files := x; ids := ids c; saved_ids := saved_ids c; paths := paths c;
  saved_paths := saved_paths c; changes := changes c; labels := labels c; meta := meta c; did_filtered_rebuild := did_filtered_rebuild c |}.
Definition with_ids x c := {| present := present c; files := files c; ids := x; saved_ids := saved_ids c; paths := paths c;
  saved_paths := saved_paths c; changes := changes c; labels := labels c; meta := meta c; did_filtered_rebuild := did_filtered_rebuild c |}.
Definition with_saved x y c := {| present := present c; files := files c; ids := ids c; saved_ids := x; paths := paths c;
  saved_paths := y; changes := changes c; labels := labels c; meta := meta c; did_filtered_rebuild := did_filtered_rebuild c |}.
Definition with_paths x c := {| present := present c; files := files c; ids := ids c; saved_ids := saved_ids c; paths := x;
  saved_paths := saved_paths c; changes := changes c; labels := labels c; meta := meta c; did_filtered_rebuild := did_filtered_rebuild c |}.
Definition with_changes x c := {| present := present c; files := files c; ids := ids c; saved_ids := saved_ids c; paths := paths c;
  saved_paths := saved_paths c; changes := x; labels := labels c; meta := meta c; did_filtered_rebuild := did_filtered_rebuild c |}.
Definition with_index x y c := {| present := present c; files := files c; ids := ids c; saved_ids := saved_ids c; paths := paths c;
  saved_paths := saved_paths c; changes := changes c; labels := x; meta := y; did_filtered_rebuild := did_filtered_rebuild c |}.
Definition with_flag x c := {| present := present c; files := files c; ids := ids c; saved_ids := saved_ids c; paths := paths c;
  saved_paths := saved_paths c; changes := changes c; labels := labels c; meta := meta c; did_filtered_rebuild := x |}.

(** ** Payload fields *)

(** The path of a payload, if it is not empty; a path is a string. *)
Definition path_of_payload (d : Dict) : option text :=
  match dget (txt "path") d with Some (JStr p) => if decide (p = []) then None else Some p | _ => None end.
Definition d_path (d : Doc) : option text := path_of_payload (d_payload d).

Definition type_is (t : text) (d : Dict) : bool := match dget (txt "type") d with Some (JStr s) => bool_decide (s = t) | _ => false end.

Definition content_of (d : Dict) : text := match dget (txt "content") d with Some (JStr s) => s | _ => [] end.

(** ** Writing *)

Definition file_of (v : V) (point_id : text) : vpath := vdir v ++ [vector_name point_id].

Definition _prepare_vector_data_batch (git : option Git) (p : Point) : result error Doc :=
  let pl := p_payload p in
  let doc payload chunk blob dirty := {| d_id := p_id p; d_vector := p_vector p; d_payload := payload; d_chunk_text := chunk; d_blob := blob; d_uncommitted := dirty |} in
  let stripped := ddel (txt "content") pl in
  let stored := Some (default (content_of pl) (p_chunk_text p)) in
  if type_is (txt "commit_message") pl then
    match p_chunk_text p with Some t => Ok (doc pl (Some t) None None) | None => Err MissingChunkText end
  else if type_is (txt "commit_diff") pl then
    Ok (doc stripped (if truthy (default JNull (dget (txt "reconstruct_from_git") pl)) then None else stored) None None)
  else
    match git, path_of_payload pl with
    | Some g, Some path =>
        match blob_hashes g !! path with
        | Some h => if bool_decide (path ∈ uncommitted g) then Ok (doc stripped stored None (Some true)) else Ok (doc stripped None (Some h) (Some false))
        | None => Ok (doc stripped stored None (Some true))
        end
    | _, _ => Ok (doc stripped stored None None)
    end.
(** ** The identifier index and the path index *)

(** Every parsed file under its own identifier, if it has one. *)
Definition rebuilt (fs : gmap vpath (option Doc)) : gmap text vpath :=
  list_to_map (omap (λ fd, d ← fd.2; if decide (d_id d = []) then None else Some (d_id d, fd.1)) (map_to_list fs)).

Definition scanned_names (fs : gmap vpath (option Doc)) : gmap text vpath :=
  list_to_map (omap (λ fd, (., fd.1) <$> id_of_name (file_name fd.1)) (map_to_list fs)).

Definition _load_id_index (c : Coll) : gmap text vpath :=
  match saved_ids c with
  | Err _ => rebuilt (files c)
  | Ok m => if decide (m = ∅) then scanned_names (files c) else m
  end.

Definition ids_of (c : Coll) : gmap text vpath := default (_load_id_index c) (ids c).
Definition paths_of (c : Coll) : PathIndex := default (saved_paths c) (paths c).
(** A corrupt index is repaired on disk as well. *)
Definition load_ids (c : Coll) : Coll :=
  match ids c with
  | Some _ => c
  | None =>
      let m := _load_id_index c in
      with_ids (Some m) (match saved_ids c with Err _ => with_saved (Ok m) (saved_paths c) c | Ok _ => c end)
  end.
Definition load_paths (c : Coll) : Coll := with_paths (Some (paths_of c)) c.

(** A file on disk and its contents; [None] also when it cannot be parsed. *)
Definition read (f : vpath) (c : Coll) : option Doc := mjoin (files c !! f).

Definition get_point (i : text) (c : Coll) : option Doc := ids_of c !! i ≫= λ f, read f c.

(** ** Upserting *)

Definition note (f : Changes → Changes) (c : Coll) : Coll := with_changes (f <$> changes c) c.
Definition note_deleted (i : text) (ch : Changes) : Changes := {| added := added ch; updated := updated ch; deleted := {[i]} ∪ deleted ch |}.
Definition note_written (existed : bool) (i : text) (ch : Changes) : Changes :=
  if existed then {| added := added ch; updated := {[i]} ∪ updated ch; deleted := deleted ch |}
  else {| added := {[i]} ∪ added ch; updated := updated ch; deleted := deleted ch |}.

(** The points of a batch by path, in the order of the first point of each; points
    without a path are in no group. *)
Definition group_point (groups : list (text * list Point)) (p : Point) : list (text * list Point) :=
  match path_of_payload (p_payload p) with Some path => dset path (default [] (dget path groups) ++ [p]) groups | None => groups end.
Definition points_by_file (batch : list Point) : list (text * list Point) := foldl group_point [] batch.

(** Step 1: the points a file no longer has leave its entry; those of no other file are
    to be deleted. *)
Definition gather (m : gmap text vpath) (acc : PathIndex * list (text * vpath)) (g : text * list Point) : PathIndex * list (text * vpath) :=
  let '(px, orphans_to_delete) := acc in
  let orphans := get_point_ids g.1 px ∖ list_to_set (p_id <$> g.2) in
  let px' := set_fold (remove_point g.1) px orphans in
  (px', orphans_to_delete ++ omap (λ i, if has_other_owner i px' then None else (i,.) <$> m !! i) (elements orphans)).

(** Step 3 for one orphan. *)
Definition evict (c : Coll) (o : text * vpath) : Coll :=
  if decide (ids_of c !! o.1 = Some o.2) then note (note_deleted o.1) (with_ids (Some (delete o.1 (ids_of c))) c) else c.

Definition cleanup (batch : list Point) (c : Coll) : Coll :=
  let '(px, orphans) := foldl (gather (ids_of c)) (paths_of c, []) (points_by_file batch) in
  let c1 := with_files (foldl (λ fs o, delete o.2 fs) (files c) orphans) (with_paths (Some px) c) in
  foldl evict c1 orphans.

Definition write_doc (p : Point) (d : Doc) (c : Coll) : Coll :=
  let f := file_of (p_vector p) (p_id p) in
  let existed := bool_decide (is_Some (ids_of c !! p_id p)) in
  let c1 := note (note_written existed (p_id p)) (with_ids (Some (<[p_id p := f]> (ids_of c))) (with_files (<[f := Some d]> (files c)) c)) in
  match path_of_payload (p_payload p) with
  | Some path => with_paths (Some (add_point path (p_id p) (paths_of c))) c1
  | None => c1
  end.

Definition write_point (git : option Git) (p : Point) (c : Coll) : result error () * Coll :=
  if negb (valid (p_vector p)) then (Err InvalidVector, c)
  else match _prepare_vector_data_batch git p with
       | Err e => (Err e, c)
       | Ok d => (Ok (), write_doc p d c)
       end.

(** Points before one that raises have been written. *)
Fixpoint write_points (git : option Git) (batch : list Point) (c : Coll) : result error () * Coll :=
  match batch with
  | [] => (Ok (), c)
  | p :: rest =>
      match write_point git p c with
      | (Ok _, c') => write_points git rest c'
      | (Err e, c') => (Err e, c')
      end
  end.

Definition upsert_points (git : option Git) (batch : list Point) (c : Coll) : result error () * Coll :=
  if negb (present c) then (Err CollectionMissing, c)
  else write_points git batch (cleanup batch (load_paths (load_ids c))).

(** ** Deleting *)

Definition delete_point (acc : Coll * list (text * text)) (i : text) : Coll * list (text * text) :=
  let '(c, removals) := acc in
  match ids_of c !! i with
  | None => acc
  | Some f =>
      (note (note_deleted i) (with_ids (Some (delete i (ids_of c))) (with_files (delete f (files c)) c)),
       match read f c ≫= d_path with Some p => removals ++ [(p, i)] | None => removals end)
  end.

Definition delete_points (point_ids : list text) (c : Coll) : Coll :=
  let '(c1, removals) := foldl delete_point (load_ids c, []) point_ids in
  with_paths ((λ px, foldl (λ px r, remove_point r.1 r.2 px) px removals) <$> paths c1) c1.

(** ** Consistency

    The identifier index lists every parsed file under its document's identifier and
    nothing else, and the path index agrees with the paths of the documents: no point
    belongs to two source files. *)

Definition safe_id (i : text) : Prop := slash ∉ i.

Record consistent (c : Coll) : Prop := {
  co_loaded : is_Some (ids c) ∧ is_Some (paths c);
  co_file : ∀ i f, ids_of c !! i = Some f → ∃ d, read f c = Some d ∧ d_id d = i ∧ f = file_of (d_vector d) i ∧ safe_id i;
  co_doc : ∀ f d, read f c = Some d → ids_of c !! d_id d = Some f;
  co_path : ∀ p i, i ∈ get_point_ids p (paths_of c) ↔ ∃ d, get_point i c = Some d ∧ d_path d = Some p }.

Lemma vector_name_inj i j : safe_id i → safe_id j → vector_name i = vector_name j → i = j.
Proof.
  intros Hi Hj E. unfold vector_name in E. apply app_inv_head, app_inv_tail in E.
  assert (∀ k : text, slash ∉ k → replace_char slash underscore k = k) as Hid.
  { intros k Hk. unfold replace_char. rewrite <-(list_fmap_id k) at 2. apply list_fmap_ext. intros n x Hx.
    destruct (N.eqb_spec x slash) as [->|]; [|done]. destruct Hk. by eapply list_elem_of_lookup_2. }
  by rewrite !Hid in E.
Qed.

Lemma file_of_inj v w i j : safe_id i → safe_id j → file_of v i = file_of w j → i = j.
Proof. intros Hi Hj [_ E]%app_inj_tail. by apply vector_name_inj. Qed.

Lemma get_point_Some c i d : get_point i c = Some d ↔ ∃ f, ids_of c !! i = Some f ∧ read f c = Some d.
Proof. unfold get_point. rewrite bind_Some. done. Qed.

Lemma get_point_id c i d : consistent c → get_point i c = Some d → d_id d = i ∧ ids_of c !! i = Some (file_of (d_vector d) i) ∧ safe_id i.
Proof.
  intros Hc (f&Hf&Hd)%get_point_Some. destruct (co_file c Hc i f Hf) as (d'&Hd'&Hid&->&Hs). rewrite Hd in Hd'. by injection Hd' as <-.
Qed.

Lemma get_point_doc c f d : consistent c → read f c = Some d → get_point (d_id d) c = Some d.
Proof. intros Hc Hd. apply get_point_Some. eauto using co_doc. Qed.

Lemma get_point_dom c i : consistent c → is_Some (ids_of c !! i) ↔ is_Some (get_point i c).
Proof.
  intros Hc. split.
  - intros [f Hf]. destruct (co_file c Hc i f Hf) as (d&Hd&_). exists d. apply get_point_Some. eauto.
  - intros [d (f&Hf&_)%get_point_Some]. eauto.
Qed.

(** A point belongs to one source file. *)
Lemma one_owner c p q i : consistent c → i ∈ get_point_ids p (paths_of c) → i ∈ get_point_ids q (paths_of c) → p = q.
Proof. intros Hc (d&Hd&Hp)%co_path (d'&Hd'&Hq)%co_path; [|done..]. congruence. Qed.

Lemma load_ids_loaded c : is_Some (ids c) → load_ids c = c.
Proof. intros [m Hm]. unfold load_ids. by rewrite Hm. Qed.

Lemma load_loaded c : is_Some (ids c) ∧ is_Some (paths c) → load_paths (load_ids c) = c.
Proof. intros [[m Hm] [px Hpx]]. destruct c; cbn in *. unfold load_paths, load_ids, ids_of, paths_of, with_paths, with_ids. cbn. by subst. Qed.

(** Only files, identifiers and paths matter. *)
Lemma consistent_same c c' :
  consistent c → files c' = files c → ids c' = ids c → paths c' = paths c →
  consistent c' ∧ (∀ i, get_point i c' = get_point i c) ∧ ids_of c' = ids_of c.
Proof.
  intros [[[m Hm] [px Hpx]] H2 H3 H4] Hf Hi Hpa. assert (ids_of c' = ids_of c) as Hids by (unfold ids_of; by rewrite Hi, Hm).
  assert (∀ f, read f c' = read f c) as Hread by (intros f; unfold read; by rewrite Hf).
  assert (∀ i, get_point i c' = get_point i c) as Hget by (intros i; unfold get_point; rewrite Hids; destruct (ids_of c !! i); [apply Hread|done]).
  split; [|done]. split.
  - rewrite Hi, Hpa. split; by eexists.
  - setoid_rewrite Hids. setoid_rewrite Hread. apply H2.
  - setoid_rewrite Hids. setoid_rewrite Hread. apply H3.
  - assert (paths_of c' = paths_of c) as -> by (unfold paths_of; by rewrite Hpa, Hpx). setoid_rewrite Hget. apply H4.
Qed.

(** ** Writing one document *)

Lemma prepared_doc git p d : _prepare_vector_data_batch git p = Ok d → d_id d = p_id p ∧ d_vector d = p_vector p ∧ d_path d = path_of_payload (p_payload p).
Proof.
  assert (∀ pl, path_of_payload (ddel (txt "content") pl) = path_of_payload pl) as Hdel.
  { intros pl. unfold path_of_payload. rewrite dget_ddel. by rewrite decide_False. }
  unfold _prepare_vector_data_batch, d_path. intros H.
  repeat (case_match; simplify_eq/=; try done); rewrite ?Hdel; auto.
Qed.

Lemma write_doc_reads p d c j :
  consistent c → safe_id (p_id p) →
  ids_of (write_doc p d c) !! j = (if decide (j = p_id p) then Some (file_of (p_vector p) (p_id p)) else ids_of c !! j) ∧
  get_point j (write_doc p d c) = if decide (j = p_id p) then Some d else get_point j c.
Proof.
  intros Hc Hs. set (f := file_of (p_vector p) (p_id p)).
  assert (ids_of (write_doc p d c) = <[p_id p := f]> (ids_of c)) as Hids by (unfold write_doc, ids_of; by destruct (path_of_payload _)).
  assert (files (write_doc p d c) = <[f := Some d]> (files c)) as Hfiles by (unfold write_doc; by destruct (path_of_payload _)).
  unfold get_point, read. rewrite Hids, Hfiles. case_decide as Hj.
  - subst j. rewrite lookup_insert_eq. split; [done|]. cbn. by rewrite lookup_insert_eq.
  - rewrite lookup_insert_ne by done. split; [done|]. destruct (ids_of c !! j) as [g|] eqn:Hg; [|done]. cbn.
    rewrite lookup_insert_ne; [done|]. intros <-. destruct (co_file c Hc j _ Hg) as (d'&_&_&E&Hs'). apply file_of_inj in E; [|done..]. congruence.
Qed.

(** A point may replace one of its own file whose vector has the same directory. *)
Record writable (c : Coll) (p : Point) : Prop := {
  wr_safe : safe_id (p_id p);
  wr_same : ∀ d, get_point (p_id p) c = Some d → vdir (d_vector d) = vdir (p_vector p) ∧ d_path d = path_of_payload (p_payload p) }.

Lemma paths_of_write p d c :
  paths_of (write_doc p d c) = match path_of_payload (p_payload p) with Some path => add_point path (p_id p) (paths_of c) | None => paths_of c end.
Proof. unfold write_doc, paths_of. by destruct (path_of_payload _). Qed.

Lemma read_write p d c f : read f (write_doc p d c) = if decide (f = file_of (p_vector p) (p_id p)) then Some d else read f c.
Proof.
  unfold read. assert (files (write_doc p d c) = <[file_of (p_vector p) (p_id p) := Some d]> (files c)) as ->.
  { unfold write_doc. by destruct (path_of_payload _). }
  case_decide; [subst; by rewrite lookup_insert_eq|by rewrite lookup_insert_ne].
Qed.

Lemma write_doc_consistent git p d c :
  consistent c → writable c p → _prepare_vector_data_batch git p = Ok d → consistent (write_doc p d c).
Proof.
  intros Hc [Hs Hsame] (Hid&Hv&Hpath)%prepared_doc. split.
  - unfold write_doc. split; destruct (path_of_payload _); cbn; try by eexists. apply (co_loaded c Hc).
  - intros i f. destruct (write_doc_reads p d c i Hc Hs) as [-> _]. rewrite read_write. case_decide as Hi.
    + intros [= <-]. rewrite decide_True by done. exists d. by rewrite Hv, Hi.
    + intros Hf. destruct (co_file c Hc i f Hf) as (d'&Hd'&?&->&?). exists d'. rewrite decide_False; [done|].
      intros E%file_of_inj; [|done..]. congruence.
  - intros f d' Hf. rewrite read_write in Hf. destruct (write_doc_reads p d c (d_id d') Hc Hs) as [-> _]. case_decide as Hff.
    + injection Hf as <-. by rewrite Hid, decide_True, Hff.
    + pose proof (co_doc c Hc f d' Hf) as Hin. case_decide as Hi; [|done]. exfalso. apply Hff.
      pose proof (get_point_doc c f d' Hc Hf) as Hg. rewrite Hi in Hg, Hin. destruct (Hsame d' Hg) as [Hdir _].
      destruct (co_file c Hc _ _ Hin) as (d2&Hd2&_&->&_). rewrite Hf in Hd2. injection Hd2 as <-. unfold file_of. by rewrite Hdir.
  - intros q i. rewrite paths_of_write. destruct (write_doc_reads p d c i Hc Hs) as [_ ->].
    assert (i ∈ get_point_ids q (paths_of c) ↔ ∃ d0, get_point i c = Some d0 ∧ d_path d0 = Some q) as Hq by apply (co_path c Hc).
    destruct (path_of_payload (p_payload p)) as [path|] eqn:Ep; rewrite ?get_add; repeat case_decide; subst; rewrite ?elem_of_union, ?elem_of_singleton, ?Hq.
    + split; [by exists d|by left].
    + split; [by intros [|]|by right].
    + split; [intros (d0&Hd0&Hq0); destruct (Hsame d0 Hd0)|intros (d0&[= <-]&Hq0)]; congruence.
    + done.
    + split; [intros (d0&Hd0&Hq0); destruct (Hsame d0 Hd0)|intros (d0&[= <-]&Hq0)]; congruence.
    + done.
Qed.

(** ** The clean-up before an upsert *)

Definition has_path (path : text) (p : Point) : Prop := path_of_payload (p_payload p) = Some path.
#[local] Instance has_path_dec path p : Decision (has_path path p) := decide_rel (=) _ _.

(** The points of a path in a batch, if there are any. *)
Definition batch_of (path : text) (batch : list Point) : option (list Point) :=
  match filter (has_path path) batch with [] => None | l => Some l end.

Lemma points_by_file_spec batch path :
  dget path (points_by_file batch) = batch_of path batch ∧ NoDup (points_by_file batch).*1.
Proof.
  induction batch as [|p batch [IH IHnd]] using rev_ind; [split; [done|constructor]|].
  unfold points_by_file in *. rewrite foldl_snoc. unfold group_point at 1 3. unfold batch_of in *. rewrite filter_app.
  destruct (path_of_payload (p_payload p)) as [q|] eqn:Eq.
  - split; [|by apply dset_NoDup]. rewrite dget_dset. case_decide as Hq.
    + subst q. rewrite filter_cons_True by done. rewrite filter_nil. rewrite IH. by destruct (filter (has_path path) batch).
    + rewrite filter_cons_False by (unfold has_path; congruence). by rewrite filter_nil, app_nil_r.
  - rewrite filter_cons_False by (unfold has_path; congruence). by rewrite filter_nil, app_nil_r.
Qed.

(** The identifiers a file loses. *)
Definition lost (px : PathIndex) (groups : list (text * list Point)) (path : text) : gset text :=
  match dget path groups with Some l => get_point_ids path px ∖ list_to_set (p_id <$> l) | None => ∅ end.

Lemma gather_spec m px groups :
  (∀ p q i, i ∈ get_point_ids p px → i ∈ get_point_ids q px → p = q) → NoDup groups.*1 →
  let r := foldl (gather m) (px, []) groups in
  (∀ q, get_point_ids q r.1 = get_point_ids q px ∖ lost px groups q) ∧
  (∀ i f, (i, f) ∈ r.2 ↔ m !! i = Some f ∧ ∃ q, i ∈ lost px groups q).
Proof.
  intros Hone. induction groups as [|[p l] groups IH] using rev_ind; intros Hnd.
  { split; [intros q; unfold lost; cbn; set_solver|]. intros i f. cbn. split; [by intros ?%elem_of_nil|]. intros (_&q&Hq). unfold lost in Hq. cbn in Hq. set_solver. }
  rewrite fmap_app in Hnd. apply NoDup_app in Hnd as (Hnd&Hfresh&_). destruct (IH Hnd) as [IH1 IH2]. clear IH. cbv zeta in *.
  rewrite foldl_snoc. destruct (foldl (gather m) (px, []) groups) as [px1 sched] eqn:Ef. cbn [fst snd] in IH1, IH2.
  assert (dget p groups = None) as Hp by (apply dget_None; intros Hin; apply (Hfresh p Hin); cbn; by left).
  assert (∀ q, lost px (groups ++ [(p, l)]) q = if decide (q = p) then get_point_ids p px ∖ list_to_set (p_id <$> l) else lost px groups q) as Hlost.
  { intros q. unfold lost. assert (∀ g : list (text * list Point), dget q (g ++ [(p, l)]) = match dget q g with Some x => Some x | None => if decide (q = p) then Some l else None end) as ->.
    { induction g as [|[k v] g IHg]; cbn; [by case_decide|]. by destruct (decide (q = k)). }
    destruct (decide (q = p)) as [->|]; [by rewrite Hp|]. by destruct (dget q groups). }
  assert (get_point_ids p px1 = get_point_ids p px) as Hpp by (rewrite IH1; unfold lost; rewrite Hp; set_solver).
  cbn [gather fst snd]. rewrite Hpp. set (orphans := get_point_ids p px ∖ _) in *.
  assert (∀ q, get_point_ids q (set_fold (remove_point p) px1 orphans) = get_point_ids q px ∖ lost px (groups ++ [(p, l)]) q) as H1.
  { intros q. rewrite get_remove_all, Hlost. case_decide as Hq; [subst; by rewrite Hpp|apply IH1]. }
  split; [exact H1|]. intros i f. rewrite elem_of_app, IH2, list_elem_of_omap.
  assert (i ∈ orphans → has_other_owner i (set_fold (remove_point p) px1 orphans) = false) as Howner.
  { intros Hi. apply not_true_iff_false. intros [q Hq]%has_other_owner_spec. rewrite H1, Hlost in Hq. case_decide; [set_solver|].
    destruct (Hone q p i); [set_solver|unfold orphans in Hi; set_solver|done]. }
  split.
  - intros [(Hm&q&Hq)|(x&Hx%elem_of_elements&Hs)].
    + split; [done|]. exists q. rewrite Hlost. case_decide; [subst; unfold lost in Hq; rewrite Hp in Hq; set_solver|done].
    + destruct (m !! x) as [g|] eqn:Hg; [|by destruct (has_other_owner x _)]. destruct (has_other_owner x _) eqn:Ho; [done|].
      injection Hs as -> ->. split; [done|]. exists p. by rewrite Hlost, decide_True.
  - intros (Hm&q&Hq). rewrite Hlost in Hq. case_decide as Hqp; [|left; eauto]. right. exists i. split; [by apply elem_of_elements|].
    by rewrite (Howner Hq), Hm.
Qed.

Lemma evict_all sched c :
  let c' := foldl evict c sched in
  (∀ j g, ids_of c' !! j = Some g ↔ ids_of c !! j = Some g ∧ (j, g) ∉ sched) ∧
  files c' = files c ∧ paths c' = paths c ∧ saved_paths c' = saved_paths c ∧ (is_Some (ids c) → is_Some (ids c')) ∧
  present c' = present c.
Proof.
  revert c. induction sched as [|[i f] sched IH]; intros c; cbv zeta; cbn [foldl].
  { split_and!; try done. intros j g. split; [intros H; split; [done|apply not_elem_of_nil]|by intros [? _]]. }
  destruct (IH (evict c (i, f))) as (H1&H2&H3&H4&H5&H6). cbv zeta in *. rewrite H2, H3, H4, H6.
  unfold evict in H1, H2, H3, H4, H5, H6 |- *. cbn [fst snd] in *. case_decide as Hi.
  - split_and!; try done; [|by intros _; apply H5; eexists].
    assert (ids_of (note (note_deleted i) (with_ids (Some (delete i (ids_of c))) c)) = delete i (ids_of c)) as E by done.
    intros j g. rewrite H1, E, not_elem_of_cons, lookup_delete_Some. split.
    + intros [[Hne Hj] Hn]. split; [done|]. split; [congruence|done].
    + intros [Hj [Hne Hn]]. split; [|done]. split; [|done]. intros ->. congruence.
  - split_and!; try done. intros j g. rewrite H1, not_elem_of_cons. split; [|by intros [? []]]. intros [Hj Hn]. split; [done|]. split; [congruence|done].
Qed.

Lemma delete_all (orphans : list (text * vpath)) (fs : gmap vpath (option Doc)) f :
  foldl (λ fs o, delete o.2 fs) fs orphans !! f = if decide (f ∈ orphans.*2) then None else fs !! f.
Proof.
  revert fs. induction orphans as [|[i g] orphans IH]; intros fs; cbn [foldl]; [by rewrite decide_False by apply not_elem_of_nil|].
  rewrite IH. destruct (decide (f ∈ orphans.*2)), (decide (f ∈ ((i, g) :: orphans).*2)) as [Hin|Hin]; try done.
  - destruct Hin. by right.
  - cbn [fmap list_fmap snd] in Hin. apply elem_of_cons in Hin as [->|]; [by rewrite lookup_delete_eq|done].
  - rewrite lookup_delete_ne; [done|]. cbn [snd]. intros ->. destruct Hin. cbn. by left.
Qed.

(** The points the clean-up spares: those of other files and those of the batch. *)
Definition stays (batch : list Point) (i : text) (d : Doc) : Prop :=
  ∀ path l, d_path d = Some path → batch_of path batch = Some l → i ∈ (p_id <$> l).

Lemma lost_spec batch c i :
  consistent c →
  (∃ path, i ∈ lost (paths_of c) (points_by_file batch) path) ↔ ∃ d, get_point i c = Some d ∧ ¬ stays batch i d.
Proof.
  intros Hc. unfold lost. split.
  - intros [path Hi]. destruct (points_by_file_spec batch path) as [Hb _]. rewrite Hb in Hi.
    destruct (batch_of path batch) as [l|] eqn:El; [|by apply elem_of_empty in Hi].
    apply elem_of_difference in Hi as [Hi Hn]. apply (co_path c Hc) in Hi as (d&Hd&Hp). exists d. split; [done|]. intros Hs.
    apply Hn, elem_of_list_to_set. by eapply Hs.
  - intros (d&Hd&Hs). destruct (d_path d) as [path|] eqn:Hp; [|by destruct Hs; intros ?; rewrite Hp].
    exists path. destruct (points_by_file_spec batch path) as [-> _]. destruct (batch_of path batch) as [l|] eqn:El.
    + apply elem_of_difference. split; [apply (co_path c Hc); eauto|]. rewrite elem_of_list_to_set. intros Hi. apply Hs.
      intros q k Hq Hk. rewrite Hp in Hq. injection Hq as <-. rewrite El in Hk. by injection Hk as <-.
    + destruct Hs. intros q k Hq Hk. rewrite Hp in Hq. injection Hq as <-. by rewrite El in Hk.
Qed.

Lemma cleanup_spec batch c :
  consistent c →
  consistent (cleanup batch c) ∧ present (cleanup batch c) = present c ∧
  ∀ i d, get_point i (cleanup batch c) = Some d ↔ get_point i c = Some d ∧ stays batch i d.
Proof.
  intros Hc. unfold cleanup. pose proof (gather_spec (ids_of c) (paths_of c) (points_by_file batch)
    (λ p q i, one_owner c p q i Hc) (proj2 (points_by_file_spec batch []))) as [Hpx Hsch].
  cbv zeta in *. destruct (foldl (gather (ids_of c)) (paths_of c, []) (points_by_file batch)) as [px sched]. cbn [fst snd] in *.
  set (c1 := with_files _ _). destruct (evict_all sched c1) as (Hids&Hfiles&Hpaths&_&Hsome&Hpres). cbv zeta in *.
  set (c' := foldl evict c1 sched) in *. assert (ids_of c1 = ids_of c) as E1 by (unfold ids_of; destruct (co_loaded c Hc) as [[m Hm] _]; cbn; by rewrite Hm). rewrite E1 in Hids.
  assert (∀ i f, (i, f) ∈ sched ↔ ids_of c !! i = Some f ∧ ∃ d, get_point i c = Some d ∧ ¬ stays batch i d) as Hin.
  { intros i f. by rewrite Hsch, lost_spec. }
  assert (∀ f d, read f c' = Some d ↔ read f c = Some d ∧ f ∉ sched.*2) as Hread.
  { intros f d. unfold read. rewrite Hfiles. change (files c1) with (foldl (λ fs o, delete o.2 fs) (files c) sched). rewrite delete_all.
    case_decide; split; [done|by intros [_ []]|by intros|by intros [? _]]. }
  assert (∀ i f d, ids_of c !! i = Some f → read f c = Some d → f ∈ sched.*2 ↔ ¬ stays batch i d) as Hgone.
  { intros i f d Hf Hd. assert (get_point i c = Some d) as Hg by (apply get_point_Some; eauto). split.
    - intros ([j g]&->&Hj)%list_elem_of_fmap. apply Hin in Hj as (Hj&dj&Hdj&Hns).
      assert (get_point j c = Some d) as Hgj by (apply get_point_Some; eauto).
      assert (dj = d) as -> by congruence. destruct (get_point_id c i d Hc Hg) as [<- _], (get_point_id c j d Hc Hgj) as [Hid _]. by rewrite <-Hid in Hns.
    - intros Hns. apply list_elem_of_fmap. exists (i, f). split; [done|]. apply Hin. eauto. }
  assert (∀ i d, get_point i c' = Some d ↔ get_point i c = Some d ∧ stays batch i d) as Hget.
  { intros i d. rewrite !get_point_Some. split.
    - intros (f&[Hf Hn]%Hids&[Hd Hnd]%Hread). split; [eauto|]. rewrite (Hgone i f d) in Hnd by done.
      intros path l Hp Hl. destruct (decide (i ∈ (p_id <$> l))) as [|Hni]; [done|]. destruct Hnd. intros Hs. by destruct Hni; eapply Hs.
    - intros [(f&Hf&Hd) Hs]. exists f. rewrite Hids, Hread, (Hgone i f d) by done. split_and!; try done; [|by intros []].
      rewrite Hin. intros (_&d'&Hd'&Hns). apply get_point_Some in Hd' as (f'&?&?). destruct Hns. by simplify_eq. }
  split; [|split; [by rewrite Hpres|done]]. split.
  - split; [apply Hsome, (co_loaded c Hc)|rewrite Hpaths; by eexists].
  - intros i f [Hf Hn]%Hids. destruct (co_file c Hc i f Hf) as (d&Hd&?). exists d. split; [|done]. apply Hread. split; [done|].
    rewrite (Hgone i f d) by done. intros Hns. apply Hn, Hin. split; [done|]. exists d. split; [apply get_point_Some; eauto|done].
  - intros f d [Hd Hn]%Hread. pose proof (co_doc c Hc f d Hd) as Hf. apply Hids. split; [done|]. intros Hs. apply Hn.
    apply list_elem_of_fmap. by exists (d_id d, f).
  - intros p i. assert (paths_of c' = px) as -> by (unfold paths_of; by rewrite Hpaths). rewrite Hpx, elem_of_difference, (co_path c Hc).
    setoid_rewrite Hget. split.
    + intros [(d&Hd&Hp) Hl]. exists d. split; [|done]. split; [done|]. intros q l Hq Hql.
      destruct (decide (i ∈ (p_id <$> l))) as [|Hni]; [done|]. destruct Hl. rewrite Hp in Hq. injection Hq as ->.
      unfold lost. destruct (points_by_file_spec batch q) as [-> _]. rewrite Hql. apply elem_of_difference.
      split; [apply (co_path c Hc); eauto|by rewrite elem_of_list_to_set].
    + intros (d&[Hd Hs]&Hp). split; [eauto|]. unfold lost. destruct (points_by_file_spec batch p) as [-> _].
      destruct (batch_of p batch) as [l|] eqn:El; [|apply not_elem_of_empty]. rewrite elem_of_difference, elem_of_list_to_set.
      intros [_ Hni]. apply Hni. by eapply Hs.
Qed.

(** ** Upserting a batch *)

(** A batch the store accepts: every vector is valid, every document can be prepared and
    may be written. *)
Record acceptable (git : option Git) (batch : list Point) (c : Coll) : Prop := {
  ac_present : present c = true;
  ac_ids : NoDup (p_id <$> batch);
  ac_valid : ∀ p, p ∈ batch → valid (p_vector p) = true ∧ ∃ d, _prepare_vector_data_batch git p = Ok d;
  ac_writable : ∀ p, p ∈ batch → writable c p }.

Lemma write_points_spec git batch c :
  consistent c → acceptable git batch c →
  ∃ c', write_points git batch c = (Ok (), c') ∧ consistent c' ∧ present c' = true ∧
    ∀ i d, get_point i c' = Some d ↔
      (∃ p, p ∈ batch ∧ p_id p = i ∧ _prepare_vector_data_batch git p = Ok d) ∨ (i ∉ (p_id <$> batch) ∧ get_point i c = Some d).
Proof.
  revert c. induction batch as [|p batch IH]; intros c Hc [Hp Hnd Hv Hw]; cbn [write_points].
  { exists c. split_and!; try done. intros i d. split; [intros; right; split; [apply not_elem_of_nil|done]|].
    intros [(p&Hp'&_)|[_ ?]]; [by apply elem_of_nil in Hp'|done]. }
  apply NoDup_cons in Hnd as [Hfresh Hnd]. destruct (Hv p) as [Hval [d0 Hd0]]; [by left|].
  unfold write_point. rewrite Hval. cbn [negb]. rewrite Hd0. pose proof (Hw p ltac:(by left)) as Hwp.
  pose proof (write_doc_consistent git p d0 c Hc Hwp Hd0) as Hc1. set (c1 := write_doc p d0 c) in *.
  assert (∀ j, get_point j c1 = if decide (j = p_id p) then Some d0 else get_point j c) as Hget.
  { intros j. apply (write_doc_reads p d0 c j Hc), Hwp. }
  destruct (IH c1 Hc1) as (c'&Hw'&Hc'&Hp'&Hpt).
  { split; [unfold c1, write_doc; by destruct (path_of_payload _)|done|intros q Hq; apply Hv; by right|].
    intros q Hq. destruct (Hw q) as [Hs Hsame]; [by right|]. split; [done|]. intros d. rewrite Hget.
    rewrite decide_False; [apply Hsame|]. intros E. apply Hfresh. rewrite <-E. by apply list_elem_of_fmap_2. }
  exists c'. split_and!; try done. intros i d. rewrite Hpt, Hget. cbn [fmap list_fmap]. rewrite not_elem_of_cons. split.
  - intros [(q&Hq&?&?)|[Hn Hg]]; [left; exists q; split; [by right|done]|]. case_decide as Hi; [|by right].
    left. exists p. split; [by left|]. split; [done|]. congruence.
  - intros [(q&[->|Hq]%elem_of_cons&Hi&Hd)|[[Hne Hn] Hg]]; [|left; eauto|right; by rewrite decide_False].
    right. split; [by subst i|]. rewrite decide_True by done. congruence.
Qed.

Lemma batch_of_Some path batch l : batch_of path batch = Some l → l = filter (has_path path) batch ∧ l ≠ [].
Proof. unfold batch_of. destruct (filter _ batch); [done|]. by intros [= <-]. Qed.

Lemma stays_other batch i d :
  i ∉ p_id <$> batch → stays batch i d ↔ ∀ p, p ∈ batch → path_of_payload (p_payload p) = d_path d → d_path d = None.
Proof.
  intros Hi. split.
  - intros Hs p Hp Hpath. destruct (d_path d) as [path|] eqn:Hd; [|done]. exfalso. apply Hi.
    assert (p ∈ filter (has_path path) batch) as Hin by (by apply list_elem_of_filter).
    specialize (Hs path (filter (has_path path) batch) Hd). unfold batch_of in Hs. destruct (filter (has_path path) batch) as [|x l] eqn:E; [by apply elem_of_nil in Hin|].
    specialize (Hs eq_refl). apply list_elem_of_fmap in Hs as (q&->&Hq). rewrite <-E in Hq. apply list_elem_of_filter in Hq as [_ Hq].
    by apply list_elem_of_fmap_2.
  - intros Hn path l Hd [-> Hne]%batch_of_Some. exfalso. destruct (filter (has_path path) batch) as [|p k] eqn:E; [done|].
    assert (p ∈ filter (has_path path) batch) as [Hhas Hp]%list_elem_of_filter by (rewrite E; by left).
    specialize (Hn p Hp). rewrite Hd in Hn. by specialize (Hn Hhas).
Qed.

Lemma upsert_points_spec git batch c :
  consistent c → acceptable git batch c →
  ∃ c', upsert_points git batch c = (Ok (), c') ∧ consistent c' ∧ present c' = true ∧
    ∀ i d, get_point i c' = Some d ↔
      (∃ p, p ∈ batch ∧ p_id p = i ∧ _prepare_vector_data_batch git p = Ok d) ∨
      (i ∉ (p_id <$> batch) ∧ get_point i c = Some d ∧ ∀ p, p ∈ batch → path_of_payload (p_payload p) = d_path d → d_path d = None).
Proof.
  intros Hc [Hp Hnd Hv Hw]. unfold upsert_points. rewrite Hp, load_loaded by apply (co_loaded c Hc). cbn [negb].
  destruct (cleanup_spec batch c Hc) as (Hc1&Hp1&Hget). destruct (write_points_spec git batch (cleanup batch c) Hc1) as (c'&H1&H2&H3&H4).
  { split; [congruence|done|done|]. intros p Hin. destruct (Hw p Hin) as [Hs Hsame]. split; [done|]. intros d [Hd _]%Hget. by apply Hsame. }
  exists c'. split_and!; try done. intros i d. rewrite H4, Hget. split.
  - intros [?|[Hn [Hg Hs]]]; [by left|right]. by rewrite <-(stays_other batch i d).
  - intros [?|[Hn [Hg Hs]]]; [by left|right]. by rewrite (stays_other batch i d).
Qed.

(** ** Deleting *)

(** The state between the deletion of files and the update of the path index. *)
Record half_deleted (c c' : Coll) (removals : list (text * text)) (gone : list text) : Prop := {
  hd_ids : is_Some (ids c') ∧ paths c' = paths c ∧ present c' = present c;
  hd_lookup : ∀ j f, ids_of c' !! j = Some f ↔ ids_of c !! j = Some f ∧ j ∉ gone;
  hd_read : ∀ f d, read f c' = Some d ↔ read f c = Some d ∧ d_id d ∉ gone;
  hd_removals : ∀ p i, (p, i) ∈ removals ↔ i ∈ gone ∧ ∃ d, get_point i c = Some d ∧ d_path d = Some p }.

Lemma half_deleted_step c c' removals gone i :
  consistent c → half_deleted c c' removals gone →
  let '(c'', removals') := delete_point (c', removals) i in half_deleted c c'' removals' (i :: gone).
Proof.
  intros Hc [Hids Hl Hr Hrem]. unfold delete_point.
  assert (∀ j f, ids_of c' !! j = Some f → ∃ d, read f c' = Some d ∧ d_id d = j) as Hfile.
  { intros j f [Hj Hn]%Hl. destruct (co_file c Hc j f Hj) as (d&Hd&Hid&_). exists d. split; [|done]. apply Hr. by rewrite Hid. }
  assert (∀ j d, get_point j c = Some d → ∃ f, ids_of c !! j = Some f ∧ read f c = Some d ∧ d_id d = j) as Hpt.
  { intros j d Hj. destruct (get_point_id c j d Hc Hj) as [? _]. apply get_point_Some in Hj as (f&?&?). eauto. }
  destruct (ids_of c' !! i) as [f|] eqn:Hf.
  - destruct (Hfile i f Hf) as (d&Hd&Hid). pose proof (proj1 (Hl i f) Hf) as [Hfc Hn]. pose proof (proj1 (Hr f d) Hd) as [Hdc _]. split.
    + by destruct Hids as (_&?&?).
    + intros j g. change (delete i (ids_of c') !! j = Some g ↔ ids_of c !! j = Some g ∧ j ∉ i :: gone).
      rewrite lookup_delete_Some, Hl, not_elem_of_cons. split; [intros [? [? ?]]|intros [? [? ?]]]; auto.
    + intros g e. change (mjoin (delete f (files c') !! g) = Some e ↔ read g c = Some e ∧ d_id e ∉ i :: gone). rewrite not_elem_of_cons.
      destruct (decide (g = f)) as [->|Hg].
      * rewrite lookup_delete_eq. split; [done|]. intros (He&Hne&_). rewrite Hdc in He. by injection He as <-.
      * rewrite lookup_delete_ne by done. fold (read g c'). rewrite Hr. split; [|by intros (?&_&?)]. intros [He Hen]. split; [done|]. split; [|done].
        intros E. pose proof (co_doc c Hc g e He) as Hge. rewrite E in Hge. congruence.
    + intros p j. rewrite Hd, elem_of_cons. cbn. destruct (d_path d) as [q|] eqn:Hq; [rewrite elem_of_app, list_elem_of_singleton|]; rewrite Hrem.
      * split.
        -- intros [[? ?]|[= -> ->]]; [by auto|]. split; [by left|]. exists d. split; [apply get_point_Some; eauto|done].
        -- intros [[->|?] (e&He&Hp)]; [right|by eauto]. destruct (Hpt i e He) as (g&Hg&Hge&_). f_equal. congruence.
      * split; [intros [? ?]; by auto|]. intros [[->|?] (e&He&Hp)]; [|by eauto]. destruct (Hpt i e He) as (g&Hg&Hge&_). congruence.
  - assert (i ∈ gone ∨ ids_of c !! i = None) as Hgone.
    { destruct (decide (i ∈ gone)); [by left|right]. destruct (ids_of c !! i) as [f|] eqn:E; [|done].
      by rewrite (proj2 (Hl i f) (conj E n)) in Hf. }
    split; [done|..].
    + intros j g. rewrite Hl, not_elem_of_cons. split; [|by intros (?&_&?)]. intros [Hj Hn]. split; [done|]. split; [|done]. intros ->. destruct Hgone; congruence.
    + intros g e. rewrite Hr, not_elem_of_cons. split; [|by intros (?&_&?)]. intros [He Hn]. split; [done|]. split; [|done]. intros E.
      pose proof (co_doc c Hc g e He) as Hge. rewrite E in *. destruct Hgone; congruence.
    + intros p j. rewrite Hrem, elem_of_cons. split; [intros [? ?]; auto|]. intros [[->|?] (e&He&Hp)]; [|by eauto].
      split; [|eauto]. destruct Hgone as [|Hno]; [done|]. destruct (Hpt i e He) as (g&Hg&_). congruence.
Qed.

Lemma delete_points_spec point_ids c :
  consistent c →
  consistent (delete_points point_ids c) ∧ present (delete_points point_ids c) = present c ∧
  ∀ i d, get_point i (delete_points point_ids c) = Some d ↔ get_point i c = Some d ∧ i ∉ point_ids.
Proof.
  intros Hc. unfold delete_points. rewrite (load_ids_loaded c (proj1 (co_loaded c Hc))).
  assert (let '(c', removals) := foldl delete_point (c, []) point_ids in half_deleted c c' removals (reverse point_ids)) as H.
  { induction point_ids as [|i l IH] using rev_ind.
    - split; [split_and!; try done; apply (co_loaded c Hc)|..]; cbn; intros *; try (split; [intros; split; [done|apply not_elem_of_nil]|by intros [? _]]).
      split; [by intros ?%elem_of_nil|by intros [?%elem_of_nil _]].
    - rewrite foldl_snoc, reverse_snoc. destruct (foldl delete_point (c, []) l) as [c' removals]. by apply half_deleted_step. }
  destruct (foldl delete_point (c, []) point_ids) as [c' removals]. destruct H as [(Hids&Hpaths&Hpres) Hl Hr Hrem].
  assert (∀ i, i ∈ reverse point_ids ↔ i ∈ point_ids) as Hrev by (intros; apply elem_of_reverse). setoid_rewrite Hrev in Hl. setoid_rewrite Hrev in Hr. setoid_rewrite Hrev in Hrem.
  destruct (co_loaded c Hc) as [_ [px Hpx]]. rewrite Hpaths, Hpx. cbn [fmap option_fmap option_map]. set (px' := foldl _ px removals). set (c2 := with_paths (Some px') c').
  assert (∀ i d, get_point i c2 = Some d ↔ get_point i c = Some d ∧ i ∉ point_ids) as Hget.
  { intros i d. change (get_point i c2) with (get_point i c'). rewrite !get_point_Some. split.
    - intros (f&[Hf Hn]%Hl&[Hd _]%Hr). eauto.
    - intros [(f&Hf&Hd) Hn]. exists f. rewrite Hl, Hr. split_and!; try done.
      destruct (co_file c Hc i f Hf) as (e&He&<-&_). by rewrite Hd in He; injection He as <-. }
  split; [|done]. split.
  - split; [done|by eexists].
  - intros i f Hf. change (ids_of c2) with (ids_of c') in Hf. apply Hl in Hf as [Hf Hn]. destruct (co_file c Hc i f Hf) as (d&Hd&Hid&?). exists d. split; [|done].
    change (read f c2) with (read f c'). apply Hr. by rewrite Hid.
  - intros f d Hd. change (read f c2) with (read f c') in Hd. apply Hr in Hd as [Hd Hn]. change (ids_of c2) with (ids_of c'). apply Hl. split; [|done]. by apply (co_doc c Hc).
  - intros p i. change (paths_of c2) with px'. setoid_rewrite Hget.
    assert (i ∈ get_point_ids p px' ↔ i ∈ get_point_ids p px ∧ (p, i) ∉ removals) as ->.
    { unfold px'. clear. revert px. induction removals as [|[q j] rs IH]; intros px; cbn [foldl]; [split; [intros; split; [done|apply not_elem_of_nil]|by intros [? _]]|].
      rewrite IH, get_remove, not_elem_of_cons. cbn. case_decide; [subst; rewrite elem_of_difference, elem_of_singleton|]; naive_solver. }
    rewrite Hrem. assert (px = paths_of c) as -> by (unfold paths_of; by rewrite Hpx). rewrite (co_path c Hc). naive_solver.
Qed.

(** ** The search index *)

Definition hidden_branches (payload : Dict) : list Json := match dget (txt "hidden_branches") payload with Some (JList l) => l | _ => [] end.
Definition hidden_in (branch : text) (d : Doc) : bool := existsb (json_eqb (JStr branch)) (hidden_branches (d_payload d)).

(** The documents a rebuild reads and keeps. *)
Definition vector_files (c : Coll) : list vpath :=
  filter (λ f, is_prefix (txt "vector_") (file_name f) = true) (merge_sort file_le (elements (dom (files c)))).

Definition kept (visible_files : option (gset text)) (branch : option text) (d : Doc) : bool :=
  valid (d_vector d) &&
  match visible_files, branch with
  | Some vis, _ => match dget (txt "path") (d_payload d) with Some (JStr p) => bool_decide (p ∈ vis) | _ => false end
  | None, Some b => negb (hidden_in b d)
  | None, None => true
  end.

Definition ids_list (visible_files : option (gset text)) (branch : option text) (c : Coll) : list text :=
  d_id <$> filter (λ d, kept visible_files branch d = true) (omap (λ f, read f c) (vector_files c)).

(** [_update_metadata] after a rebuild. *)
Definition rebuilt_meta (point_ids : list text) (is_filtered : bool) (branch : option text) : Meta :=
  {| id_mapping := map_seq 0 point_ids; is_stale := false; filtered := is_filtered; current_branch := if is_filtered then branch else None |}.

(** Without vectors the index file is left as it is. *)
Definition rebuild_from_vectors (visible_files : option (gset text)) (branch : option text) (c : Coll) : nat * Coll :=
  let is_filtered := bool_decide (is_Some visible_files) in
  match ids_list visible_files branch c with
  | [] => (0%nat, if is_filtered then with_index (labels c) (Some (rebuilt_meta [] true branch)) c else c)
  | point_ids => (length point_ids, with_index (Some (set_seq 0 (length point_ids))) (Some (rebuilt_meta point_ids is_filtered branch)) c)
  end.

Definition rebuild_hnsw_filtered (visible_files : gset text) (branch : option text) (c : Coll) : nat * Coll :=
  let '(count, c') := rebuild_from_vectors (Some visible_files) branch c in (count, with_flag true c').

Definition set_stale (b : bool) (m : Meta) : Meta :=
  {| id_mapping := id_mapping m; is_stale := b; filtered := filtered m; current_branch := current_branch m |}.

Definition mark_stale (c : Coll) : Coll := with_index (labels c) (set_stale true <$> meta c) c.
Definition clear_stale (c : Coll) : Coll := with_index (labels c) (set_stale false <$> meta c) c.

Definition hnsw_is_stale (c : Coll) : bool := match meta c with Some m => is_stale m | None => true end.

(** The mappings while an index is updated in place. *)
Record Mapping := { live : gset nat; id_to_label : gmap text nat; label_to_id : gmap nat text; next_label : nat }.

Definition load_for_incremental_update (c : Coll) : option Mapping :=
  l ← labels c;
  let label_to_id := from_option id_mapping ∅ (meta c) in
  Some {| live := l; id_to_label := list_to_map ((λ p, (p.2, p.1)) <$> map_to_list label_to_id); label_to_id := label_to_id;
          next_label := set_fold (λ k n, S k `max` n)%nat 0%nat (dom label_to_id) |}.

Definition add_or_update_vector (m : Mapping) (i : text) : Mapping :=
  match id_to_label m !! i with
  | Some label => {| live := {[label]} ∪ live m; id_to_label := id_to_label m; label_to_id := label_to_id m; next_label := next_label m |}
  | None =>
      let label := next_label m in
      {| live := {[label]} ∪ live m; id_to_label := <[i := label]> (id_to_label m); label_to_id := <[label := i]> (label_to_id m); next_label := S label |}
  end.

Definition remove_vector (m : Mapping) (i : text) : Mapping :=
  match id_to_label m !! i with
  | Some label => {| live := live m ∖ {[label]}; id_to_label := delete i (id_to_label m); label_to_id := delete label (label_to_id m); next_label := next_label m |}
  | None => m
  end.

Definition readable (c : Coll) (i : text) : bool := bool_decide (is_Some (get_point i c)).

Definition _apply_incremental_hnsw_batch_update (ch : Changes) (c : Coll) : option Coll :=
  m ← load_for_incremental_update c;
  let effective := (added ch ∖ deleted ch) ∪ (updated ch ∖ deleted ch) in
  let m1 := foldl add_or_update_vector m (filter (λ i, readable c i = true) (elements effective)) in
  let m2 := foldl remove_vector m1 (elements (deleted ch)) in
  Some (with_index (Some (live m2)) (Some {| id_mapping := label_to_id m2; is_stale := false; filtered := false; current_branch := None |}) c).

Definition begin_indexing (c : Coll) : Coll := load_paths (with_changes (Some no_changes) c).

(** The last step: both indexes are saved. *)
Definition save_indexes (c : Coll) : Coll :=
  let m := match ids c with Some m => if decide (m = ∅) then _load_id_index c else m | None => _load_id_index c end in
  let c1 := with_ids (Some m) c in
  with_saved (Ok m) (match paths c1 with Some px => px | None => saved_paths c1 end) c1.

Definition end_indexing (skip_hnsw_rebuild : bool) (c : Coll) : result error () * Coll :=
  if negb (present c) then (Err CollectionMissing, c)
  else
    let '(handled, c1) :=
      if did_filtered_rebuild c then (true, with_changes None (with_flag false c))
      else match changes c with
           | Some ch =>
               if any_change ch && negb skip_hnsw_rebuild
               then match _apply_incremental_hnsw_batch_update ch c with
                    | Some c' => (true, with_changes None c')
                    | None => (false, with_changes None c)
                    end
               else (false, c)
           | None => (false, c)
           end in
    let c2 := if (handled : bool) then c1
              else if skip_hnsw_rebuild then mark_stale c1 else (rebuild_from_vectors None None c1).2 in
    (Ok (), save_indexes c2).

(** The points a search can return: those with a live label. *)
Definition searchable (c : Coll) : gset text :=
  match labels c, meta c with
  | Some l, Some m => list_to_set (omap (λ k, id_mapping m !! k) (elements l))
  | _, _ => ∅
  end.

(** ** Updating the search index in place *)

Record mapping_ok (m : Mapping) : Prop := {
  mp_live : live m = dom (label_to_id m);
  mp_inverse : ∀ i l, id_to_label m !! i = Some l ↔ label_to_id m !! l = Some i;
  mp_next : ∀ l, l ∈ dom (label_to_id m) → (l < next_label m)%nat }.

Definition indexed (m : Mapping) (i : text) : Prop := is_Some (id_to_label m !! i).

Lemma add_or_update_ok m i : mapping_ok m → mapping_ok (add_or_update_vector m i) ∧ ∀ j, indexed (add_or_update_vector m i) j ↔ j = i ∨ indexed m j.
Proof.
  intros [Hlive Hinv Hnext]. unfold add_or_update_vector, indexed. destruct (id_to_label m !! i) as [l|] eqn:Hi.
  - split; [|intros j; cbn; split; [by right|by intros [->|]; [rewrite Hi|]]]. split; cbn; [|done..]. apply Hinv in Hi.
    rewrite Hlive. apply elem_of_dom_2 in Hi. set_solver.
  - assert (next_label m ∉ dom (label_to_id m)) as Hfresh by (intros Hin; apply Hnext in Hin; lia). split.
    + split; cbn; [by rewrite dom_insert_L, Hlive| |].
      * intros j l. rewrite !lookup_insert_Some, Hinv. apply not_elem_of_dom in Hfresh. split.
        -- intros [[-> <-]|[Hne Hl]]; [by left|right]. split; [congruence|done].
        -- intros [[<- ->]|[Hne Hl]]; [by left|right]. split; [|done]. intros <-. apply Hinv in Hl. congruence.
      * intros l. rewrite dom_insert_L, elem_of_union, elem_of_singleton. intros [->|Hl%Hnext]; lia.
    + intros j. cbn. rewrite lookup_insert_is_Some. destruct (decide (i = j)); naive_solver.
Qed.

Lemma remove_ok m i : mapping_ok m → mapping_ok (remove_vector m i) ∧ ∀ j, indexed (remove_vector m i) j ↔ j ≠ i ∧ indexed m j.
Proof.
  intros [Hlive Hinv Hnext]. unfold remove_vector, indexed. destruct (id_to_label m !! i) as [l|] eqn:Hi.
  - split.
    + split; cbn; [by rewrite dom_delete_L, Hlive| |].
      * intros j k. rewrite !lookup_delete_Some, Hinv. split; intros [Hne Hk]; split; try done; intros <-.
        -- apply Hinv in Hi. congruence.
        -- apply Hinv in Hk. congruence.
      * intros k. rewrite dom_delete_L. intros [Hk _]%elem_of_difference. by apply Hnext.
    + intros j. cbn. rewrite lookup_delete_is_Some. naive_solver.
  - split; [done|]. intros j. split; [|by intros [_ ?]]. intros Hj. split; [|done]. intros ->. rewrite Hi in Hj. by apply is_Some_None in Hj.
Qed.

(** An index whose live labels are those of the mapping, one label to a point. *)
Definition index_ok (c : Coll) : Prop :=
  ∃ m, labels c = Some (dom (id_mapping m)) ∧ meta c = Some m ∧
    ∀ k l i, id_mapping m !! k = Some i → id_mapping m !! l = Some i → k = l.

Lemma load_mapping_ok c :
  index_ok c → ∃ m, load_for_incremental_update c = Some m ∧ mapping_ok m ∧ ∀ i, indexed m i ↔ i ∈ searchable c.
Proof.
  intros (mt&Hl&Hm&Hinj). unfold load_for_incremental_update, searchable. rewrite Hl, Hm. cbn. eexists. split; [done|].
  assert (∀ i k, (list_to_map ((λ p : nat * text, (p.2, p.1)) <$> map_to_list (id_mapping mt)) : gmap text nat) !! i = Some k ↔ id_mapping mt !! k = Some i) as Hinv.
  { intros i k. rewrite <-elem_of_list_to_map.
    - rewrite list_elem_of_fmap. split; [intros ([k' i']&[= -> ->]&Hk); by apply elem_of_map_to_list in Hk|].
      intros Hk. exists (k, i). by rewrite elem_of_map_to_list.
    - rewrite <-list_fmap_compose. apply NoDup_fmap_2_strong; [|apply NoDup_map_to_list].
      intros [k1 i1] [k2 i2] H1%elem_of_map_to_list H2%elem_of_map_to_list; cbn. intros ->. by rewrite (Hinj k1 k2 i2). }
  split; [split; cbn; [done|done|]|].
  - intros l Hin. revert Hin. apply (set_fold_ind_L (λ n X, l ∈ X → (l < n)%nat)); [by intros ?%elem_of_empty|].
    intros k X n _ IH [->%elem_of_singleton|Hin%IH]%elem_of_union; lia.
  - intros i. unfold indexed. cbn. rewrite elem_of_list_to_set, list_elem_of_omap. split.
    + intros [k Hk%Hinv]. exists k. by rewrite elem_of_elements, elem_of_dom, Hk.
    + intros (k&_&Hk). exists k. by apply Hinv.
Qed.

Lemma mapping_searchable m c :
  mapping_ok m → labels c = Some (live m) → id_mapping <$> meta c = Some (label_to_id m) →
  index_ok c ∧ ∀ i, i ∈ searchable c ↔ indexed m i.
Proof.
  intros [Hlive Hinv _] Hl Hm. destruct (meta c) as [mt|] eqn:Ht; [|done]. cbn in Hm. injection Hm as Hm. unfold searchable. rewrite Hl, Ht, Hlive, Hm. split.
  - exists mt. rewrite Hl, Hm, Hlive. split_and!; try done. intros k l i Hk%Hinv Hj%Hinv. congruence.
  - intros i. rewrite elem_of_list_to_set, list_elem_of_omap. unfold indexed. split; [intros (k&_&Hk%Hinv); by eexists|].
    intros [k Hk%Hinv]. exists k. by rewrite elem_of_elements, elem_of_dom, Hk.
Qed.

Lemma incremental_spec ch c :
  index_ok c →
  ∃ l m, _apply_incremental_hnsw_batch_update ch c = Some (with_index l m c) ∧ index_ok (with_index l m c) ∧
    ∀ i, i ∈ searchable (with_index l m c) ↔ i ∉ deleted ch ∧ (i ∈ searchable c ∨ (i ∈ added ch ∨ i ∈ updated ch) ∧ readable c i = true).
Proof.
  intros Hok. destruct (load_mapping_ok c Hok) as (m0&Hm0&Hmok&Hidx). unfold _apply_incremental_hnsw_batch_update. rewrite Hm0. cbn [mbind option_bind].
  set (news := filter _ _). set (m1 := foldl add_or_update_vector m0 news). set (m2 := foldl remove_vector m1 _).
  assert (mapping_ok m1 ∧ ∀ j, indexed m1 j ↔ j ∈ news ∨ indexed m0 j) as [Hok1 Hi1].
  { unfold m1. clearbody news. clear -Hmok. induction news as [|i l IH] using rev_ind; [split; [done|]; intros j; split; [by right|by intros [?%elem_of_nil|]]|].
    rewrite foldl_snoc. destruct IH as [IH1 IH2]. destruct (add_or_update_ok _ i IH1) as [H1 H2]. split; [done|].
    intros j. rewrite H2, IH2, elem_of_app, list_elem_of_singleton. tauto. }
  assert (mapping_ok m2 ∧ ∀ j, indexed m2 j ↔ j ∉ deleted ch ∧ indexed m1 j) as [Hok2 Hi2].
  { unfold m2. setoid_rewrite <-(elem_of_elements (deleted ch)). generalize (elements (deleted ch)). intros dels. clear -Hok1.
    induction dels as [|i l IH] using rev_ind; [split; [done|]; intros j; split; [intros; split; [apply not_elem_of_nil|done]|by intros [_ ?]]|].
    rewrite foldl_snoc. destruct IH as [IH1 IH2]. destruct (remove_ok _ i IH1) as [H1 H2]. split; [done|].
    intros j. rewrite H2, IH2, elem_of_app, list_elem_of_singleton. tauto. }
  eexists _, _. split; [done|].
  destruct (mapping_searchable m2 (with_index (Some (live m2)) (Some {| id_mapping := label_to_id m2; is_stale := false; filtered := false; current_branch := None |}) c) Hok2 eq_refl eq_refl) as [H1 H2].
  split; [done|]. intros i. rewrite H2, Hi2, Hi1, Hidx. unfold news. rewrite list_elem_of_filter, elem_of_elements, elem_of_union, !elem_of_difference. tauto.
Qed.

(** What an indexing session remembers, starting from the points [base]: the points of the
    collection are those of [base] and those written, less those deleted. *)
Definition tracked (base : gset text) (c : Coll) : Prop :=
  ∃ ch, changes c = Some ch ∧
    ∀ i, is_Some (ids_of c !! i) ↔ (i ∈ base ∨ i ∈ added ch ∨ i ∈ updated ch) ∧ i ∉ deleted ch.

Definition same_index (c c' : Coll) : Prop :=
  labels c' = labels c ∧ meta c' = meta c ∧ did_filtered_rebuild c' = did_filtered_rebuild c.

Lemma evict_changes sched c ch :
  changes c = Some ch →
  ∃ ch', changes (foldl evict c sched) = Some ch' ∧ added ch' = added ch ∧ updated ch' = updated ch ∧
    (∀ i, i ∈ deleted ch' ↔ i ∈ deleted ch ∨ is_Some (ids_of c !! i) ∧ ids_of (foldl evict c sched) !! i = None) ∧
    same_index c (foldl evict c sched).
Proof.
  intros Hch. induction sched as [|[i f] sched IH] using rev_ind.
  { exists ch. split_and!; try done. intros i. split; [by left|]. intros [?|[[x Hx] Hn]]; [done|]. cbn in Hn. congruence. }
  rewrite foldl_snoc. destruct IH as (ch'&H1&H2&H3&H4&H5). set (c1 := foldl evict c sched) in *. unfold evict. cbn [fst snd]. case_decide as Hi.
  - exists (note_deleted i ch'). split; [cbn; by rewrite H1|]. split; [done|]. split; [done|]. split; [|exact H5].
    assert (ids_of (note (note_deleted i) (with_ids (Some (delete i (ids_of c1))) c1)) = delete i (ids_of c1)) as -> by done.
    assert (is_Some (ids_of c !! i)) as Hsome. { destruct (evict_all sched c) as (He&_). apply He in Hi as [Hi _]. by eexists. }
    intros j. cbn. rewrite elem_of_union, elem_of_singleton, H4, lookup_delete_None. split.
    + intros [->|[?|[? ?]]]; auto.
    + intros [?|[? [->|?]]]; auto.
  - exists ch'. done.
Qed.

Lemma cleanup_tracked batch base c :
  consistent c → tracked base c →
  tracked base (cleanup batch c) ∧ same_index c (cleanup batch c) ∧
  ∀ ch, changes c = Some ch → ∃ ch', changes (cleanup batch c) = Some ch' ∧
    ∀ i, i ∈ deleted ch' ↔ i ∈ deleted ch ∨ is_Some (get_point i c) ∧ get_point i (cleanup batch c) = None.
Proof.
  intros Hc (ch&Hch&Htr). pose proof (cleanup_spec batch c Hc) as (Hc'&_&_).
  assert (∀ i, ids_of (cleanup batch c) !! i = None ↔ get_point i (cleanup batch c) = None) as Hnone.
  { intros i. rewrite !eq_None_not_Some. by rewrite (get_point_dom (cleanup batch c) i Hc'). }
  revert Hc' Hnone. unfold cleanup. destruct (foldl (gather (ids_of c)) (paths_of c, []) (points_by_file batch)) as [px sched].
  set (c1 := with_files _ _). assert (ids_of c1 = ids_of c) as E1 by (unfold ids_of; destruct (co_loaded c Hc) as [[m Hm] _]; cbn; by rewrite Hm).
  destruct (evict_changes sched c1 ch Hch) as (ch'&H1&H2&H3&H4&H5). rewrite E1 in H4. set (c' := foldl evict c1 sched) in *. intros Hc' Hnone.
  destruct (evict_all sched c1) as (Hids&_). fold c' in Hids. rewrite E1 in Hids. split_and!.
  - exists ch'. split; [done|]. intros i. rewrite H2, H3, H4. split.
    + intros [f Hf]. pose proof Hf as [Hf0 _]%Hids. assert (is_Some (ids_of c !! i)) as Hi by (by eexists). apply Htr in Hi as [? Hn].
      split; [done|]. intros [?|[_ ?]]; [done|congruence].
    + intros [Hin Hn]. destruct (ids_of c' !! i) as [f|] eqn:E; [by eexists|]. exfalso. apply Hn. right. split; [|done].
      apply Htr. split; [done|]. intros Hd. apply Hn. by left.
  - apply H5.
  - intros ch0 Hch0. assert (ch0 = ch) as -> by congruence. exists ch'. split; [done|]. intros i. rewrite H4, Hnone, (get_point_dom c i Hc). done.
Qed.

Lemma write_doc_tracked base p d c ch :
  changes c = Some ch → p_id p ∉ deleted ch → tracked base c →
  ∃ ch', changes (write_doc p d c) = Some ch' ∧ deleted ch' = deleted ch ∧ tracked base (write_doc p d c) ∧ same_index c (write_doc p d c).
Proof.
  intros Hch Hn (ch0&Hch0&Htr). assert (ch0 = ch) as -> by congruence.
  set (existed := bool_decide (is_Some (ids_of c !! p_id p))).
  assert (changes (write_doc p d c) = Some (note_written existed (p_id p) ch)) as Hch'.
  { unfold write_doc. by destruct (path_of_payload _); cbn; rewrite Hch. }
  assert (ids_of (write_doc p d c) = <[p_id p := file_of (p_vector p) (p_id p)]> (ids_of c)) as Hids by (unfold write_doc, ids_of; by destruct (path_of_payload _)).
  eexists. split; [exact Hch'|]. assert (deleted (note_written existed (p_id p) ch) = deleted ch) as Hd by (by destruct existed). split; [done|].
  split; [|unfold write_doc, same_index; by destruct (path_of_payload _)].
  eexists. split; [exact Hch'|]. intros i. rewrite Hids, lookup_insert_is_Some, Hd, Htr.
  assert ((i ∈ added (note_written existed (p_id p) ch) ∨ i ∈ updated (note_written existed (p_id p) ch)) ↔ i = p_id p ∨ i ∈ added ch ∨ i ∈ updated ch) as ->.
  { destruct existed; cbn; rewrite elem_of_union, elem_of_singleton; tauto. }
  destruct (decide (i = p_id p)) as [->|]; [split; [intros _; split; [tauto|done]|by left]|]. split; [intros [?|[_ [? ?]]]; [congruence|tauto]|].
  intros [? ?]. right. split; [congruence|tauto].
Qed.

Lemma write_points_tracked git base batch c ch c' :
  changes c = Some ch → (∀ p, p ∈ batch → p_id p ∉ deleted ch) → tracked base c → write_points git batch c = (Ok (), c') →
  tracked base c' ∧ same_index c c'.
Proof.
  revert c ch. induction batch as [|p batch IH]; intros c ch Hch Hn Ht; cbn [write_points]; [by intros [= <-]|].
  unfold write_point. destruct (negb (valid (p_vector p))); [done|]. destruct (_prepare_vector_data_batch git p) as [d|]; [|done]. intros Hw.
  destruct (write_doc_tracked base p d c ch Hch (Hn p ltac:(by left)) Ht) as (ch1&H1&H2&H3&H4).
  destruct (IH (write_doc p d c) ch1 H1) as [? H5]; [|done|done|]; [intros q Hq; rewrite H2; apply Hn; by right|].
  split; [done|]. destruct H4 as (?&?&?), H5 as (?&?&?). split_and!; congruence.
Qed.

Lemma upsert_tracked git base batch c ch c' :
  consistent c → acceptable git batch c → changes c = Some ch → (∀ p, p ∈ batch → p_id p ∉ deleted ch) → tracked base c →
  upsert_points git batch c = (Ok (), c') → tracked base c' ∧ same_index c c'.
Proof.
  intros Hc [Hp Hnd Hv Hw] Hch Hn Ht. unfold upsert_points. rewrite Hp, load_loaded by apply (co_loaded c Hc). cbn [negb]. intros Hup.
  destruct (cleanup_tracked batch base c Hc Ht) as (Ht1&Hs1&Hd1). destruct (Hd1 ch Hch) as (ch1&Hch1&Hdel).
  destruct (write_points_tracked git base batch (cleanup batch c) ch1 c') as [? Hs2]; try done.
  - intros p Hin Hd. apply Hdel in Hd as [Hd|[[d Hd] Hnone]]; [by apply (Hn p Hin)|].
    assert (get_point (p_id p) (cleanup batch c) = Some d) as E; [|congruence]. apply cleanup_spec; [done|]. split; [done|].
    intros path l Hpath [-> _]%batch_of_Some. apply list_elem_of_fmap_2, list_elem_of_filter. split; [|done].
    unfold has_path. by destruct (wr_same c p (Hw p Hin) d Hd) as [_ <-].
  - split; [done|]. destruct Hs1 as (?&?&?), Hs2 as (?&?&?). split_and!; congruence.
Qed.

Lemma delete_tracked base point_ids c :
  consistent c → tracked base c → tracked base (delete_points point_ids c) ∧ same_index c (delete_points point_ids c).
Proof.
  intros Hc Ht. unfold delete_points. rewrite (load_ids_loaded c (proj1 (co_loaded c Hc))).
  assert (let '(c', _) := foldl delete_point (c, []) point_ids in tracked base c' ∧ same_index c c') as H.
  { induction point_ids as [|i l IH] using rev_ind; [done|]. rewrite foldl_snoc. destruct (foldl delete_point (c, []) l) as [c1 rs].
    destruct IH as [(ch&Hch&Htr) Hs]. unfold delete_point. destruct (ids_of c1 !! i) as [f|] eqn:Hf; [|split; [by exists ch|done]].
    split; [|done]. exists (note_deleted i ch). split; [cbn; by rewrite Hch|]. intros j.
    assert (ids_of (note (note_deleted i) (with_ids (Some (delete i (ids_of c1))) (with_files (delete f (files c1)) c1))) = delete i (ids_of c1)) as -> by done.
    rewrite lookup_delete_is_Some, Htr. cbn. rewrite elem_of_union, elem_of_singleton. split.
    - intros (Hne&Hin&Hn). split; [done|]. intros [->|]; [done|by apply Hn].
    - intros [Hin Hn]. split; [intros ->; apply Hn; by left|]. split; [done|]. intros ?. apply Hn. by right. }
  destruct (foldl delete_point (c, []) point_ids) as [c1 rs]. destruct H as [(ch&Hch&Htr) Hs]. split; [|done]. by exists ch.
Qed.

(** ** Rebuilding *)

Lemma file_of_name v i : file_name (file_of v i) = vector_name i.
Proof. unfold file_name, file_of. by rewrite last_snoc. Qed.

Lemma ids_list_spec vis br c :
  consistent c → NoDup (ids_list vis br c) ∧ ∀ i, i ∈ ids_list vis br c ↔ ∃ d, get_point i c = Some d ∧ kept vis br d = true.
Proof.
  intros Hc. assert (∀ f d, read f c = Some d → f ∈ vector_files c) as Hin.
  { intros f d Hd. unfold vector_files. rewrite list_elem_of_filter, merge_sort_Permutation, elem_of_elements, elem_of_dom. split.
    - apply (co_doc c Hc) in Hd. apply (co_file c Hc) in Hd as (d'&_&_&->&_). by rewrite file_of_name.
    - unfold read in Hd. destruct (files c !! f); [by eexists|done]. }
  unfold ids_list. split.
  - apply NoDup_fmap_2_strong.
    + intros d e [_ Hd]%list_elem_of_filter [_ He]%list_elem_of_filter E. apply list_elem_of_omap in Hd as (f&_&Hf), He as (g&_&Hg).
      pose proof (co_doc c Hc f d Hf) as H1. pose proof (co_doc c Hc g e Hg) as H2. rewrite E in H1. congruence.
    + apply NoDup_filter. unfold vector_files. assert (NoDup (merge_sort file_le (elements (dom (files c))))) as Hnd by (rewrite merge_sort_Permutation; apply NoDup_elements).
      apply (NoDup_filter (λ f, is_prefix (txt "vector_") (file_name f) = true)) in Hnd. induction Hnd as [|f l Hf Hnd IH]; cbn; [constructor|].
      destruct (read f c) as [d|] eqn:Hd; [|done]. constructor; [|done]. intros (g&Hg&Hgd)%list_elem_of_omap.
      apply (co_doc c Hc) in Hd, Hgd. congruence.
  - intros i. rewrite list_elem_of_fmap. split.
    + intros (d&->&[Hk Hd]%list_elem_of_filter). apply list_elem_of_omap in Hd as (f&_&Hf). exists d. split; [by eapply get_point_doc|done].
    + intros (d&Hd&Hk). destruct (get_point_id c i d Hc Hd) as [<- _]. exists d. split; [done|]. apply list_elem_of_filter. split; [done|].
      apply get_point_Some in Hd as (f&_&Hf). apply list_elem_of_omap. exists f. split; [by eapply Hin|done].
Qed.

Lemma rebuilt_searchable point_ids is_filtered br c :
  NoDup point_ids →
  let c' := with_index (Some (set_seq 0 (length point_ids))) (Some (rebuilt_meta point_ids is_filtered br)) c in
  index_ok c' ∧ ∀ i, i ∈ searchable c' ↔ i ∈ point_ids.
Proof.
  intros Hnd c'. split.
  - exists (rebuilt_meta point_ids is_filtered br). split; [cbn; by rewrite dom_seq_L|]. split; [done|].
    intros k l i. cbn. rewrite !lookup_map_seq_0. intros Hk Hl. by eapply NoDup_lookup.
  - intros i. unfold searchable. cbn. rewrite elem_of_list_to_set, list_elem_of_omap. setoid_rewrite lookup_map_seq_0. split.
    + intros (k&_&Hk). by eapply list_elem_of_lookup_2.
    + intros [k Hk]%list_elem_of_lookup. exists k. split; [|done]. apply elem_of_elements, elem_of_set_seq. apply lookup_lt_Some in Hk. lia.
Qed.

Lemma rebuild_spec vis br c :
  consistent c → let '(n, c') := rebuild_from_vectors vis br c in
  n = length (ids_list vis br c) ∧ (n ≠ 0%nat → index_ok c' ∧ ∀ i, i ∈ searchable c' ↔ i ∈ ids_list vis br c) ∧
  files c' = files c ∧ ids c' = ids c ∧ paths c' = paths c ∧ present c' = present c ∧ changes c' = changes c.
Proof.
  intros Hc. destruct (ids_list_spec vis br c Hc) as [Hnd _]. unfold rebuild_from_vectors. destruct (ids_list vis br c) as [|i l] eqn:E.
  - case_match; done.
  - split; [done|]. split; [|done]. intros _. by apply rebuilt_searchable.
Qed.

(** ** Indexing sessions *)

(** Batches written and points deleted; no point is written again after it was deleted. *)
Inductive session : Coll → Coll → Prop :=
| session_end c : session c c
| session_upsert git batch c c1 c2 :
    acceptable git batch c → (∀ ch p, changes c = Some ch → p ∈ batch → p_id p ∉ deleted ch) →
    upsert_points git batch c = (Ok (), c1) → session c1 c2 → session c c2
| session_delete point_ids c c2 : session (delete_points point_ids c) c2 → session c c2.

Lemma session_keeps base c c' :
  session c c' → consistent c → tracked base c → present c = true → consistent c' ∧ tracked base c' ∧ same_index c c' ∧ present c' = true.
Proof.
  induction 1 as [c|git batch c c1 c2 Ha Hn Hup _ IH|l c c2 _ IH]; intros Hc Ht Hp; [done|..].
  - destruct (upsert_points_spec git batch c Hc Ha) as (c1'&Hup'&Hc1&Hp1&_). rewrite Hup in Hup'. injection Hup' as <-.
    pose proof Ht as (ch&Hch&_). destruct (upsert_tracked git base batch c ch c1 Hc Ha Hch (λ p, Hn ch p Hch) Ht Hup) as [Ht1 (?&?&?)].
    destruct (IH Hc1 Ht1 Hp1) as (?&?&(?&?&?)&?). split_and!; try done. split_and!; congruence.
  - destruct (delete_points_spec l c Hc) as (Hc1&Hp1&_). destruct (delete_tracked base l c Hc Ht) as [Ht1 (?&?&?)].
    destruct (IH Hc1 Ht1) as (?&?&(?&?&?)&?); [congruence|]. split_and!; try done. split_and!; congruence.
Qed.

Lemma searchable_same c c' : same_index c c' → searchable c' = searchable c ∧ (index_ok c → index_ok c').
Proof. intros (Hl&Hm&_). unfold searchable, index_ok. by rewrite Hl, Hm. Qed.

Lemma begin_indexing_spec c :
  consistent c → consistent (begin_indexing c) ∧ tracked (dom (ids_of c)) (begin_indexing c) ∧ same_index c (begin_indexing c) ∧ present (begin_indexing c) = present c ∧
  ∀ i, get_point i (begin_indexing c) = get_point i c.
Proof.
  intros Hc. unfold begin_indexing. destruct (co_loaded c Hc) as [[m Hm] [px Hpx]].
  assert (ids_of (load_paths (with_changes (Some no_changes) c)) = ids_of c) as Hids by (unfold ids_of; cbn; by rewrite Hm).
  assert (∀ i, get_point i (load_paths (with_changes (Some no_changes) c)) = get_point i c) as Hget by (intros i; unfold get_point; by rewrite Hids).
  split_and!; try done.
  - destruct Hc as [H1 H2 H3 H4]. split; [split; by eexists|by setoid_rewrite Hids|by setoid_rewrite Hids|]. intros p i. rewrite Hget. apply H4.
  - exists no_changes. split; [done|]. intros i. rewrite Hids, elem_of_dom. cbn. split; [intros ?; split; [by left|apply not_elem_of_empty]|].
    by intros [[?|[?%elem_of_empty|?%elem_of_empty]] _].
Qed.

(** Saving the indexes loses no point. *)
Lemma save_indexes_points c i : consistent c → get_point i (save_indexes c) = get_point i c ∧ searchable (save_indexes c) = searchable c.
Proof.
  intros Hc. split; [|done]. destruct (co_loaded c Hc) as [[m Hm] _]. unfold save_indexes, get_point. rewrite Hm. case_decide as He.
  - assert (∀ f, read f c = None) as Hno.
    { intros f. destruct (read f c) as [d|] eqn:Hd; [|done]. apply (co_doc c Hc) in Hd. unfold ids_of in Hd. rewrite Hm in Hd. cbn in Hd. by rewrite He, lookup_empty in Hd. }
    assert (∀ o : option vpath, (o ≫= λ f, read f c) = None) as Hnone by (intros [f|]; [apply Hno|done]). by rewrite !Hnone.
  - unfold ids_of. cbn. by rewrite Hm.
Qed.



(** ** Creating, clearing and dropping a collection *)

Definition no_collection : Coll := {|
  present := false; files := ∅; ids := None; saved_ids := Ok ∅; paths := None; saved_paths := ∅;
  changes := None; labels := None; meta := None; did_filtered_rebuild := false |}.

(** The metadata is written anew; files, if there are any, stay. *)
Definition create_collection (c : Coll) : Coll :=
  {| present := true; files := files c; ids := Some ∅; saved_ids := saved_ids c; paths := paths c; saved_paths := saved_paths c;
     changes := changes c; labels := labels c; meta := None; did_filtered_rebuild := did_filtered_rebuild c |}.

(** The directory goes; the metadata is put back unless the matrix is to go as well.  The
    path index in memory stays. *)
Definition clear_collection (remove_projection_matrix : bool) (c : Coll) : bool * Coll :=
  if negb (present c) then (false, c)
  else (true, {| present := negb remove_projection_matrix; files := ∅; ids := None; saved_ids := Ok ∅; paths := paths c; saved_paths := ∅;
                 changes := changes c; labels := None; meta := if remove_projection_matrix then None else meta c;
                 did_filtered_rebuild := did_filtered_rebuild c |}).

Definition delete_collection (c : Coll) : bool * Coll := clear_collection true c.

(** The count in the metadata is the size of the mapping written with it. *)
Definition count_points (c : Coll) : nat * Coll :=
  match meta c with
  | Some m => (size (id_mapping m), c)
  | None => (size (ids_of c), load_ids c)
  end.

Lemma created_consistent c : files c = ∅ → paths c = None → saved_paths c = ∅ → consistent (begin_indexing (create_collection c)).
Proof.
  intros Hf Hp Hs. assert (∀ f, read f (begin_indexing (create_collection c)) = None) as Hno by (intros f; unfold read; cbn; by rewrite Hf).
  assert (ids_of (begin_indexing (create_collection c)) = ∅) as Hids by done.
  split.
  - split; by eexists.
  - intros i f. by rewrite Hids, lookup_empty.
  - intros f d. by rewrite Hno.
  - intros p i. assert (paths_of (begin_indexing (create_collection c)) = ∅) as -> by (unfold begin_indexing, load_paths, paths_of; cbn; rewrite Hp; cbn; by rewrite Hs).
    unfold get_point_ids. rewrite lookup_empty. split; [by intros ?%elem_of_empty|].
    intros (d&(f&Hi&_)%get_point_Some&_). by rewrite Hids, lookup_empty in Hi.
Qed.

(** A collection that was cleared still has as many points as before for who counts them. *)
Lemma cleared_count c m : present c = true → meta c = Some m → (count_points (clear_collection false c).2).1 = (count_points c).1.
Proof. intros Hp Hm. unfold clear_collection. rewrite Hp. unfold count_points. cbn. by rewrite Hm. Qed.

Context {Spec : Type} (compile : text → option Spec) (match_file : Spec → text → option bool) (lower : text → text).
(** [str] of a value that is not a string. *)
Context (str_of : Json → text).

(** ** Reading *)

(** The files a scan looks at, in order. *)
Definition all_files (c : Coll) : list vpath :=
  merge_sort file_le (filter (λ f, contains (txt "collection_meta") (file_name f) = false) (elements (dom (files c)))).

Definition filter_error {A} (r : result PathPattern.error A) : result error A := match r with Ok x => Ok x | Err e => Err (FilterError e) end.

(** The documents of a page that pass the filter; files that cannot be parsed are skipped. *)
Fixpoint load_page (fc : Conditions) (page : list vpath) (c : Coll) : result error (list Doc) :=
  match page with
  | [] => Ok []
  | f :: rest =>
      match read f c with
      | None => load_page fc rest c
      | Some d =>
          b ← filter_error (_parse_filter compile match_file lower fc (d_payload d));
          l ← load_page fc rest c;
          Ok (if (b : bool) then d :: l else l)
      end
  end.

(** [start_idx] for an offset: behind the file of that name, or the start. *)
Fixpoint behind (offset : vpath) (l : list vpath) : option nat :=
  match l with
  | [] => None
  | f :: l' => if decide (f = offset) then Some 1%nat else S <$> behind offset l'
  end.

Definition scan_points (limit : nat) (offset : option vpath) (fc : Conditions) (c : Coll) : result error (list Doc * option vpath) :=
  let all := all_files c in
  let start_idx := default 0%nat (offset ≫= λ o, behind o all) in
  let page_files := take limit (drop start_idx all) in
  points ← load_page fc page_files c;
  Ok (points, if bool_decide (length page_files = limit) && bool_decide (start_idx + limit < length all)%nat then last page_files else None).

Definition clause_path (cl : Cond) : option Json :=
  match cl with Simple key _ m => if decide (key = txt "path") then m_value m else None | Nested _ _ _ => None end.

Definition _extract_path_filter (fc : Conditions) : option text :=
  match fc with
  | Clauses (Some must) None None =>
      (λ v, match v with JStr p => p | _ => str_of v end) <$> head (omap clause_path must)
  | _ => None
  end.

Definition not_path (cl : Cond) : bool := match cl with Simple key _ _ => bool_decide (key ≠ txt "path") | Nested _ _ _ => true end.

(** No clause left: no filter. *)
Definition _build_non_path_filter (fc : Conditions) : Conditions :=
  match fc with
  | Clauses (Some must) _ _ =>
      match filter (λ cl, not_path cl = true) must with [] => NoFilter | remaining => Clauses (Some remaining) None None end
  | _ => NoFilter
  end.

Definition _rebuild_path_index_from_disk (c : Coll) : PathIndex :=
  foldl (λ px f, match read f c with
                 | Some d => match d_path d with
                             | Some p => if decide (d_id d = []) then px else add_point p (d_id d) px
                             | None => px
                             end
                 | None => px
                 end) ∅ (all_files c).

(** What is saved with it: the path index, and the identifiers in memory, if any. *)
Definition _save_path_index (px : PathIndex) (c : Coll) : Coll :=
  with_saved (match ids c with Some m => Ok m | None => saved_ids c end) px c.

(** The path index, rebuilt from the files when it is empty. *)
Definition usable_paths (c : Coll) : Coll :=
  let c1 := load_paths c in
  if decide (paths_of c1 = ∅) then
    let px := _rebuild_path_index_from_disk c1 in
    let c2 := _save_path_index px c1 in
    with_paths (Some (merge_from (paths_of c2) px)) c2
  else c1.

Fixpoint load_points (fc : Conditions) (point_ids : list text) (c : Coll) : result error (list Doc) :=
  match point_ids with
  | [] => Ok []
  | i :: rest =>
      match get_point i c with
      | None => load_points fc rest c
      | Some d =>
          b ← filter_error (_parse_filter compile match_file lower fc (d_payload d));
          l ← load_points fc rest c;
          Ok (if (b : bool) then d :: l else l)
      end
  end.

Definition scroll_points (limit : nat) (offset : option vpath) (fc : Conditions) (c : Coll) : result error (list Doc * option vpath) * Coll :=
  if negb (present c) then (Ok ([], None), c)
  else
    match _extract_path_filter fc with
    | Some target_path =>
        let c1 := usable_paths c in
        let target_ids := sort_texts (elements (get_point_ids target_path (paths_of c1))) in
        let c2 := if decide (target_ids = []) then c1 else load_ids c1 in
        ((λ l, (take limit l, None)) <$> load_points (_build_non_path_filter fc) target_ids c2, c2)
    | None => (scan_points limit offset fc c, c)
    end.

(** A filter that raises gives [false]. *)
Definition delete_by_filter (fc : Conditions) (c : Coll) : bool * Coll :=
  match scroll_points (Z.to_nat 10000) None fc c with
  | (Ok (points, _), c1) => (true, match d_id <$> points with [] => c1 | point_ids => delete_points point_ids c1 end)
  | (Err _, c1) => (false, c1)
  end.

(** ** Updating payloads *)

(** Through [upsert_points], one point at a time. *)
Fixpoint _batch_update_points (git : option Git) (updates : list (text * Dict)) (c : Coll) : bool * Coll :=
  match updates with
  | [] => (true, c)
  | (i, new_payload) :: rest =>
      match get_point i c with
      | None => _batch_update_points git rest (load_ids c)
      | Some d =>
          let p := {| p_id := i; p_vector := d_vector d; p_payload := dupdate (d_payload d) new_payload; p_chunk_text := d_chunk_text d |} in
          match upsert_points git [p] (load_ids c) with
          | (Ok _, c') => _batch_update_points git rest c'
          | (Err _, c') => (false, c')
          end
      end
  end.

Definition with_payload (payload : Dict) (d : Doc) : Doc :=
  {| d_id := d_id d; d_vector := d_vector d; d_payload := payload; d_chunk_text := d_chunk_text d; d_blob := d_blob d; d_uncommitted := d_uncommitted d |}.

(** In place; a file that cannot be parsed ends the batch. *)
Fixpoint update_payloads (updates : list (text * Dict)) (c : Coll) : bool * Coll :=
  match updates with
  | [] => (true, c)
  | (i, fields) :: rest =>
      match ids_of c !! i ≫= λ f, (f,.) <$> files c !! f with
      | None => update_payloads rest c
      | Some (_, None) => (false, c)
      | Some (f, Some d) => update_payloads rest (with_files (<[f := Some (with_payload (dupdate (d_payload d) fields) d)]> (files c)) c)
      end
  end.

Definition _batch_update_payload_only (updates : list (text * Dict)) (c : Coll) : bool * Coll :=
  match updates with [] => (true, c) | _ => update_payloads updates (load_ids c) end.

(** ** What reading returns *)

Definition passes (fc : Conditions) (d : Doc) : bool :=
  match _parse_filter compile match_file lower fc (d_payload d) with Ok b => b | Err _ => false end.

(** The filter raises on no document. *)
Definition total_on (fc : Conditions) (c : Coll) : Prop :=
  ∀ f d, read f c = Some d → is_ok (_parse_filter compile match_file lower fc (d_payload d)) = true.

Lemma load_page_total fc page c : total_on fc c → load_page fc page c = Ok (filter (λ d, passes fc d = true) (omap (λ f, read f c) page)).
Proof.
  intros Ht. induction page as [|f page IH]; [done|]. cbn [load_page omap list_omap]. destruct (read f c) as [d|] eqn:Hd; [|done].
  pose proof (Ht f d Hd) as Hok. rewrite IH. destruct (_parse_filter _ _ _ fc (d_payload d)) as [b|] eqn:Eb; [|done].
  cbn [filter_error mbind result_bind]. destruct b; [rewrite filter_cons_True|rewrite filter_cons_False]; unfold passes; rewrite ?Eb; done.
Qed.

Lemma load_points_total fc l c : total_on fc c → load_points fc l c = Ok (filter (λ d, passes fc d = true) (omap (λ i, get_point i c) l)).
Proof.
  intros Ht. induction l as [|i l IH]; [done|]. cbn [load_points omap list_omap]. destruct (get_point i c) as [d|] eqn:Hd; [|done].
  apply get_point_Some in Hd as (f&_&Hd). pose proof (Ht f d Hd) as Hok. rewrite IH. destruct (_parse_filter _ _ _ fc (d_payload d)) as [b|] eqn:Eb; [|done].
  cbn [filter_error mbind result_bind]. destruct b; [rewrite filter_cons_True|rewrite filter_cons_False]; unfold passes; rewrite ?Eb; done.
Qed.

Lemma all_files_spec c : NoDup (all_files c) ∧ ∀ f, f ∈ all_files c ↔ contains (txt "collection_meta") (file_name f) = false ∧ is_Some (files c !! f).
Proof.
  unfold all_files. split.
  - rewrite merge_sort_Permutation. apply NoDup_filter, NoDup_elements.
  - intros f. rewrite merge_sort_Permutation, list_elem_of_filter, elem_of_elements, elem_of_dom. done.
Qed.

(** Every file of the collection is one a scan looks at. *)
Definition listed (c : Coll) : Prop := ∀ f, is_Some (files c !! f) → contains (txt "collection_meta") (file_name f) = false.

Lemma read_listed f c d : listed c → read f c = Some d → f ∈ all_files c.
Proof. intros Hl Hd. apply all_files_spec. unfold read in Hd. destruct (files c !! f) eqn:E; [|done]. split; [apply Hl|]; by rewrite ?E. Qed.

(** All documents, in the order of their files. *)
Definition docs (c : Coll) : list Doc := omap (λ f, read f c) (all_files c).

Lemma NoDup_omap {A B} (g : A → option B) (l : list A) :
  NoDup l → (∀ x y b, g x = Some b → g y = Some b → x = y) → NoDup (omap g l).
Proof.
  intros Hnd Hinj. induction Hnd as [|x l Hx Hnd IH]; cbn; [constructor|]. destruct (g x) as [b|] eqn:E; [|done].
  constructor; [|done]. intros (y&Hy&Hb)%list_elem_of_omap. by rewrite (Hinj x y b) in Hx.
Qed.

Lemma docs_spec c : consistent c → listed c → NoDup (docs c) ∧ ∀ d, d ∈ docs c ↔ get_point (d_id d) c = Some d.
Proof.
  intros Hc Hl. unfold docs. split.
  - apply NoDup_omap; [apply all_files_spec|]. intros f g d Hf Hg. apply (co_doc c Hc) in Hf, Hg. congruence.
  - intros d. rewrite list_elem_of_omap. split; [intros (f&_&Hd); by eapply get_point_doc|].
    intros (f&_&Hd)%get_point_Some. exists f. split; [by eapply read_listed|done].
Qed.

Lemma scan_whole fc n c : total_on fc c → (length (all_files c) < n)%nat → scan_points n None fc c = Ok (filter (λ d, passes fc d = true) (docs c), None).
Proof.
  intros Ht Hn. unfold scan_points. cbn [mbind option_bind default]. rewrite drop_0, take_ge by lia. rewrite load_page_total by done.
  cbn. rewrite bool_decide_false by lia. done.
Qed.

(** ** The path index answers like a scan *)

Lemma usable_paths_spec c :
  consistent c →
  consistent (usable_paths c) ∧ files (usable_paths c) = files c ∧ ids (usable_paths c) = ids c ∧
  ∀ p, get_point_ids p (paths_of (usable_paths c)) = get_point_ids p (paths_of c).
Proof.
  intros Hc. unfold usable_paths. destruct (co_loaded c Hc) as [[m Hm] [px Hpx]].
  assert (load_paths c = c) as E by (destruct c; unfold load_paths, with_paths, paths_of; cbn in *; by subst). rewrite E. case_decide as He; [|done].
  set (px' := _rebuild_path_index_from_disk c). set (c' := with_paths _ _).
  assert (∀ p, get_point_ids p px' = ∅) as Hempty.
  { intros p. unfold px', _rebuild_path_index_from_disk. assert (∀ f d, read f c = Some d → d_path d = None) as Hno.
    { intros f d Hd. destruct (d_path d) as [q|] eqn:Hq; [|done]. assert (d_id d ∈ get_point_ids q (paths_of c)) as Hin.
      { apply (co_path c Hc). exists d. split; [by eapply get_point_doc|done]. } rewrite He in Hin. unfold get_point_ids in Hin. rewrite lookup_empty in Hin. by apply elem_of_empty in Hin. }
    induction (all_files c) as [|f l IH] using rev_ind; [done|]. rewrite foldl_snoc. destruct (read f c) as [d|] eqn:Hd; [|done]. by rewrite (Hno f d Hd). }
  assert (∀ p, get_point_ids p (paths_of c') = get_point_ids p (paths_of c)) as Hget.
  { intros p. assert (paths_of c' = merge_from (paths_of c) px') as -> by (unfold c', _save_path_index, paths_of; cbn; by rewrite Hpx).
    rewrite get_merge, Hempty. by rewrite (left_id_L ∅ (∪)). }
  assert (ids_of c' = ids_of c) as Hids by (unfold ids_of; change (ids c') with (ids c); by rewrite Hm).
  split_and!; [|done..]. split.
  - split; [by eexists|by eexists].
  - intros i f. rewrite Hids. apply (co_file c Hc).
  - intros f d Hd. rewrite Hids. by apply (co_doc c Hc).
  - intros p i. rewrite Hget, (co_path c Hc). unfold get_point. by rewrite Hids.
Qed.

Lemma all_hold_ok {A} (f : A → result PathPattern.error bool) (l : list A) :
  (∀ x, x ∈ l → is_ok (f x) = true) → all_hold f l = Ok (forallb (λ x, match f x with Ok b => b | Err _ => false end) l).
Proof.
  induction l as [|x l IH]; intros Hok; [done|]. cbn [all_hold forallb]. pose proof (Hok x ltac:(by left)) as Hx.
  destruct (f x) as [b|]; [|done]. cbn. destruct b; [|done]. rewrite IH; [done|]. intros y Hy. apply Hok. by right.
Qed.

Lemma must_filter must payload :
  (∀ cl, cl ∈ must → is_ok (evaluate_condition compile match_file lower payload cl) = true) →
  _parse_filter compile match_file lower (Clauses (Some must) None None) payload =
  Ok (forallb (λ cl, match evaluate_condition compile match_file lower payload cl with Ok b => b | Err _ => false end) must).
Proof. intros Hok. cbn [_parse_filter evaluate_condition]. rewrite all_hold_ok by done. cbn. by destruct (forallb _ must). Qed.

(** The clauses of a filter raise on no document. *)
Definition clauses_total (must : list Cond) (c : Coll) : Prop :=
  ∀ f d cl, read f c = Some d → cl ∈ must → is_ok (evaluate_condition compile match_file lower (d_payload d) cl) = true.

Lemma clauses_total_on must c : clauses_total must c → total_on (Clauses (Some must) None None) c.
Proof. intros Ht f d Hd. rewrite must_filter; [done|]. intros cl Hcl. by eapply Ht. Qed.

Lemma other_clauses_pass must c f d :
  clauses_total must c → read f c = Some d →
  let rest := _build_non_path_filter (Clauses (Some must) None None) in
  is_ok (_parse_filter compile match_file lower rest (d_payload d)) = true ∧
  passes rest d = forallb (λ cl, match evaluate_condition compile match_file lower (d_payload d) cl with Ok b => b | Err _ => false end) (filter (λ cl, not_path cl = true) must).
Proof.
  intros Ht Hd. cbv zeta. cbn [_build_non_path_filter]. destruct (filter (λ cl, not_path cl = true) must) as [|cl l] eqn:E; [done|].
  unfold passes. rewrite must_filter; [done|]. intros x Hx. apply (Ht f d); [done|].
  assert (x ∈ filter (λ cl, not_path cl = true) must) as Hin by (by rewrite E). by apply list_elem_of_filter in Hin as [_ ?].
Qed.

Definition has_string_path (d : Doc) : Prop := ∃ q, d_path d = Some q.

Lemma path_clause_split p pre post c f d :
  let must := pre ++ equals (txt "path") p :: post in
  Forall (λ cl, not_path cl = true) (pre ++ post) → clauses_total must c → read f c = Some d → has_string_path d →
  passes (Clauses (Some must) None None) d =
  bool_decide (d_path d = Some p) && passes (_build_non_path_filter (Clauses (Some must) None None)) d.
Proof.
  intros must Hall Ht Hd [q Hq]. destruct (other_clauses_pass must c f d Ht Hd) as [_ ->].
  unfold passes. rewrite must_filter by (intros cl Hcl; by eapply Ht). unfold must. apply Forall_app in Hall as [Hpre Hpost].
  rewrite filter_app, filter_cons_False by done. rewrite !list_filter_all by (by apply Forall_forall). rewrite !forallb_app. cbn [forallb].
  rewrite path_equals_spec. assert (dget (txt "path") (d_payload d) = Some (JStr q)) as ->.
  { unfold d_path, path_of_payload in Hq. destruct (dget (txt "path") (d_payload d)) as [[]|]; try done. case_decide; congruence. }
  rewrite Hq. assert (json_eqb (JStr q) (JStr p) = bool_decide (Some q = Some p)) as ->.
  { apply bool_decide_ext. split; [by intros ->|by intros [= ->]]. }
  by destruct (bool_decide _), (forallb _ pre).
Qed.


(** ** Updating payloads in place *)

(** A document written over its own file. *)
Lemma overwrite_spec c i f d d' :
  consistent c → ids_of c !! i = Some f → read f c = Some d →
  d_id d' = d_id d → d_vector d' = d_vector d → d_path d' = d_path d →
  let c' := with_files (<[f := Some d']> (files c)) c in
  consistent c' ∧ ∀ j, get_point j c' = if decide (j = i) then Some d' else get_point j c.
Proof.
  intros Hc Hi Hd Eid Ev Ep c'. assert (∀ g, read g c' = if decide (g = f) then Some d' else read g c) as Hread.
  { intros g. unfold read. cbn. case_decide; [subst; by rewrite lookup_insert_eq|by rewrite lookup_insert_ne]. }
  assert (ids_of c' = ids_of c) as Hids by (unfold ids_of; destruct (co_loaded c Hc) as [[m Hm] _]; cbn; by rewrite Hm).
  destruct (co_file c Hc i f Hi) as (d0&Hd0&Hid&Hf&Hs). assert (d0 = d) as -> by congruence.
  assert (∀ j, get_point j c' = if decide (j = i) then Some d' else get_point j c) as Hget.
  { intros j. unfold get_point. rewrite Hids. case_decide as Hj.
    - subst j. rewrite Hi. cbn. by rewrite Hread, decide_True.
    - destruct (ids_of c !! j) as [g|] eqn:Hg; [|done]. cbn. rewrite Hread, decide_False; [done|]. intros ->.
      destruct (co_file c Hc j _ Hg) as (e&He&Hide&_). congruence. }
  split; [|done]. split.
  - exact (co_loaded c Hc).
  - intros j g. rewrite Hids, Hread. intros Hg. destruct (co_file c Hc j g Hg) as (e&He&Hide&Hfile&Hsafe). case_decide as Hgf; [|by exists e].
    subst g. assert (e = d) as -> by congruence. exists d'. rewrite Eid, Ev. done.
  - intros g e. rewrite Hids, Hread. case_decide as Hgf; [|by apply (co_doc c Hc)]. intros [= <-]. rewrite Eid, Hid. congruence.
  - intros p j. change (paths_of c') with (paths_of c). rewrite (co_path c Hc), Hget. case_decide as Hj; [|done]. subst j.
    assert (get_point i c = Some d) as -> by (apply get_point_Some; eauto).
    split; intros (e&[= <-]&He); eexists; split; try done; congruence.
Qed.

Definition merged (updates : list (text * Dict)) (i : text) (d : Doc) : Doc :=
  match dget i updates with Some fields => with_payload (dupdate (d_payload d) fields) d | None => d end.

Lemma update_payloads_spec updates c :
  consistent c → NoDup updates.*1 → Forall (λ u, dget (txt "path") u.2 = None ∧ NoDup u.2.*1) updates →
  ∃ fs, update_payloads updates c = (true, with_files fs c) ∧ dom fs = dom (files c) ∧ consistent (with_files fs c) ∧
    ∀ i, get_point i (with_files fs c) = merged updates i <$> get_point i c.
Proof.
  revert c. induction updates as [|[i fields] rest IH]; intros c Hc Hnd Hup.
  { exists (files c). assert (with_files (files c) c = c) as -> by by destruct c. split_and!; try done. intros i. by destruct (get_point i c). }
  cbn [fmap list_fmap fst] in Hnd. apply NoDup_cons in Hnd as [Hfresh Hnd]. apply Forall_cons in Hup as [[Hpath Hfields] Hup]. cbn [snd] in *.
  assert (dget i rest = None) as Hrest by by apply dget_None. cbn [update_payloads].
  assert (∀ j d, merged ((i, fields) :: rest) j d = if decide (j = i) then with_payload (dupdate (d_payload d) fields) d else merged rest j d) as Hm.
  { intros j d. unfold merged. cbn [dget]. by destruct (decide (j = i)). }
  destruct (ids_of c !! i) as [f|] eqn:Hi; cbn [mbind option_bind].
  - destruct (co_file c Hc i f Hi) as (d&Hd&Hid&Hf&_). assert (files c !! f = Some (Some d)) as Hff.
    { unfold read in Hd. destruct (files c !! f) as [[e|]|]; try done. cbn in Hd. by injection Hd as ->. }
    rewrite Hff. cbn [fmap option_fmap option_map]. set (d' := with_payload _ d).
    destruct (overwrite_spec c i f d d' Hc Hi Hd) as [Hc1 Hget]; [done..| |].
    { unfold d_path, path_of_payload, d', with_payload. cbn [d_payload]. rewrite dget_dupdate by done. by rewrite Hpath. }
    destruct (IH _ Hc1 Hnd Hup) as (fs&Hfs&Hdom&Hc2&Hget2). exists fs. rewrite Hfs. split; [done|].
    split; [rewrite Hdom; cbn; apply dom_insert_lookup_L; by eexists|]. split; [done|]. intros j.
    change (with_files fs c) with (with_files fs (with_files (<[f := Some d']> (files c)) c)). rewrite Hget2, Hget. case_decide as Hj.
    + subst j. assert (get_point i c = Some d) as -> by (apply get_point_Some; eauto). cbn. rewrite Hm, decide_True by done. unfold merged. by rewrite Hrest.
    + apply option_fmap_ext. intros d0. by rewrite Hm, decide_False.
  - destruct (IH c Hc Hnd Hup) as (fs&Hfs&Hdom&Hc2&Hget2). exists fs. split_and!; try done. intros j. rewrite Hget2.
    destruct (decide (j = i)) as [->|Hj]; [unfold get_point; by rewrite Hi|]. apply option_fmap_ext. intros d0. by rewrite Hm, decide_False.
Qed.

(** ** The invariant of a collection *)

Lemma end_indexing_same skip c :
  consistent c → ids_of c ≠ ∅ →
  let c' := (end_indexing skip c).2 in files c' = files c ∧ ids c' = ids c ∧ paths c' = paths c.
Proof.
  intros Hc Hne. destruct (co_loaded c Hc) as [[m Hm] _]. unfold ids_of in Hne. rewrite Hm in Hne. cbn in Hne.
  assert (∀ c1, files c1 = files c → ids c1 = ids c → paths c1 = paths c →
    files (save_indexes c1) = files c ∧ ids (save_indexes c1) = ids c ∧ paths (save_indexes c1) = paths c) as Hsave.
  { intros c1 H1 H2 H3. unfold save_indexes. rewrite H2, Hm. rewrite decide_False by done. cbn. done. }
  assert (∀ v b c1, files (rebuild_from_vectors v b c1).2 = files c1 ∧ ids (rebuild_from_vectors v b c1).2 = ids c1 ∧ paths (rebuild_from_vectors v b c1).2 = paths c1) as Hre.
  { intros v b c1. unfold rebuild_from_vectors. destruct (ids_list v b c1); [destruct (bool_decide _)|]; done. }
  cbv zeta. unfold end_indexing. destruct (present c); [|done]. cbn [negb].
  assert (∀ c1 handled, files c1 = files c → ids c1 = ids c → paths c1 = paths c →
    let c' := (Ok () : result error (), save_indexes (if (handled : bool) then c1 else if skip then mark_stale c1 else (rebuild_from_vectors None None c1).2)).2 in
    files c' = files c ∧ ids c' = ids c ∧ paths c' = paths c) as Hend.
  { intros c1 handled H1 H2 H3. destruct handled; [by apply Hsave|]. destruct skip; [by apply Hsave|].
    destruct (Hre None None c1) as (?&?&?). apply Hsave; congruence. }
  destruct (did_filtered_rebuild c); [by apply (Hend _ true)|]. destruct (changes c) as [ch|]; [|by apply (Hend _ false)].
  destruct (any_change ch && negb skip); [|by apply (Hend _ false)].
  unfold _apply_incremental_hnsw_batch_update. destruct (load_for_incremental_update c) as [mp|]; [by apply (Hend _ true)|by apply (Hend _ false)].
Qed.

(** What the operations do to a collection. *)
Inductive step (c : Coll) : Coll → Prop :=
| step_upsert git batch : acceptable git batch c → step c (upsert_points git batch c).2
| step_delete point_ids : step c (delete_points point_ids c)
| step_scroll limit offset fc : step c (scroll_points limit offset fc c).2
| step_delete_by_filter fc : step c (delete_by_filter fc c).2
| step_payloads updates :
    NoDup updates.*1 → Forall (λ u, dget (txt "path") u.2 = None ∧ NoDup u.2.*1) updates → step c (_batch_update_payload_only updates c).2
| step_begin : step c (begin_indexing c)
| step_filtered visible_files branch : step c (rebuild_hnsw_filtered visible_files branch c).2
| step_stale : step c (mark_stale c)
| step_end skip : ids_of c ≠ ∅ → step c (end_indexing skip c).2.

Lemma scroll_consistent limit offset fc c : consistent c → consistent (scroll_points limit offset fc c).2.
Proof.
  intros Hc. unfold scroll_points. destruct (present c); [|done]. cbn [negb]. destruct (_extract_path_filter fc) as [p|]; [|done].
  destruct (usable_paths_spec c Hc) as (Hc1&_). cbn [snd]. rewrite (load_ids_loaded _ (proj1 (co_loaded _ Hc1))). by case_decide.
Qed.

Lemma step_consistent c c' : consistent c → step c c' → consistent c'.
Proof.
  intros Hc Hs. destruct Hs as [git batch Ha|l|limit offset fc|fc|updates Hnd Hup| |vis br| |skip Hne].
  - destruct (upsert_points_spec git batch c Hc Ha) as (c'&->&?&_). done.
  - by apply delete_points_spec.
  - by apply scroll_consistent.
  - unfold delete_by_filter. pose proof (scroll_consistent (Z.to_nat 10000) None fc c Hc) as H1. destruct (scroll_points _ None fc c) as [[[l o]|e] c1]; [|done].
    cbn [snd] in *. destruct (d_id <$> l); [done|]. by apply delete_points_spec.
  - unfold _batch_update_payload_only. destruct updates as [|u us]; [done|]. rewrite load_ids_loaded by apply (co_loaded c Hc).
    destruct (update_payloads_spec (u :: us) c Hc Hnd Hup) as (fs&->&_&?&_). done.
  - by apply begin_indexing_spec.
  - unfold rebuild_hnsw_filtered. pose proof (rebuild_spec (Some vis) br c Hc) as Hr. destruct (rebuild_from_vectors (Some vis) br c) as [n c1]. destruct Hr as (_&_&?&?&?&_).
    by apply (consistent_same c (with_flag true c1) Hc).
  - by apply (consistent_same c (mark_stale c) Hc).
  - destruct (end_indexing_same skip c Hc Hne) as (?&?&?). by apply (consistent_same c _ Hc).
Qed.

End collection.
End Collection.

(** ** A small store *)

Module Samples.
Import Filter PathIndex Collection.

(** Vectors are numbers; the directory of a vector has the last digit of the number. *)
Definition directory (v : N) : list text := [[(48 + v mod 10)%N]].
Definition numeric (v : N) : bool := (v <? 100)%N.
Definition compile_none (_ : text) : option () := None.
Definition match_none (_ : ()) (_ : text) : option bool := None.
Definition lower_id (t : text) : text := t.
Definition str_none (_ : Json) : text := [].

Definition point (i : text) (v : N) (path : text) : Point :=
  {| p_id := i; p_vector := v; p_payload := [(txt "type", JStr (txt "content")); (txt "path", JStr path)]; p_chunk_text := Some (txt "text of " ++ i) |}.
Definition upsert := upsert_points directory numeric None.
Definition store0 : @Coll N := begin_indexing (create_collection no_collection).
Definition batch1 : list (@Point N) := [point (txt "a1") 1 (txt "a.py"); point (txt "a2") 2 (txt "a.py"); point (txt "b1") 3 (txt "b.py")].
Definition store1 : @Coll N := (upsert batch1 store0).2.

Ltac in_batch := repeat match goal with
  | H : ?p ∈ ?l |- _ =>
      let l' := eval hnf in l in
      lazymatch l' with
      | [] => by apply elem_of_nil in H
      | ?x :: ?k => change (p ∈ x :: k) in H; apply elem_of_cons in H as [->|H]
      end
  end.
(** A concrete batch is acceptable. *)
Ltac accept := split; [vm_compute; reflexivity|apply (bool_decide_eq_true_1 (NoDup _)); by vm_compute
  |intros ? ?; in_batch; (split; [done|by eexists])
  |intros ? ?; in_batch; (split; [apply (bool_decide_eq_false_1 (slash ∈ _)); by vm_compute|intros ?; vm_compute; first [discriminate|intros [= <-]; done]])].

Lemma store0_consistent : consistent directory store0.
Proof. by apply created_consistent. Qed.

Lemma batch1_acceptable : acceptable directory numeric None batch1 store0.
Proof. accept. Qed.

Lemma store1_consistent : consistent directory store1.
Proof.
  destruct (upsert_points_spec directory numeric None batch1 store0 store0_consistent batch1_acceptable) as (c&Hc&?&_).
  unfold store1, upsert. by rewrite Hc.
Qed.

Definition batch2 : list (@Point N) := [point (txt "a3") 4 (txt "a.py"); point (txt "a2") 2 (txt "a.py")].



(** The store after its first session. *)
Definition indexed1 : @Coll N := (end_indexing numeric false store1).2.

Lemma indexed1_consistent : consistent directory indexed1.
Proof. by apply (consistent_same directory store1 indexed1 store1_consistent). Qed.

Lemma indexed1_index : index_ok indexed1 ∧ searchable indexed1 = dom (ids_of indexed1).
Proof.
  split; [|by vm_compute]. destruct (meta indexed1) as [m|] eqn:E; [|by vm_compute in E]. exists m. split_and!; [|done|].
  - by vm_compute in E |- *; injection E as <-; vm_compute.
  - assert (map_Forall (λ k i, map_Forall (λ l j, i = j → k = l) (id_mapping m)) (id_mapping m)) as H.
    { vm_compute in E. injection E as <-. apply (bool_decide_eq_true_1 (map_Forall _ _)). by vm_compute. }
    intros k l i Hk Hl. by apply (H k i Hk l i Hl).
Qed.

Definition written1 : @Coll N := (upsert batch2 (begin_indexing indexed1)).2.
Definition session1 : @Coll N := delete_points [txt "b1"] written1.

Lemma batch2_acceptable : acceptable directory numeric None batch2 (begin_indexing indexed1).
Proof. accept. Qed.

Lemma written1_consistent : consistent directory written1.
Proof.
  destruct (begin_indexing_spec directory indexed1 indexed1_consistent) as [Hc _].
  destruct (upsert_points_spec directory numeric None batch2 (begin_indexing indexed1) Hc batch2_acceptable) as (c&Hup&?&_).
  unfold written1, upsert. by rewrite Hup.
Qed.

Lemma session1_reached : session directory numeric (begin_indexing indexed1) session1.
Proof.
  assert (upsert_points directory numeric None batch2 (begin_indexing indexed1) = (Ok (), written1)) as Hup by (vm_compute; reflexivity).
  eapply session_upsert; [exact batch2_acceptable| |exact Hup|].
  - intros ch p [= <-] _. apply not_elem_of_empty.
  - unfold session1. generalize written1. intros c. apply (session_delete _ _ [txt "b1"]), session_end.
Qed.



(** ** Where the store does not keep its promises *)

(** Updating one point through [_batch_update_points] removes the other points of its file. *)
Lemma update_drops_siblings :
  let c := (_batch_update_points directory numeric None [(txt "a1", [(txt "hidden_branches", JList [])])] store1).2 in
  is_Some (get_point (txt "a1") c) ∧ is_Some (get_point (txt "a2") store1) ∧ get_point (txt "a2") c = None.
Proof. vm_compute. eauto. Qed.

(** A point deleted and written again in one session cannot be found by a search. *)
Lemma readded_point_unsearchable :
  let c := (upsert [point (txt "b1") 3 (txt "b.py")] (delete_points [txt "b1"] (begin_indexing indexed1))).2 in
  let c' := (end_indexing numeric false c).2 in
  is_Some (get_point (txt "b1") c') ∧ bool_decide (txt "b1" ∈ searchable c') = false ∧ bool_decide (txt "b1" ∈ ids_list numeric None None c') = true.
Proof. vm_compute. eauto. Qed.

(** A point whose new vector belongs to another directory leaves its old file behind, and
    is read twice by a scan. *)
Lemma moved_point_read_twice :
  let c := (upsert [point (txt "b1") 4 (txt "b.py")] store1).2 in
  d_id <$> docs c = [txt "a1"; txt "a2"; txt "b1"; txt "b1"] ∧ ids_list numeric None None c = [txt "a1"; txt "a2"; txt "b1"; txt "b1"].
Proof. by vm_compute. Qed.

(** A batch that is rejected has already removed the file's points. *)
Lemma rejected_batch_loses_points :
  let '(r, c) := upsert [point (txt "b2") 200 (txt "b.py")] store1 in
  r = Err InvalidVector ∧ is_Some (get_point (txt "b1") store1) ∧ get_point (txt "b1") c = None.
Proof. vm_compute. eauto. Qed.

(** When a session deletes the last point, the identifiers on disk come back. *)
Lemma emptied_index_comes_back :
  let c := delete_points [txt "a1"; txt "a2"; txt "b1"] (begin_indexing indexed1) in
  let c' := (end_indexing numeric false c).2 in
  bool_decide (ids_of c = ∅) = true ∧ is_Some (ids_of c' !! txt "a1") ∧ get_point (txt "a1") c' = None.
Proof. vm_compute. eauto. Qed.

(** When a file is no longer at HEAD, an update of the payload of its points replaces the
    blob they are stored by with an empty text. *)
Lemma update_forgets_contents :
  let head := {| blob_hashes := {[txt "a.py" := txt "5f3a"]}; uncommitted := ∅ |} in
  let gone := {| blob_hashes := ∅; uncommitted := ∅ |} in
  let c := (upsert_points directory numeric (Some head) [point (txt "a1") 1 (txt "a.py")] store0).2 in
  let c' := (_batch_update_points directory numeric (Some gone) [(txt "a1", [(txt "hidden_branches", JList [])])] c).2 in
  (d_blob <$> get_point (txt "a1") c) = Some (Some (txt "5f3a")) ∧
  (d_blob <$> get_point (txt "a1") c') = Some None ∧ (d_chunk_text <$> get_point (txt "a1") c') = Some (Some []).
Proof. by vm_compute. Qed.

(** Files with the same contents share their points, and the last path wins: the path index
    lists the point under both, a scan finds it under one. *)
Lemma shared_point_has_one_path :
  let c := (upsert [point (txt "b1") 3 (txt "copy.py")] store1).2 in
  get_point_ids (txt "b.py") (paths_of c) = {[txt "b1"]} ∧ (get_point (txt "b1") c ≫= d_path) = Some (txt "copy.py").
Proof. by vm_compute. Qed.
End Samples.
