(* ===== verification/BranchVisibility.v ===== *)
(** * Branch visibility

    src/src/code_indexer/services/high_throughput_processor.py, the part that keeps a
    collection in step with the branch that is checked out, and the paged reads of
    smart_indexer.py: every content point carries the branches it is hidden in, and the
    search index is rebuilt from the files of the branch.

    The files that changed are processed elsewhere: what that does to the collection is a
    parameter.  The full-text index is the set of the paths it has a document for.  The
    collection of multimodal vectors, ended in the same way, progress reports and the locks
    around each operation are left out. *)

From S2P Require Import Prelude.
From S2P Require Import PyText.
From S2P Require Import Filters.
From S2P Require Import VectorStore.
From stdpp Require Import options.

Module Visibility.
Import Filter PathIndex Collection.

Section visibility.
Context {V : Type} (vdir : V → list text) (valid : V → bool).
Context {Spec : Type} (compile : text → option Spec) (match_file : Spec → text → option bool) (lower : text → text).
Context (str_of : Json → text).
Abbreviation Coll := (@Coll V).
Abbreviation Doc := (@Doc V).

(** ** Reading all content points *)

Definition content_filter : Conditions := Clauses (Some [equals (txt "type") (txt "content")]) None None.

Definition scroll (limit : nat) (offset : option vpath) (fc : Conditions) (c : Coll) : result error (list Doc * option vpath) * Coll :=
  scroll_points compile match_file lower str_of limit offset fc c.

(** The loop over pages; [None] when the fuel runs out. *)
Fixpoint fetch_pages (limit fuel : nat) (offset : option vpath) (all_points : list Doc) (c : Coll) : option (result error (list Doc) * Coll) :=
  match fuel with
  | O => None
  | S fuel =>
      match scroll limit offset content_filter c with
      | (Err e, c') => Some (Err e, c')
      | (Ok ([], _), c') => Some (Ok all_points, c')
      | (Ok (points, next_offset), c') =>
          match next_offset with
          | None => Some (Ok (all_points ++ points), c')
          | Some _ =>
              if decide (next_offset = offset) then Some (Ok (all_points ++ points), c')
              else fetch_pages limit fuel next_offset (all_points ++ points) c'
          end
      end
  end.

Definition PAGE : nat := Z.to_nat 5000.

Definition _fetch_all_content_points (limit : nat) (c : Coll) : option (result error (list Doc) * Coll) :=
  fetch_pages limit (S (length (all_files c))) None [] c.

(** The loop of the smart indexer compares the next offset with the one it has just been
    assigned to. *)
Fixpoint scroll_pages (limit fuel : nat) (offset : option vpath) (all_points : list Doc) (c : Coll) : option (result error (list Doc) * Coll) :=
  match fuel with
  | O => None
  | S fuel =>
      match scroll limit offset content_filter c with
      | (Err e, c') => Some (Err e, c')
      | (Ok ([], _), c') => Some (Ok all_points, c')
      | (Ok (points, next_offset), c') =>
          let offset := next_offset in
          match offset with
          | None => Some (Ok (all_points ++ points), c')
          | Some _ =>
              if decide (next_offset = offset) then Some (Ok (all_points ++ points), c')
              else scroll_pages limit fuel offset (all_points ++ points) c'
          end
      end
  end.

Definition _scroll_all_content_points (limit : nat) (c : Coll) : option (result error (list Doc) * Coll) :=
  scroll_pages limit (S (length (all_files c))) None [] c.

(** ** The branches a point is hidden in *)

Definition HIDDEN : text := txt "hidden_branches".

(** The update that hides a point, if it is not hidden. *)
Definition hide_update (branch : text) (d : Doc) : option (text * Dict) :=
  if hidden_in branch d then None else Some (d_id d, [(HIDDEN, JList (hidden_branches (d_payload d) ++ [JStr branch]))]).

Definition show_update (branch : text) (d : Doc) : option (text * Dict) :=
  if hidden_in branch d
  then Some (d_id d, [(HIDDEN, JList (filter (λ b, json_eqb b (JStr branch) = false) (hidden_branches (d_payload d))))])
  else None.

(** [payload.get("path") in s] *)
Definition path_in (s : gset text) (d : Doc) : bool :=
  match dget (txt "path") (d_payload d) with Some (JStr p) => bool_decide (p ∈ s) | _ => false end.

Definition updates_for (update : text → Doc → option (text * Dict)) (branch : text) (s : gset text) (all_content_points : list Doc) : list (text * Dict) :=
  omap (update branch) (filter (λ d, path_in s d = true) all_content_points).

Definition _batch_ensure_files_visible_in_branch (file_paths : list text) (branch : text) (all_content_points : list Doc) (c : Coll) : Coll :=
  match file_paths with
  | [] => c
  | _ =>
      match updates_for show_update branch (list_to_set file_paths) all_content_points with
      | [] => c
      | points_to_update => (_batch_update_payload_only points_to_update c).2
      end
  end.

Definition _batch_hide_files_in_branch (file_paths : gset text) (branch : text) (all_content_points : list Doc) (c : Coll) : Coll :=
  if decide (file_paths = ∅) then c
  else
    match updates_for hide_update branch file_paths all_content_points with
    | [] => c
    | all_points_to_update => (_batch_update_payload_only all_points_to_update c).2
    end.

(** ** One file *)

Definition file_filter (file_path : text) : Conditions :=
  Clauses (Some [equals (txt "type") (txt "content"); equals (txt "path") file_path]) None None.

Definition update_file (update : text → Doc → option (text * Dict)) (git : option Git) (file_path branch : text) (c : Coll) : bool * Coll :=
  match scroll 1000 None (file_filter file_path) c with
  | (Err _, c1) => (false, c1)
  | (Ok (content_points, _), c1) =>
      match omap (update branch) content_points with
      | [] => (true, c1)
      | points_to_update => _batch_update_points vdir valid git points_to_update c1
      end
  end.

Definition _hide_file_in_branch_thread_safe := update_file hide_update.
Definition _ensure_file_visible_in_branch_thread_safe := update_file show_update.

(** ** The files of a branch *)

(** A path of a point relative to the project, if it is absolute and inside. *)
Definition normalized (codebase_dir : Path) (path : text) : text :=
  if is_absolute (path_of path) then from_option path_str path (relative_to (path_of path) codebase_dir) else path.

Definition db_file_paths (codebase_dir : Path) (all_content_points : list Doc) : gset text :=
  list_to_set (omap (λ d, match dget (txt "path") (d_payload d) with Some (JStr p) => Some (normalized codebase_dir p) | _ => None end) all_content_points).

(** [fts]: the paths with a document in the full-text index, if there is one.  [points]:
    the content points, if the caller has read them.  A rebuild that raises is logged. *)
Definition hide_files_not_in_branch_thread_safe (limit : nat) (codebase_dir : Path) (branch : text) (current_files : list text)
    (fts : option (gset text)) (points : option (list Doc)) (c : Coll) : option (bool * option (gset text) * Coll) :=
  '(r, c1) ← match points with Some l => Some (Ok l, c) | None => _fetch_all_content_points limit c end;
  match r with
  | Err _ => Some (false, fts, c1)
  | Ok all_content_points =>
      let current_files_set := list_to_set current_files in
      let files_to_hide := db_file_paths codebase_dir all_content_points ∖ current_files_set in
      let c2 := _batch_hide_files_in_branch files_to_hide branch all_content_points c1 in
      let c3 := if present c2 then (rebuild_hnsw_filtered valid current_files_set (Some branch) c2).2 else c2 in
      Some (true, (λ docs, docs ∖ files_to_hide) <$> fts, c3)
  end.

Inductive outcome := Done | Cancelled.

(** After the changed files are processed. *)
Definition update_branch (limit : nat) (codebase_dir : Path) (new_branch : text) (changed_files unchanged_files : list text) (skip_branch_isolation : bool)
    (fts : option (gset text)) (c : Coll) : option (result error outcome * option (gset text) * Coll) :=
  let needs_visibility_or_isolation := bool_decide (unchanged_files ≠ []) || negb skip_branch_isolation in
  '(r, c1) ← (if needs_visibility_or_isolation then _fetch_all_content_points limit c else Some (Ok [], c));
  match r with
  | Err e => Some (Err e, fts, c1)
  | Ok all_content_points =>
      let c2 := _batch_ensure_files_visible_in_branch unchanged_files new_branch all_content_points c1 in
      if skip_branch_isolation then Some (Ok Done, fts, c2)
      else '(_, fts', c3) ← hide_files_not_in_branch_thread_safe limit codebase_dir new_branch (changed_files ++ unchanged_files) fts (Some all_content_points) c2;
           Some (Ok Done, fts', c3)
  end.

(** [process]: what processing the changed files that exist does. *)
Definition process_branch_changes_high_throughput (process : list text → Coll → result error outcome * Coll) (exists_on_disk : text → bool)
    (limit : nat) (codebase_dir : Path) (new_branch : text) (changed_files unchanged_files : list text) (watch_mode skip_branch_isolation : bool)
    (fts : option (gset text)) (c : Coll) : option (result error outcome * option (gset text) * Coll) :=
  let c0 := begin_indexing c in
  let '(r, c1) := match filter (λ f, exists_on_disk f = true) changed_files with
                  | [] => (Ok Done, c0)
                  | absolute_changed_files => process absolute_changed_files c0
                  end in
  '(r', fts', c2) ← match r with
                    | Ok Done => update_branch limit codebase_dir new_branch changed_files unchanged_files skip_branch_isolation fts c1
                    | _ => Some (r, fts, c1)
                    end;
  let '(e, c3) := end_indexing valid watch_mode c2 in
  Some (match e with Err e' => Err e' | Ok _ => r' end, fts', c3).

(** ** Pages *)

Definition is_content (d : Doc) : bool := match dget (txt "type") (d_payload d) with Some j => json_eqb j (JStr (txt "content")) | None => false end.

Lemma content_passes d : _parse_filter compile match_file lower content_filter (d_payload d) = Ok (is_content d).
Proof.
  unfold content_filter. assert (evaluate_condition compile match_file lower (d_payload d) (equals (txt "type") (txt "content")) = Ok (is_content d)) as E.
  { rewrite equals_spec; [done|done| |done]. apply (bool_decide_eq_false_1 (dot ∈ txt "type")). by vm_compute. }
  rewrite must_filter; [cbn [forallb]; rewrite E; by destruct (is_content d)|]. intros cl ->%list_elem_of_singleton. by rewrite E.
Qed.

Lemma content_total (c : Coll) : total_on compile match_file lower content_filter c.
Proof. intros f d _. by rewrite content_passes. Qed.

Definition contents (fs : list vpath) (c : Coll) : list Doc := filter (λ d, is_content d = true) (omap (λ f, read f c) fs).

Lemma contents_app fs gs (c : Coll) : contents (fs ++ gs) c = contents fs c ++ contents gs c.
Proof. unfold contents. by rewrite omap_app, filter_app. Qed.

Lemma behind_lookup f l k : NoDup l → l !! k = Some f → behind f l = Some (S k).
Proof.
  intros Hnd. revert k. induction Hnd as [|g l Hg Hnd IH]; intros k Hk; [done|]. cbn. destruct k as [|k].
  - injection Hk as ->. by rewrite decide_True.
  - cbn in Hk. rewrite decide_False; [by rewrite (IH k Hk)|]. intros ->. by apply list_elem_of_lookup_2 in Hk.
Qed.

(** Where a page starts. *)
Definition starts (offset : option vpath) (c : Coll) : nat := default 0%nat (offset ≫= λ o, behind o (all_files c)).

Lemma scroll_page limit offset (c : Coll) :
  present c = true →
  let k := starts offset c in let page := take limit (drop k (all_files c)) in
  scroll limit offset content_filter c =
  (Ok (contents page c, if bool_decide (length page = limit) && bool_decide (k + limit < length (all_files c))%nat then last page else None), c).
Proof.
  intros Hp k page. unfold scroll, scroll_points. rewrite Hp. cbn [negb]. assert (_extract_path_filter str_of content_filter = None) as -> by done.
  unfold scan_points. fold k page. change (default 0%nat _) with (starts offset c). fold k page. rewrite load_page_total by apply content_total. cbn [mbind result_bind].
  repeat f_equal. unfold contents. apply list_filter_iff. intros d. unfold passes. by rewrite content_passes.
Qed.

(** The offset of a full page is its last file, and the next page starts behind it. *)
Lemma next_start limit k (c : Coll) f :
  let page := take limit (drop k (all_files c)) in
  (0 < limit)%nat → (k + limit < length (all_files c))%nat → last page = Some f → starts (Some f) c = (k + limit)%nat.
Proof.
  intros page Hl Hk Hf. unfold starts. cbn. assert (length page = limit) as Hlen by (unfold page; rewrite length_take, length_drop; lia).
  rewrite last_lookup, Hlen in Hf. unfold page in Hf. rewrite lookup_take_Some, lookup_drop in Hf. destruct Hf as [Hf _].
  erewrite behind_lookup; [|apply all_files_spec|exact Hf]. cbn. lia.
Qed.

Lemma fetch_pages_spec limit fuel offset acc c :
  present c = true → (0 < limit)%nat → (length (all_files c) < fuel + starts offset c)%nat → (starts offset c ≤ length (all_files c))%nat →
  ∃ l, fetch_pages limit fuel offset acc c = Some (Ok (acc ++ l), c) ∧ l `prefix_of` contents (drop (starts offset c) (all_files c)) c ∧
    ((∀ f, f ∈ all_files c → contents [f] c ≠ []) → l = contents (drop (starts offset c) (all_files c)) c).
Proof.
  intros Hp Hl. revert offset acc. induction fuel as [|fuel IH]; intros offset acc Hfuel Hle; [lia|]. cbn [fetch_pages]. rewrite scroll_page by done.
  set (k := starts offset c) in *. set (page := take limit (drop k (all_files c))). set (rest := drop k (all_files c)).
  assert (rest = page ++ drop limit rest) as Hrest by (unfold page; by rewrite take_drop).
  assert (page = [] → rest = []) as Hnil. { unfold page. fold rest. intros E. destruct rest; [done|]. destruct limit; [lia|done]. }
  destruct (contents page c) as [|d ds] eqn:E.
  - exists []. rewrite app_nil_r. split; [done|]. split; [apply prefix_nil|]. intros Hall. destruct page as [|f page'] eqn:Ep; [by rewrite Hnil|].
    exfalso. change (f :: page') with ([f] ++ page') in E. rewrite contents_app in E. apply app_eq_nil in E as [E _]. apply (Hall f); [|done].
    assert (f ∈ rest) as Hin by (rewrite Hrest; by left). rewrite <-(take_drop k (all_files c)). apply elem_of_app. by right.
  - rewrite <-E. destruct (bool_decide (length page = limit)) eqn:E1; [destruct (bool_decide (k + limit < length (all_files c))%nat) eqn:E2|].
    + apply bool_decide_eq_true in E1, E2. cbn [andb]. destruct (last page) as [f|] eqn:Ef; [|apply last_None in Ef; by rewrite Ef in E].
      pose proof (next_start limit k c f Hl E2 Ef) as Hs. rewrite decide_False by (intros <-; fold k in Hs; lia).
      destruct (IH (Some f) (acc ++ contents page c)) as (l&Hf&Hpre&Hall); [rewrite Hs; lia..|]. rewrite Hs in Hpre, Hall.
      assert (drop (k + limit) (all_files c) = drop limit rest) as Ed by (unfold rest; by rewrite drop_drop). rewrite Ed in Hpre, Hall.
      exists (contents page c ++ l). rewrite Hf, (assoc_L (++)). split; [done|]. rewrite Hrest, contents_app. split; [by apply prefix_app|].
      intros Hc. by rewrite (Hall Hc).
    + cbn [andb]. apply bool_decide_eq_false in E2. exists (contents page c). split; [done|].
      assert (page = rest) as -> by (unfold page, rest; apply take_ge; rewrite length_drop; lia). done.
    + cbn [andb]. apply bool_decide_eq_false in E1. exists (contents page c). split; [done|].
      assert (page = rest) as -> by (unfold page, rest in *; rewrite length_take, length_drop in E1; apply take_ge; rewrite length_drop; lia). done.
Qed.

(** ** The tags of a point *)

Lemma in_hidden b l : existsb (json_eqb (JStr b)) l = true ↔ JStr b ∈ l.
Proof.
  rewrite existsb_exists. setoid_rewrite <-list_elem_of_In. split.
  - intros (x&Hx&E). destruct x; try done. apply bool_decide_eq_true in E as ->. done.
  - intros H. exists (JStr b). split; [done|]. by apply bool_decide_eq_true.
Qed.

(** What an update makes of a document. *)
Definition effect (update : text → Doc → option (text * Dict)) (branch : text) (d : Doc) : Doc :=
  match update branch d with Some u => with_payload (dupdate (d_payload d) u.2) d | None => d end.

Lemma tagged (d : Doc) l :
  let d' := with_payload (dupdate (d_payload d) [(HIDDEN, JList l)]) d in
  hidden_branches (d_payload d') = l ∧ ∀ k, k ≠ HIDDEN → dget k (d_payload d') = dget k (d_payload d).
Proof.
  cbv zeta. unfold with_payload. cbn [d_payload]. split; [|intros k Hk]; unfold hidden_branches; change (txt "hidden_branches") with HIDDEN; rewrite dget_dupdate by apply NoDup_singleton; cbn [dget].
  - by rewrite decide_True.
  - by rewrite decide_False.
Qed.

Lemma hide_effect branch b (d : Doc) : hidden_in b (effect hide_update branch d) = bool_decide (b = branch) || hidden_in b d.
Proof.
  unfold effect, hide_update. destruct (hidden_in branch d) eqn:E.
  - case_bool_decide; [by subst|done].
  - cbn [snd]. unfold hidden_in at 1. destruct (tagged d (hidden_branches (d_payload d) ++ [JStr branch])) as [-> _].
    apply eq_true_iff_eq. rewrite in_hidden, orb_true_iff, bool_decide_eq_true, elem_of_app, list_elem_of_singleton. unfold hidden_in. rewrite in_hidden.
    split; [intros [?|[= ->]]; auto|intros [->|?]; auto].
Qed.

Lemma show_effect branch b (d : Doc) : hidden_in b (effect show_update branch d) = negb (bool_decide (b = branch)) && hidden_in b d.
Proof.
  unfold effect, show_update. destruct (hidden_in branch d) eqn:E.
  - cbn [snd]. unfold hidden_in at 1. destruct (tagged d (filter (λ b, json_eqb b (JStr branch) = false) (hidden_branches (d_payload d)))) as [-> _].
    apply eq_true_iff_eq. rewrite in_hidden, andb_true_iff, negb_true_iff, bool_decide_eq_false, list_elem_of_filter. unfold hidden_in. rewrite in_hidden.
    assert (json_eqb (JStr b) (JStr branch) = false ↔ b ≠ branch) as ->; [|done]. cbn. by rewrite bool_decide_eq_false.
  - case_bool_decide; [by subst|done].
Qed.

Lemma path_in_effect update branch s d :
  (∀ d u, update branch d = Some u → u.1 = d_id d ∧ ∃ l, u.2 = [(HIDDEN, JList l)]) → path_in s (effect update branch d) = path_in s d.
Proof.
  intros Hu. unfold effect. destruct (update branch d) as [u|] eqn:E; [|done]. destruct (Hu d u E) as [_ [l ->]]. unfold path_in.
  destruct (tagged d l) as [_ H]. by rewrite H.
Qed.

Lemma hide_update_shape branch (d : Doc) u : hide_update branch d = Some u → u.1 = d_id d ∧ ∃ l, u.2 = [(HIDDEN, JList l)].
Proof. unfold hide_update. destruct (hidden_in branch d); [done|]. intros [= <-]. cbn. eauto. Qed.

Lemma show_update_shape branch (d : Doc) u : show_update branch d = Some u → u.1 = d_id d ∧ ∃ l, u.2 = [(HIDDEN, JList l)].
Proof. unfold show_update. destruct (hidden_in branch d); [|done]. intros [= <-]. cbn. eauto. Qed.

Lemma dget_in {B} (k : text) (v : B) d : NoDup d.*1 → (k, v) ∈ d → dget k d = Some v.
Proof.
  intros Hnd Hin. destruct (dget k d) as [w|] eqn:E.
  - apply dget_elem_of in E. by injection (NoDup_key_inj fst d (k, w) (k, v) Hnd E Hin eq_refl) as ->.
  - apply dget_None in E. destruct E. by apply (list_elem_of_fmap_2 fst d (k, v)).
Qed.

(** A batch of updates brings every point of the paths [s] to its effect when the points
    it is computed from are still those of the collection. *)
Lemma batch_effect update branch s pts (c : Coll) :
  (∀ d u, update branch d = Some u → u.1 = d_id d ∧ ∃ l, u.2 = [(HIDDEN, JList l)]) → consistent vdir c → NoDup (d_id <$> pts) →
  (∀ i d, get_point i c = Some d → ∃ e, e ∈ pts ∧ d_id e = i ∧ path_in s e = path_in s d ∧ (path_in s d = true → e = d)) →
  ∃ fs, match updates_for update branch s pts with [] => c | u => (_batch_update_payload_only u c).2 end = with_files fs c ∧
    dom fs = dom (files c) ∧ consistent vdir (with_files fs c) ∧
    ∀ i, get_point i (with_files fs c) = (λ d, if path_in s d then effect update branch d else d) <$> get_point i c.
Proof.
  intros Hu Hc Hnd Hpts. set (us := updates_for update branch s pts).
  assert (∀ u, u ∈ us ↔ ∃ e, e ∈ pts ∧ path_in s e = true ∧ update branch e = Some u) as Hin.
  { intros u. unfold us, updates_for. rewrite list_elem_of_omap. setoid_rewrite list_elem_of_filter. split; [intros (e&[? ?]&?)|intros (e&?&?&?)]; by exists e. }
  assert (NoDup us.*1) as Hus.
  { unfold us, updates_for. assert (NoDup (d_id <$> filter (λ d, path_in s d = true) pts)) as Hf.
    { eapply sublist_NoDup; [exact Hnd|]. apply fmap_sublist, sublist_filter. }
    clear -Hf Hu. induction (filter _ pts) as [|e l IH]; [constructor|]. cbn [omap list_omap fmap list_fmap] in *. apply NoDup_cons in Hf as [Hf1 Hf2].
    destruct (update branch e) as [u|] eqn:E; [|by apply IH]. cbn. constructor; [|by apply IH]. intros (w&Hw&(e'&He'&Hew)%list_elem_of_omap)%list_elem_of_fmap.
    destruct (Hu _ _ E) as [H1 _], (Hu _ _ Hew) as [H2 _]. apply Hf1. rewrite <-H1, Hw, H2. by apply list_elem_of_fmap_2. }
  destruct (update_payloads_spec vdir us c Hc Hus) as (fs&Hup&Hdom&Hc'&Hget).
  { apply Forall_forall. intros u (e&_&_&He)%Hin. destruct (Hu _ _ He) as [_ [l ->]]. split; [|apply NoDup_singleton]. cbn [dget]. by rewrite decide_False. }
  exists fs. split.
  - unfold _batch_update_payload_only. destruct us as [|u us'] eqn:E; [cbn in Hup; congruence|]. rewrite load_ids_loaded by apply (co_loaded vdir c Hc). by rewrite Hup.
  - split_and!; try done. intros i. rewrite Hget. destruct (get_point i c) as [d|] eqn:Hd; [|done]. cbn. f_equal. unfold merged.
    destruct (Hpts i d Hd) as (e&He&Hid&Hpath&Heq).
    assert (∀ f, dget i us = Some f → path_in s e = true ∧ ∃ u, update branch e = Some u ∧ u.2 = f) as Hfrom.
    { intros f (e'&He'&Hp&Hue)%dget_elem_of%Hin. destruct (Hu _ _ Hue) as [H1 _]. cbn in H1. rewrite <-Hid in H1.
      assert (e = e') as <- by (by eapply NoDup_key_inj). split; [done|]. by eexists. }
    destruct (path_in s d) eqn:Hs.
    + rewrite <-(Heq eq_refl) in *. unfold effect. destruct (update branch e) as [u|] eqn:Eu.
      * rewrite (dget_in i u.2 us); [done..|]. apply Hin. exists e. split_and!; [done..|]. rewrite Eu. f_equal. destruct (Hu _ _ Eu) as [H1 _]. destruct u; cbn in *. congruence.
      * destruct (dget i us) as [f|] eqn:Ef; [|done]. destruct (Hfrom f eq_refl) as (_&u&?&_). congruence.
    + destruct (dget i us) as [f|] eqn:Ef; [|done]. destruct (Hfrom f eq_refl) as (?&_). congruence.
Qed.

(** ** Switching branches *)

Definition path_text (d : Doc) : option text := match dget (txt "path") (d_payload d) with Some (JStr p) => Some p | _ => None end.

(** Every file of the collection holds a content point with a relative path. *)
Record branch_ready (c : Coll) : Prop := {
  br_consistent : consistent vdir c;
  br_present : present c = true;
  br_listed : listed c;
  br_parsed : ∀ f, is_Some (files c !! f) → is_Some (read f c);
  br_content : ∀ i d, get_point i c = Some d → is_content d = true ∧ ∃ p, path_text d = Some p ∧ is_absolute (path_of p) = false }.

Lemma path_in_spec s d p : path_text d = Some p → path_in s d = bool_decide (p ∈ s).
Proof. unfold path_text, path_in. destruct (dget _ _) as [[]|]; try done. by intros [= ->]. Qed.

Lemma fetch_ready limit c : branch_ready c → (0 < limit)%nat → _fetch_all_content_points limit c = Some (Ok (docs c), c).
Proof.
  intros [Hc Hp Hl Hparsed Hcont] Hlim. destruct (fetch_pages_spec limit (S (length (all_files c))) None [] c) as (l&Hf&_&Hall); try done.
  { cbn. lia. } { cbn. lia. }
  assert (∀ f d, read f c = Some d → is_content d = true) as Hread by (intros f d Hd; by apply (Hcont (d_id d) d), (get_point_doc vdir c f)).
  unfold _fetch_all_content_points. rewrite Hf, Hall.
  - cbn. rewrite drop_0. unfold contents. do 3 f_equal. apply list_filter_all. intros d (f&_&Hd)%list_elem_of_omap. by apply (Hread f).
  - intros f Hin. apply all_files_spec in Hin as [_ Hin]. destruct (Hparsed f Hin) as [d Hd]. unfold contents. cbn. rewrite Hd. by rewrite filter_cons_True by by apply (Hread f).
Qed.

Lemma docs_ids c : branch_ready c → NoDup (d_id <$> docs c) ∧ ∀ i d, get_point i c = Some d → d ∈ docs c ∧ d_id d = i.
Proof.
  intros [Hc Hp Hl _ _]. destruct (docs_spec vdir c Hc Hl) as [Hnd Hin]. split.
  - apply NoDup_fmap_2_strong; [|done]. intros d e Hd%Hin He%Hin E. congruence.
  - intros i d Hd. destruct (get_point_id vdir c i d Hc Hd) as [<- _]. by rewrite Hin.
Qed.

Lemma filtered_rebuild vis b (c : Coll) :
  consistent vdir c →
  let c' := (rebuild_hnsw_filtered valid vis (Some b) c).2 in
  did_filtered_rebuild c' = true ∧ files c' = files c ∧ ids c' = ids c ∧ paths c' = paths c ∧ present c' = present c ∧
  ∀ i, i ∈ searchable c' ↔ ∃ d, get_point i c = Some d ∧ valid (d_vector d) = true ∧ path_in vis d = true.
Proof.
  intros Hc. pose proof (rebuild_spec vdir valid (Some vis) (Some b) c Hc) as Hr. destruct (ids_list_spec vdir valid (Some vis) (Some b) c Hc) as [_ Hids].
  unfold rebuild_hnsw_filtered. destruct (rebuild_from_vectors valid (Some vis) (Some b) c) as [n c1] eqn:E. destruct Hr as (Hn&Hs&?&?&?&?&_). cbn [snd].
  split_and!; try done. intros i. change (searchable (with_flag true c1)) with (searchable c1).
  assert ((∃ d, get_point i c = Some d ∧ valid (d_vector d) = true ∧ path_in vis d = true) ↔ i ∈ ids_list valid (Some vis) (Some b) c) as ->.
  { rewrite Hids. unfold kept. fold path_in. split; intros (d&Hd&Hk); exists d; (split; [done|]); by apply andb_true_iff. }
  destruct (decide (n = 0%nat)) as [->|Hne]; [|by apply Hs]. symmetry in Hn. apply length_zero_iff_nil in Hn.
  unfold rebuild_from_vectors in E. rewrite Hn in E |- *. rewrite bool_decide_true in E by by eexists. injection E as <-.
  unfold searchable. cbn. split; [|by intros ?%elem_of_nil]. destruct (labels c) as [l|]; [|by intros ?%elem_of_empty].
  intros Hin. apply elem_of_list_to_set, list_elem_of_omap in Hin as (k&_&Hk). by rewrite lookup_empty in Hk.
Qed.

Lemma ready_after (c : Coll) fs g :
  branch_ready c → consistent vdir (with_files fs c) → dom fs = dom (files c) → (∀ i, get_point i (with_files fs c) = g <$> get_point i c) →
  (∀ d, is_content (g d) = is_content d ∧ path_text (g d) = path_text d) → branch_ready (with_files fs c).
Proof.
  intros [Hc Hp Hl Hparsed Hcont] Hc' Hdom Hget Hg. assert (∀ f, is_Some (fs !! f) ↔ is_Some (files c !! f)) as Hf.
  { intros f. by rewrite <-!elem_of_dom, Hdom. }
  split; [done|done|intros f ?; by apply Hl, Hf| |].
  - intros f Hff. destruct (Hparsed f) as [d Hd]; [by apply Hf|]. pose proof (co_doc vdir c Hc f d Hd) as Hi.
    assert (get_point (d_id d) (with_files fs c) = Some (g d)) as H by (by rewrite Hget, (get_point_doc vdir c f d Hc Hd)).
    apply get_point_Some in H as (f'&Hi'&Hr). assert (ids_of (with_files fs c) = ids_of c) as Hids.
    { unfold ids_of. destruct (co_loaded vdir c Hc) as [[m Hm] _]. cbn. by rewrite Hm. }
    rewrite Hids in Hi'. assert (f' = f) as -> by congruence. by eexists.
  - intros i d. rewrite Hget. intros (d0&Hd0&->)%fmap_Some. destruct (Hg d0) as [-> ->]. by apply (Hcont i).
Qed.

Lemma same_tags update branch (d : Doc) :
  (∀ d u, update branch d = Some u → u.1 = d_id d ∧ ∃ l, u.2 = [(HIDDEN, JList l)]) →
  d_vector (effect update branch d) = d_vector d ∧ ∀ k, k ≠ HIDDEN → dget k (d_payload (effect update branch d)) = dget k (d_payload d).
Proof.
  intros Hu. unfold effect. destruct (update branch d) as [u|] eqn:E; [|done]. destruct (Hu d u E) as [_ [l ->]]. split; [done|]. apply tagged.
Qed.

Lemma effect_ready update branch (d : Doc) :
  (∀ d u, update branch d = Some u → u.1 = d_id d ∧ ∃ l, u.2 = [(HIDDEN, JList l)]) →
  is_content (effect update branch d) = is_content d ∧ path_text (effect update branch d) = path_text d.
Proof. intros Hu. destruct (same_tags update branch d Hu) as [_ H]. unfold is_content, path_text. by rewrite !H. Qed.

(** What a switch makes of a document. *)
Definition switched (branch : text) (changed unchanged : list text) (d : Doc) : Doc :=
  let d1 := if path_in (list_to_set unchanged) d then effect show_update branch d else d in
  if path_in (list_to_set (changed ++ unchanged)) d then d1 else effect hide_update branch d1.

Lemma db_paths_spec dir (c : Coll) p : branch_ready c → p ∈ db_file_paths dir (docs c) ↔ ∃ i d, get_point i c = Some d ∧ path_text d = Some p.
Proof.
  intros Hr. unfold db_file_paths. rewrite elem_of_list_to_set, list_elem_of_omap. destruct (docs_ids c Hr) as [_ Hdocs].
  assert (∀ i d, get_point i c = Some d → match dget (txt "path") (d_payload d) with Some (JStr p) => Some (normalized dir p) | _ => None end = path_text d) as Hn.
  { intros i d Hd. destruct (br_content c Hr i d Hd) as (_&q&Hq&Habs). rewrite Hq. unfold path_text in Hq. destruct (dget _ _) as [[]|]; try done.
    injection Hq as ->. unfold normalized. by rewrite Habs. }
  split.
  - intros (d&Hd&Hp). apply (docs_spec vdir c) in Hd; [|apply Hr..]. exists (d_id d), d. split; [done|]. by rewrite <-(Hn _ _ Hd).
  - intros (i&d&Hd&Hp). exists d. split; [by apply (Hdocs i)|]. by rewrite (Hn i).
Qed.

Lemma update_branch_spec limit dir branch changed unchanged fts (c : Coll) :
  branch_ready c → (0 < limit)%nat →
  ∃ c', update_branch limit dir branch changed unchanged false fts c =
      Some (Ok Done, (λ X, X ∖ (db_file_paths dir (docs c) ∖ list_to_set (changed ++ unchanged))) <$> fts, c') ∧
    branch_ready c' ∧ did_filtered_rebuild c' = true ∧
    (∀ i, get_point i c' = switched branch changed unchanged <$> get_point i c) ∧
    ∀ i, i ∈ searchable c' ↔ ∃ d, get_point i c = Some d ∧ valid (d_vector d) = true ∧ path_in (list_to_set (changed ++ unchanged)) d = true.
Proof.
  intros Hr Hlim. destruct (docs_ids c Hr) as [Hnd Hdocs]. pose proof (br_consistent c Hr) as Hc. unfold update_branch. rewrite orb_true_r, fetch_ready by done. cbn [mbind option_bind].
  set (U := list_to_set unchanged : gset text). set (cur := list_to_set (changed ++ unchanged) : gset text).
  destruct (batch_effect show_update branch U (docs c) c (show_update_shape branch) Hc Hnd) as (fs&Hfs&Hdom&Hc1&Hget1).
  { intros i d Hd. exists d. destruct (Hdocs i d Hd). done. }
  assert (_batch_ensure_files_visible_in_branch unchanged branch (docs c) c = with_files fs c) as ->.
  { rewrite <-Hfs. unfold _batch_ensure_files_visible_in_branch. fold U. destruct unchanged; [|done].
    assert (updates_for show_update branch U (docs c) = []) as ->; [|done]. unfold updates_for. rewrite filter_none_nil; [done|].
    intros d _. unfold path_in, U. destruct (dget _ _) as [[]|]; done. }
  set (c1 := with_files fs c) in *. assert (branch_ready c1) as Hr1.
  { apply (ready_after c fs _ Hr Hc1 Hdom Hget1). intros d. destruct (path_in U d); [apply effect_ready, show_update_shape|done]. }
  unfold hide_files_not_in_branch_thread_safe. cbn [mbind option_bind]. fold cur. set (H := db_file_paths dir (docs c) ∖ cur).
  assert (∀ i d, get_point i c = Some d → path_in H d = negb (path_in cur d)) as HH.
  { intros i d Hd. destruct (br_content c Hr i d Hd) as (_&p&Hp&_). rewrite !(path_in_spec _ d p Hp). apply eq_true_iff_eq.
    rewrite negb_true_iff, bool_decide_eq_true, bool_decide_eq_false. unfold H. rewrite elem_of_difference. split; [by intros []|]. intros Hn. split; [|done].
    apply (db_paths_spec dir c p Hr). eauto. }
  assert (∀ d, path_in U d = true → path_in cur d = true) as HU.
  { intros d. unfold path_in, U, cur. destruct (dget _ _) as [[]|]; try done. rewrite !bool_decide_eq_true, !elem_of_list_to_set, elem_of_app. auto. }
  destruct (batch_effect hide_update branch H (docs c) c1 (hide_update_shape branch) Hc1 Hnd) as (fs2&Hfs2&Hdom2&Hc2&Hget2).
  { intros i d1. rewrite Hget1. intros (d&Hd&->)%fmap_Some. exists d. destruct (Hdocs i d Hd) as [Hin Hid]. split; [done|]. split; [done|].
    destruct (path_in U d) eqn:E; [rewrite path_in_effect by apply show_update_shape|done]. split; [done|]. rewrite (HH i d Hd), HU by done. done. }
  assert (_batch_hide_files_in_branch H branch (docs c) c1 = with_files fs2 c1) as ->.
  { rewrite <-Hfs2. unfold _batch_hide_files_in_branch. case_decide as Hempty; [|done].
    assert (updates_for hide_update branch H (docs c) = []) as ->; [|done]. unfold updates_for. rewrite filter_none_nil; [done|].
    intros d _. unfold path_in. rewrite Hempty. destruct (dget _ _) as [[]|]; done. }
  set (c2 := with_files fs2 c1) in *. assert (branch_ready c2) as Hr2.
  { apply (ready_after c1 fs2 _ Hr1 Hc2 Hdom2 Hget2). intros d. destruct (path_in H d); [apply effect_ready, hide_update_shape|done]. }
  rewrite (br_present c2 Hr2). destruct (filtered_rebuild cur branch c2 Hc2) as (Hflag&Hf&Hi&Hpa&Hpr&Hs). set (c3 := (rebuild_hnsw_filtered valid cur (Some branch) c2).2) in *.
  assert (∀ i, get_point i c2 = switched branch changed unchanged <$> get_point i c) as Hget.
  { intros i. rewrite Hget2, Hget1. destruct (get_point i c) as [d|] eqn:Hd; [|done]. cbn. f_equal. unfold switched. fold U cur.
    assert (path_in H (if path_in U d then effect show_update branch d else d) = path_in H d) as -> by (destruct (path_in U d); [apply path_in_effect, show_update_shape|done]).
    rewrite (HH i d Hd). by destruct (path_in cur d). }
  destruct (consistent_same vdir c2 c3 Hc2 Hf Hi Hpa) as (Hc3&Hget3&_). eexists. split; [done|]. split_and!; try done.
  - destruct Hr2 as [_ Hp2 Hl2 Hparsed2 Hcont2]. split; [done|congruence|unfold listed in *; by rewrite Hf|unfold read in *; by rewrite Hf|setoid_rewrite Hget3; apply Hcont2].
  - intros i. by rewrite Hget3, Hget.
  - intros i. rewrite Hs. setoid_rewrite Hget. split.
    + intros (d2&(d&Hd&->)%fmap_Some&Hv&Hp). exists d. split; [done|]. unfold switched in Hv, Hp. fold U cur in Hv, Hp.
      destruct (path_in cur d) eqn:Ec; [|exfalso]; destruct (path_in U d); rewrite ?path_in_effect in Hp by (apply show_update_shape || apply hide_update_shape); try done; try congruence.
      by destruct (same_tags show_update branch d (show_update_shape branch)) as [<- _].
    + intros (d&Hd&Hv&Hp). eexists. split; [rewrite Hd; done|]. unfold switched. fold U cur. rewrite Hp. destruct (path_in U d); [|done].
      destruct (same_tags show_update branch d (show_update_shape branch)) as [-> _]. rewrite path_in_effect by apply show_update_shape. done.
Qed.

(** C16: Reading all content points page by page ends for every collection and page size, with
    a prefix of the content points in the order of their files; with all of them when every
    file holds one. *)
Theorem fetch_all_content_points_spec limit (c : Coll) :
  present c = true → (0 < limit)%nat →
  ∃ l, _fetch_all_content_points limit c = Some (Ok l, c) ∧ l `prefix_of` contents (all_files c) c ∧
    ((∀ f, f ∈ all_files c → contents [f] c ≠ []) → l = contents (all_files c) c).
Proof.
  intros Hp Hl. destruct (fetch_pages_spec limit (S (length (all_files c))) None [] c) as (l&Hf&Hpre&Hall); [done|done|cbn; lia|cbn; lia|].
  exists l. cbn in Hpre, Hall. rewrite drop_0 in Hpre, Hall. done.
Qed.

Lemma switched_spec branch changed unchanged (d : Doc) p :
  path_text d = Some p →
  let d' := switched branch changed unchanged d in
  d_vector d' = d_vector d ∧ (∀ k, k ≠ HIDDEN → dget k (d_payload d') = dget k (d_payload d)) ∧
  (∀ b, b ≠ branch → hidden_in b d' = hidden_in b d) ∧
  (hidden_in branch d' = true ↔ p ∉ changed ++ unchanged ∨ p ∉ unchanged ∧ hidden_in branch d = true).
Proof.
  intros Hp. cbv zeta. unfold switched. rewrite !(path_in_spec _ d p Hp). set (d1 := if bool_decide (p ∈ list_to_set unchanged) then _ else d).
  assert (d_vector d1 = d_vector d ∧ (∀ k, k ≠ HIDDEN → dget k (d_payload d1) = dget k (d_payload d)) ∧ (∀ b, b ≠ branch → hidden_in b d1 = hidden_in b d) ∧
    (hidden_in branch d1 = true ↔ p ∉ unchanged ∧ hidden_in branch d = true)) as (H1&H2&H3&H4).
  { unfold d1. case_bool_decide as Hu; rewrite elem_of_list_to_set in Hu; [|split; [done|]; split; [done|]; split; [done|]; split; [done|by intros []]]. destruct (same_tags show_update branch d (show_update_shape branch)) as [? ?].
    split_and!; [done|done| |rewrite show_effect, bool_decide_true by done; cbn; split; [done|by intros []]].
    intros b Hb. by rewrite show_effect, bool_decide_false. }
  case_bool_decide as Hin; rewrite elem_of_list_to_set in Hin.
  - split_and!; [done..|]. rewrite H4. split; [by right|by intros [|]].
  - destruct (same_tags hide_update branch d1 (hide_update_shape branch)) as [H5 H6]. split_and!.
    + congruence.
    + intros k Hk. by rewrite H6, H2.
    + intros b Hb. by rewrite hide_effect, bool_decide_false, H3.
    + rewrite hide_effect, bool_decide_true by done. cbn. split; [by left|done].
Qed.



(** The smart indexer reads one page. *)
Lemma scroll_all_first_page limit (c : Coll) :
  present c = true → _scroll_all_content_points limit c = Some (Ok (contents (take limit (all_files c)) c), c).
Proof.
  intros Hp. unfold _scroll_all_content_points. cbn [scroll_pages]. rewrite scroll_page by done. cbn [starts mbind option_bind default]. rewrite drop_0.
  destruct (contents _ c); [done|]. cbn [app]. case_match; [by rewrite decide_True|done].
Qed.

Lemma ready_check (c : Coll) :
  consistent vdir c → present c = true →
  map_Forall (λ f o, negb (contains (txt "collection_meta") (file_name f)) &&
    match o with
    | Some d => is_content d && match path_text d with Some p => negb (is_absolute (path_of p)) | None => false end
    | None => false
    end = true) (files c) → branch_ready c.
Proof.
  intros Hc Hp Hall.
  assert (∀ f o, files c !! f = Some o → contains (txt "collection_meta") (file_name f) = false ∧
    ∃ d, o = Some d ∧ is_content d = true ∧ ∃ p, path_text d = Some p ∧ is_absolute (path_of p) = false) as H.
  { intros f o Hf. specialize (Hall f o Hf) as [H1 H2]%andb_true_iff. apply negb_true_iff in H1. split; [done|]. destruct o as [d|]; [|done].
    apply andb_true_iff in H2 as [H2 H3]. exists d. split; [done|]. split; [done|]. destruct (path_text d) as [p|]; [|done]. exists p. split; [done|]. by apply negb_true_iff. }
  split; [done|done|intros f [o Ho]; apply (H f o Ho)| |].
  - intros f [o Ho]. destruct (H f o Ho) as (_&d&->&_). exists d. unfold read. by rewrite Ho.
  - intros i d (f&_&Hd)%get_point_Some. unfold read in Hd. destruct (files c !! f) as [o|] eqn:Ho; [|done]. destruct (H f o Ho) as (_&d'&->&?). cbn in Hd. by injection Hd as <-.
Qed.
End visibility.
End Visibility.

(** ** A small store *)

Module VisibilitySamples.
Import Filter PathIndex Collection Samples Visibility.

Lemma written1_ready : branch_ready directory written1.
Proof. apply ready_check; [exact written1_consistent|done|]. apply (bool_decide_eq_true_1 (map_Forall _ _)). by vm_compute. Qed.

Lemma store1_ready : branch_ready directory store1.
Proof. apply ready_check; [exact store1_consistent|done|]. apply (bool_decide_eq_true_1 (map_Forall _ _)). by vm_compute. Qed.

Definition project : Path := path_of (txt "/proj").
Definition rewrite_a (_ : list text) (c : @Coll N) : result error outcome * @Coll N := (Ok Done, (upsert batch2 c).2).

Lemma b1_written : ∃ d, get_point (txt "b1") written1 = Some d ∧ path_text d = Some (txt "b.py") ∧ hidden_in (txt "main") d = false.
Proof. vm_compute. eexists. split; [reflexivity|split; reflexivity]. Qed.

Lemma a3_written : ∃ d, get_point (txt "a3") written1 = Some d ∧ path_text d = Some (txt "a.py") ∧ numeric (d_vector d) = true.
Proof. vm_compute. eexists. split; [reflexivity|split; reflexivity]. Qed.



Lemma fetch_all_content_points_spec_witness :
  ∃ l, _fetch_all_content_points compile_none match_none lower_id str_none 2 store1 = Some (Ok l, store1) ∧ d_id <$> l = [txt "a1"; txt "a2"; txt "b1"].
Proof.
  destruct (fetch_all_content_points_spec compile_none match_none lower_id str_none 2 store1) as (l&Hl&_&Hall); [done|lia|].
  exists l. split; [exact Hl|]. rewrite Hall; [by vm_compute|].
  assert (Forall (λ f, bool_decide (length (contents [f] store1) = 0%nat) = false) (all_files store1)) as H.
  { apply (bool_decide_eq_true_1 (Forall _ _)). by vm_compute. }
  intros f Hf E. specialize (proj1 (Forall_forall _ _) H f Hf) as H'. cbn beta in H'. by rewrite E in H'.
Defined.

(** ** Where visibility goes wrong *)

(** Hiding one file, or showing it, through the updates of single points keeps one of its
    points. *)
Lemma hide_file_loses_points :
  let c := (_hide_file_in_branch_thread_safe directory numeric compile_none match_none lower_id str_none None (txt "a.py") (txt "main") store1).2 in
  is_Some (get_point (txt "a1") c) ∧ is_Some (get_point (txt "a2") store1) ∧ get_point (txt "a2") c = None.
Proof. vm_compute. eauto. Qed.

(** A point stored under an absolute path is never hidden: its path is compared with the
    relative ones. *)
Lemma absolute_path_not_hidden :
  let c := (upsert [point (txt "x1") 7 (txt "/proj/x.py")] store0).2 in
  match hide_files_not_in_branch_thread_safe numeric compile_none match_none lower_id str_none PAGE project (txt "main") [] None None c with
  | Some (_, _, c') => (hidden_in (txt "main") <$> get_point (txt "x1") c') = Some false
  | None => False
  end.
Proof. by vm_compute. Qed.

(** A page without a content point ends the reading. *)
Lemma page_without_content_ends :
  let note := {| p_id := txt "a0"; p_vector := 0%N; p_payload := [(txt "type", JStr (txt "metadata"))]; p_chunk_text := None |} in
  let c := (upsert [note] store1).2 in
  match _fetch_all_content_points compile_none match_none lower_id str_none 1 c with Some (Ok l, _) => l = [] | _ => False end ∧
  length (contents (all_files c) c) = 3%nat.
Proof. by vm_compute. Qed.
End VisibilitySamples.
