(* ===== verification/ProviderHealth.v ===== *)
(** * Provider health

    src/src/code_indexer/services/provider_health_monitor.py and embedder_chain.py: calls to
    a provider are measured in a rolling window, a provider that fails too often is sin-binned
    for a growing time, a provider that is down is probed until it recovers, and embedding
    falls over to the second provider when the first is unavailable.

    Every operation reads each clock once.  A probe thread is an element of [probes] and each
    of its rounds an operation of its own; log lines are left out. *)

From S2P Require Import Prelude.
From Stdlib Require Import Qpower.
From stdpp Require Import options.

Module Health.

Record Clock := { wall : Q; mono : Q }.

Inductive Status := healthy | degraded | down.
#[export] Instance Status_eq_dec : EqDecision Status.
Proof. solve_decision. Defined.

Record HealthMetric := { timestamp : Q; latency_ms : Q; success : bool }.

Record SinBinConfig := {
  failure_threshold : Z; failure_window_seconds : Z; initial_cooldown_seconds : Z;
  max_cooldown_seconds : Z; backoff_multiplier : Q }.

(** [ProviderSinBinConfig()] *)
Definition default_config : SinBinConfig :=
  {| failure_threshold := 5; failure_window_seconds := 60; initial_cooldown_seconds := 30; max_cooldown_seconds := 300; backoff_multiplier := 2 |}.

(** [persistent]: a path for the state file was given.  The sin-bin's configuration comes from the
    server's, [None] outside a server. *)
Record Settings := {
  rolling_window_minutes : Z; error_rate_threshold : Q; latency_p95_threshold_ms : Q;
  availability_threshold : Q; persistent : bool; voyage_ai_sinbin : option SinBinConfig; cohere_sinbin : option SinBinConfig }.

Definition DEFAULT_DOWN_ERROR_RATE : Q := 1 # 2.
Definition DEFAULT_DOWN_CONSECUTIVE_FAILURES : Z := 5.
Definition default_settings (p : bool) : Settings :=
  {| rolling_window_minutes := 60; error_rate_threshold := 1 # 10; latency_p95_threshold_ms := 5000; availability_threshold := 95 # 100;
     persistent := p; voyage_ai_sinbin := None; cohere_sinbin := None |}.

Definition voyage_names : list string := ["voyage-ai"; "voyage-reranker"; "voyage-embedder"]%string.
Definition cohere_names : list string := ["cohere"; "cohere-reranker"; "cohere-embedder"]%string.
Definition _get_sinbin_config (c : Settings) (p : string) : SinBinConfig :=
  default default_config (if decide (p ∈ voyage_names) then voyage_ai_sinbin c else if decide (p ∈ cohere_names) then cohere_sinbin c else None).

Record ProviderHealthStatus := {
  status : Status; health_score : Q; p50 : Q; p95 : Q; p99 : Q; error_rate : Q; availability : Q;
  total_requests : nat; successful_requests : nat; failed_requests : nat; sinbinned : bool }.

(** [sinbin_rounds] has a key for every provider this process has sin-binned or cleared. *)
Record Monitor := {
  metrics : gmap string (list HealthMetric);
  consecutive_failures : gmap string Z;
  sinbin_until : gmap string Q;
  sinbin_rounds : gmap string nat;
  sinbin_failures : gmap string (list Q);
  last_known_status : gmap string Status;
  last_logged_status : gmap string Status;
  probes : gset string }.

Definition empty_monitor : Monitor :=
  {| metrics := ∅; consecutive_failures := ∅; sinbin_until := ∅; sinbin_rounds := ∅; sinbin_failures := ∅;
     last_known_status := ∅; last_logged_status := ∅; probes := ∅ |}.

Definition with_metrics x m := {| metrics := x; consecutive_failures := consecutive_failures m; sinbin_until := sinbin_until m; sinbin_rounds := sinbin_rounds m;
  sinbin_failures := sinbin_failures m; last_known_status := last_known_status m; last_logged_status := last_logged_status m; probes := probes m |}.
Definition with_consecutive x m := {| metrics := metrics m; consecutive_failures := x; sinbin_until := sinbin_until m; sinbin_rounds := sinbin_rounds m;
  sinbin_failures := sinbin_failures m; last_known_status := last_known_status m; last_logged_status := last_logged_status m; probes := probes m |}.
Definition with_sinbin u r m := {| metrics := metrics m; consecutive_failures := consecutive_failures m; sinbin_until := u; sinbin_rounds := r;
  sinbin_failures := sinbin_failures m; last_known_status := last_known_status m; last_logged_status := last_logged_status m; probes := probes m |}.
Definition with_failures x m := {| metrics := metrics m; consecutive_failures := consecutive_failures m; sinbin_until := sinbin_until m; sinbin_rounds := sinbin_rounds m;
  sinbin_failures := x; last_known_status := last_known_status m; last_logged_status := last_logged_status m; probes := probes m |}.
Definition with_known x m := {| metrics := metrics m; consecutive_failures := consecutive_failures m; sinbin_until := sinbin_until m; sinbin_rounds := sinbin_rounds m;
  sinbin_failures := sinbin_failures m; last_known_status := x; last_logged_status := last_logged_status m; probes := probes m |}.
Definition with_logged x m := {| metrics := metrics m; consecutive_failures := consecutive_failures m; sinbin_until := sinbin_until m; sinbin_rounds := sinbin_rounds m;
  sinbin_failures := sinbin_failures m; last_known_status := last_known_status m; last_logged_status := x; probes := probes m |}.
Definition with_probes x m := {| metrics := metrics m; consecutive_failures := consecutive_failures m; sinbin_until := sinbin_until m; sinbin_rounds := sinbin_rounds m;
  sinbin_failures := sinbin_failures m; last_known_status := last_known_status m; last_logged_status := last_logged_status m; probes := x |}.

(** ** The state file

    The end of the sin-bin on the wall clock for each provider, [None] for an entry that is
    not one; no file, or one that cannot be parsed, is [None]. *)
Abbreviation File := (option (gmap string (option Q))).

Definition _load_from_file (t : Clock) (f : File) (m : Monitor) : Monitor :=
  let active := omap (λ e, e ≫= λ expiry_wall, let remaining := expiry_wall - wall t in if Qltb 0 remaining then Some (mono t + remaining) else None)%Q (default ∅ f) in
  with_sinbin (active ∪ sinbin_until m) (sinbin_rounds m) m.

Definition new_monitor (c : Settings) (t : Clock) (f : File) : Monitor :=
  if persistent c then _load_from_file t f empty_monitor else empty_monitor.

(** What this process says of the providers it has sin-binned or cleared. *)
Definition remaining_of (t : Clock) (m : Monitor) (p : string) : Q := from_option (λ e, e - mono t)%Q (-1)%Q (sinbin_until m !! p).

Definition _build_merged_state (t : Clock) (m : Monitor) (existing : gmap string (option Q)) : gmap string (option Q) :=
  map_imap (λ p _, let r := remaining_of t m p in if Qltb 0 r then Some (Some (wall t + r)%Q) else None) (sinbin_rounds m)
  ∪ filter (λ pe, sinbin_rounds m !! pe.1 = None) existing.

(** [written]: the file could be written. *)
Definition _persist_to_file (t : Clock) (written : bool) (m : Monitor) (f : File) : File :=
  if written then Some (_build_merged_state t m (default ∅ f)) else f.

(** ** The sin-bin *)

Inductive error := OverflowError.

(** A float power that is too large raises. *)
Definition OVERFLOW : Q := inject_Z (2 ^ 1024 - 2 ^ 970).
Definition float_power (x : Q) (n : nat) : result error Q :=
  let y := Qpower x (Z.of_nat n) in if Qltb y OVERFLOW then Ok y else Err OverflowError.

Definition is_sinbinned (t : Clock) (p : string) (m : Monitor) : bool := Qltb (mono t) (default 0%Q (sinbin_until m !! p)).

Definition cooldown (cfg : SinBinConfig) (rounds : nat) : result error Q :=
  y ← float_power (backoff_multiplier cfg) rounds;
  Ok (pymin (inject_Z (initial_cooldown_seconds cfg) * y) (inject_Z (max_cooldown_seconds cfg))).

Definition sinbin (c : Settings) (t : Clock) (written : bool) (p : string) (m : Monitor) (f : File) : result error () * Monitor * File :=
  let rounds := default 0%nat (sinbin_rounds m !! p) in
  match cooldown (_get_sinbin_config c p) rounds with
  | Err e => (Err e, m, f)
  | Ok cd =>
      let m' := with_sinbin (<[p := mono t + cd]> (sinbin_until m))%Q (<[p := S rounds]> (sinbin_rounds m)) m in
      (Ok (), m', if persistent c then _persist_to_file t written m' f else f)
  end.

Definition clear_sinbin (c : Settings) (t : Clock) (written : bool) (p : string) (m : Monitor) (f : File) : Monitor * File :=
  let m' := with_sinbin (delete p (sinbin_until m)) (<[p := 0%nat]> (sinbin_rounds m)) m in
  (m', if persistent c then _persist_to_file t written m' f else f).

Definition clear_sinbin_all (m : Monitor) : Monitor := with_sinbin ∅ ((λ _, 0%nat) <$> sinbin_rounds m) m.

Definition clear_health_state_all (m : Monitor) : Monitor :=
  {| metrics := ∅; consecutive_failures := ∅; sinbin_until := ∅; sinbin_rounds := ∅; sinbin_failures := ∅;
     last_known_status := ∅; last_logged_status := last_logged_status m; probes := ∅ |}.

Definition get_sinbin_ttl_seconds (t : Clock) (p : string) (m : Monitor) : option Q :=
  expiry ← sinbin_until m !! p;
  let ttl := (expiry - mono t)%Q in if Qltb 0 ttl then Some (pymax 0 ttl) else None.

Definition get_sinbin_rounds (p : string) (m : Monitor) : nat := default 0%nat (sinbin_rounds m !! p).

Lemma Qle_bool_not (x y : Q) : Qle_bool x y = false → ¬ (x <= y)%Q.
Proof. intros H. by apply Qlt_not_le, Qle_bool_false. Qed.

#[export] Instance Qle_rel_dec : RelDecision Qle := λ x y,
  match Qle_bool x y as b return Qle_bool x y = b → Decision (x <= y)%Q with
  | true => λ E, left (Qle_bool_imp_le x y E)
  | false => λ E, right (Qle_bool_not x y E)
  end eq_refl.

(** After each wait of a probe: the clock, whether the file can be written, the probe function's answer. *)
Abbreviation Round := (Clock * bool * option (result () bool))%type.

Section status.
(** [numpy.percentile] of a sorted list. *)
Context (percentile : list Q → Q → Q).

Definition _percentile (l : list Q) (pct : Q) : Q := match l with [] => 0 | _ => percentile l pct end.

(** ** Status *)

Definition of_provider (p : string) (m : Monitor) : list HealthMetric := default [] (metrics m !! p).

Definition cutoff (c : Settings) (t : Clock) : Q := wall t - inject_Z (rolling_window_minutes c) * 60.

(** [while d and d[0] < bound: d.popleft()] *)
Fixpoint drop_before {A} (key : A → Q) (bound : Q) (d : list A) : list A :=
  match d with
  | x :: d' => if Qltb (key x) bound then drop_before key bound d' else d
  | [] => []
  end.

Definition _prune_old_metrics (c : Settings) (t : Clock) (p : string) (m : Monitor) : Monitor :=
  match metrics m !! p with
  | Some l => with_metrics (<[p := drop_before timestamp (cutoff c t) l]> (metrics m)) m
  | None => m
  end.

Definition _empty_status : ProviderHealthStatus :=
  {| status := healthy; health_score := 1; p50 := 0; p95 := 0; p99 := 0; error_rate := 0; availability := 1;
     total_requests := 0; successful_requests := 0; failed_requests := 0; sinbinned := false |}.

Definition share (a b : nat) : Q := inject_Z (Z.of_nat a) / inject_Z (Z.of_nat b).

Definition status_of (c : Settings) (error_rate p95 availability : Q) (consecutive : Z) : Status :=
  if Qltb DEFAULT_DOWN_ERROR_RATE error_rate || (DEFAULT_DOWN_CONSECUTIVE_FAILURES <=? consecutive)%Z then down
  else if Qltb (error_rate_threshold c) error_rate || Qltb (latency_p95_threshold_ms c) p95 || Qltb availability (availability_threshold c) then degraded
  else healthy.

Definition succeeded (l : list HealthMetric) : list HealthMetric := filter (λ x, success x = true) l.
Definition failed (l : list HealthMetric) : nat := length l - length (succeeded l).

Definition _compute_status (c : Settings) (t : Clock) (p : string) (m : Monitor) : ProviderHealthStatus :=
  match of_provider p m with
  | [] => _empty_status
  | l =>
      let total := length l in
      let successful := length (succeeded l) in
      let rate := share (failed l) total in
      let avail := share successful total in
      let latencies := merge_sort Qle (latency_ms <$> succeeded l) in
      let q95 := _percentile latencies 95 in
      let latency_penalty := pymin 1 (q95 / (latency_p95_threshold_ms c * 2)) in
      {| status := status_of c rate q95 avail (default 0%Z (consecutive_failures m !! p));
         health_score := pymax 0 (pymin 1 (avail * (1 - latency_penalty * (1 # 2))));
         p50 := _percentile latencies 50; p95 := q95; p99 := _percentile latencies 99; error_rate := rate; availability := avail;
         total_requests := total; successful_requests := successful; failed_requests := failed l;
         sinbinned := is_sinbinned t p m |}
  end.

(** ** Recording a call *)

Definition record_metric (x : HealthMetric) (p : string) (m : Monitor) : Monitor := with_metrics (<[p := of_provider p m ++ [x]]> (metrics m)) m.

Definition note_success (p : string) (m : Monitor) : Monitor :=
  let m' := with_consecutive (<[p := 0%Z]> (consecutive_failures m)) m in
  if decide (0 < get_sinbin_rounds p m)%nat then with_sinbin (delete p (sinbin_until m')) (<[p := 0%nat]> (sinbin_rounds m')) m' else m'.

(** The failures of the last seconds, this one included. *)
Definition failures_within (cfg : SinBinConfig) (now : Q) (l : list Q) : list Q :=
  drop_before id (now - inject_Z (failure_window_seconds cfg))%Q (l ++ [now]).

Definition note_failure (cfg : SinBinConfig) (t : Clock) (p : string) (m : Monitor) : Monitor :=
  with_failures (<[p := failures_within cfg (mono t) (default [] (sinbin_failures m !! p))]> (sinbin_failures m))
    (with_consecutive (<[p := default 0 (consecutive_failures m !! p) + 1]> (consecutive_failures m))%Z m).

Definition reaches_threshold (cfg : SinBinConfig) (p : string) (m : Monitor) : bool :=
  (failure_threshold cfg <=? Z.of_nat (length (default [] (sinbin_failures m !! p))))%Z.

Definition _start_recovery_probe (p : string) (m : Monitor) : Monitor := with_probes ({[p]} ∪ probes m) m.
Definition _stop_recovery_probe (p : string) (m : Monitor) : Monitor := with_probes (probes m ∖ {[p]}) m.

Definition on_transition (old new : Status) (p : string) (m : Monitor) : Monitor :=
  if decide (old ≠ down ∧ new = down) then _start_recovery_probe p m
  else if decide (old = down ∧ new ≠ down) then _stop_recovery_probe p m else m.

(** The part of [record_call] under the lock. *)
Definition measured (c : Settings) (t : Clock) (p : string) (latency : Q) (ok : bool) (m : Monitor) : Monitor :=
  let m1 := record_metric {| timestamp := wall t; latency_ms := latency; success := ok |} p m in
  let m2 := if ok then note_success p m1 else note_failure (_get_sinbin_config c p) t p m1 in
  let m3 := _prune_old_metrics c t p m2 in
  with_known (<[p := status (_compute_status c t p m3)]> (last_known_status m3)) m3.

Definition known (p : string) (m : Monitor) : Status := default healthy (last_known_status m !! p).

Definition record_call (c : Settings) (t : Clock) (written : bool) (p : string) (latency : Q) (ok : bool) (m : Monitor) (f : File) : result error () * Monitor * File :=
  let m1 := measured c t p latency ok m in
  if negb ok && reaches_threshold (_get_sinbin_config c p) p m1 then
    match sinbin c t written p m1 f with
    | (Ok _, m2, f') => (Ok (), on_transition (known p m) (known p m1) p m2, f')
    | (Err e, m2, f') => (Err e, m2, f')
    end
  else (Ok (), on_transition (known p m) (known p m1) p m1, f).

(** A call as it is recorded; what it raises is its caller's. *)
Record Call := { at_time : Clock; writable : bool; provider : string; latency : Q; succeeds : bool }.
Definition record (c : Settings) (s : Monitor * File) (x : Call) : Monitor * File :=
  let r := record_call c (at_time x) (writable x) (provider x) (latency x) (succeeds x) s.1 s.2 in (r.1.2, r.2).
Definition record_all (c : Settings) (s : Monitor * File) (l : list Call) : Monitor * File := foldl (record c) s l.

(** ** Probes *)

Definition SYNTHETIC_PROBE_LATENCY_MS : Q := 0.

(** What the probe function of a provider says when it is called; none is registered for [None], and
    one that raises is a failure. *)
Definition probe_outcome (r : option (result () bool)) : bool :=
  match r with None => true | Some (Ok b) => b | Some (Err _) => false end.

Definition probe_round (c : Settings) (p : string) (r : Round) (s : Monitor * File) : Monitor * File :=
  record c s {| at_time := r.1.1; writable := r.1.2; provider := p; latency := SYNTHETIC_PROBE_LATENCY_MS; succeeds := probe_outcome r.2 |}.

(** The loop ends when the probe has been stopped. *)
Fixpoint _probe_loop (c : Settings) (p : string) (rounds : list Round) (s : Monitor * File) : Monitor * File :=
  match rounds with
  | [] => s
  | r :: rounds' => if decide (p ∈ probes s.1) then _probe_loop c p rounds' (probe_round c p r s) else s
  end.

(** ** Reading the health *)

(** The level of the line logged for a status, and what is remembered of it. *)
Inductive Level := WARNING | INFO | DEBUG.

Definition log_transition (p : string) (st : Status) (m : Monitor) : option Level * Monitor :=
  match st with
  | healthy => if decide (is_Some (last_logged_status m !! p)) then (Some INFO, with_logged (delete p (last_logged_status m)) m) else (None, m)
  | _ => if decide (last_logged_status m !! p = Some st) then (Some DEBUG, m) else (Some WARNING, with_logged (<[p := st]> (last_logged_status m)) m)
  end.

Definition health_of (c : Settings) (t : Clock) (p : string) (m : Monitor) : ProviderHealthStatus * option Level * Monitor :=
  let m1 := _prune_old_metrics c t p m in
  let h := _compute_status c t p m1 in
  if decide (of_provider p m1 = []) then (h, None, m1)
  else let (level, m2) := log_transition p (status h) m1 in (h, level, m2).

Definition get_health (c : Settings) (t : Clock) (p : string) (m : Monitor) : ProviderHealthStatus * option Level * Monitor :=
  match metrics m !! p with
  | None => (_empty_status, None, m)
  | Some _ => health_of c t p m
  end.

Definition health_step (c : Settings) (t : Clock) (p : string) (s : gmap string ProviderHealthStatus * Monitor) : gmap string ProviderHealthStatus * Monitor :=
  let r := health_of c t p s.2 in (<[p := r.1.1]> s.1, r.2).
Definition get_all_health (c : Settings) (t : Clock) (m : Monitor) : gmap string ProviderHealthStatus * Monitor :=
  set_fold (health_step c t) (∅, m) (dom (metrics m)).

(** Strictly better only: the first of equals is kept. *)
Definition best_step (h : gmap string ProviderHealthStatus) (best : option string * Q) (p : string) : option string * Q :=
  match h !! p with
  | Some s => if Qltb best.2 (health_score s) then (Some p, health_score s) else best
  | None => best
  end.
Definition get_best_provider (c : Settings) (t : Clock) (ps : list string) (m : Monitor) : option string * Monitor :=
  let (h, m') := get_all_health c t m in ((foldl (best_step h) (None, (-1)%Q) ps).1, m').

(** ** Laws of the pieces *)

Lemma drop_before_suffix {A} (key : A → Q) b d : drop_before key b d `suffix_of` d.
Proof. induction d as [|x d IH]; cbn; [done|]. qcase; [by apply suffix_cons_r|done]. Qed.

Lemma drop_before_filter {A} (key : A → Q) b d :
  StronglySorted (λ x y, key x <= key y)%Q d → drop_before key b d = filter (λ x, (b <= key x)%Q) d.
Proof.
  induction 1 as [|x d Hs IH Hx]; cbn [drop_before]; [done|]. qcase.
  - rewrite filter_cons_False by (by apply Qlt_not_le). exact IH.
  - rewrite filter_cons_True by done. f_equal. symmetry. apply list_filter_all. intros y Hy.
    rewrite Forall_forall in Hx. pose proof (Hx y Hy). lra.
Qed.

Lemma failed_app l k : failed (l ++ k) = (failed l + failed k)%nat.
Proof.
  unfold failed, succeeded. rewrite filter_app, !length_app.
  pose proof (length_filter (λ x, success x = true) l). pose proof (length_filter (λ x, success x = true) k). lia.
Qed.

Lemma failed_none l : Forall (λ x, success x = true) l → failed l = 0%nat.
Proof. intros H. unfold failed, succeeded. rewrite list_filter_all; [lia|]. by apply Forall_forall. Qed.

Lemma failed_le l : (failed l ≤ length l)%nat.
Proof. unfold failed. lia. Qed.

Lemma share_half a b : Qltb DEFAULT_DOWN_ERROR_RATE (share a (S b)) = true → (S b < 2 * a)%nat.
Proof.
  rewrite Qltb_true. unfold DEFAULT_DOWN_ERROR_RATE, share. change (Z.of_nat (S b)) with (Z.pos (Pos.of_succ_nat b)).
  unfold Qlt. cbn. lia.
Qed.

Lemma known_lookup st p m : last_known_status m !! p = Some st → known p m = st.
Proof. unfold known. by intros ->. Qed.

Definition metric_of (t : Clock) (latency : Q) (ok : bool) : HealthMetric := {| timestamp := wall t; latency_ms := latency; success := ok |}.

(** What a call changes before its status is computed. *)
Lemma measured_parts c t p latency ok m :
  let m' := measured c t p latency ok m in
  of_provider p m' = drop_before timestamp (cutoff c t) (of_provider p m ++ [metric_of t latency ok])
  ∧ last_known_status m' = <[p := status (_compute_status c t p m')]> (last_known_status m)
  ∧ consecutive_failures m' = <[p := if ok then 0 else default 0 (consecutive_failures m !! p) + 1]>%Z (consecutive_failures m)
  ∧ sinbin_failures m' = (if ok then sinbin_failures m else <[p := failures_within (_get_sinbin_config c p) (mono t) (default [] (sinbin_failures m !! p))]> (sinbin_failures m))
  ∧ sinbin_until m' = (if ok && bool_decide (0 < get_sinbin_rounds p m)%nat then delete p (sinbin_until m) else sinbin_until m)
  ∧ sinbin_rounds m' = (if ok && bool_decide (0 < get_sinbin_rounds p m)%nat then <[p := 0%nat]> (sinbin_rounds m) else sinbin_rounds m)
  ∧ probes m' = probes m ∧ last_logged_status m' = last_logged_status m
  ∧ (∀ q, q ≠ p → metrics m' !! q = metrics m !! q).
Proof.
  unfold measured, record_metric, note_success, note_failure, metric_of, get_sinbin_rounds, of_provider, _prune_old_metrics.
  destruct ok; cbn; [case_decide|]; cbn; rewrite ?lookup_insert_eq; cbn; rewrite ?lookup_insert_eq; cbn;
    rewrite ?bool_decide_eq_true_2 by done; rewrite ?bool_decide_eq_false_2 by done; split_and!; try done;
    intros; by rewrite !lookup_insert_ne by done.
Qed.

(** ** Recovery *)

Lemma down_mostly_failed c t p m :
  (default 0 (consecutive_failures m !! p) < DEFAULT_DOWN_CONSECUTIVE_FAILURES)%Z → status (_compute_status c t p m) = down →
  (length (of_provider p m) < 2 * failed (of_provider p m))%nat.
Proof.
  intros Hc. unfold _compute_status. destruct (of_provider p m) as [|x l]; [done|]. cbn [status]. unfold status_of.
  destruct (Qltb DEFAULT_DOWN_ERROR_RATE _) eqn:E; [intros _; by apply share_half in E|].
  rewrite (proj2 (Z.leb_gt _ _) Hc). cbn. by case_match.
Qed.

(** [a] from before the probes, [b] from successful probes. *)
Lemma suffix_after {A} (s a b : list A) : s `suffix_of` a ++ b → (∃ a', s = a' ++ b ∧ a' `suffix_of` a) ∨ s `suffix_of` b.
Proof.
  intros [pre E]. apply app_eq_inv in E as [(k & -> & ->)|(k & -> & ->)]; [left|right]; [|by eexists].
  eexists. split; [done|]. by eexists.
Qed.

Lemma failed_suffix a l : a `suffix_of` l → (failed a ≤ failed l)%nat.
Proof. intros [pre ->]. rewrite failed_app. lia. Qed.

(** The calls of a provider: those from before with at most [n] failures, then [k] successes. *)
Definition outnumbered (n k : nat) (l : list HealthMetric) : Prop :=
  ∃ a b, l = a ++ b ∧ (failed a ≤ n)%nat ∧ Forall (λ x, success x = true) b ∧ length b = k.

Lemma success_round c t p latency m n k :
  outnumbered n k (of_provider p m) → let m' := measured c t p latency true m in
  known p m' = down → outnumbered n (S k) (of_provider p m') ∧ (S k < n)%nat.
Proof.
  intros (a & b & El & Hn & Hb & Hk) m' Hd. destruct (measured_parts c t p latency true m) as (Hl & Hs & Hc & _). fold m' in Hl, Hs, Hc.
  assert (length (of_provider p m') < 2 * failed (of_provider p m'))%nat as Hf.
  { apply (down_mostly_failed c t); [by rewrite Hc, lookup_insert_eq|]. unfold known in Hd. by rewrite Hs, lookup_insert_eq in Hd. }
  set (x := metric_of t latency true) in *.
  assert (Forall (λ y, success y = true) (b ++ [x])) as Hbx by (apply Forall_app; by repeat constructor).
  pose proof (drop_before_suffix timestamp (cutoff c t) (of_provider p m ++ [x])) as Hsuf. rewrite <-Hl, El, <-app_assoc in Hsuf.
  apply suffix_after in Hsuf as [(a' & E & Ha')|Hb'].
  - pose proof (failed_suffix a' a Ha'). rewrite E, length_app, failed_app, (failed_none (b ++ [x]) Hbx), length_app in Hf.
    pose proof (failed_le a'). cbn in Hf. split; [|lia]. exists a', (b ++ [x]). split_and!; [done|lia|done|]. rewrite length_app. cbn. lia.
  - pose proof (failed_suffix _ _ Hb') as H0. rewrite (failed_none _ Hbx) in H0. lia.
Qed.

(** A success is never followed by a sin-bin. *)
Lemma record_success c t written p latency m f :
  record_call c t written p latency true m f = (Ok (), on_transition (known p m) (known p (measured c t p latency true m)) p (measured c t p latency true m), f).
Proof. done. Qed.

Lemma on_transition_parts old new p m :
  let m' := on_transition old new p m in
  metrics m' = metrics m ∧ consecutive_failures m' = consecutive_failures m ∧ sinbin_until m' = sinbin_until m ∧ sinbin_rounds m' = sinbin_rounds m
  ∧ sinbin_failures m' = sinbin_failures m ∧ last_known_status m' = last_known_status m ∧ last_logged_status m' = last_logged_status m.
Proof. unfold on_transition. repeat case_decide; by split_and!. Qed.

Lemma known_on_transition old new p q m : known q (on_transition old new p m) = known q m.
Proof. unfold on_transition. by repeat case_decide. Qed.

Definition recovered (p : string) (m : Monitor) : Prop := p ∉ probes m ∧ known p m ≠ down ∧ consecutive_failures m !! p = Some 0%Z.

Lemma probe_round_success c p r m f n k :
  probe_outcome r.2 = true → p ∈ probes m → known p m = down → outnumbered n k (of_provider p m) →
  let s' := probe_round c p r (m, f) in
  s'.2 = f ∧ (recovered p s'.1 ∨ p ∈ probes s'.1 ∧ known p s'.1 = down ∧ outnumbered n (S k) (of_provider p s'.1) ∧ (S k < n)%nat).
Proof.
  intros Hr Hp Hd Ho. unfold probe_round, record. cbn. rewrite Hr, record_success. cbn. split; [done|].
  set (m1 := measured c r.1.1 p SYNTHETIC_PROBE_LATENCY_MS true m). rewrite Hd.
  destruct (on_transition_parts down (known p m1) p m1) as (Hm & Hc & _).
  assert (known p (on_transition down (known p m1) p m1) = known p m1) as Ek by apply known_on_transition.
  destruct (measured_parts c r.1.1 p SYNTHETIC_PROBE_LATENCY_MS true m) as (_ & _ & Hc1 & _ & _ & _ & Hp1 & _). fold m1 in Hc1, Hp1.
  destruct (decide (known p m1 = down)) as [E|E].
  - right. rewrite Ek. unfold of_provider. rewrite Hm. fold (of_provider p m1). split_and!; try done.
    + unfold on_transition. rewrite !decide_False by naive_solver. by rewrite Hp1.
    + by apply (success_round c r.1.1 p SYNTHETIC_PROBE_LATENCY_MS m n k).
    + by apply (success_round c r.1.1 p SYNTHETIC_PROBE_LATENCY_MS m n k).
  - left. unfold recovered. rewrite Ek, Hc, Hc1, lookup_insert_eq. split_and!; [|done..].
    unfold on_transition. rewrite decide_False, decide_True by naive_solver. cbn. set_solver.
Qed.

Lemma probe_loop_stopped c p rounds s : p ∉ probes s.1 → _probe_loop c p rounds s = s.
Proof. destruct rounds; cbn; [done|]. intros. by rewrite decide_False. Qed.

Lemma probe_loop_recovers c p n rounds : ∀ k m f,
  Forall (λ r, probe_outcome r.2 = true) rounds → p ∈ probes m → known p m = down → outnumbered n k (of_provider p m) →
  rounds ≠ [] → (n ≤ k + length rounds)%nat → recovered p (_probe_loop c p rounds (m, f)).1 ∧ (_probe_loop c p rounds (m, f)).2 = f.
Proof.
  induction rounds as [|r rounds IH]; intros k m f Ha Hp Hd Ho Hne Hn; [done|]. apply Forall_cons in Ha as [Hr Ha].
  cbn [_probe_loop fst]. rewrite decide_True by done. pose proof (probe_round_success c p r m f n k Hr Hp Hd Ho) as [Ef Hround].
  destruct (probe_round c p r (m, f)) as [m' f']. cbn in *. subst f'. destruct Hround as [Hrec|(Hp' & Hd' & Ho' & Hlt)].
  - rewrite probe_loop_stopped by apply Hrec. by split.
  - apply (IH (S k)); try done; [|lia]. intros ->. cbn in Hn. lia.
Qed.

(** What a success leaves of the sin-bin. *)
Definition sinbin_after_success (p : string) (m : Monitor) : option Q := if decide (0 < get_sinbin_rounds p m)%nat then None else sinbin_until m !! p.

Lemma success_sinbin c t written p latency m f :
  let m' := (record_call c t written p latency true m f).1.2 in
  get_sinbin_rounds p m' = 0%nat ∧ sinbin_until m' !! p = sinbin_after_success p m.
Proof.
  rewrite record_success. cbn. set (m1 := measured c t p latency true m).
  destruct (on_transition_parts (known p m) (known p m1) p m1) as (_ & _ & Hu & Hr & _).
  destruct (measured_parts c t p latency true m) as (_ & _ & _ & _ & Hu1 & Hr1 & _). fold m1 in Hu1, Hr1.
  unfold sinbin_after_success, get_sinbin_rounds at 1. rewrite Hu, Hr, Hu1, Hr1. case_decide; cbn [andb].
  - rewrite bool_decide_eq_true_2 by done. by rewrite lookup_insert_eq, lookup_delete_eq.
  - rewrite bool_decide_eq_false_2 by done. unfold get_sinbin_rounds in *. split; [lia|done].
Qed.

Lemma probe_loop_sinbin c p rounds : ∀ m f,
  Forall (λ r, probe_outcome r.2 = true) rounds → p ∈ probes m → rounds ≠ [] →
  let m' := (_probe_loop c p rounds (m, f)).1 in get_sinbin_rounds p m' = 0%nat ∧ sinbin_until m' !! p = sinbin_after_success p m.
Proof.
  induction rounds as [|r rounds IH]; intros m f Ha Hp Hne; [done|]. apply Forall_cons in Ha as [Hr Ha].
  cbn [_probe_loop fst]. rewrite decide_True by done.
  assert (let m' := (probe_round c p r (m, f)).1 in get_sinbin_rounds p m' = 0%nat ∧ sinbin_until m' !! p = sinbin_after_success p m) as [H0 Hu]
    by (unfold probe_round, record; cbn; rewrite Hr; apply success_sinbin).
  destruct (probe_round c p r (m, f)) as [m' f']. cbn in H0, Hu.
  destruct (decide (p ∈ probes m')) as [Hp'|Hp']; [|by rewrite probe_loop_stopped].
  destruct (decide (rounds = [])) as [->|Hne']; [by cbn|].
  destruct (IH m' f' Ha Hp' Hne') as [H0' Hu']. split; [done|]. rewrite Hu', <-Hu. unfold sinbin_after_success. by rewrite decide_False by lia.
Qed.

(** C8: a provider that is down and probed recovers: once probes have succeeded as often as there are
    failures in the window, and once at least, whatever the clock says at each, the provider is no
    longer down, its consecutive failures are none, the probe has stopped, and if this process
    sin-binned it, it is sin-binned no longer. *)
Theorem recovery_by_probes c p rounds m f :
  p ∈ probes m → known p m = down → Forall (λ r, probe_outcome r.2 = true) rounds → rounds ≠ [] → (failed (of_provider p m) ≤ length rounds)%nat →
  let s' := _probe_loop c p rounds (m, f) in
  p ∉ probes s'.1 ∧ known p s'.1 ≠ down ∧ consecutive_failures s'.1 !! p = Some 0%Z ∧ get_sinbin_rounds p s'.1 = 0%nat
  ∧ sinbin_until s'.1 !! p = sinbin_after_success p m ∧ s'.2 = f.
Proof.
  intros Hp Hd Ha Hne Hn s'.
  destruct (probe_loop_recovers c p (failed (of_provider p m)) rounds 0 m f) as [(Hstop & Hk & Hc) Hf]; try done.
  { exists (of_provider p m), []. by rewrite app_nil_r. }
  destruct (probe_loop_sinbin c p rounds m f Ha Hp Hne) as [Hr Hu]. by split_and!.
Qed.

(** ** The failures that sin-bin *)

(** When a provider failed, in the calls so far. *)
Definition failure_times (p : string) (l : list Call) : list Q :=
  (λ x, mono (at_time x)) <$> filter (λ x, provider x = p ∧ succeeds x = false) l.

Lemma failure_times_snoc p l x :
  failure_times p (l ++ [x]) = failure_times p l ++ (if decide (provider x = p ∧ succeeds x = false) then [mono (at_time x)] else []).
Proof. unfold failure_times. rewrite filter_app, fmap_app, filter_cons. by case_decide. Qed.

Definition in_order (l : list Call) : Prop := StronglySorted (λ x y, mono (at_time x) <= mono (at_time y))%Q l.

Definition since (w : Z) (now : Q) (l : list Q) : list Q := filter (λ e, (now - inject_Z w <= e)%Q) l.
Definition deque_of (p : string) (m : Monitor) : list Q := default [] (sinbin_failures m !! p).

Lemma since_app w b l k : since w b (l ++ k) = since w b l ++ since w b k.
Proof. apply filter_app. Qed.

Lemma since_since w a b l : (a <= b)%Q → since w b (since w a l) = since w b l.
Proof. intros H. unfold since. rewrite list_filter_filter. apply list_filter_iff. intros e. split; [by intros [? _]|]. intros. split; [done|lra]. Qed.

Lemma failures_on_transition old new p m : sinbin_failures (on_transition old new p m) = sinbin_failures m.
Proof. apply on_transition_parts. Qed.

Lemma sinbin_failures_sinbin c t written p m f : sinbin_failures (sinbin c t written p m f).1.2 = sinbin_failures m.
Proof. unfold sinbin. by case_match. Qed.

Lemma record_deque c x s :
  deque_of (provider x) (record c s x).1 = (if succeeds x then deque_of (provider x) s.1
    else failures_within (_get_sinbin_config c (provider x)) (mono (at_time x)) (deque_of (provider x) s.1))
  ∧ ∀ q, q ≠ provider x → deque_of q (record c s x).1 = deque_of q s.1.
Proof.
  assert (sinbin_failures (record c s x).1 = sinbin_failures (measured c (at_time x) (provider x) (latency x) (succeeds x) s.1)) as E.
  { unfold record, record_call. cbn. pose proof (sinbin_failures_sinbin c (at_time x) (writable x) (provider x) (measured c (at_time x) (provider x) (latency x) (succeeds x) s.1) s.2) as E.
    case_match; [destruct (sinbin _ _ _ _ _ _) as [[[[]|] m2] f2]|]; cbn in *; rewrite ?failures_on_transition; done. }
  destruct (measured_parts c (at_time x) (provider x) (latency x) (succeeds x) s.1) as (_ & _ & _ & Hf & _).
  unfold deque_of. rewrite E, Hf. destruct (succeeds x); [done|]. rewrite lookup_insert_eq. split; [done|]. intros q Hq. by rewrite lookup_insert_ne.
Qed.

Lemma in_order_snoc l x : in_order (l ++ [x]) → in_order l ∧ Forall (λ y, mono (at_time y) <= mono (at_time x))%Q l.
Proof.
  intros H. split; [by apply StronglySorted_app_1_l in H|]. apply Forall_forall. intros y Hy.
  eapply (StronglySorted_app_1_elem_of _ _ _ y x) in H; [exact H|done|by apply list_elem_of_singleton].
Qed.

Lemma failure_times_bounded p l b : Forall (λ y, mono (at_time y) <= b)%Q l → Forall (λ e, e <= b)%Q (failure_times p l).
Proof.
  intros H. unfold failure_times. apply Forall_fmap, Forall_forall. intros y [_ Hy]%list_elem_of_filter. rewrite Forall_forall in H. by apply (H y).
Qed.

Lemma sorted_snoc (l : list Q) b : StronglySorted Qle l → Forall (λ e, e <= b)%Q l → StronglySorted Qle (l ++ [b]).
Proof.
  intros Hs Hb. apply StronglySorted_app_2; [|done|by repeat constructor]. intros e e' He ->%list_elem_of_singleton.
  rewrite Forall_forall in Hb. by apply Hb.
Qed.

Lemma sorted_filter (P : Q → Prop) `{!∀ e, Decision (P e)} (l : list Q) : StronglySorted Qle l → StronglySorted Qle (filter P l).
Proof.
  induction 1 as [|e l Hs IH He]; [constructor|]. rewrite filter_cons. case_decide; [|done]. constructor; [done|].
  apply Forall_forall. intros e' [_ He']%list_elem_of_filter. rewrite Forall_forall in He. by apply He.
Qed.

Lemma failures_within_since cfg now l : StronglySorted Qle l → Forall (λ e, e <= now)%Q l →
  failures_within cfg now l = since (failure_window_seconds cfg) now (l ++ [now]).
Proof. intros Hs Hb. unfold failures_within, since. apply (drop_before_filter id). by apply sorted_snoc. Qed.

(** The deque keeps of a provider's failures those a later window can contain. *)
Definition deque_agrees (c : Settings) (p : string) (l : list Call) (m : Monitor) : Prop :=
  StronglySorted Qle (deque_of p m) ∧ (∀ b, Forall (λ y, mono (at_time y) <= b)%Q l → Forall (λ e, e <= b)%Q (deque_of p m))
  ∧ ∀ b, Forall (λ y, mono (at_time y) <= b)%Q l → since (failure_window_seconds (_get_sinbin_config c p)) b (deque_of p m)
       = since (failure_window_seconds (_get_sinbin_config c p)) b (failure_times p l).

Lemma deque_agrees_step c p l x s : in_order (l ++ [x]) → deque_agrees c p l s.1 → deque_agrees c p (l ++ [x]) (record c s x).1.
Proof.
  intros [_ Hl]%in_order_snoc (Hs & Hb & Ha). destruct (record_deque c x s) as [Hsame Hother].
  assert (∀ b, Forall (λ y, mono (at_time y) <= b)%Q (l ++ [x]) → Forall (λ y, mono (at_time y) <= b)%Q l ∧ (mono (at_time x) <= b)%Q) as Hsplit
    by (intros b H; by rewrite Forall_app, Forall_singleton in H).
  unfold deque_agrees. setoid_rewrite failure_times_snoc.
  destruct (decide (provider x = p)) as [<-|Hne].
  2:{ rewrite (Hother p) by done. rewrite decide_False by naive_solver. setoid_rewrite app_nil_r. naive_solver. }
  rewrite Hsame. destruct (succeeds x).
  { rewrite decide_False by naive_solver. setoid_rewrite app_nil_r. naive_solver. }
  rewrite decide_True by done. set (W := failure_window_seconds _) in *. set (now := mono (at_time x)) in *.
  pose proof (sorted_snoc _ _ Hs (Hb now Hl)) as Hsort.
  rewrite failures_within_since by (try done; by apply Hb). fold W. split_and!.
  - unfold since. by apply sorted_filter.
  - intros b [Hlb Hxb]%Hsplit. apply Forall_forall. intros e [_ He]%list_elem_of_filter. apply elem_of_app in He as [He| ->%list_elem_of_singleton]; [|done].
    pose proof (Hb b Hlb) as H. rewrite Forall_forall in H. by apply H.
  - intros b [Hlb Hxb]%Hsplit. rewrite since_since by done. rewrite !since_app. by rewrite Ha.
Qed.

Lemma deque_agrees_run c p l m0 f0 : sinbin_failures m0 = ∅ → in_order l → deque_agrees c p l (record_all c (m0, f0) l).1.
Proof.
  intros H0. induction l as [|x l IH] using rev_ind; intros Hl.
  - unfold deque_agrees, deque_of. cbn. rewrite H0, lookup_empty. cbn. split_and!; [constructor|by intros; constructor|done].
  - unfold record_all. rewrite foldl_app. cbn. apply deque_agrees_step; [done|]. apply IH. by apply in_order_snoc in Hl as [? _].
Qed.

Lemma sinbin_on_transition old new p m : sinbin_until (on_transition old new p m) = sinbin_until m ∧ sinbin_rounds (on_transition old new p m) = sinbin_rounds m.
Proof. split; apply on_transition_parts. Qed.

(** C14: whether a failing call sin-bins its provider is a matter of the calls so far: it does exactly
    when, this one included, the provider's calls that failed within the configured seconds reach the
    threshold, whatever succeeded in between and whichever calls the window has already dropped.
    The provider is then sin-binned for the cooldown of the next round; otherwise nothing changes. *)
Theorem sinbin_decided_by_history c l x m0 f0 cd :
  sinbin_failures m0 = ∅ → in_order (l ++ [x]) → succeeds x = false →
  let p := provider x in let cfg := _get_sinbin_config c p in let now := mono (at_time x) in
  let m := (record_all c (m0, f0) l).1 in let m' := (record_all c (m0, f0) (l ++ [x])).1 in
  cooldown cfg (get_sinbin_rounds p m) = Ok cd →
  let recent := since (failure_window_seconds cfg) now (failure_times p (l ++ [x])) in
  (sinbin_until m' !! p, get_sinbin_rounds p m') =
    if (failure_threshold cfg <=? Z.of_nat (length recent))%Z then (Some (now + cd)%Q, S (get_sinbin_rounds p m)) else (sinbin_until m !! p, get_sinbin_rounds p m).
Proof.
  intros H0 Hin Hx p cfg now m m' Hcd recent.
  assert (deque_of p (measured c (at_time x) p (latency x) false m) = recent) as Hd.
  { pose proof (in_order_snoc _ _ Hin) as [Hl Hb]. destruct (deque_agrees_run c p l m0 f0 H0 Hl) as (Hs & Hbd & Ha). fold m cfg in Hs, Hbd, Ha.
    destruct (measured_parts c (at_time x) p (latency x) false m) as (_ & _ & _ & Hf & _).
    unfold deque_of. rewrite Hf, lookup_insert_eq. cbn [default from_option]. fold (deque_of p m).
    rewrite failures_within_since by (try done; by apply Hbd). subst recent. rewrite failure_times_snoc, decide_True by done.
    rewrite !since_app. transitivity (since (failure_window_seconds cfg) now (deque_of p m) ++ since (failure_window_seconds cfg) now [now]); [done|by rewrite (Ha now)]. }
  destruct (measured_parts c (at_time x) p (latency x) false m) as (_ & _ & _ & _ & Hu & Hr & _).
  subst m'. unfold record_all. rewrite foldl_app. cbn [foldl]. fold (record_all c (m0, f0) l). unfold record. fold m. cbn [fst]. rewrite Hx. fold p.
  unfold record_call, reaches_threshold. fold (deque_of p (measured c (at_time x) p (latency x) false m)). fold cfg. rewrite Hd. cbn [negb andb].
  set (m1 := measured _ _ _ _ _ _) in *. unfold get_sinbin_rounds.
  destruct (_ <=? _)%Z; [|destruct (sinbin_on_transition (known p m) (known p m1) p m1) as [Eu Er]; cbn; by rewrite Eu, Er, Hu, Hr].
  unfold sinbin. fold cfg. rewrite Hr. cbn [andb]. unfold get_sinbin_rounds in Hcd. rewrite Hcd. cbn [fst snd].
  match goal with |- context [on_transition ?o ?n ?q ?k] => destruct (sinbin_on_transition o n q k) as [-> ->] end.
  cbn. by rewrite !lookup_insert_eq.
Qed.

(** ** The cooldown *)

Lemma float_power_Ok x n y : float_power x n = Ok y → y = Qpower x (Z.of_nat n).
Proof. unfold float_power. case_match; congruence. Qed.

(** With a multiplier of at least one, no round's cooldown is above the maximum or below an earlier round's. *)
Lemma cooldown_bounds cfg n k cd cd' :
  (1 <= backoff_multiplier cfg)%Q → (0 <= initial_cooldown_seconds cfg)%Z → (n ≤ k)%nat → cooldown cfg n = Ok cd → cooldown cfg k = Ok cd' →
  (cd <= cd' ∧ cd' <= inject_Z (max_cooldown_seconds cfg))%Q.
Proof.
  intros Hm Hi Hnk (y & Hy & [= <-])%result_bind_Ok (y' & Hy' & [= <-])%result_bind_Ok.
  apply float_power_Ok in Hy as ->, Hy' as ->.
  assert (Qpower (backoff_multiplier cfg) (Z.of_nat n) <= Qpower (backoff_multiplier cfg) (Z.of_nat k))%Q as Hp by (apply Qpower_le_compat_l; [lia|done]).
  pose proof (inject_Z_nonneg _ Hi) as H0.
  assert (inject_Z (initial_cooldown_seconds cfg) * Qpower (backoff_multiplier cfg) (Z.of_nat n) <= inject_Z (initial_cooldown_seconds cfg) * Qpower (backoff_multiplier cfg) (Z.of_nat k))%Q
    by (rewrite !(Qmult_comm (inject_Z _)); by apply Qmult_le_compat_r).
  unfold pymin. repeat qcase; lra.
Qed.

(** ** The state file *)

Lemma merged_lookup t m ex p :
  _build_merged_state t m ex !! p = match sinbin_rounds m !! p with
    | Some _ => if Qltb 0 (remaining_of t m p) then Some (Some (wall t + remaining_of t m p)%Q) else None
    | None => ex !! p
    end.
Proof.
  unfold _build_merged_state. rewrite lookup_union, map_lookup_imap, map_lookup_filter.
  destruct (sinbin_rounds m !! p) eqn:E; cbn.
  - case_match; [by rewrite union_Some_l|]. destruct (ex !! p); cbn; [|done]. rewrite E. by rewrite option_guard_False.
  - rewrite (left_id_L None _). destruct (ex !! p); cbn; [|done]. by rewrite option_guard_True.
Qed.

Lemma loaded_lookup c t st p : persistent c = true →
  sinbin_until (new_monitor c t (Some st)) !! p = (e ← st !! p; w ← e; if Qltb 0 (w - wall t) then Some (mono t + (w - wall t)) else None)%Q.
Proof. intros Hc. unfold new_monitor. rewrite Hc. cbn. by rewrite (right_id_L ∅ _), lookup_omap. Qed.

Lemma owned_loaded c t t' m ex p n : persistent c = true → (wall t <= wall t')%Q → sinbin_rounds m !! p = Some n →
  let d := (remaining_of t m p - (wall t' - wall t))%Q in
  match sinbin_until (new_monitor c t' (Some (_build_merged_state t m ex))) !! p with
  | Some e => (0 < d)%Q ∧ (e - mono t' == d)%Q
  | None => (d <= 0)%Q
  end.
Proof.
  intros Hc Hw Hn d. rewrite loaded_lookup, merged_lookup, Hn by done. qcase; cbn; [|subst d; lra]. qcase; subst d; [split|]; lra.
Qed.

(** C18: what a process knows of the providers it has sin-binned or cleared survives it: a process
    started later, whose monotonic clock counts from anywhere, has of each the same time left less the
    time that has passed, and does not sin-bin those it had cleared or whose time is over; of the
    other providers the file says what it said. *)
Theorem sinbin_survives_restart c t t' m f p :
  persistent c = true → (wall t <= wall t')%Q → (0 <= mono t')%Q →
  let m' := new_monitor c t' (_persist_to_file t true m f) in
  let left_then := (remaining_of t m p - (wall t' - wall t))%Q in
  match sinbin_rounds m !! p with
  | Some _ => is_sinbinned t' p m' = Qltb 0 left_then ∧
              (if Qltb 0 left_then then ∃ ttl, get_sinbin_ttl_seconds t' p m' = Some ttl ∧ (ttl == left_then)%Q else get_sinbin_ttl_seconds t' p m' = None)
  | None => is_sinbinned t' p m' = is_sinbinned t' p (new_monitor c t' f) ∧ get_sinbin_ttl_seconds t' p m' = get_sinbin_ttl_seconds t' p (new_monitor c t' f)
  end.
Proof.
  intros Hc Hw H0 m' d. subst m'. unfold _persist_to_file. destruct (sinbin_rounds m !! p) eqn:E.
  - pose proof (owned_loaded c t t' m (default ∅ f) p _ Hc Hw E) as H. cbn beta zeta in H. fold d in H. unfold is_sinbinned, get_sinbin_ttl_seconds.
    destruct (sinbin_until _ !! p) as [e|]; cbn.
    + destruct H as [Hd He]. rewrite (proj2 (Qltb_true 0 d) Hd). split; [apply Qltb_true; lra|]. rewrite (proj2 (Qltb_true 0 (e - mono t'))) by lra.
      eexists. split; [done|]. unfold pymax. qcase; lra.
    + rewrite (proj2 (Qltb_false 0 d) H). split; [by apply Qltb_false|done].
  - unfold is_sinbinned, get_sinbin_ttl_seconds. rewrite loaded_lookup, merged_lookup, E by done.
    destruct f as [st|]; [|change (new_monitor c t' None) with (new_monitor c t' (Some ∅))]; by rewrite loaded_lookup.
Qed.
End status.
End Health.

(** * The chain of embedders

    embedder_chain.py.  The time taken is left out of the answer, and so is the text: what a
    provider would answer is part of the attempt. *)
Module Chain.
Import Health.

Section chain.
Context (percentile : list Q → Q → Q) (c : Settings) {Vector : Type}.

(** When a provider's turn comes, what its [get_embedding] answers or raises, when, and whether the
    state file can be written. *)
Record Attempt := { turn : Clock; answer : result () Vector; finished : Clock; writes : bool }.

Inductive Reason := Skipped | Failed.
#[export] Instance Reason_eq_dec : EqDecision Reason.
Proof. solve_decision. Defined.

(** [EMBEDDER_HEALTH_KEYS] *)
Definition voyage_key : string := "voyage-embedder"%string.
Definition cohere_key : string := "cohere-embedder"%string.

Definition gated (t : Clock) (key : string) (m : Monitor) : bool :=
  let r := get_health percentile c t key m in bool_decide (status r.1.1 = down) || is_sinbinned t key r.2.

Definition attempt_failed (key : string) (a : Attempt) (latency : Q) (m : Monitor) (f : File) : result error (result Reason Vector) * Monitor * File :=
  let r := record_call percentile c (finished a) (writes a) key latency false m f in
  (_ ← r.1.1; Ok (Err Failed), r.1.2, r.2).

Definition _attempt_provider_embed (key : string) (a : Attempt) (m : Monitor) (f : File) : result error (result Reason Vector) * Monitor * File :=
  let m1 := (get_health percentile c (turn a) key m).2 in
  if gated (turn a) key m then (Ok (Err Skipped), m1, f)
  else
    let latency := ((mono (finished a) - mono (turn a)) * 1000)%Q in
    match answer a with
    | Ok v =>
        match record_call percentile c (finished a) (writes a) key latency true m1 f with
        | (Ok _, m2, f') => (Ok (Ok v), m2, f')
        | (Err _, m2, f') => attempt_failed key a latency m2 f'
        end
    | Err _ => attempt_failed key a latency m1 f
    end.

Inductive Terminal := no_providers_configured | all_sinbinned | worst (r : option Reason).

Record ChainResult := { embedding : option (string * Vector); failure_reason : option Terminal; providers_outcomes : list (string * Reason) }.

Abbreviation Provider := (string * string * Attempt)%type.

Fixpoint chain_loop (ps : list Provider) (worst_failure : option Reason) (any_attempted : bool) (outs : list (string * Reason)) (m : Monitor) (f : File) :
    result error ChainResult * Monitor * File :=
  match ps with
  | [] => (Ok {| embedding := None; failure_reason := Some (if any_attempted then worst worst_failure else all_sinbinned); providers_outcomes := outs |}, m, f)
  | (name, key, a) :: ps' =>
      match _attempt_provider_embed key a m f with
      | (Err e, m', f') => (Err e, m', f')
      | (Ok (Ok v), m', f') => (Ok {| embedding := Some (name, v); failure_reason := None; providers_outcomes := outs |}, m', f')
      | (Ok (Err why), m', f') =>
          chain_loop ps' (if decide (worst_failure = Some Failed) then worst_failure else Some why)
            (any_attempted || bool_decide (why ≠ Skipped)) (outs ++ [(name, why)]) m' f'
      end
  end.

Definition chain_of (primary secondary : option Attempt) : list Provider :=
  match primary with Some a => [("voyage"%string, voyage_key, a)] | None => [] end
  ++ match secondary with Some a => [("cohere"%string, cohere_key, a)] | None => [] end.

Definition _run_embedder_chain (primary secondary : option Attempt) (m : Monitor) (f : File) : result error ChainResult * Monitor * File :=
  match chain_of primary secondary with
  | [] => (Ok {| embedding := None; failure_reason := Some no_providers_configured; providers_outcomes := [] |}, m, f)
  | ps => chain_loop ps None false [] m f
  end.

(** ** What the chain promises *)

(** What becomes of a provider's turn, by the health it had before the chain ran. *)
Definition turn_of (m : Monitor) (p : Provider) : result Reason Vector :=
  if gated (turn p.2) p.1.2 m then Err Skipped else match answer p.2 with Ok v => Ok v | Err _ => Err Failed end.

(** The providers before the first that answers, and the answer. *)
Fixpoint first_answer (l : list (string * result Reason Vector)) : list (string * Reason) * option (string * Vector) :=
  match l with
  | [] => ([], None)
  | (name, Ok v) :: _ => ([], Some (name, v))
  | (name, Err why) :: l' => let r := first_answer l' in ((name, why) :: r.1, r.2)
  end.

Definition chain_spec (l : list (string * result Reason Vector)) : ChainResult :=
  let r := first_answer l in
  {| embedding := r.2;
     failure_reason := match r.2, l with
       | Some _, _ => None
       | None, [] => Some no_providers_configured
       | None, _ => Some (if decide (Forall (λ o, o.2 = Skipped) r.1) then all_sinbinned else worst (Some Failed))
       end;
     providers_outcomes := r.1 |}.

(** The next round's cooldown of the provider is a float. *)
Definition bounded (key : string) (m : Monitor) : Prop := is_ok (cooldown (_get_sinbin_config c key) (get_sinbin_rounds key m)) = true.

(** What the chain reads of a provider. *)
Definition same_for (q : string) (m m' : Monitor) : Prop :=
  metrics m' !! q = metrics m !! q ∧ consecutive_failures m' !! q = consecutive_failures m !! q
  ∧ sinbin_until m' !! q = sinbin_until m !! q ∧ sinbin_rounds m' !! q = sinbin_rounds m !! q.

Lemma same_for_trans q m1 m2 m3 : same_for q m1 m2 → same_for q m2 m3 → same_for q m1 m3.
Proof. intros (?&?&?&?) (?&?&?&?). unfold same_for. split_and!; congruence. Qed.

Lemma log_transition_parts q st k : let k' := (log_transition q st k).2 in
  metrics k' = metrics k ∧ consecutive_failures k' = consecutive_failures k ∧ sinbin_until k' = sinbin_until k ∧ sinbin_rounds k' = sinbin_rounds k.
Proof. unfold log_transition. destruct st; case_decide; by split_and!. Qed.

Lemma pruned_parts t q k : let k' := _prune_old_metrics c t q k in
  of_provider q k' = drop_before timestamp (cutoff c t) (of_provider q k) ∧ (∀ q', q' ≠ q → metrics k' !! q' = metrics k !! q')
  ∧ consecutive_failures k' = consecutive_failures k ∧ sinbin_until k' = sinbin_until k ∧ sinbin_rounds k' = sinbin_rounds k.
Proof.
  unfold _prune_old_metrics, of_provider. destruct (metrics k !! q) eqn:E; cbn; [|by rewrite E].
  rewrite lookup_insert_eq. split_and!; try done. intros. by rewrite lookup_insert_ne.
Qed.

(** What is read, and what reading changes. *)
Lemma get_health_parts t q k : let r := get_health percentile c t q k in
  r.1.1 = _compute_status percentile c t q (_prune_old_metrics c t q k) ∧ (∀ q', q' ≠ q → metrics r.2 !! q' = metrics k !! q')
  ∧ consecutive_failures r.2 = consecutive_failures k ∧ sinbin_until r.2 = sinbin_until k ∧ sinbin_rounds r.2 = sinbin_rounds k.
Proof.
  destruct (pruned_parts t q k) as (_ & Hm & Hc & Hu & Hr). unfold get_health. destruct (metrics k !! q) eqn:E; cbn.
  - unfold health_of. case_decide; [done|]. set (k1 := _prune_old_metrics c t q k) in *. set (h := _compute_status _ _ _ _ _).
    destruct (log_transition_parts q (status h) k1) as (Lm & Lc & Lu & Lr).
    destruct (log_transition q (status h) k1) as [lv k2]. cbn in *. split; [done|]. rewrite Lm, Lc, Lu, Lr. by split_and!.
  - unfold _prune_old_metrics. rewrite E. unfold _compute_status, of_provider. by rewrite E.
Qed.

Lemma compute_status_same t q m m' :
  of_provider q m' = of_provider q m → consecutive_failures m' !! q = consecutive_failures m !! q → sinbin_until m' !! q = sinbin_until m !! q →
  _compute_status percentile c t q m' = _compute_status percentile c t q m.
Proof. intros Ho Hc Hu. unfold _compute_status, is_sinbinned. by rewrite Ho, Hc, Hu. Qed.

Lemma gated_same t q m m' : same_for q m m' → gated t q m' = gated t q m.
Proof.
  intros (Hm & Hc & Hu & _). unfold gated, is_sinbinned.
  destruct (get_health_parts t q m) as (-> & _ & _ & -> & _), (get_health_parts t q m') as (-> & _ & _ & -> & _). rewrite Hu. do 3 f_equal.
  destruct (pruned_parts t q m) as (Ho & _ & Hc1 & Hu1 & _), (pruned_parts t q m') as (Ho' & _ & Hc1' & Hu1' & _).
  erewrite compute_status_same; [done|rewrite Ho, Ho'; unfold of_provider; by rewrite Hm|by rewrite Hc1, Hc1'|by rewrite Hu1, Hu1'].
Qed.

Lemma health_same t key q m : q ≠ key → same_for q m (get_health percentile c t key m).2.
Proof. intros Hq. unfold same_for. destruct (get_health_parts t key m) as (_ & Hm & -> & -> & ->). split_and!; [by apply Hm|done..]. Qed.

Lemma measured_same t key latency ok q m : q ≠ key → same_for q m (measured percentile c t key latency ok m).
Proof.
  intros Hq. destruct (measured_parts percentile c t key latency ok m) as (_ & _ & Hc & _ & Hu & Hr & _ & _ & Hm). unfold same_for.
  rewrite Hc, Hu, Hr, Hm by done. destruct (ok && _); rewrite ?lookup_insert_ne, ?lookup_delete_ne by done; done.
Qed.

Lemma transition_same old new key q m : same_for q m (on_transition old new key m).
Proof. destruct (on_transition_parts old new key m) as (Hm & Hc & Hu & Hr & _). unfold same_for. by rewrite Hm, Hc, Hu, Hr. Qed.

Lemma sinbin_same t written key q m f : q ≠ key → same_for q m (sinbin c t written key m f).1.2.
Proof. intros Hq. unfold sinbin. case_match; [|done]. unfold same_for. cbn. by rewrite !lookup_insert_ne by done. Qed.

Lemma call_same t written key latency ok q m f : q ≠ key → same_for q m (record_call percentile c t written key latency ok m f).1.2.
Proof.
  intros Hq. pose proof (measured_same t key latency ok q m Hq) as H1. unfold record_call. case_match.
  - pose proof (sinbin_same t written key q (measured percentile c t key latency ok m) f Hq) as H2.
    destruct (sinbin _ _ _ _ _ _) as [[[[]|e] m2] f']; cbn in *; [eapply same_for_trans; [|apply transition_same]|]; by eapply same_for_trans.
  - eapply same_for_trans; [exact H1|apply transition_same].
Qed.

Lemma failed_call_ok t written key latency m f : bounded key m → (record_call percentile c t written key latency false m f).1.1 = Ok ().
Proof.
  intros H. unfold record_call. case_match; [|done]. destruct (measured_parts percentile c t key latency false m) as (_ & _ & _ & _ & _ & Hr & _).
  unfold sinbin. rewrite Hr. cbn [andb]. unfold bounded, get_sinbin_rounds in H. destruct (cooldown _ _); [done|discriminate H].
Qed.

(** A turn goes as the health before it says, and leaves the other providers as they were. *)
Lemma attempt_spec name key a m f : bounded key m →
  let r := _attempt_provider_embed key a m f in r.1.1 = Ok (turn_of m (name, key, a)) ∧ ∀ q, q ≠ key → same_for q m r.1.2.
Proof.
  intros Hb. unfold turn_of, _attempt_provider_embed. cbn [fst snd].
  pose proof (λ q, health_same (turn a) key q m) as Hh.
  assert (bounded key (get_health percentile c (turn a) key m).2) as Hb1
    by (unfold bounded, get_sinbin_rounds; destruct (get_health_parts (turn a) key m) as (_ & _ & _ & _ & ->); exact Hb).
  set (m1 := (get_health percentile c (turn a) key m).2) in *. destruct (gated (turn a) key m); [by split|].
  destruct (answer a) as [v|[]].
  - rewrite record_success. cbn. split; [done|]. intros q Hq. eapply same_for_trans; [by apply Hh|].
    eapply same_for_trans; [by apply measured_same|apply transition_same].
  - unfold attempt_failed. cbn [fst snd]. rewrite failed_call_ok by done. split; [done|].
    intros q Hq. eapply same_for_trans; [by apply Hh|by apply call_same].
Qed.

Definition worse (w : option Reason) (o : string * Reason) : option Reason := if decide (w = Some Failed) then w else Some o.2.

Lemma worst_failed l w : w = Some Failed ∨ (∃ o, o ∈ l ∧ o.2 = Failed) → foldl worse w l = Some Failed.
Proof.
  revert w. induction l as [|o l IH]; intros w H; cbn; [naive_solver set_solver|]. apply IH. unfold worse. case_decide; [by left|].
  destruct H as [|(o' & [->|Ho]%elem_of_cons & Ef)]; [done|left; by rewrite Ef|right; eauto].
Qed.

Lemma turn_same p m m' : same_for p.1.2 m m' → turn_of m' p = turn_of m p.
Proof. intros H. unfold turn_of. by rewrite (gated_same _ _ _ _ H). Qed.

Lemma bounded_same q m m' : same_for q m m' → bounded q m → bounded q m'.
Proof. intros (_ & _ & _ & Hr). unfold bounded, get_sinbin_rounds. by rewrite Hr. Qed.

Lemma chain_loop_spec ps : ∀ w att outs m f,
  NoDup ((λ p, p.1.2) <$> ps) → Forall (λ p, bounded p.1.2 m) ps →
  let r := first_answer ((λ p, (p.1.1, turn_of m p)) <$> ps) in
  (chain_loop ps w att outs m f).1.1 = Ok {| embedding := r.2;
    failure_reason := match r.2 with Some _ => None | None =>
      Some (if att || existsb (λ o, bool_decide (o.2 ≠ Skipped)) r.1 then worst (foldl worse w r.1) else all_sinbinned) end;
    providers_outcomes := outs ++ r.1 |}.
Proof.
  induction ps as [|[[name key] a] ps IH]; intros w att outs m f Hnd Hb; cbn [chain_loop].
  { cbn. by rewrite orb_false_r, app_nil_r. }
  apply NoDup_cons in Hnd as [Hk Hnd]. apply Forall_cons in Hb as [Hb Hbs]. cbn in Hk, Hb.
  destruct (attempt_spec name key a m f Hb) as [Ea Hsame]. rewrite fmap_cons. cbn [fst snd first_answer].
  destruct (_attempt_provider_embed key a m f) as [[res m1] f1]. cbn in Ea, Hsame. subst res.
  destruct (turn_of m (name, key, a)) as [v|why]; [cbn; by rewrite app_nil_r|].
  assert (∀ p, p ∈ ps → same_for p.1.2 m m1) as Hps.
  { intros p Hp. apply Hsame. intros <-. apply Hk. apply list_elem_of_fmap. by exists p. }
  assert ((λ p, (p.1.1, turn_of m1 p)) <$> ps = (λ p, (p.1.1, turn_of m p)) <$> ps) as Et
    by (apply list_fmap_ext; intros ? p Hp%list_elem_of_lookup_2; by rewrite (turn_same p m m1) by auto).
  rewrite IH, Et; [|done|].
  - cbn. by rewrite <-app_assoc, orb_assoc.
  - apply Forall_forall. intros p Hp. rewrite Forall_forall in Hbs. eapply bounded_same; eauto.
Qed.

(** C9: the answer of the chain, given the health the providers had before it ran: the first provider
    that is neither down nor sin-binned when its turn comes and whose call succeeds answers, the
    providers before it are listed with why they did not; when none answers, the reason tells apart
    that none is configured, that all were passed over, and that a call failed.  What an earlier
    attempt records never bears on a later provider. *)
Theorem run_chain_spec primary secondary m f :
  bounded voyage_key m → bounded cohere_key m →
  (_run_embedder_chain primary secondary m f).1.1 = Ok (chain_spec ((λ p, (p.1.1, turn_of m p)) <$> chain_of primary secondary)).
Proof.
  intros Hv Hc. unfold _run_embedder_chain.
  assert (NoDup ((λ p, p.1.2) <$> chain_of primary secondary) ∧ Forall (λ p, bounded p.1.2 m) (chain_of primary secondary)) as [Hnd Hb].
  { destruct primary, secondary; cbn; (split; [apply (bool_decide_unpack _); vm_compute; exact I|by repeat constructor]). }
  destruct (chain_of primary secondary) as [|p ps] eqn:E; [done|]. rewrite chain_loop_spec by done. unfold chain_spec. rewrite app_nil_l.
  set (l := (λ p, _) <$> p :: ps). f_equal. f_equal. destruct (first_answer l).2; [done|]. cbn [orb].
  replace (match l with [] => _ | _ => _ end) with (Some (if decide (Forall (λ o, o.2 = Skipped) (first_answer l).1) then all_sinbinned else worst (Some Failed))) by done.
  f_equal. destruct (existsb _ _) eqn:Ex.
  - apply existsb_exists in Ex as (o & Ho & Hd%bool_decide_eq_true). rewrite decide_False by (rewrite Forall_forall; intros HF; by apply Hd, HF, list_elem_of_In).
    f_equal. apply worst_failed. right. exists o. split; [by apply list_elem_of_In|]. by destruct o.2.
  - rewrite decide_True; [done|]. apply Forall_forall. intros o Ho. destruct (decide (o.2 = Skipped)) as [|Hne]; [done|].
    assert (existsb (λ o, bool_decide (o.2 ≠ Skipped)) (first_answer l).1 = true); [|congruence].
    apply existsb_exists. exists o. split; [by apply list_elem_of_In|]. by apply bool_decide_eq_true.
Qed.
End chain.
End Chain.

(** * Concrete providers *)
Module HealthSamples.
Import Health Chain.

Ltac evaluate := cbv zeta; repeat match goal with |- _ ∧ _ => split end; vm_compute; reflexivity.

(** Linear interpolation between the two nearest of the sorted values. *)
Definition interpolated (l : list Q) (pct : Q) : Q :=
  let at_ := (pct / 100 * inject_Z (Z.of_nat (length l) - 1))%Q in let i := Qfloor at_ in
  let lo := default 0%Q (l !! Z.to_nat i) in let hi := default lo (l !! Z.to_nat (i + 1)) in
  (lo + (hi - lo) * (at_ - inject_Z i))%Q.

Definition at_second (n : Z) : Clock := {| wall := inject_Z (1000000 + n); mono := inject_Z (50 + n) |}.
(** The clock of a process started at another time. *)
Definition elsewhere (n : Z) : Clock := {| wall := inject_Z (1000000 + n); mono := inject_Z (7000 + n) |}.
Definition V : string := "voyage-ai"%string.
Definition fails (p : string) (n : Z) : Call := {| at_time := at_second n; writable := true; provider := p; latency := 100; succeeds := false |}.
Definition works (p : string) (n : Z) : Call := {| at_time := at_second n; writable := true; provider := p; latency := 100; succeeds := true |}.

Definition cli : Settings := default_settings true.
Definition start : Monitor * File := (empty_monitor, None).
Definition run (l : list Call) : Monitor * File := record_all interpolated cli start l.

Definition outage : list Call := fails V <$> [0; 1; 2; 3; 4]%Z.
Definition after_outage : Monitor := (run outage).1.
Definition outage_file : File := (run outage).2.
Definition probing : list Round := (λ n, (at_second n, true, Some (Ok true))) <$> [34; 64; 94; 124; 154]%Z.

Example outage_is_down : known V (run outage).1 = down ∧ probes (run outage).1 = {[V]} ∧ is_sinbinned (at_second 33) V (run outage).1 = true ∧ is_sinbinned (at_second 34) V (run outage).1 = false.
Proof. evaluate. Qed.

(** Four successful probes are not enough after five failures. *)
Example four_probes : known V (_probe_loop interpolated cli V (take 4 probing) (run outage)).1 = down.
Proof. evaluate. Qed.

Lemma recovery_by_probes_witness :
  let s' := _probe_loop interpolated cli V probing (after_outage, outage_file) in
  V ∉ probes s'.1 ∧ known V s'.1 ≠ down ∧ consecutive_failures s'.1 !! V = Some 0%Z ∧ get_sinbin_rounds V s'.1 = 0%nat
  ∧ sinbin_until s'.1 !! V = sinbin_after_success V after_outage ∧ s'.2 = outage_file.
Proof.
  apply (recovery_by_probes interpolated cli V probing after_outage outage_file).
  - apply (bool_decide_unpack _). vm_compute. exact I.
  - vm_compute. reflexivity.
  - apply (bool_decide_unpack _). vm_compute. exact I.
  - discriminate.
  - apply (bool_decide_unpack _). vm_compute. exact I.
Defined.

(** Failures 70 seconds ago no longer count. *)
Definition mixed : list Call := [fails V (-70); fails V (-69); fails V 0; works V 1; fails V 2; fails V 3; works V 4; fails V 5].

Lemma sinbin_decided_by_history_witness :
  let m := (run mixed).1 in let m' := (run (mixed ++ [fails V 6])).1 in
  (sinbin_until m' !! V, get_sinbin_rounds V m') =
    if (5 <=? Z.of_nat (length (since 60 (mono (at_second 6)) (failure_times V (mixed ++ [fails V 6])))))%Z
    then (Some (mono (at_second 6) + 30)%Q, S (get_sinbin_rounds V m)) else (sinbin_until m !! V, get_sinbin_rounds V m).
Proof.
  apply (sinbin_decided_by_history interpolated cli mixed (fails V 6) empty_monitor None 30).
  - reflexivity.
  - apply (bool_decide_unpack _). vm_compute. exact I.
  - reflexivity.
  - vm_compute. reflexivity.
Defined.

Example fifth_in_a_minute : sinbin_until (run mixed).1 !! V = None ∧ sinbin_until (run (mixed ++ [fails V 6])).1 !! V = Some 86%Q.
Proof. evaluate. Qed.

(** Another process has sin-binned another provider. *)
Definition shared_file : File := Some {["cohere"%string := Some 1000100%Q; "voyage-ai"%string := Some 1000020%Q]}.

Lemma sinbin_survives_restart_witness :
  let m := (run outage).1 in let m' := new_monitor cli (elsewhere 14) (_persist_to_file (at_second 4) true m shared_file) in
  is_sinbinned (elsewhere 14) V m' = true ∧ (∃ ttl, get_sinbin_ttl_seconds (elsewhere 14) V m' = Some ttl ∧ (ttl == 20)%Q).
Proof.
  pose proof (sinbin_survives_restart cli (at_second 4) (elsewhere 14) (run outage).1 shared_file V) as H.
  vm_compute in H. apply H; [reflexivity|discriminate|discriminate].
Defined.

Example the_other_entry_is_kept :
  is_sinbinned (elsewhere 14) "cohere" (new_monitor cli (elsewhere 14) (_persist_to_file (at_second 4) true (run outage).1 shared_file)) = true.
Proof. evaluate. Qed.

(** ** The chain *)

Definition asked (n : Z) (r : result () nat) : Attempt := {| turn := at_second n; answer := r; finished := at_second (n + 1); writes := true |}.
Definition embedder_down : Monitor := (run (fails voyage_key <$> [0; 1; 2; 3; 4]%Z)).1.

Lemma run_chain_spec_witness :
  (_run_embedder_chain interpolated cli (Some (asked 10 (Ok 1%nat))) (Some (asked 11 (Ok 2%nat))) embedder_down None).1.1
  = Ok {| embedding := Some ("cohere"%string, 2%nat); failure_reason := None; providers_outcomes := [("voyage"%string, Skipped)] |}.
Proof.
  rewrite (run_chain_spec interpolated cli (Some (asked 10 (Ok 1%nat))) (Some (asked 11 (Ok 2%nat))) embedder_down None).
  - vm_compute. reflexivity.
  - vm_compute. reflexivity.
  - vm_compute. reflexivity.
Defined.

(** ** What modelling showed *)

(** The 1029th failure without a success in between is the 1024th round of a sin-bin that doubles: recording it raises,
    and does so again after every later failure. *)
Definition long_outage : Monitor := (run (fails V <$> seqZ 0 1028)).1.

Lemma sinbin_round_overflows :
  let r := record_call interpolated cli (at_second 1028) true V 100 false long_outage None in
  r.1.1 = Err OverflowError ∧ sinbin_until r.1.2 !! V = sinbin_until long_outage !! V
  ∧ (record_call interpolated cli (at_second 1029) true V 100 false r.1.2 r.2).1.1 = Err OverflowError.
Proof. evaluate. Qed.

(** A sin-bin read from the file is not ended by a success. *)
Lemma loaded_sinbin_outlasts_success :
  let s := record interpolated cli (new_monitor cli (at_second 0) shared_file, shared_file) (works "cohere" 1) in is_sinbinned (at_second 2) "cohere" s.1 = true.
Proof. evaluate. Qed.

(** A success ends the sin-bin of this process and leaves it in the file. *)
Lemma recovery_not_in_file :
  let s := run (outage ++ [works V 5]) in is_sinbinned (at_second 6) V s.1 = false ∧ is_sinbinned (elsewhere 6) V (new_monitor cli (elsewhere 6) s.2) = true.
Proof. evaluate. Qed.

Lemma clear_all_not_in_file : is_sinbinned (elsewhere 6) V (new_monitor cli (elsewhere 6) (run outage).2) = true ∧ is_sinbinned (at_second 6) V (clear_sinbin_all (run outage).1) = false.
Proof. evaluate. Qed.

(** A provider nothing is known of has the best health and is never the best provider. *)
Lemma unknown_provider_never_best :
  (get_best_provider interpolated cli (at_second 5) ["cohere"%string; V] (run outage).1).1 = Some V
  ∧ (get_health interpolated cli (at_second 5) "cohere" (run outage).1).1.1 = _empty_status
  ∧ status (get_health interpolated cli (at_second 5) V (run outage).1).1.1 = down.
Proof. evaluate. Qed.

(** A degraded provider whose calls have left the window is healthy without a line, and is degraded
    again without a warning. *)
Definition degrading (n : Z) : list Call := [fails V n; works V (n + 1); works V (n + 2)].
Lemma second_degradation_is_silent :
  let m1 := (run (degrading 0)).1 in let h1 := get_health interpolated cli (at_second 3) V m1 in
  let h2 := get_health interpolated cli (at_second 3700) V h1.2 in
  let m3 := (record_all interpolated cli (h2.2, None) (degrading 3701)).1 in let h3 := get_health interpolated cli (at_second 3704) V m3 in
  (status h1.1.1, h1.1.2) = (degraded, Some WARNING) ∧ (status h2.1.1, h2.1.2) = (healthy, None) ∧ (status h3.1.1, h3.1.2) = (degraded, Some DEBUG).
Proof. evaluate. Qed.

(** A sin-binned provider without calls in the window is reported as not sin-binned. *)
Lemma empty_status_hides_sinbin :
  let m := new_monitor cli (at_second 0) shared_file in
  is_sinbinned (at_second 1) "cohere" m = true ∧ sinbinned (get_health interpolated cli (at_second 1) "cohere" m).1.1 = false.
Proof. evaluate. Qed.
End HealthSamples.
